(* ===== verification/_CoqProject ===== *)
-Q . S2P
Prelude.v
RustStd.v
Prog.v
Pool.v
Writes.v
Traced.v
Ledger.v
Config.v
Router.v
Breaker.v
RateLimit.v
Cache.v
CacheSpec.v
Http.v
Auth.v
Transform.v
Balancer.v
Telemetry.v
Events.v
State.v
Health.v
Proxy.v
Server.v
Main.v
Walk.v
Tasks.v
Demo.v
Steps.v
Ends.v
Lifecycle.v
Contents.v
Path.v
Stored.v
Quota.v
ProxyCalls.v
Protocol.v
ProxyResponse.v
Metering.v
RedisWindow.v
RedisQuota.v
ProxyGuard.v
ProxyGates.v
Flight.v
NoPanic.v
UnitTests.v
EndToEnd.v
Findings.v
