(* ===== verification/Prelude.v ===== *)
(** * A verification development for the API gateway

    The gateway is an HTTP reverse proxy: it reads a YAML configuration of routes,
    matches each request to a route, checks the route's credentials and rate
    limit, looks in the route's cache, and forwards the request to one of the
    route's upstreams, retrying on another one when that is allowed.  The state
    that requests share is made of atomics and of short critical sections:
    balancers, circuit breakers, caches and the rate limiter.  Health checks run
    beside the requests and write the health flags the balancers read.

    ** How the program is modelled

    A function that touches no shared state is a Coq function.  An asynchronous
    function is an effect tree ([prog], Prog.v): a sequence of atomic actions on
    the shared state (one atomic operation, or one critical section of a mutex),
    calls that return at once ([ext]: clock, metrics, random ids) and calls that
    are awaited ([await]: upstreams, Redis, the request's body), at each of which
    the task can be dropped.  An outcome is a value, a panic, or cancellation
    ([Outcome], below); a [Drop] guard is [finally], which runs on each of
    them.  There are six ways to state a property of a tree:
    - [exec] runs it under an oracle that gives the answers and, before every
      atomic action, lets the other tasks change the state ([o_rely]);
    - [wp] and [emits] are the program logics for such runs: the first over
      states, the second over the sequence of calls that a run makes;
    - [pool_step] (Pool.v) interleaves any number of trees on one state, and
      [safe] is the logic with one invariant for it; [exec_steps] says that a run
      of [exec] alone is one of these interleavings;
    - [tells] (Writes.v) is the logic for the sequence of a run's own deeds: its
      actions and its calls, with a label where the property gives them one;
    - [pool_trace] (Traced.v) is an interleaving with the calls that its tasks make,
      and [gates] is the logic in which each task is in a phase that says what it may
      call, an invariant relating the phases of all tasks to the state;
    - [tracks] (Ledger.v) is the logic for the calls a task has made so far, also on its
      way, in states of which something is known: in a pool, the lists of all tasks
      together are the trace.

    ** The files and the code

    General: Prelude.v (this file: notations, hints, lemmas on lists, strings and
    maps), RustStd.v (u32, u64, i64 with their range and their wrap-around or
    panic, [Duration], [Instant], [Mutex] with poisoning, [str] methods),
    Prog.v, Pool.v, Writes.v, Traced.v and Ledger.v (above).

    The components; the paths are those under src/crates/, and each definition
    has the name of the Rust item:
    - Config.v, core/src/config.rs and error.rs: the records, serde's defaults,
      [validate], loading.  [config_ok] is what validation promises.
    - Router.v, core/src/router.rs: [match_route], the tests on host and path, and
      the rewriting of the path.
    - Breaker.v, gateway/src/breaker.rs: a method is a [_section] on the mutex's
      content, taken by [locked].  [Documented] is the state machine of the comments,
      [Machine] the one that the code is.
    - RateLimit.v, gateway/src/ratelimit.rs: the trait is the class [RateLimiter];
      [InMemory] and [Redis] are its implementations, [LawfulLimiter] what its
      clients rely on.
    - Cache.v, gateway/src/cache.rs: entries with an expiry under a mutex.
      CacheSpec.v: what a cache promises over any history of calls.
    - Http.v: the part of the http crate the code calls, with its laws, and an
      implementation on association lists.
    - Auth.v, gateway/src/auth.rs; Transform.v, gateway/src/transform.rs.
    - Balancer.v, gateway/src/balancer.rs: [Balancer] is the immutable part,
      [BalState] the atomics; [ActiveGuard] is [guard_new] and [guard_drop].
    - Telemetry.v, telemetry/src/lib.rs: the descriptors, their creation and
      registration, and [init_tracing], on the cell and the process's subscriber;
      Events.v: the calls a task makes, and [calls] and [metrics], which read them off a
      run.
    - State.v, gateway/src/state.rs: [GatewayState] is what never changes after
      [build], [Shared] the atomics and mutexes behind it; [on_bal], [on_breaker],
      [on_cache] and [on_limiter] run a component's method on its part.
    - Health.v, gateway/src/health.rs: the tasks [run] spawns, and the body of one.
    - Proxy.v, gateway/src/proxy.rs: [handle], which the file splits as
      [route_and_proxy], [limit_and_forward], [lookup_and_forward], [forward],
      [attempts], [try_upstream], [finish_response], at the code's early returns.
    - Server.v, gateway/src/server.rs: the two applications; Main.v,
      gateway/src/main.rs: [main], from the arguments to the running tasks, and the
      configuration of config/gateway.yaml.
    - Lifecycle.v: from there to the end, main.rs and [run] of health.rs: the requests
      and the loops of the health checks ([Work]), the shutdown token and the waits of
      [main] and [run] ([Control]), as a step relation with a constructor per line that
      waits, spawns or returns.
    - UnitTests.v, the test modules of those files; EndToEnd.v,
      integration-tests/src/lib.rs (mock upstreams, a gateway) and tests/proxy.rs.
      A test is a boolean of the same name, evaluated.

    What the theorems on whole runs share:
    - Tasks.v: [arrives], the tasks that come up in a running gateway.
    - Walk.v: one walk through the handler and the health check.  [Walk] has a rule
      per effect the code makes, on the facts known there ([routed_at], [guarded]);
      [walk_handle] and [walk_task] give a property of the trees of all tasks from an
      instance, and from a rule for the rate limit's check of this request
      ([limit_of]).  NoPanic.v, Flight.v, ProxyGuard.v, Steps.v, Contents.v, Quota.v,
      Metering.v and RedisQuota.v have such instances.
    - Path.v: the same for [tells], up to the attempts; used by Stored.v and Protocol.v.
    - Demo.v is a small gateway on which statements are evaluated.

    ** The theorems

    - Any number of requests and health checks, interleaved in any way on one state
      ([pool_step]).  NoPanic.v: started from a validated configuration, no task
      panics ([gateway_never_panics]).  Flight.v: an upstream's active count is the
      number of calls in flight to it ([active_counts_in_flight]).  Steps.v: every
      state reached is well typed ([state_well_typed]), and every breaker is the
      machine that its code is alone, after some calls ([breakers_follow_machine]).
      Contents.v: what a cache may hold ([cache_contents_storable]).  Ends.v: a
      request ends within its budget of steps and is never stuck
      ([every_request_ends]), and requests in flight drain once no more arrive
      ([requests_drain]).  Quota.v: how many requests of a key of the rate limit get to
      an upstream ([rate_limit_bounds_calls]), and RedisQuota.v when the limiter is Redis
      ([redis_limit_bounds_calls]).  Metering.v: what the metrics show
      meanwhile: the gauge of active connections, the requests that were begun and not
      answered ([active_connections_unanswered]); the request counters, the answers
      ([requests_total_counts_answers]).
    - Any number of checks of the Redis limiter, of gateways that share a server
      (RedisWindow.v): how many a window lets through ([window_admits_limit]), that
      windows end when commands are answered ([windows_end]), and that a window whose
      EXPIRE is lost does not, and refuses until its count passes 2^32
      ([lost_expiry_refuses]).
    - One request, with anything happening beside it.  ProxyCalls.v: which upstream
      calls it makes ([retry_discipline], [calls_are_authorised]).  ProxyResponse.v:
      what a response carries and how it is counted.  ProxyGates.v: answers from the
      limiter and the cache.  ProxyGuard.v: the guards it takes are given back.
      Protocol.v: each upstream call is admitted before and reported after
      ([upstream_protocol]).  Stored.v: it stores only the response it sends
      ([stored_is_served]).
    - The process.  Main.v: when it comes up, and with what ([startup_spec]); its
      conclusion is the hypothesis of the theorems on running gateways.  Lifecycle.v:
      the running process is one of the pools of those theorems
      ([process_refines_pool]), it stops gracefully ([graceful_shutdown]), and after the
      signal it does stop ([shutdown_completes]).
    - The components.  Functional specifications of matching, validation, loading,
      authentication, header handling, cache and limiters; the breaker is the documented
      machine when the calls it guards do not overlap ([breaker_as_documented]), and a
      weaker one in general ([breaker_refines_machine]); refinement of the cache by
      responses with lifetimes ([cache_refines_spec]); fairness of weighted round robin and minimality of
      least-connections; the bound of the cache and of bursts; what [build] makes.
    - UnitTests.v and EndToEnd.v: the model passes the repository's tests.
    - Findings.v evaluates runs where the code and its documentation part.

    ** Bounds

    - The retry loop is structural on the attempts left: [max_attempts] is
      [retries + 1] in u32, saturating, as in the code; there is no other fuel on
      the path of a request, whose tree is finite.
    - The round-robin loop is structural on the length of the selection order.
    - [request_budget] (Ends.v) is computed from the route: linear in its retries, in
      the length of its selection order and in its number of upstreams.
    - A health task takes its number of ticks as an argument: the theorems hold for
      each number.
    - The limiters decide on a u32.  Theorems on how many requests they let through ask
      that a key counts fewer than 2^32 in a window (of its own requests, or INCRs): past
      that the in-memory count wraps, or panics in a debug build, and the Redis count is
      cut ([redis_count_truncated]).  So do the breaker's for its failures.
    - u32 additions follow the class [Profile]: they wrap in a release build and
      panic in a debug build.  [Wrapping], the release profile, is assumed only
      where it is named.  Atomic counters wrap.
    - [Instant + Duration] panics past [instant_limit].  [clock_room D] says that
      the times of a run leave room for durations up to [D]: validation does not
      bound the configured durations, so a theorem on panics has to.

    ** Parameters

    Libraries are classes, or arguments: [Http] and [HttpLaws] (http), [WebLib]
    (axum and serde_json: an error's body, the headers of a text response),
    [JwtLib] (jsonwebtoken and serde_json: decoding, how a number prints),
    [Prometheus] and [Meter] (prometheus: registration; updates and samples),
    [TracingLib] (tracing-subscriber), [RedisServer] with [RedisLaws] (what a Redis server
    does with INCR, EXPIRE and TTL), serde_yaml's parser and the file system (arguments
    of [from_yaml] and [from_file]), the builders of reqwest and redis (arguments
    of [build]), the parser of addresses and the binding of sockets (arguments of
    [main]), the iteration order of a [HashMap] ([Cache.hash_order]), when a served
    application may return after its shutdown (an argument of [process_step]).  What
    upstreams, Redis, the clock and clients answer is the oracle's choice.

    ** Not modelled

    axum's dispatch, the body-limit and trace layers (what the former does with a
    request is an argument of [Server.proxy_router]), sockets beyond the success of
    binding them, the log statements, tokio's scheduler and timers (a timeout is one of
    the answers of a call, and a tick may come at any time), the bytes of a streamed
    response, prometheus' text format, the texts of the YAML files (given as what they
    parse to).  The crate roots only declare modules. *)
From stdpp Require Export base option list strings gmap sets fin_maps.
From stdpp Require Export pretty.
From Stdlib Require Export (notations) Ascii.

#[global] Set Default Goal Selector "!".

(** ** Results and outcomes

    [Result] is Rust's [Result<T, E>].  [Outcome] is what a call can do: return
    a value, panic (the call unwinds) or be cancelled (the future of the request
    is dropped at an await point). *)

Inductive Result (E A : Type) : Type :=
| Ok (a : A)
| Err (e : E).
Arguments Ok {E A} a.
Arguments Err {E A} e.

#[export] Instance Result_ret {E} : MRet (Result E) := fun _ a => Ok a.
#[export] Instance Result_bind {E} : MBind (Result E) :=
  fun _ _ f r => match r with Ok a => f a | Err e => Err e end.

Definition ok_or {E A} (o : option A) (e : E) : Result E A :=
  match o with Some a => Ok a | None => Err e end.

Definition is_ok {E A} (r : Result E A) : bool :=
  match r with Ok _ => true | Err _ => false end.

Inductive Outcome (A : Type) : Type :=
| Ret (a : A)
| Panic (msg : string)
| Cancelled.
Arguments Ret {A} a.
Arguments Panic {A} msg.
Arguments Cancelled {A}.

#[export] Instance Outcome_ret : MRet Outcome := fun _ a => Ret a.
#[export] Instance Outcome_bind : MBind Outcome :=
  fun _ _ f r =>
    match r with Ret a => f a | Panic m => Panic m | Cancelled => Cancelled end.

#[export] Instance Outcome_fmap : FMap Outcome :=
  fun _ _ f r =>
    match r with Ret a => Ret (f a) | Panic m => Panic m | Cancelled => Cancelled end.

Definition returns {A} (o : Outcome A) : bool :=
  match o with Ret _ => true | _ => false end.

Definition is_some {A} (o : option A) : bool :=
  match o with Some _ => true | None => false end.

Definition is_nil {A} (l : list A) : bool :=
  match l with [] => true | _ => false end.

Lemma is_nil_true {A} (l : list A) : is_nil l = true ↔ l = [].
Proof. by destruct l. Qed.

(** ** Tactics of the development *)

Create HintDb gw.
Create Rewrite HintDb gw.
Create Rewrite HintDb str.

(** Split every [match]/[if] of the goal on the scrutinee, keeping equations. *)
Ltac split_match :=
  match goal with
  | |- context [match ?x with _ => _ end] =>
      lazymatch x with
      | context [match _ with _ => _ end] => fail
      | _ => destruct x eqn:?
      end
  end.

Ltac split_match_in H :=
  match type of H with
  | context [match ?x with _ => _ end] =>
      lazymatch x with
      | context [match _ with _ => _ end] => fail
      | _ => destruct x eqn:?
      end
  end.

(** Turn the boolean tests of the code into the propositions they decide. *)
Ltac bool_to_prop :=
  repeat match goal with
  | H : _ && _ = true |- _ => apply andb_true_iff in H as [? ?]
  | H : _ || _ = false |- _ => apply orb_false_iff in H as [? ?]
  | H : _ || _ = true |- _ => apply orb_true_iff in H
  | H : _ && _ = false |- _ => apply andb_false_iff in H
  | H : negb _ = true |- _ => apply negb_true_iff in H
  | H : negb _ = false |- _ => apply negb_false_iff in H
  | H : bool_decide _ = true |- _ => apply bool_decide_eq_true in H
  | H : bool_decide _ = false |- _ => apply bool_decide_eq_false in H
  | H : Z.leb _ _ = true |- _ => apply Z.leb_le in H
  | H : Z.leb _ _ = false |- _ => apply Z.leb_gt in H
  | H : Z.ltb _ _ = true |- _ => apply Z.ltb_lt in H
  | H : Z.ltb _ _ = false |- _ => apply Z.ltb_ge in H
  | H : Z.eqb _ _ = true |- _ => apply Z.eqb_eq in H
  | H : Z.eqb _ _ = false |- _ => apply Z.eqb_neq in H
  | H : Nat.ltb _ _ = true |- _ => apply Nat.ltb_lt in H
  | H : Nat.ltb _ _ = false |- _ => apply Nat.ltb_ge in H
  | H : Nat.eqb _ _ = true |- _ => apply Nat.eqb_eq in H
  | H : Nat.eqb _ _ = false |- _ => apply Nat.eqb_neq in H
  | H : String.eqb _ _ = true |- _ => apply String.eqb_eq in H
  | H : String.eqb _ _ = false |- _ => apply String.eqb_neq in H
  end.

(** ** Generic list lemmas *)

Section lists.
Context {A B : Type}.

Lemma last_app_singleton (l : list A) (x : A) : last (l ++ [x]) = Some x.
Proof. induction l as [|y l IH]; [done|]. by destruct l. Qed.

Lemma filter_app_bool (P : A → Prop) `{∀ x, Decision (P x)} (l k : list A) :
  filter P (l ++ k) = filter P l ++ filter P k.
Proof. apply filter_app. Qed.

Lemma filter_none (P : A → Prop) `{∀ x, Decision (P x)} (l : list A) :
  Forall (λ x, ¬ P x) l → filter P l = [].
Proof.
  induction 1 as [|x l Hx _ IH]; [done|].
  by rewrite filter_cons_False.
Qed.

Lemma filter_all (P : A → Prop) `{∀ x, Decision (P x)} (l : list A) :
  Forall P l → filter P l = l.
Proof.
  induction 1 as [|x l Hx _ IH]; [done|].
  by rewrite filter_cons_True, IH.
Qed.

Lemma Forall_existsb_false (f : A → bool) (l : list A) :
  existsb f l = false ↔ Forall (λ x, f x = false) l.
Proof.
  induction l as [|x l IH]; simpl; [done|].
  rewrite orb_false_iff, Forall_cons, IH. done.
Qed.

Lemma omap_cons_app (f : A → option B) (x : A) (l : list A) :
  omap f (x :: l) = option_list (f x) ++ omap f l.
Proof. cbn. by destruct (f x). Qed.

Lemma existsb_elem_of (f : A → bool) (l : list A) :
  existsb f l = true ↔ ∃ x, x ∈ l ∧ f x = true.
Proof.
  rewrite existsb_exists. by setoid_rewrite list_elem_of_In.
Qed.

(** The elements with a property, when one is replaced. *)
Lemma filter_insert_length (P : A → Prop) `{∀ x, Decision (P x)} (l : list A) i x y :
  l !! i = Some x →
  length (filter P (<[i := y]> l)) + (if decide (P x) then 1 else 0)
  = length (filter P l) + (if decide (P y) then 1 else 0).
Proof.
  revert i. induction l as [|z l IH]; intros [|i]; simpl; [done..| |].
  - intros [= ->]. rewrite !filter_cons.
    destruct (decide (P x)), (decide (P y)); simpl; lia.
  - intros Hi. specialize (IH i Hi). rewrite !filter_cons.
    destruct (decide (P z)); simpl; lia.
Qed.

Lemma filter_ext_in (P Q : A → Prop) `{∀ x, Decision (P x), ∀ x, Decision (Q x)} (l : list A) :
  Forall (λ x, P x ↔ Q x) l → filter P l = filter Q l.
Proof.
  induction 1 as [|x l Hx _ IH]; [done|]. rewrite !filter_cons, IH. by repeat case_decide; tauto.
Qed.
End lists.

Lemma insert_delete_Permutation {A} (l : list A) i x :
  i < length l → <[i := x]> l ≡ₚ x :: delete i l.
Proof.
  intros Hi. rewrite insert_take_drop, delete_take_drop by done.
  symmetry. apply Permutation_middle.
Qed.

(** Sums of a list with an element changed or taken out. *)
Lemma sum_list_insert_lt l i a b :
  l !! i = Some a → b < a → sum_list (<[i := b]> l) < sum_list l.
Proof.
  revert i. induction l as [|n l IH]; intros [|i]; simpl; [done..| |].
  - intros [= ->] Hb. unfold id. lia.
  - intros Hi Hb. specialize (IH i Hi Hb). lia.
Qed.

Lemma sum_list_delete l i a : l !! i = Some a → sum_list l = a + sum_list (delete i l).
Proof.
  revert i. induction l as [|n l IH]; intros [|i]; simpl; [done..| |].
  - by intros [= ->].
  - intros Hi. rewrite (IH i Hi). unfold id. lia.
Qed.

(** Counting the positions of an element. *)
Lemma positions_length {A} `{EqDecision A} (l : list A) (x : A) :
  length (filter (λ i, l !! i = Some x) (seq 0 (length l))) = length (filter (λ y, y = x) l).
Proof.
  induction l as [|y l IH] using rev_ind; [done|].
  rewrite length_app, seq_app, !filter_app, !length_app. simpl. f_equal.
  - rewrite <- IH. f_equal. apply filter_ext_in, Forall_forall.
    intros i Hi%elem_of_seq. by rewrite lookup_app_l by lia.
  - rewrite !filter_cons, !filter_nil, list_lookup_middle by done.
    repeat case_decide; simplify_eq; done.
Qed.
