(* ===== verification/RustStd.v ===== *)
(** The parts of the Rust standard library the gateway uses: fixed-width
    integers, [Duration]/[Instant], [Mutex] with poisoning, and the [str]
    methods (on the bytes of the string). *)
From S2P Require Import Prelude.

(** ** Fixed-width integers: a value is the [Z] it denotes. *)

Definition u32_max : Z := 2 ^ 32 - 1.
Definition u64_max : Z := 2 ^ 64 - 1.
Definition i64_max : Z := 2 ^ 63 - 1.

Definition u32_ok (n : Z) : Prop := (0 ≤ n ≤ u32_max)%Z.
Definition u64_ok (n : Z) : Prop := (0 ≤ n ≤ u64_max)%Z.
Definition i64_ok (n : Z) : Prop := (- 2 ^ 63 ≤ n < 2 ^ 63)%Z.

(** The build profile: with [overflow_checks] an overflowing [+] panics (debug
    and test builds); without, it wraps (the [release] profile of the crate). *)
Class Profile := overflow_checks : bool.

Definition u32_add `{Profile} (a b : Z) : Outcome Z :=
  let r := (a + b)%Z in
  if (r <=? u32_max)%Z then Ret r
  else if overflow_checks then Panic "attempt to add with overflow"
  else Ret (r mod 2 ^ 32)%Z.

Definition u32_saturating_add (a b : Z) : Z := Z.min (a + b) u32_max.
Definition u32_saturating_sub (a b : Z) : Z := Z.max (a - b) 0.

(** [AtomicUsize::fetch_add] and [AtomicI64::fetch_add] wrap in every profile. *)
Definition usize_wrapping_add (a b : Z) : Z := ((a + b) mod 2 ^ 64)%Z.
Definition i64_wrap (n : Z) : Z := ((n + 2 ^ 63) mod 2 ^ 64 - 2 ^ 63)%Z.

Lemma usize_wrapping_ok a b : u64_ok (usize_wrapping_add a b).
Proof.
  unfold u64_ok, u64_max, usize_wrapping_add. pose proof (Z.mod_pos_bound (a + b) (2 ^ 64)). lia.
Qed.

Lemma i64_wrap_ok n : i64_ok (i64_wrap n).
Proof. unfold i64_ok, i64_wrap. pose proof (Z.mod_pos_bound (n + 2 ^ 63) (2 ^ 64)). lia. Qed.

Lemma i64_wrap_id n : i64_ok n → i64_wrap n = n.
Proof. unfold i64_ok, i64_wrap. intros Hn. rewrite Z.mod_small; lia. Qed.

(** Casts with [as]. *)
Definition as_u32 (n : Z) : Z := (n mod 2 ^ 32)%Z.
Definition as_u64 (n : Z) : Z := (n mod 2 ^ 64)%Z.
Definition as_i64 (n : Z) : Z := i64_wrap n.

(** ** Time: a [Duration] and an [Instant] are counts of nanoseconds. *)

Definition nanos : Z := 1000000000.
Abbreviation Duration := Z.
Abbreviation Instant := Z.

Definition Duration_from_secs (s : Z) : Duration := (s * nanos)%Z.
Definition Duration_from_millis (ms : Z) : Duration := (ms * 1000000)%Z.
Definition Duration_as_secs (d : Duration) : Z := (d / nanos)%Z.
Definition Duration_checked_sub (a b : Duration) : option Duration :=
  if (b <=? a)%Z then Some (a - b)%Z else None.
(** [duration_since] saturates at zero. *)
Definition duration_since (now earlier : Instant) : Duration :=
  Z.max (now - earlier) 0.

(** [Instant + Duration] panics when the result is not representable: the
    seconds of an [Instant] are an [i64]. *)
Definition instant_limit : Z := (2 ^ 63 * nanos)%Z.
Definition instant_add (i : Instant) (d : Duration) : Outcome Instant :=
  if (i + d <? instant_limit)%Z then Ret (i + d)%Z
  else Panic "overflow when adding duration to instant".

(** ** [std::sync::Mutex]: a panic inside the critical section poisons it, and
    [lock().expect(..)] panics on a poisoned mutex. *)

Record Mutex (A : Type) := mkMutex { mu_val : A; mu_poisoned : bool }.
Arguments mkMutex {A} mu_val mu_poisoned.
Arguments mu_val {A} m.
Arguments mu_poisoned {A} m.

Definition Mutex_new {A} (a : A) : Mutex A := mkMutex a false.

Definition with_lock {A B} (what : string) (f : A → Outcome B * A)
    (m : Mutex A) : Outcome B * Mutex A :=
  if mu_poisoned m then (Panic what, m)
  else let '(r, a) := f (mu_val m) in (r, mkMutex a (negb (returns r))).

Lemma with_lock_live {A B} what (f : A → Outcome B * A) (m : Mutex A) b a :
  mu_poisoned m = false → f (mu_val m) = (Ret b, a) →
  with_lock what f m = (Ret b, mkMutex a false).
Proof. intros Hp Hf. unfold with_lock. by rewrite Hp, Hf. Qed.

Lemma with_lock_poisoned {A B} what (f : A → Outcome B * A) (m : Mutex A) :
  mu_poisoned m = true → with_lock what f m = (Panic what, m).
Proof. intros Hp. unfold with_lock. by rewrite Hp. Qed.

(** A section that panics leaves the mutex poisoned. *)
Lemma with_lock_panics {A B} what (f : A → Outcome B * A) (m : Mutex A) msg a :
  mu_poisoned m = false → f (mu_val m) = (Panic msg, a) →
  with_lock what f m = (Panic msg, mkMutex a true).
Proof. intros Hp Hf. unfold with_lock. by rewrite Hp, Hf. Qed.

(** ** Facts about the integer and time operations *)

Lemma u32_add_exact `{Profile} a b :
  (a + b ≤ u32_max)%Z → u32_add a b = Ret (a + b)%Z.
Proof. intros Hle. unfold u32_add. by rewrite (proj2 (Z.leb_le _ _) Hle). Qed.

Lemma u32_add_ok `{Profile} a b c :
  u32_ok a → u32_ok b → u32_add a b = Ret c → u32_ok c.
Proof.
  unfold u32_add, u32_ok, u32_max. intros Ha Hb.
  destruct (Z.leb_spec (a + b) (2 ^ 32 - 1)); [intros [= <-]; lia|].
  destruct overflow_checks; [done|]. intros [= <-].
  pose proof (Z.mod_pos_bound (a + b) (2 ^ 32)). lia.
Qed.

Lemma instant_add_exact i d :
  (i + d < instant_limit)%Z → instant_add i d = Ret (i + d)%Z.
Proof. intros Hlt. unfold instant_add. by rewrite (proj2 (Z.ltb_lt _ _) Hlt). Qed.

Lemma instant_add_ret i d r : instant_add i d = Ret r → r = (i + d)%Z.
Proof. unfold instant_add. case_match; [by intros [= <-]|done]. Qed.

Lemma duration_since_le now earlier :
  (earlier ≤ now)%Z → duration_since now earlier = (now - earlier)%Z.
Proof. unfold duration_since. lia. Qed.

#[export] Hint Rewrite @u32_add_exact using lia : gw.
#[export] Hint Rewrite instant_add_exact duration_since_le using lia : gw.

(** ** [str] methods.  A [str] is its bytes; the methods below agree with the
    Rust ones on the strings the gateway applies them to: prefixes are compared
    bytewise, and [trim] is applied to header text, which [to_str] guarantees to
    be visible ASCII, where white space is space and tab (the other ASCII white
    space characters are included). *)

Definition is_empty (s : string) : bool :=
  match s with EmptyString => true | _ => false end.

Fixpoint strip_prefix (p s : string) : option string :=
  match p, s with
  | EmptyString, _ => Some s
  | String a p', String b s' => if Ascii.eqb a b then strip_prefix p' s' else None
  | String _ _, EmptyString => None
  end.

Definition starts_with (s p : string) : bool :=
  match strip_prefix p s with Some _ => true | None => false end.

Fixpoint trim_end_by (f : Ascii.ascii → bool) (s : string) : string :=
  match s with
  | EmptyString => EmptyString
  | String a s' =>
      let t := trim_end_by f s' in
      if is_empty t && f a then EmptyString else String a t
  end.

Fixpoint trim_start_by (f : Ascii.ascii → bool) (s : string) : string :=
  match s with
  | EmptyString => EmptyString
  | String a s' => if f a then trim_start_by f s' else s
  end.

Definition is_whitespace (a : Ascii.ascii) : bool :=
  let n := Ascii.nat_of_ascii a in
  Nat.eqb n 32 || (Nat.leb 9 n && Nat.leb n 13).

Definition trim_end_matches (c : Ascii.ascii) (s : string) : string :=
  trim_end_by (Ascii.eqb c) s.
Definition trim (s : string) : string :=
  trim_end_by is_whitespace (trim_start_by is_whitespace s).

(** [s.split(c).next()]: the text before the first [c], the whole of [s] when
    there is none (so the iterator is never empty). *)
Fixpoint split_next (c : Ascii.ascii) (s : string) : string :=
  match s with
  | EmptyString => EmptyString
  | String a s' => if Ascii.eqb a c then EmptyString else String a (split_next c s')
  end.

Fixpoint contains (pat s : string) : bool :=
  starts_with s pat ||
  match s with EmptyString => false | String _ s' => contains pat s' end.

Definition ascii_lower (a : Ascii.ascii) : Ascii.ascii :=
  let n := Ascii.nat_of_ascii a in
  if Nat.leb 65 n && Nat.leb n 90 then Ascii.ascii_of_nat (n + 32) else a.

Fixpoint to_ascii_lowercase (s : string) : string :=
  match s with
  | EmptyString => EmptyString
  | String a s' => String (ascii_lower a) (to_ascii_lowercase s')
  end.

Definition eq_ignore_ascii_case (a b : string) : bool :=
  String.eqb (to_ascii_lowercase a) (to_ascii_lowercase b).

(** Decimal rendering ([to_string] of an unsigned integer). *)
Definition u_to_string (n : Z) : string := pretty n.

(** *** Lemmas on the string methods *)

Lemma append_nil_l (s : string) : (EmptyString +:+ s)%string = s.
Proof. done. Qed.

Lemma append_cons a (s t : string) : (String a s +:+ t)%string = String a (s +:+ t).
Proof. done. Qed.

Lemma append_nil_r (s : string) : (s +:+ EmptyString)%string = s.
Proof. induction s as [|a s IH]; [done|]. by rewrite append_cons, IH. Qed.

Lemma append_assoc (a b c : string) : ((a +:+ b) +:+ c = a +:+ (b +:+ c))%string.
Proof. induction a as [|x a IH]; [done|]. by rewrite !append_cons, IH. Qed.

Lemma append_inj_l (a b c : string) : (a +:+ b = a +:+ c)%string → b = c.
Proof.
  induction a as [|x a IH]; [done|]. rewrite !append_cons. intros [=]. auto.
Qed.

#[export] Hint Rewrite append_nil_l append_cons append_nil_r append_assoc : str.

Lemma strip_prefix_Some p s r : strip_prefix p s = Some r ↔ s = (p +:+ r)%string.
Proof.
  revert s. induction p as [|a p IH]; intros s; cbn.
  { split; [by intros [= ->]|intros ->; done]. }
  destruct s as [|b s]; [done|]. rewrite append_cons.
  destruct (Ascii.eqb_spec a b) as [->|Hne].
  - rewrite IH. split; [by intros ->|by intros [= ->]].
  - split; [done|intros [=]; congruence].
Qed.

#[global] Arguments strip_prefix : simpl never.

Lemma starts_with_true s p : starts_with s p = true ↔ ∃ r, s = (p +:+ r)%string.
Proof.
  unfold starts_with. destruct (strip_prefix p s) as [r|] eqn:E.
  - apply strip_prefix_Some in E. split; [eauto|done].
  - split; [done|]. intros [r Hr%strip_prefix_Some]. congruence.
Qed.

Lemma length_append (a b : string) :
  String.length (a +:+ b) = String.length a + String.length b.
Proof. induction a as [|x a IH]; [done|]. rewrite append_cons. cbn. by rewrite IH. Qed.

Lemma get_append_eq (a b : string) :
  String.get (String.length a) (a +:+ b) = String.get 0 b.
Proof. induction a as [|x a IH]; [done|]. rewrite append_cons. done. Qed.

Lemma is_empty_true s : is_empty s = true ↔ s = EmptyString.
Proof. by destruct s. Qed.

Lemma is_empty_false s : is_empty s = false ↔ s ≠ EmptyString.
Proof. by destruct s. Qed.

Lemma to_ascii_lowercase_length s :
  String.length (to_ascii_lowercase s) = String.length s.
Proof. induction s as [|a s IH]; [done|]. cbn. by rewrite IH. Qed.

Lemma eq_ignore_ascii_case_refl s : eq_ignore_ascii_case s s = true.
Proof. apply String.eqb_refl. Qed.

Lemma eq_ignore_ascii_case_true a b :
  eq_ignore_ascii_case a b = true ↔ to_ascii_lowercase a = to_ascii_lowercase b.
Proof. apply String.eqb_eq. Qed.

Lemma split_next_spec c s :
  split_next c s = s ∨ ∃ r, s = (split_next c s +:+ String c r)%string.
Proof.
  induction s as [|a s IH]; [by left|]. cbn.
  destruct (Ascii.eqb_spec a c) as [->|Hne]; [right; by exists s|].
  destruct IH as [->|[r IH]]; [by left|]. right. exists r.
  by rewrite append_cons, <- IH.
Qed.

Lemma split_next_app c s r :
  split_next c s = s → split_next c (s +:+ String c r) = s.
Proof.
  induction s as [|a s IH]; [rewrite append_nil_l|rewrite append_cons]; cbn.
  { intros _. by rewrite Ascii.eqb_refl. }
  destruct (Ascii.eqb_spec a c) as [->|Hne]; [done|].
  intros [= Hs]. by rewrite IH.
Qed.
