(* ===== verification/Prog.v ===== *)
(** Concurrent request code as effect trees.

    The gateway's asynchronous functions share state through atomics and short
    mutex sections, call the outside world, and can be dropped at any [.await].
    [prog E S A] is such a function: a tree of atomic actions on the shared
    state [S], of external calls [E], and of cancellable (awaited) external
    calls.  [exec] runs a tree against an oracle, which answers the calls,
    cancels awaits, and lets the other tasks change the shared state before
    every atomic action.  [wp] is the matching program logic: a postcondition
    that holds whatever the other tasks do within the rely [R]. *)
From S2P Require Import Prelude RustStd.

Section prog.
Context {E : Type → Type} {S : Type}.

Inductive prog (A : Type) : Type :=
| Done (o : Outcome A)
| Atomic {X : Type} (f : S → Outcome X * S) (k : Outcome X → prog A)
| Ext {X : Type} (e : E X) (k : X → prog A)
| Await {X : Type} (e : E X) (k : option X → prog A).
Arguments Done {A} o.
Arguments Atomic {A X} f k.
Arguments Ext {A X} e k.
Arguments Await {A X} e k.

(** Sequencing on every outcome; the continuation sees panics and drops. *)
Fixpoint bind_outcome {A B} (p : prog A) (k : Outcome A → prog B) : prog B :=
  match p with
  | Done o => k o
  | Atomic f k0 => Atomic f (λ x, bind_outcome (k0 x) k)
  | Ext e k0 => Ext e (λ x, bind_outcome (k0 x) k)
  | Await e k0 => Await e (λ x, bind_outcome (k0 x) k)
  end.

(** Continue after a normal return; a panic or a drop ends the function. *)
Definition on_ret {A B} (k : A → prog B) (o : Outcome A) : prog B :=
  match o with
  | Ret a => k a
  | Panic m => Done (Panic m)
  | Cancelled => Done Cancelled
  end.

#[global] Instance prog_ret : MRet prog := λ A a, Done (Ret a).
#[global] Instance prog_bind : MBind prog := λ A B k p, bind_outcome p (on_ret k).

Definition act {X} (f : S → Outcome X * S) : prog X := Atomic f Done.
Definition ext {X} (e : E X) : prog X := Ext e (λ x, Done (Ret x)).
Definition await {X} (e : E X) : prog X :=
  Await e (λ x, match x with Some x => Done (Ret x) | None => Done Cancelled end).
Definition panic {X} (msg : string) : prog X := Done (Panic msg).

(** [finally p d]: run the destructor [d] however [p] ends (Rust's [Drop]). *)
Definition finally {A} (p : prog A) (d : S → S) : prog A :=
  bind_outcome p (λ o, Atomic (λ s, (Ret tt, d s)) (λ _, Done o)).

(** What an observer of the outside world sees. *)
Inductive Obs : Type :=
| Called {X : Type} (e : E X) (answer : option X).

Record Oracle := {
  o_rely : nat → S → S;
  o_ext : nat → ∀ X, E X → X;
  o_await : nat → ∀ X, E X → option X;
}.

Record Run (A : Type) := mkRun {
  r_out : Outcome A; r_state : S; r_step : nat; r_obs : list Obs }.
Arguments mkRun {A} r_out r_state r_step r_obs.
Arguments r_out {A} r.
Arguments r_state {A} r.
Arguments r_step {A} r.
Arguments r_obs {A} r.

Definition see {A} (ob : list Obs) (r : Run A) : Run A :=
  mkRun (r_out r) (r_state r) (r_step r) (ob ++ r_obs r).

Fixpoint exec {A} (o : Oracle) (p : prog A) (n : nat) (s : S) : Run A :=
  match p with
  | Done out => mkRun out s n []
  | Atomic f k =>
      let '(x, s') := f (o_rely o n s) in exec o (k x) (Datatypes.S n) s'
  | Ext e k =>
      let x := o_ext o n _ e in
      see [Called e (Some x)] (exec o (k x) (Datatypes.S n) s)
  | Await e k =>
      let x := o_await o n _ e in
      see [Called e x] (exec o (k x) (Datatypes.S n) s)
  end.

(** ** The program logic *)

(** The rely, and what is known of the answers of the outside world. *)
Context (R : S → S → Prop) (Ans : ∀ X, E X → X → Prop).

Fixpoint wp {A} (p : prog A) (Q : Outcome A → S → list Obs → Prop)
    (s : S) (t : list Obs) : Prop :=
  match p with
  | Done o => Q o s t
  | Atomic f k =>
      ∀ s', R s s' → wp (k (f s').1) Q (f s').2 t
  | Ext e k => ∀ x, Ans _ e x → wp (k x) Q s (t ++ [Called e (Some x)])
  | Await e k =>
      (∀ x, Ans _ e x → wp (k (Some x)) Q s (t ++ [Called e (Some x)])) ∧
      wp (k None) Q s (t ++ [Called e None])
  end.

(** An oracle that respects the rely and the assumptions on answers. *)
Record lawful (o : Oracle) : Prop := {
  lawful_rely : ∀ n s, R s (o_rely o n s);
  lawful_ext : ∀ n X (e : E X), Ans X e (o_ext o n X e);
  lawful_await : ∀ n X (e : E X) x, o_await o n X e = Some x → Ans X e x;
}.

Lemma wp_sound {A} (p : prog A) Q o n s t :
  lawful o → wp p Q s t →
  Q (r_out (exec o p n s)) (r_state (exec o p n s))
    (t ++ r_obs (exec o p n s)).
Proof.
  intros Ho. revert Q n s t. induction p as [out|X f k IH|X e k IH|X e k IH];
    intros Q n s t Hwp; simpl in *.
  - by rewrite app_nil_r.
  - specialize (Hwp _ (lawful_rely _ Ho n s)).
    destruct (f (o_rely o n s)) as [x s']; simpl in *. by apply IH.
  - specialize (Hwp _ (lawful_ext _ Ho n _ e)).
    apply IH with (n := Datatypes.S n) in Hwp. by rewrite <- app_assoc in Hwp.
  - destruct Hwp as [Hs Hn].
    destruct (o_await o n X e) as [x|] eqn:Ex.
    + specialize (Hs _ (lawful_await _ Ho _ _ _ _ Ex)).
      apply IH with (n := Datatypes.S n) in Hs. by rewrite <- app_assoc in Hs.
    + apply IH with (n := Datatypes.S n) in Hn. by rewrite <- app_assoc in Hn.
Qed.

Lemma wp_mono {A} (p : prog A) (Q Q' : Outcome A → S → list Obs → Prop) s t :
  (∀ o s t, Q o s t → Q' o s t) → wp p Q s t → wp p Q' s t.
Proof.
  intros HQ. revert s t.
  induction p as [out|X f k IH|X e k IH|X e k IH]; intros s t; simpl; eauto.
  intros [Hs Hn]. split; eauto.
Qed.

Lemma wp_bind_outcome {A B} (p : prog A) (k : Outcome A → prog B) Q s t :
  wp p (λ o s t, wp (k o) Q s t) s t → wp (bind_outcome p k) Q s t.
Proof.
  revert s t. induction p as [out|X f k0 IH|X e k0 IH|X e k0 IH];
    intros s t; simpl; eauto.
  intros [Hs Hn]. split; eauto.
Qed.

Lemma wp_bind {A B} (p : prog A) (k : A → prog B) Q s t :
  wp p (λ o s t, wp (on_ret k o) Q s t) s t → wp (p ≫= k) Q s t.
Proof. apply wp_bind_outcome. Qed.

Lemma wp_ret {A} (a : A) Q s t : Q (Ret a) s t → wp (mret a) Q s t.
Proof. done. Qed.

Lemma wp_act {X} (f : S → Outcome X * S) Q s t :
  (∀ s', R s s' → Q (f s').1 (f s').2 t) → wp (act f) Q s t.
Proof. done. Qed.

Lemma wp_ext {X} (e : E X) Q s t :
  (∀ x, Ans _ e x → Q (Ret x) s (t ++ [Called e (Some x)])) → wp (ext e) Q s t.
Proof. done. Qed.

Lemma wp_await {X} (e : E X) Q s t :
  (∀ x, Ans _ e x → Q (Ret x) s (t ++ [Called e (Some x)])) →
  Q Cancelled s (t ++ [Called e None]) →
  wp (await e) Q s t.
Proof. done. Qed.

Lemma wp_finally {A} (p : prog A) d Q s t :
  wp p (λ o s t, ∀ s', R s s' → Q o (d s') t) s t → wp (finally p d) Q s t.
Proof. intros Hwp. by apply wp_bind_outcome. Qed.

(** Two postconditions of one run hold together. *)
Lemma wp_and {A} (p : prog A) (Q Q' : Outcome A → S → list Obs → Prop) s t :
  wp p Q s t → wp p Q' s t → wp p (λ o s t, Q o s t ∧ Q' o s t) s t.
Proof.
  revert s t. induction p as [out|X f k IH|X e k IH|X e k IH];
    intros s t; simpl; eauto.
  intros [? ?] [? ?]. split; eauto.
Qed.
End prog.

Arguments prog : clear implicits.
Arguments Done {E S A} o.
Arguments Atomic {E S A X} f k.
Arguments Ext {E S A X} e k.
Arguments Await {E S A X} e k.
Arguments Obs : clear implicits.
Arguments Oracle : clear implicits.
Arguments Run : clear implicits.
Arguments mkRun {E S A} r_out r_state r_step r_obs.
Arguments r_out {E S A} r.
Arguments r_state {E S A} r.
Arguments r_step {E S A} r.
Arguments r_obs {E S A} r.
Arguments Called {E X} e answer.

(** Reading the clock ([Instant::now()]) is an external call. *)
Class Clock (E : Type → Type) := ev_now : E Instant.

Definition Instant_now {E S} `{Clock E} : prog E S Instant := ext ev_now.

(** The signature of code that only reads the clock, and its runs at one time
    with no other task. *)
Inductive ClockE : Type → Type := ENow : ClockE Instant.

#[export] Instance clock_ClockE : Clock ClockE := ENow.

Definition clock_answer (t : Instant) {X} (e : ClockE X) : X :=
  match e with ENow => t end.

Definition alone_at {S} (t : Instant) : Oracle ClockE S := {|
  o_rely := λ _ s, s;
  o_ext := λ _ X e, clock_answer t e;
  o_await := λ _ X e, Some (clock_answer t e);
|}.

(** ** Execution equations *)
Section exec.
Context {E : Type → Type} {S : Type}.

Lemma exec_bind_outcome {A B} (o : Oracle E S) (p : prog E S A)
    (k : Outcome A → prog E S B) n s :
  exec o (bind_outcome p k) n s =
    let r := exec o p n s in
    see (r_obs r) (exec o (k (r_out r)) (r_step r) (r_state r)).
Proof.
  revert n s. induction p as [out|X f k0 IH|X e k0 IH|X e k0 IH]; intros n s; simpl.
  - unfold see. by destruct (exec o (k out) n s).
  - destruct (f (o_rely o n s)) as [x s']. by rewrite IH.
  - by rewrite IH.
  - by rewrite IH.
Qed.

(** After a part that returns, the continuation runs from where it stopped. *)
Lemma exec_bind_ret {A B} (o : Oracle E S) (p : prog E S A) (k : A → prog E S B) n s a :
  r_out (exec o p n s) = Ret a →
  exec o (p ≫= k) n s =
    see (r_obs (exec o p n s)) (exec o (k a) (r_step (exec o p n s)) (r_state (exec o p n s))).
Proof.
  intros Ha. transitivity (exec o (bind_outcome p (on_ret k)) n s); [done|].
  rewrite exec_bind_outcome. cbv zeta. by rewrite Ha.
Qed.
End exec.

(** ** Running a component inside a larger state

    [zoom] runs a program on a part of the state.  On a part that is gone the
    action panics (the gateway's references never dangle). *)
Section zoom.
Context {E : Type → Type} {S S' : Type} (get : S' → option S) (set : S → S' → S').

Fixpoint zoom {A} (p : prog E S A) : prog E S' A :=
  match p with
  | Done o => Done o
  | Atomic f k =>
      Atomic (λ s', match get s' with
                    | Some s => let '(x, s1) := f s in (x, set s1 s')
                    | None => (Panic "dangling reference", s')
                    end) (λ x, zoom (k x))
  | Ext e k => Ext e (λ x, zoom (k x))
  | Await e k => Await e (λ x, zoom (k x))
  end.

(** A run of the part is a run of the whole, when the other tasks act on the
    part as [R] allows and keep what [K] says of the rest. *)
Lemma wp_zoom {A} (R : S → S → Prop) (R' : S' → S' → Prop) (K : S' → Prop) Ans
    (p : prog E S A) Q s s' t :
  (∀ s s', is_Some (get s') → get (set s s') = Some s) →
  (∀ s s', K s' → K (set s s')) →
  (∀ s1' s2' s1, R' s1' s2' → K s1' → get s1' = Some s1 →
     K s2' ∧ ∃ s2, get s2' = Some s2 ∧ R s1 s2) →
  get s' = Some s → K s' → wp R Ans p Q s t →
  wp R' Ans (zoom p) (λ o s' t, K s' ∧ ∃ s, get s' = Some s ∧ Q o s t) s' t.
Proof.
  intros Hgs HK HR. revert s s' t.
  induction p as [out|X f k IH|X e k IH|X e k IH]; intros s s' t Hs HKs; simpl; eauto.
  - intros Hp s1' Hs1'. destruct (HR _ _ _ Hs1' HKs Hs) as (HK1 & s1 & Hs1 & Hr).
    rewrite Hs1. specialize (Hp _ Hr). destruct (f s1) as [x s2]; simpl in *.
    apply (IH x s2); [apply Hgs; eauto|by apply HK|done].
  - intros [Hp Hn]. split; eauto.
Qed.

(** A run of the part keeps what updates of the part cannot change. *)
Lemma wp_zoom_keep {A} (R' : S' → S' → Prop) (K : S' → Prop) Ans (p : prog E S A) s' t :
  (∀ s s', K s' → K (set s s')) →
  (∀ s1 s2, R' s1 s2 → K s1 → K s2) →
  K s' → wp R' Ans (zoom p) (λ _ s' _, K s') s' t.
Proof.
  intros HK HR. revert s' t.
  induction p as [out|X f k IH|X e k IH|X e k IH]; intros s' t Hs; simpl; eauto.
  intros s1 Hs1. specialize (HR _ _ Hs1 Hs). destruct (get s1) as [s|]; [|by apply IH].
  destruct (f s) as [x s2]. apply IH. by apply HK.
Qed.
End zoom.

(** ** What a program can emit

    [emits p Q]: however the shared state answers, [p] ends with an outcome [o]
    after events whose views are [cs], such that [Q o cs].  Nothing is assumed of
    the other tasks, so the rules need no invariant. *)
Section emits.
Context {E : Type → Type} {S C : Type}.
Context (Ans : ∀ X, E X → X → Prop) (view : Obs E → option C).

Definition seen (ob : Obs E) : list C := option_list (view ob).

Fixpoint emits {A} (p : prog E S A) (Q : Outcome A → list C → Prop) : Prop :=
  match p with
  | Done o => Q o []
  | Atomic f k => ∀ x, emits (k x) Q
  | Ext e k =>
      ∀ x, Ans _ e x → emits (k x) (λ o cs, Q o (seen (Called e (Some x)) ++ cs))
  | Await e k =>
      (∀ x, Ans _ e x → emits (k (Some x)) (λ o cs, Q o (seen (Called e (Some x)) ++ cs)))
      ∧ emits (k None) (λ o cs, Q o (seen (Called e None) ++ cs))
  end.

Lemma emits_mono {A} (p : prog E S A) (Q Q' : Outcome A → list C → Prop) :
  (∀ o cs, Q o cs → Q' o cs) → emits p Q → emits p Q'.
Proof.
  revert Q Q'. induction p as [out|X f k IH|X e k IH|X e k IH]; intros Q Q' HQ; simpl; eauto.
  - intros Hp x Hx. eapply IH; [|by apply Hp]. eauto.
  - intros [Hp Hn]. split; [intros x Hx|]; (eapply IH; [|eauto]; eauto).
Qed.

Lemma emits_bind_outcome {A B} (p : prog E S A) (k : Outcome A → prog E S B) Q :
  emits p (λ o cs, emits (k o) (λ o' cs', Q o' (cs ++ cs'))) → emits (bind_outcome p k) Q.
Proof.
  revert Q. induction p as [out|X f k0 IH|X e k0 IH|X e k0 IH]; intros Q; simpl; eauto.
  - intros Hp x Hx. apply IH. eapply emits_mono; [|by apply Hp].
    intros o cs. apply emits_mono. intros o' cs'. by rewrite app_assoc.
  - intros [Hp Hn]. split; [intros x Hx|]; apply IH; (eapply emits_mono; [|by eauto]);
      intros o cs; apply emits_mono; intros o' cs'; by rewrite app_assoc.
Qed.

(** After [p], the continuation runs or the failure of [p] is the result. *)
Lemma emits_bind {A B} (p : prog E S A) (k : A → prog E S B) P Q :
  emits p P →
  (∀ a cs, P (Ret a) cs → emits (k a) (λ o cs', Q o (cs ++ cs'))) →
  (∀ m cs, P (Panic m) cs → Q (Panic m) cs) →
  (∀ cs, P Cancelled cs → Q Cancelled cs) →
  emits (p ≫= k) Q.
Proof.
  intros Hp Hk Hm Hc. apply emits_bind_outcome. eapply emits_mono; [|exact Hp].
  intros [a|m|] cs HP; simpl; [by apply Hk|rewrite app_nil_r; auto..].
Qed.

Lemma emits_finally {A} (p : prog E S A) d Q : emits p Q → emits (finally p d) Q.
Proof.
  intros Hp. apply emits_bind_outcome. eapply emits_mono; [|exact Hp].
  intros o cs HQ _. simpl. by rewrite app_nil_r.
Qed.

Lemma emits_exec {A} (R : S → S → Prop) (p : prog E S A) Q o n s :
  lawful R Ans o → emits p Q →
  Q (r_out (exec o p n s)) (omap view (r_obs (exec o p n s))).
Proof.
  intros Ho. revert Q n s. induction p as [out|X f k IH|X e k IH|X e k IH];
    intros Q n s Hp; simpl in *.
  - done.
  - destruct (f (o_rely o n s)) as [x s']. by apply IH.
  - specialize (Hp _ (lawful_ext _ _ _ Ho n _ e)).
    apply IH with (n := Datatypes.S n) (s := s) in Hp.
    unfold seen in Hp. by destruct (view _).
  - destruct Hp as [Hp Hn]. destruct (o_await o n X e) as [x|] eqn:Ex.
    + specialize (Hp _ (lawful_await _ _ _ Ho _ _ _ _ Ex)).
      apply IH with (n := Datatypes.S n) (s := s) in Hp.
      unfold seen in Hp. simpl. by destruct (view _).
    + apply IH with (n := Datatypes.S n) (s := s) in Hn.
      unfold seen in Hn. simpl. by destruct (view _).
Qed.
End emits.

(** A part emits the same in the whole. *)
Lemma emits_zoom {E S S' C A} Ans (view : Obs E → option C) (get : S' → option S) set
    (p : prog E S A) Q :
  emits Ans view p Q → emits Ans view (zoom get set p) Q.
Proof.
  revert Q. induction p as [out|X f k IH|X e k IH|X e k IH]; intros Q; simpl; eauto.
  intros [Hp Hn]. split; eauto.
Qed.

(** A first part that emits nothing. *)
Lemma emits_quiet_bind {E S C A B} Ans (view : Obs E → option C) (p : prog E S A)
    (k : A → prog E S B) (O : Outcome A → Prop) Q :
  emits Ans view p (λ o cs, cs = [] ∧ O o) →
  (∀ a, O (Ret a) → emits Ans view (k a) Q) →
  (∀ m, Q (Panic m) []) → Q Cancelled [] →
  emits Ans view (p ≫= k) Q.
Proof.
  intros Hp Hk Hm Hc. eapply emits_bind; [exact Hp| | |].
  - intros a cs [-> HO]. by apply Hk.
  - by intros m cs [-> _].
  - by intros cs [-> _].
Qed.
