(* ===== verification/Pool.v ===== *)
(** Any number of tasks on one shared state.

    [pool_step] interleaves effect trees: one step of the pool is one step of one
    task, or the arrival of a new task.  [safe I Ans p Q] says that [p] keeps the
    invariant [I] at every atomic step, starting each one from any state that
    satisfies [I], and ends as [Q] says; [pool_safe] is the soundness of this
    logic for pools.  The rules are those of a program logic with one invariant. *)
From S2P Require Import Prelude RustStd Prog.

Section safe.
Context {E : Type → Type} {S : Type}.
Context (I : S → Prop) (Ans : ∀ X, E X → X → Prop).

Fixpoint safe {A} (p : prog E S A) (Q : Outcome A → Prop) : Prop :=
  match p with
  | Done o => Q o
  | Atomic f k => ∀ s, I s → I (f s).2 ∧ safe (k (f s).1) Q
  | Ext e k => ∀ x, Ans _ e x → safe (k x) Q
  | Await e k => (∀ x, Ans _ e x → safe (k (Some x)) Q) ∧ safe (k None) Q
  end.

Lemma safe_mono {A} (p : prog E S A) (Q Q' : Outcome A → Prop) :
  (∀ o, Q o → Q' o) → safe p Q → safe p Q'.
Proof.
  intros HQ. induction p as [out|X f k IH|X e k IH|X e k IH]; simpl; eauto.
  - intros Hp s Hs. destruct (Hp s Hs). eauto.
  - intros [Hp Hn]. split; eauto.
Qed.

Lemma safe_bind_outcome {A B} (p : prog E S A) (k : Outcome A → prog E S B) Q :
  safe p (λ o, safe (k o) Q) → safe (bind_outcome p k) Q.
Proof.
  induction p as [out|X f k0 IH|X e k0 IH|X e k0 IH]; simpl; eauto.
  - intros Hp s Hs. destruct (Hp s Hs). eauto.
  - intros [Hp Hn]. split; eauto.
Qed.

(** A part that does not panic. *)
Definition fine {A} (P : A → Prop) (o : Outcome A) : Prop :=
  match o with Ret a => P a | Panic _ => False | Cancelled => True end.

Lemma safe_bind {A B} (p : prog E S A) (k : A → prog E S B) P (P' : B → Prop) :
  safe p (fine P) → (∀ a, P a → safe (k a) (fine P')) → safe (p ≫= k) (fine P').
Proof.
  intros Hp Hk. apply safe_bind_outcome. eapply safe_mono; [|exact Hp].
  intros [a|m|] HP; simpl in *; [by apply Hk|done|done].
Qed.

Lemma safe_ret {A} (a : A) (P : A → Prop) : P a → safe (mret a) (fine P).
Proof. done. Qed.

Lemma safe_act {X} (f : S → Outcome X * S) (P : X → Prop) :
  (∀ s, I s → I (f s).2 ∧ fine P (f s).1) → safe (act f) (fine P).
Proof. done. Qed.

Lemma safe_ext {X} (e : E X) (P : X → Prop) :
  (∀ x, Ans _ e x → P x) → safe (ext e) (fine P).
Proof. done. Qed.

Lemma safe_await {X} (e : E X) (P : X → Prop) :
  (∀ x, Ans _ e x → P x) → safe (await e) (fine P).
Proof. done. Qed.

Lemma safe_finally {A} (p : prog E S A) d Q :
  (∀ s, I s → I (d s)) → safe p Q → safe (finally p d) Q.
Proof.
  intros Hd Hp. apply safe_bind_outcome. eapply safe_mono; [|exact Hp].
  intros o HQ s Hs. split; [by apply Hd|done].
Qed.
End safe.

(** A part of the state, whose invariant the whole one contains. *)
Lemma safe_zoom {E S S' A} (I : S → Prop) (J : S' → Prop) Ans (get : S' → option S) set
    (p : prog E S A) Q :
  (∀ s', J s' → ∃ s, get s' = Some s ∧ I s ∧ ∀ s2, I s2 → J (set s2 s')) →
  safe I Ans p Q → safe J Ans (zoom get set p) Q.
Proof.
  intros HJ. induction p as [out|X f k IH|X e k IH|X e k IH]; simpl; eauto.
  - intros Hp s' Hs'. destruct (HJ s' Hs') as (s & -> & Hs & Hset).
    destruct (Hp s Hs) as [Hf Hk]. destruct (f s) as [x s2]; simpl in *. eauto.
  - intros [Hp Hn]. split; eauto.
Qed.

(** ** Ghost state: what each task owns

    [owns p h Q]: [p] runs while it owns [h]; each atomic step may trade what it
    owns against a change of the state, as [moves] says. *)
Section owns.
Context {E : Type → Type} {S H : Type}.
Context (I : S → Prop) (Ans : ∀ X, E X → X → Prop) (moves : H → S → H → S → Prop).

Fixpoint owns {A} (p : prog E S A) (h : H) (Q : Outcome A → H → Prop) : Prop :=
  match p with
  | Done o => Q o h
  | Atomic f k =>
      ∀ s, I s → I (f s).2 ∧ ∃ h', moves h s h' (f s).2 ∧ owns (k (f s).1) h' Q
  | Ext e k => ∀ x, Ans _ e x → owns (k x) h Q
  | Await e k => (∀ x, Ans _ e x → owns (k (Some x)) h Q) ∧ owns (k None) h Q
  end.

Lemma owns_mono {A} (p : prog E S A) h (Q Q' : Outcome A → H → Prop) :
  (∀ o h, Q o h → Q' o h) → owns p h Q → owns p h Q'.
Proof.
  intros HQ. revert h. induction p as [out|X f k IH|X e k IH|X e k IH]; simpl; eauto.
  - intros h Hp s Hs. destruct (Hp s Hs) as (HI & h' & Hm & Ho). eauto.
  - intros h [Hp Hn]. split; eauto.
Qed.

Lemma owns_bind_outcome {A B} (p : prog E S A) (k : Outcome A → prog E S B) h Q :
  owns p h (λ o h', owns (k o) h' Q) → owns (bind_outcome p k) h Q.
Proof.
  revert h. induction p as [out|X f k0 IH|X e k0 IH|X e k0 IH]; simpl; eauto.
  - intros h Hp s Hs. destruct (Hp s Hs) as (HI & h' & Hm & Ho). eauto.
  - intros h [Hp Hn]. split; eauto.
Qed.

(** A part that ends with what it started with. *)
Definition neutral {A} (p : prog E S A) : Prop := ∀ h, owns p h (λ _ h', h' = h).

Lemma neutral_bind {A B} (p : prog E S A) (k : A → prog E S B) :
  neutral p → (∀ a, neutral (k a)) → neutral (p ≫= k).
Proof.
  intros Hp Hk h. apply owns_bind_outcome. eapply owns_mono; [|apply Hp].
  intros [a|m|] h' ->; [apply Hk|done..].
Qed.

Lemma neutral_ret {A} (a : A) : neutral (mret a).
Proof. done. Qed.

Lemma neutral_ext {X} (e : E X) : neutral (ext e).
Proof. by intros h x _. Qed.

Lemma neutral_await {X} (e : E X) : neutral (await e).
Proof. intros h. by split; [intros x _|]. Qed.

Lemma neutral_act {X} (f : S → Outcome X * S) :
  (∀ h s, I s → I (f s).2 ∧ moves h s h (f s).2) → neutral (act f).
Proof. intros Hf h s Hs. destruct (Hf h s Hs) as [HI Hm]. split; [done|]. by exists h. Qed.

(** Any program on a part of the state whose changes [moves] does not see. *)
Lemma neutral_zoom {S0 A} (get : S → option S0) set (p : prog E S0 A) :
  (∀ h s, moves h s h s) →
  (∀ h s s0, I s → I (set s0 s) ∧ moves h s h (set s0 s)) → neutral (zoom get set p).
Proof.
  intros Hrefl Hset h. induction p as [out|X f k IH|X e k IH|X e k IH]; simpl; auto.
  intros s Hs. destruct (get s) as [s0|]; [|by eauto].
  destruct (f s0) as [x s1]; simpl. destruct (Hset h s s1 Hs). eauto.
Qed.
End owns.

(** A program on a part of the state that its owner finds in place. *)
Lemma owns_zoom {E S S' H H' A} (I : S → Prop) (J : S' → Prop) Ans
    (moves : H → S → H → S → Prop) (moves' : H' → S' → H' → S' → Prop)
    (g : H → H') (get : S' → option S) set (p : prog E S A) h Q :
  (∀ s', J s' → ∃ s, get s' = Some s ∧ I s
     ∧ (∀ s2, I s2 → J (set s2 s'))
     ∧ ∀ h h2 s2, moves h s h2 s2 → moves' (g h) s' (g h2) (set s2 s')) →
  owns I Ans moves p h Q →
  owns J Ans moves' (zoom get set p) (g h) (λ o h', ∃ h, h' = g h ∧ Q o h).
Proof.
  intros HJ. revert h. induction p as [out|X f k IH|X e k IH|X e k IH]; simpl; eauto.
  - intros h Hp s' Hs'. destruct (HJ s' Hs') as (s & -> & Hs & Hset & Hm).
    destruct (Hp s Hs) as (HI & h2 & Hm2 & Ho). destruct (f s) as [x s2]; simpl in *.
    split; [auto|]. exists (g h2). auto.
  - intros h [Hp Hn]. split; eauto.
Qed.

(** ** The atomic actions of a program

    [acts_by R p]: every atomic action of [p] changes the state as [R] says. *)
Section acts.
Context {E : Type → Type} {S : Type}.
Context (R : S → S → Prop) (Ans : ∀ X, E X → X → Prop).

Fixpoint acts_by {A} (p : prog E S A) : Prop :=
  match p with
  | Done _ => True
  | Atomic f k => (∀ s, R s (f s).2) ∧ ∀ x, acts_by (k x)
  | Ext e k => ∀ x, Ans _ e x → acts_by (k x)
  | Await e k => (∀ x, Ans _ e x → acts_by (k (Some x))) ∧ acts_by (k None)
  end.

Lemma acts_bind_outcome {A B} (p : prog E S A) (k : Outcome A → prog E S B) :
  acts_by p → (∀ o, acts_by (k o)) → acts_by (bind_outcome p k).
Proof.
  intros Hp Hk. induction p as [out|X f k0 IH|X e k0 IH|X e k0 IH]; simpl in *; auto.
  - destruct Hp as [Hf Hp]. auto.
  - destruct Hp as [Hp Hn]. auto.
Qed.

Lemma acts_bind {A B} (p : prog E S A) (k : A → prog E S B) :
  acts_by p → (∀ a, acts_by (k a)) → acts_by (p ≫= k).
Proof. intros Hp Hk. apply acts_bind_outcome; [done|]. by intros [a|m|]; simpl. Qed.

Lemma acts_act {X} (f : S → Outcome X * S) : (∀ s, R s (f s).2) → acts_by (act f).
Proof. by split. Qed.

Lemma acts_finally {A} (p : prog E S A) d :
  acts_by p → (∀ s, R s (d s)) → acts_by (finally p d).
Proof. intros Hp Hd. apply acts_bind_outcome; [done|]. intros o. by split. Qed.

Lemma acts_await {X} (e : E X) : acts_by (await e).
Proof. by split. Qed.
End acts.

Lemma acts_mono {E S A} (R R' : S → S → Prop) Ans (p : prog E S A) :
  (∀ s s', R s s' → R' s s') → acts_by R Ans p → acts_by R' Ans p.
Proof. intros HR. induction p; simpl; naive_solver. Qed.

Lemma acts_any {E S A} Ans (p : prog E S A) : acts_by (λ _ _, True) Ans p.
Proof. induction p; simpl; auto. Qed.

(** [yields P p]: what [p] returns satisfies [P], whatever it sees. *)
Fixpoint yields {E S A} (P : A → Prop) (p : prog E S A) : Prop :=
  match p with
  | Done (Ret a) => P a
  | Done _ => True
  | Atomic f k => ∀ x, yields P (k x)
  | Ext e k => ∀ x, yields P (k x)
  | Await e k => ∀ x, yields P (k x)
  end.

Lemma yields_bind {E S A B} (p : prog E S A) (k : A → prog E S B) P :
  (∀ a, yields P (k a)) → yields P (p ≫= k).
Proof. intros Hk. induction p as [[a|m|]|X f k0 IH|X e k0 IH|X e k0 IH]; simpl; eauto. Qed.

Lemma yields_zoom {E S S' A} (get : S' → option S) set (p : prog E S A) P :
  yields P p → yields P (zoom get set p).
Proof. induction p as [[a|m|]|X f k IH|X e k IH|X e k IH]; simpl; eauto. Qed.

Lemma acts_bind_yields {E S A B} (R : S → S → Prop) Ans (p : prog E S A) (k : A → prog E S B) P :
  acts_by R Ans p → yields P p → (∀ a, P a → acts_by R Ans (k a)) → acts_by R Ans (p ≫= k).
Proof.
  intros Hp Hy Hk. induction p as [[a|m|]|X f k0 IH|X e k0 IH|X e k0 IH]; simpl in *; eauto.
  - destruct Hp as [Hf Hp]. split; [done|]. intros x. by apply IH.
  - destruct Hp as [Hp Hn]. split; [intros x Hx|]; apply IH; auto.
Qed.

Lemma acts_zoom {E S S' A} (R : S → S → Prop) (R' : S' → S' → Prop) Ans
    (get : S' → option S) set (p : prog E S A) :
  (∀ s', R' s' s') → (∀ s' s s2, get s' = Some s → R s s2 → R' s' (set s2 s')) →
  acts_by R Ans p → acts_by R' Ans (zoom get set p).
Proof.
  intros Hrefl Hset. induction p as [out|X f k IH|X e k IH|X e k IH]; simpl; auto.
  - intros [Hf Hp]. split; [|auto]. intros s'. destruct (get s') as [s|] eqn:Hs; [|apply Hrefl].
    specialize (Hf s). destruct (f s) as [x s2]; simpl in *. by eapply Hset.
  - intros [Hp Hn]. auto.
Qed.

(** ** How long a program runs

    [takes_le n p]: [p] ends within [n] steps, whatever it sees and is answered. *)
Fixpoint takes_le {E S A} (n : nat) (p : prog E S A) {struct p} : Prop :=
  match p, n with
  | Done _, _ => True
  | Atomic f k, Datatypes.S n => ∀ x, takes_le n (k x)
  | Ext e k, Datatypes.S n => ∀ x, takes_le n (k x)
  | Await e k, Datatypes.S n => ∀ x, takes_le n (k x)
  | _, 0 => False
  end.

Section takes.
Context {E : Type → Type} {S : Type}.

Lemma takes_mono {A} (p : prog E S A) n m : n ≤ m → takes_le n p → takes_le m p.
Proof.
  revert n m. induction p as [out|X f k IH|X e k IH|X e k IH]; intros [|n] [|m] Hle Hp;
    simpl in *; try done; try lia; intros x; (eapply IH; [|apply Hp]); lia.
Qed.

Lemma takes_bind_outcome {A B} n m N (p : prog E S A) (k : Outcome A → prog E S B) :
  n + m ≤ N → takes_le n p → (∀ o, takes_le m (k o)) → takes_le N (bind_outcome p k).
Proof.
  intros HN Hp Hk. revert n N HN Hp.
  induction p as [out|X f k0 IH|X e k0 IH|X e k0 IH]; intros [|n] N HN Hp; simpl in Hp;
    try done; simpl; try (eapply takes_mono; [|apply Hk]; lia);
    (destruct N as [|N]; [lia|]); intros x; (eapply IH; [|apply Hp]); lia.
Qed.

Lemma takes_bind {A B} n m N (p : prog E S A) (k : A → prog E S B) :
  n + m ≤ N → takes_le n p → (∀ a, takes_le m (k a)) → takes_le N (p ≫= k).
Proof. intros HN Hp Hk. eapply takes_bind_outcome; [done|done|]. by intros [a|e|]; [apply Hk|..]. Qed.

Lemma takes_finally {A} n N (p : prog E S A) d :
  n + 1 ≤ N → takes_le n p → takes_le N (finally p d).
Proof. intros HN Hp. eapply takes_bind_outcome; [done|done|]. by intros o x. Qed.
End takes.

Lemma takes_zoom {E S S' A} n (get : S' → option S) set (p : prog E S A) :
  takes_le n p → takes_le n (zoom get set p).
Proof.
  revert n. induction p as [out|X f k IH|X e k IH|X e k IH]; intros [|n]; simpl; auto.
Qed.

(** ** Pools *)
Section pool.
Context {E : Type → Type} {S : Type}.
Context (Ans : ∀ X, E X → X → Prop) (arrives : prog E S () → Prop).

Abbreviation pool := (list (prog E S ()) * S)%type.

(** One step of one task; an awaited call can be dropped instead of answered. *)
Inductive task_step : prog E S () → S → prog E S () → S → Prop :=
| step_atomic X (f : S → Outcome X * S) k s : task_step (Atomic f k) s (k (f s).1) (f s).2
| step_ext X (e : E X) k x s : Ans X e x → task_step (Ext e k) s (k x) s
| step_answer X (e : E X) k x s : Ans X e x → task_step (Await e k) s (k (Some x)) s
| step_drop X (e : E X) k s : task_step (Await e k) s (k None) s.

(** A step takes one from what a task has left. *)
Lemma task_step_takes b p s p' s' :
  task_step p s p' s' → takes_le b p → ∃ b', b = Datatypes.S b' ∧ takes_le b' p'.
Proof. intros Ht Hp. destruct Ht; destruct b as [|b]; try done; exists b; (split; [done|apply Hp]). Qed.

(** A task that has not ended can make a step. *)
Lemma task_can_step p s :
  (∀ X (e : E X), ∃ x, Ans X e x) → (∃ o, p = Done o) ∨ ∃ p' s', task_step p s p' s'.
Proof.
  intros Hans. destruct p as [o|X f k|X e k|X e k]; [left; by eexists|right..].
  - eexists _, _. apply step_atomic.
  - destruct (Hans X e) as [x Hx]. eexists _, _. by apply step_ext.
  - eexists _, _. apply step_drop.
Qed.

Inductive pool_step : pool → pool → Prop :=
| pool_task i p p' ps s s' :
    ps !! i = Some p → task_step p s p' s' → pool_step (ps, s) (<[i := p']> ps, s')
| pool_arrival p ps s : arrives p → pool_step (ps, s) (ps ++ [p], s).

Lemma alone_step p s p' s' q :
  task_step p s p' s' → rtc pool_step ([p'], s') q → rtc pool_step ([p], s) q.
Proof. intros Ht. apply rtc_l. by apply (pool_task 0 p p' [p]). Qed.

(** A run alone is one of the interleavings. *)
Lemma exec_steps (o : Oracle E S) p n s :
  lawful eq Ans o →
  rtc pool_step ([p], s) ([Done (r_out (exec o p n s))], r_state (exec o p n s)).
Proof.
  intros Ho. revert n s.
  induction p as [out|X f k IH|X e k IH|X e k IH]; intros n s; simpl.
  - done.
  - rewrite <- (lawful_rely _ _ _ Ho n s). eapply alone_step; [apply step_atomic|].
    destruct (f s) as [x s']; apply IH.
  - eapply alone_step; [apply step_ext, (lawful_ext _ _ _ Ho n)|apply IH].
  - destruct (o_await o n X e) as [x|] eqn:Ex; simpl.
    + eapply alone_step; [apply step_answer, (lawful_await _ _ _ Ho n _ _ _ Ex)|apply IH].
    + eapply alone_step; [apply step_drop|apply IH].
Qed.

(** The first [k] steps of a run alone. *)
Fixpoint advance (o : Oracle E S) (k : nat) (p : prog E S ()) (n : nat) (s : S)
    : prog E S () * S :=
  match k, p with
  | Datatypes.S k, Atomic f c => advance o k (c (f s).1) (Datatypes.S n) (f s).2
  | Datatypes.S k, Ext e c => advance o k (c (o_ext o n _ e)) (Datatypes.S n) s
  | Datatypes.S k, Await e c => advance o k (c (o_await o n _ e)) (Datatypes.S n) s
  | _, _ => (p, s)
  end.

Lemma advance_steps (o : Oracle E S) k p n s :
  lawful eq Ans o →
  rtc pool_step ([p], s) ([(advance o k p n s).1], (advance o k p n s).2).
Proof.
  intros Ho. revert p n s.
  induction k as [|k IH]; intros p n s; [done|]. destruct p as [out|X f c|X e c|X e c]; simpl.
  - done.
  - eapply alone_step; [apply step_atomic|apply IH].
  - eapply alone_step; [apply step_ext, (lawful_ext _ _ _ Ho n)|apply IH].
  - destruct (o_await o n X e) as [x|] eqn:Ex.
    + eapply alone_step; [apply step_answer, (lawful_await _ _ _ Ho n _ _ _ Ex)|apply IH].
    + eapply alone_step; [apply step_drop|apply IH].
Qed.

Definition ended (p : prog E S ()) : Prop := ∃ o, p = Done o.

Definition panicked (p : prog E S ()) : Prop := ∃ m, p = Done (Panic m).

Lemma task_step_safe I p s p' s' Q :
  task_step p s p' s' → I s → safe I Ans p Q → I s' ∧ safe I Ans p' Q.
Proof.
  intros Hstep Hs Hp. destruct Hstep; simpl in Hp.
  - by apply Hp.
  - split; [done|by apply Hp].
  - split; [done|by apply Hp].
  - split; [done|by apply Hp].
Qed.

(** Tasks that are safe keep the invariant, and none of them panics, in every
    interleaving. *)
Lemma pool_safe I ps s ps' s' :
  (∀ p, arrives p → safe I Ans p (fine (λ _, True))) →
  rtc pool_step (ps, s) (ps', s') →
  I s → Forall (λ p, safe I Ans p (fine (λ _, True))) ps →
  I s' ∧ Forall (λ p, ¬ panicked p) ps'.
Proof.
  intros Harr Hsteps. remember (ps, s) as c eqn:Ec. remember (ps', s') as c' eqn:Ec'.
  revert ps s ps' s' Ec Ec'. induction Hsteps as [c|c c1 c' Hstep _ IH];
    intros ps s ps' s' -> Ec' Hs Hps.
  - injection Ec' as <- <-. split; [done|]. eapply Forall_impl; [exact Hps|].
    intros p Hp [m ->]. exact Hp.
  - destruct c1 as [ps1 s1]. eapply IH; [done|exact Ec'| |].
    + inversion Hstep as [i p p' ? ? ? Hi Ht|p ? ? Hp]; subst; [|done].
      eapply task_step_safe; [exact Ht|done|]. by eapply (Forall_lookup_1 _ _ _ _ Hps).
    + inversion Hstep as [i p p' ? ? ? Hi Ht|p ? ? Hp]; subst.
      * apply Forall_insert; [done|]. eapply task_step_safe; [exact Ht|done|].
        by eapply (Forall_lookup_1 _ _ _ _ Hps).
      * apply Forall_app. split; [done|]. apply Forall_singleton. by apply Harr.
Qed.

(** Runs of the pool in which task [i] makes [n] steps of its own. *)
Inductive pool_run (i : nat) : nat → pool → pool → Prop :=
| run_end c : pool_run i 0 c c
| run_own n p p' ps s s' c :
    ps !! i = Some p → task_step p s p' s' →
    pool_run i n (<[i := p']> ps, s') c → pool_run i (Datatypes.S n) (ps, s) c
| run_other n j p p' ps s s' c :
    j ≠ i → ps !! j = Some p → task_step p s p' s' →
    pool_run i n (<[j := p']> ps, s') c → pool_run i n (ps, s) c
| run_arrival n p ps s c :
    arrives p → pool_run i n (ps ++ [p], s) c → pool_run i n (ps, s) c.

Lemma pool_run_steps i n c c' : pool_run i n c c' → rtc pool_step c c'.
Proof.
  induction 1 as [c|n p p' ps s s' c Hi Ht _ IH|n j p p' ps s s' c _ Hj Ht _ IH|n p ps s c Hp _ IH].
  - done.
  - eapply rtc_l; [|exact IH]. by eapply pool_task.
  - eapply rtc_l; [|exact IH]. by eapply pool_task.
  - eapply rtc_l; [|exact IH]. by apply pool_arrival.
Qed.

(** A task that ends within [N] steps ends when it is given them, and it can make a
    step until then. *)
Lemma pool_run_ends i N n p ps s ps' s' :
  (∀ X (e : E X), ∃ x, Ans X e x) →
  takes_le N p → ps !! i = Some p → pool_run i n (ps, s) (ps', s') →
  n ≤ N ∧ ∃ p', ps' !! i = Some p' ∧ (n = N → ended p')
    ∧ (ended p' ∨ ∃ p'' s'', task_step p' s' p'' s'').
Proof.
  intros Hans Hp Hi Hrun. remember (ps, s) as c eqn:Ec. remember (ps', s') as c' eqn:Ec'.
  revert N p ps s ps' s' Ec Ec' Hp Hi.
  induction Hrun as [c|n q q' qs s1 s1' c Hq Ht _ IH|n j q q' qs s1 s1' c Hj Hq Ht _ IH
                    |n q qs s1 c Hq _ IH];
    intros N p ps s ps' s' Ec Ec' Hp Hi; simplify_eq.
  - split; [lia|]. exists p. split_and!; [done| |].
    + intros <-. destruct p; [by eexists|done..].
    + by apply task_can_step.
  - destruct (task_step_takes _ _ _ _ _ Ht Hp) as (N' & -> & Hq'). rename N' into N.
    destruct (IH N q' _ _ ps' s' eq_refl eq_refl Hq') as (Hn & p' & Hp' & Hend & Hor).
    { rewrite list_lookup_insert_eq; [done|]. by eapply lookup_lt_Some. }
    split; [lia|]. exists p'. split_and!; [done| |done]. intros [= ->]. by apply Hend.
  - apply (IH N p _ _ ps' s' eq_refl eq_refl Hp). by rewrite list_lookup_insert_ne.
  - apply (IH N p _ _ ps' s' eq_refl eq_refl Hp). by apply lookup_app_l_Some.
Qed.

Lemma sum_list_take_one l i b :
  l !! i = Some (Datatypes.S b) → sum_list l = Datatypes.S (sum_list (<[i := b]> l)).
Proof.
  revert i. induction l as [|a l IH]; intros [|i]; simpl; [done..| |].
  - by intros [= ->].
  - intros Hi. rewrite (IH i Hi). unfold id. lia.
Qed.

(** With no arrivals, a pool of tasks that end makes no more steps than they have
    left, and it stops only when all of them have ended. *)
Lemma pool_drains budgets n ps s c :
  (∀ p, ¬ arrives p) → Forall2 takes_le budgets ps →
  nsteps pool_step n (ps, s) c → n ≤ sum_list budgets.
Proof.
  intros Harr. revert budgets ps s. induction n as [|n IH]; intros budgets ps s Hps Hsteps; [lia|].
  inversion Hsteps as [|? ? c1 ? Hstep Hrest]; subst.
  inversion Hstep as [i p p' ps1 s1 s1' Hi Ht|p ps1 s1 Hp]; subst; [|by destruct (Harr p)].
  destruct (Forall2_lookup_r _ _ _ _ _ Hps Hi) as (b & Hb & Hp).
  destruct (task_step_takes _ _ _ _ _ Ht Hp) as (b' & -> & Hp').
  pose proof (IH (<[i := b']> budgets) _ _ (Forall2_insert _ _ _ _ _ _ Hps Hp') Hrest) as Hn.
  rewrite (sum_list_take_one _ _ _ Hb). lia.
Qed.

Lemma pool_stops ps s :
  (∀ X (e : E X), ∃ x, Ans X e x) → (∀ c, ¬ pool_step (ps, s) c) → Forall ended ps.
Proof.
  intros Hans Hstop. apply Forall_lookup. intros i p Hi.
  destruct (task_can_step p s Hans) as [|(p' & s' & Ht)]; [done|].
  exfalso. by eapply Hstop, pool_task.
Qed.

(** A pool whose tasks act by [R] moves its state by [R]. *)
Lemma pool_acts R ps s ps' s' :
  (∀ p, arrives p → acts_by R Ans p) →
  rtc pool_step (ps, s) (ps', s') → Forall (acts_by R Ans) ps → rtc R s s'.
Proof.
  intros Harr Hsteps. remember (ps, s) as c eqn:Ec. remember (ps', s') as c' eqn:Ec'.
  revert ps s ps' s' Ec Ec'. induction Hsteps as [c|c c1 c' Hstep _ IH];
    intros ps s ps' s' -> Ec' Hps.
  - by injection Ec' as <- <-.
  - inversion Hstep as [i p p' ps1 ps2 s1 Hi Ht|p ps1 s1 Hp]; subst.
    + pose proof (Forall_lookup_1 _ _ _ _ Hps Hi) as Hp.
      assert (rtc R s s1 ∧ acts_by R Ans p') as [Hs Hp'].
      { inversion Ht; subst; simpl in Hp.
        - destruct Hp as [Hf Hp]. split; [by apply rtc_once|done].
        - split; [done|auto].
        - split; [done|by apply Hp].
        - split; [done|by apply Hp]. }
      etrans; [exact Hs|]. eapply IH; [done|done|]. by apply Forall_insert.
    + eapply IH; [done|done|]. apply Forall_app. split; [done|]. apply Forall_singleton. auto.
Qed.

(** Tasks that account for what they own keep what [J] says of the owners and the
    state: [J] is stable under the moves of one owner, and a new task owns [idle]. *)
Lemma pool_owns {H} I (moves : H → S → H → S → Prop) (J : list H → S → Prop) idle hs ps s ps' s' :
  (∀ hs i h h' s s', hs !! i = Some h → moves h s h' s' → J hs s → J (<[i := h']> hs) s') →
  (∀ hs s, J hs s → J (hs ++ [idle]) s) →
  let owner := λ p h, owns I Ans moves p h (λ _ h', h' = idle) in
  (∀ p, arrives p → owner p idle) →
  rtc pool_step (ps, s) (ps', s') → I s → J hs s → Forall2 owner ps hs →
  ∃ hs', J hs' s' ∧ Forall2 owner ps' hs'.
Proof.
  intros Hmove Hnew owner Harr Hsteps.
  remember (ps, s) as c eqn:Ec. remember (ps', s') as c' eqn:Ec'.
  revert hs ps s ps' s' Ec Ec'. induction Hsteps as [c|c c1 c' Hstep _ IH];
    intros hs ps s ps' s' -> Ec' Hs HJ Hown.
  - injection Ec' as <- <-. by exists hs.
  - inversion Hstep as [i p p' ps1 ps2 s1 Hi Ht|p ps1 s1 Hp]; subst.
    + destruct (Forall2_lookup_l _ _ _ _ _ Hown Hi) as (h & Hh & Hp).
      assert (∃ h', I s1 ∧ J (<[i := h']> hs) s1 ∧ owner p' h') as (h' & HI & HJ' & Hp').
      { unfold owner in *. inversion Ht; subst; simpl in Hp.
        - destruct (Hp s Hs) as (HI & h' & Hm & Ho). exists h'. split_and!; [done| |done].
          by eapply Hmove.
        - exists h. rewrite list_insert_id by done. auto.
        - exists h. rewrite list_insert_id by done. destruct Hp. auto.
        - exists h. rewrite list_insert_id by done. destruct Hp. auto. }
      eapply IH; [done|done|done|exact HJ'|]. by apply Forall2_insert.
    + eapply IH; [done|done|done|by apply Hnew|]. apply Forall2_app; [done|].
      apply Forall2_cons. split; [by apply Harr|done].
Qed.
End pool.
