(* ===== verification/Writes.v ===== *)
(** What a program does, in the order it does it.

    The events of a run are its own atomic actions, each as the states before and
    after it, and its calls.  [tells p Q]: each atomic action of [p] is [quiet] or
    is a deed [W] with some label, each call has the label that [view] gives it (or
    none), and [p] ends with an outcome [o] after the deeds [cs] such that [Q o cs].
    Nothing is assumed of the other tasks. *)
From S2P Require Import Prelude RustStd Prog Pool.

Inductive Event (E : Type → Type) (S : Type) : Type :=
| Step (s s' : S)
| Saw (ob : Obs E).
Arguments Step {E S} s s'.
Arguments Saw {E S} ob.

(** The atomic actions among the events. *)
Definition step_of {E S} (ev : Event E S) : option (S * S) :=
  match ev with Step s s' => Some (s, s') | Saw _ => None end.

Section events.
Context {E : Type → Type} {S C : Type}.

Fixpoint own_events {A} (o : Oracle E S) (p : prog E S A) (n : nat) (s : S) : list (Event E S) :=
  match p with
  | Done _ => []
  | Atomic f k =>
      let s := o_rely o n s in
      Step s (f s).2 :: own_events o (k (f s).1) (Datatypes.S n) (f s).2
  | Ext e k =>
      let x := o_ext o n _ e in
      Saw (Called e (Some x)) :: own_events o (k x) (Datatypes.S n) s
  | Await e k =>
      let x := o_await o n _ e in
      Saw (Called e x) :: own_events o (k x) (Datatypes.S n) s
  end.

Definition own_steps {A} (o : Oracle E S) (p : prog E S A) (n : nat) (s : S) : list (S * S) :=
  omap step_of (own_events o p n s).

Context (quiet : S → S → Prop) (W : C → S → S → Prop) (view : Obs E → option C).

(** Events with the deeds [cs]. *)
Inductive explained : list (Event E S) → list C → Prop :=
| explained_nil : explained [] []
| explained_quiet s s' l cs : quiet s s' → explained l cs → explained (Step s s' :: l) cs
| explained_deed c s s' l cs : W c s s' → explained l cs → explained (Step s s' :: l) (c :: cs)
| explained_saw ob l cs : explained l cs → explained (Saw ob :: l) (seen view ob ++ cs).

(** When [gone] holds, the part that the program works on can be gone, and then an
    action panics without effect. *)
Context (gone : Prop).

Fixpoint tells {A} (p : prog E S A) (Q : Outcome A → list C → Prop) : Prop :=
  match p with
  | Done o => Q o []
  | Atomic f k =>
      (∀ s, (quiet s (f s).2 ∧ tells (k (f s).1) Q)
            ∨ ∃ c, W c s (f s).2 ∧ tells (k (f s).1) (λ o cs, Q o (c :: cs)))
      ∧ (gone → ∀ m, tells (k (Panic m)) Q)
  | Ext e k => ∀ x, tells (k x) (λ o cs, Q o (seen view (Called e (Some x)) ++ cs))
  | Await e k => ∀ x, tells (k x) (λ o cs, Q o (seen view (Called e x) ++ cs))
  end.

Lemma tells_mono {A} (p : prog E S A) (Q Q' : Outcome A → list C → Prop) :
  (∀ o cs, Q o cs → Q' o cs) → tells p Q → tells p Q'.
Proof.
  revert Q Q'. induction p as [out|X f k IH|X e k IH|X e k IH]; intros Q Q' HQ; simpl; eauto.
  - intros [Hp Hm]. split; [|eauto]. intros s. destruct (Hp s) as [[Hs Hk]|(c & Hc & Hk)]; [left; eauto|].
    right. exists c. split; [done|]. eapply IH; [|exact Hk]. intros o cs. apply HQ.
  - intros Hp x. eapply IH; [|apply Hp]. intros o cs. apply HQ.
  - intros Hp x. eapply IH; [|apply Hp]. intros o cs. apply HQ.
Qed.

Lemma tells_bind_outcome {A B} (p : prog E S A) (k : Outcome A → prog E S B) Q :
  tells p (λ o cs, tells (k o) (λ o' cs', Q o' (cs ++ cs'))) → tells (bind_outcome p k) Q.
Proof.
  revert Q. induction p as [out|X f k0 IH|X e k0 IH|X e k0 IH]; intros Q; simpl; eauto.
  - intros [Hp Hm]. split; [|auto]. intros s.
    destruct (Hp s) as [[Hs Hk]|(c & Hc & Hk)]; [left; eauto|].
    right. exists c. split; [done|]. by apply IH.
  - intros Hp x. apply IH. eapply tells_mono; [|apply Hp]. intros o cs. apply tells_mono.
    intros o' cs'. by rewrite app_assoc.
  - intros Hp x. apply IH. eapply tells_mono; [|apply Hp]. intros o cs. apply tells_mono.
    intros o' cs'. by rewrite app_assoc.
Qed.

Lemma tells_bind {A B} (p : prog E S A) (k : A → prog E S B) Q :
  tells p (λ o cs, tells (on_ret k o) (λ o' cs', Q o' (cs ++ cs'))) → tells (p ≫= k) Q.
Proof. apply tells_bind_outcome. Qed.

(** A program whose actions are quiet and whose calls have no label. *)
Definition silent {A} (p : prog E S A) : Prop :=
  acts_by quiet (λ _ _ _, True) p ∧ emits (λ _ _ _, True) view p (λ _ cs, cs = []).

Lemma tells_emits {A} (p : prog E S A) Q :
  acts_by quiet (λ _ _ _, True) p → emits (λ _ _ _, True) view p Q → tells p Q.
Proof.
  revert Q. induction p as [out|X f k IH|X e k IH|X e k IH]; intros Q; simpl; auto.
  - intros [Hf Hk] Hp. split; [|auto]. intros s. left. auto.
  - intros [Hs Hn] [Hps Hpn] [x|]; auto.
Qed.

Lemma tells_silent {A} (p : prog E S A) : silent p → tells p (λ _ cs, cs = []).
Proof. intros [Ha He]. by apply tells_emits. Qed.

Lemma silent_bind {A B} (p : prog E S A) (k : A → prog E S B) :
  silent p → (∀ a, silent (k a)) → silent (p ≫= k).
Proof.
  intros [Hpa Hpe] Hk. split; [apply acts_bind; [done|]; intros a; apply Hk|].
  eapply emits_quiet_bind with (O := λ _, True); [|intros a _; apply Hk|done..].
  eapply emits_mono; [|exact Hpe]. by intros o cs ->.
Qed.

(** The part before, when it is silent and [Q] allows it to fail. *)
Lemma tells_after {A B} (p : prog E S A) (k : A → prog E S B) Q :
  silent p → (∀ a, tells (k a) Q) → (∀ m, Q (Panic m) []) → Q Cancelled [] → tells (p ≫= k) Q.
Proof.
  intros Hp Hk Hpanic Hdrop. apply tells_bind.
  eapply tells_mono; [|by apply tells_silent]. intros [a|m|] cs ->; simpl; auto.
Qed.

(** A destructor that is quiet, or a deed. *)
Lemma tells_finally {A} (p : prog E S A) d Q :
  (∀ s, quiet s (d s)) → tells p Q → tells (finally p d) Q.
Proof.
  intros Hd Hp. apply tells_bind_outcome. eapply tells_mono; [|exact Hp].
  intros o cs HQ. simpl. rewrite app_nil_r. split; [|done].
  intros s. left. split; [apply Hd|done].
Qed.

(** In a run, whatever the other tasks do between its steps. *)
Lemma tells_exec {A} (o : Oracle E S) (p : prog E S A) Q n s :
  tells p Q → ∃ cs, explained (own_events o p n s) cs ∧ Q (r_out (exec o p n s)) cs.
Proof.
  revert Q n s. induction p as [out|X f k IH|X e k IH|X e k IH]; intros Q n s; simpl.
  - exists []. split; [constructor|done].
  - intros [Hp _]. specialize (Hp (o_rely o n s)).
    destruct (f (o_rely o n s)) as [x s'] eqn:Ef; simpl in *.
    destruct Hp as [[Hs Hk]|(c & Hc & Hk)];
      destruct (IH x _ (Datatypes.S n) s' Hk) as (cs & Hcs & HQ).
    + exists cs. split; [by constructor|done].
    + exists (c :: cs). split; [by constructor|done].
  - intros Hp. destruct (IH _ _ (Datatypes.S n) s (Hp (o_ext o n X e))) as (cs & Hcs & HQ).
    eexists. split; [by constructor|exact HQ].
  - intros Hp. destruct (IH _ _ (Datatypes.S n) s (Hp (o_await o n X e))) as (cs & Hcs & HQ).
    eexists. split; [by constructor|exact HQ].
Qed.

(** The steps of a run without deeds, or with one, when no call has a label. *)
Lemma explained_none l :
  explained l [] → Forall (λ ss, quiet ss.1 ss.2) (omap step_of l).
Proof.
  intros Hl. remember [] as cs eqn:Ecs. induction Hl as [|s s' l cs Hs _ IH| |ob l cs _ IH];
    csimpl; [constructor|constructor; auto|done|].
  apply app_nil in Ecs as [_ ->]. auto.
Qed.

Lemma explained_one l c :
  (∀ ob, view ob = None) →
  explained l [c] → ∃ pre s s' post, omap step_of l = pre ++ (s, s') :: post ∧ W c s s'
    ∧ Forall (λ ss, quiet ss.1 ss.2) pre ∧ Forall (λ ss, quiet ss.1 ss.2) post.
Proof.
  intros Hview Hl. remember [c] as cs eqn:Ecs.
  induction Hl as [|s s' l cs Hs Hl IH|c' s s' l cs Hc Hl IH|ob l cs Hl IH]; [done|..]; csimpl.
  - destruct (IH Ecs) as (pre & s1 & s1' & post & -> & Hw & Hpre & Hpost).
    exists ((s, s') :: pre), s1, s1', post. split_and!; [done|done|by constructor|done].
  - injection Ecs as -> ->. exists [], s, s', (omap step_of l).
    split_and!; [done|done|constructor|]. by apply explained_none.
  - unfold seen in Ecs. rewrite Hview in Ecs. auto.
Qed.
End events.

(** Calls without a label. *)
Lemma emits_unseen {E S C A} Ans (p : prog E S A) :
  emits (C := C) Ans (λ _, None) p (λ _ cs, cs = []).
Proof.
  induction p as [out|X f k IH|X e k IH|X e k IH]; [done|exact IH|intros x _; exact (IH x)|].
  split; [intros x _; exact (IH (Some x))|exact (IH None)].
Qed.

(** A part of the state. *)
Lemma tells_zoom {E S S' C A} (gone : Prop) (quiet : S → S → Prop) (quiet' : S' → S' → Prop) W W'
    (view : Obs E → option C) (get : S' → option S) set (p : prog E S A) Q :
  (∀ s', quiet' s' s') →
  (∀ s' s s2, get s' = Some s → quiet s s2 → quiet' s' (set s2 s')) →
  (∀ c s' s s2, get s' = Some s → W c s s2 → W' c s' (set s2 s')) →
  tells quiet W view True p Q → tells quiet' W' view gone (zoom get set p) Q.
Proof.
  intros Hrefl Hq HW. revert Q. induction p as [out|X f k IH|X e k IH|X e k IH]; intros Q; simpl;
    [done| |intros Hp x; by apply IH..].
  intros [Hp Hm].
  assert (Hgone : ∀ m, tells quiet' W' view gone (zoom get set (k (Panic m))) Q).
  { intros m. by apply IH, Hm. }
  split; [|done]. intros s'. destruct (get s') as [s|] eqn:Hs; [|left; split; [apply Hrefl|apply Hgone]].
  specialize (Hp s). destruct (f s) as [x s2] eqn:Ef; simpl in *.
  destruct Hp as [[Hs2 Hk]|(c & Hc & Hk)]; [left; split; [by eapply Hq|auto]|].
  right. exists c. split; [by eapply HW|auto].
Qed.
