(* ===== verification/Traced.v ===== *)
(** A pool of tasks with what each of them is seen to do.

    [pool_trace] is a run of [pool_step] (Pool.v) with the calls that its tasks make,
    each with the index of its task.  [gates] is a logic for such runs: a task is in
    some phase [h]; an atomic action may change the phase together with the state, as
    [moves] says, and in a phase a task makes only the calls that [may] admits.
    Phases only grow, so at the end of a run the phase of a task accounts for all
    the calls it made ([pool_gates]). *)
From S2P Require Import Prelude RustStd Prog Pool.

Section traced.
Context {E : Type → Type} {S : Type}.
Context (Ans : ∀ X, E X → X → Prop) (arrives : prog E S () → Prop).

Abbreviation pool := (list (prog E S ()) * S)%type.

Inductive task_event : prog E S () → S → option (Obs E) → prog E S () → S → Prop :=
| event_atomic X (f : S → Outcome X * S) k s : task_event (Atomic f k) s None (k (f s).1) (f s).2
| event_ext X (e : E X) k x s :
    Ans X e x → task_event (Ext e k) s (Some (Called e (Some x))) (k x) s
| event_answer X (e : E X) k x s :
    Ans X e x → task_event (Await e k) s (Some (Called e (Some x))) (k (Some x)) s
| event_drop X (e : E X) k s : task_event (Await e k) s (Some (Called e None)) (k None) s.

Inductive pool_trace : pool → list (nat * Obs E) → pool → Prop :=
| trace_nil c : pool_trace c [] c
| trace_task i p ob p' ps s s' t c :
    ps !! i = Some p → task_event p s ob p' s' → pool_trace (<[i := p']> ps, s') t c →
    pool_trace (ps, s) (option_list (pair i <$> ob) ++ t) c
| trace_arrival p ps s t c :
    arrives p → pool_trace (ps ++ [p], s) t c → pool_trace (ps, s) t c.

(** The runs with a trace are the runs. *)
Lemma event_step p s p' s' : (∃ ob, task_event p s ob p' s') ↔ task_step Ans p s p' s'.
Proof.
  split.
  - intros [ob He]. destruct He; by constructor.
  - intros Ht. destruct Ht; eexists; by constructor.
Qed.

Lemma pool_trace_steps c c' : (∃ t, pool_trace c t c') ↔ rtc (pool_step Ans arrives) c c'.
Proof.
  split.
  - intros [t Ht]. induction Ht as [c|i p ob p' ps s s' t c Hi He _ IH|p ps s t c Hp _ IH]; [done| |].
    + eapply rtc_l; [|exact IH]. eapply pool_task; [exact Hi|]. apply event_step. by exists ob.
    + eapply rtc_l; [|exact IH]. by apply pool_arrival.
  - induction 1 as [c|c c1 c' Hstep _ [t IH]]; [eexists; constructor|].
    destruct Hstep as [i p p' ps s s' Hi [ob He]%event_step|p ps s Hp].
    + eexists. by eapply trace_task.
    + exists t. by eapply trace_arrival.
Qed.

Lemma pool_trace_app c1 t1 c2 t2 c3 :
  pool_trace c1 t1 c2 → pool_trace c2 t2 c3 → pool_trace c1 (t1 ++ t2) c3.
Proof.
  intros H1 H2. induction H1 as [c|i p ob p' ps s s' t c Hi He _ IH|p ps s t c Hp _ IH]; [done| |].
  - rewrite <- app_assoc. eapply trace_task; eauto.
  - eapply trace_arrival; eauto.
Qed.

(** A task that runs from its beginning to its end while the others wait. *)
Lemma exec_trace (o : Oracle E S) i p ps n s :
  lawful eq Ans o → ps !! i = Some p →
  pool_trace (ps, s) (pair i <$> r_obs (exec o p n s))
    (<[i := Done (r_out (exec o p n s))]> ps, r_state (exec o p n s)).
Proof.
  intros Ho. revert ps n s. induction p as [out|X f k IH|X e k IH|X e k IH]; intros ps n s Hi; simpl.
  { rewrite list_insert_id by done. constructor. }
  all: assert (Hlt : i < length ps) by by eapply lookup_lt_Some.
  - rewrite <- (lawful_rely _ _ _ Ho n s).
    eapply (trace_task i _ None); [exact Hi|apply event_atomic|].
    destruct (f s) as [x s']; simpl. rewrite <- (list_insert_insert_eq ps i (Done _) (k x)).
    apply IH. by apply list_lookup_insert_eq.
  - eapply (trace_task i _ (Some _)); [exact Hi|apply event_ext, (lawful_ext _ _ _ Ho n)|].
    rewrite <- (list_insert_insert_eq ps i (Done _) (k (o_ext o n X e))).
    apply IH. by apply list_lookup_insert_eq.
  - destruct (o_await o n X e) as [x|] eqn:Ex; simpl.
    + eapply (trace_task i _ (Some _)); [exact Hi|apply event_answer, (lawful_await _ _ _ Ho n _ _ _ Ex)|].
      rewrite <- (list_insert_insert_eq ps i (Done _) (k (Some x))).
      apply IH. by apply list_lookup_insert_eq.
    + eapply (trace_task i _ (Some _)); [exact Hi|apply event_drop|].
      rewrite <- (list_insert_insert_eq ps i (Done _) (k None)).
      apply IH. by apply list_lookup_insert_eq.
Qed.

(** ** The logic *)
Context {H : Type} (I : S → Prop) (moves : H → S → H → S → Prop) (may : H → Obs E → Prop).

Fixpoint gates {A} (p : prog E S A) (h : H) (Q : Outcome A → H → Prop) : Prop :=
  match p with
  | Done o => Q o h
  | Atomic f k => ∀ s, I s → ∃ h', moves h s h' (f s).2 ∧ gates (k (f s).1) h' Q
  | Ext e k => ∀ x, Ans _ e x → may h (Called e (Some x)) ∧ gates (k x) h Q
  | Await e k =>
      (∀ x, Ans _ e x → may h (Called e (Some x)) ∧ gates (k (Some x)) h Q)
      ∧ may h (Called e None) ∧ gates (k None) h Q
  end.

Lemma gates_mono {A} (p : prog E S A) h (Q Q' : Outcome A → H → Prop) :
  (∀ o h, Q o h → Q' o h) → gates p h Q → gates p h Q'.
Proof.
  intros HQ. revert h. induction p as [out|X f k IH|X e k IH|X e k IH]; intros h; simpl; eauto.
  - intros Hp s Hs. destruct (Hp s Hs) as (h' & Hm & Hk). eauto.
  - intros Hp x Hx. destruct (Hp x Hx). eauto.
  - intros (Hp & Hn & Hk). split_and!; [|done|eauto]. intros x Hx. destruct (Hp x Hx). eauto.
Qed.

Lemma gates_bind_outcome {A B} (p : prog E S A) (k : Outcome A → prog E S B) h Q :
  gates p h (λ o h', gates (k o) h' Q) → gates (bind_outcome p k) h Q.
Proof.
  revert h. induction p as [out|X f k0 IH|X e k0 IH|X e k0 IH]; intros h; simpl; eauto.
  - intros Hp s Hs. destruct (Hp s Hs) as (h' & Hm & Hk). eauto.
  - intros Hp x Hx. destruct (Hp x Hx). eauto.
  - intros (Hp & Hn & Hk). split_and!; [|done|eauto]. intros x Hx. destruct (Hp x Hx). eauto.
Qed.

Lemma gates_bind {A B} (p : prog E S A) (k : A → prog E S B) h Q :
  gates p h (λ o h', gates (on_ret k o) h' Q) → gates (p ≫= k) h Q.
Proof. apply gates_bind_outcome. Qed.

(** A phase in which everything is allowed, for a program that does not change it. *)
Lemma gates_open {A} (R : S → S → Prop) (p : prog E S A) h :
  (∀ s s', R s s' → moves h s h s') → (∀ ob, may h ob) →
  acts_by R (λ _ _ _, True) p → gates p h (λ _ h', h' = h).
Proof.
  intros HR Hmay. induction p as [out|X f k IH|X e k IH|X e k IH]; simpl; auto.
  - intros [Hf Hk] s _. exists h. auto.
  - intros [Hp Hn]. auto.
Qed.

(** ** Soundness *)
Context (grows : H → H → Prop) `{!PreOrder grows}.
Context (Hgrows : ∀ h s h' s', moves h s h' s' → grows h h').
Context (Hmay : ∀ h h' ob, grows h h' → may h ob → may h' ob).

Definition phased (p : prog E S ()) (h : H) : Prop := gates p h (λ _ _, True).

Lemma event_gates p s ob p' s' h :
  task_event p s ob p' s' → I s → phased p h →
  ∃ h', (moves h s h' s' ∨ h' = h ∧ s' = s) ∧ phased p' h'
    ∧ ∀ ob', ob = Some ob' → may h ob'.
Proof.
  intros He Hs Hp. destruct He; simpl in Hp.
  - destruct (Hp s Hs) as (h' & Hm & Hk). exists h'. split_and!; [by left|done|done].
  - destruct (Hp x) as [Hc Hk]; [done|]. exists h. split_and!; [by right|done|by intros ? [= <-]].
  - destruct Hp as [Hp _]. destruct (Hp x) as [Hc Hk]; [done|].
    exists h. split_and!; [by right|done|by intros ? [= <-]].
  - destruct Hp as (_ & Hc & Hk). exists h. split_and!; [by right|done|by intros ? [= <-]].
Qed.

(** The calls of a trace are those the phases admit; [J] relates all phases to the
    state, and a new task is in the phase [idle]. *)
Lemma pool_gates (J : list H → S → Prop) idle hs ps s t ps' s' :
  (∀ hs s, J hs s → I s) →
  (∀ hs i h h' s s', hs !! i = Some h → moves h s h' s' → J hs s → J (<[i := h']> hs) s') →
  (∀ hs s, J hs s → J (hs ++ [idle]) s) →
  (∀ p, arrives p → phased p idle) →
  pool_trace (ps, s) t (ps', s') → J hs s → Forall2 phased ps hs →
  ∃ hs', J hs' s' ∧ Forall2 phased ps' hs'
    ∧ (∀ i h, hs !! i = Some h → ∃ h', hs' !! i = Some h' ∧ grows h h')
    ∧ Forall (λ io, ∃ h, hs' !! io.1 = Some h ∧ may h io.2) t.
Proof.
  intros HJI Hmove Hnew Harr Htr. remember (ps, s) as c eqn:Ec. remember (ps', s') as c' eqn:Ec'.
  revert hs ps s Ec Ec'. induction Htr as [c|i p ob p' ps1 s1 s1' t c Hi He _ IH|p ps1 s1 t c Hp _ IH];
    intros hs ps s Ec Ec' HJ Hps; simplify_eq.
  - exists hs. split_and!; [done|done| |by constructor]. intros i h Hi. by exists h.
  - destruct (Forall2_lookup_l _ _ _ _ _ Hps Hi) as (h & Hh & Hp).
    destruct (event_gates _ _ _ _ _ h He (HJI _ _ HJ) Hp) as (h' & Hm & Hp' & Hob).
    assert (J (<[i := h']> hs) s1' ∧ grows h h') as [HJ' Hg].
    { destruct Hm as [Hm|[-> ->]]; [split; [by eapply Hmove|by eapply Hgrows]|].
      by rewrite list_insert_id. }
    destruct (IH _ _ _ eq_refl eq_refl HJ' (Forall2_insert _ _ _ _ _ _ Hps Hp'))
      as (hs' & HJe & Hpse & Hlater & Hcalls).
    assert (Hkeep : ∀ j h, hs !! j = Some h → ∃ h', hs' !! j = Some h' ∧ grows h h').
    { intros j h0 Hj. destruct (decide (i = j)) as [<-|Hne].
      - destruct (Hlater i h') as (h2 & Hh2 & Hg2).
        { apply list_lookup_insert_eq. by eapply lookup_lt_Some. }
        exists h2. split; [done|]. simplify_eq. by etrans.
      - apply Hlater. by rewrite list_lookup_insert_ne. }
    exists hs'. split_and!; [done|done|done|]. apply Forall_app. split; [|done].
    destruct ob as [ob|]; [|done]. apply Forall_singleton. simpl.
    destruct (Hkeep i h Hh) as (h2 & Hh2 & Hg2). eauto.
  - destruct (IH (hs ++ [idle]) _ _ eq_refl eq_refl) as (hs' & HJe & Hpse & Hlater & Hcalls).
    + auto.
    + apply Forall2_app; [done|]. apply Forall2_cons. auto.
    + exists hs'. split_and!; [done|done| |done]. intros i h Hi.
      apply Hlater. by apply lookup_app_l_Some.
Qed.
End traced.
