(* ===== verification/Ledger.v ===== *)
(** What each task of a pool has called so far.

    [emits] (Prog.v) speaks of complete runs.  [tracks p cs Q] also speaks of a task on
    its way: it has made the calls [cs], it is still running only while [live] holds of
    its calls, and at its end they satisfy [Q]; the states it sees satisfy [I].  In a
    pool, these lists are the tasks' own calls, and together they are the trace
    ([pool_books]; [pool_tracks] when all tasks are alike and nothing is known of the
    state): what a shared counter has been told is the sum of what the tasks have told
    it. *)
From S2P Require Import Prelude RustStd Prog Pool Traced.

(** The calls of one task. *)
Definition by_task {B} (i : nat) (t : list (nat * B)) : list B :=
  omap (λ jb, if decide (jb.1 = i) then Some jb.2 else None) t.

Lemma by_task_app {B} i (t t' : list (nat * B)) : by_task i (t ++ t') = by_task i t ++ by_task i t'.
Proof. apply omap_app. Qed.

Lemma by_task_map {B} i j (l : list B) : by_task i (pair j <$> l) = if decide (j = i) then l else [].
Proof.
  unfold by_task. induction l as [|b l IH]; csimpl; [by case_decide|]. rewrite IH. by case_decide.
Qed.

Lemma by_task_cons {B} i (b : B) t : by_task i ((i, b) :: t) = b :: by_task i t.
Proof. unfold by_task. csimpl. by rewrite decide_True. Qed.

Lemma by_task_other {B} i j (b : B) t : j ≠ i → by_task i ((j, b) :: t) = by_task i t.
Proof. intros Hne. unfold by_task. csimpl. by rewrite decide_False. Qed.

Lemma by_task_elem {B} i (b : B) t : b ∈ by_task i t → b ∈ t.*2.
Proof.
  unfold by_task. intros ([j b'] & Hin & Hb)%list_elem_of_omap. simpl in Hb.
  case_decide; [|done]. injection Hb as <-. by apply (list_elem_of_fmap_2 snd _ (j, b')).
Qed.

Lemma by_task_fresh {B} i (t : list (nat * B)) : Forall (λ jb, jb.1 < i) t → by_task i t = [].
Proof.
  unfold by_task. induction 1 as [|[j b] t Hj _ IH]; [done|]. csimpl in *.
  by rewrite decide_False by lia.
Qed.

Lemma concat_add {B} (css : list (list B)) i cs new :
  css !! i = Some cs → concat (<[i := cs ++ new]> css) ≡ₚ concat css ++ new.
Proof.
  revert i. induction css as [|c css IH]; intros [|i]; simpl; [done..| |].
  - intros [= ->]. by rewrite <- !app_assoc, (Permutation_app_comm new).
  - intros Hi. by rewrite IH, app_assoc.
Qed.

Section ledger.
Context {E : Type → Type} {S : Type}.
Context (I : S → Prop) (Ans : ∀ X, E X → X → Prop) (live : list (Obs E) → Prop).

Fixpoint tracks {A} (p : prog E S A) (cs : list (Obs E)) (Q : Outcome A → list (Obs E) → Prop)
    : Prop :=
  match p with
  | Done o => Q o cs
  | Atomic f k => live cs ∧ ∀ s, I s → tracks (k (f s).1) cs Q
  | Ext e k => live cs ∧ ∀ x, Ans _ e x → tracks (k x) (cs ++ [Called e (Some x)]) Q
  | Await e k =>
      live cs
      ∧ (∀ x, Ans _ e x → tracks (k (Some x)) (cs ++ [Called e (Some x)]) Q)
      ∧ tracks (k None) (cs ++ [Called e None]) Q
  end.

Lemma tracks_mono {A} (p : prog E S A) cs (Q Q' : Outcome A → list (Obs E) → Prop) :
  (∀ o cs, Q o cs → Q' o cs) → tracks p cs Q → tracks p cs Q'.
Proof.
  intros HQ. revert cs. induction p as [out|X f k IH|X e k IH|X e k IH]; intros cs; simpl; eauto.
  - intros [Hl Hp]. eauto.
  - intros [Hl Hp]. eauto.
  - intros (Hl & Hp & Hn). split_and!; eauto.
Qed.

Lemma tracks_bind_outcome {A B} (p : prog E S A) (k : Outcome A → prog E S B) cs Q :
  tracks p cs (λ o cs', tracks (k o) cs' Q) → tracks (bind_outcome p k) cs Q.
Proof.
  revert cs. induction p as [out|X f k0 IH|X e k0 IH|X e k0 IH]; intros cs; simpl; eauto.
  - intros [Hl Hp]. eauto.
  - intros [Hl Hp]. eauto.
  - intros (Hl & Hp & Hn). split_and!; eauto.
Qed.

Lemma tracks_bind {A B} (p : prog E S A) (k : A → prog E S B) cs Q :
  tracks p cs (λ o cs', tracks (on_ret k o) cs' Q) → tracks (p ≫= k) cs Q.
Proof. apply tracks_bind_outcome. Qed.

(** A post on the calls made since. *)
Definition since {A} (cs : list (Obs E)) (Q : Outcome A → list (Obs E) → Prop)
    (o : Outcome A) (cs' : list (Obs E)) : Prop := ∃ new, cs' = cs ++ new ∧ Q o new.

(** What is known of complete runs can be added. *)
Lemma tracks_emits {C A} (view : Obs E → option C) (p : prog E S A) cs
    (Q : Outcome A → list (Obs E) → Prop) (Q' : Outcome A → list C → Prop) :
  tracks p cs Q → emits Ans view p Q' →
  tracks p cs (λ o cs', Q o cs' ∧ since cs (λ o new, Q' o (omap view new)) o cs').
Proof.
  assert (Hgo : ∀ B (q : prog E S B) c ob (R : Outcome B → list (Obs E) → Prop)
      (R' : Outcome B → list C → Prop),
    tracks q (c ++ [ob]) (λ o cs', R o cs' ∧
      since (c ++ [ob]) (λ o l, R' o (seen view ob ++ omap view l)) o cs') →
    tracks q (c ++ [ob]) (λ o cs', R o cs' ∧ since c (λ o l, R' o (omap view l)) o cs')).
  { intros B q c ob R R'. apply tracks_mono. intros o cs' (HR & l & -> & HR'). split; [done|].
    exists (ob :: l). rewrite <- app_assoc. split; [done|]. unfold seen in HR'. csimpl.
    by destruct (view ob). }
  revert cs Q'. induction p as [out|X f k IH|X e k IH|X e k IH]; intros cs Q'; simpl.
  - intros HQ HQ'. split; [done|]. exists []. by rewrite app_nil_r.
  - intros [Hl Hp] He. auto.
  - intros [Hl Hp] He. split; [done|]. intros x Hx.
    apply Hgo, (IH x _ (λ o l, Q' o (seen view _ ++ l))); auto.
  - intros (Hl & Hp & Hn) [He Hen]. split_and!; [done|intros x Hx|];
      apply Hgo, (IH _ _ (λ o l, Q' o (seen view _ ++ l))); auto.
Qed.

(** A part that makes only calls that keep the task alive. *)
Section only.
Context (Hans : ∀ X (e : E X), ∃ x, Ans X e x).
Context {C : Type} (view : Obs E → option C) (ok : C → Prop).

Lemma emits_ends {A} (p : prog E S A) (Q : Outcome A → list C → Prop) :
  emits Ans view p Q → ∃ o cs, Q o cs.
Proof.
  revert Q. induction p as [out|X f k IH|X e k IH|X e k IH]; intros Q; simpl; [eauto|..].
  - intros Hp. exact (IH Cancelled _ (Hp Cancelled)).
  - intros Hp. destruct (Hans X e) as [x Hx]. destruct (IH x _ (Hp x Hx)) as (o & cs & HQ). eauto.
  - intros [_ Hn]. destruct (IH None _ Hn) as (o & cs & HQ). eauto.
Qed.

Lemma emits_only_seen {A} (p : prog E S A) ob :
  emits Ans view p (λ _ cs, Forall ok (seen view ob ++ cs)) →
  Forall ok (omap view [ob]) ∧ emits Ans view p (λ _ cs, Forall ok cs).
Proof.
  intros Hp. split.
  - destruct (emits_ends p _ Hp) as (o & cs & Hok). apply Forall_app in Hok as [Hl _].
    unfold seen in Hl. csimpl. by destruct (view ob).
  - eapply emits_mono; [|exact Hp]. intros o cs Hok. by apply Forall_app in Hok as [_ Hcs].
Qed.

Abbreviation all_ok cs := (Forall ok (omap view cs)).

Lemma tracks_only {A} (p : prog E S A) cs :
  (∀ new, all_ok new → live (cs ++ new)) → emits Ans view p (λ _ cs, Forall ok cs) →
  tracks p cs (since cs (λ _ new, all_ok new)).
Proof.
  assert (Hlive : ∀ c l, (∀ new, all_ok new → live (c ++ new)) → all_ok l →
    ∀ new, all_ok new → live ((c ++ l) ++ new)).
  { intros c l Hl Hok new Hnew. rewrite <- app_assoc. apply Hl. rewrite omap_app. by apply Forall_app. }
  assert (Hnow : ∀ c, (∀ new, all_ok new → live (c ++ new)) → live c).
  { intros c Hl. rewrite <- (app_nil_r c). by apply Hl. }
  assert (Hadd : ∀ B (q : prog E S B) c l, all_ok l →
    tracks q (c ++ l) (since (c ++ l) (λ _ new, all_ok new)) →
    tracks q (c ++ l) (since c (λ _ new, all_ok new))).
  { intros B q c l Hl. apply tracks_mono. intros o cs' (new & -> & Hnew). exists (l ++ new).
    rewrite app_assoc, omap_app. split; [done|]. by apply Forall_app. }
  revert cs. induction p as [out|X f k IH|X e k IH|X e k IH]; intros cs Hl; simpl.
  - intros _. exists []. rewrite app_nil_r. split; [done|constructor].
  - intros Hp. auto.
  - intros Hp. split; [auto|]. intros x Hx. destruct (emits_only_seen _ _ (Hp x Hx)). eauto.
  - intros [Hp Hn]. destruct (emits_only_seen _ _ Hn). split_and!; [auto|intros x Hx|eauto].
    destruct (emits_only_seen _ _ (Hp x Hx)). eauto.
Qed.
End only.
End ledger.

(** What holds of complete runs, and of every part of them, holds of a task on its way. *)
Lemma tracks_prefix {E S C A} (I : S → Prop) (Ans : ∀ X, E X → X → Prop) (view : Obs E → option C)
    (live : list (Obs E) → Prop) (P : list C → Prop) (p : prog E S A) cs (Q : Outcome A → list (Obs E) → Prop) :
  (∀ X (e : E X), ∃ x, Ans X e x) → (∀ l l', P (l ++ l') → P l) →
  tracks I Ans live p cs Q → emits Ans view p (λ _ new, P (omap view cs ++ new)) →
  tracks I Ans (λ cs, live cs ∧ P (omap view cs)) p cs Q.
Proof.
  intros Hans HP. assert (Hnow : ∀ B (q : prog E S B) c,
    emits Ans view q (λ _ new, P (omap view c ++ new)) → P (omap view c)).
  { intros B q c Hq. destruct (emits_ends Ans Hans view q _ Hq) as (o & new & Hnew). by eapply HP. }
  assert (Hstep : ∀ B (q : prog E S B) c ob,
    emits Ans view q (λ _ new, P (omap view c ++ seen view ob ++ new)) →
    emits Ans view q (λ _ new, P (omap view (c ++ [ob]) ++ new))).
  { intros B q c ob. apply emits_mono. intros o new. rewrite omap_app, <- app_assoc. unfold seen.
    csimpl. by destruct (view ob). }
  revert cs. induction p as [out|X f k IH|X e k IH|X e k IH]; intros cs Hp He; [done|..];
    pose proof (Hnow _ _ _ He) as Hc; simpl in *.
  - destruct Hp as [Hl Hp]. split; [done|]. intros s Hs. apply IH; [by apply Hp|apply He].
  - destruct Hp as [Hl Hp]. split; [done|]. intros x Hx. apply IH; [by apply Hp|by apply Hstep, He].
  - destruct Hp as (Hl & Hp & Hn). destruct He as [He Hen].
    split_and!; [done|done|intros x Hx|]; (apply IH; [by auto|apply Hstep; by auto]).
Qed.

(** ** The books of a pool

    A task has a label in [H], which says what its calls are like. *)
Section pool.
Context {E : Type → Type} {S H : Type}.
Context (I : S → Prop) (Ans : ∀ X, E X → X → Prop) (live : H → list (Obs E) → Prop).
Context (arrives : prog E S () → Prop) (Q : H → Outcome () → list (Obs E) → Prop).

Definition labelled (h : H) (p : prog E S ()) : Prop :=
  tracks I Ans (live h) p [] (Q h) ∧ acts_by (λ s s', I s → I s') Ans p.

(** Each task has its own calls of the trace, which together are the trace. *)
Record books (ps : list (prog E S ())) (hcs : list (H * list (Obs E))) (t : list (nat * Obs E))
    : Prop := {
  books_tracks : Forall2 (λ (p : prog E S ()) hc, tracks I Ans (live hc.1) p hc.2 (Q hc.1)) ps hcs;
  books_acts : Forall (acts_by (λ s s', I s → I s') Ans) ps;
  books_own i hc : hcs !! i = Some hc → hc.2 = by_task i t;
  books_all : t.*2 ≡ₚ concat hcs.*2;
  books_known : Forall (λ io, io.1 < length hcs) t;
}.

Lemma books_nil hs ps : Forall2 labelled hs ps → books ps ((λ h, (h, [])) <$> hs) [].
Proof.
  intros Hps. split.
  - induction Hps as [|h p hs ps [Hp _] _ IH]; [constructor|]. rewrite fmap_cons. by constructor.
  - induction Hps as [|h p hs ps [_ Hp] _ IH]; by constructor.
  - intros i hc Hi. rewrite list_lookup_fmap in Hi. by destruct (hs !! i); simplify_eq/=.
  - clear. induction hs as [|h hs IH]; [done|]. by rewrite !fmap_cons.
  - constructor.
Qed.

Lemma tracks_event p s ob p' s' h cs :
  I s → task_event Ans p s ob p' s' → tracks (S := S) I Ans (live h) p cs (Q h) →
  tracks I Ans (live h) p' (cs ++ option_list ob) (Q h).
Proof. destruct 2; simpl; rewrite ?app_nil_r; naive_solver. Qed.

Lemma acts_event p s ob p' s' :
  I s → task_event Ans p s ob p' s' → acts_by (λ s s' : S, I s → I s') Ans p →
  I s' ∧ acts_by (λ s s', I s → I s') Ans p'.
Proof. destruct 2; simpl; naive_solver. Qed.

Lemma books_event ps hcs t i p s ob p' s' :
  I s → ps !! i = Some p → task_event Ans p s ob p' s' → books ps hcs t →
  I s' ∧ ∃ hcs', hcs'.*1 = hcs.*1 ∧ books (<[i := p']> ps) hcs' (t ++ option_list (pair i <$> ob)).
Proof.
  intros Hs Hi He [Htr Hacts Hown Hall Hknown].
  destruct (Forall2_lookup_l _ _ _ _ _ Htr Hi) as ([h cs] & Hcs & Hp). simpl in Hp.
  destruct (acts_event _ _ _ _ _ Hs He (Forall_lookup_1 _ _ _ _ Hacts Hi)) as [Hs' Hact].
  split; [done|]. exists (<[i := (h, cs ++ option_list ob)]> hcs).
  assert (Hlt : i < length hcs) by by eapply lookup_lt_Some.
  assert (Heq : option_list (pair i <$> ob) = pair i <$> option_list ob) by by destruct ob.
  split. { rewrite list_fmap_insert. apply list_insert_id. by rewrite list_lookup_fmap, Hcs. }
  split.
  - apply Forall2_insert; [done|]. exact (tracks_event _ _ _ _ _ _ _ Hs He Hp).
  - by apply Forall_insert.
  - intros j hc'. rewrite by_task_app, Heq, by_task_map. intros Hj.
    destruct (decide (i = j)) as [<-|Hne].
    + rewrite list_lookup_insert_eq in Hj by done. injection Hj as <-. simpl.
      by rewrite <- (Hown i _ Hcs).
    + rewrite list_lookup_insert_ne in Hj by done. rewrite app_nil_r. auto.
  - rewrite fmap_app, Hall, list_fmap_insert. cbn [snd].
    rewrite (concat_add hcs.*2 i cs) by by rewrite list_lookup_fmap, Hcs. by destruct ob.
  - rewrite length_insert. apply Forall_app. split; [done|]. destruct ob; simpl; by repeat constructor.
Qed.

Lemma books_arrival ps hcs t h p : labelled h p → books ps hcs t → books (ps ++ [p]) (hcs ++ [(h, [])]) t.
Proof.
  intros [Hp Hact] [Htr Hacts Hown Hall Hknown]. split.
  - apply Forall2_app; [done|]. by constructor.
  - apply Forall_app. split; [done|]. by constructor.
  - intros i cs Hi. apply lookup_app_Some in Hi as [Hi|[Hlen Hi]]; [auto|].
    destruct (i - length hcs) eqn:Hz; [|done]. injection Hi as <-.
    rewrite by_task_fresh; [done|]. eapply Forall_impl; [exact Hknown|]. simpl. lia.
  - rewrite fmap_app, concat_app. simpl. by rewrite !app_nil_r.
  - rewrite length_app. eapply Forall_impl; [exact Hknown|]. simpl. lia.
Qed.

Context (Harr : ∀ p, arrives p → ∃ h, labelled h p).

Lemma pool_books c t c' hcs t0 :
  pool_trace Ans arrives c t c' → I c.2 → books c.1 hcs t0 →
  I c'.2 ∧ ∃ hcs', hcs.*1 `prefix_of` hcs'.*1 ∧ books c'.1 hcs' (t0 ++ t).
Proof.
  intros Htr. revert hcs t0. induction Htr as [c|i p ob p' ps s s' t c Hi He _ IH|p ps s t c Hp _ IH];
    intros hcs t0 Hs Hb; simpl in *.
  - split; [done|]. exists hcs. by rewrite app_nil_r.
  - destruct (books_event _ _ _ _ _ _ _ _ _ Hs Hi He Hb) as (Hs' & hcs1 & Heq & Hb1).
    destruct (IH _ _ Hs' Hb1) as (Hc & hcs' & Hpre & Hb'). split; [done|]. exists hcs'.
    rewrite <- Heq, app_assoc. by split.
  - destruct (Harr p Hp) as [h Hh]. destruct (IH _ _ Hs (books_arrival _ _ _ _ _ Hh Hb))
      as (Hc & hcs' & Hpre & Hb'). split; [done|]. exists hcs'. split; [|done].
    etrans; [|exact Hpre]. rewrite fmap_app. by apply prefix_app_r.
Qed.
End pool.

(** All tasks alike, from the beginning. *)
Lemma pool_tracks {E S} (Ans : ∀ X, E X → X → Prop) (live : list (Obs E) → Prop)
    (arrives : prog E S () → Prop) Q s t ps' s' :
  (∀ p, arrives p → tracks (λ _, True) Ans live p [] Q) →
  pool_trace Ans arrives ([], s) t (ps', s') →
  ∃ css, Forall2 (λ (p : prog E S ()) cs, tracks (λ _, True) Ans live p cs Q) ps' css
    ∧ (∀ i cs, css !! i = Some cs → cs = by_task i t)
    ∧ t.*2 ≡ₚ concat css ∧ Forall (λ io, io.1 < length css) t.
Proof.
  intros Harr Htr.
  assert (Hlab : ∀ p, arrives p → ∃ h : (), labelled (λ _, True) Ans (λ _, live) (λ _, Q) h p).
  { intros p Hp. exists (). split; [by apply Harr|]. eapply acts_mono; [|apply acts_any]. done. }
  pose proof (books_nil (H := ()) (λ _ : S, True) Ans (λ _, live) (λ _, Q) [] []
    (proj2 (Forall2_nil _) Logic.I)) as Hnil.
  destruct (pool_books _ _ _ _ _ Hlab _ _ _ _ _ Htr Logic.I Hnil) as (_ & hcs & _ & [Hks _ Hown Hall Hlen]).
  exists hcs.*2. split_and!; [by apply Forall2_fmap_r| |done|by rewrite length_fmap].
  intros i cs Hi. rewrite list_lookup_fmap in Hi. destruct (hcs !! i) as [hc|] eqn:Hhc; [|done].
  injection Hi as <-. by apply Hown.
Qed.
