(* ===== verification/Config.v ===== *)
(** The configuration model of [gw-core]: the records of
    src/crates/core/src/config.rs with the defaults serde fills in, the errors
    of error.rs, and [GatewayConfig::validate] with its specification
    [config_ok].

    A [HashMap] of the configuration is never changed after parsing: it is the
    association list of its iteration order, with distinct keys. *)
From S2P Require Import Prelude RustStd.

Module Config.

Inductive ConfigError : Type :=
| Io (msg : string)
| Parse (msg : string)
| Invalid (msg : string).

Inductive Strategy : Type := RoundRobin | LeastConnections.

Inductive AuthPolicy : Type :=
| AuthNone
| ApiKey (keys : list string)
| Jwt (secret : string) (required_claims : list (string * string)).

Inductive RateScope : Type := ScopeIp | ScopeApiKey | ScopeRoute.

Record ServerConfig := {
  sc_bind_addr : string;
  sc_admin_bind_addr : string;
  sc_max_body_bytes : Z;
  sc_default_timeout_ms : Z;
  sc_redis_url : option string;
}.

Record MatchConfig := { mc_host : option string; mc_path_prefix : string }.
Record UpstreamConfig := { uc_url : string; uc_weight : Z }.
Record RateLimitConfig := { rl_scope : RateScope; rl_limit : Z; rl_window_secs : Z }.
Record CacheConfig := { cc_ttl_secs : Z; cc_max_entries : Z }.
Record CircuitBreakerConfig := { cb_failure_threshold : Z; cb_open_secs : Z }.
Record HealthCheckConfig := {
  hc_path : string; hc_interval_secs : Z; hc_timeout_ms : Z }.
Record HeaderTransforms := {
  ht_add : list (string * string); ht_remove : list string }.

Record RouteConfig := {
  rc_name : string;
  rc_matches : MatchConfig;
  rc_upstreams : list UpstreamConfig;
  rc_strategy : Strategy;
  rc_strip_path_prefix : bool;
  rc_timeout_ms : option Z;
  rc_retries : Z;
  rc_auth : AuthPolicy;
  rc_rate_limit : option RateLimitConfig;
  rc_cache : option CacheConfig;
  rc_circuit_breaker : CircuitBreakerConfig;
  rc_health_check : option HealthCheckConfig;
  rc_request_headers : HeaderTransforms;
  rc_response_headers : HeaderTransforms;
}.

Record GatewayConfig := { gc_server : ServerConfig; gc_routes : list RouteConfig }.

(** ** Defaults *)

Definition default_bind : string := "0.0.0.0:8080".
Definition default_admin_bind : string := "0.0.0.0:9090".
Definition default_max_body : Z := 8 * 1024 * 1024.
Definition default_timeout_ms : Z := 30000.
Definition default_prefix : string := "/".
Definition default_weight : Z := 1.
Definition default_window : Z := 60.
Definition default_cache_cap : Z := 1024.
Definition default_cb_threshold : Z := 5.
Definition default_cb_open_secs : Z := 10.
Definition default_hc_interval : Z := 5.
Definition default_hc_timeout : Z := 2000.

Definition ServerConfig_default : ServerConfig := {|
  sc_bind_addr := default_bind;
  sc_admin_bind_addr := default_admin_bind;
  sc_max_body_bytes := default_max_body;
  sc_default_timeout_ms := default_timeout_ms;
  sc_redis_url := None;
|}.

Definition MatchConfig_default : MatchConfig :=
  {| mc_host := None; mc_path_prefix := default_prefix |}.

Definition CircuitBreakerConfig_default : CircuitBreakerConfig :=
  {| cb_failure_threshold := default_cb_threshold;
     cb_open_secs := default_cb_open_secs |}.

Definition HeaderTransforms_default : HeaderTransforms :=
  {| ht_add := []; ht_remove := [] |}.

(** A route that gives only its name and upstreams: serde fills in the rest. *)
Definition RouteConfig_defaults (name : string) (ups : list UpstreamConfig)
    : RouteConfig := {|
  rc_name := name;
  rc_matches := MatchConfig_default;
  rc_upstreams := ups;
  rc_strategy := RoundRobin;
  rc_strip_path_prefix := false;
  rc_timeout_ms := None;
  rc_retries := 0;
  rc_auth := AuthNone;
  rc_rate_limit := None;
  rc_cache := None;
  rc_circuit_breaker := CircuitBreakerConfig_default;
  rc_health_check := None;
  rc_request_headers := HeaderTransforms_default;
  rc_response_headers := HeaderTransforms_default;
|}.

(** ** Validation *)

Definition invalid (msg : string) : Result ConfigError unit := Err (Invalid msg).

Fixpoint validate_upstreams (r : RouteConfig) (us : list UpstreamConfig)
    : Result ConfigError unit :=
  match us with
  | [] => Ok ()
  | u :: us =>
      if negb (starts_with (uc_url u) "http://" || starts_with (uc_url u) "https://")
      then invalid ("route '" +:+ rc_name r +:+
             "' upstream url must start with http:// or https://: " +:+ uc_url u)
      else if (uc_weight u =? 0)%Z
      then invalid ("route '" +:+ rc_name r +:+ "' upstream weight must be >= 1")
      else validate_upstreams r us
  end.

Definition validate_auth (r : RouteConfig) : Result ConfigError unit :=
  match rc_auth r with
  | ApiKey [] => invalid ("route '" +:+ rc_name r +:+ "' api_key auth has no keys")
  | _ => Ok ()
  end.

(** The body of the loop over the routes: [names] is the [HashSet] of the names
    seen before. *)
Definition validate_route (names : gset string) (r : RouteConfig)
    : Result ConfigError unit :=
  if decide (rc_name r ∈ names)
  then invalid ("duplicate route name: " +:+ rc_name r)
  else if is_nil (rc_upstreams r)
  then invalid ("route '" +:+ rc_name r +:+ "' has no upstreams")
  else
    _ ← validate_upstreams r (rc_upstreams r);
    if negb (starts_with (mc_path_prefix (rc_matches r)) "/")
    then invalid ("route '" +:+ rc_name r +:+ "' path_prefix must start with '/'")
    else validate_auth r.

Fixpoint validate_routes (names : gset string) (rs : list RouteConfig)
    : Result ConfigError unit :=
  match rs with
  | [] => Ok ()
  | r :: rs =>
      _ ← validate_route names r;
      validate_routes ({[rc_name r]} ∪ names) rs
  end.

Definition validate (cfg : GatewayConfig) : Result ConfigError unit :=
  if is_nil (gc_routes cfg) then invalid "no routes configured"
  else validate_routes ∅ (gc_routes cfg).

(** [serde_yaml] is a parameter: the text of a document to its configuration or
    the message of the parse error. *)
Definition from_yaml (serde_yaml : string → Result string GatewayConfig)
    (yaml : string) : Result ConfigError GatewayConfig :=
  cfg ← match serde_yaml yaml with
        | Ok cfg => Ok cfg
        | Err e => Err (Parse e)
        end;
  _ ← validate cfg;
  mret cfg.

(** [read_to_string] gives the text of the file or the message of the error. *)
Definition from_file (read_to_string : string → Result string string)
    (serde_yaml : string → Result string GatewayConfig)
    (path : string) : Result ConfigError GatewayConfig :=
  text ← match read_to_string path with
         | Ok text => Ok text
         | Err e => Err (Io (path +:+ ": " +:+ e))
         end;
  from_yaml serde_yaml text.

(** ** Specification *)

Definition upstream_ok (u : UpstreamConfig) : Prop :=
  (∃ rest, uc_url u = ("http://" +:+ rest)%string
         ∨ uc_url u = ("https://" +:+ rest)%string)
  ∧ uc_weight u ≠ 0%Z.

Definition route_ok (r : RouteConfig) : Prop :=
  (rc_upstreams r ≠ [])
  ∧ Forall upstream_ok (rc_upstreams r)
  ∧ (∃ rest, mc_path_prefix (rc_matches r) = ("/" +:+ rest)%string)
  ∧ rc_auth r ≠ ApiKey [].

(** What a validated configuration promises to the rest of the gateway. *)
Definition config_ok (cfg : GatewayConfig) : Prop :=
  gc_routes cfg ≠ []
  ∧ NoDup (rc_name <$> gc_routes cfg)
  ∧ Forall route_ok (gc_routes cfg).

(** The integers of a configuration are in the range of their types. *)
Definition route_in_range (r : RouteConfig) : Prop :=
  u32_ok (rc_retries r)
  ∧ Forall (λ u, u32_ok (uc_weight u)) (rc_upstreams r)
  ∧ u32_ok (cb_failure_threshold (rc_circuit_breaker r))
  ∧ u64_ok (cb_open_secs (rc_circuit_breaker r)).

(** ** Lemmas *)

Lemma validate_upstreams_ok r us :
  validate_upstreams r us = Ok () ↔ Forall upstream_ok us.
Proof.
  induction us as [|u us IH]; simpl; [done|].
  rewrite Forall_cons, <- IH. unfold upstream_ok.
  destruct (starts_with (uc_url u) "http://") eqn:E1;
    destruct (starts_with (uc_url u) "https://") eqn:E2;
    destruct (Z.eqb_spec (uc_weight u) 0) as [Hw|Hw]; simpl;
    (split; [try done|intros [[[rest Hr] Hw'] ?]; try done]).
  - intros ?. split_and!; try done. apply starts_with_true in E1 as [x ?]; eauto.
  - intros ?. split_and!; try done. apply starts_with_true in E1 as [x ?]; eauto.
  - intros ?. split_and!; try done. apply starts_with_true in E2 as [x ?]; eauto.
  - exfalso. destruct Hr as [Hr|Hr].
    + assert (starts_with (uc_url u) "http://" = true) by (apply starts_with_true; eauto).
      congruence.
    + assert (starts_with (uc_url u) "https://" = true) by (apply starts_with_true; eauto).
      congruence.
Qed.

Lemma validate_auth_ok r : validate_auth r = Ok () ↔ rc_auth r ≠ ApiKey [].
Proof. unfold validate_auth. by destruct (rc_auth r) as [|[]|]. Qed.

(** One route is accepted exactly when its name is new and it is [route_ok]. *)
Lemma validate_route_ok names r :
  validate_route names r = Ok () ↔ (rc_name r ∉ names) ∧ route_ok r.
Proof.
  unfold validate_route, route_ok.
  destruct (decide (rc_name r ∈ names)) as [Hin|Hin]; [naive_solver|].
  destruct (is_nil (rc_upstreams r)) eqn:En.
  { apply is_nil_true in En. naive_solver. }
  assert (rc_upstreams r ≠ []) by (rewrite <- is_nil_true, En; done).
  unfold mbind, Result_bind.
  rewrite <- (validate_upstreams_ok r), <- validate_auth_ok, <- starts_with_true.
  destruct (validate_upstreams r (rc_upstreams r)) as [[]|e]; [|naive_solver].
  destruct (starts_with (mc_path_prefix (rc_matches r)) "/"); simpl; [|naive_solver].
  split; [intros Ha; by split_and!|by intros (_ & _ & _ & _ & Ha)].
Qed.

Definition names_route (r : RouteConfig) (e : ConfigError) : Prop :=
  ∃ why, e = Invalid ("route '" +:+ rc_name r +:+ why).

Lemma validate_upstreams_err r us e :
  validate_upstreams r us = Err e → names_route r e.
Proof.
  unfold names_route. induction us as [|u us IH]; simpl; [done|].
  case_match; [intros [= <-]; eauto|]. case_match; [intros [= <-]; eauto|done].
Qed.

Lemma validate_route_err names r e :
  validate_route names r = Err e →
  (rc_name r ∈ names ∧ e = Invalid ("duplicate route name: " +:+ rc_name r))
  ∨ ((rc_name r ∉ names) ∧ ¬ route_ok r ∧ names_route r e).
Proof.
  intros Hv. destruct (decide (rc_name r ∈ names)) as [Hin|Hin].
  { left. unfold validate_route in Hv. rewrite decide_True in Hv by done.
    by injection Hv as <-. }
  right. split_and!; [done| |].
  { intros Hok. rewrite (proj2 (validate_route_ok names r)) in Hv by done. done. }
  unfold validate_route in Hv. rewrite decide_False in Hv by done.
  unfold mbind, Result_bind in Hv. unfold names_route.
  case_match; [injection Hv as <-; eauto|].
  destruct (validate_upstreams r (rc_upstreams r)) eqn:Eu.
  2: { injection Hv as <-. by eapply validate_upstreams_err. }
  case_match; [injection Hv as <-; eauto|].
  unfold validate_auth in Hv. repeat case_match; try done. injection Hv as <-; eauto.
Qed.

Lemma validate_routes_ok names rs :
  validate_routes names rs = Ok () ↔
  NoDup (rc_name <$> rs) ∧ Forall (λ r, rc_name r ∉ names) rs ∧ Forall route_ok rs.
Proof.
  revert names. induction rs as [|r rs IH]; intros names.
  { simpl. split; [|done]. intros _. split_and!; constructor. }
  assert (validate_routes names (r :: rs) = Ok () ↔
          validate_route names r = Ok ()
          ∧ validate_routes ({[rc_name r]} ∪ names) rs = Ok ()) as ->.
  { simpl. destruct (validate_route names r) as [[]|]; naive_solver. }
  rewrite validate_route_ok, IH, fmap_cons, NoDup_cons, !Forall_cons.
  rewrite list_elem_of_fmap, !Forall_forall. set_solver.
Qed.

Lemma validate_ok_iff cfg : validate cfg = Ok () ↔ config_ok cfg.
Proof.
  unfold validate, config_ok.
  destruct (is_nil (gc_routes cfg)) eqn:En.
  { apply is_nil_true in En. rewrite En. naive_solver. }
  assert (gc_routes cfg ≠ []) by (rewrite <- is_nil_true, En; done).
  rewrite validate_routes_ok. split; [naive_solver|].
  intros (_ & ? & ?). split_and!; [done| |done].
  apply Forall_forall. set_solver.
Qed.

(** Where the loop stops: at the first route it rejects. *)
Lemma validate_routes_err names rs e :
  validate_routes names rs = Err e →
  ∃ pre r post, rs = pre ++ r :: post
    ∧ validate_routes names pre = Ok ()
    ∧ validate_route (list_to_set (rc_name <$> pre) ∪ names) r = Err e.
Proof.
  revert names. induction rs as [|r rs IH]; intros names Hv; [done|].
  simpl in Hv. destruct (validate_route names r) as [[]|e'] eqn:Er.
  - destruct (IH _ Hv) as (pre & r' & post & -> & Hpre & Herr).
    exists (r :: pre), r', post. simpl. rewrite Er. split_and!; [done|done|].
    rewrite <- Herr. f_equal. set_solver.
  - injection Hv as <-. exists [], r, rs. split_and!; [done|done|].
    rewrite <- Er. f_equal. set_solver.
Qed.

(** Loading the text of a document. *)
Lemma from_yaml_ok_iff serde_yaml yaml cfg :
  from_yaml serde_yaml yaml = Ok cfg ↔ serde_yaml yaml = Ok cfg ∧ config_ok cfg.
Proof.
  unfold from_yaml, mbind, Result_bind, mret, Result_ret.
  destruct (serde_yaml yaml) as [c|]; [|naive_solver].
  destruct (validate c) as [[]|] eqn:Ev.
  - apply validate_ok_iff in Ev. naive_solver.
  - split; [done|]. intros [[= ->] Hok%validate_ok_iff]. congruence.
Qed.

(** Validation's errors are all of one kind. *)
Lemma validate_err cfg e : validate cfg = Err e → ¬ config_ok cfg ∧ ∃ why, e = Invalid why.
Proof.
  intros Hv. split; [intros Hok%validate_ok_iff; congruence|].
  revert Hv. unfold validate. destruct (is_nil (gc_routes cfg)); [intros [= <-]; eauto|].
  intros (pre & r & post & _ & _ & Herr)%validate_routes_err.
  apply validate_route_err in Herr as [[_ ->]|(_ & _ & why & ->)]; eauto.
Qed.

Lemma from_yaml_err serde_yaml yaml e :
  from_yaml serde_yaml yaml = Err e →
  (∃ why, serde_yaml yaml = Err why ∧ e = Parse why)
  ∨ ∃ cfg why, serde_yaml yaml = Ok cfg ∧ ¬ config_ok cfg ∧ e = Invalid why.
Proof.
  unfold from_yaml, mbind, Result_bind. destruct (serde_yaml yaml) as [cfg|why].
  - destruct (validate cfg) as [[]|e'] eqn:Ev; [done|]. intros [= <-].
    apply validate_err in Ev as (Hc & why & ->). right; eauto.
  - intros [= <-]. eauto.
Qed.

(** ** Properties *)

(** C20: loading a configuration file succeeds exactly on a readable file that
    parses to a configuration with at least one route, distinct route names, and on
    every route at least one upstream, http(s) upstream URLs with nonzero weights, a
    path prefix that starts with a slash and a nonempty API key list; and the kind
    of an error tells which of reading, parsing and validation failed. *)
Theorem from_file_spec read_to_string serde_yaml path :
  (∀ cfg, from_file read_to_string serde_yaml path = Ok cfg ↔
    ∃ text, read_to_string path = Ok text ∧ serde_yaml text = Ok cfg ∧ config_ok cfg)
  ∧ (∀ e, from_file read_to_string serde_yaml path = Err e →
    match e with
    | Io _ => ∃ why, read_to_string path = Err why
    | Parse why => ∃ text, read_to_string path = Ok text ∧ serde_yaml text = Err why
    | Invalid _ =>
        ∃ text cfg, read_to_string path = Ok text ∧ serde_yaml text = Ok cfg ∧ ¬ config_ok cfg
    end).
Proof.
  unfold from_file, mbind, Result_bind. destruct (read_to_string path) as [text|why].
  2: { split; [naive_solver|]. intros e [= <-]. by exists why. }
  split; [intros cfg; rewrite from_yaml_ok_iff; naive_solver|].
  intros e [(why & Hs & ->)|(cfg & why & Hs & Hc & ->)]%from_yaml_err; eauto.
Qed.

(** C40: a configuration that has routes (having none is an error of its own) is rejected
    for its first bad route: the routes before it are fine, and the message says which
    route it is and whether the name is a duplicate. *)
Theorem validate_reports_first_bad_route cfg e :
  gc_routes cfg ≠ [] →
  validate cfg = Err e →
  ∃ pre r post, gc_routes cfg = pre ++ r :: post
    ∧ NoDup (rc_name <$> pre) ∧ Forall route_ok pre
    ∧ ((rc_name r ∈ rc_name <$> pre
        ∧ e = Invalid ("duplicate route name: " +:+ rc_name r))
       ∨ ((rc_name r ∉ rc_name <$> pre) ∧ ¬ route_ok r ∧ names_route r e)).
Proof.
  intros Hne. unfold validate.
  destruct (is_nil (gc_routes cfg)) eqn:En; [by apply is_nil_true in En|].
  intros (pre & r & post & Hr & (Hnd & _ & Hok)%validate_routes_ok & Herr)%validate_routes_err.
  exists pre, r, post. split_and!; [done..|].
  apply validate_route_err in Herr. set_solver.
Qed.

Definition demo_upstream : UpstreamConfig := {| uc_url := "http://a"; uc_weight := 1 |}.
Definition demo_config : GatewayConfig := {|
  gc_server := ServerConfig_default;
  gc_routes := [RouteConfig_defaults "r" [demo_upstream];
                RouteConfig_defaults "r" [demo_upstream]];
|}.

Lemma validate_reports_first_bad_route_witness :
  ∃ e pre r post, gc_routes demo_config = pre ++ r :: post
    ∧ NoDup (rc_name <$> pre) ∧ Forall route_ok pre
    ∧ ((rc_name r ∈ rc_name <$> pre
        ∧ e = Invalid ("duplicate route name: " +:+ rc_name r))
       ∨ ((rc_name r ∉ rc_name <$> pre) ∧ ¬ route_ok r ∧ names_route r e)).
Proof.
  exists (Invalid "duplicate route name: r").
  apply (validate_reports_first_bad_route demo_config); [done|].
  vm_compute. reflexivity.
Defined.

End Config.
