(* ===== verification/Router.v ===== *)
(** Route matching: src/crates/core/src/router.rs.

    [match_route] is the loop of [RouteMatcher::match_route]; its specification
    is [is_winner], the first of the most specific candidates. *)
From S2P Require Import Prelude RustStd Config.
Import Config.

Module Router.

(** ** The code *)

Definition strip_port (host : string) : string := split_next ":"%char host.

Definition path_matches (path prefix : string) : bool :=
  if String.eqb prefix "/" then true
  else
    let prefix := trim_end_matches "/"%char prefix in
    if String.eqb path prefix then true
    else
      starts_with path prefix &&
      match String.get (String.length prefix) path with
      | Some c => Ascii.eqb c "/"%char
      | None => false
      end.

(** The host constraint of a route; the loop skips the routes it fails on. *)
Definition host_matches (host : option string) (route : RouteConfig) : bool :=
  match mc_host (rc_matches route) with
  | Some want =>
      let got := default EmptyString (strip_port <$> host) in
      eq_ignore_ascii_case got (strip_port want)
  | None => true
  end.

Definition host_specific (r : RouteConfig) : bool := is_some (mc_host (rc_matches r)).
Definition prefix_len (r : RouteConfig) : nat :=
  String.length (mc_path_prefix (rc_matches r)).

(** One iteration: the state is [best] and [best_len]. *)
Definition match_step (host : option string) (path : string)
    (acc : option RouteConfig * nat) (route : RouteConfig)
    : option RouteConfig * nat :=
  let '(best, best_len) := acc in
  if negb (host_matches host route) then acc
  else if path_matches path (mc_path_prefix (rc_matches route)) then
    let len := prefix_len route in
    let more_specific :=
      Nat.ltb best_len len
      || (Nat.eqb len best_len && host_specific route
          && match best with Some b => negb (host_specific b) | None => false end) in
    if negb (is_some best) || more_specific then (Some route, len) else acc
  else acc.

Definition match_route (cfg : GatewayConfig) (host : option string) (path : string)
    : option RouteConfig :=
  (foldl (match_step host path) (None, 0) (gc_routes cfg)).1.

Definition forward_path (path : string) (route : RouteConfig) : string :=
  if negb (rc_strip_path_prefix route)
     || String.eqb (mc_path_prefix (rc_matches route)) "/"
  then path
  else
    let prefix := trim_end_matches "/"%char (mc_path_prefix (rc_matches route)) in
    let stripped := default path (strip_prefix prefix path) in
    if is_empty stripped then "/" else stripped.

(** ** Specification *)

Definition candidate (host : option string) (path : string) (r : RouteConfig) : bool :=
  host_matches host r && path_matches path (mc_path_prefix (rc_matches r)).

(** Longer prefixes first; a host constraint breaks ties. *)
Definition outranks (r r' : RouteConfig) : bool :=
  Nat.ltb (prefix_len r') (prefix_len r)
  || (Nat.eqb (prefix_len r) (prefix_len r') && host_specific r
      && negb (host_specific r')).

(** The first candidate that no other candidate outranks. *)
Definition is_winner (host : option string) (path : string)
    (rs : list RouteConfig) (r : RouteConfig) : Prop :=
  ∃ i, rs !! i = Some r ∧ candidate host path r = true ∧
    ∀ j r', rs !! j = Some r' → candidate host path r' = true →
      (j < i → outranks r r' = true) ∧ (i < j → outranks r' r = false).

Definition no_candidate host path (rs : list RouteConfig) : Prop :=
  ∀ r, r ∈ rs → candidate host path r = false.

(** ** Lemmas *)

Lemma outranks_irrefl r : outranks r r = false.
Proof.
  unfold outranks. rewrite Nat.ltb_irrefl, Nat.eqb_refl. by destruct (host_specific r).
Qed.

Ltac rank :=
  unfold outranks in *;
  repeat match goal with
  | |- context [host_specific ?r] => destruct (host_specific r)
  | H : context [host_specific ?r] |- _ => destruct (host_specific r)
  | |- context [Nat.ltb ?a ?b] => destruct (Nat.ltb_spec a b)
  | H : context [Nat.ltb ?a ?b] |- _ => destruct (Nat.ltb_spec a b)
  | |- context [Nat.eqb ?a ?b] => destruct (Nat.eqb_spec a b)
  | H : context [Nat.eqb ?a ?b] |- _ => destruct (Nat.eqb_spec a b)
  end; simpl in *; try done; try lia.

Lemma outranks_trans r1 r2 r3 :
  outranks r1 r2 = true → outranks r2 r3 = true → outranks r1 r3 = true.
Proof. rank. Qed.

Lemma outranks_trans_neg r1 r2 r3 :
  outranks r1 r2 = true → outranks r3 r2 = false → outranks r1 r3 = true.
Proof. rank. Qed.

(** The winner's position is determined. *)
Lemma is_winner_unique host path rs r r' :
  is_winner host path rs r → is_winner host path rs r' → r = r'.
Proof.
  intros (i & Hi & Hc & Hw) (j & Hj & Hc' & Hw').
  destruct (Nat.lt_total i j) as [Hlt|[->|Hlt]].
  - apply (Hw' _ _ Hi Hc) in Hlt as ?. apply (Hw _ _ Hj Hc') in Hlt. congruence.
  - congruence.
  - apply (Hw _ _ Hj Hc') in Hlt as ?. apply (Hw' _ _ Hi Hc) in Hlt. congruence.
Qed.

(** Extending the list by one route keeps or replaces the winner. *)
Lemma is_winner_snoc_first host path rs r :
  no_candidate host path rs → candidate host path r = true →
  is_winner host path (rs ++ [r]) r.
Proof.
  intros Hno Hc. exists (length rs). split_and!; [|done|].
  { by rewrite lookup_app_r, Nat.sub_diag by done. }
  intros j r' Hj Hc'. split.
  - intros Hlt. rewrite lookup_app_l in Hj by done.
    apply list_elem_of_lookup_2, Hno in Hj. congruence.
  - intros Hlt. apply lookup_lt_Some in Hj. rewrite length_app in Hj. simpl in Hj. lia.
Qed.

Lemma is_winner_snoc_keep host path rs b r :
  is_winner host path rs b → (candidate host path r = true → outranks r b = false) →
  is_winner host path (rs ++ [r]) b.
Proof.
  intros (i & Hi & Hc & Hw) Hr. exists i.
  split_and!; [by apply lookup_app_l_Some|done|].
  intros j r' Hj Hc'. apply lookup_app_Some in Hj as [Hj|[Hle Hj]]; [eauto|].
  apply list_lookup_singleton_Some in Hj as [? <-].
  apply lookup_lt_Some in Hi. split; [lia|]. intros _. auto.
Qed.

Lemma is_winner_snoc_replace host path rs b r :
  is_winner host path rs b → candidate host path r = true → outranks r b = true →
  is_winner host path (rs ++ [r]) r.
Proof.
  intros (i & Hi & Hc & Hw) Hr Hout. exists (length rs).
  split_and!; [by rewrite lookup_app_r, Nat.sub_diag by done|done|].
  intros j r' Hj Hc'. split.
  - intros Hlt. rewrite lookup_app_l in Hj by done.
    destruct (Hw _ _ Hj Hc') as [Hbefore Hafter].
    destruct (Nat.lt_total j i) as [Hji|[->|Hji]].
    + eapply outranks_trans; eauto.
    + congruence.
    + eapply outranks_trans_neg; eauto.
  - intros Hlt. apply lookup_lt_Some in Hj. rewrite length_app in Hj. simpl in Hj. lia.
Qed.

(** The loop invariant. *)
Lemma match_loop host path rs :
  match foldl (match_step host path) (None, 0) rs with
  | (None, n) => n = 0 ∧ no_candidate host path rs
  | (Some b, n) => n = prefix_len b ∧ is_winner host path rs b
  end.
Proof.
  induction rs as [|r rs IH] using rev_ind; [split; [done|]; set_solver|].
  rewrite foldl_app. simpl.
  destruct (foldl (match_step host path) (None, 0) rs) as [[b|] n].
  - destruct IH as [-> Hw]. unfold match_step.
    destruct (host_matches host r) eqn:Eh; simpl.
    2: { split; [done|]. apply is_winner_snoc_keep; [done|].
         unfold candidate. by rewrite Eh. }
    destruct (path_matches path (mc_path_prefix (rc_matches r))) eqn:Ep.
    2: { split; [done|]. apply is_winner_snoc_keep; [done|].
         unfold candidate. by rewrite Eh, Ep. }
    assert (Hc : candidate host path r = true) by (unfold candidate; by rewrite Eh, Ep).
    change (Nat.ltb (prefix_len b) (prefix_len r) || _) with (outranks r b).
    destruct (outranks r b) eqn:Eo.
    + split; [done|]. by eapply is_winner_snoc_replace.
    + split; [done|]. by apply is_winner_snoc_keep.
  - destruct IH as [-> Hno]. unfold match_step.
    destruct (host_matches host r) eqn:Eh; simpl.
    2: { split; [done|]. intros x [Hx| ->%list_elem_of_singleton]%elem_of_app; [auto|].
         unfold candidate. by rewrite Eh. }
    destruct (path_matches path (mc_path_prefix (rc_matches r))) eqn:Ep.
    2: { split; [done|]. intros x [Hx| ->%list_elem_of_singleton]%elem_of_app; [auto|].
         unfold candidate. by rewrite Eh, Ep. }
    split; [done|]. apply is_winner_snoc_first; [done|].
    unfold candidate. by rewrite Eh, Ep.
Qed.

Lemma match_route_winner cfg host path r :
  match_route cfg host path = Some r ↔ is_winner host path (gc_routes cfg) r.
Proof.
  unfold match_route. pose proof (match_loop host path (gc_routes cfg)) as Hl.
  destruct (foldl _ _ _) as [[b|] n]; simpl.
  - destruct Hl as [_ Hw]. split; [by intros [= <-]|].
    intros Hw'. f_equal. by eapply is_winner_unique.
  - destruct Hl as [_ Hno]. split; [done|].
    intros (i & Hi & Hc & _). apply list_elem_of_lookup_2, Hno in Hi. congruence.
Qed.

Lemma match_route_none cfg host path :
  match_route cfg host path = None ↔ no_candidate host path (gc_routes cfg).
Proof.
  unfold match_route. pose proof (match_loop host path (gc_routes cfg)) as Hl.
  destruct (foldl _ _ _) as [[b|] n]; simpl; [|naive_solver].
  destruct Hl as [_ (i & Hi & Hc & _)]. split; [done|].
  intros Hno. apply list_elem_of_lookup_2, Hno in Hi. congruence.
Qed.

Lemma match_route_candidate cfg host path r :
  match_route cfg host path = Some r →
  r ∈ gc_routes cfg ∧ candidate host path r = true.
Proof.
  intros (i & Hi & Hc & _)%match_route_winner.
  eauto using list_elem_of_lookup_2.
Qed.

Lemma path_matches_true path prefix :
  path_matches path prefix = true ↔
  prefix = "/" ∨ path = trim_end_matches "/"%char prefix
  ∨ ∃ rest, path = (trim_end_matches "/"%char prefix +:+ "/" +:+ rest)%string.
Proof.
  unfold path_matches. set (t := trim_end_matches "/"%char prefix).
  destruct (String.eqb_spec prefix "/"); [naive_solver|].
  destruct (String.eqb_spec path t); [naive_solver|].
  rewrite andb_true_iff, starts_with_true. split.
  - intros [[rest ->] Hget]. right; right. rewrite get_append_eq in Hget.
    destruct rest as [|c rest]; [done|]. simpl in Hget.
    destruct (Ascii.eqb_spec c "/"%char); [subst|done]. by exists rest.
  - intros [?|[?|[rest ->]]]; [done|done|]. split; [by eexists|].
    by rewrite get_append_eq.
Qed.

(** No candidate outranks the winner. *)
Lemma is_winner_max host path rs r r' :
  is_winner host path rs r → r' ∈ rs → candidate host path r' = true →
  outranks r' r = false.
Proof.
  intros (i & Hi & Hc & Hw) [j Hj]%list_elem_of_lookup Hc'.
  destruct (Hw _ _ Hj Hc') as [Hbefore Hafter].
  destruct (Nat.lt_total j i) as [Hji|[->|Hji]]; [| |auto].
  - specialize (Hbefore Hji). clear - Hbefore. rank.
  - simplify_eq. apply outranks_irrefl.
Qed.

(** ** Properties *)

(** C16: the matched route is the first of the most specific candidates (longest
    path prefix, then a host constraint), whatever the order of the loop's
    updates; no route is matched only when no route is a candidate. *)
Theorem match_route_correct cfg host path :
  match match_route cfg host path with
  | Some r => is_winner host path (gc_routes cfg) r
  | None => no_candidate host path (gc_routes cfg)
  end.
Proof.
  destruct (match_route cfg host path) as [r|] eqn:E.
  - by apply match_route_winner.
  - by apply match_route_none.
Qed.

(** C39: matching does not depend on the order of the routes in the
    configuration, when no two candidates are equally specific. *)
Theorem match_route_order_independent cfg cfg' host path :
  gc_routes cfg ≡ₚ gc_routes cfg' →
  (∀ r r', r ∈ gc_routes cfg → r' ∈ gc_routes cfg →
     candidate host path r = true → candidate host path r' = true →
     outranks r r' = false → outranks r' r = false → r = r') →
  match_route cfg host path = match_route cfg' host path.
Proof.
  intros Hperm Hties.
  destruct (match_route cfg host path) as [r|] eqn:E;
    destruct (match_route cfg' host path) as [r'|] eqn:E'.
  - f_equal.
    pose proof (match_route_candidate _ _ _ _ E) as [Hr Hc].
    pose proof (match_route_candidate _ _ _ _ E') as [Hr' Hc'].
    apply match_route_winner in E, E'.
    apply Hties; [done|by rewrite Hperm|done|done| |].
    + eapply is_winner_max; [done|by rewrite <- Hperm|done].
    + eapply is_winner_max; [done|by rewrite Hperm|done].
  - apply match_route_candidate in E as [Hr Hc]. rewrite Hperm in Hr.
    apply match_route_none in E'. apply E' in Hr. congruence.
  - apply match_route_candidate in E' as [Hr Hc]. rewrite <- Hperm in Hr.
    apply match_route_none in E. apply E in Hr. congruence.
  - done.
Qed.

Definition demo_route (name prefix : string) : RouteConfig := {|
  rc_name := name;
  rc_matches := {| mc_host := None; mc_path_prefix := prefix |};
  rc_upstreams := [demo_upstream];
  rc_strategy := RoundRobin;
  rc_strip_path_prefix := true;
  rc_timeout_ms := None;
  rc_retries := 0;
  rc_auth := AuthNone;
  rc_rate_limit := None;
  rc_cache := None;
  rc_circuit_breaker := CircuitBreakerConfig_default;
  rc_health_check := None;
  rc_request_headers := HeaderTransforms_default;
  rc_response_headers := HeaderTransforms_default;
|}.

Definition demo_cfg (rs : list RouteConfig) : GatewayConfig :=
  {| gc_server := ServerConfig_default; gc_routes := rs |}.

Lemma match_route_order_independent_witness :
  match_route (demo_cfg [demo_route "root" "/"; demo_route "api" "/api"]) None "/api/x"
  = match_route (demo_cfg [demo_route "api" "/api"; demo_route "root" "/"]) None "/api/x"
  ∧ match_route (demo_cfg [demo_route "root" "/"; demo_route "api" "/api"]) None "/api/x"
    = Some (demo_route "api" "/api").
Proof.
  split; [|by vm_compute].
  apply match_route_order_independent; [by apply Permutation_swap|].
  intros r r' Hr Hr' _ _ H1 H2. simpl in Hr, Hr'.
  apply elem_of_cons in Hr as [->| ->%list_elem_of_singleton];
    apply elem_of_cons in Hr' as [->| ->%list_elem_of_singleton];
    vm_compute in H1, H2; congruence.
Defined.

(** A path matches a prefix exactly when the prefix is the root, or the path
    is the prefix without its trailing slashes, or it continues that prefix at a
    segment boundary. *)
Theorem path_matches_segments path prefix :
  path_matches path prefix = true ↔
  prefix = "/" ∨ path = trim_end_matches "/"%char prefix
  ∨ ∃ rest, path = (trim_end_matches "/"%char prefix +:+ "/" +:+ rest)%string.
Proof. apply path_matches_true. Qed.

(** For a request its route matched, the forwarded path is again an absolute
    path, and it is the request path with the route's prefix cut off (the bare
    prefix is forwarded as the root). *)
Theorem forward_path_absolute cfg host path route :
  match_route cfg host path = Some route →
  (∃ rest, path = ("/" +:+ rest)%string) →
  (∃ rest, forward_path path route = ("/" +:+ rest)%string)
  ∧ (if rc_strip_path_prefix route
        && negb (String.eqb (mc_path_prefix (rc_matches route)) "/")
     then
       let prefix := trim_end_matches "/"%char (mc_path_prefix (rc_matches route)) in
       path = (prefix +:+ forward_path path route)%string
       ∨ (path = prefix ∧ forward_path path route = "/")
     else forward_path path route = path).
Proof.
  intros [_ Hc]%match_route_candidate [rest0 Hp].
  unfold candidate in Hc. apply andb_true_iff in Hc as [_ Hm].
  apply path_matches_true in Hm. unfold forward_path.
  destruct (rc_strip_path_prefix route); simpl; [|split; [eauto|done]].
  destruct (String.eqb_spec (mc_path_prefix (rc_matches route)) "/") as [He|He]; simpl;
    [split; [eauto|done]|].
  set (t := trim_end_matches "/"%char (mc_path_prefix (rc_matches route))) in *.
  destruct Hm as [?|[Ht|[rest Ht]]]; [done| |].
  - rewrite (proj2 (strip_prefix_Some t path EmptyString)).
    2: { by rewrite append_nil_r. }
    simpl. split; [by exists EmptyString|]. by right.
  - rewrite (proj2 (strip_prefix_Some t path ("/" +:+ rest)) Ht). simpl.
    split; [by exists rest|]. by left.
Qed.

Lemma forward_path_absolute_witness :
  (∃ rest, forward_path "/api/orders" (demo_route "api" "/api") = ("/" +:+ rest)%string)
  ∧ ("/api/orders" = "/api" +:+ forward_path "/api/orders" (demo_route "api" "/api")
     ∨ ("/api/orders" = "/api"
        ∧ forward_path "/api/orders" (demo_route "api" "/api") = "/"))%string.
Proof.
  apply (forward_path_absolute
    (demo_cfg [demo_route "root" "/"; demo_route "api" "/api"]) None
    "/api/orders" (demo_route "api" "/api")); [by vm_compute|by exists "api/orders"].
Defined.

(** The host constraint ignores case and the port: for host names without a
    colon, a route's host admits the request host, with or without a port, exactly
    when the names are equal up to ASCII case. *)
Theorem host_matches_port_and_case want got port suffix route :
  mc_host (rc_matches route) = Some (want +:+ suffix)%string →
  strip_port want = want → strip_port got = got →
  suffix = EmptyString ∨ suffix = (":" +:+ port)%string →
  host_matches (Some got) route = String.eqb (to_ascii_lowercase got) (to_ascii_lowercase want)
  ∧ host_matches (Some (got +:+ ":" +:+ port)%string) route
    = String.eqb (to_ascii_lowercase got) (to_ascii_lowercase want).
Proof.
  intros Hwant Hw Hg Hs. unfold host_matches. rewrite Hwant. simpl.
  assert (strip_port (want +:+ suffix) = want) as ->.
  { destruct Hs as [-> | ->]; [by rewrite append_nil_r|]. by apply split_next_app. }
  rewrite Hg. split; [done|].
  assert (strip_port (got +:+ ":" +:+ port) = got) as ->; [|done].
  by apply split_next_app.
Qed.

Definition hosted_route : RouteConfig := {|
  rc_name := "hosted";
  rc_matches := {| mc_host := Some "Admin.Example.com"; mc_path_prefix := "/" |};
  rc_upstreams := [demo_upstream];
  rc_strategy := RoundRobin;
  rc_strip_path_prefix := false;
  rc_timeout_ms := None;
  rc_retries := 0;
  rc_auth := AuthNone;
  rc_rate_limit := None;
  rc_cache := None;
  rc_circuit_breaker := CircuitBreakerConfig_default;
  rc_health_check := None;
  rc_request_headers := HeaderTransforms_default;
  rc_response_headers := HeaderTransforms_default;
|}.

Lemma host_matches_port_and_case_witness :
  host_matches (Some "admin.example.com") hosted_route = true
  ∧ host_matches (Some "admin.example.com:8080") hosted_route = true.
Proof.
  apply (host_matches_port_and_case "Admin.Example.com" "admin.example.com" "8080"
    EmptyString hosted_route); [done|by vm_compute|by vm_compute|by left].
Defined.

(** ** A limit of the host comparison

    [strip_port] cuts at the first colon, so all bracketed IPv6 hosts compare
    equal when they agree before it: a route for one address takes the requests
    of another. *)
Example ipv6_hosts_collide route :
  mc_host (rc_matches route) = Some "[::1]" →
  host_matches (Some "[::2]:8080") route = true.
Proof. unfold host_matches. by intros ->. Qed.

End Router.
