(* ===== verification/Breaker.v ===== *)
(** The circuit breaker of one upstream: src/crates/gateway/src/breaker.rs.

    Every method is one critical section of the breaker's mutex.  [Documented] is the
    state machine of the module's comments, with a single trial;
    [breaker_as_documented] shows that the breaker is this machine as long as the calls
    it guards do not overlap.  For calls that do, it is not, and [Machine] is what the
    code does then ([breaker_refines_machine]); the last lemmas show the difference. *)
From S2P Require Import Prelude RustStd Prog.

Module Breaker.

(** ** The code *)

Inductive BreakerState : Type := Closed | Open | HalfOpen.

#[export] Instance BreakerState_eq_dec : EqDecision BreakerState.
Proof. solve_decision. Defined.

Definition code (s : BreakerState) : Z :=
  match s with Closed => 0 | HalfOpen => 1 | Open => 2 end.

Record Inner := mkInner {
  state : BreakerState;
  consecutive_failures : Z;
  open_until : option Instant;
}.

Record CircuitBreaker := mkCircuitBreaker {
  threshold : Z;
  open_for : Duration;
  inner : Mutex Inner;
}.

Definition new (failure_threshold open_secs : Z) : CircuitBreaker := {|
  threshold := Z.max failure_threshold 1;
  open_for := Duration_from_secs (Z.max open_secs 1);
  inner := Mutex_new (mkInner Closed 0 None);
|}.

Definition allow_section (now : Instant) (i : Inner) : Outcome bool * Inner :=
  match state i with
  | Closed | HalfOpen => (Ret true, i)
  | Open =>
      if match open_until i with Some u => (u <=? now)%Z | None => true end
      then (Ret true, mkInner HalfOpen (consecutive_failures i) (open_until i))
      else (Ret false, i)
  end.

Definition success_section (i : Inner) : Outcome unit * Inner :=
  (Ret (), mkInner Closed 0 None).

Definition failure_section `{Profile} (thr : Z) (d : Duration) (now : Instant)
    (i : Inner) : Outcome unit * Inner :=
  match u32_add (consecutive_failures i) 1 with
  | Ret n =>
      if bool_decide (state i = HalfOpen) || (thr <=? n)%Z
      then match instant_add now d with
           | Ret u => (Ret (), mkInner Open n (Some u))
           | Panic m => (Panic m, mkInner Open n (open_until i))
           | Cancelled => (Cancelled, mkInner Open n (open_until i))
           end
      else (Ret (), mkInner (state i) n (open_until i))
  | Panic m => (Panic m, i)
  | Cancelled => (Cancelled, i)
  end.

(** [self.inner.lock().expect("breaker mutex")] around a section. *)
Definition locked {A} (f : Inner → Outcome A * Inner) (cb : CircuitBreaker)
    : Outcome A * CircuitBreaker :=
  let '(r, m) := with_lock "breaker mutex" f (inner cb) in
  (r, mkCircuitBreaker (threshold cb) (open_for cb) m).

Definition allow_at (now : Instant) (cb : CircuitBreaker)
    : Outcome bool * CircuitBreaker := locked (allow_section now) cb.

Definition record_success (cb : CircuitBreaker) : Outcome unit * CircuitBreaker :=
  locked success_section cb.

Definition record_failure_at `{Profile} (now : Instant) (cb : CircuitBreaker)
    : Outcome unit * CircuitBreaker :=
  locked (failure_section (threshold cb) (open_for cb) now) cb.

Definition state_of (cb : CircuitBreaker) : Outcome BreakerState * CircuitBreaker :=
  locked (λ i, (Ret (state i), i)) cb.

(** The public methods read the clock first. *)
Section methods.
Context {E : Type → Type} `{Clock E} `{Profile}.

Definition allow : prog E CircuitBreaker bool :=
  now ← Instant_now; act (allow_at now).

Definition record_failure : prog E CircuitBreaker unit :=
  now ← Instant_now; act (record_failure_at now).
End methods.

(** ** The documented state machine

    Closed until [threshold] consecutive failures; then open until the cool-down has
    elapsed; then half-open, for a single trial whose result decides.  While it is open,
    or the trial is under way, calls are rejected; a result while it is open (no call is
    under way then) changes nothing. *)

Module Documented.
Inductive t : Type :=
| Closed (failures : Z)
| Open (until : Instant)
| HalfOpen.                 (* the trial is under way *)

Definition ask (now : Instant) (s : t) : bool * t :=
  match s with
  | Closed _ => (true, s)
  | Open u => if (u <=? now)%Z then (true, HalfOpen) else (false, s)
  | HalfOpen => (false, s)
  end.

Definition result (thr : Z) (d : Duration) (ok : bool) (now : Instant) (s : t) : t :=
  match s, ok with
  | Closed _, true | HalfOpen, true => Closed 0
  | Closed n, false => if (thr <=? n + 1)%Z then Open (now + d)%Z else Closed (n + 1)
  | HalfOpen, false => Open (now + d)%Z
  | Open _, _ => s
  end.
End Documented.

(** ** The state machine that the code is

    The fields are gone, and with them the counts and times that do not matter.  It is
    not the documented one: half-open, it admits every call, and a success closes it
    from any state. *)

Module Machine.
Inductive t : Type :=
| Closed (failures : Z)     (* calls pass; consecutive failures so far *)
| Open (until : Instant)    (* calls are rejected before [until] *)
| HalfOpen.                 (* the next result decides *)

Definition allow (now : Instant) (s : t) : bool * t :=
  match s with
  | Closed _ | HalfOpen => (true, s)
  | Open u => if (u <=? now)%Z then (true, HalfOpen) else (false, s)
  end.

Definition success (s : t) : t := Closed 0.

Definition failure (thr : Z) (d : Duration) (now : Instant) (s : t) : t :=
  match s with
  | Closed n => if (thr <=? n + 1)%Z then Open (now + d)%Z else Closed (n + 1)
  | Open _ | HalfOpen => Open (now + d)%Z
  end.
End Machine.

(** Calls on a breaker, and the answers [allow] gives. *)
Inductive call : Type := CAllow (now : Instant) | CSuccess | CFailure (now : Instant).

Definition do_call `{Profile} (c : call) (cb : CircuitBreaker)
    : Outcome (option bool) * CircuitBreaker :=
  match c with
  | CAllow now => let '(r, cb) := allow_at now cb in (Some <$> r, cb)
  | CSuccess => let '(r, cb) := record_success cb in ((λ _, None) <$> r, cb)
  | CFailure now => let '(r, cb) := record_failure_at now cb in ((λ _, None) <$> r, cb)
  end.

Fixpoint do_calls `{Profile} (cs : list call) (cb : CircuitBreaker)
    : list (Outcome (option bool)) * CircuitBreaker :=
  match cs with
  | [] => ([], cb)
  | c :: cs =>
      let '(r, cb) := do_call c cb in
      let '(rs, cb) := do_calls cs cb in (r :: rs, cb)
  end.

Definition machine_call (thr : Z) (d : Duration) (c : call) (s : Machine.t)
    : option bool * Machine.t :=
  match c with
  | CAllow now => let '(b, s) := Machine.allow now s in (Some b, s)
  | CSuccess => (None, Machine.success s)
  | CFailure now => (None, Machine.failure thr d now s)
  end.

Fixpoint machine_calls (thr : Z) (d : Duration) (cs : list call) (s : Machine.t)
    : list (option bool) * Machine.t :=
  match cs with
  | [] => ([], s)
  | c :: cs =>
      let '(r, s) := machine_call thr d c s in
      let '(rs, s) := machine_calls thr d cs s in (r :: rs, s)
  end.

(** A call of the guarded upstream: asked at [x_start]; if it was admitted, it ends, well
    or not, at [x_end]. *)
Record exchange := mkExchange { x_start : Instant; x_ok : bool; x_end : Instant }.

(** Exchanges that do not overlap, on the breaker and on the documented machine: which of
    them were admitted. *)
Fixpoint exchanges `{Profile} (xs : list exchange) (cb : CircuitBreaker)
    : list (Outcome bool) * CircuitBreaker :=
  match xs with
  | [] => ([], cb)
  | x :: xs =>
      let '(r, cb) := allow_at (x_start x) cb in
      let '(r, cb) :=
        match r with
        | Ret true =>
            let '(r', cb) := if x_ok x then record_success cb else record_failure_at (x_end x) cb in
            ((λ _, true) <$> r', cb)
        | _ => (r, cb)
        end in
      let '(rs, cb) := exchanges xs cb in (r :: rs, cb)
  end.

Fixpoint documented (thr : Z) (d : Duration) (xs : list exchange) (s : Documented.t) : list bool :=
  match xs with
  | [] => []
  | x :: xs =>
      let '(b, s) := Documented.ask (x_start x) s in
      let s := if b then Documented.result thr d (x_ok x) (x_end x) s else s in
      b :: documented thr d xs s
  end.

(** ** Invariants *)

Definition live (cb : CircuitBreaker) : Prop := mu_poisoned (inner cb) = false.
Definition cb_state (cb : CircuitBreaker) : BreakerState := state (mu_val (inner cb)).

Definition inner_ok (thr : Z) (i : Inner) : Prop :=
  match state i with
  | Closed => (0 ≤ consecutive_failures i < thr)%Z ∧ open_until i = None
  | Open | HalfOpen => u32_ok (consecutive_failures i) ∧ is_Some (open_until i)
  end.

(** The well-formedness every call preserves in every build profile. *)
Definition wf (cb : CircuitBreaker) : Prop :=
  (1 ≤ threshold cb ≤ u32_max)%Z ∧ (nanos ≤ open_for cb)%Z
  ∧ (live cb → inner_ok (threshold cb) (mu_val (inner cb))).

Lemma new_wf ft os : u32_ok ft → wf (new ft os).
Proof.
  unfold u32_ok, u32_max. intros Hft. unfold wf, inner_ok, u32_max, new, nanos. simpl.
  unfold Duration_from_secs, nanos. split_and!; [lia..|]. intros _. split; [lia|done].
Qed.

Lemma locked_static {A} (f : Inner → Outcome A * Inner) cb :
  threshold (locked f cb).2 = threshold cb ∧ open_for (locked f cb).2 = open_for cb.
Proof. unfold locked. by destruct (with_lock _ _ _). Qed.

(** A section preserves [wf] when it preserves [inner_ok] on normal return. *)
Lemma locked_wf {A} (f : Inner → Outcome A * Inner) cb :
  (∀ i, inner_ok (threshold cb) i →
     returns (f i).1 = true → inner_ok (threshold cb) (f i).2) →
  wf cb → wf (locked f cb).2.
Proof.
  intros Hf (Ht & Hd & Hi). destruct (locked_static f cb) as [Et Ed].
  unfold wf. rewrite Et, Ed. split_and!; [lia..|].
  unfold live, locked, with_lock in *.
  destruct (mu_poisoned (inner cb)) eqn:Hp; simpl; [congruence|].
  specialize (Hf _ (Hi eq_refl)). destruct (f (mu_val (inner cb))) as [r i]; simpl in *.
  rewrite negb_false_iff. auto.
Qed.

Lemma failure_section_ok `{Profile} thr d now i :
  (1 ≤ thr ≤ u32_max)%Z → inner_ok thr i →
  returns (failure_section thr d now i).1 = true →
  inner_ok thr (failure_section thr d now i).2.
Proof.
  intros Hthr Hi. unfold failure_section.
  assert (Hu : u32_ok (consecutive_failures i)).
  { unfold inner_ok, u32_ok, u32_max in *. destruct (state i); lia || tauto. }
  destruct (u32_add (consecutive_failures i) 1) as [n| |] eqn:Ea; [|done..].
  assert (Hn : u32_ok n).
  { eapply u32_add_ok; [done| |done]. unfold u32_ok, u32_max. lia. }
  destruct (bool_decide (state i = HalfOpen) || (thr <=? n)%Z) eqn:Ec.
  - destruct (instant_add now d) as [u| |]; [|done..]. intros _. by split; [|exists u].
  - bool_to_prop. intros _. unfold inner_ok in *; simpl. unfold u32_ok in *.
    destruct (state i); [|tauto|done].
    destruct Hi as [Hr Ho]. by split; [lia|].
Qed.

Lemma do_call_static `{Profile} c cb :
  threshold (do_call c cb).2 = threshold cb ∧ open_for (do_call c cb).2 = open_for cb.
Proof.
  destruct c as [now| |now]; simpl; unfold allow_at, record_success, record_failure_at.
  - pose proof (locked_static (allow_section now) cb). by destruct (locked _ _).
  - pose proof (locked_static success_section cb). by destruct (locked _ _).
  - pose proof (locked_static (failure_section (threshold cb) (open_for cb) now) cb).
    by destruct (locked _ _).
Qed.

Lemma allow_at_wf now cb : wf cb → wf (allow_at now cb).2.
Proof.
  apply locked_wf. intros i Hi _. unfold allow_section.
  destruct (state i) eqn:Es; simpl; [done| |done].
  case_match; simpl; [|done]. unfold inner_ok in *; simpl. by rewrite Es in Hi.
Qed.

Lemma record_success_wf cb : wf cb → wf (record_success cb).2.
Proof.
  intros Hwf. apply locked_wf; [|done]. intros i _ _. unfold inner_ok; simpl.
  destruct Hwf as (? & _). by split; [lia|].
Qed.

Lemma record_failure_at_wf `{Profile} now cb : wf cb → wf (record_failure_at now cb).2.
Proof.
  intros Hwf. apply locked_wf; [|done]. intros i.
  destruct Hwf as (? & _). by apply failure_section_ok.
Qed.

(** ** Refinement of the machines *)

Definition abs (i : Inner) : Machine.t :=
  match state i with
  | Closed => Machine.Closed (consecutive_failures i)
  | Open => Machine.Open (default 0%Z (open_until i))
  | HalfOpen => Machine.HalfOpen
  end.

(** The invariant while at most [k] failures were recorded since the start:
    the counter cannot wrap, and it stays at the threshold while not closed. *)
Definition counted (k : nat) (cb : CircuitBreaker) : Prop :=
  live cb ∧ (1 ≤ threshold cb ≤ u32_max)%Z
  ∧ (0 ≤ consecutive_failures (mu_val (inner cb)) ≤ Z.of_nat k)%Z
  ∧ match cb_state cb with
    | Closed => (consecutive_failures (mu_val (inner cb)) < threshold cb)%Z
    | Open | HalfOpen =>
        (threshold cb ≤ consecutive_failures (mu_val (inner cb)))%Z
        ∧ is_Some (open_until (mu_val (inner cb)))
    end.

(** How many of the calls record a failure. *)
Definition fails (c : call) : nat := match c with CFailure _ => 1 | _ => 0 end.
Definition failures (cs : list call) : nat := sum_list (fails <$> cs).

Lemma failures_cons c cs : failures (c :: cs) = fails c + failures cs.
Proof. done. Qed.

(** Recording a failure at this time does not overflow an [Instant]. *)
Definition in_time (d : Duration) (c : call) : Prop :=
  match c with CFailure now => (now + d < instant_limit)%Z | _ => True end.

Lemma new_counted ft os : u32_ok ft → counted 0 (new ft os).
Proof.
  unfold u32_ok, u32_max. intros Hft. unfold counted, cb_state, u32_max, new; simpl.
  split_and!; [done|lia..].
Qed.

Lemma do_call_refines `{Profile} k c cb :
  counted k cb → (Z.of_nat (k + fails c) ≤ u32_max)%Z → in_time (open_for cb) c →
  (do_call c cb).1 =
    Ret (machine_call (threshold cb) (open_for cb) c (abs (mu_val (inner cb)))).1
  ∧ abs (mu_val (inner (do_call c cb).2)) =
    (machine_call (threshold cb) (open_for cb) c (abs (mu_val (inner cb)))).2
  ∧ counted (k + fails c) (do_call c cb).2.
Proof.
  destruct cb as [thr d [i p]]. unfold counted, live, cb_state; simpl.
  intros (-> & Hthr & Hf & Hst) Hk Hin.
  destruct c as [now| |now]; simpl in *; rewrite ?Nat.add_0_r in *.
  - unfold allow_at, locked, with_lock, allow_section, abs, Machine.allow; simpl.
    destruct (state i) eqn:Es; simpl; rewrite ?Es; split_and!; try done; try lia.
    all: destruct Hst as [Hge [u Hu]]; rewrite Hu; simpl.
    all: destruct (u <=? now)%Z; simpl; rewrite ?Es, ?Hu; eauto with lia.
  - unfold record_success, locked, with_lock; simpl. split_and!; [done..|lia|lia|lia|lia|lia].
  - unfold record_failure_at, locked, with_lock, failure_section, abs; simpl.
    rewrite u32_add_exact by (unfold u32_max in *; lia).
    rewrite (instant_add_exact now d) by done.
    destruct (state i) eqn:Es; simpl.
    + destruct (Z.leb_spec thr (consecutive_failures i + 1)); simpl;
        rewrite ?Es; split_and!; eauto with lia.
    + destruct Hst as [Hge Hu].
      rewrite (proj2 (Z.leb_le thr _)) by lia. simpl. split_and!; eauto with lia.
    + destruct Hst as [Hge Hu]. simpl. split_and!; eauto with lia.
Qed.

Lemma do_calls_refines `{Profile} cs k cb :
  counted k cb → (Z.of_nat (k + failures cs) ≤ u32_max)%Z →
  Forall (in_time (open_for cb)) cs →
  (do_calls cs cb).1 =
    Ret <$> (machine_calls (threshold cb) (open_for cb) cs (abs (mu_val (inner cb)))).1
  ∧ abs (mu_val (inner (do_calls cs cb).2)) =
    (machine_calls (threshold cb) (open_for cb) cs (abs (mu_val (inner cb)))).2
  ∧ counted (k + failures cs) (do_calls cs cb).2
  ∧ threshold (do_calls cs cb).2 = threshold cb
  ∧ open_for (do_calls cs cb).2 = open_for cb.
Proof.
  revert k cb. induction cs as [|c cs IH]; intros k cb Hc Hk Hin.
  { unfold failures. simpl. by rewrite Nat.add_0_r. }
  rewrite failures_cons, Nat.add_assoc in *. simpl.
  apply Forall_cons in Hin as [Hin Hins].
  destruct (do_call_refines k c cb Hc) as (Hr & Ha & Hc'); [lia|done|].
  destruct (do_call_static c cb) as [Et Ed].
  destruct (do_call c cb) as [r cb']; simpl in *.
  destruct (machine_call _ _ c _) as [sr ss]; simpl in *. subst.
  destruct (IH (k + fails c) cb' Hc') as (Hrs & Hs & Hcs & Ht & Hd); [lia|by rewrite Ed|].
  rewrite Et, Ed in *.
  destruct (do_calls cs cb') as [rs cb'']; simpl in *.
  destruct (machine_calls _ _ cs _) as [srs sss]; simpl in *. subst.
  done.
Qed.

Lemma failures_le cs : failures cs ≤ length cs.
Proof. induction cs as [|[] cs IH]; [done|..]; rewrite failures_cons; simpl; lia. Qed.
(** Consecutive failures on the machine. *)
Lemma machine_failures thr d ts n :
  (n < thr)%Z →
  (machine_calls thr d (CFailure <$> ts) (Machine.Closed n)).2 =
  match last ts with
  | Some t => if (thr <=? n + Z.of_nat (length ts))%Z
              then Machine.Open (t + d)%Z else Machine.Closed (n + Z.of_nat (length ts))
  | None => Machine.Closed n
  end.
Proof.
  intros Hn. induction ts as [|t ts IH] using rev_ind; [done|].
  assert (Happ : ∀ cs c s, (machine_calls thr d (cs ++ [c]) s).2 =
            (machine_call thr d c (machine_calls thr d cs s).2).2).
  { clear. intros cs c. induction cs as [|c' cs IH]; intros s; simpl.
    - by destruct (machine_call thr d c s).
    - destruct (machine_call thr d c' s) as [r s']. specialize (IH s').
      destruct (machine_calls thr d (cs ++ [c]) s') as [rs s''].
      by destruct (machine_calls thr d cs s'). }
  rewrite fmap_app. change (CFailure <$> [t]) with [CFailure t].
  rewrite Happ, IH, last_snoc, length_app. simpl. clear IH Happ.
  replace (n + Z.of_nat (length ts + 1))%Z with (n + Z.of_nat (length ts) + 1)%Z by lia.
  destruct (last ts) eqn:El; simpl; rewrite ?El.
  - destruct (Z.leb_spec thr (n + Z.of_nat (length ts))); simpl.
    + destruct (Z.leb_spec thr (n + Z.of_nat (length ts) + 1)); [done|lia].
    + by case_match.
  - apply last_None in El as ->. simpl. rewrite Z.add_0_r. by case_match.
Qed.

Lemma do_calls_app `{Profile} cs cs' cb :
  (do_calls (cs ++ cs') cb).2 = (do_calls cs' (do_calls cs cb).2).2.
Proof.
  revert cb. induction cs as [|c cs IH]; intros cb; simpl; [done|].
  destruct (do_call c cb) as [r cb']. specialize (IH cb').
  destruct (do_calls (cs ++ cs') cb') as [rs cb''].
  by destruct (do_calls cs cb').
Qed.

(** A poisoned breaker answers every call with a panic. *)
Lemma poisoned_panics `{Profile} cs cb :
  mu_poisoned (inner cb) = true →
  Forall (λ r, r = Panic "breaker mutex") (do_calls cs cb).1.
Proof.
  revert cb. induction cs as [|c cs IH]; intros cb Hp; simpl; [constructor|].
  assert ((do_call c cb).1 = Panic "breaker mutex"
          ∧ mu_poisoned (inner (do_call c cb).2) = true) as [Hr Hp'].
  { destruct c; simpl; unfold allow_at, record_success, record_failure_at, locked;
      by rewrite with_lock_poisoned. }
  destruct (do_call c cb) as [r cb']. specialize (IH cb' Hp').
  destruct (do_calls cs cb') as [rs cb'']. simpl in *. by constructor.
Qed.

(** *** Exchanges that do not overlap *)

(** What the two machines agree on, outside of a trial. *)
Definition agree (m : Machine.t) (s : Documented.t) : Prop :=
  match m, s with
  | Machine.Closed n, Documented.Closed n' => n = n'
  | Machine.Open u, Documented.Open u' => u = u'
  | _, _ => False
  end.

Definition x_failures (xs : list exchange) : nat := length (filter (λ x, x_ok x = false) xs).
Definition x_in_time (d : Duration) (x : exchange) : Prop :=
  x_ok x = false → (x_end x + d < instant_limit)%Z.

Lemma exchange_agrees thr d x m s :
  agree m s →
  let '(b, m1) := Machine.allow (x_start x) m in
  let '(b', s1) := Documented.ask (x_start x) s in
  b = b' ∧ (if b then agree (if x_ok x then Machine.success m1 else Machine.failure thr d (x_end x) m1)
                            (Documented.result thr d (x_ok x) (x_end x) s1)
            else agree m1 s1).
Proof.
  destruct m as [n|u|], s as [n'|u'|]; simpl; try done; intros <-.
  - split; [done|]. destruct (x_ok x); simpl; [done|]. by case_match.
  - destruct (u <=? x_start x)%Z; simpl; [|done]. split; [done|]. by destruct (x_ok x).
Qed.

(** The result of an admitted call. *)
Definition x_call (x : exchange) : call := if x_ok x then CSuccess else CFailure (x_end x).

Lemma exchanges_cons `{Profile} x xs cb :
  (exchanges (x :: xs) cb).1 =
  let '(r, cb1) := allow_at (x_start x) cb in
  match r with
  | Ret true => ((λ _, true) <$> (do_call (x_call x) cb1).1) :: (exchanges xs (do_call (x_call x) cb1).2).1
  | _ => r :: (exchanges xs cb1).1
  end.
Proof.
  simpl. destruct (allow_at (x_start x) cb) as [[[]|m|] cb1]; simpl;
    try (by destruct (exchanges xs cb1)).
  unfold x_call. destruct (x_ok x); simpl.
  - destruct (record_success cb1) as [r cb2]; simpl. destruct (exchanges xs cb2). by destruct r.
  - destruct (record_failure_at (x_end x) cb1) as [r cb2]; simpl. destruct (exchanges xs cb2). by destruct r.
Qed.

Lemma exchanges_documented `{Profile} xs k cb s :
  counted k cb → agree (abs (mu_val (inner cb))) s →
  (Z.of_nat (k + x_failures xs) ≤ u32_max)%Z → Forall (x_in_time (open_for cb)) xs →
  (exchanges xs cb).1 = Ret <$> documented (threshold cb) (open_for cb) xs s.
Proof.
  revert k cb s. induction xs as [|x xs IH]; intros k cb s Hc Hag Hk Hin; [done|].
  apply Forall_cons in Hin as [Hx Hin]. rewrite exchanges_cons. cbn [documented].
  destruct (do_call_refines k (CAllow (x_start x)) cb Hc) as (Hr & Ha & Hc1); [simpl; lia|done|].
  destruct (do_call_static (CAllow (x_start x)) cb) as [Et Ed].
  pose proof (exchange_agrees (threshold cb) (open_for cb) x _ _ Hag) as Hx'. simpl in *.
  rewrite Nat.add_0_r in Hc1.
  destruct (Machine.allow (x_start x) (abs (mu_val (inner cb)))) as [b m1]; simpl in *.
  destruct (Documented.ask (x_start x) s) as [b' s1]. destruct Hx' as [<- Hag'].
  destruct (allow_at (x_start x) cb) as [r cb1]; simpl in *.
  destruct r as [b1| |]; simplify_eq/=.
  rewrite <- Et, <- Ed in *. destruct b.
  - assert (Hf : fails (x_call x) + x_failures xs = x_failures (x :: xs)).
    { unfold x_failures, x_call. rewrite filter_cons. by destruct (x_ok x). }
    destruct (do_call_refines k (x_call x) cb1 Hc1) as (Hr2 & Ha2 & Hc2); [lia| |].
    { unfold x_call. destruct (x_ok x) eqn:Hok; [done|]. by apply Hx. }
    destruct (do_call_static (x_call x) cb1) as [Et2 Ed2].
    rewrite Hr2. apply (f_equal2 cons); [done|]. rewrite <- Et2, <- Ed2 in *.
    apply (IH (k + fails (x_call x))); [done| |lia|done].
    rewrite Ha2, Et2, Ed2 in *. unfold x_call. by destruct (x_ok x).
  - apply (f_equal2 cons); [done|]. apply (IH k); [done|done| |done].
    unfold x_failures in *. rewrite filter_cons in Hk. case_decide; simpl in *; lia.
Qed.

(** ** Properties *)



(** C29: as long as the calls that a breaker guards do not overlap (each ends, well or not,
    before the next one asks), it is the documented machine: closed until
    [failure_threshold] consecutive failures, then open, and rejecting, until [open_secs]
    have elapsed, then a single trial, whose success closes it and whose failure
    opens it again; with fewer than 2^32 failures, none of which overflows an [Instant]. *)
Theorem breaker_as_documented `{Profile} ft os xs :
  u32_ok ft →
  (Z.of_nat (x_failures xs) ≤ u32_max)%Z →
  Forall (x_in_time (Duration_from_secs (Z.max os 1))) xs →
  (exchanges xs (new ft os)).1 =
  Ret <$> documented (Z.max ft 1) (Duration_from_secs (Z.max os 1)) xs (Documented.Closed 0).
Proof.
  intros Hft Hlen Hin. by apply (exchanges_documented xs 0 (new ft os)); [apply new_counted|..].
Qed.

(** Two failures; rejected; a trial that fails; rejected; a trial that succeeds; closed. *)
Definition demo_exchanges : list exchange :=
  [mkExchange 1 false 2; mkExchange 3 false 4; mkExchange 5 true 6; mkExchange 1000000004 false 1000000005;
   mkExchange 1000000006 true 1000000007; mkExchange 2000000005 true 2000000006;
   mkExchange 2000000007 false 2000000008; mkExchange 2000000009 true 2000000010].

Lemma breaker_as_documented_witness :
  (exchanges (H := false) demo_exchanges (new 2 1)).1
  = Ret <$> [true; true; false; true; false; true; true; true].
Proof.
  refine (eq_trans (breaker_as_documented (H := false) 2 1 demo_exchanges _ _ _) _).
  - by vm_compute.
  - by vm_compute.
  - repeat constructor; by vm_compute.
  - by vm_compute.
Defined.

(** After a success, [n] failures in a row leave the breaker closed while
    [n] is below the threshold; from the threshold on it is open, and it rejects
    calls until [open_secs] after the last failure, and lets one through (as a
    half-open trial) from then on. *)
Theorem breaker_trips_at_threshold `{Profile} ft os cs ts t :
  u32_ok ft →
  (Z.of_nat (length cs + 1 + length ts) ≤ u32_max)%Z →
  Forall (in_time (Duration_from_secs (Z.max os 1))) (cs ++ CSuccess :: (CFailure <$> ts)) →
  last ts = Some t →
  let cb := (do_calls (cs ++ CSuccess :: (CFailure <$> ts)) (new ft os)).2 in
  let until := (t + Duration_from_secs (Z.max os 1))%Z in
  if (Z.max ft 1 <=? Z.of_nat (length ts))%Z
  then cb_state cb = Open
       ∧ (∀ now, (now < until)%Z → allow_at now cb = (Ret false, cb))
       ∧ (∀ now, (until ≤ now)%Z →
            (allow_at now cb).1 = Ret true ∧ cb_state (allow_at now cb).2 = HalfOpen)
  else cb_state cb = Closed ∧ ∀ now, allow_at now cb = (Ret true, cb).
Proof.
  intros Hft Hlen Hin Hlast cb until. subst cb. rewrite cons_middle, app_assoc in *.
  apply Forall_app in Hin as [Hin1 Hin2]. rewrite do_calls_app.
  destruct (do_calls_refines (cs ++ [CSuccess]) 0 (new ft os) (new_counted ft os Hft))
    as (_ & Ha & Hc & Ht & Hd).
  { pose proof (failures_le (cs ++ [CSuccess])). rewrite length_app in *. simpl in *. lia. } { done. }
  assert (Habs : abs (mu_val (inner (do_calls (cs ++ [CSuccess]) (new ft os)).2)) = Machine.Closed 0).
  { destruct Hc as [Hl _]. rewrite do_calls_app in *. simpl in *.
    unfold record_success, locked, with_lock in *.
    destruct (mu_poisoned _) eqn:Hp; [|done].
    unfold live in Hl. simpl in Hl. congruence. }
  set (cb0 := (do_calls (cs ++ [CSuccess]) (new ft os)).2) in *. clear Ha.
  destruct (do_calls_refines (CFailure <$> ts) _ cb0 Hc) as (_ & Ha & Hc' & Ht' & Hd').
  { pose proof (failures_le (cs ++ [CSuccess])). pose proof (failures_le (CFailure <$> ts)).
    rewrite length_app, length_fmap in *. simpl in *. lia. } { by rewrite Hd. }
  rewrite Habs, Ht, Hd, machine_failures, Hlast in Ha by (simpl; lia).
  set (cb := (do_calls (CFailure <$> ts) cb0).2) in *. clearbody cb.
  change (threshold (new ft os)) with (Z.max ft 1) in *.
  change (open_for (new ft os)) with (Duration_from_secs (Z.max os 1)) in Ha.
  rewrite Z.add_0_l in Ha. fold until in Ha.
  destruct Hc' as (Hl & _ & _ & Hst). destruct cb as [thr d [i p]].
  unfold cb_state, live, abs, allow_at, locked, with_lock, allow_section in *; simpl in *.
  subst p. destruct (Z.max ft 1 <=? _)%Z.
  - destruct (state i) eqn:Es; simplify_eq. destruct Hst as [_ [u Hu]].
    rewrite Hu in *; simpl in *. simplify_eq. split_and!; [done| |].
    + intros now Hnow. by rewrite (proj2 (Z.leb_gt _ _) Hnow).
    + intros now Hnow. by rewrite (proj2 (Z.leb_le _ _) Hnow).
  - destruct (state i) eqn:Es; by simplify_eq.
Qed.

Lemma breaker_trips_at_threshold_witness :
  let cb := (do_calls (H := false) ([CFailure 1] ++ CSuccess :: (CFailure <$> [10; 20])%Z) (new 2 1)).2 in
  cb_state cb = Open ∧ (allow_at 1000000019 cb).1 = Ret false
  ∧ (allow_at 1000000020 cb).1 = Ret true.
Proof.
  intros cb.
  destruct (breaker_trips_at_threshold (H := false) 2 1 [CFailure 1] [10; 20]%Z 20)
    as (Hs & Hf & Ht).
  - by vm_compute.
  - by vm_compute.
  - repeat constructor; by vm_compute.
  - done.
  - split_and!; [done| |].
    + unfold cb. rewrite Hf; [done|by vm_compute].
    + apply Ht. by vm_compute.
Defined.

(** A cooldown that does not fit in an [Instant] breaks the breaker for
    good: the failure that should open it panics inside the critical section, and
    every later call, from any request, panics on the poisoned mutex. *)
Theorem breaker_cooldown_overflow_poisons `{Profile} cb now cs :
  live cb → wf cb →
  (consecutive_failures (mu_val (inner cb)) < u32_max)%Z →
  cb_state cb = HalfOpen
    ∨ (threshold cb ≤ consecutive_failures (mu_val (inner cb)) + 1)%Z →
  (instant_limit ≤ now + open_for cb)%Z →
  (record_failure_at now cb).1 = Panic "overflow when adding duration to instant"
  ∧ Forall (λ r, r = Panic "breaker mutex")
      (do_calls cs (record_failure_at now cb).2).1.
Proof.
  intros Hl (Hthr & _ & Hi) Hf Hopen Hover. specialize (Hi Hl).
  destruct cb as [thr d [i p]].
  assert (record_failure_at now (mkCircuitBreaker thr d (mkMutex i p))
    = (Panic "overflow when adding duration to instant",
       mkCircuitBreaker thr d
         (mkMutex (mkInner Open (consecutive_failures i + 1) (open_until i)) true))) as ->.
  { unfold live, cb_state, record_failure_at, locked, with_lock, failure_section in *.
    simpl in *. subst p. rewrite u32_add_exact by lia.
    assert (bool_decide (state i = HalfOpen)
            || (thr <=? consecutive_failures i + 1)%Z = true) as ->.
    { apply orb_true_iff. rewrite bool_decide_eq_true, Z.leb_le. done. }
    unfold instant_add. by rewrite (proj2 (Z.ltb_ge _ _) Hover). }
  split; [done|]. by apply poisoned_panics.
Qed.

Lemma breaker_cooldown_overflow_poisons_witness :
  (record_failure_at (H := false) 0 (new 1 (2 ^ 63))).1
    = Panic "overflow when adding duration to instant"
  ∧ Forall (λ r, r = Panic "breaker mutex")
      (do_calls (H := false) [CAllow 5] (record_failure_at (H := false) 0 (new 1 (2 ^ 63))).2).1.
Proof.
  apply (breaker_cooldown_overflow_poisons (H := false)).
  - done.
  - by apply new_wf.
  - by vm_compute.
  - right. by vm_compute.
  - by vm_compute.
Defined.

(** ** What the documentation promises and the code does not do *)

(** A half-open breaker lets every call through until the first result, not a
    single trial. *)
Lemma half_open_admits_all `{Profile} ts cb :
  live cb → cb_state cb = HalfOpen →
  do_calls (CAllow <$> ts) cb = ((λ _, Ret (Some true)) <$> ts, cb).
Proof.
  intros Hl Hs.
  assert (Ha : ∀ t, allow_at t cb = (Ret true, cb)).
  { intros t. destruct cb as [thr d [i p]]. unfold live, cb_state in *; simpl in *.
    unfold allow_at, locked, with_lock, allow_section; simpl. by rewrite Hl, Hs. }
  induction ts as [|t ts IH]; [done|]. rewrite !fmap_cons.
  cbn [do_calls do_call]. by rewrite Ha, IH.
Qed.

(** A success that comes in while the breaker is open closes it at once, before
    the cooldown and without a half-open trial. *)
Lemma late_success_closes_open_breaker `{Profile} cb now :
  live cb → cb_state cb = Open →
  cb_state (record_success cb).2 = Closed
  ∧ (allow_at now (record_success cb).2).1 = Ret true.
Proof.
  destruct cb as [thr d [i p]]. unfold live, cb_state; simpl. intros -> _. done.
Qed.

End Breaker.
