(* ===== verification/RateLimit.v ===== *)
(** Rate limiting: src/crates/gateway/src/ratelimit.rs.

    [RateLimiter] is the trait as a class, with the promise its clients rely on
    ([LawfulLimiter]).  [InMemory] is the fixed-window limiter, [Redis] the
    INCR/EXPIRE/TTL limiter over a connection that is a parameter. *)
From S2P Require Import Prelude RustStd Prog.

Module RateLimit.

Record RateDecision := mkDecision {
  allowed : bool;
  limit : Z;
  remaining : Z;
  reset_secs : Z;
}.

(** The trait: [E] are the external calls an implementation makes, [L] its
    shared state. *)
Class RateLimiter (E : Type → Type) (L : Type) :=
  check : string → Z → Duration → prog E L RateDecision.

(** What a decision promises to the headers of the response. *)
Definition decision_ok (lim : Z) (d : RateDecision) : Prop :=
  limit d = lim ∧ (0 ≤ remaining d ≤ lim)%Z ∧ (allowed d = false → remaining d = 0%Z).

(** The promise holds whatever the other requests do, as long as they keep the
    invariant of the limiter's state, and the check keeps it too. *)
Class LawfulLimiter E L `{RateLimiter E L} := {
  limiter_inv : L → Prop;
  check_ok : ∀ key lim window (R : L → L → Prop) Ans s t,
    u32_ok lim →
    (∀ s s', R s s' → limiter_inv s → limiter_inv s') →
    limiter_inv s →
    wp R Ans (check key lim window)
      (λ o s _, limiter_inv s ∧ ∀ d, o = Ret d → decision_ok lim d) s t;
}.

(** The decision both implementations build from the count [used]. *)
Definition decide_used (lim used reset : Z) : RateDecision := {|
  allowed := (used <=? lim)%Z;
  limit := lim;
  remaining := u32_saturating_sub lim (Z.min used lim);
  reset_secs := reset;
|}.

Lemma decide_used_ok lim used reset :
  u32_ok lim → u32_ok used → decision_ok lim (decide_used lim used reset).
Proof.
  unfold decision_ok, decide_used, u32_ok, u32_saturating_sub; simpl. intros Hl Hu.
  split_and!; [done|lia|lia|]. intros ?%Z.leb_gt. lia.
Qed.
#[export] Hint Resolve decide_used_ok : gw.

(** ** The in-memory limiter *)
Module InMemory.

Abbreviation windows := (gmap string (Instant * Z)).

Record Limiter := mkLimiter { lim_windows : Mutex windows }.

Definition new : Limiter := {| lim_windows := Mutex_new ∅ |}.

(** The critical section of [check]: insert, reset, count, decide. *)
Definition check_section `{Profile} (key : string) (lim : Z) (window : Duration)
    (now : Instant) (ws : windows) : Outcome RateDecision * windows :=
  let entry := default (now, 0%Z) (ws !! key) in
  let entry := if (window <=? duration_since now entry.1)%Z then (now, 0%Z) else entry in
  match u32_add entry.2 1 with
  | Ret used =>
      let reset := Duration_as_secs
        (default 0%Z (Duration_checked_sub window (duration_since now entry.1))) in
      (Ret (decide_used lim used reset), <[key := (entry.1, used)]> ws)
  | Panic m => (Panic m, <[key := entry]> ws)
  | Cancelled => (Cancelled, <[key := entry]> ws)
  end.

Definition check_at `{Profile} key lim window now (l : Limiter)
    : Outcome RateDecision * Limiter :=
  let '(r, m) := with_lock "ratelimit mutex" (check_section key lim window now)
                   (lim_windows l) in
  (r, {| lim_windows := m |}).

#[global] Instance limiter {E} `{Clock E} `{Profile} : RateLimiter E Limiter :=
  λ key lim window, now ← Instant_now; act (check_at key lim window now).

End InMemory.

(** ** The Redis limiter *)
Module Redis.

(** The commands the limiter sends; the server's answers are the environment's. *)
Class RedisConn (E : Type → Type) := {
  ev_incr : string → E (Result string Z);
  ev_expire : string → Z → E (Result string unit);
  ev_ttl : string → E (Result string Z);
}.

(** The connection holds no state of its own. *)
Inductive Limiter : Type := Connected.

(** [RedisLimiter::connect]: opening the client and its connection manager are
    parameters; either error is the result. *)
Definition connect {Client Conn} (open : string → Result string Client)
    (connection_manager : Client → Result string Conn) (url : string)
    : Result string Conn :=
  client ← open url; connection_manager client.

Definition redis_key (key : string) : string := "gw:rl:" +:+ key.

Definition window_secs (window : Duration) : Z :=
  as_i64 (Z.max (Duration_as_secs window) 1).

#[global] Instance limiter {E} `{RedisConn E} : RateLimiter E Limiter :=
  λ key lim window,
    let secs := window_secs window in
    count ← await (ev_incr (redis_key key));
    match count with
    | Err _ => mret (mkDecision true lim lim (as_u64 secs))
    | Ok count =>
        _ ← (if (count =? 1)%Z
             then _ ← await (ev_expire (redis_key key) secs); mret ()
             else mret ());
        ttl ← await (ev_ttl (redis_key key));
        let ttl := match ttl with Ok ttl => ttl | Err _ => secs end in
        mret (decide_used lim (as_u32 (Z.max count 0)) (as_u64 (Z.max ttl 0)))
    end.

End Redis.

(** ** Both limiters keep the promise of the trait *)

Lemma as_u32_ok n : u32_ok (as_u32 n).
Proof.
  unfold u32_ok, as_u32, u32_max. pose proof (Z.mod_pos_bound n (2 ^ 32)). lia.
Qed.
#[export] Hint Resolve as_u32_ok : gw.

(** The entries of the windows count in [u32]. *)
Definition windows_ok (ws : InMemory.windows) : Prop :=
  map_Forall (λ _ e, u32_ok e.2) ws.

Lemma check_section_ok `{Profile} key lim window now ws :
  u32_ok lim → windows_ok ws →
  windows_ok (InMemory.check_section key lim window now ws).2
  ∧ ∀ d, (InMemory.check_section key lim window now ws).1 = Ret d → decision_ok lim d.
Proof.
  intros Hlim Hws. unfold InMemory.check_section.
  set (e := if (window <=? _)%Z then _ else _).
  assert (He : u32_ok e.2).
  { subst e. case_match; [done|]. destruct (ws !! key) eqn:Ek; [by apply (Hws _ _ Ek)|done]. }
  destruct (u32_add e.2 1) as [used| |] eqn:Ea; simpl; (split; [apply map_Forall_insert_2; auto|]);
    try done.
  - eapply u32_add_ok; [done| |done]. done.
  - intros d [= <-]. apply decide_used_ok; [done|]. eapply u32_add_ok; [done| |done]. done.
Qed.

#[global] Instance in_memory_lawful {E} `{Clock E} `{Profile} :
  LawfulLimiter E InMemory.Limiter.
Proof.
  refine {| limiter_inv := λ l, windows_ok (mu_val (InMemory.lim_windows l)) |}.
  intros key lim window R Ans s t Hlim Hrely Hs. unfold check, InMemory.limiter.
  apply wp_bind, wp_ext. intros now _. simpl. intros s' Hs'.
  specialize (Hrely _ _ Hs' Hs). unfold InMemory.check_at, with_lock.
  destruct (mu_poisoned (InMemory.lim_windows s')); simpl; [done|].
  destruct (check_section_ok key lim window now _ Hlim Hrely) as [Hw Hd].
  by destruct (InMemory.check_section _ _ _ _ _) as [r ws].
Defined.

#[global] Instance redis_lawful {E} `{Redis.RedisConn E} : LawfulLimiter E Redis.Limiter.
Proof.
  refine {| limiter_inv := λ _, True |}.
  intros key lim window R Ans s t Hlim _ _. unfold check, Redis.limiter.
  apply wp_bind, wp_await; [|done].
  intros [count|e] _; simpl.
  2: { split; [done|]. intros d [= <-]. unfold decision_ok, u32_ok in *; simpl.
       split_and!; [done|lia|lia|done]. }
  assert (Hd : ∀ reset, decision_ok lim (decide_used lim (as_u32 (Z.max count 0)) reset)).
  { auto with gw. }
  destruct (count =? 1)%Z; simpl; naive_solver.
Defined.

(** ** Sequences of checks on the in-memory limiter *)

Record request := mkRequest {
  q_key : string; q_limit : Z; q_window : Duration; q_now : Instant }.

Fixpoint checks `{Profile} (qs : list request) (l : InMemory.Limiter)
    : list (Outcome RateDecision) * InMemory.Limiter :=
  match qs with
  | [] => ([], l)
  | q :: qs =>
      let '(r, l) := InMemory.check_at (q_key q) (q_limit q) (q_window q) (q_now q) l in
      let '(rs, l) := checks qs l in (r :: rs, l)
  end.

(** The window of one key, with the count not yet a [u32]. *)
Definition window_step (window now : Z) (e : option (Z * Z)) : Z * Z :=
  let e := default (now, 0%Z) e in
  let e := if (window <=? duration_since now e.1)%Z then (now, 0%Z) else e in
  (e.1, (e.2 + 1)%Z).

Definition lim_live (l : InMemory.Limiter) : Prop :=
  mu_poisoned (InMemory.lim_windows l) = false.
Definition entry_of (l : InMemory.Limiter) (k : string) : option (Z * Z) :=
  mu_val (InMemory.lim_windows l) !! k.

(** A check that does not count past [u32]. *)
Lemma check_at_key `{Profile} key lim window now l :
  lim_live l →
  let e := window_step window now (entry_of l key) in
  (1 ≤ e.2 ≤ u32_max)%Z →
  let '(r, l') := InMemory.check_at key lim window now l in
  r = Ret (decide_used lim e.2 (Duration_as_secs
        (default 0%Z (Duration_checked_sub window (duration_since now e.1)))))
  ∧ lim_live l'
  ∧ mu_val (InMemory.lim_windows l') = <[key := e]> (mu_val (InMemory.lim_windows l)).
Proof.
  intros Hl e. destruct l as [[ws p]]. subst e.
  unfold lim_live, entry_of, InMemory.check_at, with_lock in *; simpl in *. subst p.
  unfold InMemory.check_section, window_step.
  set (e := if (window <=? _)%Z then _ else _). simpl. intros He.
  rewrite u32_add_exact by lia. done.
Qed.

Lemma window_step_count window now e (n : Z) :
  (∀ e0, e = Some e0 → (0 ≤ e0.2 ≤ n)%Z) → (0 ≤ n)%Z →
  (1 ≤ (window_step window now e).2 ≤ n + 1)%Z.
Proof.
  intros He Hn. unfold window_step. destruct e as [e0|]; simpl.
  - specialize (He e0 eq_refl). case_match; simpl; lia.
  - case_match; simpl; lia.
Qed.

(** The other keys do not matter, nor does a poisoned limiter. *)
Lemma check_at_other `{Profile} key lim window now l k :
  k ≠ key → entry_of (InMemory.check_at key lim window now l).2 k = entry_of l k.
Proof.
  intros Hk. unfold entry_of, InMemory.check_at, with_lock.
  destruct (mu_poisoned _); [done|]. unfold InMemory.check_section. set (e := if (window <=? _)%Z then _ else _).
  destruct (u32_add e.2 1); simpl; by rewrite lookup_insert_ne.
Qed.

Lemma check_at_poisoned `{Profile} key lim window now l :
  ¬ lim_live l →
  (∃ m, (InMemory.check_at key lim window now l).1 = Panic m)
  ∧ (InMemory.check_at key lim window now l).2 = l.
Proof.
  intros Hl. destruct l as [[ws p]]. unfold lim_live, InMemory.check_at, with_lock in *; simpl in *.
  destruct p; [by split; [eexists|]|done].
Qed.

(** While a limiter works, a key has been counted at most this often. *)
Definition key_le (n : nat) (k : string) (l : InMemory.Limiter) : Prop :=
  lim_live l → ∀ e, entry_of l k = Some e → (0 ≤ e.2 ≤ Z.of_nat n)%Z.

Lemma check_at_live `{Profile} n key lim window now l :
  lim_live l → key_le n key l → (Z.of_nat n < u32_max)%Z →
  let e := window_step window now (entry_of l key) in
  let '(r, l') := InMemory.check_at key lim window now l in
  r = Ret (decide_used lim e.2 (Duration_as_secs
        (default 0%Z (Duration_checked_sub window (duration_since now e.1)))))
  ∧ lim_live l' ∧ entry_of l' key = Some e ∧ key_le (S n) key l'.
Proof.
  intros Hl Hk Hn e.
  pose proof (window_step_count window now (entry_of l key) (Z.of_nat n) (Hk Hl) ltac:(lia)) as He.
  pose proof (check_at_key key lim window now l Hl) as Hkey.
  destruct (InMemory.check_at key lim window now l) as [r l'].
  destruct Hkey as (-> & Hl' & Hw); [cbv zeta; unfold u32_max in *; lia|].
  assert (Hent : entry_of l' key = Some e) by (unfold entry_of; by rewrite Hw, lookup_insert_eq).
  split_and!; [done..|]. intros _ e0. rewrite Hent. intros [= <-]. unfold e. lia.
Qed.

(** *** Counting the allowed requests of one key in an interval *)

Definition later (t : Z) (ts : list Z) : Prop := Forall (λ t', (t ≤ t')%Z) ts.

(** The clock is monotonic. *)
Fixpoint nondecreasing (ts : list Z) : Prop :=
  match ts with [] => True | t :: ts => later t ts ∧ nondecreasing ts end.

Lemma later_trans s t ts : (s ≤ t)%Z → later t ts → later s ts.
Proof. intros Hst Hl. eapply Forall_impl; [exact Hl|]. simpl. lia. Qed.

Section burst.
Context (L W a : Z).

(** The allowed requests at the times [ts] that fall in [[a, a + W)], counting
    with the window entry [e]. *)
Fixpoint allowed_in (ts : list Z) (e : option (Z * Z)) : Z :=
  match ts with
  | [] => 0
  | t :: ts =>
      let e := window_step W t e in
      ((if (a <=? t)%Z && (t <? a + W)%Z && (e.2 <=? L)%Z then 1 else 0)
       + allowed_in ts (Some e))%Z
  end.

Lemma allowed_in_cons t ts e :
  allowed_in (t :: ts) e =
  ((if (a <=? t)%Z && (t <? a + W)%Z && ((window_step W t e).2 <=? L)%Z then 1 else 0)
   + allowed_in ts (Some (window_step W t e)))%Z.
Proof. done. Qed.

Lemma window_step_in t s c :
  (s ≤ t < s + W)%Z → window_step W t (Some (s, c)) = (s, c + 1)%Z.
Proof.
  intros Ht. unfold window_step; simpl. unfold duration_since.
  destruct (Z.leb_spec W (Z.max (t - s) 0)); [lia|done].
Qed.

Lemma window_step_reset t s c :
  (s ≤ t)%Z → (s + W ≤ t)%Z → window_step W t (Some (s, c)) = (t, 1)%Z.
Proof.
  intros Hs Ht. unfold window_step; simpl. unfold duration_since.
  by destruct (Z.leb_spec W (Z.max (t - s) 0)); [|lia].
Qed.

Lemma window_step_None t : window_step W t None = (t, 1)%Z.
Proof. unfold window_step; simpl. by case_match. Qed.

(** After the interval nothing counts. *)
Lemma allowed_in_past ts e : later (a + W) ts → allowed_in ts e = 0%Z.
Proof.
  revert e. induction ts as [|t ts IH]; intros e; [done|]. rewrite allowed_in_cons.
  intros [Ht Hts]%Forall_cons. rewrite IH by done.
  by rewrite (proj2 (Z.ltb_ge t (a + W)) Ht), andb_false_r.
Qed.

(** A window that starts in the interval covers the rest of it. *)
Lemma allowed_in_one ts s c :
  (0 ≤ c)%Z → (a ≤ s)%Z → later s ts → nondecreasing ts →
  (allowed_in ts (Some (s, c)) ≤ Z.max 0 (L - c))%Z.
Proof.
  revert c. induction ts as [|t ts IH]; intros c Hc Ha Hts Hsort; [simpl; lia|].
  rewrite allowed_in_cons.
  apply Forall_cons in Hts as [Ht Hts]. destruct Hsort as [Htts Hsort].
  destruct (Z_lt_dec t (s + W)).
  - rewrite window_step_in by lia. simpl.
    specialize (IH (c + 1)%Z ltac:(lia) Ha Hts Hsort).
    destruct (Z.leb_spec (c + 1) L); destruct ((a <=? t)%Z && (t <? a + W)%Z); simpl; lia.
  - rewrite (allowed_in_past ts) by (apply (later_trans _ t); [lia|done]).
    rewrite (proj2 (Z.ltb_ge t (a + W))) by lia. rewrite andb_false_r. simpl. lia.
Qed.

(** A window that started before the interval can be followed by one more. *)
Lemma allowed_in_two ts s c :
  (0 ≤ L)%Z → (0 ≤ c)%Z → (s ≤ a)%Z → later a ts → nondecreasing ts →
  (allowed_in ts (Some (s, c)) ≤ Z.max 0 (L - c) + L)%Z.
Proof.
  intros HL. revert c. induction ts as [|t ts IH]; intros c Hc Ha Hts Hsort; [simpl; lia|].
  rewrite allowed_in_cons.
  apply Forall_cons in Hts as [Ht Hts]. destruct Hsort as [Htts Hsort].
  destruct (Z_lt_dec t (s + W)).
  - rewrite window_step_in by lia. simpl.
    specialize (IH (c + 1)%Z ltac:(lia) Ha Hts Hsort).
    destruct (Z.leb_spec (c + 1) L); destruct ((a <=? t)%Z && (t <? a + W)%Z); simpl; lia.
  - rewrite window_step_reset by lia. simpl.
    pose proof (allowed_in_one ts t 1 ltac:(lia) ltac:(lia) Htts Hsort).
    destruct (Z.leb_spec 1 L); destruct ((a <=? t)%Z && (t <? a + W)%Z); simpl; lia.
Qed.

(** From any window entry, at most two windows meet the interval. *)
Lemma allowed_in_bound ts s c :
  (0 ≤ L)%Z → (0 ≤ c)%Z → later s ts → nondecreasing ts →
  (allowed_in ts (Some (s, c)) ≤ 2 * L)%Z.
Proof.
  intros HL. revert s c. induction ts as [|t ts IH]; intros s c Hc Hts Hsort; [simpl; lia|].
  destruct (Z_lt_dec t a) as [Hta|Hta].
  - rewrite allowed_in_cons. apply Forall_cons in Hts as [Ht Hts]. destruct Hsort as [Htts Hsort].
    rewrite (proj2 (Z.leb_gt a t)) by lia. simpl.
    destruct (Z_lt_dec t (s + W)).
    + rewrite window_step_in by lia. apply IH; [lia|done..].
    + rewrite window_step_reset by lia. apply IH; [lia|done..].
  - assert (Hla : later a (t :: ts)).
    { apply (later_trans _ t); [lia|]. destruct Hsort. by constructor. }
    destruct (Z_le_dec s a) as [Hsa|Hsa].
    + pose proof (allowed_in_two (t :: ts) s c HL Hc Hsa Hla Hsort). lia.
    + pose proof (allowed_in_one (t :: ts) s c Hc ltac:(lia) Hts Hsort). lia.
Qed.

Lemma allowed_in_bound_None ts :
  (0 ≤ L)%Z → nondecreasing ts → (allowed_in ts None ≤ 2 * L)%Z.
Proof.
  intros HL Hts. destruct ts as [|t ts]; [simpl; lia|].
  pose proof (allowed_in_bound (t :: ts) t 0 HL) as Hb.
  assert (allowed_in (t :: ts) None = allowed_in (t :: ts) (Some (t, 0%Z))) as ->.
  { rewrite !allowed_in_cons, window_step_None. unfold window_step; simpl.
    by destruct (W <=? duration_since t t)%Z. }
  destruct Hts. apply Hb; [lia|by constructor|done].
Qed.
End burst.

(** The allowed requests of key [k] with a time in [[a, b)]. *)
Fixpoint count_allowed (k : string) (a b : Instant) (qs : list request)
    (rs : list (Outcome RateDecision)) : Z :=
  match qs, rs with
  | q :: qs, r :: rs =>
      ((if bool_decide (q_key q = k) && ((a <=? q_now q)%Z && (q_now q <? b)%Z
           && match r with Ret d => allowed d | _ => false end)
        then 1 else 0) + count_allowed k a b qs rs)%Z
  | _, _ => 0
  end.

Definition times_of (k : string) (qs : list request) : list Instant :=
  q_now <$> filter (λ q, q_key q = k) qs.

(** A poisoned limiter allows nothing. *)
Lemma count_allowed_dead `{Profile} k a b qs l :
  ¬ lim_live l → count_allowed k a b qs (checks qs l).1 = 0%Z.
Proof.
  intros Hl. induction qs as [|q qs IH]; [done|]. simpl.
  pose proof (check_at_poisoned (q_key q) (q_limit q) (q_window q) (q_now q) l Hl) as [[m Hm] Hd].
  destruct (InMemory.check_at _ _ _ _ l) as [r l']; simpl in *. subst.
  destruct (checks qs l) as [rs l'']; simpl in *. by rewrite !andb_false_r.
Qed.

Lemma allowed_in_nonneg L W a ts e : (0 ≤ allowed_in L W a ts e)%Z.
Proof.
  revert e. induction ts as [|t ts IH]; intros e; [done|]. rewrite allowed_in_cons.
  specialize (IH (Some (window_step W t e))). case_match; lia.
Qed.

(** The other keys do not matter: even one that overflows, and poisons the limiter,
    allows no more. *)
Lemma count_allowed_le `{Profile} k L W a qs n l :
  key_le n k l → (Z.of_nat (n + length (times_of k qs)) ≤ u32_max)%Z →
  Forall (λ q, q_key q = k → q_limit q = L ∧ q_window q = W) qs →
  (count_allowed k a (a + W) qs (checks qs l).1 ≤ allowed_in L W a (times_of k qs) (entry_of l k))%Z.
Proof.
  revert n l. induction qs as [|q qs IH]; intros n l Hc Hn Hqs; [done|].
  destruct (decide (lim_live l)) as [Hl|Hl].
  2: { rewrite count_allowed_dead by done. apply allowed_in_nonneg. }
  apply Forall_cons in Hqs as [Hq Hqs]. unfold times_of in *. rewrite filter_cons in *. simpl.
  destruct (decide (q_key q = k)) as [<-|Hk].
  - destruct (Hq eq_refl) as [<- <-]. rewrite fmap_cons in *. rewrite allowed_in_cons. simpl in Hn.
    pose proof (check_at_live n (q_key q) (q_limit q) (q_window q) (q_now q) l Hl Hc ltac:(lia)) as Hspec.
    cbv zeta in Hspec. destruct (InMemory.check_at _ _ _ _ l) as [r l'].
    destruct Hspec as (-> & Hl' & He & Hc'). specialize (IH (S n) l' Hc' ltac:(lia) Hqs).
    destruct (checks qs l') as [rs l'']; simpl in *. rewrite He in IH. rewrite bool_decide_true by done.
    simpl. rewrite <- andb_assoc. lia.
  - pose proof (check_at_other (q_key q) (q_limit q) (q_window q) (q_now q) l k ltac:(done)) as He.
    destruct (InMemory.check_at _ _ _ _ l) as [r l']; simpl in *.
    assert (Hc' : key_le n k l') by (intros _ e; rewrite He; by apply Hc).
    specialize (IH n l' Hc' Hn Hqs). rewrite He in IH.
    destruct (checks qs l') as [rs l'']; simpl in *. by rewrite bool_decide_false.
Qed.

Lemma nondecreasing_filter k qs :
  nondecreasing (q_now <$> qs) → nondecreasing (times_of k qs).
Proof.
  unfold times_of. induction qs as [|q qs IH]; [done|]. simpl. intros [Hq Hqs].
  rewrite filter_cons. case_decide; [|auto]. simpl. split; [|auto].
  unfold later in *. rewrite Forall_fmap in *. rewrite Forall_forall in *.
  intros x [_ Hx]%list_elem_of_filter. by apply Hq.
Qed.

Lemma new_key_le k : key_le 0 k InMemory.new.
Proof. intros _ e. unfold entry_of; simpl. by rewrite lookup_empty. Qed.

(** The decision on the [n]-th request of a window that started at [t0]. *)
Definition nth_decision (lim window t0 n t : Z) : RateDecision := {|
  allowed := (n <=? lim)%Z;
  limit := lim;
  remaining := Z.max (lim - Z.min n lim) 0;
  reset_secs := ((t0 + window - t) / nanos)%Z;
|}.

Lemma decide_in_window lim window t0 t n :
  (t0 ≤ t < t0 + window)%Z →
  decide_used lim n (Duration_as_secs
    (default 0%Z (Duration_checked_sub window (duration_since t t0))))
  = nth_decision lim window t0 n t.
Proof.
  intros Ht. unfold decide_used, nth_decision, Duration_checked_sub, Duration_as_secs.
  rewrite (duration_since_le t t0) by lia.
  rewrite (proj2 (Z.leb_le (t - t0) window)) by lia. simpl.
  f_equal. f_equal. lia.
Qed.

Lemma checks_in_window `{Profile} n l key lim window t0 c ts :
  lim_live l → key_le n key l → (Z.of_nat (n + length ts) ≤ u32_max)%Z →
  entry_of l key = Some (t0, c) →
  Forall (λ t, t0 ≤ t < t0 + window)%Z ts →
  (checks (mkRequest key lim window <$> ts) l).1 =
  imap (λ i t, Ret (nth_decision lim window t0 (c + Z.of_nat (S i)) t)) ts.
Proof.
  revert n l c. induction ts as [|t ts IH]; intros n l c Hl Hc Hn He Hts; [done|].
  apply Forall_cons in Hts as [Ht Hts]. rewrite fmap_cons, imap_cons. simpl in Hn |- *.
  pose proof (check_at_live n key lim window t l Hl Hc ltac:(lia)) as Hspec. cbv zeta in Hspec.
  destruct (InMemory.check_at key lim window t l) as [r l'].
  destruct Hspec as (-> & Hl' & He' & Hc'). rewrite He, window_step_in in * by lia.
  specialize (IH (S n) l' (c + 1)%Z Hl' Hc' ltac:(lia) He' Hts).
  destruct (checks _ l') as [rs l'']; simpl in *. subst rs. f_equal.
  - by rewrite decide_in_window.
  - apply imap_ext. intros i t' _. simpl. do 2 f_equal. lia.
Qed.

(** ** Properties *)

(** C34: in a fixed window of a limiter that is not poisoned, of checks of a key with one
    limit, which follow each other, exactly the first [limit] are allowed, for any number
    of them that [u32] can count; the decision's [remaining] counts down the budget, and
    its [reset_secs] the seconds to the end of the window. The window starts at the first
    check of a key that has no entry, or whose entry is at least a window old. *)
Theorem fixed_window_decisions `{Profile} l key lim window t0 ts :
  lim_live l → (Z.of_nat (S (length ts)) ≤ u32_max)%Z →
  (∀ e, entry_of l key = Some e → (e.1 + window ≤ t0)%Z) →
  Forall (λ t, t0 ≤ t < t0 + window)%Z (t0 :: ts) →
  (checks (mkRequest key lim window <$> t0 :: ts) l).1 =
  imap (λ i t, Ret (nth_decision lim window t0 (Z.of_nat (S i)) t)) (t0 :: ts).
Proof.
  intros Hl Hn He Hts. apply Forall_cons in Hts as [Ht Hts].
  rewrite fmap_cons, imap_cons. simpl.
  assert (Hw : window_step window t0 (entry_of l key) = (t0, 1%Z)).
  { destruct (entry_of l key) as [[s c]|]; [|apply window_step_None].
    specialize (He _ eq_refl). simpl in He. apply window_step_reset; lia. }
  pose proof (check_at_key key lim window t0 l Hl) as Hspec. cbv zeta in Hspec. rewrite Hw in Hspec.
  destruct (InMemory.check_at key lim window t0 l) as [r l'].
  destruct Hspec as (-> & Hl' & Hws); [done|].
  assert (He' : entry_of l' key = Some (t0, 1%Z)) by (unfold entry_of; by rewrite Hws, lookup_insert_eq).
  assert (Hk : key_le 1 key l') by (intros _ e; rewrite He'; by intros [= <-]).
  pose proof (checks_in_window 1 l' key lim window t0 1 ts Hl' Hk ltac:(lia) He' Hts) as Hrs.
  destruct (checks _ l') as [rs l'']; simpl in *. subst rs. f_equal.
  - by rewrite decide_in_window.
  - apply imap_ext. intros i t' _. simpl. do 2 f_equal. lia.
Qed.

Lemma fixed_window_decisions_witness :
  (checks (H := false) (mkRequest "k" 1 60000000000 <$> [5; 7000000005]%Z) InMemory.new).1
  = [Ret (nth_decision 1 60000000000 5 1 5); Ret (nth_decision 1 60000000000 5 2 7000000005)]
  ∧ nth_decision 1 60000000000 5 2 7000000005 = mkDecision false 1 0 53.
Proof.
  split; [|by vm_compute].
  refine (fixed_window_decisions (H := false) InMemory.new "k" 1 60000000000 5 [7000000005]%Z
    eq_refl _ _ _).
  - by vm_compute.
  - done.
  - repeat constructor; by vm_compute.
Defined.

(** C17: whatever the traffic on one new limiter (any number of keys, at any times of a
    clock that does not go back), in any interval as long as the window at most
    [2 * limit] requests of a key are allowed: a burst at a window boundary at most
    doubles the rate. The requests of this key have one limit and one window and are fewer
    than 2^32, so that its counter cannot wrap; those of the other keys need not. *)
Theorem burst_at_most_doubles `{Profile} qs k lim window a :
  (0 ≤ lim)%Z →
  (Z.of_nat (length (filter (λ q, q_key q = k) qs)) ≤ u32_max)%Z →
  nondecreasing (q_now <$> qs) →
  Forall (λ q, q_key q = k → q_limit q = lim ∧ q_window q = window) qs →
  (count_allowed k a (a + window) qs (checks qs InMemory.new).1 ≤ 2 * lim)%Z.
Proof.
  intros Hlim Hlen Hsort Hqs. etrans.
  - apply (count_allowed_le k lim window a qs 0); [apply new_key_le| |done].
    unfold times_of. by rewrite length_fmap.
  - apply allowed_in_bound_None; [done|]. by apply nondecreasing_filter.
Qed.

(** The bound is reached: four requests in one window length, around a reset. *)
Definition burst_requests : list request :=
  mkRequest "k" 2 100 <$> [0; 98; 99; 100; 101; 102]%Z.

Lemma burst_at_most_doubles_witness :
  (count_allowed "k" 50 (50 + 100) burst_requests
     (checks (H := false) burst_requests InMemory.new).1 ≤ 2 * 2)%Z
  ∧ count_allowed "k" 50 (50 + 100) burst_requests
      (checks (H := false) burst_requests InMemory.new).1 = 3%Z.
Proof.
  split; [|by vm_compute].
  apply (burst_at_most_doubles (H := false)).
  - done.
  - by vm_compute.
  - repeat constructor; simpl; lia.
  - repeat constructor.
Defined.

(** The Redis limiter fails open when INCR fails, and sends nothing else;
    otherwise it allows exactly the counts up to the limit, sends EXPIRE exactly on
    the first hit of a window, and then TTL, whatever Redis answers to those two. *)
Theorem redis_decision {E} `{Redis.RedisConn E} (o : Oracle E Redis.Limiter)
    key lim window n s incr :
  o_await o n _ (Redis.ev_incr (Redis.redis_key key)) = Some incr →
  let r := exec o (check key lim window) n s in
  match incr with
  | Err _ =>
      r_out r = Ret (mkDecision true lim lim (as_u64 (Redis.window_secs window)))
      ∧ r_obs r = [Called (Redis.ev_incr (Redis.redis_key key)) (Some incr)]
  | Ok count =>
      ∃ expire ttl,
        r_obs r = Called (Redis.ev_incr (Redis.redis_key key)) (Some incr)
          :: (if (count =? 1)%Z
              then [Called (Redis.ev_expire (Redis.redis_key key)
                      (Redis.window_secs window)) expire]
              else [])
          ++ (if (count =? 1)%Z && negb (is_some expire) then []
              else [Called (Redis.ev_ttl (Redis.redis_key key)) ttl])
        ∧ ((0 ≤ count ≤ u32_max)%Z → ∀ d, r_out r = Ret d →
            allowed d = (count <=? lim)%Z)
  end.
Proof.
  intros Hincr r. subst r. unfold check, Redis.limiter.
  cbn [await mbind prog_bind bind_outcome exec]. rewrite Hincr.
  destruct incr as [count|e]; [|done].
  assert (Hd : (0 ≤ count ≤ u32_max)%Z → as_u32 (Z.max count 0) = count).
  { intros Hc. unfold as_u32, u32_max in *. rewrite Z.max_l by lia. apply Z.mod_small. lia. }
  cbn. destruct (Z.eqb_spec count 1) as [->|Hne]; cbn.
  - set (expire := o_await o _ _ (Redis.ev_expire _ _)).
    destruct expire as [x|] eqn:Ex; cbn.
    + set (ttl := o_await o _ _ (Redis.ev_ttl _)).
      exists (Some x), ttl. destruct ttl; cbn; split; [done| |done|done].
      intros Hc d [= <-]. by rewrite Hd.
    + exists None, None. by split.
  - set (ttl := o_await o _ _ (Redis.ev_ttl _)).
    exists None, ttl. destruct ttl; cbn; split; [done| |done|done].
    intros Hc d [= <-]. by rewrite Hd.
Qed.

(** A connection that has counted [c] requests before. *)
Inductive DemoRedis : Type → Type :=
| DIncr (k : string) : DemoRedis (Result string Z)
| DExpire (k : string) (secs : Z) : DemoRedis (Result string unit)
| DTtl (k : string) : DemoRedis (Result string Z).

#[local] Instance demo_redis : Redis.RedisConn DemoRedis :=
  {| Redis.ev_incr := DIncr; Redis.ev_expire := DExpire; Redis.ev_ttl := DTtl |}.

Definition demo_answer (c : Z) {X} (e : DemoRedis X) : X :=
  match e with DIncr _ => Ok c | DExpire _ _ => Ok () | DTtl _ => Ok 60%Z end.

Definition demo_oracle (c : Z) : Oracle DemoRedis Redis.Limiter := {|
  o_rely := λ _ s, s;
  o_ext := λ _ X e, demo_answer c e;
  o_await := λ _ X e, Some (demo_answer c e);
|}.

Lemma redis_decision_witness :
  let r := exec (demo_oracle 1) (check "k" 5 60000000000) 0 Redis.Connected in
  ∃ expire ttl,
    r_obs r = [Called (DIncr "gw:rl:k") (Some (Ok 1%Z)); Called (DExpire "gw:rl:k" 60) expire;
               Called (DTtl "gw:rl:k") ttl]
    ∨ r_obs r = [Called (DIncr "gw:rl:k") (Some (Ok 1%Z)); Called (DExpire "gw:rl:k" 60) expire].
Proof.
  intros r.
  destruct (redis_decision (demo_oracle 1) "k" 5 60000000000 0 Redis.Connected (Ok 1%Z))
    as (expire & ttl & Hobs & _); [done|].
  exists expire, ttl. subst r. rewrite Hobs.
  destruct expire; [by left|by right].
Defined.

(** The [i64] count is truncated to [u32]: at [2 ^ 32] hits in one window the
    limiter starts allowing again. *)
Lemma redis_count_truncated lim reset :
  (0 ≤ lim)%Z → allowed (decide_used lim (as_u32 (Z.max (2 ^ 32) 0)) reset) = true.
Proof. intros Hlim. apply Z.leb_le. by vm_compute (as_u32 _). Qed.

(** A window of 2^63 seconds or more, which validation accepts, is negative as [i64]: the
    EXPIRE that is sent does not arm a window. *)
Lemma redis_window_wraps : Redis.window_secs (Duration_from_secs (2 ^ 63)) = (- 2 ^ 63)%Z.
Proof. by vm_compute. Qed.

End RateLimit.
