(* ===== verification/Cache.v ===== *)
(** The TTL response cache of one route: src/crates/gateway/src/cache.rs.

    The entries are a map under one mutex.  The iteration order of a [HashMap] is
    not specified: [put] takes it as an argument [it], which lists the entries of
    the map in some order ([order_ok]). *)
From S2P Require Import Prelude RustStd Prog.

Module Cache.

Record CachedResponse := mkCached {
  status : Z;
  headers : list (string * string);
  body : string;
  expires_at : Instant;
}.

Abbreviation entries := (gmap string CachedResponse).
Abbreviation hash_order := (entries → list (string * CachedResponse)).

Definition order_ok (it : hash_order) : Prop := ∀ m, it m ≡ₚ map_to_list m.

Record ResponseCache := mkCache {
  ttl : Duration;
  capacity : Z;
  map : Mutex entries;
}.

Definition new (ttl : Duration) (capacity : Z) : ResponseCache :=
  mkCache ttl (Z.max capacity 1) (Mutex_new ∅).

Definition key (method host path_and_query : string) : string :=
  method +:+ " " +:+ host +:+ " " +:+ path_and_query.

Definition get_section (k : string) (now : Instant) (m : entries)
    : Outcome (option CachedResponse) * entries :=
  match m !! k with
  | Some entry =>
      if (now <? expires_at entry)%Z then (Ret (Some entry), m)
      else (Ret None, delete k m)
  | None => (Ret None, m)
  end.

(** The entry to evict: the first expired one, else the first one. *)
Definition victim (it : hash_order) (now : Instant) (m : entries) : option string :=
  match List.find (λ kv, (expires_at kv.2 <=? now)%Z) (it m) with
  | Some (k, _) => Some k
  | None => fst <$> head (it m)
  end.

Definition evict (it : hash_order) (cap : Z) (now : Instant) (k : string) (m : entries)
    : entries :=
  if (cap <=? Z.of_nat (size m))%Z && negb (is_some (m !! k))
  then match victim it now m with Some v => delete v m | None => m end
  else m.

Definition put_section (it : hash_order) (ttl : Duration) (cap : Z)
    (now now' : Instant) (k : string) (st : Z) (hs : list (string * string))
    (b : string) (m : entries) : Outcome unit * entries :=
  let m := evict it cap now k m in
  match instant_add now' ttl with
  | Ret exp => (Ret (), <[k := mkCached st hs b exp]> m)
  | Panic msg => (Panic msg, m)
  | Cancelled => (Cancelled, m)
  end.

Definition locked {A} (f : entries → Outcome A * entries) (c : ResponseCache)
    : Outcome A * ResponseCache :=
  let '(r, m) := with_lock "cache mutex" f (map c) in
  (r, mkCache (ttl c) (capacity c) m).

Definition get_at (k : string) (now : Instant) (c : ResponseCache)
    : Outcome (option CachedResponse) * ResponseCache := locked (get_section k now) c.

Definition put_at (it : hash_order) (now now' : Instant) (k : string) (st : Z)
    (hs : list (string * string)) (b : string) (c : ResponseCache)
    : Outcome unit * ResponseCache :=
  locked (put_section it (ttl c) (capacity c) now now' k st hs b) c.

(** The public methods.  The clock is read just before the section instead of inside
    it, and whether or not the section looks at it: another task's section may come in
    between, so these have all the runs of the code, and more. *)
Section methods.
Context {E : Type → Type} `{Clock E} (it : hash_order).

Definition get (k : string) : prog E ResponseCache (option CachedResponse) :=
  now ← Instant_now; act (get_at k now).

Definition put (k : string) (st : Z) (hs : list (string * string)) (b : string)
    : prog E ResponseCache unit :=
  now ← Instant_now; now' ← Instant_now; act (put_at it now now' k st hs b).
End methods.

(** ** Calls on a cache, in any order *)

Inductive cache_step : ResponseCache → ResponseCache → Prop :=
| step_get k now c : cache_step c (get_at k now c).2
| step_put it now now' k st hs b c :
    order_ok it → cache_step c (put_at it now now' k st hs b c).2.

Definition live (c : ResponseCache) : Prop := mu_poisoned (map c) = false.
Definition stored (c : ResponseCache) : entries := mu_val (map c).

Definition cache_ok (c : ResponseCache) : Prop :=
  (1 ≤ capacity c)%Z ∧ (Z.of_nat (size (stored c)) ≤ capacity c)%Z.

(** ** Lemmas *)

Lemma find_Some_elem {A} (f : A → bool) (l : list A) x :
  List.find f l = Some x → x ∈ l ∧ f x = true.
Proof. intros [Hin Hf]%find_some. by rewrite list_elem_of_In. Qed.

Lemma victim_in it now m v : order_ok it → victim it now m = Some v → is_Some (m !! v).
Proof.
  intros Hit. unfold victim. destruct (List.find _ _) as [[k e]|] eqn:Ef.
  - intros [= <-]. apply find_Some_elem in Ef as [Hin _].
    rewrite (Hit m) in Hin. apply elem_of_map_to_list in Hin. eauto.
  - destruct (it m) as [|[k e] l] eqn:El; [done|]. simpl. intros [= <-].
    assert ((k, e) ∈ it m) as Hin by (rewrite El; set_solver).
    rewrite (Hit m) in Hin. apply elem_of_map_to_list in Hin. eauto.
Qed.

Lemma victim_exists it now m : order_ok it → m ≠ ∅ → is_Some (victim it now m).
Proof.
  intros Hit Hm. unfold victim. destruct (List.find _ _) as [[k e]|]; [eauto|].
  destruct (it m) as [|[k e] l] eqn:El; [|eauto].
  exfalso. apply Hm. apply map_to_list_empty_iff. apply Permutation_nil_r.
  by rewrite <- (Hit m), El.
Qed.

(** An expired entry is preferred. *)
Lemma victim_expired it now m k e :
  order_ok it → m !! k = Some e → (expires_at e ≤ now)%Z →
  ∃ v e', victim it now m = Some v ∧ m !! v = Some e' ∧ (expires_at e' ≤ now)%Z.
Proof.
  intros Hit Hk He. unfold victim. destruct (List.find _ _) as [[v e']|] eqn:Ef.
  - apply find_Some_elem in Ef as [Hin Hexp]. simpl in Hexp. apply Z.leb_le in Hexp.
    rewrite (Hit m) in Hin. apply elem_of_map_to_list in Hin. eauto.
  - exfalso. assert ((k, e) ∈ it m) as Hin.
    { rewrite (Hit m). by apply elem_of_map_to_list. }
    apply list_elem_of_In in Hin. eapply find_none in Ef; [|done].
    simpl in Ef. apply Z.leb_gt in Ef. lia.
Qed.

Lemma size_delete_le (m : entries) k : size (delete k m) ≤ size m.
Proof.
  destruct (m !! k) as [e|] eqn:Hk; [|by rewrite delete_id].
  rewrite map_size_delete_Some by eauto. lia.
Qed.

Lemma evict_size it cap now k m :
  order_ok it → (1 ≤ cap)%Z → (Z.of_nat (size m) ≤ cap)%Z → m !! k = None →
  (Z.of_nat (size (evict it cap now k m)) < cap)%Z.
Proof.
  intros Hit Hcap Hsz Hk. unfold evict. rewrite Hk. simpl. rewrite andb_true_r.
  destruct (Z.leb_spec cap (Z.of_nat (size m))); [|lia].
  assert (m ≠ ∅) as Hne by (intros ->; rewrite map_size_empty in *; lia).
  destruct (victim_exists it now m Hit Hne) as [v Hv]. rewrite Hv.
  rewrite map_size_delete_Some by (by eapply victim_in). lia.
Qed.

Lemma evict_present it cap now k m : is_Some (m !! k) → evict it cap now k m = m.
Proof. intros [e Hk]. unfold evict. by rewrite Hk, andb_false_r. Qed.

Lemma evict_le it cap now k m : size (evict it cap now k m) ≤ size m.
Proof.
  unfold evict. case_match; [|done]. case_match; [apply size_delete_le|done].
Qed.

(** A section keeps the cache within its capacity. *)
Lemma locked_ok {A} (f : entries → Outcome A * entries) c :
  (∀ m, (Z.of_nat (size m) ≤ capacity c)%Z → (Z.of_nat (size (f m).2) ≤ capacity c)%Z) →
  cache_ok c → cache_ok (locked f c).2.
Proof.
  intros Hf [Hcap Hsz]. unfold locked, with_lock, cache_ok, stored in *.
  destruct (mu_poisoned (map c)); [by split|].
  specialize (Hf _ Hsz). destruct (f (mu_val (map c))) as [r m]. by split.
Qed.

Lemma get_at_ok k now c : cache_ok c → cache_ok (get_at k now c).2.
Proof.
  apply locked_ok. intros m Hm. unfold get_section.
  repeat case_match; simplify_eq; simpl; try done.
  pose proof (size_delete_le m k). lia.
Qed.

Lemma put_at_ok it now now' k st hs b c :
  order_ok it → cache_ok c → cache_ok (put_at it now now' k st hs b c).2.
Proof.
  intros Hit Hc. apply locked_ok; [|done]. destruct Hc as [Hcap _]. intros m Hsz.
  unfold put_section.
  pose proof (evict_le it (capacity c) now k m) as Hle.
  destruct (instant_add now' (ttl c)) as [exp|msg|]; simpl; [|lia..].
  destruct (m !! k) as [e|] eqn:Hk.
  - rewrite evict_present by (rewrite Hk; eauto).
    rewrite map_size_insert_Some by (rewrite Hk; eauto). lia.
  - pose proof (evict_size it (capacity c) now k m Hit Hcap Hsz Hk).
    rewrite map_size_insert. case_match; simpl; lia.
Qed.

Lemma locked_live {A} (f : entries → Outcome A * entries) c :
  live c → (locked f c).1 = (f (stored c)).1 ∧ stored (locked f c).2 = (f (stored c)).2.
Proof.
  unfold live, locked, with_lock, stored. intros ->. by destruct (f (mu_val (map c))).
Qed.

(** ** Properties *)

(** A cache never holds more entries than its capacity (at least one),
    whatever calls are made on it and in whatever order the map is iterated. *)
Theorem cache_capacity_bound ttl cap c :
  rtc cache_step (new ttl cap) c →
  (Z.of_nat (size (stored c)) ≤ Z.max cap 1)%Z.
Proof.
  intros Hr.
  assert (cache_ok c ∧ capacity c = Z.max cap 1) as [[_ Hsz] <-]; [|done].
  remember (new ttl cap) as c0 eqn:E.
  assert (cache_ok c0 ∧ capacity c0 = Z.max cap 1) as H0.
  { subst. unfold cache_ok, stored; simpl. rewrite map_size_empty. split_and!; lia. }
  clear E. induction Hr as [c|c c' c'' Hstep _ IH]; [done|]. apply IH.
  destruct H0 as [Hok Hcap].
  assert (capacity c' = capacity c) as ->.
  { destruct Hstep; unfold get_at, put_at, locked; by destruct (with_lock _ _ _). }
  split; [|done]. destruct Hstep; [by apply get_at_ok|by apply put_at_ok].
Qed.

Definition list_order : hash_order := map_to_list.

Lemma list_order_ok : order_ok list_order.
Proof. by intros m. Qed.

Lemma cache_capacity_bound_witness :
  let c := (put_at list_order 1 1 "b" 200 [] "x"
              (put_at list_order 0 0 "a" 200 [] "x" (new 10 1)).2).2 in
  (Z.of_nat (size (stored c)) ≤ Z.max 1 1)%Z ∧ size (stored c) = 1.
Proof.
  intros c. split; [|by vm_compute].
  apply (cache_capacity_bound 10 1). unfold c.
  eapply rtc_l; [apply step_put, list_order_ok|].
  eapply rtc_l; [apply step_put, list_order_ok|]. apply rtc_refl.
Defined.

(** A stored response is returned until [ttl] after it was stored and not
    from then on (it is then removed), and storing it evicts at most one other
    entry: only when the cache is full, and an expired one if there is one. *)
Theorem cache_put_get it now now' k st hs b c :
  order_ok it → live c → cache_ok c →
  (now' + ttl c < instant_limit)%Z →
  let c' := (put_at it now now' k st hs b c).2 in
  (∀ t, (t < now' + ttl c)%Z →
     get_at k t c' = (Ret (Some (mkCached st hs b (now' + ttl c))), c'))
  ∧ (∀ t, (now' + ttl c ≤ t)%Z →
       (get_at k t c').1 = Ret None ∧ stored (get_at k t c').2 !! k = None)
  ∧ ((∀ k', k' ≠ k → stored c' !! k' = stored c !! k')
     ∨ (capacity c ≤ Z.of_nat (size (stored c)))%Z
       ∧ stored c !! k = None
       ∧ ∃ v e, stored c !! v = Some e
           ∧ (∀ k', k' ≠ k → k' ≠ v → stored c' !! k' = stored c !! k')
           ∧ ((now < expires_at e)%Z →
              ∀ k' e', stored c !! k' = Some e' → (now < expires_at e')%Z)).
Proof.
  intros Hit Hl [Hcap Hsz] Ht c'.
  assert (Hc' : c' = mkCache (ttl c) (capacity c)
            (mkMutex (<[k := mkCached st hs b (now' + ttl c)]>
                        (evict it (capacity c) now k (stored c))) false)).
  { subst c'. unfold put_at, locked, with_lock, put_section, live, stored in *.
    by rewrite Hl, instant_add_exact. }
  assert (Hst : stored c' = <[k := mkCached st hs b (now' + ttl c)]>
                              (evict it (capacity c) now k (stored c))) by (by rewrite Hc').
  split_and!.
  - intros t Hlt. rewrite Hc'. unfold get_at, locked, with_lock, get_section, stored; simpl.
    rewrite lookup_insert_eq. simpl. by rewrite (proj2 (Z.ltb_lt _ _) Hlt).
  - intros t Hle. rewrite Hc'. unfold get_at, locked, with_lock, get_section, stored; simpl.
    rewrite lookup_insert_eq. simpl. rewrite (proj2 (Z.ltb_ge _ _) Hle). simpl.
    by rewrite lookup_delete_eq.
  - rewrite Hst. unfold evict. clear Hc' Hst c'.
    destruct (Z.leb_spec (capacity c) (Z.of_nat (size (stored c)))) as [Hfull|]; simpl.
    2: { left. intros k' Hk'. by rewrite lookup_insert_ne. }
    destruct (stored c !! k) as [e0|] eqn:Hk; simpl.
    { left. intros k' Hk'. by rewrite lookup_insert_ne. }
    right. split; [done|]. split; [done|].
    assert (stored c ≠ ∅) as Hne by (intros He; rewrite He, map_size_empty in *; lia).
    destruct (victim_exists it now _ Hit Hne) as [v Hv]. rewrite Hv.
    destruct (victim_in it now _ v Hit Hv) as [e He]. exists v, e. split_and!; [done| |].
    + intros k' Hk' Hkv. by rewrite lookup_insert_ne, lookup_delete_ne.
    + intros Hfresh k' e' He'. destruct (Z_lt_dec now (expires_at e')); [done|].
      destruct (victim_expired it now (stored c) k' e' Hit He') as (v' & e'' & Hv' & He'' & Hexp);
        [lia|]. simplify_eq. lia.
Qed.

Lemma cache_put_get_witness :
  let c := (put_at list_order 0 0 "k" 200 [] "hi" (new 60 10)).2 in
  get_at "k" 59 c = (Ret (Some (mkCached 200 [] "hi" 60)), c)
  ∧ (get_at "k" 60 c).1 = Ret None.
Proof.
  intros c.
  destruct (cache_put_get list_order 0 0 "k" 200 [] "hi" (new 60 10)) as (Hhit & Hmiss & _).
  - apply list_order_ok.
  - done.
  - split; by vm_compute.
  - by vm_compute.
  - split; [apply Hhit|apply Hmiss]; simpl; lia.
Defined.

(** No spaces: what an HTTP method and a request target are made of. *)
Definition no_space (s : string) : Prop := split_next " "%char s = s.

Lemma no_space_app p r : ¬ no_space (p +:+ String " " r).
Proof.
  unfold no_space. induction p as [|a p IH]; [done|]. rewrite append_cons. simpl.
  destruct (Ascii.eqb a " "); [done|]. intros [=]. auto.
Qed.

(** The first space of [s ++ " " ++ r] ends [s]. *)
Lemma cut_first_space s s' r r' :
  no_space s → no_space s' →
  (s +:+ String " " r = s' +:+ String " " r')%string → s = s' ∧ r = r'.
Proof.
  intros Hs Hs' Heq.
  assert (s = s') as <-.
  { rewrite <- (split_next_app _ s r Hs), <- (split_next_app _ s' r' Hs'). by rewrite Heq. }
  split; [done|]. apply append_inj_l in Heq. congruence.
Qed.

(** The last space of [p ++ " " ++ r] starts [r]. *)
Lemma cut_last_space p p' r r' :
  no_space r → no_space r' →
  (p +:+ String " " r = p' +:+ String " " r')%string → p = p' ∧ r = r'.
Proof.
  intros Hr Hr'. revert p'. induction p as [|a p IH]; intros [|a' p'];
    rewrite ?append_nil_l, ?append_cons; intros Heq; simplify_eq.
  - done.
  - by apply no_space_app in Hr.
  - by apply no_space_app in Hr'.
  - match goal with H : _ = _ |- _ => apply IH in H as [-> ->] end. done.
Qed.

(** Distinct requests have distinct cache keys: the key determines the
    method, the host and the target, when the method and the target have no space
    in them (as HTTP guarantees); the host may be any text. *)
Theorem cache_key_injective m m' h h' pq pq' :
  no_space m → no_space m' → no_space pq → no_space pq' →
  key m h pq = key m' h' pq' → m = m' ∧ h = h' ∧ pq = pq'.
Proof.
  intros Hm Hm' Hpq Hpq' Heq. unfold key in Heq.
  apply (cut_first_space m m') in Heq as [-> Heq]; [|done..].
  by apply cut_last_space in Heq as [-> ->].
Qed.

Lemma cache_key_injective_witness :
  key "GET" "a b" "/x" = key "GET" "a b" "/x" ∧ "a b" = "a b" ∧ "/x" = "/x".
Proof.
  split; [done|].
  by apply (cache_key_injective "GET" "GET" "a b" "a b" "/x" "/x").
Defined.

End Cache.
