(* ===== verification/CacheSpec.v ===== *)
(** What a cache promises, over any history of calls.

    The specification keeps the calls and nothing else: the response that was last
    stored for a key is alive until its lifetime is over ([alive]).  A cache answers
    as an unbounded one would, except that it may have forgotten an entry, and only
    after more keys were stored than it has room for.  The definitions of the cache
    are those of Cache.v. *)
From S2P Require Import Prelude RustStd Prog Cache.
From Stdlib Require Import Sorted.
Import Cache.

Module CacheSpec.

(** ** Calls and histories *)

Inductive call : Type :=
| CGet (k : string) (now : Instant)
| CPut (it : hash_order) (now now' : Instant) (k : string) (st : Z)
    (hs : list (string * string)) (b : string).

Definition do_call (x : call) (c : ResponseCache) : Outcome (option CachedResponse) * ResponseCache :=
  match x with
  | CGet k now => get_at k now c
  | CPut it now now' k st hs b =>
      let '(r, c) := put_at it now now' k st hs b c in ((λ _, None) <$> r, c)
  end.

Fixpoint do_calls (xs : list call) (c : ResponseCache)
    : list (Outcome (option CachedResponse)) * ResponseCache :=
  match xs with
  | [] => ([], c)
  | x :: xs =>
      let '(r, c) := do_call x c in
      let '(rs, c) := do_calls xs c in (r :: rs, c)
  end.

Definition time_of (x : call) : Instant :=
  match x with CGet _ now => now | CPut _ _ now' _ _ _ _ => now' end.

(** The keys stored so far, and the response stored last for a key. *)
Definition put_key (x : call) : option string :=
  match x with CGet _ _ => None | CPut _ _ _ k _ _ _ => Some k end.

Definition keys (h : list call) : gset string := list_to_set (omap put_key h).

Definition put_of (d : Duration) (k : string) (x : call) : option CachedResponse :=
  match x with
  | CPut _ _ now' k' st hs b => if decide (k' = k) then Some (mkCached st hs b (now' + d)) else None
  | CGet _ _ => None
  end.

Definition latest (d : Duration) (h : list call) (k : string) : option CachedResponse :=
  last (omap (put_of d k) h).

Definition alive (now : Instant) (e : option CachedResponse) : option CachedResponse :=
  e ← e; if (now <? expires_at e)%Z then Some e else None.

(** A call made after the calls [h] on a cache that has room for [cap] entries. *)
Definition answer_ok (d : Duration) (cap : Z) (h : list call) (x : call)
    (r : Outcome (option CachedResponse)) : Prop :=
  match x with
  | CGet k now =>
      r = Ret (alive now (latest d h k))
      ∨ r = Ret None ∧ (cap < Z.of_nat (size (keys h)))%Z
  | CPut _ _ _ _ _ _ _ => r = Ret None
  end.

Fixpoint answers_ok (d : Duration) (cap : Z) (h xs : list call)
    (rs : list (Outcome (option CachedResponse))) : Prop :=
  match xs, rs with
  | [], [] => True
  | x :: xs, r :: rs => answer_ok d cap h x r ∧ answers_ok d cap (h ++ [x]) xs rs
  | _, _ => False
  end.

(** The calls of a clock that leaves room for the lifetime. *)
Definition call_ok (d : Duration) (x : call) : Prop :=
  match x with
  | CGet _ _ => True
  | CPut it _ now' _ _ _ _ => order_ok it ∧ (now' + d < instant_limit)%Z
  end.

(** ** The simulation *)

(** What is stored is the latest; and with room for all keys, the latest is stored
    or its lifetime was over at a call. *)
Definition follows (h : list call) (c : ResponseCache) : Prop :=
  live c ∧ cache_ok c
  ∧ (∀ k e, stored c !! k = Some e → latest (ttl c) h k = Some e)
  ∧ ((Z.of_nat (size (keys h)) ≤ capacity c)%Z →
     ∀ k e, latest (ttl c) h k = Some e →
       stored c !! k = Some e ∨ ∃ x, x ∈ h ∧ (expires_at e ≤ time_of x)%Z).

Lemma keys_snoc h x : keys (h ++ [x]) = keys h ∪ list_to_set (omap put_key [x]).
Proof. unfold keys. by rewrite omap_app, list_to_set_app_L. Qed.

Lemma latest_snoc d h x k :
  latest d (h ++ [x]) k = match put_of d k x with Some e => Some e | None => latest d h k end.
Proof.
  unfold latest. rewrite omap_app. simpl. destruct (put_of d k x) as [e|].
  - by rewrite last_snoc.
  - by rewrite app_nil_r.
Qed.

(** A key with a latest response was stored. *)
Lemma latest_key d h k e : latest d h k = Some e → k ∈ keys h.
Proof.
  unfold latest, keys. intros He%last_Some_elem_of. apply list_elem_of_omap in He as (x & Hx & Hp).
  apply elem_of_list_to_set, list_elem_of_omap. exists x. split; [done|].
  destruct x as [|it now now' k' st hs b]; [done|]. simpl in *. by case_decide; simplify_eq.
Qed.

(** What is stored, with one more key, is within the keys. *)
Lemma stored_size h c k :
  (∀ k e, stored c !! k = Some e → latest (ttl c) h k = Some e) → stored c !! k = None →
  size (stored c) < size ({[k]} ∪ keys h).
Proof.
  intros Hst Hk. rewrite <- size_dom.
  assert (k ∉ dom (stored c)) as Hn by by apply not_elem_of_dom.
  assert (size ({[k]} ∪ dom (stored c)) ≤ size ({[k]} ∪ keys h)) as Hle.
  { apply subseteq_size. intros k'. rewrite !elem_of_union. intros [?|[e He]%elem_of_dom]; [by left|].
    right. by eapply latest_key, Hst. }
  rewrite size_union, size_singleton in Hle by set_solver. lia.
Qed.

(** A live cache after a section. *)
Lemma locked_eq {A} (f : entries → Outcome A * entries) c :
  live c → returns (f (stored c)).1 = true →
  locked f c = ((f (stored c)).1, mkCache (ttl c) (capacity c) (mkMutex (f (stored c)).2 false)).
Proof.
  unfold live, locked, with_lock, stored. intros -> Hr.
  destruct (f (mu_val (map c))) as [r m]. simpl in *. by rewrite Hr.
Qed.

Lemma stored_after d cap m p : stored (mkCache d cap (mkMutex m p)) = m.
Proof. done. Qed.

Lemma get_at_spec k now c :
  live c →
  get_at k now c =
    (Ret (alive now (stored c !! k)),
     if alive now (stored c !! k) is None
     then mkCache (ttl c) (capacity c) (mkMutex (delete k (stored c)) false) else c).
Proof.
  intros Hl. assert (Hc : c = mkCache (ttl c) (capacity c) (mkMutex (stored c) false)).
  { destruct c as [d cap [m p]]. unfold live in Hl; simpl in Hl. by subst. }
  unfold get_at. rewrite locked_eq; [|done|by unfold get_section; repeat case_match].
  unfold get_section, alive, mbind, option_bind.
  destruct (stored c !! k) as [e|] eqn:Hk; simpl.
  - by destruct (now <? expires_at e)%Z; simpl; [rewrite <- Hc|].
  - by rewrite delete_id.
Qed.

Lemma put_at_spec it now now' k st hs b c :
  live c → (now' + ttl c < instant_limit)%Z →
  put_at it now now' k st hs b c =
    (Ret (), mkCache (ttl c) (capacity c)
       (mkMutex (<[k := mkCached st hs b (now' + ttl c)]> (evict it (capacity c) now k (stored c)))
          false)).
Proof.
  intros Hl Hd. unfold put_at.
  assert (Hs : put_section it (ttl c) (capacity c) now now' k st hs b (stored c) =
    (Ret (), <[k := mkCached st hs b (now' + ttl c)]> (evict it (capacity c) now k (stored c)))).
  { unfold put_section. by rewrite instant_add_exact. }
  by rewrite locked_eq; rewrite ?Hs.
Qed.

Lemma get_follows h k now c :
  follows h c → Forall (λ y, time_of y ≤ now)%Z h →
  answer_ok (ttl c) (capacity c) h (CGet k now) (get_at k now c).1
  ∧ follows (h ++ [CGet k now]) (get_at k now c).2.
Proof.
  intros (Hl & Hok & Hst & Hroom) Hh. pose proof (get_at_ok k now c Hok) as Hok'.
  assert (Hkeys : keys (h ++ [CGet k now]) = keys h) by (rewrite keys_snoc; set_solver).
  rewrite (get_at_spec k now c Hl) in *. simpl in *. split.
  - destruct (stored c !! k) as [e|] eqn:Hk; [left; by rewrite (Hst k e Hk)|].
    destruct (Z_le_gt_dec (Z.of_nat (size (keys h))) (capacity c)) as [Hle|Hgt];
      [left|right; split; [done|lia]].
    destruct (latest (ttl c) h k) as [e|] eqn:He; [|done].
    destruct (Hroom Hle k e He) as [?|(x & Hx & Hexp)]; [congruence|].
    rewrite Forall_forall in Hh. specialize (Hh x Hx). unfold alive; simpl.
    rewrite (proj2 (Z.ltb_ge _ _)); [done|lia].
  - destruct (alive now (stored c !! k)) as [e|] eqn:Ha.
    + split_and!; [done|done| |]; rewrite ?Hkeys.
      * intros k' e'. rewrite latest_snoc. apply Hst.
      * intros Hle k' e'. rewrite latest_snoc. intros He'.
        destruct (Hroom Hle k' e' He') as [?|(x & Hx & ?)]; [by left|].
        right. exists x. split; [set_solver|done].
    + split_and!; [done|done| |]; rewrite ?Hkeys, stored_after; simpl.
      * intros k' e. rewrite latest_snoc. intros [_ Hk']%lookup_delete_Some. by apply Hst.
      * intros Hle k' e. rewrite latest_snoc. intros He.
        destruct (Hroom Hle k' e He) as [Hk'|(x & Hx & ?)].
        -- destruct (decide (k' = k)) as [->|]; [|left; by rewrite lookup_delete_ne].
           right. exists (CGet k now). split; [set_solver|]. revert Ha. rewrite Hk'.
           unfold alive; simpl. by destruct (Z.ltb_spec now (expires_at e)).
        -- right. exists x. split; [set_solver|done].
Qed.

Lemma put_follows h it now now' k st hs b c :
  follows h c → order_ok it → (now' + ttl c < instant_limit)%Z →
  (put_at it now now' k st hs b c).1 = Ret ()
  ∧ follows (h ++ [CPut it now now' k st hs b]) (put_at it now now' k st hs b c).2.
Proof.
  intros (Hl & Hok & Hst & Hroom) Hit Hd.
  pose proof (put_at_ok it now now' k st hs b c Hit Hok) as Hok'.
  assert (Hkeys : keys (h ++ [CPut it now now' k st hs b]) = {[k]} ∪ keys h).
  { rewrite keys_snoc. set_solver. }
  rewrite (put_at_spec it now now' k st hs b c Hl Hd) in *. simpl in *. split; [done|].
  assert (Hev : ∀ k' e, evict it (capacity c) now k (stored c) !! k' = Some e →
                        stored c !! k' = Some e).
  { intros k' e. unfold evict. repeat case_match; try done. by intros [_ ?]%lookup_delete_Some. }
  split_and!; [done|done| |]; rewrite ?Hkeys, stored_after; simpl.
  - intros k' e. rewrite latest_snoc. simpl. destruct (decide (k = k')) as [->|Hne].
    + by rewrite lookup_insert_eq.
    + rewrite lookup_insert_ne by done. intros He%Hev. by apply Hst.
  - intros Hle k' e. rewrite latest_snoc. simpl. destruct (decide (k = k')) as [->|Hne].
    { intros [= <-]. left. by rewrite lookup_insert_eq. }
    intros He. rewrite lookup_insert_ne by done.
    assert (Hle' : (Z.of_nat (size (keys h)) ≤ capacity c)%Z).
    { enough (size (keys h) ≤ size ({[k]} ∪ keys h)) by lia. apply subseteq_size. set_solver. }
    destruct (Hroom Hle' k' e He) as [Hk'|(x & Hx & ?)].
    + left. rewrite <- Hk'. unfold evict. f_equal.
      destruct (stored c !! k) as [e0|] eqn:Hk; [by rewrite andb_false_r|].
      pose proof (stored_size h c k Hst Hk). by rewrite (proj2 (Z.leb_gt _ _)) by lia.
    + right. exists x. split; [set_solver|done].
Qed.

(** One call. *)
Lemma do_call_follows h x c :
  follows h c → call_ok (ttl c) x → Forall (λ y, time_of y ≤ time_of x)%Z h →
  answer_ok (ttl c) (capacity c) h x (do_call x c).1
  ∧ follows (h ++ [x]) (do_call x c).2
  ∧ ttl (do_call x c).2 = ttl c ∧ capacity (do_call x c).2 = capacity c.
Proof.
  destruct x as [k now|it now now' k st hs b]; intros Hf Hx Hh; simpl in *.
  - destruct (get_follows h k now c Hf Hh) as [Ha Hf']. split_and!; [done|done|..];
      (rewrite get_at_spec by apply Hf); simpl; by case_match.
  - destruct Hx as [Hit Hd]. destruct (put_follows h it now now' k st hs b c Hf Hit Hd) as [Ha Hf'].
    revert Ha Hf'. rewrite put_at_spec by (done || apply Hf). by simpl.
Qed.

(** ** Properties *)

(** C32: whatever calls are made on a cache, at times that do not decrease and in
    whatever order its map is iterated, every [get] is answered as by a store without
    bound that keeps the response stored last for a key until its lifetime is over;
    or by a miss, and that only when responses were stored for more keys than the
    cache has room for. *)
Theorem cache_refines_spec ttl cap xs :
  Sorted Z.le (time_of <$> xs) → Forall (call_ok ttl) xs →
  answers_ok ttl (Z.max cap 1) [] xs (do_calls xs (new ttl cap)).1.
Proof.
  intros Hs%Sorted_StronglySorted Hxs; [|intros x y z; lia].
  enough (Hgen : ∀ h c, follows h c → Forall (λ y, Forall (λ x, time_of y ≤ time_of x)%Z xs) h →
                   Cache.ttl c = ttl → answers_ok ttl (capacity c) h xs (do_calls xs c).1).
  { apply (Hgen [] (new ttl cap)); [|done..]. unfold follows, cache_ok, stored; simpl.
    rewrite map_size_empty. split_and!; [done|lia|lia|done|done]. }
  clear cap. induction xs as [|x xs IH]; intros h c Hf Hh Ht; [done|]. simpl.
  apply Forall_cons in Hxs as [Hx Hxs]. apply StronglySorted_inv in Hs as [Hs Hxx].
  destruct (do_call_follows h x c Hf) as (Ha & Hf' & Ht' & Hcap); [by rewrite Ht| |].
  { eapply Forall_impl; [exact Hh|]. by intros y [? _]%Forall_cons. }
  destruct (do_call x c) as [r c'] eqn:Ex. simpl in *.
  specialize (IH Hs Hxs (h ++ [x]) c' Hf').
  destruct (do_calls xs c') as [rs c'']. simpl in *. rewrite Ht in Ha. split; [done|].
  rewrite <- Hcap. apply IH; [|by rewrite Ht', Ht].
  apply Forall_app. split.
  - eapply Forall_impl; [exact Hh|]. by intros y [_ ?]%Forall_cons.
  - apply Forall_singleton. exact (proj1 (Forall_fmap time_of (Z.le (time_of x)) xs) Hxx).
Qed.

(** A hit, a replaced response, an eviction and an expiry, in a cache of one entry. *)
Definition demo_calls : list call :=
  [CPut list_order 0 0 "a" 200 [] "x"; CGet "a" 1; CPut list_order 2 2 "a" 200 [] "y"; CGet "a" 3;
   CPut list_order 4 4 "b" 200 [] "z"; CGet "a" 5; CGet "b" 5; CGet "b" 14].

Lemma cache_refines_spec_witness :
  answers_ok 10 1 [] demo_calls (do_calls demo_calls (new 10 1)).1
  ∧ (do_calls demo_calls (new 10 1)).1 =
    [Ret None; Ret (Some (mkCached 200 [] "x" 10)); Ret None; Ret (Some (mkCached 200 [] "y" 12));
     Ret None; Ret None; Ret (Some (mkCached 200 [] "z" 14)); Ret None].
Proof.
  split; [|by vm_compute]. apply (cache_refines_spec 10 1).
  - unfold demo_calls. simpl. repeat constructor; lia.
  - unfold demo_calls. repeat constructor; apply list_order_ok.
Defined.

End CacheSpec.
