(* ===== verification/Http.v ===== *)
(** The interface of the [http] crate the gateway's code is written against.

    The crate is not part of the repository: [Http] lists the operations the code
    calls and [HttpLaws] the documented behaviour it relies on.  A status code is
    represented by its number.  [Assoc] is one implementation of the interface, on
    which statements about the gateway can be evaluated. *)
From S2P Require Import Prelude RustStd.

Class Http := {
  HeaderName : Type;
  HeaderValue : Type;
  HeaderMap : Type;
  #[global] HeaderName_eq_dec :: EqDecision HeaderName;
  HeaderName_from_bytes : string → option HeaderName;
  HeaderName_from_static : string → HeaderName;
  HeaderName_as_str : HeaderName → string;
  HeaderValue_from_str : string → option HeaderValue;
  HeaderValue_to_str : HeaderValue → option string;
  HeaderMap_new : HeaderMap;
  HeaderMap_get_all : HeaderMap → HeaderName → list HeaderValue;
  HeaderMap_append : HeaderMap → HeaderName → HeaderValue → HeaderMap;
  HeaderMap_insert : HeaderMap → HeaderName → HeaderValue → HeaderMap;
  HeaderMap_remove : HeaderMap → HeaderName → HeaderMap;
  HeaderMap_iter : HeaderMap → list (HeaderName * HeaderValue);
  StatusCode_from_u16 : Z → option Z;
  StatusCode_is_server_error : Z → bool;
  StatusCode_is_success : Z → bool;
  StatusCode_as_str : Z → string;
}.

(** [headers.get(name)] with the name as text: [None] when it is not a name. *)
Definition get_all_str `{Http} (h : HeaderMap) (name : string) : list HeaderValue :=
  match HeaderName_from_bytes name with
  | Some n => HeaderMap_get_all h n
  | None => []
  end.
Definition HeaderMap_get `{Http} (h : HeaderMap) (name : string) : option HeaderValue :=
  head (get_all_str h name).

(** [headers.get(name).and_then(|v| v.to_str().ok())] *)
Definition get_str `{Http} (h : HeaderMap) (name : string) : option string :=
  HeaderMap_get h name ≫= HeaderValue_to_str.

(** The characters [to_str] admits. *)
Definition visible_char (a : Ascii.ascii) : bool :=
  let n := Ascii.nat_of_ascii a in (Nat.leb 32 n && Nat.ltb n 127) || Nat.eqb n 9.
Fixpoint string_all (f : Ascii.ascii → bool) (s : string) : bool :=
  match s with EmptyString => true | String a s => f a && string_all f s end.
Definition visible (s : string) : bool := string_all visible_char s.

(** The shape of the header names written in the code. *)
Definition name_char (a : Ascii.ascii) : bool :=
  let n := Ascii.nat_of_ascii a in
  (Nat.leb 97 n && Nat.leb n 122) || (Nat.leb 48 n && Nat.leb n 57) || Nat.eqb n 45.
Definition plain_name (s : string) : bool := negb (is_empty s) && string_all name_char s.

Class HttpLaws `{Http} : Prop := {
  name_plain s : plain_name s = true →
    HeaderName_from_bytes s = Some (HeaderName_from_static s);
  name_lower s n : HeaderName_from_bytes s = Some n →
    HeaderName_as_str n = to_ascii_lowercase s;
  name_again n : HeaderName_from_bytes (HeaderName_as_str n) = Some n;
  value_visible s : visible s = true → is_Some (HeaderValue_from_str s);
  value_text s v : HeaderValue_from_str s = Some v →
    HeaderValue_to_str v = if visible s then Some s else None;
  to_str_visible v s : HeaderValue_to_str v = Some s → visible s = true;
  get_all_new n : HeaderMap_get_all HeaderMap_new n = [];
  get_all_append h n v m :
    HeaderMap_get_all (HeaderMap_append h n v) m =
    HeaderMap_get_all h m ++ (if decide (n = m) then [v] else []);
  get_all_insert h n v m :
    HeaderMap_get_all (HeaderMap_insert h n v) m =
    if decide (n = m) then [v] else HeaderMap_get_all h m;
  get_all_remove h n m :
    HeaderMap_get_all (HeaderMap_remove h n) m =
    if decide (n = m) then [] else HeaderMap_get_all h m;
  iter_get_all h n :
    (filter (λ kv, kv.1 = n) (HeaderMap_iter h)).*2 = HeaderMap_get_all h n;
  from_u16_spec s : StatusCode_from_u16 s =
    if (100 <=? s)%Z && (s <=? 999)%Z then Some s else None;
  is_server_error_spec s : StatusCode_is_server_error s = (500 <=? s)%Z && (s <=? 599)%Z;
  is_success_spec s : StatusCode_is_success s = (200 <=? s)%Z && (s <=? 299)%Z;
}.

#[export] Hint Rewrite @get_all_new @get_all_append @get_all_insert @get_all_remove : gw.

(** Numbers are rendered as visible text. *)
Lemma pretty_N_go_visible x s : visible s = true → visible (pretty_N_go x s) = true.
Proof.
  revert s. induction (N.lt_wf_0 x) as [x _ IH]; intros s Hs.
  destruct (decide (x = 0%N)) as [->|Hx]; [done|].
  rewrite pretty_N_go_step by lia. apply IH; [apply N.div_lt; lia|].
  unfold visible in *. simpl. rewrite Hs, andb_true_r.
  unfold pretty_N_char. by repeat case_match.
Qed.

Lemma u_to_string_visible n : visible (u_to_string n) = true.
Proof.
  assert (Hp : ∀ p, visible (pretty (N.pos p)) = true).
  { intros p. unfold pretty, pretty_N. case_decide; [done|]. by apply pretty_N_go_visible. }
  unfold u_to_string. destruct n as [|p|p]; [done|apply Hp|].
  change (visible ("-" +:+ pretty (N.pos p)) = true). rewrite append_cons. apply Hp.
Qed.

(** Facts about names, values and [get_str]. *)
Section laws.
Context `{HttpLaws}.

Lemma as_str_inj n m : HeaderName_as_str n = HeaderName_as_str m → n = m.
Proof.
  intros Heq. pose proof (name_again n) as Hn. rewrite Heq, name_again in Hn. congruence.
Qed.

Lemma as_str_static s :
  plain_name s = true → HeaderName_as_str (HeaderName_from_static s) = to_ascii_lowercase s.
Proof. intros Hs. by apply name_lower, name_plain. Qed.

(** Two names written in the code are the same name only when they are the same
    text. *)
Lemma static_eq s t :
  plain_name s = true → plain_name t = true →
  HeaderName_from_static s = HeaderName_from_static t →
  to_ascii_lowercase s = to_ascii_lowercase t.
Proof. intros Hs Ht Heq. rewrite <- !as_str_static by done. by rewrite Heq. Qed.

Lemma get_str_insert h n v s m :
  HeaderName_from_bytes s = Some m →
  get_str (HeaderMap_insert h n v) s =
  if decide (n = m) then HeaderValue_to_str v else get_str h s.
Proof.
  intros Hm. unfold get_str, HeaderMap_get, get_all_str. rewrite Hm, get_all_insert.
  by case_decide.
Qed.

Lemma visible_append a b : visible (a +:+ b) = visible a && visible b.
Proof.
  unfold visible. induction a as [|x a IH]; [done|]. rewrite append_cons. simpl.
  by rewrite IH, andb_assoc.
Qed.

Lemma value_of_visible s :
  visible s = true →
  ∃ v, HeaderValue_from_str s = Some v ∧ HeaderValue_to_str v = Some s.
Proof.
  intros Hs. destruct (value_visible s Hs) as [v Hv]. exists v.
  split; [done|]. by rewrite (value_text s v Hv), Hs.
Qed.

Lemma get_str_visible h n s : get_str h n = Some s → visible s = true.
Proof. unfold get_str. intros (v & _ & Hv)%bind_Some. by eapply to_str_visible. Qed.

Lemma get_all_plain h s :
  plain_name s = true →
  get_all_str h s = HeaderMap_get_all h (HeaderName_from_static s).
Proof. intros Hs. unfold get_all_str. by rewrite name_plain. Qed.
End laws.

(** Two header maps are equivalent when every name has the same values: what a
    reader by name can tell. *)
Section equiv.
Context `{HttpLaws}.

#[global] Instance headers_equiv : Equiv HeaderMap :=
  λ h h', ∀ n, HeaderMap_get_all h n = HeaderMap_get_all h' n.

#[global] Instance headers_equivalence : Equivalence (≡@{HeaderMap}).
Proof.
  split.
  - by intros h n.
  - by intros h h' Heq n.
  - intros h1 h2 h3 H12 H23 n. by rewrite H12, H23.
Qed.

#[global] Instance get_all_proper :
  Proper ((≡) ==> (=) ==> (=)) HeaderMap_get_all.
Proof. intros h h' Heq n ? <-. apply Heq. Qed.

#[global] Instance insert_proper :
  Proper ((≡) ==> (=) ==> (=) ==> (≡)) HeaderMap_insert.
Proof. intros h h' Heq n ? <- v ? <- m. rewrite !get_all_insert. by case_decide. Qed.

#[global] Instance remove_proper : Proper ((≡) ==> (=) ==> (≡)) HeaderMap_remove.
Proof. intros h h' Heq n ? <- m. rewrite !get_all_remove. by case_decide. Qed.

#[global] Instance get_str_proper : Proper ((≡) ==> (=) ==> (=)) get_str.
Proof.
  intros h h' Heq s ? <-. unfold get_str, HeaderMap_get, get_all_str.
  destruct (HeaderName_from_bytes s); [|done]. by rewrite (Heq h0).
Qed.
End equiv.

(** ** One implementation of the interface *)

Module Assoc.
Definition token_char (a : Ascii.ascii) : bool :=
  let n := Ascii.nat_of_ascii a in
  name_char a || (Nat.leb 65 n && Nat.leb n 90) || Nat.eqb n 95.

Definition name_text (s : string) : option string :=
  if negb (is_empty s) && string_all token_char s
  then Some (to_ascii_lowercase s) else None.

(** A name is a text that is its own canonical text. *)
Definition name : Type := dsig (λ s, name_text s = Some s).

Definition to_name (s : string) : option name :=
  match decide (name_text (to_ascii_lowercase s) = Some (to_ascii_lowercase s)) with
  | left Hs => if is_some (name_text s) then Some (dexist _ Hs) else None
  | right _ => None
  end.

Definition x_name : name := dexist "x" eq_refl.

Definition value_from_str (s : string) : option string :=
  if visible s then Some s else None.
Definition value_to_str (v : string) : option string :=
  if visible v then Some v else None.

Abbreviation headers := (list (name * string)).
Definition get_all (h : headers) (n : name) : list string :=
  (filter (λ kv, kv.1 = n) h).*2.
Definition remove (h : headers) (n : name) : headers := filter (λ kv, kv.1 ≠ n) h.

#[global] Instance http : Http := {|
  HeaderName := name;
  HeaderValue := string;
  HeaderMap := headers;
  HeaderName_from_bytes := to_name;
  HeaderName_from_static := λ s, default x_name (to_name s);
  HeaderName_as_str := proj1_sig;
  HeaderValue_from_str := value_from_str;
  HeaderValue_to_str := value_to_str;
  HeaderMap_new := [];
  HeaderMap_get_all := get_all;
  HeaderMap_append := λ h n v, h ++ [(n, v)];
  HeaderMap_insert := λ h n v, remove h n ++ [(n, v)];
  HeaderMap_remove := remove;
  HeaderMap_iter := λ h, h;
  StatusCode_from_u16 := λ s, if (100 <=? s)%Z && (s <=? 999)%Z then Some s else None;
  StatusCode_is_server_error := λ s, (500 <=? s)%Z && (s <=? 599)%Z;
  StatusCode_is_success := λ s, (200 <=? s)%Z && (s <=? 299)%Z;
  StatusCode_as_str := u_to_string;
|}.

Lemma lower_lower s : to_ascii_lowercase (to_ascii_lowercase s) = to_ascii_lowercase s.
Proof.
  induction s as [|a s IH]; [done|]. simpl. rewrite IH. f_equal.
  destruct a as [[] [] [] [] [] [] [] []]; by vm_compute.
Qed.

Lemma lower_token s :
  string_all token_char s = true → string_all token_char (to_ascii_lowercase s) = true.
Proof.
  induction s as [|a s IH]; [done|]. simpl. intros [Ha Hs]%andb_true_iff.
  rewrite (IH Hs), andb_true_r. revert Ha.
  destruct a as [[] [] [] [] [] [] [] []]; by vm_compute.
Qed.

Lemma plain_lower s : string_all name_char s = true → to_ascii_lowercase s = s.
Proof.
  induction s as [|a s IH]; [done|]. simpl. intros [Ha Hs]%andb_true_iff.
  rewrite (IH Hs). f_equal. revert Ha.
  destruct a as [[] [] [] [] [] [] [] []]; by vm_compute.
Qed.

Lemma name_text_lower s :
  is_some (name_text s) = true →
  name_text (to_ascii_lowercase s) = Some (to_ascii_lowercase s).
Proof.
  unfold name_text. destruct (negb (is_empty s) && string_all token_char s) eqn:Ec; [|done].
  apply andb_true_iff in Ec as [He Ht]. intros _. rewrite lower_token by done.
  rewrite lower_lower. by destruct s.
Qed.

Lemma to_name_Some s n : to_name s = Some n → `n = to_ascii_lowercase s.
Proof.
  unfold to_name. case_decide; [|done]. case_match; [|done]. by intros [= <-].
Qed.

Lemma get_all_app h k n : get_all (h ++ k) n = get_all h n ++ get_all k n.
Proof. unfold get_all. by rewrite filter_app, fmap_app. Qed.

Lemma get_all_remove_eq h n m :
  get_all (remove h n) m = if decide (n = m) then [] else get_all h m.
Proof.
  unfold get_all, remove. rewrite list_filter_filter. case_decide as Hnm.
  - subst. rewrite filter_none; [done|]. apply Forall_forall. naive_solver.
  - f_equal. apply list_filter_iff. naive_solver.
Qed.

#[global] Instance http_laws : HttpLaws.
Proof.
  split; simpl.
  - intros s [He Hs]%andb_true_iff. assert (is_some (name_text s) = true) as Hn.
    { unfold name_text. rewrite He. simpl.
      assert (string_all token_char s = true) as ->; [|done].
      clear He. induction s as [|a s IH]; [done|]. simpl in *.
      apply andb_true_iff in Hs as [Ha Hs]. rewrite IH by done.
      unfold token_char. by rewrite Ha. }
    unfold to_name. case_decide as Hd; [|by apply name_text_lower in Hn].
    by rewrite Hn.
  - intros s n Hn. by apply to_name_Some.
  - intros [s Hs]. unfold to_name. simpl.
    pose proof (proj1 (bool_decide_spec _) Hs) as Hn.
    assert (to_ascii_lowercase s = s) as Hl.
    { unfold name_text in Hn. case_match; congruence. }
    case_decide as Hd; [|by rewrite Hl in Hd]. rewrite Hn. f_equal.
    apply dsig_eq. simpl. done.
  - intros s Hs. unfold value_from_str. rewrite Hs. eauto.
  - intros s v. unfold value_from_str, value_to_str. case_match; [|done].
    intros [= <-]. by case_match.
  - intros v s. unfold value_to_str. case_match; [|done]. by intros [= <-].
  - done.
  - intros h n v m. rewrite get_all_app. f_equal. unfold get_all.
    rewrite filter_cons. simpl. by case_decide.
  - intros h n v m. rewrite get_all_app, get_all_remove_eq. unfold get_all.
    rewrite filter_cons. simpl. case_decide; [done|]. by rewrite app_nil_r.
  - apply get_all_remove_eq.
  - done.
  - done.
  - done.
  - done.
Qed.
End Assoc.
