(* ===== verification/Auth.v ===== *)
(** Per-route authentication: src/crates/gateway/src/auth.rs.

    JWT decoding and JSON numbers belong to libraries: [JwtLib] is their
    interface.  The configured claims are the association list of Config.v. *)
From S2P Require Import Prelude RustStd Config Http.
Import Config.

Module Auth.

#[local] Set Warnings "-register-all".

(** [serde_json::Value], over its type of numbers. *)
Inductive Value (Number : Type) : Type :=
| VNull
| VBool (b : bool)
| VNumber (n : Number)
| VString (s : string)
| VArray (vs : list (Value Number))
| VObject (fields : list (string * Value Number)).
Arguments VNull {Number}.
Arguments VBool {Number} b.
Arguments VNumber {Number} n.
Arguments VString {Number} s.
Arguments VArray {Number} vs.
Arguments VObject {Number} fields.

Inductive Algorithm : Type := HS256 | OtherAlgorithm.

(** The fields of [jsonwebtoken::Validation] the code sets. *)
Record Validation := mkValidation {
  algorithm : Algorithm;
  validate_exp : bool;
  validate_aud : bool;
}.

Class JwtLib := {
  Number : Type;
  Number_to_string : Number → string;
  (** [decode(token, DecodingKey::from_secret(secret), validation)]: the claims of
      a token it accepts. *)
  decode : string → string → Validation → option (gmap string (Value Number));
}.

(** The second half of [extract_api_key]: the Authorization header. *)
Definition authorization_key `{Http} (headers : HeaderMap) : option string :=
  auth ← get_str headers "authorization";
  let key := trim (default auth (strip_prefix "Bearer " auth)) in
  if negb (is_empty key) then Some key else None.

Definition extract_api_key `{Http} (headers : HeaderMap) : option string :=
  match get_str headers "x-api-key" with
  | Some v => if negb (is_empty v) then Some v else authorization_key headers
  | None => authorization_key headers
  end.

Definition bearer_token `{Http} (headers : HeaderMap) : option string :=
  auth ← get_str headers "authorization";
  t ← strip_prefix "Bearer " auth;
  let t := trim t in
  if negb (is_empty t) then Some t else None.

Section auth.
Context `{Http, JwtLib}.

Definition value_as_string (v : Value Number) : option string :=
  match v with
  | VString s => Some s
  | VNumber n => Some (Number_to_string n)
  | VBool b => Some (if b then "true" else "false")
  | _ => None
  end.

Definition jwt_validation : Validation :=
  {| algorithm := HS256; validate_exp := true; validate_aud := false |}.

(** The loop over the required claims. *)
Fixpoint check_claims (claims : gmap string (Value Number))
    (required : list (string * string)) : Result string unit :=
  match required with
  | [] => Ok ()
  | (k, want) :: required =>
      let got := claims !! k ≫= value_as_string in
      if decide (got = Some want) then check_claims claims required
      else Err "required claim not satisfied"
  end.

Definition validate_jwt (headers : HeaderMap) (secret : string)
    (required : list (string * string)) : Result string unit :=
  token ← ok_or (bearer_token headers) "missing bearer token";
  claims ← ok_or (decode token secret jwt_validation) "invalid or expired token";
  check_claims claims required.

Definition authorize (policy : AuthPolicy) (headers : HeaderMap)
    : Result string unit :=
  match policy with
  | AuthNone => Ok ()
  | ApiKey keys =>
      presented ← ok_or (extract_api_key headers) "missing API key";
      if existsb (String.eqb presented) keys then Ok () else Err "invalid API key"
  | Jwt secret required => validate_jwt headers secret required
  end.

(** ** Specification *)

(** The credential a request presents as an API key. *)
Definition presents (headers : HeaderMap) (key : string) : Prop :=
  key ≠ EmptyString ∧
  (get_str headers "x-api-key" = Some key
   ∨ (get_str headers "x-api-key" = None
      ∨ get_str headers "x-api-key" = Some EmptyString)
     ∧ ∃ auth, get_str headers "authorization" = Some auth
       ∧ ((∃ rest, auth = ("Bearer " +:+ rest)%string ∧ key = trim rest)
          ∨ (∀ rest, auth ≠ ("Bearer " +:+ rest)%string) ∧ key = trim auth)).

Definition claim_holds (claims : gmap string (Value Number)) (kv : string * string) : Prop :=
  ∃ v, claims !! kv.1 = Some v ∧ value_as_string v = Some kv.2.

(** ** Lemmas *)

Lemma check_claims_ok claims required :
  check_claims claims required = Ok () ↔ Forall (claim_holds claims) required.
Proof.
  induction required as [|[k want] required IH]; simpl; [done|].
  rewrite Forall_cons, <- IH. unfold claim_holds; simpl.
  case_decide as Hd.
  - apply bind_Some in Hd. naive_solver.
  - split; [done|]. intros [(v & Hk & Hv) _]. rewrite Hk in Hd. by simpl in Hd.
Qed.

Lemma check_claims_err claims required e :
  check_claims claims required = Err e → e = "required claim not satisfied".
Proof.
  induction required as [|[k want] required IH]; simpl; [done|].
  case_decide; [done|]. by intros [= <-].
Qed.

Lemma strip_prefix_None p s :
  strip_prefix p s = None → ∀ rest, s ≠ (p +:+ rest)%string.
Proof. intros Hs rest Hr%strip_prefix_Some. congruence. Qed.

Lemma authorization_key_presents headers key :
  authorization_key headers = Some key ↔
  key ≠ EmptyString ∧
  ∃ auth, get_str headers "authorization" = Some auth
    ∧ ((∃ rest, auth = ("Bearer " +:+ rest)%string ∧ key = trim rest)
       ∨ (∀ rest, auth ≠ ("Bearer " +:+ rest)%string) ∧ key = trim auth).
Proof.
  unfold authorization_key. rewrite bind_Some. split.
  - intros (auth & Hauth & Hk).
    destruct (strip_prefix "Bearer " auth) as [rest|] eqn:Es; simpl in Hk.
    + apply strip_prefix_Some in Es. destruct (is_empty (trim rest)) eqn:Ee; [done|].
      apply is_empty_false in Ee. injection Hk as <-. split; [done|].
      exists auth. split; [done|]. left. by exists rest.
    + destruct (is_empty (trim auth)) eqn:Ee; [done|].
      apply is_empty_false in Ee. injection Hk as <-. split; [done|].
      exists auth. split; [done|]. right. split; [by apply strip_prefix_None|done].
  - intros (Hne & auth & Hauth & Hk). exists auth. split; [done|].
    assert (trim (default auth (strip_prefix "Bearer " auth)) = key) as ->.
    { destruct Hk as [(rest & -> & ->)|[Hno ->]].
      - by rewrite (proj2 (strip_prefix_Some _ _ rest) eq_refl).
      - destruct (strip_prefix "Bearer " auth) as [rest|] eqn:Es; [|done].
        apply strip_prefix_Some in Es. by apply Hno in Es. }
    by rewrite (proj2 (is_empty_false key) Hne).
Qed.

Lemma extract_api_key_presents headers key :
  extract_api_key headers = Some key ↔ presents headers key.
Proof.
  unfold extract_api_key, presents.
  destruct (get_str headers "x-api-key") as [v|].
  - destruct (is_empty v) eqn:Ee; simpl.
    + apply is_empty_true in Ee as ->. rewrite authorization_key_presents.
      split; [intros [? ?]; split; eauto|].
      intros [Hne [[= <-]|[_ Hauth]]]; [done|by split].
    + apply is_empty_false in Ee. split; [intros [= <-]; split; auto|].
      intros [Hne [[= ->]|[[?|[= ->]] _]]]; done.
  - rewrite authorization_key_presents.
    split; [intros [? ?]; split; eauto|].
    intros [Hne [?|[_ Hauth]]]; [done|by split].
Qed.
End auth.

(** ** Properties *)

(** C37: an API-key route admits exactly the requests that present one of its
    keys: the value of X-API-Key, or, when that is absent or empty, the trimmed
    Authorization value with an optional bearer scheme.  The error tells a request
    that presents nothing from one that presents a wrong key. *)
Theorem api_key_authorize `{Http, JwtLib} keys headers :
  match authorize (ApiKey keys) headers with
  | Ok _ => ∃ key, presents headers key ∧ key ∈ keys
  | Err e =>
      (e = "missing API key" ∧ ∀ key, ¬ presents headers key)
      ∨ (e = "invalid API key" ∧ ∃ key, presents headers key ∧ key ∉ keys)
  end.
Proof.
  simpl. destruct (extract_api_key headers) as [key|] eqn:Ek; simpl.
  - apply extract_api_key_presents in Ek.
    destruct (existsb (String.eqb key) keys) eqn:Ex.
    + apply existsb_elem_of in Ex as (k & Hk & ->%String.eqb_eq). eauto.
    + right. split; [done|]. exists key. split; [done|]. intros Hin.
      apply Forall_existsb_false in Ex. rewrite Forall_forall in Ex.
      specialize (Ex _ Hin). simpl in Ex. by rewrite String.eqb_refl in Ex.
  - left. split; [done|]. intros key Hp%extract_api_key_presents. congruence.
Qed.

(** C38: a JWT route admits exactly the requests whose bearer token decodes under
    the route's secret, as HS256 with the expiry checked, to claims that hold each
    required claim with the required value, in any order of the claims. *)
Theorem jwt_authorize `{Http, JwtLib} secret required headers :
  authorize (Jwt secret required) headers = Ok () ↔
  ∃ raw claims,
    get_str headers "authorization" = Some ("Bearer " +:+ raw)%string
    ∧ trim raw ≠ EmptyString
    ∧ decode (trim raw) secret (mkValidation HS256 true false) = Some claims
    ∧ ∀ k want, (k, want) ∈ required →
        ∃ v, claims !! k = Some v ∧ value_as_string v = Some want.
Proof.
  simpl. unfold validate_jwt, bearer_token. fold jwt_validation.
  destruct (get_str headers "authorization") as [auth|] eqn:Ea; simpl; [|naive_solver].
  destruct (strip_prefix "Bearer " auth) as [raw|] eqn:Es; simpl.
  2: { split; [done|]. intros (raw & claims & [= ->] & _).
       by eapply strip_prefix_None in Es. }
  apply strip_prefix_Some in Es as ->.
  assert (Hraw : ∀ raw', Some ("Bearer " +:+ raw)%string = Some ("Bearer " +:+ raw')%string →
            raw' = raw).
  { intros raw' Hr. injection Hr. done. }
  destruct (is_empty (trim raw)) eqn:Ee; simpl.
  { apply is_empty_true in Ee. split; [done|].
    intros (raw' & claims & ->%Hraw & Hne & _). congruence. }
  apply is_empty_false in Ee. unfold jwt_validation.
  destruct (decode (trim raw) secret _) as [claims|] eqn:Ed; simpl.
  2: { split; [done|]. intros (raw' & claims & ->%Hraw & _ & Hd & _). congruence. }
  rewrite check_claims_ok, Forall_forall. split.
  - intros Hall. exists raw, claims. split_and!; [done..|].
    intros k want Hin. by apply (Hall (k, want)).
  - intros (raw' & claims' & ->%Hraw & _ & Hd & Hall) [k want] Hin.
    assert (claims' = claims) as -> by congruence. by apply Hall.
Qed.

End Auth.
