(* ===== verification/Transform.v ===== *)
(** Header handling: src/crates/gateway/src/transform.rs. *)
From S2P Require Import Prelude RustStd Config Http.
Import Config.

Module Transform.

Definition HOP_BY_HOP : list string :=
  ["connection"; "keep-alive"; "proxy-authenticate"; "proxy-authorization"; "te";
   "trailer"; "transfer-encoding"; "upgrade"; "host"; "content-length"].

Definition is_hop_by_hop (name : string) : bool :=
  existsb (λ h, eq_ignore_ascii_case name h) HOP_BY_HOP.

Section transform.
Context `{Http}.

(** The loop that copies the end-to-end headers. *)
Definition copy_end_to_end (incoming : HeaderMap) : HeaderMap :=
  foldl (λ out '(name, value),
           if negb (is_hop_by_hop (HeaderName_as_str name))
           then HeaderMap_append out name value else out)
    HeaderMap_new (HeaderMap_iter incoming).

Definition set (headers : HeaderMap) (name value : string) : HeaderMap :=
  match HeaderValue_from_str value with
  | Some v => HeaderMap_insert headers (HeaderName_from_static name) v
  | None => headers
  end.

Definition forwarded_request_headers (incoming : HeaderMap)
    (client_ip host scheme : string) : HeaderMap :=
  let out := copy_end_to_end incoming in
  let xff := match get_str incoming "x-forwarded-for" with
             | Some existing => (existing +:+ ", " +:+ client_ip)%string
             | None => client_ip
             end in
  let out := set out "x-forwarded-for" xff in
  let out := set out "x-real-ip" client_ip in
  let out := set out "x-forwarded-host" host in
  set out "x-forwarded-proto" scheme.

Definition filtered_response_headers (incoming : HeaderMap) : HeaderMap :=
  copy_end_to_end incoming.

Definition remove_one (headers : HeaderMap) (name : string) : HeaderMap :=
  match HeaderName_from_bytes name with
  | Some h => HeaderMap_remove headers h
  | None => headers
  end.

Definition add_one (headers : HeaderMap) (nv : string * string) : HeaderMap :=
  match HeaderName_from_bytes nv.1, HeaderValue_from_str nv.2 with
  | Some h, Some v => HeaderMap_insert headers h v
  | _, _ => headers
  end.

Definition apply_transforms (headers : HeaderMap) (t : HeaderTransforms) : HeaderMap :=
  foldl add_one (foldl remove_one headers (ht_remove t)) (ht_add t).
End transform.

(** ** Specification *)
Section spec.
Context `{Http}.

(** [t] sets the name [n] to the value [v]. *)
Definition adds (t : HeaderTransforms) (n : HeaderName) (v : HeaderValue) : Prop :=
  ∃ nv, nv ∈ ht_add t ∧ HeaderName_from_bytes nv.1 = Some n
        ∧ HeaderValue_from_str nv.2 = Some v.

Definition removes (t : HeaderTransforms) (n : HeaderName) : Prop :=
  Some n ∈ HeaderName_from_bytes <$> ht_remove t.

#[global] Instance removes_dec t n : Decision (removes t n).
Proof. unfold removes. apply _. Defined.

(** The four headers the gateway sets itself. *)
Definition forwarding_names : list string :=
  ["x-forwarded-for"; "x-real-ip"; "x-forwarded-host"; "x-forwarded-proto"].
End spec.

(** ** Lemmas *)
Section lemmas.
Context `{HttpLaws}.

Lemma copy_loop l out n :
  HeaderMap_get_all
    (foldl (λ out '(name, value),
              if negb (is_hop_by_hop (HeaderName_as_str name))
              then HeaderMap_append out name value else out) out l) n =
  HeaderMap_get_all out n ++
    (if is_hop_by_hop (HeaderName_as_str n) then []
     else (filter (λ kv, kv.1 = n) l).*2).
Proof.
  revert out. induction l as [|[m v] l IH]; intros out; simpl.
  { by case_match; rewrite app_nil_r. }
  rewrite IH. clear IH. rewrite filter_cons. simpl.
  destruct (decide (m = n)) as [->|Hne].
  - destruct (is_hop_by_hop (HeaderName_as_str n)); simpl; [done|].
    rewrite get_all_append, decide_True by done. by rewrite <- app_assoc.
  - f_equal. case_match; simpl; [|done].
    by rewrite get_all_append, decide_False, app_nil_r.
Qed.

Lemma copy_end_to_end_spec h n :
  HeaderMap_get_all (copy_end_to_end h) n =
  if is_hop_by_hop (HeaderName_as_str n) then [] else HeaderMap_get_all h n.
Proof.
  unfold copy_end_to_end. rewrite copy_loop, get_all_new, iter_get_all. done.
Qed.

Lemma get_all_set h name value n :
  plain_name name = true →
  HeaderMap_get_all (set h name value) n =
  match HeaderValue_from_str value with
  | Some v => if decide (HeaderName_from_static name = n) then [v]
              else HeaderMap_get_all h n
  | None => HeaderMap_get_all h n
  end.
Proof.
  intros Hp. unfold set. case_match; [|done]. by rewrite get_all_insert.
Qed.

Lemma get_str_set_eq h name value :
  plain_name name = true → visible value = true →
  get_str (set h name value) name = Some value.
Proof.
  intros Hp Hv. destruct (value_of_visible value Hv) as (v & Hfrom & Hto).
  unfold set. rewrite Hfrom.
  rewrite (get_str_insert _ _ _ _ (HeaderName_from_static name)) by by apply name_plain.
  by rewrite decide_True.
Qed.

Lemma get_str_set_ne h name value name' :
  plain_name name = true → plain_name name' = true →
  to_ascii_lowercase name ≠ to_ascii_lowercase name' →
  get_str (set h name value) name' = get_str h name'.
Proof.
  intros Hp Hp' Hne. unfold set. case_match; [|done].
  rewrite (get_str_insert _ _ _ _ (HeaderName_from_static name')) by by apply name_plain.
  rewrite decide_False; [done|]. intros Heq. by apply Hne, static_eq.
Qed.

Lemma get_all_removes h ns n :
  HeaderMap_get_all (foldl remove_one h ns) n =
  if decide (Some n ∈ HeaderName_from_bytes <$> ns) then [] else HeaderMap_get_all h n.
Proof.
  revert h. induction ns as [|name ns IH]; intros h; [done|].
  simpl foldl. rewrite IH. clear IH. unfold remove_one.
  rewrite fmap_cons. destruct (HeaderName_from_bytes name) as [m|].
  - rewrite get_all_remove. repeat case_decide; set_solver.
  - repeat case_decide; set_solver.
Qed.

(** The value the additions leave on a name: that of the last matching one. *)
Definition last_added (n : HeaderName) (nvs : list (string * string)) : option HeaderValue :=
  foldl (λ acc nv,
           match HeaderName_from_bytes nv.1, HeaderValue_from_str nv.2 with
           | Some m, Some v => if decide (m = n) then Some v else acc
           | _, _ => acc
           end) None nvs.

Lemma get_all_adds h nvs n :
  HeaderMap_get_all (foldl add_one h nvs) n =
  match last_added n nvs with Some v => [v] | None => HeaderMap_get_all h n end.
Proof.
  unfold last_added. induction nvs as [|nv nvs IH] using rev_ind; [done|].
  rewrite !foldl_app. simpl. unfold add_one at 1.
  destruct (HeaderName_from_bytes nv.1); [|done].
  destruct (HeaderValue_from_str nv.2); [|done].
  rewrite get_all_insert. by case_decide.
Qed.

Lemma last_added_spec n nvs :
  match last_added n nvs with
  | Some v => ∃ nv, nv ∈ nvs ∧ HeaderName_from_bytes nv.1 = Some n
                    ∧ HeaderValue_from_str nv.2 = Some v
  | None => ∀ nv v, nv ∈ nvs → HeaderName_from_bytes nv.1 = Some n →
              HeaderValue_from_str nv.2 ≠ Some v
  end.
Proof.
  unfold last_added. induction nvs as [|nv nvs IH] using rev_ind.
  { simpl. set_solver. }
  rewrite foldl_app. simpl.
  destruct (HeaderName_from_bytes nv.1) as [m|] eqn:Em;
    [destruct (HeaderValue_from_str nv.2) as [v|] eqn:Ev;
      [case_decide; [subst m; exists nv; set_solver|]|]|].
  all: case_match; [destruct IH as (nv' & ? & ? & ?); exists nv'; set_solver|].
  all: intros nv' v' [Hin| ->%list_elem_of_singleton]%elem_of_app Hn; [by eapply IH|congruence].
Qed.

Lemma get_all_transforms h t n :
  HeaderMap_get_all (apply_transforms h t) n =
  match last_added n (ht_add t) with
  | Some v => [v]
  | None => if decide (removes t n) then [] else HeaderMap_get_all h n
  end.
Proof. unfold apply_transforms, removes. by rewrite get_all_adds, get_all_removes. Qed.

(** The names the gateway sets itself are end-to-end names. *)
Lemma forwarding_end_to_end n :
  n ∈ HeaderName_from_static <$> forwarding_names →
  is_hop_by_hop (HeaderName_as_str n) = false.
Proof.
  intros Hin. apply list_elem_of_fmap in Hin as (s & -> & Hs).
  assert (Hf : Forall (λ s, plain_name s = true
                        ∧ is_hop_by_hop (to_ascii_lowercase s) = false) forwarding_names).
  { repeat constructor. }
  rewrite Forall_forall in Hf. destruct (Hf _ Hs) as [Hp Hh]. by rewrite as_str_static.
Qed.

Lemma forwarded_other incoming client_ip host scheme n :
  n ∉ HeaderName_from_static <$> forwarding_names →
  HeaderMap_get_all (forwarded_request_headers incoming client_ip host scheme) n =
  if is_hop_by_hop (HeaderName_as_str n) then [] else HeaderMap_get_all incoming n.
Proof.
  intros Hn. unfold forwarded_request_headers. cbv zeta. rewrite !get_all_set by done.
  rewrite copy_end_to_end_spec. unfold forwarding_names in Hn. simpl in Hn.
  rewrite !not_elem_of_cons in Hn. destruct Hn as (? & ? & ? & ? & _).
  repeat case_match; congruence.
Qed.

#[global] Instance apply_transforms_proper :
  Proper ((≡) ==> (=) ==> (≡)) apply_transforms.
Proof.
  intros h h' Heq t ? <- n. rewrite !get_all_transforms. case_match; [done|].
  case_decide; [done|apply Heq].
Qed.
End lemmas.

(** ** Properties *)

(** C36: what is forwarded upstream: no hop-by-hop header (nor Host or
    Content-Length), every end-to-end header unchanged with all its values, the
    client's address appended to the X-Forwarded-For chain, and the client's
    address, host and scheme in the other forwarding headers. *)
Theorem forwarded_headers_spec `{HttpLaws} incoming client_ip host scheme :
  visible client_ip = true → visible host = true → visible scheme = true →
  let out := forwarded_request_headers incoming client_ip host scheme in
  (∀ n, is_hop_by_hop (HeaderName_as_str n) = true → HeaderMap_get_all out n = [])
  ∧ (∀ n, is_hop_by_hop (HeaderName_as_str n) = false →
        n ∉ HeaderName_from_static <$> forwarding_names →
        HeaderMap_get_all out n = HeaderMap_get_all incoming n)
  ∧ get_str out "x-forwarded-for" =
      Some (match get_str incoming "x-forwarded-for" with
            | Some chain => chain +:+ ", " +:+ client_ip
            | None => client_ip
            end)%string
  ∧ get_str out "x-real-ip" = Some client_ip
  ∧ get_str out "x-forwarded-host" = Some host
  ∧ get_str out "x-forwarded-proto" = Some scheme.
Proof.
  intros Hip Hhost Hscheme out. split_and!.
  - intros n Hn. unfold out. rewrite forwarded_other; [by rewrite Hn|].
    intros Hin%forwarding_end_to_end. congruence.
  - intros n Hn Hnot. unfold out. by rewrite forwarded_other, Hn.
  - unfold out, forwarded_request_headers. cbv zeta. rewrite !get_str_set_ne by done.
    apply get_str_set_eq; [done|].
    destruct (get_str incoming "x-forwarded-for") as [chain|] eqn:E; [|done].
    apply get_str_visible in E. by rewrite !visible_append, E, Hip.
  - unfold out, forwarded_request_headers. cbv zeta. rewrite !get_str_set_ne by done.
    by apply get_str_set_eq.
  - unfold out, forwarded_request_headers. cbv zeta. rewrite !get_str_set_ne by done.
    by apply get_str_set_eq.
  - by apply get_str_set_eq.
Qed.

Definition demo_name (s : string) : Assoc.name := HeaderName_from_static s.

Definition demo_headers : list (Assoc.name * string) :=
  [(demo_name "connection", "keep-alive"); (demo_name "x-custom", "v");
   (demo_name "x-forwarded-for", "10.0.0.1")].

Lemma forwarded_headers_spec_witness :
  let out := forwarded_request_headers (H := Assoc.http) demo_headers "1.2.3.4" "h" "http" in
  HeaderMap_get_all out (demo_name "connection") = []
  ∧ HeaderMap_get_all out (demo_name "x-custom") = ["v"]
  ∧ get_str out "x-forwarded-for" = Some "10.0.0.1, 1.2.3.4".
Proof.
  destruct (forwarded_headers_spec (H := Assoc.http) demo_headers "1.2.3.4" "h" "http")
    as (Hhop & Hend & Hxff & _); [by vm_compute..|].
  intros out. split_and!.
  - apply Hhop. by vm_compute.
  - refine (eq_trans (Hend (demo_name "x-custom") _ _) _).
    + by vm_compute.
    + apply (bool_decide_eq_true _). by vm_compute.
    + by vm_compute.
  - refine (eq_trans Hxff _). by vm_compute.
Defined.

(** Configured transforms: a header that is added ends with exactly one
    value, that of an addition; a header that is removed and not added is gone;
    any other header is unchanged; and applying them again changes nothing (a
    cached response, transformed when stored, is transformed again on a hit). *)
Theorem transforms_spec `{HttpLaws} headers t :
  (∀ n v, adds t n v →
     ∃ v', adds t n v' ∧ HeaderMap_get_all (apply_transforms headers t) n = [v'])
  ∧ (∀ n, (∀ v, ¬ adds t n v) →
       HeaderMap_get_all (apply_transforms headers t) n =
       if decide (removes t n) then [] else HeaderMap_get_all headers n)
  ∧ apply_transforms (apply_transforms headers t) t ≡ apply_transforms headers t.
Proof.
  split_and!.
  - intros n v (nv & Hin & Hn & Hv). rewrite get_all_transforms.
    pose proof (last_added_spec n (ht_add t)) as Hl.
    destruct (last_added n (ht_add t)) as [v'|]; [|by eapply Hl in Hv].
    exists v'. by split.
  - intros n Hno. rewrite get_all_transforms.
    pose proof (last_added_spec n (ht_add t)) as Hl.
    destruct (last_added n (ht_add t)) as [v'|]; [|done].
    exfalso. by eapply Hno.
  - intros n. rewrite !get_all_transforms. case_match; [done|].
    by repeat case_decide.
Qed.

Lemma transforms_spec_witness :
  let t := {| ht_add := [("X-Add", "yes")]; ht_remove := ["X-Custom"] |} in
  HeaderMap_get_all (apply_transforms (H := Assoc.http) demo_headers t) (demo_name "x-custom") = [].
Proof.
  intros t.
  destruct (transforms_spec (H := Assoc.http) demo_headers t) as (_ & Hrem & _).
  refine (eq_trans (Hrem (demo_name "x-custom") _) _).
  - intros v (nv & Hin & Hn & _). apply list_elem_of_singleton in Hin as ->.
    apply (f_equal (fmap HeaderName_as_str)) in Hn. by vm_compute in Hn.
  - by vm_compute.
Defined.

End Transform.
