(* ===== verification/Balancer.v ===== *)
(** Load balancing over the upstreams of a route: src/crates/gateway/src/balancer.rs.

    A [Balancer] is the immutable part (shared by reference); [BalState] holds the
    atomics: the round-robin cursor and, per upstream, the active count, the
    health flag and the breaker.  The methods are effect trees over [BalState]:
    every atomic operation and every breaker section is one step, so that other
    requests and the health checks can interleave anywhere. *)
From S2P Require Import Prelude RustStd Prog Pool Config Breaker.
Import Config.

Module Balancer.

(** ** The code *)

Record Upstream := mkUpstream { url : string; weight : Z }.

Record UpstreamState := mkUpState {
  active : Z;
  healthy : bool;
  breaker : Breaker.CircuitBreaker;
}.

Record Balancer := mkBalancer {
  upstreams : list Upstream;
  strategy : Strategy;
  rr_order : list nat;
}.

Record BalState := mkBalState {
  rr_cursor : Z;
  ups : list UpstreamState;
}.

(** The two nested loops that expand the indices by weight. *)
Definition expand (us : list Upstream) : list nat :=
  concat (imap (λ i u, replicate (Z.to_nat (weight u)) i) us).

Definition new_upstream (u : UpstreamConfig) : Upstream := {|
  url := trim_end_matches "/"%char (uc_url u);
  weight := Z.max (uc_weight u) 1;
|}.

Definition new_upstate (route : RouteConfig) (u : UpstreamConfig) : UpstreamState := {|
  active := 0;
  healthy := true;
  breaker := Breaker.new (cb_failure_threshold (rc_circuit_breaker route))
                         (cb_open_secs (rc_circuit_breaker route));
|}.

Definition from_route (route : RouteConfig) : Balancer * BalState :=
  let us := new_upstream <$> rc_upstreams route in
  let order := expand us in
  let order := if is_nil order then [0] else order in
  ({| upstreams := us; strategy := rc_strategy route; rr_order := order |},
   {| rr_cursor := 0; ups := new_upstate route <$> rc_upstreams route |}).

(** Updates of one upstream's state. *)
Definition alter_up (i : nat) (f : UpstreamState → UpstreamState) (s : BalState) : BalState :=
  {| rr_cursor := rr_cursor s; ups := alter f i (ups s) |}.

Definition set_active (v : Z) (u : UpstreamState) : UpstreamState :=
  mkUpState v (healthy u) (breaker u).
Definition put_healthy (v : bool) (u : UpstreamState) : UpstreamState :=
  mkUpState (active u) v (breaker u).
Definition put_breaker (cb : Breaker.CircuitBreaker) (u : UpstreamState) : UpstreamState :=
  mkUpState (active u) (healthy u) cb.

Definition get_breaker (i : nat) (s : BalState) : option Breaker.CircuitBreaker :=
  breaker <$> ups s !! i.
Definition set_breaker (i : nat) (cb : Breaker.CircuitBreaker) (s : BalState) : BalState :=
  alter_up i (put_breaker cb) s.

(** [ActiveGuard::new] and its [Drop]. *)
Definition guard_new (i : nat) (s : BalState) : Outcome unit * BalState :=
  (Ret (), alter_up i (λ u, set_active (i64_wrap (active u + 1)) u) s).
Definition guard_drop (i : nat) (s : BalState) : BalState :=
  alter_up i (λ u, set_active (i64_wrap (active u - 1)) u) s.

Section methods.
Context {E : Type → Type} `{Clock E}.

(** Reading a field of [upstreams[i]]; indexing panics out of range. *)
Definition with_up {A} (i : nat) (f : UpstreamState → A) : prog E BalState A :=
  act (λ s, match ups s !! i with
            | Some u => (Ret (f u), s)
            | None => (Panic "index out of bounds", s)
            end).

Definition is_healthy (i : nat) : prog E BalState bool := with_up i healthy.
Definition get_active (i : nat) : prog E BalState Z := with_up i active.

Definition set_healthy (i : nat) (v : bool) : prog E BalState unit :=
  act (λ s, (Ret (), alter_up i (put_healthy v) s)).

Definition eligible (i : nat) : prog E BalState bool :=
  h ← is_healthy i;
  if h : bool then zoom (get_breaker i) (set_breaker i) Breaker.allow else mret false.

Definition fetch_add_cursor : prog E BalState Z :=
  act (λ s, (Ret (rr_cursor s),
             {| rr_cursor := usize_wrapping_add (rr_cursor s) 1; ups := ups s |})).

(** [.filter(not excluded && eligible)] on the upstreams, left to right. *)
Definition admits (exclude : list nat) (i : nat) : prog E BalState bool :=
  if bool_decide (i ∈ exclude) then mret false else eligible i.

Fixpoint find_eligible (exclude : list nat) (idxs : list nat) : prog E BalState (option nat) :=
  match idxs with
  | [] => mret None
  | i :: idxs =>
      ok ← admits exclude i;
      if ok : bool then mret (Some i) else find_eligible exclude idxs
  end.

Definition first_eligible (b : Balancer) (exclude : list nat) : prog E BalState (option nat) :=
  find_eligible exclude (seq 0 (length (upstreams b))).

(** [for _ in 0..n]: [k] iterations are left. *)
Fixpoint rr_loop (b : Balancer) (exclude : list nat) (k : nat) : prog E BalState (option nat) :=
  match k with
  | 0 => first_eligible b exclude
  | S k =>
      cursor ← fetch_add_cursor;
      match rr_order b !! Z.to_nat (cursor mod Z.of_nat (length (rr_order b))) with
      | None => panic "index out of bounds"
      | Some idx =>
          ok ← admits exclude idx;
          if ok : bool then mret (Some idx) else rr_loop b exclude k
      end
  end.

Definition pick_round_robin (b : Balancer) (exclude : list nat) : prog E BalState (option nat) :=
  rr_loop b exclude (length (rr_order b)).

(** [min_by_key]: the first of the smallest. *)
Fixpoint least_loop (exclude : list nat) (idxs : list nat) (best : option (nat * Z))
    : prog E BalState (option nat) :=
  match idxs with
  | [] => mret (fst <$> best)
  | i :: idxs =>
      ok ← admits exclude i;
      if ok : bool then
        a ← get_active i;
        let best := match best with
                    | Some (j, aj) => if (a <? aj)%Z then Some (i, a) else Some (j, aj)
                    | None => Some (i, a)
                    end in
        least_loop exclude idxs best
      else least_loop exclude idxs best
  end.

Definition pick_least_conn (b : Balancer) (exclude : list nat) : prog E BalState (option nat) :=
  least_loop exclude (seq 0 (length (upstreams b))) None.

(** [pick]: the caller owns the guard and drops it with [guard_drop]. *)
Definition pick (b : Balancer) (exclude : list nat) : prog E BalState (option (nat * Upstream)) :=
  idx ← match strategy b with
        | RoundRobin => pick_round_robin b exclude
        | LeastConnections => pick_least_conn b exclude
        end;
  match idx with
  | None => mret None
  | Some idx =>
      match upstreams b !! idx with
      | None => panic "index out of bounds"
      | Some up => _ ← act (guard_new idx); mret (Some (idx, up))
      end
  end.
End methods.

(** ** Invariants *)

Definition up_live (u : UpstreamState) : Prop := Breaker.live (breaker u).

(** The state fits the balancer and no breaker is poisoned. *)
Definition bal_live (b : Balancer) (s : BalState) : Prop :=
  length (ups s) = length (upstreams b) ∧ Forall up_live (ups s).

(** The selection order of a balancer built by [from_route]. *)
Definition order_ok (b : Balancer) : Prop :=
  rr_order b ≠ [] ∧ Forall (λ i, i < length (upstreams b)) (rr_order b).

(** An upstream the balancer would pick whatever the time. *)
Definition up_ok (u : UpstreamState) : Prop :=
  up_live u ∧ healthy u = true ∧ Breaker.cb_state (breaker u) = Breaker.Closed.

(** A pick returns one of the upstreams. *)
Lemma yields_pick {E} `{Clock E} b ex :
  yields (λ r, ∀ i up, r = Some (i, up) → i < length (upstreams b)) (pick (E := E) b ex).
Proof.
  apply yields_bind. intros [i|]; [|done]. destruct (upstreams b !! i) as [up|] eqn:Hi; [|done].
  intros x. destruct x; simpl; [|done..]. intros i' up' [= <- <-]. by eapply lookup_lt_Some.
Qed.

(** ** The weighted selection order *)

Definition expand_from (k : nat) (us : list Upstream) : list nat :=
  concat (imap (λ i u, replicate (Z.to_nat (weight u)) (k + i)) us).

Lemma expand_from_cons k u us :
  expand_from k (u :: us) = replicate (Z.to_nat (weight u)) k ++ expand_from (S k) us.
Proof.
  unfold expand_from. rewrite imap_cons. simpl. rewrite Nat.add_0_r. do 2 f_equal.
  apply imap_ext. intros i x _. simpl. f_equal. lia.
Qed.

Definition count (i : nat) (l : list nat) : nat := length (filter (λ j, j = i) l).

Lemma count_app i l k : count i (l ++ k) = count i l + count i k.
Proof. unfold count. by rewrite filter_app, length_app. Qed.

Lemma count_replicate i j n : count i (replicate n j) = if decide (j = i) then n else 0.
Proof.
  unfold count. induction n as [|n IH]; simpl; [by case_decide|].
  rewrite filter_cons. case_decide; simpl; rewrite IH; by repeat case_decide.
Qed.

Lemma count_perm i l k : l ≡ₚ k → count i l = count i k.
Proof. intros Hp. unfold count. by rewrite Hp. Qed.

Lemma count_expand_from k us i :
  count i (expand_from k us) =
  if decide (k ≤ i) then default 0 (Z.to_nat ∘ weight <$> us !! (i - k)) else 0.
Proof.
  revert k. induction us as [|u us IH]; intros k; [by case_decide|].
  rewrite expand_from_cons, count_app, count_replicate, IH.
  destruct (decide (k = i)) as [->|Hne].
  - rewrite decide_False by lia. rewrite decide_True by lia. rewrite Nat.sub_diag. simpl. lia.
  - destruct (decide (k ≤ i)).
    + rewrite !decide_True by lia. replace (i - k) with (S (i - S k)) by lia. done.
    + by rewrite decide_False by lia.
Qed.

Lemma count_expand us i u :
  us !! i = Some u → count i (expand us) = Z.to_nat (weight u).
Proof.
  intros Hi. change (expand us) with (expand_from 0 us).
  rewrite count_expand_from, decide_True, Nat.sub_0_r, Hi by lia. done.
Qed.

Lemma expand_from_bound k us : Forall (λ i, k ≤ i < k + length us) (expand_from k us).
Proof.
  revert k. induction us as [|u us IH]; intros k; [constructor|].
  rewrite expand_from_cons. apply Forall_app. split.
  - apply Forall_replicate. simpl. lia.
  - eapply Forall_impl; [apply IH|]. simpl. lia.
Qed.

Lemma from_route_order route :
  rc_upstreams route ≠ [] →
  rr_order (from_route route).1 = expand (new_upstream <$> rc_upstreams route)
  ∧ order_ok (from_route route).1.
Proof.
  intros Hne. unfold from_route, order_ok; simpl.
  set (us := new_upstream <$> rc_upstreams route).
  assert (Hus : expand us ≠ []).
  { subst us. destruct (rc_upstreams route) as [|u us]; [done|].
    change (expand_from 0 (new_upstream u :: (new_upstream <$> us)) ≠ []).
    rewrite expand_from_cons. simpl.
    destruct (Z.to_nat (Z.max (uc_weight u) 1)) eqn:Ew; [lia|done]. }
  destruct (is_nil (expand us)) eqn:En; [by apply is_nil_true in En|].
  split_and!; [done|done|]. eapply Forall_impl; [apply (expand_from_bound 0)|].
  simpl. lia.
Qed.

Lemma from_route_live route : bal_live (from_route route).1 (from_route route).2.
Proof.
  unfold bal_live, from_route; simpl. rewrite !length_fmap. split; [done|].
  apply Forall_fmap, Forall_forall. by intros u _.
Qed.

(** ** Picking, whatever the other tasks do *)

Section picking.
Context {E : Type → Type} `{Clock E} (Ans : ∀ X, E X → X → Prop).

(** Safety: the other tasks keep the breakers live. *)
Section safe.
Context (b : Balancer) (R : BalState → BalState → Prop).
Context (HR : ∀ s s', R s s' → bal_live b s → bal_live b s').

Lemma alter_up_live i f s :
  (∀ u, up_live u → up_live (f u)) → bal_live b s → bal_live b (alter_up i f s).
Proof.
  intros Hf [Hlen Hl]. split; simpl; [by rewrite length_alter|].
  apply Forall_alter; [done|]. intros u Hu Hul. auto.
Qed.

Lemma wp_with_up {A} i (f : UpstreamState → A) s t :
  i < length (upstreams b) → bal_live b s →
  wp R Ans (with_up i f) (λ o s _, bal_live b s ∧ ∃ a, o = Ret a) s t.
Proof.
  intros Hi Hs. apply wp_act. intros s' Hs'. apply HR in Hs' as [Hlen Hl]; [|done].
  destruct (lookup_lt_is_Some_2 (ups s') i) as [u Hu]; [lia|]. rewrite Hu. simpl.
  split; [by split|eauto].
Qed.

Lemma wp_eligible_safe i s t :
  i < length (upstreams b) → bal_live b s →
  wp R Ans (eligible i) (λ o s _, bal_live b s ∧ ∃ a, o = Ret a) s t.
Proof.
  intros Hi Hs. apply wp_bind. eapply wp_mono; [|by apply wp_with_up].
  intros o s1 t1 [Hs1 [h ->]]. simpl. destruct h; [|simpl; eauto].
  simpl. intros now _ s2 Hs2. apply HR in Hs2; [|done]. unfold get_breaker.
  destruct Hs2 as [Hlen Hl].
  destruct (lookup_lt_is_Some_2 (ups s2) i) as [u Hu]; [lia|]. rewrite Hu. simpl.
  pose proof (Forall_lookup_1 _ _ _ _ Hl Hu) as Hul.
  unfold up_live, Breaker.live in Hul.
  unfold Breaker.allow_at, Breaker.locked, with_lock. rewrite Hul.
  assert (∀ r cb, Breaker.allow_section now (mu_val (Breaker.inner (breaker u))) = (r, cb) →
            ∃ a, r = Ret a) as Hret.
  { intros r cb. unfold Breaker.allow_section. repeat case_match; intros; simplify_eq; eauto. }
  destruct (Breaker.allow_section _ _) as [r cb] eqn:Ea.
  destruct (Hret _ _ eq_refl) as [a ->]. simpl. split; [|eauto].
  apply alter_up_live; [done|by split].
Qed.

Lemma wp_admits_safe ex i s t :
  i < length (upstreams b) → bal_live b s →
  wp R Ans (admits ex i)
    (λ o s _, bal_live b s ∧ ∃ a, o = Ret a ∧ (a = true → i ∉ ex)) s t.
Proof.
  intros Hi Hs. unfold admits. case_bool_decide; [simpl; naive_solver|].
  eapply wp_mono; [|by apply wp_eligible_safe]. naive_solver.
Qed.

Definition idx_ok (ex : list nat) (o : Outcome (option nat)) : Prop :=
  ∃ r, o = Ret r ∧ ∀ i, r = Some i → i < length (upstreams b) ∧ i ∉ ex.

Lemma wp_find_eligible_safe ex idxs s t :
  Forall (λ i, i < length (upstreams b)) idxs → bal_live b s →
  wp R Ans (find_eligible ex idxs) (λ o s _, bal_live b s ∧ idx_ok ex o) s t.
Proof.
  intros Hidx. revert s t. induction Hidx as [|i idxs Hi _ IH]; intros s t Hs.
  { simpl. split; [done|]. by exists None. }
  apply wp_bind. eapply wp_mono; [|by apply wp_admits_safe].
  intros o s1 t1 (Hs1 & a & -> & Ha). simpl. destruct a; [|by apply IH].
  simpl. split; [done|]. exists (Some i). naive_solver.
Qed.

Lemma seq_bound n : Forall (λ i, i < n) (seq 0 n).
Proof. apply Forall_forall. intros i Hi%elem_of_seq. lia. Qed.

Lemma wp_rr_loop_safe ex k s t :
  order_ok b → bal_live b s →
  wp R Ans (rr_loop b ex k) (λ o s _, bal_live b s ∧ idx_ok ex o) s t.
Proof.
  intros [Hne Hord]. revert s t. induction k as [|k IH]; intros s t Hs.
  { apply wp_find_eligible_safe; [apply seq_bound|done]. }
  apply wp_bind, wp_act. intros s1 Hs1. apply HR in Hs1; [|done]. simpl.
  destruct (rr_order b !! _) as [idx|] eqn:Eidx.
  2: { exfalso. apply lookup_ge_None in Eidx.
       assert (length (rr_order b) ≠ 0) by (by destruct (rr_order b)).
       pose proof (Z.mod_pos_bound (rr_cursor s1) (Z.of_nat (length (rr_order b)))). lia. }
  apply wp_bind. eapply wp_mono; [|apply wp_admits_safe].
  - intros o s2 t2 (Hs2 & a & -> & Ha). simpl. destruct a; [|by apply IH].
    simpl. split; [done|]. exists (Some idx). split; [done|].
    intros i [= <-]. split; [|auto]. by eapply (Forall_lookup_1 _ _ _ _ Hord).
  - by eapply (Forall_lookup_1 _ _ _ _ Hord).
  - destruct Hs1. by split.
Qed.

Lemma wp_least_loop_safe ex idxs best s t :
  Forall (λ i, i < length (upstreams b)) idxs → bal_live b s →
  (∀ j a, best = Some (j, a) → j < length (upstreams b) ∧ j ∉ ex) →
  wp R Ans (least_loop ex idxs best) (λ o s _, bal_live b s ∧ idx_ok ex o) s t.
Proof.
  intros Hidx. revert best s t.
  induction Hidx as [|i idxs Hi _ IH]; intros best s t Hs Hbest.
  { simpl. split; [done|]. exists (fst <$> best). split; [done|].
    intros j Hj. destruct best as [[j' a]|]; [|done]. simpl in Hj. simplify_eq. eauto. }
  apply wp_bind. eapply wp_mono; [|by apply wp_admits_safe].
  intros o s1 t1 (Hs1 & a & -> & Ha). simpl. destruct a; [|by apply IH].
  apply wp_bind. eapply wp_mono; [|by apply wp_with_up].
  intros o s2 t2 (Hs2 & a & ->). apply IH; [done|].
  intros j a' Hj. destruct best as [[j' aj]|]; [case_match|]; naive_solver.
Qed.

(** The picked upstream exists and was not excluded. *)
Lemma wp_pick_safe ex s t :
  order_ok b → bal_live b s →
  wp R Ans (pick b ex)
    (λ o s _, bal_live b s ∧ ∃ r, o = Ret r ∧
       ∀ i up, r = Some (i, up) → upstreams b !! i = Some up ∧ i ∉ ex) s t.
Proof.
  intros Hord Hs. apply wp_bind. apply wp_mono with
    (Q := λ o s _, bal_live b s ∧ idx_ok ex o).
  2: { destruct (strategy b); [by apply wp_rr_loop_safe|].
       apply wp_least_loop_safe; [apply seq_bound|done|done]. }
  intros o s1 t1 (Hs1 & r & -> & Hr). simpl. destruct r as [i|].
  2: { simpl. split; [done|]. by exists None. }
  destruct (Hr i eq_refl) as [Hi Hex].
  destruct (lookup_lt_is_Some_2 (upstreams b) i Hi) as [up Hup]. rewrite Hup.
  intros s2 Hs2. apply HR in Hs2; [|done]. simpl. split.
  - by apply alter_up_live.
  - exists (Some (i, up)). naive_solver.
Qed.
End safe.

(** A pick with no other task running, at any times. *)
Section alone.
Context (b : Balancer).

(** The upstream turns a request away: unhealthy, or its breaker is open. *)
Definition refuses (u : UpstreamState) : Prop :=
  healthy u = false ∨ Breaker.cb_state (breaker u) = Breaker.Open.

Definition refuses_at (s : BalState) (i : nat) : Prop :=
  ∃ u, ups s !! i = Some u ∧ refuses u.
Definition admits_at (s : BalState) (i : nat) : Prop :=
  ∃ u, ups s !! i = Some u ∧ ¬ refuses u.

(** Looking at upstream [i] may move its breaker from open to half-open. *)
Definition opened (i : nat) (s s' : BalState) : Prop :=
  rr_cursor s' = rr_cursor s ∧ length (ups s') = length (ups s)
  ∧ (∀ j, j ≠ i → ups s' !! j = ups s !! j)
  ∧ (active <$> ups s' !! i) = (active <$> ups s !! i)
  ∧ Forall up_live (ups s') ∧ admits_at s' i.

Lemma wp_eligible_alone i s t (Q : Outcome bool → BalState → list (Obs E) → Prop) :
  i < length (ups s) → Forall up_live (ups s) →
  (∀ s' t', opened i s s' → Q (Ret true) s' t') →
  (refuses_at s i → ∀ t', Q (Ret false) s t') →
  wp eq Ans (eligible i) Q s t.
Proof.
  intros Hi Hl Htrue Hfalse. destruct (lookup_lt_is_Some_2 (ups s) i Hi) as [u Hu].
  apply wp_bind, wp_act. intros s' <-. rewrite Hu. simpl.
  destruct (healthy u) eqn:Hh; [|apply Hfalse; exists u; unfold refuses; auto].
  simpl. intros now _ s' <-. unfold get_breaker. rewrite Hu. simpl.
  pose proof (Forall_lookup_1 _ _ _ _ Hl Hu) as Hul. unfold up_live, Breaker.live in Hul.
  unfold Breaker.allow_at, Breaker.locked, with_lock. rewrite Hul.
  assert (Hset : ∀ cb, Breaker.live cb → Breaker.cb_state cb ≠ Breaker.Open →
            opened i s (set_breaker i cb s)).
  { intros cb Hcb Hst. unfold opened, set_breaker, alter_up, admits_at; simpl.
    rewrite list_lookup_alter_eq, Hu. split_and!; try done.
    - by rewrite length_alter.
    - intros j Hj. by rewrite list_lookup_alter_ne.
    - apply Forall_alter; [done|]. by intros.
    - exists (put_breaker cb u). split; [done|]. unfold refuses; simpl.
      intros [?|?]; congruence. }
  unfold Breaker.allow_section.
  destruct (Breaker.state (mu_val (Breaker.inner (breaker u)))) eqn:Es; simpl.
  - apply Htrue, Hset; [done|]. unfold Breaker.cb_state; simpl. by rewrite Es.
  - destruct (match Breaker.open_until _ with Some u0 => _ | None => _ end); simpl.
    + apply Htrue, Hset; done.
    + assert (set_breaker i (Breaker.mkCircuitBreaker (Breaker.threshold (breaker u))
                (Breaker.open_for (breaker u))
                (mkMutex (mu_val (Breaker.inner (breaker u))) false)) s = s) as ->.
      { unfold set_breaker, alter_up. destruct s as [c l]; simpl in *. f_equal.
        apply list_eq. intros j. destruct (decide (j = i)) as [->|Hj].
        - rewrite list_lookup_alter_eq, Hu. simpl. f_equal.
          destruct u as [a h [th d [v p]]]; simpl in *. subst p. done.
        - by rewrite list_lookup_alter_ne. }
      apply Hfalse. exists u. split; [done|]. right. done.
  - apply Htrue, Hset; [done|]. unfold Breaker.cb_state; simpl. by rewrite Es.
Qed.

Lemma wp_admits_alone ex i s t (Q : Outcome bool → BalState → list (Obs E) → Prop) :
  i < length (ups s) → Forall up_live (ups s) →
  (i ∉ ex → ∀ s' t', opened i s s' → Q (Ret true) s' t') →
  (i ∈ ex ∨ refuses_at s i → ∀ t', Q (Ret false) s t') →
  wp eq Ans (admits ex i) Q s t.
Proof.
  intros Hi Hl Htrue Hfalse. unfold admits. case_bool_decide; [by apply Hfalse; left|].
  apply wp_eligible_alone; [done..|by apply Htrue|]. intros. apply Hfalse. by right.
Qed.

(** [s'] differs from [s] by half-opened breakers and the cursor. *)
Definition probed (s s' : BalState) : Prop :=
  length (ups s') = length (ups s) ∧ Forall up_live (ups s')
  ∧ ∀ j, (active <$> ups s' !! j) = (active <$> ups s !! j).

Lemma opened_probed i s s' : opened i s s' → probed s s'.
Proof.
  intros (_ & Hlen & Hother & Ha & Hl & _). split_and!; [done..|].
  intros j. destruct (decide (j = i)) as [->|Hj]; [done|]. by rewrite Hother.
Qed.

Lemma probed_refl s : Forall up_live (ups s) → probed s s.
Proof. intros Hl. unfold probed. by split_and!. Qed.

Lemma probed_trans s1 s2 s3 : probed s1 s2 → probed s2 s3 → probed s1 s3.
Proof.
  intros (H1 & _ & Ha1) (H2 & ? & Ha2). split_and!; [congruence|done|].
  intros j. by rewrite Ha2.
Qed.

(** The index returned is admitted now; with none, all are refused now. *)
Definition sound_idx (ex : list nat) (s0 : BalState) (o : Outcome (option nat))
    (s : BalState) : Prop :=
  probed s0 s ∧ ∃ r, o = Ret r ∧
    match r with
    | Some i => i < length (ups s0) ∧ (i ∉ ex) ∧ admits_at s i
    | None => ∀ j, j < length (ups s0) → j ∉ ex → refuses_at s j
    end.

Lemma wp_find_eligible_alone ex n k s t :
  n + k = length (ups s) → Forall up_live (ups s) →
  (∀ j, j < n → j ∉ ex → refuses_at s j) →
  wp eq Ans (find_eligible ex (seq n k)) (λ o s' _, sound_idx ex s o s') s t.
Proof.
  revert n t. induction k as [|k IH]; intros n t Hn Hl Hno.
  { simpl. split; [by apply probed_refl|]. exists None. split; [done|].
    intros j Hj. apply Hno. lia. }
  simpl seq. apply wp_bind, wp_admits_alone; [lia|done| |].
  - intros Hex s' t' Ho. simpl. split; [by eapply opened_probed|].
    exists (Some n). split_and!; [done|lia|done|]. by destruct Ho as (_ & _ & _ & _ & _ & ?).
  - intros Href t'. simpl. apply IH; [lia|done|]. intros j Hj Hjex.
    destruct (decide (j = n)) as [->|]; [by destruct Href|]. apply Hno; [lia|done].
Qed.

Lemma wp_rr_loop_alone ex k s t :
  order_ok b → length (ups s) = length (upstreams b) → Forall up_live (ups s) →
  wp eq Ans (rr_loop b ex k) (λ o s' _, sound_idx ex s o s') s t.
Proof.
  intros [Hne Hord]. revert s t. induction k as [|k IH]; intros s t Hlen Hl.
  { simpl. unfold first_eligible. rewrite <- Hlen.
    apply wp_find_eligible_alone; [done..|lia]. }
  apply wp_bind, wp_act. intros s1 <-. simpl.
  set (s1 := {| rr_cursor := _; ups := ups s |}).
  destruct (rr_order b !! _) as [idx|] eqn:Eidx.
  2: { exfalso. apply lookup_ge_None in Eidx.
       assert (length (rr_order b) ≠ 0) by (by destruct (rr_order b)).
       pose proof (Z.mod_pos_bound (rr_cursor s) (Z.of_nat (length (rr_order b)))). lia. }
  pose proof (Forall_lookup_1 _ _ _ _ Hord Eidx) as Hidx. simpl in Hidx.
  assert (Hback : ∀ o s', sound_idx ex s1 o s' → sound_idx ex s o s') by done.
  apply wp_bind, wp_admits_alone; [simpl; lia|done| |].
  - intros Hex s' t' Ho. simpl. split; [by apply (opened_probed idx s1)|].
    exists (Some idx). split_and!; [done|lia|done|]. by destruct Ho as (_ & _ & _ & _ & _ & ?).
  - intros _ t'. simpl. eapply wp_mono; [|by apply IH]. done.
Qed.

(** Of the admitted upstreams, [i] is the first with the fewest active requests. *)
Definition least_of (ex : list nat) (n : nat) (s : BalState) (i : nat) : Prop :=
  ∃ ui, ups s !! i = Some ui ∧ ¬ refuses ui ∧ ∀ j uj, j < n → j ∉ ex →
    ups s !! j = Some uj → ¬ refuses uj →
    (active ui < active uj)%Z ∨ active ui = active uj ∧ i ≤ j.

Definition best_ok (ex : list nat) (n : nat) (s : BalState) (best : option (nat * Z)) : Prop :=
  match best with
  | None => ∀ j, j < n → j ∉ ex → refuses_at s j
  | Some (i, a) => i < n ∧ (i ∉ ex) ∧ (active <$> ups s !! i) = Some a ∧ least_of ex n s i
  end.

Lemma best_ok_opened ex n s s' best :
  opened n s s' → best_ok ex n s best → best_ok ex n s' best.
Proof.
  intros (_ & _ & Hother & _). destruct best as [[i a]|]; simpl.
  - intros (Hi & Hex & Ha & ui & Hui & Hr & Hmin).
    split_and!; [done|done|by rewrite Hother by lia|].
    exists ui. rewrite Hother by lia. split_and!; [done|done|].
    intros j uj Hj Hjex. rewrite Hother by lia. by apply Hmin.
  - intros Hno j Hj Hjex. destruct (Hno j Hj Hjex) as (u & Hu & Hr).
    exists u. by rewrite Hother by lia.
Qed.

(** One more upstream, that is excluded or refuses. *)
Lemma best_ok_skip ex n s best :
  n ∈ ex ∨ refuses_at s n → best_ok ex n s best → best_ok ex (S n) s best.
Proof.
  intros Href. destruct best as [[i a]|]; simpl.
  - intros (Hi & Hex & Ha & ui & Hui & Hr & Hmin).
    split_and!; [lia|done|done|]. exists ui. split_and!; [done|done|].
    intros j uj Hj Hjex Huj Hrj. destruct (decide (j = n)) as [->|].
    + destruct Href as [?|(u & Hu & Hur)]; [done|]. by simplify_eq.
    + apply Hmin; [lia|done..].
  - intros Hno j Hj Hjex. destruct (decide (j = n)) as [->|]; [by destruct Href|].
    apply Hno; [lia|done].
Qed.

(** One more upstream, that is admitted. *)
Lemma best_ok_take ex n s best u :
  n ∉ ex → ups s !! n = Some u → ¬ refuses u → best_ok ex n s best →
  best_ok ex (S n) s
    (match best with
     | Some (j, aj) => if (active u <? aj)%Z then Some (n, active u) else Some (j, aj)
     | None => Some (n, active u)
     end).
Proof.
  intros Hex Hu Hr. destruct best as [[i a]|]; simpl.
  - intros (Hi & Hiex & Ha & ui & Hui & Hri & Hmin).
    rewrite Hui in Ha. injection Ha as <-. destruct (Z.ltb_spec (active u) (active ui)).
    + split_and!; [lia|done|by rewrite Hu|]. exists u. split_and!; [done|done|].
      intros j uj Hj Hjex Huj Hrj. destruct (decide (j = n)) as [->|].
      * simplify_eq. right. lia.
      * destruct (Hmin j uj ltac:(lia) Hjex Huj Hrj) as [?|[? ?]]; left; lia.
    + split_and!; [lia|done|by rewrite Hui|]. exists ui. split_and!; [done|done|].
      intros j uj Hj Hjex Huj Hrj. destruct (decide (j = n)) as [->|].
      * simplify_eq. destruct (decide (active ui = active u)); [right|left]; lia.
      * apply Hmin; [lia|done..].
  - intros Hno. split_and!; [lia|done|by rewrite Hu|]. exists u. split_and!; [done|done|].
    intros j uj Hj Hjex Huj Hrj. destruct (decide (j = n)) as [->|].
    + simplify_eq. right. lia.
    + destruct (Hno j ltac:(lia) Hjex) as (u' & Hu' & Hr'). by simplify_eq.
Qed.

Definition least_idx (ex : list nat) (s0 : BalState) (o : Outcome (option nat))
    (s : BalState) : Prop :=
  sound_idx ex s0 o s ∧ ∀ i, o = Ret (Some i) → least_of ex (length (ups s0)) s i.

Lemma wp_least_loop_alone ex n k best s t :
  n + k = length (ups s) → Forall up_live (ups s) → best_ok ex n s best →
  wp eq Ans (least_loop ex (seq n k) best) (λ o s' _, least_idx ex s o s') s t.
Proof.
  revert n best s t. induction k as [|k IH]; intros n best s t Hn Hl Hb.
  { simpl. rewrite Nat.add_0_r in Hn. subst n. unfold least_idx, sound_idx.
    destruct best as [[i a]|]; simpl in *.
    - destruct Hb as (Hi & Hex & _ & Hmin). split; [split; [by apply probed_refl|]|].
      + exists (Some i). split_and!; [done..|]. destruct Hmin as (u & Hu & Hr & _).
        by exists u.
      + by intros i' [= <-].
    - split; [|done]. split; [by apply probed_refl|]. by exists None. }
  simpl seq. apply wp_bind, wp_admits_alone; [lia|done| |].
  - intros Hex s' t' Ho. pose proof (opened_probed _ _ _ Ho) as Hpr.
    destruct Ho as (Hcur & Hlen & Hother & Ha & Hl' & u & Hu & Hr).
    assert (Ho : opened n s s') by (unfold opened; split_and!; [done..|by exists u]).
    apply wp_bind, wp_act. intros s2 <-. rewrite Hu. simpl.
    eapply wp_mono; [|apply IH; [lia|done|]].
    + intros o s2 t2 [(Hpr2 & r & -> & Hr2) Hmin]. rewrite Hlen in Hr2, Hmin.
      split; [split; [by eapply probed_trans|by exists r]|done].
    + apply best_ok_take; [done..|]. by eapply best_ok_opened.
  - intros Href t'. simpl. apply IH; [lia|done|]. by apply best_ok_skip.
Qed.

(** What a pick with no other task running returns and leaves behind. *)
Definition picked (ex : list nat) (s0 : BalState) (r : option (nat * Upstream))
    (s : BalState) : Prop :=
  match r with
  | Some (i, up) =>
      upstreams b !! i = Some up ∧ (i ∉ ex) ∧ admits_at s i
      ∧ (active <$> ups s !! i) = (λ u, i64_wrap (active u + 1)) <$> ups s0 !! i
      ∧ ∀ j, j ≠ i → (active <$> ups s !! j) = (active <$> ups s0 !! j)
  | None =>
      (∀ j, j < length (upstreams b) → j ∉ ex → refuses_at s j)
      ∧ ∀ j, (active <$> ups s !! j) = (active <$> ups s0 !! j)
  end.

Lemma guard_new_picked ex s0 s i up :
  upstreams b !! i = Some up → i ∉ ex → admits_at s i → probed s0 s →
  picked ex s0 (Some (i, up)) (guard_new i s).2.
Proof.
  intros Hup Hex (u & Hu & Hr) (_ & _ & Ha). unfold picked, guard_new, alter_up; simpl.
  split_and!; [done|done| | |].
  - exists (set_active (i64_wrap (active u + 1)) u). simpl.
    by rewrite list_lookup_alter_eq, Hu.
  - rewrite list_lookup_alter_eq. specialize (Ha i). rewrite Hu in *. simpl in *.
    destruct (ups s0 !! i); simplify_eq/=. by rewrite Ha.
  - intros j Hj. rewrite list_lookup_alter_ne by done. apply Ha.
Qed.

Lemma wp_pick_alone ex s t :
  order_ok b → bal_live b s →
  wp eq Ans (pick b ex)
    (λ o s' _, ∃ r, o = Ret r ∧ picked ex s r s'
       ∧ (strategy b = LeastConnections → ∀ i up, r = Some (i, up) →
            ∃ s1, least_of ex (length (upstreams b)) s1 i
                  ∧ probed s s1 ∧ s' = (guard_new i s1).2)) s t.
Proof.
  intros Hord [Hlen Hl]. apply wp_bind. apply wp_mono with
    (Q := λ o s' _, sound_idx ex s o s' ∧ (strategy b = LeastConnections →
       ∀ i, o = Ret (Some i) → least_of ex (length (upstreams b)) s' i)).
  - intros o s1 t1 [(Hpr & r & -> & Hr) Hmin]. simpl. rewrite Hlen in Hr.
    destruct r as [i|].
    + destruct Hr as (Hi & Hex & Had).
      destruct (lookup_lt_is_Some_2 (upstreams b) i Hi) as [up Hup]. rewrite Hup.
      intros s2 <-. exists (Some (i, up)). split_and!; [done|by apply guard_new_picked|].
      intros Hst i' up' [= <- <-]. exists s1. split_and!; [by apply Hmin|done..].
    + exists None. split_and!; [done| |done]. split; [done|]. by destruct Hpr as (_ & _ & ?).
  - destruct (strategy b) eqn:Est.
    + eapply wp_mono; [|by apply wp_rr_loop_alone]. by intros.
    + unfold pick_least_conn. rewrite <- Hlen.
      eapply wp_mono; [|apply (wp_least_loop_alone ex 0); [done|done|simpl; lia]].
      intros o s1 t1 [Hs Hm]. split; [done|]. intros _. done.
Qed.
End alone.

(** Round robin while all upstreams are up: the other tasks may change the
    active counts, but neither the cursor nor the availability. *)
Section fair.
Context (b : Balancer) (R : BalState → BalState → Prop).

Definition all_ok (s : BalState) : Prop :=
  length (ups s) = length (upstreams b) ∧ Forall up_ok (ups s).

Context (HR : ∀ s s', R s s' → all_ok s → all_ok s' ∧ rr_cursor s' = rr_cursor s).

Lemma alter_up_all_ok i f s :
  (∀ u, up_ok u → up_ok (f u)) → all_ok s → all_ok (alter_up i f s).
Proof.
  intros Hf [Hlen Hl]. split; simpl; [by rewrite length_alter|].
  apply Forall_alter; [done|]. auto.
Qed.

Lemma wp_eligible_ok i s t :
  i < length (upstreams b) → all_ok s →
  wp R Ans (eligible i)
    (λ o s' _, all_ok s' ∧ rr_cursor s' = rr_cursor s ∧ o = Ret true) s t.
Proof.
  intros Hi Hs. apply wp_bind, wp_act. intros s1 Hs1.
  apply HR in Hs1 as [[Hlen Hok] Hc]; [|done].
  destruct (lookup_lt_is_Some_2 (ups s1) i) as [u Hu]; [lia|]. rewrite Hu.
  destruct (Forall_lookup_1 _ _ _ _ Hok Hu) as (_ & Hh & _). simpl. rewrite Hh.
  simpl. intros now _ s2 Hs2. apply HR in Hs2 as [[Hlen2 Hok2] Hc2]; [|by split].
  unfold get_breaker. destruct (lookup_lt_is_Some_2 (ups s2) i) as [u2 Hu2]; [lia|].
  rewrite Hu2. simpl. destruct (Forall_lookup_1 _ _ _ _ Hok2 Hu2) as (Hl2 & Hh2 & Hs2).
  unfold up_live, Breaker.live, Breaker.cb_state in *.
  unfold Breaker.allow_at, Breaker.locked, with_lock. rewrite Hl2.
  unfold Breaker.allow_section. rewrite Hs2. simpl. split_and!; [|congruence|done].
  apply alter_up_all_ok; [|by split]. intros u' (? & ? & ?). by split_and!.
Qed.

Lemma wp_pick_rr s t :
  strategy b = RoundRobin → order_ok b → all_ok s →
  wp R Ans (pick b [])
    (λ o s' _, all_ok s' ∧ rr_cursor s' = usize_wrapping_add (rr_cursor s) 1
       ∧ ∃ idx up,
           rr_order b !! Z.to_nat (rr_cursor s mod Z.of_nat (length (rr_order b))) = Some idx
           ∧ o = Ret (Some (idx, up))) s t.
Proof.
  intros Hst [Hne Hord] Hs. unfold pick. rewrite Hst.
  destruct (length (rr_order b)) as [|n] eqn:Hn; [by apply nil_length_inv in Hn|].
  unfold pick_round_robin. rewrite Hn. simpl rr_loop.
  apply wp_bind, wp_bind, wp_act. intros s1 Hs1.
  apply HR in Hs1 as [Hok Hc]; [|done]. simpl. rewrite Hn, Hc.
  destruct (rr_order b !! _) as [idx|] eqn:Eidx.
  2: { exfalso. apply lookup_ge_None in Eidx.
       pose proof (Z.mod_pos_bound (rr_cursor s) (Z.of_nat (S n))). lia. }
  pose proof (Forall_lookup_1 _ _ _ _ Hord Eidx) as Hidx. simpl in Hidx.
  apply wp_bind.
  eapply wp_mono; [|apply wp_eligible_ok; [done|by destruct Hok; split]].
  intros o s2 t2 (Hs2 & Hc2 & ->). simpl.
  destruct (lookup_lt_is_Some_2 (upstreams b) idx Hidx) as [up Hup]. rewrite Hup.
  intros s3 Hs3. apply HR in Hs3 as [Hok3 Hc3]; [|done]. simpl. split_and!.
  - by apply alter_up_all_ok.
  - rewrite Hc3, Hc2. done.
  - eauto.
Qed.

(** [m] picks in a row; the guards are kept. *)
Fixpoint picks (m : nat) : prog E BalState (list nat) :=
  match m with
  | 0 => mret []
  | S m =>
      r ← pick b [];
      match r with
      | None => mret []
      | Some (i, _) => l ← picks m; mret (i :: l)
      end
  end.

Lemma wp_picks m s t :
  strategy b = RoundRobin → order_ok b → all_ok s →
  (0 ≤ rr_cursor s)%Z → (rr_cursor s + Z.of_nat m ≤ 2 ^ 64)%Z →
  wp R Ans (picks m)
    (λ o _ _, ∃ l, o = Ret l ∧ length l = m ∧
       ∀ k, k < m → l !! k =
         rr_order b !! ((Z.to_nat (rr_cursor s) + k) mod length (rr_order b))) s t.
Proof.
  intros Hst Hord. revert s t. induction m as [|m IH]; intros s t Hs Hc0 Hc.
  { exists []. split_and!; [done|done|lia]. }
  apply wp_bind. eapply wp_mono; [|by apply wp_pick_rr].
  intros o s1 t1 (Hs1 & Hc1 & idx & up & Hidx & ->). simpl.
  assert (length (rr_order b) ≠ 0) as Hn.
  { destruct Hord as [Hne _]. by destruct (rr_order b). }
  assert (Z.to_nat (rr_cursor s mod Z.of_nat (length (rr_order b)))
          = Z.to_nat (rr_cursor s) mod length (rr_order b)) as Hmod.
  { rewrite Z2Nat.inj_mod by lia. by rewrite Nat2Z.id. }
  apply wp_bind. destruct m as [|m].
  - simpl. exists [idx]. split_and!; [done|done|]. intros k Hk.
    replace k with 0 by lia. rewrite Nat.add_0_r, <- Hmod. done.
  - assert (rr_cursor s1 = rr_cursor s + 1)%Z as Hc1'.
    { rewrite Hc1. apply Z.mod_small. lia. }
    eapply wp_mono; [|apply IH; [done|lia|lia]].
    intros o s2 t2 (l & -> & Hl & Hlk). simpl. exists (idx :: l).
    split_and!; [done|simpl; lia|]. intros [|k] Hk; simpl.
    + by rewrite Nat.add_0_r, <- Hmod.
    + rewrite Hlk by lia. do 2 f_equal. rewrite Hc1', Z2Nat.inj_add by lia. lia.
Qed.
End fair.
End picking.

(** ** Counting along a cycle *)

Lemma count_cycle (ord l : list nat) c q i :
  ord ≠ [] → length l = q * length ord →
  (∀ k, k < q * length ord → l !! k = ord !! ((c + k) mod length ord)) →
  count i l = q * count i ord.
Proof.
  intros Hne. revert l c. induction q as [|q IH]; intros l c Hlen Hl.
  { by apply nil_length_inv in Hlen as ->. }
  assert (Hn : 0 < length ord) by (destruct ord; [done|simpl; lia]).
  assert (Htake : take (length ord) l = rotate c ord).
  { apply list_eq. intros k. destruct (decide (k < length ord)).
    - rewrite lookup_take_lt by done. rewrite Hl by lia. rewrite lookup_rotate_r by done.
      unfold rotate_nat_add. f_equal.
      rewrite <- (Nat2Z.id ((c + k) mod _)). f_equal.
      by rewrite Nat2Z.inj_mod, Nat2Z.inj_add.
    - rewrite lookup_take_ge by lia. symmetry. apply lookup_ge_None.
      rewrite length_rotate. lia. }
  rewrite <- (take_drop (length ord) l), count_app, Htake.
  rewrite (count_perm i (rotate c ord) ord).
  2: { unfold rotate. by rewrite Permutation_app_comm, take_drop. }
  rewrite (IH (drop (length ord) l) (c + length ord)); [lia| |].
  - rewrite length_drop. lia.
  - intros k Hk. rewrite lookup_drop, Hl by lia. f_equal. f_equal. lia.
Qed.

(** ** Properties *)

(** C14: weighted round robin is fair: while all upstreams are up and no other task
    moves the cursor (what the others do to the active counts does not matter), [q]
    rounds of picks (a round is as long as the sum of the weights, a weight being at
    least one) choose every upstream exactly [q] times its weight, from every position of
    the cursor from which these picks do not take it past 2^64, where it wraps. *)
Theorem weighted_round_robin_fair {E} `{Clock E} route (o : Oracle E BalState) q n s :
  let b := (from_route route).1 in
  rc_strategy route = RoundRobin → rc_upstreams route ≠ [] →
  (∀ k s, all_ok b s → all_ok b (o_rely o k s) ∧ rr_cursor (o_rely o k s) = rr_cursor s) →
  all_ok b s → (0 ≤ rr_cursor s)%Z →
  (rr_cursor s + Z.of_nat (q * length (rr_order b)) ≤ 2 ^ 64)%Z →
  ∃ l, r_out (exec o (picks b (q * length (rr_order b))) n s) = Ret l
    ∧ ∀ i u, rc_upstreams route !! i = Some u →
        count i l = q * Z.to_nat (Z.max (uc_weight u) 1).
Proof.
  intros b Hst Hne Hrely Hs Hc0 Hc.
  destruct (from_route_order route Hne) as [Hexp Hord]. fold b in Hexp, Hord.
  assert (Hlaw : lawful (λ s s', ∃ k, s' = o_rely o k s) (λ _ _ _, True) o).
  { split; eauto. }
  assert (HR : ∀ s s', (∃ k, s' = o_rely o k s) → all_ok b s →
                 all_ok b s' ∧ rr_cursor s' = rr_cursor s).
  { intros s1 s2 [k ->]. apply Hrely. }
  pose proof (wp_sound _ _ _ _ o n s [] Hlaw
    (wp_picks (λ _ _ _, True) b _ HR (q * length (rr_order b)) s [] Hst Hord Hs Hc0 Hc))
    as (l & Hout & Hlen & Hl).
  exists l. split; [done|]. intros i u Hi.
  destruct Hord as [Hordne _]. rewrite (count_cycle _ _ _ q i Hordne Hlen Hl), Hexp.
  f_equal. rewrite (count_expand _ i (new_upstream u)); [done|].
  by rewrite list_lookup_fmap, Hi.
Qed.

(** A run with no other task. *)
Lemma pick_run {E} `{Clock E} (o : Oracle E BalState) b ex n s :
  (∀ k s, o_rely o k s = s) → order_ok b → bal_live b s →
  let run := exec o (pick b ex) n s in
  ∃ r, r_out run = Ret r ∧ picked b ex s r (r_state run)
    ∧ (strategy b = LeastConnections → ∀ i up, r = Some (i, up) →
         ∃ s1, least_of ex (length (upstreams b)) s1 i
               ∧ probed s s1 ∧ r_state run = (guard_new i s1).2).
Proof.
  intros Ho Hord Hs.
  assert (Hlaw : lawful eq (λ _ _ _, True) o) by (split; [intros; by rewrite Ho|done..]).
  exact (wp_sound _ _ _ _ o n s [] Hlaw (wp_pick_alone (λ _ _ _, True) b ex s [] Hord Hs)).
Qed.

(** C21: a pick that runs alone (no other task changes the balancer meanwhile) chooses an
    upstream of the route that is not excluded and that is healthy with a breaker that is
    not open, adds one to its active count and leaves the other counts; it fails only
    when every upstream that is not excluded is unhealthy or has an open breaker. *)
Theorem pick_sound_and_complete {E} `{Clock E} (o : Oracle E BalState) route ex n s :
  let b := (from_route route).1 in
  let run := exec o (pick b ex) n s in
  rc_upstreams route ≠ [] → (∀ k s, o_rely o k s = s) → bal_live b s →
  match r_out run with
  | Ret (Some (i, up)) =>
      upstreams b !! i = Some up ∧ (i ∉ ex)
      ∧ (∃ u, ups (r_state run) !! i = Some u ∧ healthy u = true
              ∧ Breaker.cb_state (breaker u) ≠ Breaker.Open)
      ∧ (active <$> ups (r_state run) !! i) = (λ u, i64_wrap (active u + 1)) <$> ups s !! i
      ∧ ∀ j, j ≠ i → (active <$> ups (r_state run) !! j) = (active <$> ups s !! j)
  | Ret None =>
      (∀ j, j < length (upstreams b) → j ∉ ex →
         ∃ u, ups (r_state run) !! j = Some u
              ∧ (healthy u = false ∨ Breaker.cb_state (breaker u) = Breaker.Open))
      ∧ ∀ j, (active <$> ups (r_state run) !! j) = (active <$> ups s !! j)
  | _ => False
  end.
Proof.
  intros b run Hne Ho Hs. destruct (from_route_order route Hne) as [_ Hord].
  destruct (pick_run o b ex n s Ho Hord Hs) as (r & Hr & Hp & _).
  subst run. rewrite Hr. destruct r as [[i up]|]; [|done].
  destruct Hp as (Hup & Hex & (u & Hu & Hrf) & Ha & Hoth). split_and!; [done..| |done|done].
  exists u. unfold refuses in Hrf. split_and!; [done| |tauto].
  destruct (healthy u); [done|tauto].
Qed.

(** C33: a least-connections pick that runs alone (no other task changes the balancer
    meanwhile) chooses, of the upstreams that admit the request, the first of those with
    the fewest active requests. *)
Theorem least_connections_minimal {E} `{Clock E} (o : Oracle E BalState) route ex n s i up :
  let b := (from_route route).1 in
  let run := exec o (pick b ex) n s in
  rc_strategy route = LeastConnections →
  rc_upstreams route ≠ [] → (∀ k s, o_rely o k s = s) → bal_live b s →
  r_out run = Ret (Some (i, up)) →
  ∀ j ui uj, j ∉ ex → ups s !! i = Some ui → ups s !! j = Some uj →
    admits_at (r_state run) j →
    (active ui < active uj)%Z ∨ active ui = active uj ∧ i ≤ j.
Proof.
  intros b run Hst Hne Ho Hs Hout j ui uj Hex Hui Huj (u & Hu & Hr).
  destruct (from_route_order route Hne) as [_ Hord].
  destruct (pick_run o b ex n s Ho Hord Hs) as (r & Hr' & _ & Hl).
  fold run in Hr', Hl. rewrite Hout in Hr'. injection Hr' as <-.
  destruct (Hl Hst i up eq_refl) as (s1 & (ui1 & Hui1 & _ & Hmin) & (Hlen & _ & Ha) & Hend).
  rewrite Hend in Hu. unfold guard_new, alter_up in Hu; simpl in Hu.
  pose proof (Ha i) as Hai. rewrite Hui, Hui1 in Hai. injection Hai as Hai.
  destruct (decide (j = i)) as [->|Hj].
  { simplify_eq. right. lia. }
  rewrite list_lookup_alter_ne in Hu by done.
  pose proof (Ha j) as Haj. rewrite Hu, Huj in Haj. injection Haj as Haj.
  assert (j < length (upstreams b)).
  { destruct Hs as [<- _]. rewrite <- Hlen. by eapply lookup_lt_Some. }
  rewrite <- Hai, <- Haj. by apply Hmin.
Qed.

Definition demo_route (st : Strategy) : RouteConfig := {|
  rc_name := "r";
  rc_matches := MatchConfig_default;
  rc_upstreams := [{| uc_url := "http://a/"; uc_weight := 3 |};
                   {| uc_url := "http://b"; uc_weight := 1 |}];
  rc_strategy := st;
  rc_strip_path_prefix := false;
  rc_timeout_ms := None;
  rc_retries := 0;
  rc_auth := AuthNone;
  rc_rate_limit := None;
  rc_cache := None;
  rc_circuit_breaker := CircuitBreakerConfig_default;
  rc_health_check := None;
  rc_request_headers := HeaderTransforms_default;
  rc_response_headers := HeaderTransforms_default;
|}.

Lemma weighted_round_robin_fair_witness :
  ∃ l, r_out (exec (alone_at 0) (picks (from_route (demo_route RoundRobin)).1 8) 0
                (from_route (demo_route RoundRobin)).2) = Ret l
    ∧ count 0 l = 6 ∧ count 1 l = 2.
Proof.
  destruct (weighted_round_robin_fair (demo_route RoundRobin) (alone_at 0) 2 0
    (from_route (demo_route RoundRobin)).2) as (l & Hout & Hl).
  - done.
  - done.
  - intros k s Hs. by split.
  - split; [done|]. repeat constructor.
  - done.
  - by vm_compute.
  - exists l. split_and!; [exact Hout|by apply (Hl 0 _ eq_refl)|by apply (Hl 1 _ eq_refl)].
Defined.

(** The first upstream is down, the second has two requests in flight. *)
Definition demo_state : BalState :=
  let s := (from_route (demo_route LeastConnections)).2 in
  alter_up 0 (put_healthy false) (alter_up 1 (set_active 2) s).

Lemma pick_sound_and_complete_witness :
  r_out (exec (alone_at 0) (pick (from_route (demo_route RoundRobin)).1 []) 0 demo_state)
    = Ret (Some (1, mkUpstream "http://b" 1))
  ∧ ∃ u, ups (r_state (exec (alone_at 0) (pick (from_route (demo_route RoundRobin)).1 []) 0
                         demo_state)) !! 1 = Some u ∧ healthy u = true
         ∧ Breaker.cb_state (breaker u) ≠ Breaker.Open.
Proof.
  split; [by vm_compute|].
  refine (proj1 (proj2 (proj2 (pick_sound_and_complete (alone_at 0) (demo_route RoundRobin)
    [] 0 demo_state _ _ _)))).
  - done.
  - done.
  - split; [done|]. repeat constructor.
Defined.

Lemma least_connections_minimal_witness :
  r_out (exec (alone_at 0) (pick (from_route (demo_route LeastConnections)).1 []) 0
           (from_route (demo_route LeastConnections)).2)
    = Ret (Some (0, mkUpstream "http://a" 3))
  ∧ ((0 < 0)%Z ∨ 0%Z = 0%Z ∧ 0 ≤ 1).
Proof.
  split; [by vm_compute|].
  apply (least_connections_minimal (alone_at 0) (demo_route LeastConnections) [] 0
    (from_route (demo_route LeastConnections)).2 0 (mkUpstream "http://a" 3))
    with (j := 1)
         (ui := new_upstate (demo_route LeastConnections) {| uc_url := "http://a/"; uc_weight := 3 |})
         (uj := new_upstate (demo_route LeastConnections) {| uc_url := "http://b"; uc_weight := 1 |}).
  - done.
  - done.
  - done.
  - split; [done|]. repeat constructor.
  - by vm_compute.
  - set_solver.
  - done.
  - done.
  - exists (new_upstate (demo_route LeastConnections) {| uc_url := "http://b"; uc_weight := 1 |}).
    split; [by vm_compute|]. by intros [?|?].
Defined.

End Balancer.
