(* ===== verification/Telemetry.v ===== *)
(** The metrics and the logging of the gateway: src/crates/telemetry/src/lib.rs.

    Prometheus is a library: [Prometheus] is its interface, with the documented
    conditions under which a collector can be made and registered in
    [PrometheusLaws].  A metric is known to the rest of the gateway by its
    descriptor; an update of it is an event, and [with_label_values] panics when
    the labels do not fit the descriptor. *)
From S2P Require Import Prelude RustStd.

Module Telemetry.

(** ** The interface *)

Inductive Kind : Type :=
| IntCounterVec
| HistogramVec (buckets : list Z)   (* upper bounds, in milliseconds *)
| IntGauge
| IntGaugeVec.

Record Desc := mkDesc {
  d_kind : Kind;
  d_name : string;
  d_help : string;
  d_labels : list string;
}.

#[global] Instance Kind_eq_dec : EqDecision Kind.
Proof. solve_decision. Defined.
#[global] Instance Desc_eq_dec : EqDecision Desc.
Proof. solve_decision. Defined.

Class Prometheus := {
  Registry : Type;
  Registry_new : Registry;
  Collector : Type;
  collector_new : Desc → Result string Collector;
  register : Registry → Collector → Result string Registry;
}.

(** Names are nonempty ASCII words. *)
Definition word_start (a : Ascii.ascii) : bool :=
  let n := Ascii.nat_of_ascii a in
  (Nat.leb 97 n && Nat.leb n 122) || (Nat.leb 65 n && Nat.leb n 90) || Nat.eqb n 95.
Definition word_char (a : Ascii.ascii) : bool :=
  let n := Ascii.nat_of_ascii a in word_start a || (Nat.leb 48 n && Nat.leb n 57).
Fixpoint word_tail (s : string) : bool :=
  match s with EmptyString => true | String a s => word_char a && word_tail s end.
Definition word (s : string) : bool :=
  match s with EmptyString => false | String a s => word_start a && word_tail s end.

Fixpoint increasing (l : list Z) : bool :=
  match l with
  | a :: ((b :: _) as l') => (a <? b)%Z && increasing l'
  | _ => true
  end.

(** A descriptor the library accepts. *)
Definition desc_ok (d : Desc) : bool :=
  word (d_name d) && negb (is_empty (d_help d))
  && forallb word (d_labels d) && bool_decide (NoDup (d_labels d))
  && match d_kind d with HistogramVec bs => increasing bs | _ => true end.

(** What the library promises: a good descriptor makes a collector, and a
    registry accepts a collector whose name is not in it. *)
Class PrometheusLaws `{Prometheus} := {
  collector_desc : Collector → Desc;
  registered : Registry → list string;
  collector_new_ok d : desc_ok d = true →
    ∃ c, collector_new d = Ok c ∧ collector_desc c = d;
  registered_new : registered Registry_new = [];
  register_ok r c : d_name (collector_desc c) ∉ registered r →
    ∃ r', register r c = Ok r' ∧ registered r' = d_name (collector_desc c) :: registered r;
}.

(** ** The code *)

Definition latency_buckets : list Z :=
  [1; 5; 10; 25; 50; 100; 250; 500; 1000; 2500; 5000; 10000]%Z.

Definition requests : Desc :=
  mkDesc IntCounterVec "gw_requests_total" "Requests handled" ["route"; "method"; "status"].
Definition upstream_latency : Desc :=
  mkDesc (HistogramVec latency_buckets) "gw_upstream_latency_seconds"
    "Upstream call latency" ["route"].
Definition gateway_latency : Desc :=
  mkDesc (HistogramVec latency_buckets) "gw_gateway_latency_seconds"
    "Total gateway latency" ["route"].
Definition active_connections : Desc :=
  mkDesc IntGauge "gw_active_connections" "In-flight requests" [].
Definition rate_limit_rejections : Desc :=
  mkDesc IntCounterVec "gw_rate_limit_rejections_total" "Rate-limit rejections" ["route"].
Definition auth_rejections : Desc :=
  mkDesc IntCounterVec "gw_auth_rejections_total" "Auth rejections" ["route"].
Definition upstream_errors : Desc :=
  mkDesc IntCounterVec "gw_upstream_errors_total" "Upstream errors" ["route"].
Definition cache_hits : Desc :=
  mkDesc IntCounterVec "gw_cache_hits_total" "Cache hits" ["route"].
Definition cache_misses : Desc :=
  mkDesc IntCounterVec "gw_cache_misses_total" "Cache misses" ["route"].
Definition circuit_state : Desc :=
  mkDesc IntGaugeVec "gw_circuit_breaker_state" "0=closed 1=half 2=open" ["route"; "upstream"].

(** In the order the collectors are made, and in the order they are registered. *)
Definition made : list Desc :=
  [requests; upstream_latency; gateway_latency; active_connections; rate_limit_rejections;
   auth_rejections; upstream_errors; cache_hits; cache_misses; circuit_state].
Definition registration : list Desc :=
  [requests; rate_limit_rejections; auth_rejections; upstream_errors; cache_hits; cache_misses;
   upstream_latency; gateway_latency; active_connections; circuit_state].

(** ** Logging

    [init_tracing] installs the process's subscriber, once.  Its parts are the
    libraries': [EnvFilter], and [try_init], which sets the global default subscriber or
    says why it cannot ([init] panics then).  [OnceCell] is as std has it
    ([OnceLock]): a closure that panics leaves the cell empty. *)
Inductive Layer : Type := Json (current_span : bool) | Compact.

Class TracingLib := {
  EnvFilter : Type;
  try_from_default_env : (string → option string) → Result string EnvFilter;
  EnvFilter_new : string → EnvFilter;
  Dispatch : Type;
  Dispatch_none : Dispatch;
  try_init : EnvFilter * Layer → Dispatch → Result string Dispatch;
}.

(** Documented: it fails when a subscriber has been set. *)
Class TracingLaws `{TracingLib} := {
  installed : Dispatch → option (EnvFilter * Layer);
  installed_none : installed Dispatch_none = None;
  try_init_ok sub d : installed d = None → ∃ d', try_init sub d = Ok d' ∧ installed d' = Some sub;
}.

Definition get_or_init {A D} (f : D → Outcome A * D) (s : option A * D) : Outcome A * (option A * D) :=
  match s.1 with
  | Some a => (Ret a, s)
  | None =>
      match f s.2 with
      | (Ret a, d) => (Ret a, (Some a, d))
      | (o, d) => (o, (None, d))
      end
  end.

Section tracing.
Context `{TracingLib}.

(** The cell and the global default subscriber, when the process starts. *)
Definition TRACING : option unit * Dispatch := (None, Dispatch_none).

Definition init (sub : EnvFilter * Layer) (d : Dispatch) : Outcome unit * Dispatch :=
  match try_init sub d with
  | Ok d' => (Ret (), d')
  | Err e => (Panic e, d)
  end.

(** The subscriber for this environment. *)
Definition subscriber (var : string → option string) (json : bool) : EnvFilter * Layer :=
  (match try_from_default_env var with
   | Ok filter => filter
   | Err _ => EnvFilter_new "info,hyper=warn,reqwest=warn"
   end,
   if json then Json true else Compact).

(** [service] is only logged. *)
Definition init_tracing (var : string → option string) (service : string) (json : bool)
    : option unit * Dispatch → Outcome unit * (option unit * Dispatch) :=
  get_or_init (init (subscriber var json)).

(** The first call installs, the next ones do nothing. *)
Lemma init_tracing_first `{!TracingLaws} var service json :
  ∃ d, init_tracing var service json TRACING = (Ret (), (Some (), d))
    ∧ installed d = Some (subscriber var json).
Proof.
  destruct (try_init_ok (subscriber var json) Dispatch_none installed_none) as (d & Hd & Hi).
  exists d. unfold init_tracing, get_or_init, init; simpl. by rewrite Hd.
Qed.

Lemma init_tracing_again var var' service service' json json' s s' :
  init_tracing var service json s = (Ret (), s') → init_tracing var' service' json' s' = (Ret (), s').
Proof.
  unfold init_tracing, get_or_init. destruct s as [[[]|] d]; simpl; [by intros [= <-]|].
  by destruct (init _ d) as [[[]|m|] d']; intros [= <-].
Qed.
End tracing.

Section new.
Context `{Prometheus}.

(** The struct: the registry, and each collector under its descriptor, as in [made]. *)
Definition Metrics : Type := Registry * list (Desc * Collector).

Definition unwrap {A} (r : Result string A) : Outcome A :=
  match r with Ok a => Ret a | Err e => Panic e end.

Fixpoint make_all (ds : list Desc) : Outcome (list (Desc * Collector)) :=
  match ds with
  | [] => mret []
  | d :: ds => c ← unwrap (collector_new d); cs ← make_all ds; mret ((d, c) :: cs)
  end.

Definition find_collector (cs : list (Desc * Collector)) (d : Desc) : option Collector :=
  snd <$> List.find (λ dc, String.eqb (d_name dc.1) (d_name d)) cs.

Fixpoint register_all (cs : list (Desc * Collector)) (ds : list Desc) (r : Registry)
    : Outcome Registry :=
  match ds with
  | [] => mret r
  | d :: ds =>
      match find_collector cs d with
      | Some c => r ← unwrap (register r c); register_all cs ds r
      | None => Panic "no such collector"
      end
  end.

(** [Metrics::new]: every step is unwrapped. *)
Definition Metrics_new : Outcome Metrics :=
  cs ← make_all made;
  r ← register_all cs registration Registry_new;
  mret (r, cs).
End new.

(** [Metrics::render]: the encoder and the UTF-8 check are the library's. *)
Definition render `{Prometheus} (encode : Registry → Result string string)
    (from_utf8 : string → option string) (r : Registry) : string :=
  match encode r with
  | Ok buf => default EmptyString (from_utf8 buf)
  | Err _ => EmptyString
  end.

(** [vec.with_label_values(labels)] panics unless there is one value per label. *)
Definition labels_fit (d : Desc) (labels : list string) : bool :=
  Nat.eqb (length labels) (length (d_labels d)).

(** ** Lemmas *)
Section laws.
Context `{PrometheusLaws}.

(** The collectors made are those of the descriptors. *)
Lemma make_all_ok ds :
  forallb desc_ok ds = true →
  ∃ cs, make_all ds = Ret cs ∧ cs.*1 = ds
        ∧ Forall (λ dc, collector_desc dc.2 = dc.1) cs.
Proof.
  induction ds as [|d ds IH]; simpl.
  { intros _. exists []. split_and!; [done..|constructor]. }
  intros [Hd Hds]%andb_true_iff. destruct (collector_new_ok d Hd) as (c & Hc & Hcd).
  destruct (IH Hds) as (cs & Hcs & Hfst & Hall).
  exists ((d, c) :: cs). rewrite Hc. simpl. rewrite Hcs. simpl.
  split_and!; [done|by subst ds|by constructor].
Qed.

Lemma find_collector_ok cs d :
  Forall (λ dc, collector_desc dc.2 = dc.1) cs → d_name d ∈ d_name <$> cs.*1 →
  ∃ c, find_collector cs d = Some c ∧ d_name (collector_desc c) = d_name d.
Proof.
  unfold find_collector. induction 1 as [|[d' c] cs Hc _ IH]; simpl in *; [set_solver|].
  intros Hin. destruct (String.eqb_spec (d_name d') (d_name d)) as [Heq|Hne].
  - exists c. simpl. split; [done|congruence].
  - apply IH. set_solver.
Qed.

Lemma register_all_ok cs ds r :
  Forall (λ dc, collector_desc dc.2 = dc.1) cs →
  Forall (λ d, d_name d ∈ d_name <$> cs.*1) ds →
  NoDup (d_name <$> ds) → (∀ d, d ∈ ds → d_name d ∉ registered r) →
  ∃ r', register_all cs ds r = Ret r'
        ∧ registered r' = reverse (d_name <$> ds) ++ registered r.
Proof.
  intros Hcs. revert r. induction ds as [|d ds IH]; intros r; simpl; [eauto|].
  intros [Hd Hds]%Forall_cons [Hnd Hnds]%NoDup_cons Hfresh.
  destruct (find_collector_ok cs d Hcs Hd) as (c & -> & Hname).
  destruct (register_ok r c) as (r1 & Hr1 & Hreg1).
  { rewrite Hname. apply Hfresh. set_solver. }
  rewrite Hr1. simpl. destruct (IH r1) as (r' & Hr' & Hreg); [done..| |].
  - intros d' Hd'. rewrite Hreg1, Hname. apply not_elem_of_cons. split.
    + intros Heq. apply Hnd. rewrite <- Heq. by apply list_elem_of_fmap_2.
    + apply Hfresh. set_solver.
  - exists r'. split; [done|]. by rewrite Hreg, Hreg1, Hname, reverse_cons, <- app_assoc.
Qed.
End laws.

(** ** One implementation of the interface: a registry of descriptors *)
Module Listed.
#[global] Instance prometheus : Prometheus := {|
  Registry := list Desc;
  Registry_new := [];
  Collector := Desc;
  collector_new := λ d, if desc_ok d then Ok d else Err "invalid descriptor";
  register := λ r d,
    if decide (d_name d ∈ d_name <$> r) then Err "duplicate metrics collector" else Ok (d :: r);
|}.

#[global] Instance prometheus_laws : PrometheusLaws.
Proof.
  refine {| collector_desc := λ d : @Collector prometheus, d;
            registered := λ r : @Registry prometheus, d_name <$> r |}.
  - intros d Hd. exists d. simpl. by rewrite Hd.
  - done.
  - intros r c Hc. simpl in *. rewrite decide_False by done. eauto.
Defined.
End Listed.

(** A process whose subscriber can be set once. *)
Module Once.
#[global] Instance tracing : TracingLib := {|
  EnvFilter := string;
  try_from_default_env := λ var, match var "RUST_LOG" with Some f => Ok f | None => Err "not set" end;
  EnvFilter_new := λ f, f;
  Dispatch := option (string * Layer);
  Dispatch_none := None;
  try_init := λ sub d, match d with Some _ => Err "already set" | None => Ok (Some sub) end;
|}.

#[global] Instance tracing_laws : TracingLaws.
Proof.
  refine {| installed := λ d : @Dispatch tracing, d |}; [done|].
  intros sub d Hd. simpl in *. rewrite Hd. eauto.
Defined.
End Once.

(** ** Properties *)

(** Building the metrics never panics: every descriptor is one the library
    accepts, every collector that is made is registered, and no two share a
    name. *)
Theorem metrics_new_total `{PrometheusLaws} :
  ∃ r cs, Metrics_new = Ret (r, cs) ∧ cs.*1 = made
    ∧ registered r ≡ₚ d_name <$> made ∧ NoDup (d_name <$> made).
Proof.
  destruct (make_all_ok made eq_refl) as (cs & Hcs & Hfst & Hall).
  destruct (register_all_ok cs registration Registry_new) as (r & Hr & Hreg).
  - done.
  - apply Forall_forall. rewrite Hfst. intros d Hd. apply list_elem_of_fmap_2.
    revert d Hd. apply Forall_forall. unfold registration, made.
    repeat (constructor; [set_solver|]). constructor.
  - by apply (bool_decide_eq_true _).
  - intros d _. rewrite registered_new. set_solver.
  - exists r, cs. unfold Metrics_new, mbind, Outcome_bind. rewrite Hcs, Hr. split_and!; [done|done| |].
    + rewrite Hreg, registered_new, app_nil_r, reverse_Permutation.
      apply NoDup_Permutation; [by apply (bool_decide_eq_true _)..|].
      intros n. vm_compute. set_solver.
    + by apply (bool_decide_eq_true _).
Qed.

Lemma metrics_new_total_witness :
  ∃ r cs, Metrics_new (H := Listed.prometheus) = Ret (r, cs) ∧ cs.*1 = made
    ∧ registered r ≡ₚ d_name <$> made ∧ NoDup (d_name <$> made).
Proof. exact metrics_new_total. Defined.

End Telemetry.
