(* ===== verification/Events.v ===== *)
(** What the gateway's tasks ask of the outside world: the clock, random ids,
    metrics, the body of the request, the upstreams and Redis.  The answers are
    the oracle's (Prog.v); [Alone] is an oracle for concrete runs. *)
From S2P Require Import Prelude RustStd Prog RateLimit Http Telemetry.

(** The [reqwest] call of one attempt, and what it gives. *)
Record SendRequest `{Http} := mkSend {
  sr_method : string;
  sr_url : string;
  sr_headers : HeaderMap;
  sr_body : string;
  sr_timeout : Duration;
}.

Record SendError := mkSendError { is_connect : bool }.

Record UpstreamResponse `{Http} := mkUpResp { ur_status : Z; ur_headers : HeaderMap }.

Arguments mkSend {H} sr_method sr_url sr_headers sr_body sr_timeout.
Arguments mkUpResp {H} ur_status ur_headers.

Inductive MetricOp : Type := Inc | Dec | Observe (d : Duration) | SetTo (v : Z).

#[export] Instance MetricOp_eq_dec : EqDecision MetricOp.
Proof. solve_decision. Defined.

(** The updates a collector has. *)
Definition op_fits (k : Telemetry.Kind) (op : MetricOp) : bool :=
  match k, op with
  | Telemetry.IntCounterVec, Inc | Telemetry.HistogramVec _, Observe _ => true
  | Telemetry.IntGauge, (Inc | Dec) | Telemetry.IntGaugeVec, SetTo _ => true
  | _, _ => false
  end.

Inductive GwE `{Http} : Type → Type :=
| ENowG : GwE Instant
| EUuid : GwE string
| EMetric (d : Telemetry.Desc) (labels : list string) (op : MetricOp) : GwE unit
| EReadBody (max : Z) : GwE (Result string string)
| ESend (r : SendRequest) : GwE (Result SendError UpstreamResponse)
| EReadResponse : GwE (Result string string)
| EProbe (url : string) (timeout : Duration) : GwE (Result string Z)
| ERedisIncr (key : string) : GwE (Result string Z)
| ERedisExpire (key : string) (secs : Z) : GwE (Result string unit)
| ERedisTtl (key : string) : GwE (Result string Z).

#[export] Instance clock_gw `{Http} : Clock GwE := ENowG.

#[export] Instance redis_gw `{Http} : RateLimit.Redis.RedisConn GwE := {|
  RateLimit.Redis.ev_incr := ERedisIncr;
  RateLimit.Redis.ev_expire := ERedisExpire;
  RateLimit.Redis.ev_ttl := ERedisTtl;
|}.

(** The clock gives times in [T]; nothing is known of the other answers. *)
Definition clock_in `{Http} (T : Instant → Prop) : ∀ X, GwE X → X → Prop := λ X e,
  match e in GwE X return X → Prop with ENowG => T | _ => λ _, True end.

(** [metrics.d.with_label_values(labels).op()]. *)
Definition metric `{Http} {S} (d : Telemetry.Desc) (labels : list string) (op : MetricOp)
    : prog GwE S unit :=
  if Telemetry.labels_fit d labels then ext (EMetric d labels op)
  else panic "inconsistent cardinality".

(** The upstream calls of a trace. *)
Definition send_of `{Http} (ob : Obs GwE) : option SendRequest :=
  match ob with
  | Called (ESend r) _ => Some r
  | _ => None
  end.
Definition sends `{Http} (t : list (Obs GwE)) : list SendRequest := omap send_of t.

(** One upstream call with the answer it got ([None]: the call was dropped). *)
Definition call_of `{Http} (ob : Obs GwE)
    : option (SendRequest * option (Result SendError UpstreamResponse)) :=
  match ob with
  | @Called _ X e answer =>
      match e in GwE X return option X → _ with
      | ESend r => λ answer, Some (r, answer)
      | _ => λ _, None
      end answer
  end.
Definition calls `{Http} (t : list (Obs GwE))
    : list (SendRequest * option (Result SendError UpstreamResponse)) := omap call_of t.

(** The metric updates of a trace. *)
Definition metric_of `{Http} (ob : Obs GwE) : option (Telemetry.Desc * list string * MetricOp) :=
  match ob with
  | Called (EMetric d ls op) _ => Some (d, ls, op)
  | _ => None
  end.
Definition metrics `{Http} (t : list (Obs GwE))
    : list (Telemetry.Desc * list string * MetricOp) := omap metric_of t.

Section traces.
Context `{Http}.

Lemma calls_app t t' : calls (t ++ t') = calls t ++ calls t'.
Proof. apply omap_app. Qed.

Lemma metrics_app t t' : metrics (t ++ t') = metrics t ++ metrics t'.
Proof. apply omap_app. Qed.

Lemma sends_calls t : sends t = (calls t).*1.
Proof.
  unfold sends, calls. induction t as [|[X e a] t IH]; [done|]. simpl.
  destruct e; simpl; first [exact IH | f_equal; exact IH].
Qed.
End traces.

(** ** Concrete runs *)
Section alone.
Context `{Http}.

(** The answers of a quiet world: the clock at each step, the random ids, the
    body of the request, the upstreams, the body of their answer, the counter of
    Redis and the health probes. *)
Record World := {
  w_now : nat → Instant;
  w_uuid : string;
  w_body : Result string string;
  w_up : SendRequest → Result SendError UpstreamResponse;
  w_read : Result string string;
  w_redis : Z;
  w_probe : Result string Z;
}.

Definition world_answer (w : World) (n : nat) {X} (e : GwE X) : X :=
  match e with
  | ENowG => w_now w n
  | EUuid => w_uuid w
  | EMetric _ _ _ => ()
  | EReadBody _ => w_body w
  | ESend r => w_up w r
  | EReadResponse => w_read w
  | EProbe _ _ => w_probe w
  | ERedisIncr _ => Ok (w_redis w)
  | ERedisExpire _ _ => Ok ()
  | ERedisTtl _ => Ok 1%Z
  end.

Definition alone_in {S} (w : World) : Oracle GwE S := {|
  o_rely := λ _ s, s;
  o_ext := λ n X e, world_answer w n e;
  o_await := λ n X e, Some (world_answer w n e);
|}.
End alone.
