(* ===== verification/State.v ===== *)
(** The shared runtime state: src/crates/gateway/src/state.rs.

    [GatewayState] and [RouteRuntime] are the parts that never change after
    [build]; [Shared] holds the atomics and mutexes behind them: per route the
    balancer's state and the cache, and the limiter's state. *)
From S2P Require Import Prelude RustStd Prog Config Router Breaker RateLimit Cache Balancer.
Import Config.

Module State.

(** ** The code *)

Record RouteRuntime := mkRuntime {
  rt_config : RouteConfig;
  rt_balancer : Balancer.Balancer;
  rt_cached : bool;   (* [cache.is_some()] *)
}.

Record RouteState := mkRouteState {
  rs_bal : Balancer.BalState;
  rs_cache : option Cache.ResponseCache;
}.

Definition new_cache (route : RouteConfig) : option Cache.ResponseCache :=
  (λ c, Cache.new (Duration_from_secs (cc_ttl_secs c)) (cc_max_entries c))
    <$> rc_cache route.

Definition from_config (route : RouteConfig) : RouteRuntime * RouteState :=
  let '(b, s) := Balancer.from_route route in
  let cache := new_cache route in
  (mkRuntime route b (is_some cache), mkRouteState s cache).

Record GatewayState := mkGateway {
  gs_config : GatewayConfig;
  gs_routes : gmap string RouteRuntime;
}.

Record Shared (L : Type) := mkShared {
  sh_routes : gmap string RouteState;
  sh_limiter : L;
}.
Arguments mkShared {L} sh_routes sh_limiter.
Arguments sh_routes {L} s.
Arguments sh_limiter {L} s.

(** [Arc<dyn RateLimiter>]: one of the two implementations. *)
Inductive AnyLimiter : Type :=
| UseRedis (l : RateLimit.Redis.Limiter)
| UseMemory (l : RateLimit.InMemory.Limiter).

Definition get_redis (a : AnyLimiter) : option RateLimit.Redis.Limiter :=
  match a with UseRedis l => Some l | UseMemory _ => None end.
Definition get_memory (a : AnyLimiter) : option RateLimit.InMemory.Limiter :=
  match a with UseMemory l => Some l | UseRedis _ => None end.
Definition is_redis (a : AnyLimiter) : bool := is_some (get_redis a).

(** The dynamic dispatch: the kind of the object is read first, as a step of its own (one
    more point where others may run); it never changes. *)
#[export] Instance any_limiter {E} `{Clock E, RateLimit.Redis.RedisConn E, Profile}
    : RateLimit.RateLimiter E AnyLimiter :=
  λ key lim window,
    redis ← act (λ a, (Ret (is_redis a), a));
    if redis : bool
    then zoom get_redis (λ l _, UseRedis l) (RateLimit.check key lim window)
    else zoom get_memory (λ l _, UseMemory l) (RateLimit.check key lim window).

(** The loop of [build]: later routes of the same name replace earlier ones. *)
Definition build_routes (rs : list RouteConfig) : gmap string (RouteRuntime * RouteState) :=
  foldl (λ m r, <[rc_name r := from_config r]> m) ∅ rs.

Section build.
(** The HTTP client and the Redis client are libraries. *)
Context (client_build : Result string unit)
        {Client Conn : Type}
        (open : string → Result string Client)
        (connection_manager : Client → Result string Conn).

Definition choose_limiter (redis_url : option string) : AnyLimiter :=
  match redis_url with
  | Some url =>
      match RateLimit.Redis.connect open connection_manager url with
      | Ok _ => UseRedis RateLimit.Redis.Connected
      | Err _ => UseMemory RateLimit.InMemory.new
      end
  | None => UseMemory RateLimit.InMemory.new
  end.

Definition build (config : GatewayConfig) : Result string (GatewayState * Shared AnyLimiter) :=
  let routes := build_routes (gc_routes config) in
  _ ← client_build;
  let limiter := choose_limiter (sc_redis_url (gc_server config)) in
  mret (mkGateway config (fst <$> routes), mkShared (snd <$> routes) limiter).
End build.

Definition route (gs : GatewayState) (name : string) : option RouteRuntime :=
  gs_routes gs !! name.

(** ** Reaching the parts of the shared state *)
Section lenses.
Context {L : Type}.

Definition alter_route (name : string) (f : RouteState → RouteState) (sh : Shared L)
    : Shared L := mkShared (alter f name (sh_routes sh)) (sh_limiter sh).

Definition get_bal (name : string) (sh : Shared L) : option Balancer.BalState :=
  rs_bal <$> sh_routes sh !! name.
Definition set_bal (name : string) (b : Balancer.BalState) : Shared L → Shared L :=
  alter_route name (λ rs, mkRouteState b (rs_cache rs)).

Definition get_cache (name : string) (sh : Shared L) : option Cache.ResponseCache :=
  sh_routes sh !! name ≫= rs_cache.
Definition set_cache (name : string) (c : Cache.ResponseCache) : Shared L → Shared L :=
  alter_route name (λ rs, mkRouteState (rs_bal rs) (Some c)).

Definition get_limiter (sh : Shared L) : option L := Some (sh_limiter sh).
Definition set_limiter (l : L) (sh : Shared L) : Shared L := mkShared (sh_routes sh) l.

Definition on_bal {E A} (name : string) (p : prog E Balancer.BalState A)
    : prog E (Shared L) A := zoom (get_bal name) (set_bal name) p.
Definition on_cache {E A} (name : string) (p : prog E Cache.ResponseCache A)
    : prog E (Shared L) A := zoom (get_cache name) (set_cache name) p.
Definition on_limiter {E A} (p : prog E L A) : prog E (Shared L) A :=
  zoom get_limiter set_limiter p.

(** The breaker of upstream [idx]. *)
Definition on_breaker {E A} (name : string) (idx : nat)
    (p : prog E Breaker.CircuitBreaker A) : prog E (Shared L) A :=
  on_bal name (zoom (Balancer.get_breaker idx) (Balancer.set_breaker idx) p).
End lenses.

(** ** Lemmas *)

Lemma build_routes_lookup rs n :
  build_routes rs !! n =
  from_config <$> last (filter (λ r, rc_name r = n) rs).
Proof.
  unfold build_routes. induction rs as [|r rs IH] using rev_ind; [done|].
  rewrite foldl_app, filter_app. simpl. rewrite filter_cons, filter_nil.
  case_decide as Hn.
  - subst n. by rewrite lookup_insert_eq, last_snoc.
  - by rewrite lookup_insert_ne, app_nil_r.
Qed.

Lemma filter_name_unique rs r :
  NoDup (rc_name <$> rs) → r ∈ rs → filter (λ r', rc_name r' = rc_name r) rs = [r].
Proof.
  induction rs as [|r' rs IH]; [set_solver|].
  rewrite fmap_cons, filter_cons. intros [Hr' Hnd]%NoDup_cons [->|Hin]%elem_of_cons.
  - rewrite decide_True by done. rewrite filter_none; [done|].
    apply Forall_forall. intros r Hr Heq. apply Hr'. rewrite <- Heq.
    by apply list_elem_of_fmap_2.
  - rewrite decide_False; [by apply IH|]. intros Heq. apply Hr'. rewrite Heq.
    by apply list_elem_of_fmap_2.
Qed.

Lemma build_routes_spec rs r :
  NoDup (rc_name <$> rs) → r ∈ rs → build_routes rs !! rc_name r = Some (from_config r).
Proof. intros Hnd Hr. by rewrite build_routes_lookup, filter_name_unique. Qed.

Lemma build_routes_names rs n :
  is_Some (build_routes rs !! n) → n ∈ rc_name <$> rs.
Proof.
  rewrite build_routes_lookup, fmap_is_Some. intros [r Hr].
  apply last_Some_elem_of in Hr.
  apply list_elem_of_filter in Hr as [<- Hr]. by apply list_elem_of_fmap_2.
Qed.

(** What [build] makes: a runtime and its state for every name of the configuration. *)
Lemma build_lookup {Client Conn} (open : string → Result string Client)
    (connection_manager : Client → Result string Conn) config gs sh :
  build (Ok ()) open connection_manager config = Ok (gs, sh) →
  gs_config gs = config
  ∧ sh_limiter sh = choose_limiter open connection_manager (sc_redis_url (gc_server config))
  ∧ ∀ name,
      (route gs name = None ∧ sh_routes sh !! name = None)
      ∨ ∃ r, r ∈ gc_routes config ∧ rc_name r = name
          ∧ route gs name = Some (from_config r).1
          ∧ sh_routes sh !! name = Some (from_config r).2.
Proof.
  intros Hb. injection Hb as <- <-. split_and!; [done|done|]. intros name.
  unfold route; simpl. rewrite !lookup_fmap, build_routes_lookup.
  destruct (last _) as [r|] eqn:Hr; simpl; [right|by left]. exists r.
  apply last_Some_elem_of, list_elem_of_filter in Hr as [Hn Hr]. done.
Qed.

(** ** Properties *)

(** On a validated configuration, building the state gives every route that
    can be matched a runtime made from that very route (so the "route runtime
    missing" answer is never given), whose balancer and cache are in order; rate
    limiting goes through Redis exactly when a URL is configured and connecting
    to it succeeds. *)
Theorem build_spec {Client Conn} (open : string → Result string Client)
    (connection_manager : Client → Result string Conn) config host path r :
  config_ok config → Router.match_route config host path = Some r →
  ∃ gs sh, build (Ok ()) open connection_manager config = Ok (gs, sh)
    ∧ gs_config gs = config
    ∧ route gs (rc_name r) = Some (from_config r).1
    ∧ sh_routes sh !! rc_name r = Some (from_config r).2
    ∧ rt_config (from_config r).1 = r
    ∧ Balancer.order_ok (rt_balancer (from_config r).1)
    ∧ Balancer.bal_live (rt_balancer (from_config r).1) (rs_bal (from_config r).2)
    ∧ (is_redis (sh_limiter sh) = true ↔
       ∃ url client conn, sc_redis_url (gc_server config) = Some url
         ∧ open url = Ok client ∧ connection_manager client = Ok conn).
Proof.
  intros (_ & Hnd & Hok) [Hr _]%Router.match_route_candidate.
  pose proof (build_routes_spec _ _ Hnd Hr) as Hlook.
  rewrite Forall_forall in Hok. destruct (Hok _ Hr) as [Hne _].
  eexists _, _. split; [reflexivity|]. unfold route; simpl.
  rewrite !lookup_fmap, Hlook. split_and!; [done..|by apply Balancer.from_route_order| |].
  { apply Balancer.from_route_live. }
  unfold choose_limiter, RateLimit.Redis.connect, mbind, Result_bind.
  destruct (sc_redis_url _) as [url|]; [|by split; [|intros (? & ? & ? & [=] & _)]].
  destruct (open url) as [client|] eqn:Eo;
    [|split; [done|]; intros (? & ? & ? & [= <-] & ? & _); congruence].
  destruct (connection_manager client) as [conn|] eqn:Ec.
  - split; [|done]. intros _. by exists url, client, conn.
  - split; [done|]. intros (? & ? & ? & [= <-] & ? & ?); congruence.
Qed.

Definition demo_config : GatewayConfig := {|
  gc_server := ServerConfig_default;
  gc_routes := [RouteConfig_defaults "r" [demo_upstream]];
|}.

Lemma build_spec_witness :
  ∃ gs sh, build (Ok ()) (λ url, Ok url) (λ c : string, Ok c) demo_config = Ok (gs, sh)
    ∧ route gs "r" = Some (from_config (RouteConfig_defaults "r" [demo_upstream])).1
    ∧ is_redis (sh_limiter sh) = false.
Proof.
  destruct (build_spec (λ url, Ok url) (λ c : string, Ok c) demo_config (Some EmptyString) "/"
    (RouteConfig_defaults "r" [demo_upstream])) as (gs & sh & Hb & _ & Hr & _ & _ & _ & _ & Hl).
  - unfold config_ok, route_ok, upstream_ok. simpl. split_and!; [done| |].
    + apply NoDup_singleton.
    + apply Forall_singleton. split_and!; [done| |by exists EmptyString|done].
      apply Forall_singleton. split; [|done]. exists "a". by left.
  - by vm_compute.
  - exists gs, sh. split_and!; [done|exact Hr|].
    destruct (is_redis (sh_limiter sh)); [|done].
    destruct (proj1 Hl eq_refl) as (url & _ & _ & Hurl & _). by vm_compute in Hurl.
Defined.

End State.
