(* ===== verification/Health.v ===== *)
(** Active health checks: src/crates/gateway/src/health.rs.

    [run] spawns one task per upstream of every route that configures a check;
    [checks] lists those tasks and [task] is the body of one, for a given number
    of ticks before the shutdown.  When a tick is due is tokio's
    choice, and the [select!] arm of a tick runs to its end once chosen.  The loops with
    their shutdown, and how [run] waits for them, are in Lifecycle.v. *)
From S2P Require Import Prelude RustStd Prog Config Http Events Balancer State.
Import Config State.

Module Health.

Record HealthTask := mkTask {
  ht_route : string;
  ht_idx : nat;
  ht_url : string;
  ht_interval : Duration;
  ht_timeout : Duration;
}.

Definition route_checks (name : string) (rt : RouteRuntime) : list HealthTask :=
  match rc_health_check (rt_config rt) with
  | None => []
  | Some hc =>
      imap (λ i up, mkTask name i (Balancer.url up +:+ hc_path hc)%string
                      (Duration_from_secs (Z.max (hc_interval_secs hc) 1))
                      (Duration_from_millis (Z.max (hc_timeout_ms hc) 100)))
           (Balancer.upstreams (rt_balancer rt))
  end.

(** The spawned tasks, in the order of the map (they run concurrently). *)
Definition checks (gs : GatewayState) : list HealthTask :=
  concat ((λ nr, route_checks nr.1 nr.2) <$> map_to_list (gs_routes gs)).

Section task.
Context `{Http} {L : Type}.

Definition verdict (r : Result string Z) : bool :=
  match r with Ok status => StatusCode_is_success status | Err _ => false end.

(** One tick.  [is_healthy] is read only for the log. *)
Definition tick (c : HealthTask) : prog GwE (Shared L) unit :=
  r ← await (EProbe (ht_url c) (ht_timeout c));
  _ ← on_bal (ht_route c) (Balancer.is_healthy (ht_idx c));
  on_bal (ht_route c) (Balancer.set_healthy (ht_idx c) (verdict r)).

Fixpoint task (c : HealthTask) (ticks : nat) : prog GwE (Shared L) unit :=
  match ticks with
  | 0 => mret ()
  | Datatypes.S ticks => _ ← tick c; task c ticks
  end.

(** ** Specification *)

(** The health flag of one upstream. *)
Definition flag (sh : Shared L) (name : string) (i : nat) : option bool :=
  get_bal name sh ≫= λ s, Balancer.healthy <$> Balancer.ups s !! i.

(** Everything but the flag of upstream [i] of route [name]. *)
Definition same_but_flag (name : string) (i : nat) (sh sh' : Shared L) : Prop :=
  (sh_limiter sh' = sh_limiter sh)
  ∧ (∀ n, n ≠ name → sh_routes sh' !! n = sh_routes sh !! n)
  ∧ get_cache name sh' = get_cache name sh
  ∧ (∀ s, get_bal name sh = Some s →
      ∃ v, get_bal name sh' = Some (Balancer.alter_up i (Balancer.put_healthy v) s)).

Lemma set_bal_flag name i v (sh : Shared L) s :
  get_bal name sh = Some s →
  let sh' := set_bal name (Balancer.alter_up i (Balancer.put_healthy v) s) sh in
  get_bal name sh' = Some (Balancer.alter_up i (Balancer.put_healthy v) s)
  ∧ same_but_flag name i sh sh'.
Proof.
  unfold same_but_flag, get_bal, set_bal, alter_route, get_cache. intros Hs.
  apply fmap_Some in Hs as (rs & Hrs & ->). simpl.
  rewrite !lookup_alter_eq, Hrs. simpl. split; [done|]. split_and!; [done| |done|].
  - intros n Hn. by rewrite lookup_alter_ne.
  - intros s [= <-]. by eexists.
Qed.
End task.

(** ** Properties *)

(** The health checks cover exactly the upstreams of the routes that
    configure one, at least a second apart and with a timeout of at least 100 ms;
    and a tick that is not interrupted sets the health flag of its upstream to
    whether the probe answered with a success status, and changes nothing else. *)
Theorem health_tick_spec `{Http} {L} (gs : GatewayState) (o : Oracle GwE (Shared L)) c n sh r s u :
  (∀ k s, o_rely o k s = s) →
  o_await o n _ (EProbe (ht_url c) (ht_timeout c)) = Some r →
  get_bal (ht_route c) sh = Some s → Balancer.ups s !! ht_idx c = Some u →
  (let run := exec o (tick c) n sh in
   r_out run = Ret ()
   ∧ flag (r_state run) (ht_route c) (ht_idx c) = Some (verdict r)
   ∧ same_but_flag (ht_route c) (ht_idx c) sh (r_state run))
  ∧ (c ∈ checks gs ↔
     ∃ rt hc up, gs_routes gs !! ht_route c = Some rt
       ∧ rc_health_check (rt_config rt) = Some hc
       ∧ Balancer.upstreams (rt_balancer rt) !! ht_idx c = Some up
       ∧ ht_url c = (Balancer.url up +:+ hc_path hc)%string
       ∧ ht_interval c = (Z.max (hc_interval_secs hc) 1 * nanos)%Z
       ∧ ht_timeout c = (Z.max (hc_timeout_ms hc) 100 * 1000000)%Z).
Proof.
  intros Ho Hr Hs Hu. split.
  - intros run.
    assert (Hrun : r_out run = Ret () ∧ r_state run =
      set_bal (ht_route c) (Balancer.alter_up (ht_idx c) (Balancer.put_healthy (verdict r)) s) sh).
    { subst run. simpl. rewrite Hr. simpl. rewrite !Ho, Hs. simpl. rewrite Hu. simpl.
      rewrite !Ho.
      assert (get_bal (ht_route c) (set_bal (ht_route c) s sh) = Some s) as ->.
      { unfold get_bal, set_bal, alter_route in *; simpl. rewrite lookup_alter_eq.
        apply fmap_Some in Hs as (rs & -> & ->). done. }
      simpl. split; [done|]. unfold set_bal, alter_route; simpl. f_equal.
      by rewrite alter_alter_eq. }
    destruct Hrun as [Hout ->]. split; [done|].
    destruct (set_bal_flag (ht_route c) (ht_idx c) (verdict r) sh s Hs) as [Hb Hsame].
    split; [|done]. unfold flag. rewrite Hb. simpl.
    by rewrite list_lookup_alter_eq, Hu.
  - unfold checks. rewrite list_elem_of_In, List.in_concat.
    setoid_rewrite <- list_elem_of_In. setoid_rewrite list_elem_of_fmap. split.
    + intros (l & ((name & rt) & -> & Hin) & Hc). simpl in Hc.
      apply elem_of_map_to_list in Hin. unfold route_checks in Hc.
      destruct (rc_health_check (rt_config rt)) as [hc|] eqn:Ehc; [|set_solver].
      apply elem_of_lookup_imap in Hc as (i & up & -> & Hup). simpl. by exists rt, hc, up.
    + destruct c as [name i url iv tm]; simpl.
      intros (rt & hc & up & Hrt & Hhc & Hup & -> & -> & ->).
      eexists. split; [exists (name, rt); split; [reflexivity|by apply elem_of_map_to_list]|].
      unfold route_checks. simpl. rewrite Hhc. apply elem_of_lookup_imap. by exists i, up.
Qed.

Definition demo_route : RouteConfig := {|
  rc_name := "r";
  rc_matches := MatchConfig_default;
  rc_upstreams := [demo_upstream];
  rc_strategy := RoundRobin;
  rc_strip_path_prefix := false;
  rc_timeout_ms := None;
  rc_retries := 0;
  rc_auth := AuthNone;
  rc_rate_limit := None;
  rc_cache := None;
  rc_circuit_breaker := CircuitBreakerConfig_default;
  rc_health_check := Some {| hc_path := "/up"; hc_interval_secs := 0; hc_timeout_ms := 10 |};
  rc_request_headers := HeaderTransforms_default;
  rc_response_headers := HeaderTransforms_default;
|}.

Definition demo_gateway : GatewayState :=
  mkGateway {| gc_server := ServerConfig_default; gc_routes := [demo_route] |}
    {[ "r" := (from_config demo_route).1 ]}.
Definition demo_shared : Shared unit := mkShared {[ "r" := (from_config demo_route).2 ]} ().

Definition demo_task : HealthTask :=
  mkTask "r" 0 "http://a/up" (Duration_from_secs 1) (Duration_from_millis 100).

Definition demo_world : World (H := Assoc.http) := {|
  w_now := λ _, 0%Z;
  w_uuid := "id";
  w_body := Ok EmptyString;
  w_up := λ _, Err (mkSendError true);
  w_read := Ok EmptyString;
  w_redis := 1;
  w_probe := Ok 503%Z;
|}.

Lemma health_tick_spec_witness :
  flag (r_state (exec (alone_in demo_world) (tick demo_task) 0 demo_shared)) "r" 0 = Some false
  ∧ demo_task ∈ checks demo_gateway.
Proof.
  destruct (health_tick_spec demo_gateway (alone_in demo_world) demo_task 0 demo_shared (Ok 503%Z)
    (from_config demo_route).2.(rs_bal) (Balancer.new_upstate demo_route demo_upstream))
    as [(_ & Hflag & _) Hin]; [done|done|done|done|].
  split; [exact Hflag|]. apply Hin.
  exists (from_config demo_route).1, {| hc_path := "/up"; hc_interval_secs := 0; hc_timeout_ms := 10 |},
    (Balancer.new_upstream demo_upstream).
  by split_and!.
Defined.

End Health.
