(* ===== verification/Proxy.v ===== *)
(** The request handler: src/crates/gateway/src/proxy.rs.

    Every request runs [handle].  The functions below are those of the file, in
    its order bottom up; the parts of the shared state (the balancers, the
    caches, the limiter) are reached with [zoom].  The limiter is any
    implementation of the trait. *)
From S2P Require Import Prelude RustStd Prog Config Router Breaker RateLimit Cache.
From S2P Require Import Http Auth Transform Balancer Telemetry Events State Health.
Import Config State.

(** The text [serde_json] gives an error object, and the headers [axum] puts on a
    response with a text body. *)
Class WebLib `{Http} := {
  json_error : string → string;
  text_response_headers : HeaderMap;
}.

Module Proxy.

(** ** Requests and responses *)

Record Uri := mkUri {
  uri_path : string;
  uri_query : option string;
  uri_path_and_query : option string;
}.

Record Request `{Http} := mkRequest {
  method : string;
  uri : Uri;
  headers : HeaderMap;
  peer_ip : string;   (* [peer.ip().to_string()] *)
}.

(** A body is given, or streamed from the upstream's answer. *)
Inductive Body : Type := Bytes (s : string) | Stream.

Record Response `{Http} := mkResponse {
  rsp_status : Z;
  rsp_headers : HeaderMap;
  rsp_body : Body;
}.

Arguments mkRequest {H} method uri headers peer_ip.
Arguments mkResponse {H} rsp_status rsp_headers rsp_body.

Definition CORRELATION_HEADER : string := "x-request-id".

Section helpers.
Context `{WebLib}.

(** [set_header]: the name and the value are parsed; a bad one is skipped. *)
Definition set_header (headers : HeaderMap) (name value : string) : HeaderMap :=
  match HeaderName_from_bytes name, HeaderValue_from_str value with
  | Some n, Some v => HeaderMap_insert headers n v
  | _, _ => headers
  end.

Definition add_ratelimit_headers (headers : HeaderMap) (limit remaining reset : Z)
    : HeaderMap :=
  let headers := set_header headers "x-ratelimit-limit" (u_to_string limit) in
  let headers := set_header headers "x-ratelimit-remaining" (u_to_string remaining) in
  let headers := set_header headers "x-ratelimit-reset" (u_to_string reset) in
  set_header headers "retry-after" (u_to_string reset).

Definition response_cacheable (headers : HeaderMap) : bool :=
  match get_str headers "cache-control" with
  | Some v =>
      let v := to_ascii_lowercase v in
      negb (contains "no-store" v || contains "private" v || contains "no-cache" v)
  | None => true
  end.

Definition cache_bypass (headers : HeaderMap) : bool :=
  match get_str headers "cache-control" with
  | Some v =>
      let v := to_ascii_lowercase v in
      contains "no-cache" v || contains "no-store" v
  | None => false
  end.

Definition is_idempotent (method : string) : bool :=
  existsb (String.eqb method) ["GET"; "HEAD"; "PUT"; "DELETE"; "OPTIONS"; "TRACE"].

Definition rate_key (scope : RateScope) (route client_ip : string) (headers : HeaderMap)
    : string :=
  match scope with
  | ScopeIp => route +:+ ":ip:" +:+ client_ip
  | ScopeRoute => route +:+ ":route"
  | ScopeApiKey =>
      let key := match get_str headers "x-api-key" with
                 | Some k => Some k
                 | None =>
                     (λ s, trim (default s (strip_prefix "Bearer " s)))
                       <$> get_str headers "authorization"
                 end in
      route +:+ ":key:" +:+ default "anon" key
  end.

Definition client_ip (headers : HeaderMap) (peer : string) : string :=
  match get_str headers "x-forwarded-for" with
  | Some v =>
      let s := trim (split_next ","%char v) in
      if negb (is_empty s) then s else peer
  | None => peer
  end.

Definition error (status : Z) (message correlation : string) : Response :=
  let hs := set_header text_response_headers "content-type" "application/json" in
  let hs := set_header hs CORRELATION_HEADER correlation in
  mkResponse status hs (Bytes (json_error message)).

Definition build_response (status : Z) (headers : HeaderMap) (body : Body) : Response :=
  mkResponse status headers body.

(** The loop of [cached_response] over the stored headers. *)
Definition insert_stored (headers : HeaderMap) (nv : string * string) : HeaderMap :=
  match HeaderName_from_bytes nv.1, HeaderValue_from_str nv.2 with
  | Some n, Some v => HeaderMap_insert headers n v
  | _, _ => headers
  end.

Definition cached_response (hit : Cache.CachedResponse) (runtime : RouteRuntime)
    (correlation : string) : Response :=
  let hs := foldl insert_stored HeaderMap_new (Cache.headers hit) in
  let hs := Transform.apply_transforms hs (rc_response_headers (rt_config runtime)) in
  let hs := set_header hs "x-cache" "HIT" in
  let hs := set_header hs CORRELATION_HEADER correlation in
  build_response (default 200%Z (StatusCode_from_u16 (Cache.status hit))) hs
    (Bytes (Cache.body hit)).

(** The pairs stored with a response: the headers whose value is text. *)
Definition header_pairs (hs : HeaderMap) : list (string * string) :=
  omap (λ '(n, v), pair (HeaderName_as_str n) <$> HeaderValue_to_str v) (HeaderMap_iter hs).

(** The host of a request: empty when it gives none. *)
Definition host_of (headers : HeaderMap) : string := default EmptyString (get_str headers "host").
End helpers.

(** ** The handler *)
Section handler.
Context `{WebLib, Auth.JwtLib, Profile}.
Context {L : Type} `{RateLimit.RateLimiter GwE L}.
Context (it : Cache.hash_order) (gs : GatewayState).

Abbreviation Gw := (prog GwE (Shared L)).

(** [record(state, route, method, status, started)]. *)
Definition record (route method : string) (status : Z) (started : Instant) : Gw unit :=
  _ ← metric Telemetry.requests [route; method; StatusCode_as_str status] Inc;
  now ← Instant_now;
  metric Telemetry.gateway_latency [route] (Observe (duration_since now started)).

(** The guard's [Drop], whatever ends the attempt. *)
Definition drop_guard (name : string) (idx : nat) (sh : Shared L) : Shared L :=
  alter_route name (λ rs, mkRouteState (Balancer.guard_drop idx (rs_bal rs)) (rs_cache rs)) sh.

Definition finish_response (runtime : RouteRuntime) (route_name method : string) (status : Z)
    (resp_headers : HeaderMap) (cache_enabled : bool) (cache_key correlation : string)
    (started : Instant) : Gw Response :=
  let out := Transform.filtered_response_headers resp_headers in
  let out := Transform.apply_transforms out (rc_response_headers (rt_config runtime)) in
  let out := set_header out CORRELATION_HEADER correlation in
  let store := cache_enabled && (status =? 200)%Z && rt_cached runtime
               && response_cacheable resp_headers in
  _ ← record route_name method status started;
  if store then
    bytes ← await EReadResponse;
    match bytes with
    | Err _ => mret (error 502 "upstream read failed" correlation)
    | Ok bytes =>
        _ ← (if rt_cached runtime
             then on_cache route_name
                    (Cache.put it cache_key status (header_pairs out) bytes)
             else mret ());
        mret (build_response status (set_header out "x-cache" "MISS") (Bytes bytes))
    end
  else
    let out := if cache_enabled then set_header out "x-cache" "MISS" else out in
    mret (build_response status out Stream).

(** What the attempts of one request share. *)
Record Attempts := mkAttempts {
  at_route : string;
  at_runtime : RouteRuntime;
  at_method : string;
  at_path_and_query : string;
  at_headers : HeaderMap;
  at_body : string;
  at_timeout : Duration;
  at_cache_enabled : bool;
  at_cache_key : string;
  at_correlation : string;
  at_started : Instant;
}.

(** An iteration of the loop ends with [continue] or with [return]. *)
Inductive Flow : Type := Continue (idx : nat) | Return (r : Response).

Definition upstream_request (a : Attempts) (up : Balancer.Upstream) : SendRequest := {|
  sr_method := at_method a;
  sr_url := Balancer.url up +:+ at_path_and_query a;
  sr_headers := at_headers a;
  sr_body := at_body a;
  sr_timeout := at_timeout a;
|}.

(** The body of the loop once an upstream is picked; [more] is
    [attempt + 1 < max_attempts]. *)
Definition try_upstream (a : Attempts) (more : bool) (idx : nat) (up : Balancer.Upstream)
    : Gw Flow :=
  let name := at_route a in
  let idempotent := is_idempotent (at_method a) in
  upstream_start ← Instant_now;
  result ← await (ESend (upstream_request a up));
  now ← Instant_now;
  _ ← metric Telemetry.upstream_latency [name]
        (Observe (duration_since now upstream_start));
  st ← on_breaker name idx (act Breaker.state_of);
  _ ← metric Telemetry.circuit_state [name; Balancer.url up] (SetTo (Breaker.code st));
  match result with
  | Ok resp =>
      let status := ur_status resp in
      let finish :=
        r ← finish_response (at_runtime a) name (at_method a) status (ur_headers resp)
              (at_cache_enabled a) (at_cache_key a) (at_correlation a) (at_started a);
        mret (Return r) in
      if StatusCode_is_server_error status then
        _ ← on_breaker name idx Breaker.record_failure;
        _ ← metric Telemetry.upstream_errors [name] Inc;
        if idempotent && more then mret (Continue idx) else finish
      else
        _ ← on_breaker name idx (act Breaker.record_success);
        finish
  | Err e =>
      _ ← on_breaker name idx Breaker.record_failure;
      _ ← metric Telemetry.upstream_errors [name] Inc;
      if (idempotent || is_connect e) && more then mret (Continue idx)
      else
        _ ← record name (at_method a) 502 (at_started a);
        mret (Return (error 502 "upstream unavailable" (at_correlation a)))
  end.

Definition attempt (a : Attempts) (more : bool) (excluded : list nat) : Gw Flow :=
  picked ← on_bal (at_route a) (Balancer.pick (rt_balancer (at_runtime a)) excluded);
  match picked with
  | None =>
      _ ← record (at_route a) (at_method a) 503 (at_started a);
      mret (Return (error 503 "no healthy upstream" (at_correlation a)))
  | Some (idx, up) =>
      finally (try_upstream a more idx up) (drop_guard (at_route a) idx)
  end.

(** [for attempt in 0..max_attempts]: [k] attempts are left. *)
Fixpoint attempts (a : Attempts) (k : nat) (excluded : list nat) : Gw Response :=
  match k with
  | 0 =>
      _ ← record (at_route a) (at_method a) 502 (at_started a);
      mret (error 502 "all upstream attempts failed" (at_correlation a))
  | S k =>
      f ← attempt a (Nat.ltb 0 k) excluded;
      match f with
      | Continue idx => attempts a k (excluded ++ [idx])
      | Return r => mret r
      end
  end.

Definition max_attempts (route : RouteConfig) : Z :=
  Z.max (u32_saturating_add (rc_retries route) 1) 1.

Definition path_and_query (req : Request) (runtime : RouteRuntime) : string :=
  let fwd_path := Router.forward_path (uri_path (uri req)) (rt_config runtime) in
  match uri_query (uri req) with
  | Some q => fwd_path +:+ "?" +:+ q
  | None => fwd_path
  end.

Definition request_timeout (runtime : RouteRuntime) : Duration :=
  Duration_from_millis
    (default (sc_default_timeout_ms (gc_server (gs_config gs)))
             (rc_timeout_ms (rt_config runtime))).

Definition forwarded_headers (req : Request) (runtime : RouteRuntime) (correlation : string)
    : HeaderMap :=
  let fwd := Transform.forwarded_request_headers (headers req)
               (client_ip (headers req) (peer_ip req)) (host_of (headers req)) "http" in
  let fwd := Transform.apply_transforms fwd (rc_request_headers (rt_config runtime)) in
  set_header fwd CORRELATION_HEADER correlation.

(** From the body on: buffer it, build the forwarded request, try. *)
Definition forward (req : Request) (runtime : RouteRuntime) (route_name correlation : string)
    (started : Instant) (cache_enabled : bool) (cache_key : string) : Gw Response :=
  let server := gc_server (gs_config gs) in
  body_bytes ← await (EReadBody (sc_max_body_bytes server));
  match body_bytes with
  | Err _ =>
      _ ← record route_name (method req) 413 started;
      mret (error 413 "request body too large" correlation)
  | Ok body_bytes =>
      let fwd := forwarded_headers req runtime correlation in
      attempts (mkAttempts route_name runtime (method req) (path_and_query req runtime) fwd
                  body_bytes (request_timeout runtime) cache_enabled cache_key correlation started)
        (Z.to_nat (max_attempts (rt_config runtime))) []
  end.

(** The cache lookup and what follows it. *)
Definition lookup_and_forward (req : Request) (runtime : RouteRuntime)
    (route_name correlation : string) (started : Instant) : Gw Response :=
  let cache_enabled := rt_cached runtime && String.eqb (method req) "GET"
                       && negb (cache_bypass (headers req)) in
  let cache_key := Cache.key (method req) (host_of (headers req))
                     (default "/" (uri_path_and_query (uri req))) in
  if cache_enabled then
    hit ← on_cache route_name (Cache.get cache_key);
    match hit with
    | Some hit =>
        _ ← metric Telemetry.cache_hits [route_name] Inc;
        _ ← record route_name (method req)
              (default 200%Z (StatusCode_from_u16 (Cache.status hit))) started;
        mret (cached_response hit runtime correlation)
    | None =>
        _ ← metric Telemetry.cache_misses [route_name] Inc;
        forward req runtime route_name correlation started cache_enabled cache_key
    end
  else forward req runtime route_name correlation started cache_enabled cache_key.

(** Rate limiting, then the rest. *)
Definition limit_and_forward (req : Request) (runtime : RouteRuntime)
    (route_name correlation : string) (started : Instant) : Gw Response :=
  match rc_rate_limit (rt_config runtime) with
  | Some rl =>
      let key := rate_key (rl_scope rl) route_name
                   (client_ip (headers req) (peer_ip req)) (headers req) in
      decision ← on_limiter
        (RateLimit.check key (rl_limit rl) (Duration_from_secs (rl_window_secs rl)));
      if negb (RateLimit.allowed decision) then
        _ ← metric Telemetry.rate_limit_rejections [route_name] Inc;
        _ ← record route_name (method req) 429 started;
        let resp := error 429 "rate limit exceeded" correlation in
        mret (mkResponse (rsp_status resp)
                (add_ratelimit_headers (rsp_headers resp) (RateLimit.limit decision) 0
                   (RateLimit.reset_secs decision))
                (rsp_body resp))
      else lookup_and_forward req runtime route_name correlation started
  | None => lookup_and_forward req runtime route_name correlation started
  end.

Definition route_and_proxy (req : Request) : Gw Response :=
  started ← Instant_now;
  let host := host_of (headers req) in
  correlation ← match get_str (headers req) CORRELATION_HEADER with
                | Some c => mret c
                | None => ext EUuid
                end;
  match Router.match_route (gs_config gs) (Some host) (uri_path (uri req)) with
  | None =>
      _ ← metric Telemetry.requests ["none"; method req; "404"] Inc;
      mret (error 404 "no matching route" correlation)
  | Some route_cfg =>
      let route_name := rc_name route_cfg in
      match route gs route_name with
      | None => mret (error 500 "route runtime missing" correlation)
      | Some runtime =>
          match Auth.authorize (rc_auth (rt_config runtime)) (headers req) with
          | Err reason =>
              _ ← metric Telemetry.auth_rejections [route_name] Inc;
              _ ← record route_name (method req) 401 started;
              mret (error 401 reason correlation)
          | Ok _ => limit_and_forward req runtime route_name correlation started
          end
      end
  end.

Definition handle (req : Request) : Gw Response :=
  _ ← metric Telemetry.active_connections [] Inc;
  _ ← Instant_now;
  response ← route_and_proxy req;
  _ ← metric Telemetry.active_connections [] Dec;
  mret response.
End handler.

End Proxy.
