(* ===== verification/Server.v ===== *)
(** The two HTTP applications: src/crates/gateway/src/server.rs.

    The proxy application gives every request to [Proxy.handle], behind the layer
    that limits the size of bodies; the admin application answers three paths.
    axum's dispatch and the layers are libraries: [over_limit max req] is what the
    limiting layer does with a request whose announced length exceeds [max] (it
    answers without calling the handler), and a path that is not registered gets
    axum's own answer.  Listening is the operating system's. *)
From S2P Require Import Prelude RustStd Prog Config RateLimit Cache Http Auth Telemetry.
From S2P Require Import Events State Proxy.
Import Config State Proxy.

Module Server.

Section server.
Context `{WebLib, Telemetry.Prometheus}.

(** ** The proxy *)
Section proxy.
Context `{Auth.JwtLib, Profile} {L : Type} `{!RateLimit.RateLimiter GwE L}
  (it : Cache.hash_order) (over_limit : Z → Request → option Response).

Definition max_body (gs : GatewayState) : Z := sc_max_body_bytes (gc_server (gs_config gs)).

Definition proxy_router (gs : GatewayState) (req : Request) : prog GwE (Shared L) Response :=
  match over_limit (max_body gs) req with
  | Some rsp => mret rsp
  | None => handle it gs req
  end.
End proxy.

(** ** The admin application *)
Context (encode : Telemetry.Registry → Result string string) (from_utf8 : string → option string).

(** A text answer of axum, and one whose content type is replaced. *)
Definition text (body : string) : Response := mkResponse 200 text_response_headers (Bytes body).

Definition metrics (r : Telemetry.Registry) : Response :=
  mkResponse 200 (set_header text_response_headers "content-type" "text/plain; version=0.0.4")
    (Bytes (Telemetry.render encode from_utf8 r)).

(** What a GET of a registered path gives. *)
Definition admin_router (r : Telemetry.Registry) (path : string) : option Response :=
  if String.eqb path "/healthz" then Some (text "ok")
  else if String.eqb path "/readyz" then Some (text "ready")
  else if String.eqb path "/metrics" then Some (metrics r)
  else None.

(** ** Listening: an application runs once its address is bound. *)
Context {SocketAddr App : Type} (bind : SocketAddr → Result string unit).

Definition serve (app : App) (addr : SocketAddr) : Result string App :=
  _ ← bind addr; mret app.
End server.

Definition serve_proxy {SocketAddr L} (bind : SocketAddr → Result string unit)
    (state : GatewayState * Shared L) : SocketAddr → Result string (GatewayState * Shared L) :=
  serve bind state.

Definition serve_admin `{Telemetry.Prometheus} {SocketAddr} (bind : SocketAddr → Result string unit)
    (r : Telemetry.Registry) : SocketAddr → Result string Telemetry.Registry :=
  serve bind r.

End Server.
