(* ===== verification/Main.v ===== *)
(** The start of the gateway's process: src/crates/gateway/src/main.rs.

    [main] installs the logging and then is the sequence of the fallible steps of the
    program, up to the two applications and the health checks that run until a signal;
    a step that fails ends it with its error, and only the admin application's failure to
    listen is dropped, with the result of its task.  The arguments, the
    environment, the file system, the parser of addresses and the sockets are
    parameters.  What follows the start, to the return of [main], is in Lifecycle.v. *)
From S2P Require Import Prelude RustStd Prog Config RateLimit Http Telemetry.
From S2P Require Import Balancer Events State Health Server.
Import Config State.

Module Main.

(** The program's error, with the context each step adds. *)
Inductive StartError : Type :=
| Loading (config_path : string) (e : ConfigError)
| BindAddr (e : string)
| AdminBindAddr (e : string)
| Building (e : string)
| Serving (e : string).

(** A process that has come up. *)
Record Running `{Telemetry.Prometheus} := mkRunning {
  state : GatewayState;
  shared : Shared AnyLimiter;
  registry : Telemetry.Registry;
  health_task : list Health.HealthTask;
  admin : Result string Telemetry.Registry;
}.
Arguments mkRunning {H} state shared registry health_task admin.

Definition map_err {E F A} (f : E → F) (r : Result E A) : Result F A :=
  match r with Ok a => Ok a | Err e => Err (f e) end.

(** [args] starts with the program's name; [var] reads the environment. *)
Definition config_path (args : list string) (var : string → option string) : string :=
  match args !! 1 with
  | Some path => path
  | None => default "config/gateway.yaml" (var "GATEWAY_CONFIG")
  end.

(** Whether the log lines are JSON. *)
Definition json_logs (var : string → option string) : bool :=
  match var "LOG_JSON" with Some v => String.eqb v "true" | None => false end.

Section main.
Context `{Telemetry.Prometheus, Telemetry.TracingLib}
  (read_to_string : string → Result string string)
  (serde_yaml : string → Result string GatewayConfig)
  {SocketAddr : Type} (parse_addr : string → Result string SocketAddr)
  (client_build : Result string unit) {Client Conn : Type}
  (open : string → Result string Client) (connection_manager : Client → Result string Conn)
  (bind bind_admin : SocketAddr → Result string unit).

(** The configuration and the addresses. *)
Definition configure (path : string)
    : Result StartError (GatewayConfig * SocketAddr * SocketAddr) :=
  config ← map_err (Loading path) (from_file read_to_string serde_yaml path);
  proxy_addr ← map_err BindAddr (parse_addr (sc_bind_addr (gc_server config)));
  admin_addr ← map_err AdminBindAddr (parse_addr (sc_admin_bind_addr (gc_server config)));
  mret (config, proxy_addr, admin_addr).

(** The state, and the tasks on it.  The result of the admin task is not looked at. *)
Definition launch (config : GatewayConfig) (proxy_addr admin_addr : SocketAddr)
    (metrics : Telemetry.Registry) : Result StartError Running :=
  '(gs, sh) ← map_err Building (build client_build open connection_manager config);
  let health_task := Health.checks gs in
  let admin := Server.serve_admin bind_admin metrics admin_addr in
  '(gs, sh) ← map_err Serving (Server.serve_proxy bind (gs, sh) proxy_addr);
  mret (mkRunning gs sh metrics health_task admin).

(** With the logging that is in place at its end. *)
Definition main (args : list string) (var : string → option string)
    : Outcome (Result StartError Running) * (option unit * Telemetry.Dispatch) :=
  let '(o, tracing) :=
    Telemetry.init_tracing var "gw-gateway" (json_logs var) Telemetry.TRACING in
  (_ ← o;
   match configure (config_path args var) with
   | Err e => mret (Err e)
   | Ok (config, proxy_addr, admin_addr) =>
       '(metrics, _) ← Telemetry.Metrics_new;
       mret (launch config proxy_addr admin_addr metrics)
   end, tracing).

(** ** Lemmas *)

Lemma configure_ok path config proxy admin :
  configure path = Ok (config, proxy, admin) ↔
  ∃ text, read_to_string path = Ok text ∧ serde_yaml text = Ok config ∧ config_ok config
    ∧ parse_addr (sc_bind_addr (gc_server config)) = Ok proxy
    ∧ parse_addr (sc_admin_bind_addr (gc_server config)) = Ok admin.
Proof.
  unfold configure, from_file, mbind, Result_bind. split.
  - destruct (read_to_string path) as [text|e]; [|done].
    destruct (from_yaml serde_yaml text) as [c|e] eqn:Ey; [|done]. simpl.
    apply from_yaml_ok_iff in Ey as [Hs Hc].
    destruct (parse_addr (sc_bind_addr _)) eqn:Ep; [|done]. simpl.
    destruct (parse_addr (sc_admin_bind_addr _)) eqn:Ea; [|done]. intros [= <- <- <-]. eauto 10.
  - intros (text & -> & Hs & Hc & Hp & Ha).
    rewrite (proj2 (from_yaml_ok_iff _ _ _) (conj Hs Hc)). simpl. by rewrite Hp, Ha.
Qed.

Lemma launch_ok config proxy admin_addr r g :
  launch config proxy admin_addr r = Ok g ↔
  client_build = Ok () ∧ bind proxy = Ok ()
  ∧ build (Ok ()) open connection_manager config = Ok (state g, shared g)
  ∧ health_task g = Health.checks (state g) ∧ registry g = r
  ∧ admin g = Server.serve_admin bind_admin r admin_addr.
Proof.
  unfold launch, Server.serve_proxy, Server.serve, build, mbind, Result_bind, mret, Result_ret.
  split.
  - destruct client_build as [[]|]; [|done]. simpl.
    destruct (bind proxy) as [[]|]; [|done]. by intros [= <-].
  - destruct g as [gs sh rg ht ad]; simpl. intros (-> & -> & [= <- <-] & -> & -> & ->). done.
Qed.

Lemma launch_is_ok config proxy admin_addr r :
  is_ok (launch config proxy admin_addr r) = true ↔ client_build = Ok () ∧ bind proxy = Ok ().
Proof.
  unfold launch, Server.serve_proxy, Server.serve, build, mbind, Result_bind.
  destruct client_build as [[]|]; [|by split; [|intros []]].
  simpl. by destruct (bind proxy) as [[]|]; split; [| |by intros|intros []].
Qed.
End main.

(** ** The configuration of the repository: src/config/gateway.yaml *)

Definition echo_route : RouteConfig := {|
  rc_name := "echo";
  rc_matches := Build_MatchConfig None "/echo";
  rc_upstreams := [Build_UpstreamConfig "http://echo1:8080" 1; Build_UpstreamConfig "http://echo2:8080" 1];
  rc_strategy := RoundRobin;
  rc_strip_path_prefix := true;
  rc_timeout_ms := None;
  rc_retries := 2;
  rc_auth := AuthNone;
  rc_rate_limit := Some (Build_RateLimitConfig ScopeIp 100 60);
  rc_cache := Some (Build_CacheConfig 10 default_cache_cap);
  rc_circuit_breaker := Build_CircuitBreakerConfig 5 10;
  rc_health_check := Some (Build_HealthCheckConfig "/" 5 2000);
  rc_request_headers := Build_HeaderTransforms [("x-gateway", "rust-api-gateway")] [];
  rc_response_headers := Build_HeaderTransforms [("x-served-by", "gateway")] ["server"];
|}.

Definition secure_route : RouteConfig := {|
  rc_name := "secure";
  rc_matches := Build_MatchConfig None "/secure";
  rc_upstreams := [Build_UpstreamConfig "http://echo1:8080" default_weight];
  rc_strategy := LeastConnections;
  rc_strip_path_prefix := true;
  rc_timeout_ms := None;
  rc_retries := 0;
  rc_auth := ApiKey ["change-me-in-prod"];
  rc_rate_limit := Some (Build_RateLimitConfig ScopeApiKey 20 60);
  rc_cache := None;
  rc_circuit_breaker := CircuitBreakerConfig_default;
  rc_health_check := None;
  rc_request_headers := HeaderTransforms_default;
  rc_response_headers := HeaderTransforms_default;
|}.

Definition gateway_yaml : GatewayConfig := {|
  gc_server := Build_ServerConfig "0.0.0.0:8080" "0.0.0.0:9090" 8388608 30000 None;
  gc_routes := [echo_route; secure_route];
|}.

(** ** Properties *)

(** C27: the process comes up exactly when the configuration file, named by the
    first argument, else by the environment, else by the default, can be read and is
    valid, both addresses parse, the HTTP client is made and the proxy's address can
    be bound; it does not panic on the way, and neither Redis nor the admin's address
    can stop it.  The logging is installed first, as the environment
    says.  What then runs is the state built from that configuration, its health checks,
    and an admin application over a registry of all the metrics. *)
Theorem startup_spec `{Telemetry.PrometheusLaws, Telemetry.TracingLaws} read_to_string serde_yaml
    {SocketAddr} (parse_addr : string → Result string SocketAddr) client_build {Client Conn}
    (open : string → Result string Client) (connection_manager : Client → Result string Conn)
    bind bind_admin args var :
  ∃ r d, main read_to_string serde_yaml parse_addr client_build open connection_manager
           bind bind_admin args var = (Ret r, (Some (), d))
    ∧ Telemetry.installed d = Some (Telemetry.subscriber var (json_logs var))
    ∧ (is_ok r = true ↔ ∃ text config proxy admin,
        read_to_string (config_path args var) = Ok text
        ∧ serde_yaml text = Ok config ∧ config_ok config
        ∧ parse_addr (sc_bind_addr (gc_server config)) = Ok proxy
        ∧ parse_addr (sc_admin_bind_addr (gc_server config)) = Ok admin
        ∧ client_build = Ok () ∧ bind proxy = Ok ())
    ∧ ∀ g, r = Ok g →
        config_ok (gs_config (state g))
        ∧ build (Ok ()) open connection_manager (gs_config (state g)) = Ok (state g, shared g)
        ∧ health_task g = Health.checks (state g)
        ∧ Telemetry.registered (registry g) ≡ₚ Telemetry.d_name <$> Telemetry.made
        ∧ ∀ m, admin g = Ok m → m = registry g.
Proof.
  destruct Telemetry.metrics_new_total as (m & cs & Hm & _ & Hreg & _).
  destruct (Telemetry.init_tracing_first var "gw-gateway" (json_logs var)) as (d & Hd & Hsub).
  unfold main. rewrite Hd. destruct (configure _ _ _ _) as [[[config proxy] adm]|e] eqn:Ec.
  2: { eexists _, d. split; [done|]. split; [done|]. split; [|done]. split; [done|].
       intros (text & config & proxy & adm & Hr & Hs & Hc & Hp & Ha & _).
       enough (configure read_to_string serde_yaml parse_addr (config_path args var)
               = Ok (config, proxy, adm)) by congruence.
       apply configure_ok. eauto 10. }
  apply configure_ok in Ec as (text & Hr & Hs & Hc & Hp & Ha).
  rewrite Hm. eexists _, d. split; [reflexivity|]. split; [done|]. split.
  - rewrite (launch_is_ok client_build). split; [naive_solver|].
    intros (text' & config' & proxy' & adm' & Hr' & Hs' & _ & Hp' & _ & Hcl & Hb).
    assert (text' = text) as -> by congruence. assert (config' = config) as -> by congruence.
    by assert (proxy' = proxy) as -> by congruence.
  - intros g Hg. apply launch_ok in Hg as (_ & _ & Hbuild & Hh & <- & Hadm).
    destruct (build_lookup open connection_manager _ _ _ Hbuild) as (-> & _). split_and!; [done..|].
    intros m. rewrite Hadm. unfold Server.serve_admin, Server.serve, mbind, Result_bind.
    destruct (bind_admin adm); [by intros [= <-]|done].
Qed.

(** The repository's configuration, with an admin address that is taken. *)
Lemma startup_spec_witness :
  ∃ r d, main (H := Telemetry.Listed.prometheus) (H0 := Telemetry.Once.tracing)
         Ok (λ _, Ok gateway_yaml) Ok (Ok ())
         (λ url, Ok url) (λ c : string, Ok c) (λ _, Ok ()) (λ _, Err "address in use")
         ["gateway"] (λ _, None) = (Ret r, (Some (), d))
    ∧ d = Some ("info,hyper=warn,reqwest=warn"%string, Telemetry.Compact)
    ∧ is_ok r = true.
Proof.
  destruct (startup_spec Ok (λ _, Ok gateway_yaml) Ok (Ok ()) (λ url, Ok url)
    (λ c : string, Ok c) (λ _, Ok ()) (λ _, Err "address in use") ["gateway"] (λ _, None))
    as (r & d & Hr & Hd & Hok & _).
  exists r, d. split; [exact Hr|]. split; [exact Hd|]. apply Hok.
  eexists _, gateway_yaml, _, _. split_and!; [done|done| |done..].
  by apply validate_ok_iff; vm_compute.
Defined.

End Main.
