(* ===== verification/Walk.v ===== *)
(** One walk through the handler, for every property that is closed under the way
    its parts are put together.

    [Walk gs it J0 J] lists what a pair of judgements on effect trees has to satisfy
    part by part: [J0] holds of the parts that take no guard, [J] of those that take
    and drop guards.  [walk_handle] and [walk_task] then give [J] for a whole
    request and a whole health check; the check of the rate limit has a rule of its
    own, for the key and limit of this request ([limit_of], [checked]).  The
    instances are in the files that need them: Steps.v, ProxyGuard.v, Flight.v, NoPanic.v,
    Contents.v, Quota.v, Metering.v and RedisQuota.v; [acts_walk] is one for any
    relation of states that only looks at the limiter. *)
From S2P Require Import Prelude RustStd Prog Pool Config Router Breaker RateLimit Cache.
From S2P Require Import Http Auth Transform Balancer Telemetry Events State Health Proxy.
Import Config State Proxy.

(** An upstream of a route of the gateway, and a route that has a cache. *)
Definition routed_at (gs : GatewayState) (name : string) (i : nat) : Prop :=
  ∃ rt, route gs name = Some rt ∧ i < length (Balancer.upstreams (rt_balancer rt)).
Definition has_cache (gs : GatewayState) (name : string) : Prop :=
  ∃ rt, route gs name = Some rt ∧ rt_cached rt = true.

(** The key under which the response to a request is cached. *)
Definition cache_key_of `{WebLib} (req : Request) : string :=
  Cache.key (method req) (host_of (headers req)) (default "/" (uri_path_and_query (uri req))).

(** The requests whose responses a route's cache may hold. *)
Definition cacheable_request `{WebLib, Auth.JwtLib} (gs : GatewayState) (name : string)
    (req : Request) : Prop :=
  ∃ r rt, Router.match_route (gs_config gs) (Some (host_of (headers req))) (uri_path (uri req))
            = Some r
    ∧ rc_name r = name ∧ route gs name = Some rt ∧ rt_cached rt = true
    ∧ Auth.authorize (rc_auth (rt_config rt)) (headers req) = Ok ()
    ∧ method req = "GET" ∧ cache_bypass (headers req) = false.

(** The headers stored for a response to a request with this id. *)
Definition stored_headers `{WebLib} (rt : RouteRuntime) (resp : HeaderMap) (id : string)
    : list (string * string) :=
  header_pairs (set_header (Transform.apply_transforms (Transform.filtered_response_headers resp)
                              (rc_response_headers (rt_config rt))) CORRELATION_HEADER id).

(** What may be stored under a key: the complete response, with status 200, that an
    upstream gave to a request of this key, unless the upstream forbade it. *)
Definition storable `{WebLib, Auth.JwtLib} (gs : GatewayState) (name k : string) (st : Z)
    (hs : list (string * string)) : Prop :=
  st = 200%Z
  ∧ (∃ req, cacheable_request gs name req ∧ k = cache_key_of req)
  ∧ ∃ rt resp id, route gs name = Some rt ∧ response_cacheable resp = true
      ∧ hs = stored_headers rt resp id.

(** The check that a request is put to: its key, the limit and the window. *)
Definition limit_of `{WebLib, Auth.JwtLib} (gs : GatewayState) (req : Request)
    : option (string * Z * Duration) :=
  r ← Router.match_route (gs_config gs) (Some (host_of (headers req))) (uri_path (uri req));
  rt ← route gs (rc_name r);
  _ ← (if is_ok (Auth.authorize (rc_auth (rt_config rt)) (headers req)) then Some () else None);
  rl ← rc_rate_limit (rt_config rt);
  Some (rate_key (rl_scope rl) (rc_name r) (client_ip (headers req) (peer_ip req)) (headers req),
        rl_limit rl, Duration_from_secs (rl_window_secs rl)).

(** A pick, and what runs under its guard. *)
Definition guarded `{WebLib} {L A} (name : string) (b : Balancer.Balancer) (ex : list nat)
    (none : prog GwE (Shared L) A) (body : nat → Balancer.Upstream → prog GwE (Shared L) A)
    : prog GwE (Shared L) A :=
  picked ← on_bal name (Balancer.pick b ex);
  match picked with
  | None => none
  | Some (i, up) => finally (body i up) (drop_guard name i)
  end.

(** An update of one of the gateway's metrics that its collector has. *)
Definition metric_ok (m : Telemetry.Desc * list string * MetricOp) : bool :=
  bool_decide (m.1.1 ∈ Telemetry.made) && Telemetry.labels_fit m.1.1 m.1.2
  && op_fits (Telemetry.d_kind m.1.1) m.2.

(** The gauge of active connections, which only [handle] touches. *)
Definition is_gauge (d : Telemetry.Desc) : bool :=
  String.eqb (Telemetry.d_name d) (Telemetry.d_name Telemetry.active_connections).

Class Walk `{WebLib, Auth.JwtLib, Profile} {L} `{!RateLimit.RateLimiter GwE L}
    (gs : GatewayState) (it : Cache.hash_order) (J0 J : ∀ A, prog GwE (Shared L) A → Prop) := {
  wk_ret A (a : A) : J0 A (mret a);
  wk_bind A B (p : prog GwE (Shared L) A) (k : A → prog GwE (Shared L) B) :
    J0 A p → (∀ a, J0 B (k a)) → J0 B (p ≫= k);
  wk_metric d ls op : metric_ok (d, ls, op) = true → is_gauge d = false → J0 _ (metric d ls op);
  wk_now : J0 _ Instant_now;
  wk_uuid : J0 _ (ext EUuid);
  wk_read_body n : J0 _ (await (EReadBody n));
  wk_send r : J0 _ (await (ESend r));
  wk_read_response : J0 _ (await EReadResponse);
  wk_probe url timeout : J0 _ (await (EProbe url timeout));
  wk_state name i : routed_at gs name i → J0 _ (on_breaker name i (act Breaker.state_of));
  wk_success name i : routed_at gs name i → J0 _ (on_breaker name i (act Breaker.record_success));
  wk_failure name i : routed_at gs name i → J0 _ (on_breaker name i Breaker.record_failure);
  wk_is_healthy name i : routed_at gs name i → J0 _ (on_bal name (Balancer.is_healthy i));
  wk_set_healthy name i v : routed_at gs name i → J0 _ (on_bal name (Balancer.set_healthy i v));
  wk_get name k : has_cache gs name → J0 _ (on_cache name (Cache.get k));
  wk_put name k st hs b : has_cache gs name → storable gs name k st hs →
    J0 _ (on_cache name (Cache.put it k st hs b));
  wk_inner A (p : prog GwE (Shared L) A) : J0 A p → J A p;
  wk_then A B (p : prog GwE (Shared L) A) (k : A → prog GwE (Shared L) B) :
    J A p → (∀ a, J B (k a)) → J B (p ≫= k);
  wk_guarded A name rt ex (none : prog GwE (Shared L) A) body :
    route gs name = Some rt → J0 A none → (∀ i up, routed_at gs name i → J0 A (body i up)) →
    J A (guarded name (rt_balancer rt) ex none body);
}.

#[local] Create HintDb walk.

Section walk.
Context `{WebLib, Auth.JwtLib, Profile} {L : Type} `{!RateLimit.RateLimiter GwE L}.
Context {gs : GatewayState} {it : Cache.hash_order} {J0 J : ∀ A, prog GwE (Shared L) A → Prop}.
Context {HW : Walk gs it J0 J}.

(** The parts that are one rule. *)
#[local] Ltac leaf0 := solve
  [apply wk_ret | apply wk_now | by apply wk_metric | apply wk_uuid | apply wk_read_body | apply wk_send
  | apply wk_read_response | apply wk_probe | by apply wk_state | by apply wk_success
  | by apply wk_failure | by apply wk_is_healthy | by apply wk_set_healthy
  | auto with walk].
#[local] Ltac leaf :=
  lazymatch goal with |- J _ _ => apply wk_inner; leaf0 | _ => leaf0 end.

(** One part of a sequence. *)
#[local] Ltac part :=
  lazymatch goal with
  | |- J0 _ _ => apply wk_bind; [leaf|intros ?]
  | |- J _ _ => apply wk_then; [leaf|intros ?]
  end.

Lemma walk_record name meth st started : J0 _ (record name meth st started).
Proof. part. part. leaf. Qed.
#[local] Hint Resolve walk_record : walk.

(** A request that looks in the cache may fill it. *)
Definition key_ok (name : string) (ce : bool) (ck : string) : Prop :=
  ce = true → ∃ req, cacheable_request gs name req ∧ ck = cache_key_of req.

Lemma walk_finish rt name meth st hs ce ck id started :
  route gs name = Some rt → key_ok name ce ck → J0 _ (finish_response it rt name meth st hs ce ck id started).
Proof.
  intros Hrt Hkey. unfold finish_response. cbv zeta. part.
  destruct (ce && _ && _ && _) eqn:Hstore; [|leaf].
  rewrite !andb_true_iff, Z.eqb_eq in Hstore. destruct Hstore as [[[Hce Hst] _] Hresp].
  part. case_match; [|leaf]. apply wk_bind; [|intros ?; leaf].
  destruct (rt_cached rt) eqn:Hc; [|leaf]. apply wk_put; [by exists rt|].
  split_and!; [done|by apply Hkey|]. by exists rt, hs, id.
Qed.

Lemma walk_try a more i up :
  route gs (at_route a) = Some (at_runtime a) → routed_at gs (at_route a) i →
  key_ok (at_route a) (at_cache_enabled a) (at_cache_key a) → J0 _ (try_upstream it a more i up).
Proof.
  intros Hrt Hi Hkey. unfold try_upstream. cbv zeta. do 6 part.
  assert (Hfin : ∀ st hs, J0 _
    (r ← finish_response it (at_runtime a) (at_route a) (at_method a) st hs
           (at_cache_enabled a) (at_cache_key a) (at_correlation a) (at_started a);
     mret (Return r))).
  { intros st hs. apply wk_bind; [by apply walk_finish|intros ?; leaf]. }
  case_match.
  - case_match; [do 2 part; case_match; [leaf|apply Hfin]|part; apply Hfin].
  - do 2 part. case_match; [leaf|]. part. leaf.
Qed.

Lemma walk_attempts a k ex :
  route gs (at_route a) = Some (at_runtime a) →
  key_ok (at_route a) (at_cache_enabled a) (at_cache_key a) → J _ (attempts it a k ex).
Proof.
  intros Hrt Hkey. revert ex. induction k as [|k IH]; intros ex; cbn [attempts].
  { apply wk_inner. part. leaf. }
  apply wk_then; [|intros [i|r]; [apply IH|leaf]]. apply wk_guarded; [done| |].
  - part. leaf.
  - intros i up Hi. by apply walk_try.
Qed.

Lemma walk_forward req rt name id started ce ck :
  route gs name = Some rt → key_ok name ce ck → J _ (forward it gs req rt name id started ce ck).
Proof.
  intros Hrt Hkey. unfold forward. cbv zeta. part. case_match; [by apply walk_attempts|].
  apply wk_inner. part. leaf.
Qed.

(** A request that a route matched and authorised. *)
Definition admitted (name : string) (rt : RouteRuntime) (req : Request) : Prop :=
  route gs name = Some rt
  ∧ (∃ r, Router.match_route (gs_config gs) (Some (host_of (headers req))) (uri_path (uri req))
          = Some r ∧ rc_name r = name)
  ∧ Auth.authorize (rc_auth (rt_config rt)) (headers req) = Ok ().

Lemma walk_lookup req rt name id started :
  admitted name rt req → J _ (lookup_and_forward it gs req rt name id started).
Proof.
  intros (Hrt & (r & Hm & Hn) & Hauth). unfold lookup_and_forward. cbv zeta.
  destruct (rt_cached rt) eqn:Hc; cbn [andb]; [|by apply walk_forward].
  destruct (String.eqb (method req) "GET" && negb (cache_bypass (headers req))) eqn:Hget;
    [|by apply walk_forward].
  rewrite andb_true_iff, String.eqb_eq, negb_true_iff in Hget. destruct Hget as [Hget Hby].
  apply wk_then; [apply wk_inner, wk_get; by exists rt|]. intros [hit|].
  - apply wk_inner. do 2 part. leaf.
  - part. apply walk_forward; [done|]. intros _. exists req. split; [|done]. by exists r, rt.
Qed.

Lemma admitted_limit name rt req rl :
  admitted name rt req → rc_rate_limit (rt_config rt) = Some rl →
  limit_of gs req =
    Some (rate_key (rl_scope rl) name (client_ip (headers req) (peer_ip req)) (headers req),
          rl_limit rl, Duration_from_secs (rl_window_secs rl)).
Proof.
  intros (Hrt & (r & Hm & <-) & Hauth) Hrl. unfold limit_of. rewrite Hm. simpl.
  rewrite Hrt. simpl. rewrite Hauth. simpl. by rewrite Hrl.
Qed.

(** The check is the one part whose rule the user gives: it depends on the request. *)
Definition checked (req : Request) : Prop :=
  ∀ key lim window, limit_of gs req = Some (key, lim, window) →
    J0 _ (on_limiter (RateLimit.check key lim window)).

Lemma walk_limit req rt name id started :
  checked req → admitted name rt req → J _ (limit_and_forward it gs req rt name id started).
Proof.
  intros Hcheck Hadm. unfold limit_and_forward. cbv zeta.
  destruct (rc_rate_limit (rt_config rt)) as [rl|] eqn:Hrl; [|by apply walk_lookup].
  apply wk_then; [by eapply wk_inner, Hcheck, admitted_limit|intros d].
  case_match; [|by apply walk_lookup]. apply wk_inner. do 2 part. leaf.
Qed.

Lemma walk_route_and_proxy req : checked req → J _ (route_and_proxy it gs req).
Proof.
  intros Hcheck. unfold route_and_proxy. cbv zeta. part.
  apply wk_then; [apply wk_inner; case_match; leaf|intros id].
  destruct (Router.match_route _ _ _) as [r|] eqn:Hm; [|apply wk_inner; part; leaf].
  destruct (route gs _) as [rt|] eqn:Hrt; [|leaf].
  destruct (Auth.authorize _ _) as [[]|reason] eqn:Hauth.
  { apply walk_limit; [done|]. split_and!; [done|by exists r|done]. } apply wk_inner. do 2 part. leaf.
Qed.

(** A rule for the gauge makes it the whole handler. *)
Lemma walk_handle req :
  (∀ op, J0 _ (metric Telemetry.active_connections [] op)) → checked req → J _ (handle it gs req).
Proof.
  intros Hgauge Hcheck. apply wk_then; [by apply wk_inner|intros _]. part.
  apply wk_then; [by apply walk_route_and_proxy|intros resp].
  apply wk_inner, wk_bind; [done|intros _]. leaf.
Qed.

Lemma checks_routed c : c ∈ Health.checks gs → routed_at gs (Health.ht_route c) (Health.ht_idx c).
Proof.
  unfold Health.checks. rewrite list_elem_of_In. intros (l & Hl & Hc)%List.in_concat.
  rewrite <- list_elem_of_In in Hl. rewrite <- list_elem_of_In in Hc.
  apply list_elem_of_fmap in Hl as ((name & rt) & -> & Hin). apply elem_of_map_to_list in Hin.
  unfold Health.route_checks in Hc. simpl in Hc.
  destruct (rc_health_check _); [|by apply not_elem_of_nil in Hc].
  apply elem_of_lookup_imap in Hc as (i & up & -> & Hup). exists rt.
  split; [exact Hin|]. by eapply lookup_lt_Some.
Qed.

Lemma walk_task c n : c ∈ Health.checks gs → J _ (Health.task c n).
Proof.
  intros Hc%checks_routed. apply wk_inner. induction n as [|n IH]; [apply wk_ret|].
  apply wk_bind; [|intros _; exact IH]. unfold Health.tick. do 2 part. leaf.
Qed.
End walk.

(** The parts of a request that are not the check leave the limiter alone: so they
    change the state as any relation says that holds when the limiter is the same. *)
Section acts.
Context `{WebLib, Auth.JwtLib, Profile} {L : Type} `{!RateLimit.RateLimiter GwE L}.
Context (R : Shared L → Shared L → Prop).
Context (R_same : ∀ sh sh', sh_limiter sh' = sh_limiter sh → R sh sh').

Abbreviation acts := (acts_by R (λ _ _ _, True)).

Lemma acts_zoom_same {S A} (get : Shared L → option S) set (p : prog GwE S A) :
  (∀ s sh, sh_limiter (set s sh) = sh_limiter sh) → acts (zoom get set p).
Proof.
  intros Hset. eapply (acts_zoom (λ _ _, True)); [by intros sh; apply R_same| |apply acts_any].
  intros sh s s2 _ _. apply R_same, Hset.
Qed.

Lemma acts_walk gs it : Walk gs it (λ A (p : prog GwE (Shared L) A), acts p) (λ A p, acts p).
Proof.
  split; try done; try (intros; by apply acts_zoom_same).
  - intros A B p k. apply acts_bind.
  - intros d ls op _ _. unfold metric. by case_match.
  - intros A B p k. apply acts_bind.
  - intros A name rt ex none body Hrt Hnone Hbody. eapply acts_bind_yields.
    + by apply acts_zoom_same.
    + apply yields_zoom, (Balancer.yields_pick (rt_balancer rt) ex).
    + intros [[i up]|] Hi; [|exact Hnone]. apply acts_finally.
      * apply Hbody. exists rt. split; [done|]. by eapply Hi.
      * intros sh. by apply R_same.
Qed.
End acts.
