(* ===== verification/Tasks.v ===== *)
(** The tasks of a running gateway, as they come up in a pool (Pool.v): one per
    request (the caches' maps are iterated in some order of their entries), and one per
    health check of the configuration. *)
From S2P Require Import Prelude RustStd Prog RateLimit Cache Http Auth Events State Health Proxy.
Import State Proxy.

Module Tasks.

Inductive arrives `{WebLib, Auth.JwtLib, Profile} {L} `{!RateLimit.RateLimiter GwE L}
    (gs : GatewayState) : prog GwE (Shared L) unit → Prop :=
| a_request it req : Cache.order_ok it → arrives gs (_ ← handle it gs req; mret ())
| a_check c ticks : c ∈ Health.checks gs → arrives gs (Health.task c ticks).

End Tasks.
