(* ===== verification/Demo.v ===== *)
(** A small gateway on which statements are evaluated: the association-list
    headers of Http.v, a quiet world, one route with two upstreams. *)
From S2P Require Import Prelude RustStd Prog Pool Config Breaker RateLimit Cache.
From S2P Require Import Http Auth Balancer Events State Health Proxy Tasks.
Import Config State Proxy Tasks.

Module Demo.

#[export] Existing Instance Assoc.http.
#[export] Existing Instance Assoc.http_laws.

(** The release profile: additions wrap. *)
#[export] Instance release : Profile := false.

#[export] Instance web : WebLib := {|
  json_error := λ msg, ("error: " +:+ msg)%string;
  text_response_headers := [(HeaderName_from_static "content-type", "text/plain")];
|}.

#[export] Instance jwt : Auth.JwtLib := {|
  Auth.Number := Z;
  Auth.Number_to_string := u_to_string;
  Auth.decode := λ _ _ _, None;
|}.

Definition header (n v : string) : Assoc.name * string := (HeaderName_from_static n, v).

Definition up_a : UpstreamConfig := {| uc_url := "http://a"; uc_weight := 1 |}.
Definition up_b : UpstreamConfig := {| uc_url := "http://b"; uc_weight := 1 |}.

(** A route with the given number of retries, cache and limit, for the key "k". *)
Definition demo_route (retries : Z) (cache : option CacheConfig)
    (rl : option RateLimitConfig) : RouteConfig := {|
  rc_name := "r";
  rc_matches := MatchConfig_default;
  rc_upstreams := [up_a; up_b];
  rc_strategy := RoundRobin;
  rc_strip_path_prefix := false;
  rc_timeout_ms := None;
  rc_retries := retries;
  rc_auth := ApiKey ["k"];
  rc_rate_limit := rl;
  rc_cache := cache;
  rc_circuit_breaker := CircuitBreakerConfig_default;
  rc_health_check := None;
  rc_request_headers := HeaderTransforms_default;
  rc_response_headers := HeaderTransforms_default;
|}.

Definition gateway (r : RouteConfig) : GatewayState :=
  mkGateway {| gc_server := ServerConfig_default; gc_routes := [r] |}
    {[ "r" := (from_config r).1 ]}.
Definition shared (r : RouteConfig) : Shared RateLimit.InMemory.Limiter :=
  mkShared {[ "r" := (from_config r).2 ]} RateLimit.InMemory.new.

Definition get_request (hs : list (Assoc.name * string)) : Request :=
  mkRequest "GET" (mkUri "/x" None (Some "/x")) (header "x-api-key" "k" :: hs) "10.0.0.1".

(** The clock counts the steps; the upstreams answer by their URL. *)
Definition world (up : string → Result SendError UpstreamResponse) : World := {|
  w_now := Z.of_nat;
  w_uuid := "uuid";
  w_body := Ok "body";
  w_up := λ r, up (sr_url r);
  w_read := Ok "answer";
  w_redis := 1;
  w_probe := Ok 200%Z;
|}.

Definition answers (status : Z) : Result SendError UpstreamResponse := Ok (mkUpResp status []).

(** The first upstream fails with a server error, the second is fine. *)
Definition first_fails (url : string) : Result SendError UpstreamResponse :=
  if String.eqb url "http://a/x" then answers 500 else answers 200.

Definition run_in (w : World) (r : RouteConfig) (req : Request)
    : Run GwE (Shared RateLimit.InMemory.Limiter) Response :=
  exec (alone_in w) (handle Cache.list_order (gateway r) req) 0 (shared r).

(** ** The same gateway, as [build] makes it, in a pool *)

Definition demo_config (r : RouteConfig) : GatewayConfig := {|
  gc_server := ServerConfig_default;
  gc_routes := [r];
|}.

(** The world on a clock that stands still. *)
Definition still (w : World) : World := {|
  w_now := λ _, 0%Z; w_uuid := w_uuid w; w_body := w_body w; w_up := w_up w;
  w_read := w_read w; w_redis := w_redis w; w_probe := w_probe w |}.

Definition demo_task {L} `{!RateLimit.RateLimiter GwE L} (gs : GatewayState)
    : prog GwE (Shared L) unit :=
  _ ← handle Cache.list_order gs (get_request []); mret ().

Lemma still_lawful {S} (T : Instant → Prop) w :
  T 0%Z → lawful (S := S) eq (clock_in T) (alone_in (still w)).
Proof.
  intros HT.
  assert (Hans : ∀ n X (e : GwE X), clock_in T X e (world_answer (still w) n e)).
  { intros n X e. by destruct e. }
  split; [done| |].
  - intros n X e. apply Hans.
  - intros n X e x [= <-]. apply Hans.
Qed.

(** A request, from its arrival to its end. *)
Lemma demo_task_steps {L} `{!RateLimit.RateLimiter GwE L} (T : Instant → Prop) gs w (sh : Shared L) :
  T 0%Z →
  let run := exec (alone_in (still w)) (demo_task gs) 0 sh in
  rtc (pool_step (clock_in T) (arrives gs)) ([], sh) ([Done (r_out run)], r_state run).
Proof.
  intros HT run.
  eapply rtc_l; [by apply (pool_arrival _ _ (demo_task gs)), a_request, Cache.list_order_ok|].
  by apply exec_steps, still_lawful.
Qed.

End Demo.
