(* ===== verification/Steps.v ===== *)
(** The gateway as a transition system of its components.

    [gw_step] is what one atomic action of a request or of a health check can do to
    the shared state: one call on one breaker, cache or limiter, or one update of an
    atomic of a balancer.  Every run of the pool of tasks is a run of [gw_step]
    ([run_steps]), so that what the components keep, the gateway keeps. *)
From S2P Require Import Prelude RustStd Prog Pool Config Router Breaker RateLimit Cache.
From S2P Require Import Http Auth Transform Balancer Telemetry Events State Health Proxy Walk Tasks Demo.
Import Config State Proxy Tasks.

Module Steps.

(** ** The steps of the components *)

(** The times of a call. *)
Definition timed (T : Instant → Prop) (c : Breaker.call) : Prop :=
  match c with Breaker.CAllow now | Breaker.CFailure now => T now | Breaker.CSuccess => True end.

Section bal.
Context `{Profile} (T : Instant → Prop).

Inductive breaker_step : Breaker.CircuitBreaker → Breaker.CircuitBreaker → Prop :=
| brk_call c cb : timed T c → breaker_step cb (Breaker.do_call c cb).2
| brk_read cb : breaker_step cb cb.

Inductive bal_step : Balancer.BalState → Balancer.BalState → Prop :=
| bal_cursor s :
    bal_step s (Balancer.mkBalState (usize_wrapping_add (Balancer.rr_cursor s) 1) (Balancer.ups s))
| bal_guard i s : bal_step s (Balancer.guard_new i s).2
| bal_drop i s : bal_step s (Balancer.guard_drop i s)
| bal_health i v s : bal_step s (Balancer.alter_up i (Balancer.put_healthy v) s)
| bal_breaker i cb cb' s :
    Balancer.get_breaker i s = Some cb → breaker_step cb cb' →
    bal_step s (Balancer.set_breaker i cb' s)
| bal_read s : bal_step s s.
End bal.

(** A limiter with the steps its checks take, and an invariant they keep. *)
Class StepLimiter `{Http} L `{RateLimit.RateLimiter GwE L} := {
  lim_step : L → L → Prop;
  lim_ok : L → Prop;
  check_acts : ∀ Ans key lim window,
    acts_by lim_step Ans (RateLimit.check key lim window : prog GwE L _);
  lim_step_ok : ∀ l l', lim_step l l' → lim_ok l → lim_ok l';
}.

Section gw.
Context `{Http, Profile} {L : Type} `{!RateLimit.RateLimiter GwE L, !StepLimiter L}.
Context (T : Instant → Prop).

Inductive gw_step : Shared L → Shared L → Prop :=
| gw_bal name s s' sh :
    get_bal name sh = Some s → bal_step T s s' → gw_step sh (set_bal name s' sh)
| gw_cache name c c' sh :
    get_cache name sh = Some c → Cache.cache_step c c' → gw_step sh (set_cache name c' sh)
| gw_lim l' sh : lim_step (sh_limiter sh) l' → gw_step sh (set_limiter l' sh)
| gw_read sh : gw_step sh sh.
End gw.

(** ** The limiters *)

Lemma check_section_windows `{Profile} key lim window now ws :
  RateLimit.windows_ok ws →
  RateLimit.windows_ok (RateLimit.InMemory.check_section key lim window now ws).2.
Proof.
  intros Hws.
  assert ((RateLimit.InMemory.check_section key lim window now ws).2
        = (RateLimit.InMemory.check_section key 0 window now ws).2) as ->.
  { unfold RateLimit.InMemory.check_section. cbv zeta. by case_match. }
  by apply RateLimit.check_section_ok.
Qed.

#[export] Instance step_in_memory `{Http, Profile} : StepLimiter RateLimit.InMemory.Limiter.
Proof.
  refine {|
    lim_step := λ l l', ∃ key lim window now, l' = (RateLimit.InMemory.check_at key lim window now l).2;
    lim_ok := λ l, RateLimit.windows_ok (mu_val (RateLimit.InMemory.lim_windows l)) |}.
  - intros Ans key lim window now _. split; [|done]. intros l. by exists key, lim, window, now.
  - intros l l' (key & lim & window & now & ->) Hl. unfold RateLimit.InMemory.check_at, with_lock.
    destruct (mu_poisoned _); [done|].
    pose proof (check_section_windows key lim window now _ Hl) as Hw.
    by destruct (RateLimit.InMemory.check_section _ _ _ _ _).
Defined.

#[export] Instance step_redis `{Http} : StepLimiter RateLimit.Redis.Limiter.
Proof.
  refine {| lim_step := eq; lim_ok := λ _, True |}; [|done].
  intros Ans key lim window. split; [|done]. intros [count|e] _; simpl; [|done].
  by destruct (count =? 1)%Z.
Defined.

#[export] Instance step_any `{Http, Profile} : StepLimiter AnyLimiter.
Proof.
  refine {|
    lim_step := λ a a', a' = a ∨ ∃ l l', a = UseMemory l ∧ a' = UseMemory l' ∧ lim_step l l';
    lim_ok := λ a, match a with UseMemory l => lim_ok l | UseRedis _ => True end |}.
  - intros Ans key lim window. apply acts_bind; [by split; [left|]|]. intros [].
    + eapply acts_zoom; [by left| |apply check_acts]. intros [l|l] s s2 [= ->] Heq.
      left. by rewrite <- Heq.
    + eapply acts_zoom; [by left| |apply check_acts]. intros [l|l] s s2 [= ->] Hstep.
      right. eauto.
  - intros a a' [->|(l & l' & -> & -> & Hstep)] Ha; [done|]. by eapply lim_step_ok.
Defined.

(** ** Every action of a task is a step *)

Lemma state_of_same cb : (Breaker.state_of cb).2 = cb.
Proof.
  destruct cb as [thr d [i p]]. unfold Breaker.state_of, Breaker.locked, with_lock; simpl.
  by destruct p.
Qed.

Section acts.
Context `{WebLib, Auth.JwtLib, Profile}.
Context {L : Type} `{!RateLimit.RateLimiter GwE L, !StepLimiter L}.
Context (T : Instant → Prop).

Abbreviation breaker_acts := (acts_by (breaker_step T) (clock_in T)).
Abbreviation bal_acts := (acts_by (bal_step T) (clock_in T)).
Abbreviation Gw := (prog GwE (Shared L)).

Lemma acts_allow : breaker_acts Breaker.allow.
Proof.
  intros now Hnow. split; [|done]. intros cb.
  assert ((Breaker.allow_at now cb).2 = (Breaker.do_call (Breaker.CAllow now) cb).2) as ->.
  { simpl. by destruct (Breaker.allow_at now cb). }
  by apply brk_call.
Qed.

Lemma acts_success : breaker_acts (act Breaker.record_success).
Proof.
  split; [|done]. intros cb.
  assert ((Breaker.record_success cb).2 = (Breaker.do_call Breaker.CSuccess cb).2) as ->.
  { simpl. by destruct (Breaker.record_success cb). }
  by apply brk_call.
Qed.

Lemma acts_failure : breaker_acts Breaker.record_failure.
Proof.
  intros now Hnow. split; [|done]. intros cb.
  assert ((Breaker.record_failure_at now cb).2 = (Breaker.do_call (Breaker.CFailure now) cb).2) as ->.
  { simpl. by destruct (Breaker.record_failure_at now cb). }
  by apply brk_call.
Qed.

Lemma acts_state : breaker_acts (act Breaker.state_of).
Proof. split; [|done]. intros cb. rewrite state_of_same. apply brk_read. Qed.

Lemma acts_breaker {A} i (p : prog GwE Breaker.CircuitBreaker A) :
  breaker_acts p → bal_acts (zoom (Balancer.get_breaker i) (Balancer.set_breaker i) p).
Proof. apply acts_zoom; [apply bal_read|]. intros s cb cb' Hcb. by apply bal_breaker. Qed.

Lemma acts_with_up {A} i (f : Balancer.UpstreamState → A) : bal_acts (Balancer.with_up i f).
Proof. split; [|done]. intros s. case_match; apply bal_read. Qed.

Lemma acts_admits ex i : bal_acts (Balancer.admits ex i).
Proof.
  unfold Balancer.admits. case_match; [done|]. apply acts_bind; [apply acts_with_up|].
  intros []; [|done]. apply acts_breaker, acts_allow.
Qed.

Lemma acts_find ex idxs : bal_acts (Balancer.find_eligible ex idxs).
Proof.
  induction idxs as [|i idxs IH]; [done|]. apply acts_bind; [apply acts_admits|]. by intros [].
Qed.

Lemma acts_rr b ex k : bal_acts (Balancer.rr_loop b ex k).
Proof.
  induction k as [|k IH]; [apply acts_find|].
  apply acts_bind; [apply acts_act; intros s; apply bal_cursor|]. intros c.
  case_match; [|done]. apply acts_bind; [apply acts_admits|]. by intros [].
Qed.

Lemma acts_least ex idxs best : bal_acts (Balancer.least_loop ex idxs best).
Proof.
  revert best. induction idxs as [|i idxs IH]; intros best; [done|].
  apply acts_bind; [apply acts_admits|]. intros []; [|apply IH].
  apply acts_bind; [apply acts_with_up|]. intros a. apply IH.
Qed.

Lemma acts_pick b ex : bal_acts (Balancer.pick b ex).
Proof.
  apply acts_bind; [case_match; [apply acts_rr|apply acts_least]|]. intros [i|]; [|done].
  case_match; [|done]. apply acts_bind; [|done]. apply acts_act. intros s. apply bal_guard.
Qed.

Abbreviation gw_acts := (acts_by (gw_step (L := L) T) (clock_in T)).

Lemma acts_on_bal {A} name (p : prog GwE Balancer.BalState A) : bal_acts p → gw_acts (on_bal name p).
Proof. apply acts_zoom; [apply gw_read|]. intros sh s s' Hs. by apply gw_bal. Qed.

Lemma acts_on_breaker {A} name i (p : prog GwE Breaker.CircuitBreaker A) :
  breaker_acts p → gw_acts (on_breaker name i p).
Proof. intros Hp. by apply acts_on_bal, acts_breaker. Qed.

Lemma acts_on_cache {A} name (p : prog GwE Cache.ResponseCache A) :
  acts_by Cache.cache_step (clock_in T) p → gw_acts (on_cache name p).
Proof. apply acts_zoom; [apply gw_read|]. intros sh c c' Hc. by apply gw_cache. Qed.

Lemma drop_guard_step name i (sh : Shared L) : gw_step T sh (drop_guard name i sh).
Proof.
  unfold drop_guard. destruct (get_bal name sh) as [s|] eqn:Hs.
  - assert (alter_route name (λ rs, mkRouteState (Balancer.guard_drop i (rs_bal rs)) (rs_cache rs)) sh
            = set_bal name (Balancer.guard_drop i s) sh) as ->.
    { unfold set_bal, alter_route. f_equal. apply alter_ext. intros rs Hrs.
      unfold get_bal in Hs. rewrite Hrs in Hs. by injection Hs as ->. }
    eapply gw_bal; [done|apply bal_drop].
  - assert (alter_route name (λ rs, mkRouteState (Balancer.guard_drop i (rs_bal rs)) (rs_cache rs)) sh
            = sh) as ->.
    { unfold get_bal in Hs. apply fmap_None in Hs. destruct sh as [m l]. unfold alter_route.
      simpl in *. f_equal. apply map_eq. intros n. destruct (decide (n = name)) as [->|Hn].
      - by rewrite lookup_alter_eq, Hs.
      - by rewrite lookup_alter_ne. }
    apply gw_read.
Qed.

#[local] Instance acts_walk gs it :
  Cache.order_ok it → Walk gs it (λ A (p : Gw A), gw_acts p) (λ A (p : Gw A), gw_acts p).
Proof.
  intros Hit. split; try done.
  - intros A B p k. apply acts_bind.
  - intros d ls op _ _. unfold metric. by case_match.
  - intros name i _. apply acts_on_breaker, acts_state.
  - intros name i _. apply acts_on_breaker, acts_success.
  - intros name i _. apply acts_on_breaker, acts_failure.
  - intros name i _. apply acts_on_bal, acts_with_up.
  - intros name i v _. apply acts_on_bal, acts_act. intros s. apply bal_health.
  - intros name k _. apply acts_on_cache. intros now _. split; [|done]. intros c.
    apply Cache.step_get.
  - intros name k st hs b _ _. apply acts_on_cache. intros now _ now' _. split; [|done]. intros c.
    by apply Cache.step_put.
  - intros A B p k. apply acts_bind.
  - intros A name rt ex none body Hrt Hnone Hbody. eapply acts_bind_yields.
    + apply acts_on_bal, acts_pick.
    + apply yields_zoom, (Balancer.yields_pick (rt_balancer rt) ex).
    + intros [[i up]|] Hi; [|exact Hnone].
      apply acts_finally; [|intros sh; apply drop_guard_step]. apply Hbody.
      exists rt. split; [done|]. by eapply Hi.
Qed.

Lemma acts_check key lim w : gw_acts (on_limiter (RateLimit.check key lim w) : Gw _).
Proof.
  eapply acts_zoom; [apply gw_read| |apply check_acts]. intros sh l l' [= <-]. apply gw_lim.
Qed.

Lemma arrival_acts gs p : arrives gs p → gw_acts p.
Proof.
  intros [it req Hit|c ticks Hc].
  - apply acts_bind; [|done]. apply (walk_handle (HW := acts_walk gs it Hit)); [by intros op|].
    intros key lim w _. apply acts_check.
  - exact (walk_task (HW := acts_walk gs _ Cache.list_order_ok) c ticks Hc).
Qed.

(** The pool of tasks refines the transition system. *)
Lemma run_steps gs sh ps sh' :
  rtc (pool_step (clock_in T) (arrives gs)) ([], sh) (ps, sh') → rtc (gw_step T) sh sh'.
Proof. intros Hrun. eapply pool_acts; [apply arrival_acts|exact Hrun|by constructor]. Qed.
End acts.

(** ** What a run does to one component *)
Section projections.
Context `{Http, Profile} {L : Type} `{!RateLimit.RateLimiter GwE L, !StepLimiter L}.
Context (T : Instant → Prop).
Implicit Types sh : Shared L.

(** One step of the gateway, on one route. *)
Definition route_step (rs rs' : RouteState) : Prop :=
  bal_step T (rs_bal rs) (rs_bal rs') ∧ rs_cache rs' = rs_cache rs
  ∨ rs_bal rs' = rs_bal rs ∧ ∃ c c', rs_cache rs = Some c ∧ rs_cache rs' = Some c'
      ∧ Cache.cache_step c c'.

Lemma route_step_refl rs : route_step rs rs.
Proof. left. split; [apply bal_read|done]. Qed.

Lemma alter_route_step name (f : RouteState → RouteState) sh n rs' :
  (∀ rs, sh_routes sh !! name = Some rs → route_step rs (f rs)) →
  sh_routes (alter_route name f sh) !! n = Some rs' →
  ∃ rs, sh_routes sh !! n = Some rs ∧ route_step rs rs'.
Proof.
  intros Hf. simpl. destruct (decide (n = name)) as [->|Hn].
  - rewrite lookup_alter_eq. intros (rs & Hrs & ->)%fmap_Some. eauto.
  - rewrite lookup_alter_ne by done. eauto using route_step_refl.
Qed.

Lemma gw_step_route sh sh' n rs' :
  gw_step T sh sh' → sh_routes sh' !! n = Some rs' →
  ∃ rs, sh_routes sh !! n = Some rs ∧ route_step rs rs'.
Proof.
  destruct 1 as [name s s' sh Hs Hstep|name c c' sh Hc Hstep|l' sh Hl|sh].
  - apply alter_route_step. intros rs Hrs. left. split; [|done]. simpl.
    unfold get_bal in Hs. rewrite Hrs in Hs. by injection Hs as ->.
  - apply alter_route_step. intros rs Hrs. right. split; [done|]. exists c, c'.
    unfold get_cache in Hc. rewrite Hrs in Hc. done.
  - eauto using route_step_refl.
  - eauto using route_step_refl.
Qed.

Lemma run_route sh sh' n rs' :
  rtc (gw_step T) sh sh' → sh_routes sh' !! n = Some rs' →
  ∃ rs, sh_routes sh !! n = Some rs ∧ rtc route_step rs rs'.
Proof.
  intros Hrun. revert rs'. induction Hrun as [sh|sh1 sh2 sh3 Hstep _ IH]; intros rs' Hrs'.
  - by exists rs'.
  - destruct (IH rs' Hrs') as (rs2 & Hrs2 & Hr2).
    destruct (gw_step_route _ _ _ _ Hstep Hrs2) as (rs1 & Hrs1 & Hr1).
    exists rs1. split; [done|]. by eapply rtc_l.
Qed.

Lemma gw_step_lim sh sh' :
  gw_step T sh sh' → lim_ok (sh_limiter sh) → lim_ok (sh_limiter sh').
Proof. destruct 1; [done|done| |done]. by apply lim_step_ok. Qed.



End projections.

(** ** Machine integers and sizes *)

(** What the types and capacities promise of the state of one route. *)
Definition route_typed (rt : RouteRuntime) (rs : RouteState) : Prop :=
  u64_ok (Balancer.rr_cursor (rs_bal rs))
  ∧ length (Balancer.ups (rs_bal rs)) = length (Balancer.upstreams (rt_balancer rt))
  ∧ Forall (λ u, i64_ok (Balancer.active u) ∧ Breaker.wf (Balancer.breaker u))
      (Balancer.ups (rs_bal rs))
  ∧ is_some (rs_cache rs) = rt_cached rt
  ∧ ∀ c, rs_cache rs = Some c → Cache.cache_ok c.

Section typed.
Context `{Profile} (T : Instant → Prop).

Lemma breaker_step_wf cb cb' : breaker_step T cb cb' → Breaker.wf cb → Breaker.wf cb'.
Proof.
  destruct 1 as [[now| |now] cb _|cb]; intros Hwf; simpl; [..|done].
  - pose proof (Breaker.allow_at_wf now cb Hwf). by destruct (Breaker.allow_at now cb).
  - pose proof (Breaker.record_success_wf cb Hwf). by destruct (Breaker.record_success cb).
  - pose proof (Breaker.record_failure_at_wf now cb Hwf).
    by destruct (Breaker.record_failure_at now cb).
Qed.

Abbreviation up_typed := (λ u, i64_ok (Balancer.active u) ∧ Breaker.wf (Balancer.breaker u)).

Lemma alter_up_typed i f s :
  (∀ u, Balancer.ups s !! i = Some u → up_typed u → up_typed (f u)) →
  Forall up_typed (Balancer.ups s) → Forall up_typed (Balancer.ups (Balancer.alter_up i f s)).
Proof.
  intros Hf Hall. apply Forall_lookup. intros j u. simpl. destruct (decide (j = i)) as [->|Hj].
  - rewrite list_lookup_alter_eq. intros (u0 & Hu0 & ->)%fmap_Some. apply Hf; [done|].
    by eapply (Forall_lookup_1 _ _ _ _ Hall).
  - rewrite list_lookup_alter_ne by done. intros Hu. exact (Forall_lookup_1 _ _ _ _ Hall Hu).
Qed.

Lemma bal_step_typed s s' :
  bal_step T s s' →
  u64_ok (Balancer.rr_cursor s) → Forall up_typed (Balancer.ups s) →
  u64_ok (Balancer.rr_cursor s') ∧ length (Balancer.ups s') = length (Balancer.ups s)
  ∧ Forall up_typed (Balancer.ups s').
Proof.
  intros Hstep Hc Hall. destruct Hstep as [s|i s|i s|i v s|i cb cb' s Hcb Hstep|s].
  - split_and!; [apply usize_wrapping_ok|done|done].
  - split_and!; [done|simpl; by rewrite length_alter|]. apply alter_up_typed; [|done].
    intros u _ [_ Hu]. split; [apply i64_wrap_ok|done].
  - split_and!; [done|simpl; by rewrite length_alter|]. apply alter_up_typed; [|done].
    intros u _ [_ Hu]. split; [apply i64_wrap_ok|done].
  - split_and!; [done|simpl; by rewrite length_alter|]. by apply alter_up_typed.
  - split_and!; [done|simpl; by rewrite length_alter|]. apply alter_up_typed; [|done].
    intros u Hu [Ha Hwf]. split; [done|]. simpl. eapply breaker_step_wf; [exact Hstep|].
    unfold Balancer.get_breaker in Hcb. rewrite Hu in Hcb. by injection Hcb as <-.
  - done.
Qed.

Lemma cache_step_ok c c' : Cache.cache_step c c' → Cache.cache_ok c → Cache.cache_ok c'.
Proof. destruct 1; [apply Cache.get_at_ok|by apply Cache.put_at_ok]. Qed.

Lemma route_step_typed rt rs rs' : route_step T rs rs' → route_typed rt rs → route_typed rt rs'.
Proof.
  intros Hstep (Hcur & Hlen & Hall & Hsome & Hcache). unfold route_typed.
  destruct Hstep as [[Hb ->]|(-> & c & c' & Hc & Hc' & Hstep)].
  - destruct (bal_step_typed _ _ Hb Hcur Hall) as (Hcur' & Hlen' & Hall').
    rewrite Hlen'. by split_and!.
  - rewrite Hc', <- Hsome, Hc. split_and!; [done..|]. intros c2 [= <-].
    eapply cache_step_ok; [exact Hstep|]. by apply Hcache.
Qed.

Lemma from_config_typed r : route_in_range r → route_typed (from_config r).1 (from_config r).2.
Proof.
  intros (_ & _ & Hthr & _). unfold route_typed, u64_ok, u64_max, i64_ok. simpl.
  split_and!; [lia|lia|by rewrite !length_fmap| |done|].
  - apply Forall_fmap, Forall_true. intros u. split; [simpl; lia|]. by apply Breaker.new_wf.
  - unfold new_cache. intros c (cfg & _ & ->)%fmap_Some. unfold Cache.cache_ok, Cache.stored. simpl.
    rewrite map_size_empty. lia.
Qed.
End typed.

(** ** Properties *)

(** C23: the state of the gateway stays well typed: in every state that any
    interleaving of requests and health checks reaches, cursors, active counts,
    failure counts and window counts are within their integer types, every breaker
    is well formed (closed only below its threshold, open only with a time to
    reopen), every upstream of a route has its state, and no cache holds more
    entries than its capacity. *)
Theorem state_well_typed `{WebLib, Auth.JwtLib, Profile} {Client Conn}
    (open : string → Result string Client) (connection_manager : Client → Result string Conn)
    config gs sh T ps sh' :
  Forall route_in_range (gc_routes config) →
  build (Ok ()) open connection_manager config = Ok (gs, sh) →
  rtc (pool_step (clock_in T) (arrives gs)) ([], sh) (ps, sh') →
  (∀ name rs, sh_routes sh' !! name = Some rs →
     ∃ rt, route gs name = Some rt ∧ route_typed rt rs)
  ∧ ∀ l, sh_limiter sh' = UseMemory l →
      RateLimit.windows_ok (mu_val (RateLimit.InMemory.lim_windows l)).
Proof.
  intros Hrange Hb Hrun%run_steps.
  destruct (build_lookup open connection_manager config gs sh Hb) as (_ & Hlim & Hlook).
  split.
  - intros name rs' Hrs'. destruct (run_route T sh sh' name rs' Hrun Hrs') as (rs & Hrs & Hsteps).
    destruct (Hlook name) as [[_ ?]|(r & Hr & _ & Hrt & Hrs0)]; [congruence|].
    exists (from_config r).1. split; [done|]. assert (rs = (from_config r).2) as -> by congruence.
    rewrite Forall_forall in Hrange. pose proof (from_config_typed r (Hrange r Hr)) as Htyped.
    clear -Hsteps Htyped. induction Hsteps; eauto using route_step_typed.
  - assert (lim_ok (sh_limiter sh)) as Hok.
    { rewrite Hlim. unfold choose_limiter.
      destruct (sc_redis_url _); [destruct (RateLimit.Redis.connect _ _ _)|]; done. }
    clear -Hrun Hok. intros l Hl. assert (lim_ok (sh_limiter sh')) as Hok'.
    { induction Hrun; eauto using gw_step_lim. }
    by rewrite Hl in Hok'.
Qed.


Import Demo.

(** After a request whose first call fails. *)
Definition demo_built : Result string (GatewayState * Shared AnyLimiter) :=
  build (Ok ()) (λ url, Ok url) (λ c : string, Ok c) (demo_config (demo_route 1 None None)).

Lemma state_well_typed_witness :
  ∃ gs sh, demo_built = Ok (gs, sh)
    ∧ let run := exec (alone_in (still (world first_fails))) (demo_task gs) 0 sh in
      ∃ rt rs, sh_routes (r_state run) !! "r" = Some rs ∧ route gs "r" = Some rt
        ∧ route_typed rt rs.
Proof.
  destruct demo_built as [[gs sh]|e] eqn:Eb; [|by vm_compute in Eb].
  pose proof Eb as Eb'. injection Eb' as Hgs Hsh. exists gs, sh. split; [done|].
  set (run := exec _ (demo_task gs) 0 sh). cbv zeta.
  destruct (state_well_typed (λ url, Ok url) (λ c : string, Ok c)
    (demo_config (demo_route 1 None None)) gs sh (λ _, True) [Done (r_out run)] (r_state run))
    as [Hr _].
  - apply Forall_singleton. unfold route_in_range, u32_ok, u64_ok, u32_max, u64_max. simpl.
    unfold default_cb_threshold, default_cb_open_secs.
    split_and!; try lia. repeat constructor; simpl; lia.
  - exact Eb.
  - by apply demo_task_steps.
  - assert (is_some (sh_routes (r_state run) !! "r") = true) as Hsome.
    { subst run. rewrite <- Hgs, <- Hsh. by vm_compute. }
    destruct (sh_routes (r_state run) !! "r") as [rs|] eqn:Hrs; [|done].
    destruct (Hr "r" rs Hrs) as (rt & Hrt & Hty). by exists rt, rs.
Defined.


End Steps.
