(* ===== verification/Ends.v ===== *)
(** Every request ends: a bound on the steps a request makes, whatever the other
    tasks, the upstreams and Redis do, and that it is never stuck before.  The
    bound is computed from the route: its retries, the length of its selection
    order and its number of upstreams. *)
From S2P Require Import Prelude RustStd Prog Pool Config Router Breaker RateLimit Cache.
From S2P Require Import Http Auth Transform Balancer Telemetry Events State Health Proxy Tasks Demo.
Import Config State Proxy Tasks.

Module Ends.

(** The steps of a limiter's check. *)
Class BoundedLimiter `{Http} L `{RateLimit.RateLimiter GwE L} := {
  check_budget : nat;
  check_takes : ∀ key lim window,
    takes_le check_budget (RateLimit.check key lim window : prog GwE L _);
}.

#[export] Instance bounded_in_memory `{Http, Profile} : BoundedLimiter RateLimit.InMemory.Limiter.
Proof. refine {| check_budget := 2 |}. by intros key lim window now x; destruct x. Defined.

#[export] Instance bounded_redis `{Http} : BoundedLimiter RateLimit.Redis.Limiter.
Proof.
  refine {| check_budget := 3 |}. intros key lim window [[count|e]|]; simpl; [|done..].
  destruct (count =? 1)%Z; intros [|]; try done; by intros [|].
Defined.

#[export] Instance bounded_any `{Http, Profile} : BoundedLimiter AnyLimiter.
Proof.
  refine {| check_budget := 4 |}. intros key lim window.
  apply (takes_bind 1 3); [lia|by intros x; destruct x|]. intros [].
  - pose proof (check_takes (L := RateLimit.Redis.Limiter) key lim window) as Hc.
    by apply takes_zoom.
  - pose proof (check_takes (L := RateLimit.InMemory.Limiter) key lim window) as Hc.
    apply takes_zoom. eapply takes_mono; [|exact Hc]. simpl. lia.
Defined.

(** ** Budgets *)

Definition pick_budget (b : Balancer.Balancer) : nat :=
  4 * length (Balancer.rr_order b) + 4 * length (Balancer.upstreams b) + 1.

Definition attempt_budget (b : Balancer.Balancer) : nat := pick_budget b + 17.

Definition attempts_budget (rt : RouteRuntime) : nat :=
  Z.to_nat (max_attempts (rt_config rt)) * attempt_budget (rt_balancer rt) + 3.

Section budget.
Context `{WebLib, Auth.JwtLib, Profile}.
Context {L : Type} `{!RateLimit.RateLimiter GwE L, !BoundedLimiter L}.
Context (it : Cache.hash_order) (gs : GatewayState).

(** The route of the request decides. *)
Definition proxy_budget (req : Request) : nat :=
  match Router.match_route (gs_config gs) (Some (host_of (headers req))) (uri_path (uri req)) with
  | Some r => match route gs (rc_name r) with Some rt => attempts_budget rt | None => 0 end
  | None => 0
  end.

Definition request_budget (req : Request) : nat := 9 + check_budget + proxy_budget req.

Abbreviation Gw := (prog GwE (Shared L)).

(** ** The parts *)

Lemma takes_act {E S X} (f : S → Outcome X * S) : takes_le 1 (act f : prog E S X).
Proof. by intros x. Qed.

Lemma takes_with_up {E A} i (f : Balancer.UpstreamState → A) :
  takes_le 1 (Balancer.with_up i f : prog E _ A).
Proof. apply takes_act. Qed.

Lemma takes_admits {E} `{Clock E} ex i : takes_le 3 (Balancer.admits (E := E) ex i).
Proof.
  unfold Balancer.admits. case_match; [done|].
  apply (takes_bind 1 2); [lia|apply takes_with_up|]. intros []; [|done]. by apply takes_zoom.
Qed.

Lemma takes_find {E} `{Clock E} ex idxs :
  takes_le (3 * length idxs) (Balancer.find_eligible (E := E) ex idxs).
Proof.
  induction idxs as [|i idxs IH]; [done|].
  apply (takes_bind 3 (3 * length idxs)); [simpl; lia|apply takes_admits|]. by intros [].
Qed.

Lemma takes_rr {E} `{Clock E} b ex k :
  takes_le (4 * k + 3 * length (Balancer.upstreams b)) (Balancer.rr_loop (E := E) b ex k).
Proof.
  induction k as [|k IH].
  { unfold Balancer.rr_loop, Balancer.first_eligible.
    eapply takes_mono; [|apply takes_find]. rewrite length_seq. lia. }
  apply (takes_bind 1 (4 * k + 3 * length (Balancer.upstreams b) + 3));
    [lia|apply takes_act|]. intros c. case_match; [|done].
  apply (takes_bind 3 (4 * k + 3 * length (Balancer.upstreams b))); [lia|apply takes_admits|].
  by intros [].
Qed.

Lemma takes_least {E} `{Clock E} ex idxs best :
  takes_le (4 * length idxs) (Balancer.least_loop (E := E) ex idxs best).
Proof.
  revert best. induction idxs as [|i idxs IH]; intros best; [done|].
  apply (takes_bind 3 (1 + 4 * length idxs)); [simpl; lia|apply takes_admits|]. intros [].
  - apply (takes_bind 1 (4 * length idxs)); [lia|apply takes_with_up|]. intros a. apply IH.
  - eapply takes_mono; [|apply IH]. lia.
Qed.

Lemma takes_pick {E} `{Clock E} b ex : takes_le (pick_budget b) (Balancer.pick (E := E) b ex).
Proof.
  unfold pick_budget.
  apply (takes_bind (4 * length (Balancer.rr_order b) + 4 * length (Balancer.upstreams b)) 1);
    [lia| |].
  - destruct (Balancer.strategy b).
    + eapply takes_mono; [|apply takes_rr]. lia.
    + eapply takes_mono; [|apply takes_least]. rewrite length_seq. lia.
  - intros [i|]; [|done]. case_match; [|done]. apply (takes_bind 1 0); [lia|apply takes_act|done].
Qed.

Lemma takes_metric d ls op : takes_le 1 (metric d ls op : Gw unit).
Proof. unfold metric. by case_match. Qed.

Lemma takes_record name meth st started : takes_le 3 (record name meth st started : Gw unit).
Proof.
  apply (takes_bind 1 2); [lia|apply takes_metric|]. intros _.
  apply (takes_bind 1 1); [lia|by intros x|]. intros now. apply takes_metric.
Qed.

(** An answer after it is recorded. *)
Lemma takes_recorded {A} N name meth st started (a : A) :
  3 ≤ N → takes_le N (_ ← record name meth st started; mret a : Gw A).
Proof. intros HN. apply (takes_bind 3 0); [lia|apply takes_record|done]. Qed.

Lemma takes_finish rt name meth st hs ce ck id started :
  takes_le 7 (finish_response it rt name meth st hs ce ck id started : Gw Response).
Proof.
  unfold finish_response. cbv zeta. apply (takes_bind 3 4); [lia|apply takes_record|]. intros _.
  case_match; [|done]. apply (takes_bind 1 3); [lia|by intros [|]|]. intros [bytes|e]; [|done].
  apply (takes_bind 3 0); [lia| |done]. case_match; [|done]. by apply takes_zoom.
Qed.

Lemma takes_try a more i up : takes_le 16 (try_upstream it a more i up : Gw Flow).
Proof.
  assert (Hfin : ∀ n st hs, 7 ≤ n → takes_le n
    (r ← finish_response it (at_runtime a) (at_route a) (at_method a) st hs
           (at_cache_enabled a) (at_cache_key a) (at_correlation a) (at_started a);
     mret (Return r) : Gw Flow)).
  { intros n st hs Hn. apply (takes_bind 7 0); [lia|apply takes_finish|done]. }
  unfold try_upstream. cbv zeta.
  apply (takes_bind 1 15); [lia|by intros x|]. intros start.
  apply (takes_bind 1 14); [lia|by intros [|]|]. intros result.
  apply (takes_bind 1 13); [lia|by intros x|]. intros now.
  apply (takes_bind 1 12); [lia|apply takes_metric|]. intros _.
  apply (takes_bind 1 11); [lia|by do 2 apply takes_zoom|]. intros st.
  apply (takes_bind 1 10); [lia|apply takes_metric|]. intros _.
  destruct result as [resp|e]; [case_match|].
  - apply (takes_bind 2 8); [lia|by do 2 apply takes_zoom|]. intros _.
    apply (takes_bind 1 7); [lia|apply takes_metric|]. intros _. case_match; [done|by apply Hfin].
  - apply (takes_bind 1 9); [lia|by do 2 apply takes_zoom|]. intros _. apply Hfin. lia.
  - apply (takes_bind 2 8); [lia|by do 2 apply takes_zoom|]. intros _.
    apply (takes_bind 1 7); [lia|apply takes_metric|]. intros _. case_match; [done|].
    apply takes_recorded. lia.
Qed.

Lemma takes_attempts a k ex :
  takes_le (k * attempt_budget (rt_balancer (at_runtime a)) + 3) (attempts it a k ex : Gw Response).
Proof.
  revert ex. induction k as [|k IH]; intros ex; cbn [attempts].
  { apply takes_recorded. lia. }
  apply (takes_bind (attempt_budget (rt_balancer (at_runtime a)))
           (k * attempt_budget (rt_balancer (at_runtime a)) + 3)); [lia| |].
  - unfold attempt, attempt_budget.
    apply (takes_bind (pick_budget (rt_balancer (at_runtime a))) 17); [lia| |].
    + apply takes_zoom, takes_pick.
    + intros [[i up]|]; [|apply takes_recorded; lia].
      apply (takes_finally 16); [lia|apply takes_try].
  - intros [i|r]; [apply IH|done].
Qed.

Lemma takes_forward req rt name id started ce ck :
  takes_le (1 + attempts_budget rt) (forward it gs req rt name id started ce ck : Gw Response).
Proof.
  unfold forward, attempts_budget. cbv zeta.
  apply (takes_bind 1 (Z.to_nat (max_attempts (rt_config rt)) * attempt_budget (rt_balancer rt) + 3));
    [lia|by intros [|]|]. intros [body|e]; [|apply takes_recorded; lia].
  match goal with |- context [attempts it ?a] => apply (takes_attempts a) end.
Qed.

Lemma takes_lookup req rt name id started :
  takes_le (4 + attempts_budget rt) (lookup_and_forward it gs req rt name id started : Gw Response).
Proof.
  unfold lookup_and_forward. cbv zeta.
  case_match; [|eapply takes_mono; [|apply takes_forward]; lia].
  apply (takes_bind 2 (2 + attempts_budget rt)); [lia|by apply takes_zoom|]. intros [hit|].
  - apply (takes_bind 1 3); [unfold attempts_budget; lia|apply takes_metric|]. intros _.
    by apply takes_recorded.
  - apply (takes_bind 1 (1 + attempts_budget rt)); [lia|apply takes_metric|]. intros _.
    apply takes_forward.
Qed.

Lemma takes_limit req rt name id started :
  takes_le (check_budget + 4 + attempts_budget rt)
    (limit_and_forward it gs req rt name id started : Gw Response).
Proof.
  unfold limit_and_forward. cbv zeta.
  case_match; [|eapply takes_mono; [|apply takes_lookup]; lia].
  apply (takes_bind check_budget (4 + attempts_budget rt)); [lia|apply takes_zoom, check_takes|].
  intros d. case_match; [|apply takes_lookup].
  apply (takes_bind 1 3); [lia|apply takes_metric|]. intros _. by apply takes_recorded.
Qed.

Lemma takes_handle req : takes_le (request_budget req) (handle it gs req : Gw Response).
Proof.
  unfold handle, request_budget. set (N := proxy_budget req).
  apply (takes_bind 1 (8 + check_budget + N)); [lia|apply takes_metric|]. intros _.
  apply (takes_bind 1 (7 + check_budget + N)); [lia|by intros x|]. intros _.
  apply (takes_bind (6 + check_budget + N) 1); [lia| |].
  2: { intros resp. apply (takes_bind 1 0); [lia|apply takes_metric|done]. }
  unfold route_and_proxy. cbv zeta.
  apply (takes_bind 1 (5 + check_budget + N)); [lia|by intros x|]. intros started.
  apply (takes_bind 1 (4 + check_budget + N)); [lia|by case_match|]. intros id.
  subst N. unfold proxy_budget. destruct (Router.match_route _ _ _) as [r|].
  2: { apply (takes_bind 1 0); [lia|apply takes_metric|done]. }
  destruct (route gs (rc_name r)) as [rt|]; [|done].
  case_match; [eapply takes_mono; [|apply takes_limit]; lia|].
  apply (takes_bind 1 3); [lia|apply takes_metric|]. intros _. by apply takes_recorded.
Qed.
End budget.

(** Whatever is asked has an answer, once the clock has one. *)
Lemma some_answer `{Http} T : (∃ now, T now) → ∀ X (e : GwE X), ∃ x, clock_in T X e x.
Proof.
  intros [now Hnow] X e. destruct e; [by exists now|..]; first
    [ by exists EmptyString | by exists () | by exists (Err EmptyString)
    | by exists (Err (mkSendError true)) ].
Qed.

(** ** Properties *)

(** C25: every request ends: in any interleaving with other requests and health
    checks, whatever upstreams, Redis and clients do, a request makes at most
    [request_budget] steps of its own, it has ended when it has made that many, and
    until it has ended it can always make one (no deadlock, no livelock): any
    scheduler that keeps running it gets it to its answer. *)
Theorem every_request_ends `{WebLib, Auth.JwtLib, Profile} {L}
    `{!RateLimit.RateLimiter GwE L, !BoundedLimiter L} T gs it req i n ps (sh : Shared L) ps' sh' :
  (∃ now, T now) →
  ps !! i = Some (_ ← handle it gs req; mret ()) →
  pool_run (clock_in T) (arrives gs) i n (ps, sh) (ps', sh') →
  n ≤ request_budget gs req
  ∧ ∃ p', ps' !! i = Some p' ∧ (n = request_budget gs req → ended p')
    ∧ (ended p' ∨ ∃ p'' sh'', task_step (clock_in T) p' sh' p'' sh'').
Proof.
  intros HT Hi Hrun. eapply pool_run_ends; [by apply some_answer| |exact Hi|exact Hrun].
  apply (takes_bind (request_budget gs req) 0); [lia|apply takes_handle|done].
Qed.

(** C26: requests in flight drain: once no more arrive, as in a graceful shutdown,
    any number of them, whatever their interleaving and their calls, make together at
    most the sum of their budgets of steps, and when no step is left every one of
    them has ended. *)
Theorem requests_drain `{WebLib, Auth.JwtLib, Profile} {L}
    `{!RateLimit.RateLimiter GwE L, !BoundedLimiter L} T gs it reqs n (sh : Shared L) ps' sh' :
  (∃ now, T now) →
  nsteps (pool_step (clock_in T) (λ _, False)) n
    ((λ req, _ ← handle it gs req; mret ()) <$> reqs, sh) (ps', sh') →
  n ≤ sum_list (request_budget gs <$> reqs)
  ∧ ((∀ c, ¬ pool_step (clock_in T) (λ _, False) (ps', sh') c) → Forall ended ps').
Proof.
  intros HT Hrun. split; [|by apply pool_stops, some_answer].
  eapply (pool_drains _ _ (request_budget gs <$> reqs)); [| |exact Hrun]; [intros p; tauto|].
  apply Forall2_fmap, Forall_Forall2_diag, Forall_forall.
  intros req _.
  apply (takes_bind (request_budget gs req) 0); [lia|apply takes_handle|done].
Qed.

Import Demo.

(** Two requests, two upstreams, one retry: each takes at most 82 steps.  After a
    step of the first, the arrival of the second and a step of that, the first can
    go on. *)
Lemma every_request_ends_witness :
  let gs := gateway (demo_route 1 None None) in
  let sh := shared (demo_route 1 None None) in
  request_budget (L := RateLimit.InMemory.Limiter) gs (get_request []) = 82
  ∧ ∃ ps' sh' p' p'' sh'',
      pool_run (clock_in (λ _, True)) (arrives gs) 0 1 ([demo_task gs], sh) (ps', sh')
      ∧ ps' !! 0 = Some p' ∧ task_step (clock_in (λ _, True)) p' sh' p'' sh''.
Proof.
  intros gs sh. split; [by vm_compute|].
  assert (Hrun : ∃ ps' sh', pool_run (clock_in (λ _, True)) (arrives gs) 0 1
            ([demo_task gs], sh) (ps', sh')
            ∧ ps' !! 0 = Some (_ ← (_ ← Instant_now; response ← route_and_proxy Cache.list_order gs
                (get_request []); _ ← metric Telemetry.active_connections [] Dec; mret response);
                mret ())).
  { eexists _, _. split.
    - eapply run_own; [done|by apply (step_ext _ _ _ _ ())|].
      eapply run_arrival; [apply (a_request gs Cache.list_order (get_request [])),
        Cache.list_order_ok|].
      eapply (run_other _ _ _ 0 1); [done|done|by apply (step_ext _ _ _ _ ())|]. apply run_end.
    - done. }
  destruct Hrun as (ps' & sh' & Hrun & Hp').
  destruct (every_request_ends (λ _, True) gs Cache.list_order (get_request []) 0 1
    [demo_task gs] sh ps' sh') as (_ & p' & Hp & _ & [[o Ho]|(p'' & sh'' & Hstep)]).
  - by exists 0%Z.
  - done.
  - exact Hrun.
  - rewrite Hp' in Hp. injection Hp as <-. discriminate Ho.
  - by exists ps', sh', p', p'', sh''.
Defined.

(** A task that has ended makes no step. *)
Lemma done_stays {E S} (Ans : ∀ X, E X → X → Prop) (o : Outcome ()) (s : S) c :
  ¬ pool_step Ans (λ _, False) ([Done o], s) c.
Proof.
  intros Hc. inversion Hc as [i p p' ps s1 s' Hi Ht|]; subst; [|done].
  apply list_lookup_singleton_Some in Hi as [_ <-]. inversion Ht.
Qed.

(** One request, run to its end: it takes at most 82 steps, and then none is left. *)
Lemma requests_drain_witness :
  let gs := gateway (demo_route 1 None None) in
  let sh := shared (demo_route 1 None None) in
  let run := exec (alone_in (still (world first_fails))) (demo_task gs) 0 sh in
  ∃ n, nsteps (pool_step (clock_in (λ _, True)) (λ _, False)) n ([demo_task gs], sh)
         ([Done (r_out run)], r_state run)
    ∧ n ≤ 82
    ∧ Forall ended [Done (E := GwE) (S := Shared RateLimit.InMemory.Limiter) (r_out run)].
Proof.
  intros gs sh run.
  assert (Hrun : rtc (pool_step (clock_in (λ _, True)) (λ _, False)) ([demo_task gs], sh)
                   ([Done (r_out run)], r_state run)).
  { by apply exec_steps, still_lawful. }
  apply rtc_nsteps_1 in Hrun as [n Hrun]. exists n. split; [exact Hrun|].
  destruct (requests_drain (λ _, True) gs Cache.list_order [get_request []] n sh
    [Done (r_out run)] (r_state run)) as [Hn Hend]; [by exists 0%Z|exact Hrun|].
  split; [etrans; [exact Hn|]; by vm_compute; lia|].
  apply Hend. intros c Hc. by apply done_stays in Hc.
Defined.

End Ends.
