(* ===== verification/Lifecycle.v ===== *)
(** The process from its start to its end: what main.rs does after the state is built,
    and [run] of health.rs, under src/crates/gateway/src/.

    [Work] is what serves requests: the shared state, the requests in flight and the
    loops of the health checks.  [Control] is the rest: the shutdown token, the task
    that waits for a signal, and where [health::run], the two applications and [main]
    are.  A task runs by the steps of Pool.v.  tokio's documented part: a cancelled
    token stays so, [select!] takes any branch that is ready, and awaiting a task waits
    until it has ended.  axum's is a parameter: [returns_ok shutdown n] says that a
    served application may return [Ok] when its shutdown future is complete, or not, and
    [n] requests are in flight. *)
From S2P Require Import Prelude RustStd Prog Pool Config RateLimit Cache Http Auth Telemetry.
From S2P Require Import Balancer Events State Health Proxy Server Tasks Demo Ends.
Import Config State Proxy Tasks.

Module Lifecycle.

(** [wait_for_signal]: both handlers are installed, then either signal is enough. *)
Inductive Signal : Type := Terminate | Interrupt.

Definition wait_for_signal (install : Signal → Result string unit) (arrived : Signal) : Outcome unit :=
  match install Terminate with
  | Err _ => Panic "SIGTERM handler"
  | Ok _ =>
      match install Interrupt with
      | Err _ => Panic "SIGINT handler"
      | Ok _ => match arrived with Terminate | Interrupt => Ret () end
      end
  end.

Section process.
Context `{WebLib, Auth.JwtLib, Profile} {L : Type} `{!RateLimit.RateLimiter GwE L}.

(** The loop of one health check: at its [select!], in a tick, or ended. *)
Inductive Loop : Type := Select | Tick (p : prog GwE (Shared L) unit) | Broken.

(** [health::run]: waits for the shutdown, then for the loops one after the other. *)
Inductive RunAt : Type := Watching | Joining (k : nat) | RunDone.

(** An application that is served, or whose task has ended with [Ok] or an error. *)
Inductive Served : Type := Listening | Closed (ok : bool).

(** The points at which [main] waits, and its result. *)
Inductive MainAt : Type := AwaitProxy | AwaitAdmin | AwaitHealth | Exited (ok : bool).

Record Work := mkWork {
  shared : Shared L;
  requests : list (prog GwE (Shared L) unit);
  loops : list (Health.HealthTask * Loop);
}.

Record Control := mkControl {
  token : bool;
  waiting : bool;
  run : RunAt;
  admin : Served;
  proxy : Served;
  main : MainAt;
}.

(** [c_no_handler]: the task that waits for the signal panics when its handlers cannot be
    installed; [c_admin]: the handlers of the admin application do not wait. *)
Context (gs : GatewayState) (over_limit : Z → Request → option Response).
Context (Ans : ∀ X, GwE X → X → Prop) (returns_ok : bool → nat → Prop).

(** A request on a connection of the proxy. *)
Definition request_task (it : Cache.hash_order) (req : Request) : prog GwE (Shared L) unit :=
  _ ← Server.proxy_router it over_limit gs req; mret ().

(** New work: a request arrives, a tick is due. *)
Inductive begin_step (c : Control) : Work → Work → Prop :=
| w_accept it req sh rs ls :
    proxy c = Listening → Cache.order_ok it →
    begin_step c (mkWork sh rs ls) (mkWork sh (rs ++ [request_task it req]) ls)
| w_tick j h sh rs ls :
    ls !! j = Some (h, Select) →
    begin_step c (mkWork sh rs ls) (mkWork sh rs (<[j := (h, Tick (Health.task h 1))]> ls)).

(** The rest of the work. *)
Inductive work_step (c : Control) : Work → Work → Prop :=
| w_request i p p' sh sh' rs ls :
    rs !! i = Some p → task_step Ans p sh p' sh' →
    work_step c (mkWork sh rs ls) (mkWork sh' (<[i := p']> rs) ls)
| w_answered i o sh rs ls :
    rs !! i = Some (Done o) → work_step c (mkWork sh rs ls) (mkWork sh (delete i rs) ls)
| w_probe j h p p' sh sh' rs ls :
    ls !! j = Some (h, Tick p) → task_step Ans p sh p' sh' →
    work_step c (mkWork sh rs ls) (mkWork sh' rs (<[j := (h, Tick p')]> ls))
| w_ticked j h o sh rs ls :
    ls !! j = Some (h, Tick (Done o)) →
    work_step c (mkWork sh rs ls)
      (mkWork sh rs (<[j := (h, if returns o then Select else Broken)]> ls))
| w_break j h sh rs ls :
    ls !! j = Some (h, Select) → token c = true →
    work_step c (mkWork sh rs ls) (mkWork sh rs (<[j := (h, Broken)]> ls)).

Inductive control_step (w : Work) : Control → Control → Prop :=
| c_signal t r a x m install arrived :
    wait_for_signal install arrived = Ret () →
    control_step w (mkControl t true r a x m) (mkControl true false r a x m)
| c_no_handler t r a x m install arrived msg :
    wait_for_signal install arrived = Panic msg →
    control_step w (mkControl t true r a x m) (mkControl t false r a x m)
| c_watched s a x m :
    control_step w (mkControl true s Watching a x m)
      (mkControl true s (if is_nil (loops w) then RunDone else Joining 0) a x m)
| c_join t s k h a x m :
    loops w !! k = Some (h, Broken) →
    control_step w (mkControl t s (Joining k) a x m) (mkControl t s (Joining (S k)) a x m)
| c_joined t s a x m :
    control_step w (mkControl t s (Joining (length (loops w))) a x m) (mkControl t s RunDone a x m)
| c_admin t s r x m ok :
    (ok = true → returns_ok t 0) →
    control_step w (mkControl t s r Listening x m) (mkControl t s r (Closed ok) x m)
| c_proxy t s r a m ok :
    (ok = true → returns_ok t (length (requests w))) →
    control_step w (mkControl t s r a Listening m) (mkControl t s r a (Closed ok) m)
| c_main_proxy t s r a ok :
    control_step w (mkControl t s r a (Closed ok) AwaitProxy)
      (mkControl t s r a (Closed ok) (if ok then AwaitAdmin else Exited false))
| c_main_admin t s r ok x :
    control_step w (mkControl t s r (Closed ok) x AwaitAdmin)
      (mkControl t s r (Closed ok) x AwaitHealth)
| c_main_health t s a x :
    control_step w (mkControl t s RunDone a x AwaitHealth) (mkControl t s RunDone a x (Exited true)).

(** The process makes steps until [main] returns; the runtime then drops every task.
    When it is not [open] it begins no new work. *)
Inductive process_step (open : bool) : Work * Control → Work * Control → Prop :=
| p_begin w w' c :
    open = true → (∀ ok, main c ≠ Exited ok) → begin_step c w w' → process_step open (w, c) (w', c)
| p_work w w' c : (∀ ok, main c ≠ Exited ok) → work_step c w w' → process_step open (w, c) (w', c)
| p_control w c c' :
    (∀ ok, main c ≠ Exited ok) → control_step w c c' → process_step open (w, c) (w, c').

(** What [main] has started once the proxy listens, as Main.v gives it: the state, the
    checks, and whether the admin application listens. *)
Definition start (sh : Shared L) (hs : list Health.HealthTask) (admin_ok : bool) : Work * Control :=
  (mkWork sh [] ((λ h, (h, Select)) <$> hs),
   mkControl false true Watching (if admin_ok then Listening else Closed false) Listening AwaitProxy).

(** ** The tasks of the process are a pool *)

Definition unfinished (p : prog GwE (Shared L) unit) : bool :=
  match p with Done _ => false | _ => true end.
Definition in_tick (hl : Health.HealthTask * Loop) : option (prog GwE (Shared L) unit) :=
  match hl.2 with Tick p => Some p | _ => None end.

(** The tasks that run, from the requests and the loops. *)
Definition live (ps : list (prog GwE (Shared L) unit)) : list (prog GwE (Shared L) unit) :=
  filter (λ p, unfinished p = true) ps.
Definition running (w : Work) : list (prog GwE (Shared L) unit) :=
  live (requests w ++ omap in_tick (loops w)).

Lemma live_app ps ps' : live (ps ++ ps') = live ps ++ live ps'.
Proof. apply filter_app. Qed.

Lemma live_insert rs i p p' :
  rs !! i = Some p → live rs ≡ₚ live [p] ++ live (delete i rs)
    ∧ live (<[i := p']> rs) ≡ₚ live [p'] ++ live (delete i rs).
Proof.
  intros Hi. rewrite <- !live_app. split; apply filter_Permutation.
  - by apply delete_Permutation.
  - apply insert_delete_Permutation. by eapply lookup_lt_Some.
Qed.

Lemma ticks_insert ls j hl hl' :
  ls !! j = Some hl →
  live (omap in_tick ls) ≡ₚ live (option_list (in_tick hl)) ++ live (omap in_tick (delete j ls))
  ∧ live (omap in_tick (<[j := hl']> ls))
    ≡ₚ live (option_list (in_tick hl')) ++ live (omap in_tick (delete j ls)).
Proof.
  intros Hj. rewrite <- !live_app. split; apply filter_Permutation.
  - rewrite (delete_Permutation ls j hl) at 1 by done. csimpl. by destruct (in_tick hl).
  - rewrite insert_delete_Permutation by (by eapply lookup_lt_Some). csimpl. by destruct (in_tick hl').
Qed.

(** What the pool does when one of its tasks makes a step. *)
Lemma pool_any p s p' s' ls ps :
  task_step Ans p s p' s' → live [p] ++ ls ⊆+ ps →
  ∃ ps', pool_step Ans (arrives gs) (ps, s) (ps', s') ∧ live [p'] ++ ls ⊆+ ps'.
Proof.
  intros Hstep Hsub. assert (Hp : live [p] = [p]) by by destruct Hstep.
  rewrite Hp in Hsub. apply submseteq_cons_l in Hsub as (k & Hk & Hls).
  assert (Hin : p ∈ ps) by (rewrite Hk; left).
  apply list_elem_of_lookup in Hin as [i Hi]. exists (<[i := p']> ps).
  split; [by eapply pool_task|].
  rewrite insert_delete_Permutation by (by eapply lookup_lt_Some).
  rewrite (delete_Permutation ps i p Hi) in Hk. apply Permutation_cons_inv in Hk. rewrite Hk.
  change (p' :: k) with ([p'] ++ k). apply submseteq_app; [|done].
  unfold live. rewrite filter_cons, filter_nil. case_decide; [done|apply submseteq_nil_l].
Qed.

Lemma request_arrives it req :
  Cache.order_ok it → live [request_task it req] = [] ∨ arrives gs (request_task it req).
Proof.
  intros Hit. unfold request_task, Server.proxy_router. destruct (over_limit _ _); [by left|right].
  by apply a_request.
Qed.

(** A step of the work, new or not. *)
Definition any_step (c : Control) (w w' : Work) : Prop := begin_step c w w' ∨ work_step c w w'.

(** The loops are those of the configuration. *)
Definition configured (w : Work) : Prop := (loops w).*1 = Health.checks gs.

Lemma configured_step c w w' : any_step c w w' → configured w → configured w'.
Proof.
  assert (Hset : ∀ (ls : list (Health.HealthTask * Loop)) j h l l', ls !! j = Some (h, l) →
    (<[j := (h, l')]> ls).*1 = ls.*1).
  { intros ls j h l l' Hj. rewrite list_fmap_insert. apply list_insert_id.
    by rewrite list_lookup_fmap, Hj. }
  unfold configured. destruct 1 as [[]|[]]; simpl; intros <-; by eauto.
Qed.

Lemma work_pool c w w' ps :
  any_step c w w' → configured w → running w ⊆+ ps →
  ∃ ps', rtc (pool_step Ans (arrives gs)) (ps, shared w) (ps', shared w') ∧ running w' ⊆+ ps'.
Proof.
  unfold running. intros Hstep.
  destruct Hstep as [[it req sh rs ls Hx Hit|j h sh rs ls Hj]|[i p p' sh sh' rs ls Hi Ht|i o sh rs ls Hi
    |j h p p' sh sh' rs ls Hj Ht|j h o sh rs ls Hj|j h sh rs ls Hj Htok]]; simpl;
    intros Hconf Hsub; rewrite !live_app in *.
  - destruct (request_arrives it req Hit) as [Hnil|Harr].
    + exists ps. split; [done|]. by rewrite Hnil, app_nil_r.
    + exists (ps ++ [request_task it req]). split; [by apply rtc_once, pool_arrival|].
      rewrite <- app_assoc, (Permutation_app_comm (live [_])), app_assoc.
      apply submseteq_app; [done|]. unfold live. rewrite filter_cons, filter_nil.
      case_decide; [done|apply submseteq_nil_l].
  - destruct (ticks_insert ls j _ (h, Tick (Health.task h 1)) Hj) as [Ha Hb].
    exists (ps ++ [Health.task h 1]). split.
    + apply rtc_once, pool_arrival, a_check. rewrite <- Hconf. apply list_elem_of_fmap.
      exists (h, Select). split; [done|]. by eapply list_elem_of_lookup_2.
    + rewrite Hb. rewrite Ha in Hsub. rewrite (Permutation_app_comm ps), Permutation_app_swap_app.
      apply submseteq_app; [|done]. unfold live. simpl. rewrite filter_cons, filter_nil.
      case_decide; [done|apply submseteq_nil_l].
  - destruct (live_insert rs i p p' Hi) as [Ha Hb]. rewrite Ha, <- app_assoc in Hsub.
    destruct (pool_any _ _ _ _ _ _ Ht Hsub) as (ps' & Hps & Hsub').
    exists ps'. split; [by apply rtc_once|]. by rewrite Hb, <- app_assoc.
  - destruct (live_insert rs i (Done o) (Done o) Hi) as [Ha _]. exists ps. split; [done|].
    by rewrite Ha in Hsub.
  - destruct (ticks_insert ls j _ (h, Tick p') Hj) as [Ha Hb].
    rewrite Ha, Permutation_app_swap_app in Hsub.
    destruct (pool_any _ _ _ _ _ _ Ht Hsub) as (ps' & Hps & Hsub').
    exists ps'. split; [by apply rtc_once|]. by rewrite Hb, Permutation_app_swap_app.
  - destruct (ticks_insert ls j _ (h, if returns o then Select else Broken) Hj) as [Ha Hb].
    exists ps. split; [done|]. rewrite Hb. rewrite Ha in Hsub. by destruct (returns o).
  - destruct (ticks_insert ls j _ (h, Broken) Hj) as [Ha Hb]. exists ps. split; [done|].
    rewrite Hb. by rewrite Ha in Hsub.
Qed.

Lemma run_pool open wc wc' ps :
  rtc (process_step open) wc wc' → configured wc.1 → running wc.1 ⊆+ ps →
  ∃ ps', rtc (pool_step Ans (arrives gs)) (ps, shared wc.1) (ps', shared wc'.1)
    ∧ running wc'.1 ⊆+ ps'.
Proof.
  intros Hrun. revert ps. induction Hrun as [wc|wc1 wc2 wc3 Hstep _ IH]; intros ps Hconf Hsub.
  { by exists ps. }
  assert (Hwork : any_step wc1.2 wc1.1 wc2.1 ∨ wc2.1 = wc1.1).
  { destruct Hstep; [left; by left|left; by right|by right]. }
  destruct Hwork as [Hw|Heq]; [|rewrite Heq in IH; by apply IH].
  destruct (work_pool _ _ _ _ Hw Hconf Hsub) as (ps1 & Hps1 & Hsub1).
  destruct (IH ps1) as (ps' & Hps & Hsub2); [by eapply configured_step|done|].
  exists ps'. split; [by etrans|done].
Qed.

Lemma idle_at_start (hs : list Health.HealthTask) : omap in_tick ((λ h, (h, Select)) <$> hs) = [].
Proof. by induction hs. Qed.

(** ** The way to the end *)

Definition broken (hl : Health.HealthTask * Loop) : Prop := hl.2 = Broken.
Definition is_broken (l : Loop) : bool := match l with Broken => true | _ => false end.

(** What holds of the control, given the work, at every point. *)
Definition in_order (w : Work) (c : Control) : Prop :=
  (token c = true → waiting c = false)
  ∧ (proxy c = Closed true → token c = true ∧ requests w = [])
  ∧ match run c with
    | Watching => True
    | Joining k => token c = true ∧ k ≤ length (loops w) ∧ Forall broken (take k (loops w))
    | RunDone => token c = true ∧ Forall broken (loops w)
    end
  ∧ match main c with
    | AwaitProxy => True
    | AwaitAdmin => proxy c = Closed true
    | AwaitHealth => proxy c = Closed true ∧ admin c ≠ Listening
    | Exited true => proxy c = Closed true ∧ admin c ≠ Listening ∧ run c = RunDone
    | Exited false => proxy c = Closed false
    end.

(** Loops that ended stay so. *)
Lemma broken_step c w w' k :
  any_step c w w' → Forall broken (take k (loops w)) → Forall broken (take k (loops w'))
  ∧ length (loops w') = length (loops w).
Proof.
  assert (Hset : ∀ (ls : list (Health.HealthTask * Loop)) j hl l', ls !! j = Some hl → ¬ broken hl →
    Forall broken (take k ls) → Forall broken (take k (<[j := l']> ls))
    ∧ length (<[j := l']> ls) = length ls).
  { intros ls j hl l' Hj Hl Hall. rewrite length_insert. split; [|done].
    rewrite take_insert_ge; [done|]. destruct (decide (k ≤ j)) as [|Hk]; [done|].
    destruct Hl. apply (Forall_lookup_1 _ _ j _ Hall). by rewrite lookup_take_lt by lia. }
  destruct 1 as [[]|[]]; simpl; intros Hall; try done; (eapply Hset; [done|by intros [=]|done]).
Qed.

Lemma requests_step c w w' :
  any_step c w w' → proxy c ≠ Listening → requests w = [] → requests w' = [].
Proof. by destruct 1 as [[]|[]]; simpl; intros Hc ->. Qed.

Lemma in_order_work c w w' : any_step c w w' → in_order w c → in_order w' c.
Proof.
  intros Hstep (Htok & Hproxy & Hrun & Hmain). split_and!; [done| | |done].
  - intros Hc. destruct (Hproxy Hc) as [? Hr]. split; [done|].
    eapply requests_step; [exact Hstep|by rewrite Hc|done].
  - destruct (run c) as [|k|]; [done| |].
    + destruct Hrun as (? & Hk & Hall). destruct (broken_step _ _ _ k Hstep Hall) as [? ->]. done.
    + destruct Hrun as (? & Hall). split; [done|].
      rewrite <- (firstn_all (loops w)) in Hall.
      destruct (broken_step _ _ _ _ Hstep Hall) as [Hb Hlen]. by rewrite <- Hlen, firstn_all in Hb.
Qed.

Context (graceful : ∀ sd n, returns_ok sd n → sd = true ∧ n = 0).

Lemma in_order_control w c c' : control_step w c c' → in_order w c → in_order w c'.
Proof.
  unfold in_order.
  destruct 1 as [t r a x m ? ? _|t r a x m ? ? ? _|s a x m|t s k h a x m Hk|t s a x m|t s r x m ok Hok
    |t s r a m ok Hok|t s r a ok|t s r ok x|t s a x]; simpl; intros (Htok & Hproxy & Hrun & Hmain).
  - split_and!; [done| | |done]; [intros Hx; by destruct (Hproxy Hx)|].
    destruct r; [done|by destruct Hrun as (_ & ? & ?)|by destruct Hrun].
  - by split_and!.
  - split_and!; [done|done| |by destruct m as [| | |[]]; intuition].
    destruct (loops w) as [|hl ls]; simpl; [done|]. split_and!; [done|lia|constructor].
  - destruct Hrun as (-> & Hlen & Hall). split_and!; [done|done|done| | |by destruct m as [| | |[]]; intuition].
    + apply lookup_lt_Some in Hk. lia.
    + rewrite (take_S_r _ _ _ Hk). apply Forall_app. split; [done|]. by apply Forall_singleton.
  - destruct Hrun as (-> & _ & Hall). rewrite firstn_all in Hall.
    split_and!; [done|done|done|done|by destruct m as [| | |[]]; intuition].
  - split_and!; [done|done|done|]. by destruct m as [| | |[]]; intuition.
  - split_and!; [done| |done|].
    + intros [= ->]. destruct (graceful _ _ (Hok eq_refl)) as [-> Hlen].
      split; [done|]. by apply nil_length_inv.
    + destruct m as [| | |[]]; [done|..]; intuition congruence.
  - destruct ok; by split_and!.
  - by split_and!.
  - destruct Hmain as [-> Ha], Hrun as [Ht Hall]. by split_and!.
Qed.

Lemma in_order_step open w c w' c' :
  process_step open (w, c) (w', c') → in_order w c → in_order w' c'.
Proof.
  intros Hstep. inversion Hstep as [? ? ? _ _ Hw|? ? ? _ Hw|? ? ? _ Hc]; subst.
  - apply in_order_work. by left.
  - apply in_order_work. by right.
  - by apply in_order_control.
Qed.

Lemma in_order_run open wc wc' :
  rtc (process_step open) wc wc' → in_order wc.1 wc.2 → in_order wc'.1 wc'.2.
Proof.
  induction 1 as [wc|[w c] [w1 c1] wc' Hstep _ IH]; [done|]. intros Hin. by eapply IH, in_order_step.
Qed.

Lemma in_order_start sh hs ok : in_order (start sh hs ok).1 (start sh hs ok).2.
Proof. by split_and!. Qed.

(** ** How long the shutdown takes *)

(** What the requests and the loops have left, when no new work begins. *)
Definition loop_cost (n : nat) (hl : Health.HealthTask * Loop) : Prop :=
  match hl.2 with
  | Select => n = 1
  | Tick p => ∃ b, takes_le b p ∧ n = b + 2
  | Broken => n = 0
  end.
Definition request_cost (n : nat) (p : prog GwE (Shared L) unit) : Prop :=
  ∃ b, takes_le b p ∧ n = S b.
Definition costs (w : Work) (N : nat) : Prop :=
  ∃ ns ms, Forall2 request_cost ns (requests w) ∧ Forall2 loop_cost ms (loops w)
    ∧ N = sum_list ns + sum_list ms.

Definition served_rank (x : Served) : nat := match x with Listening => 1 | Closed _ => 0 end.
Definition rank (w : Work) (c : Control) : nat :=
  (if waiting c then 1 else 0)
  + match run c with
    | Watching => length (loops w) + 2
    | Joining k => length (loops w) - k + 1
    | RunDone => 0
    end
  + served_rank (admin c) + served_rank (proxy c)
  + match main c with AwaitProxy => 3 | AwaitAdmin => 2 | AwaitHealth => 1 | Exited _ => 0 end.

Lemma rank_control w c c' : control_step w c c' → rank w c' < rank w c.
Proof.
  unfold rank.
  destruct 1 as [t r a x m ? ? _|t r a x m ? ? ? _|s a x m|t s k h a x m Hk| | | |t s r a ok|t s r ok x|];
    simpl; try lia.
  - destruct (loops w); simpl; lia.
  - apply lookup_lt_Some in Hk. lia.
  - destruct ok; lia.
Qed.

(** One loop, or one request, that has less left than before. *)
Lemma loop_less ls ms j hl hl' n' :
  Forall2 loop_cost ms ls → ls !! j = Some hl →
  (∀ n, loop_cost n hl → n' n < n ∧ loop_cost (n' n) hl') →
  ∃ ms', Forall2 loop_cost ms' (<[j := hl']> ls) ∧ sum_list ms' < sum_list ms.
Proof.
  intros Hms Hj Hless. destruct (Forall2_lookup_r _ _ _ _ _ Hms Hj) as (n & Hn & Hc).
  destruct (Hless n Hc) as [Hlt Hc']. exists (<[j := n' n]> ms).
  split; [by apply Forall2_insert|by eapply sum_list_insert_lt].
Qed.

Lemma work_cost c w w' N : work_step c w w' → costs w N → ∃ N', N' < N ∧ costs w' N'.
Proof.
  destruct 1 as [i p p' sh sh' rs ls Hi Ht|i o sh rs ls Hi|j h p p' sh sh' rs ls Hj Ht|j h o sh rs ls Hj
    |j h sh rs ls Hj Htok]; intros (ns & ms & Hns & Hms & ->); simpl in *.
  - destruct (Forall2_lookup_r _ _ _ _ _ Hns Hi) as (n & Hn & b & Hb & ->).
    destruct (task_step_takes _ _ _ _ _ _ Ht Hb) as (b' & -> & Hb').
    pose proof (sum_list_insert_lt _ _ _ (S b') Hn) as Hlt.
    eexists. split; [|exists (<[i := S b']> ns), ms; split_and!; [|done|reflexivity]]; [lia|].
    apply Forall2_insert; [done|by exists b'].
  - destruct (Forall2_lookup_r _ _ _ _ _ Hns Hi) as (n & Hn & b & _ & ->).
    pose proof (sum_list_delete _ _ _ Hn) as Hdel.
    eexists. split; [|exists (delete i ns), ms; split_and!; [|done|reflexivity]]; [lia|].
    by apply Forall2_delete.
  - destruct (loop_less ls ms j (h, Tick p) (h, Tick p') pred Hms Hj) as (ms' & Hms' & Hlt).
    { intros n (b & Hb & ->). destruct (task_step_takes _ _ _ _ _ _ Ht Hb) as (b' & -> & Hb').
      split; [lia|]. by exists b'. }
    eexists. split; [|exists ns, ms'; split_and!; [done|done|reflexivity]]. lia.
  - destruct (loop_less ls ms j (h, Tick (Done o)) (h, if returns o then Select else Broken)
      (λ _, if returns o then 1 else 0) Hms Hj) as (ms' & Hms' & Hlt).
    { intros n (b & _ & ->). destruct (returns o); (split; [lia|done]). }
    eexists. split; [|exists ns, ms'; split_and!; [done|done|reflexivity]]. lia.
  - destruct (loop_less ls ms j (h, Select) (h, Broken) (λ _, 0) Hms Hj) as (ms' & Hms' & Hlt).
    { intros n ->. split; [lia|done]. }
    eexists. split; [|exists ns, ms'; split_and!; [done|done|reflexivity]]. lia.
Qed.

Lemma rank_work c w w' : any_step c w w' → rank w' c = rank w c.
Proof.
  intros Hstep. destruct (broken_step _ _ _ 0 Hstep) as [_ Hlen]; [constructor|].
  unfold rank. by rewrite Hlen.
Qed.

(** Every step takes something away. *)
Lemma closing_steps w c N n wc :
  costs w N → nsteps (process_step false) n (w, c) wc → n ≤ N + rank w c.
Proof.
  revert w c N. induction n as [|n IH]; intros w c N HN Hsteps; [lia|].
  inversion Hsteps as [|? ? [w1 c1] ? Hstep Hrest]; subst.
  inversion Hstep as [? ? ? Hopen|? ? ? _ Hw|? ? ? _ Hc]; subst; [done|..].
  - destruct (work_cost _ _ _ _ Hw HN) as (N' & HN' & Hcost).
    specialize (IH _ _ _ Hcost Hrest). rewrite (rank_work c1 w w1) in IH by by right. lia.
  - specialize (IH _ _ _ HN Hrest). pose proof (rank_control _ _ _ Hc). lia.
Qed.

(** ** It can always go on *)
Section going_on.
Context (Hans : ∀ X (e : GwE X), ∃ x, Ans X e x) (drained : returns_ok true 0).

Lemma loops_go_on c sh rs ls :
  token c = true → Forall broken ls ∨ ∃ w', work_step c (mkWork sh rs ls) w'.
Proof.
  intros Htok. destruct (decide (Exists (λ hl, is_broken hl.2 = false) ls)) as [Hex|Hno].
  - right. apply Exists_exists in Hex as ([h l] & Hin & Hl).
    apply list_elem_of_lookup in Hin as [j Hj]. destruct l as [|p|]; [|..|done].
    + eexists. by eapply w_break.
    + destruct (task_can_step Ans p sh Hans) as [[o ->]|(p' & sh' & Ht)];
        eexists; [by eapply w_ticked|by eapply w_probe].
  - left. apply not_Exists_Forall in Hno; [|apply _]. eapply Forall_impl; [exact Hno|].
    intros [h []] Hb; simpl in *; [by destruct Hb..|done].
Qed.

Lemma requests_go_on c sh rs ls : rs = [] ∨ ∃ w', work_step c (mkWork sh rs ls) w'.
Proof.
  destruct rs as [|p rs]; [by left|right].
  destruct (task_can_step Ans p sh Hans) as [[o ->]|(p' & sh' & Ht)];
    eexists; [by eapply (w_answered _ 0)|by eapply (w_request _ 0)].
Qed.

(** The control, once the work is over. *)
Lemma control_goes_on w c :
  in_order w c → token c = true → requests w = [] → Forall broken (loops w) →
  (∃ ok, main c = Exited ok) ∨ ∃ c', control_step w c c'.
Proof.
  destruct c as [t s r a x m]; simpl. intros (_ & _ & Hrun & _) -> Hreq Hall; simpl in *.
  destruct r as [|k|]; [right; eexists; apply c_watched| |].
  { right. destruct Hrun as (_ & Hk & _). destruct (decide (k = length (loops w))) as [->|Hne].
    - eexists. apply c_joined.
    - destruct (lookup_lt_is_Some_2 (loops w) k) as [[h l] Hl]; [lia|].
      pose proof (Forall_lookup_1 _ _ _ _ Hall Hl) as Hb. unfold broken in Hb; simpl in Hb. subst l.
      eexists. by eapply c_join. }
  destruct a as [|oka]; [right; eexists; by apply (c_admin w true _ _ _ _ true)|].
  destruct x as [|okx].
  { right. eexists. apply (c_proxy w true _ _ _ _ true). by rewrite Hreq. }
  destruct m as [| | |ok]; [right..|by left; exists ok]; eexists.
  - apply c_main_proxy.
  - apply c_main_admin.
  - apply c_main_health.
Qed.

Lemma closing_goes_on w c :
  in_order w c → token c = true → (∃ ok, main c = Exited ok) ∨ ∃ wc, process_step false (w, c) wc.
Proof.
  intros Hin Htok. destruct w as [sh rs ls].
  assert (Hc : (∃ ok, main c = Exited ok) ∨ ∀ ok, main c ≠ Exited ok).
  { destruct (main c); [by right..|left; eauto]. }
  destruct Hc as [|Hc]; [by left|].
  destruct (loops_go_on c sh rs ls Htok) as [Hall|[w' Hw]]; [|right; eexists; by apply p_work].
  destruct (requests_go_on c sh rs ls) as [->|[w' Hw]]; [|right; eexists; by apply p_work].
  destruct (control_goes_on _ c Hin Htok) as [|[c' Hstep]]; [done|done|by left|].
  right. eexists. by apply p_control.
Qed.
End going_on.

Lemma token_stays open wc wc' :
  rtc (process_step open) wc wc' → token wc.2 = true → token wc'.2 = true.
Proof.
  induction 1 as [|wc1 wc2 wc3 Hstep _ IH]; [done|]. intros Htok. apply IH.
  destruct Hstep as [| |w c c' _ Hc]; [done..|by destruct Hc].
Qed.

(** In every state that the process can be in, what is left is bounded. *)
Section bounded.
Context `{!Ends.BoundedLimiter L}.

Lemma request_takes it req : ∃ b, takes_le b (request_task it req).
Proof.
  exists (Ends.request_budget gs req). unfold request_task, Server.proxy_router.
  destruct (over_limit _ _); [by destruct (Ends.request_budget gs req)|].
  apply (takes_bind (Ends.request_budget gs req) 0); [lia|apply Ends.takes_handle|done].
Qed.

Lemma tick_takes h : takes_le 3 (Health.task h 1 : prog GwE (Shared L) unit).
Proof.
  apply (takes_bind 3 0); [lia| |done]. apply (takes_bind 1 2); [lia|by intros []|intros r].
  apply (takes_bind 1 1); [lia|apply takes_zoom, Ends.takes_with_up|intros _].
  apply takes_zoom, Ends.takes_act.
Qed.

Lemma begin_cost c w w' N : begin_step c w w' → costs w N → ∃ N', costs w' N'.
Proof.
  destruct 1 as [it req sh rs ls Hx Hit|j h sh rs ls Hj]; intros (ns & ms & Hns & Hms & ->); simpl in *.
  - destruct (request_takes it req) as [b Hb]. eexists. exists (ns ++ [S b]), ms.
    split_and!; [|done|reflexivity]. apply Forall2_app; [done|]. apply Forall2_cons. split; [by exists b|done].
  - eexists. exists ns, (<[j := 5]> ms). split_and!; [done| |reflexivity].
    apply Forall2_insert; [done|]. exists 3. split; [apply tick_takes|done].
Qed.

Lemma run_cost open wc wc' :
  rtc (process_step open) wc wc' → (∃ N, costs wc.1 N) → ∃ N, costs wc'.1 N.
Proof.
  induction 1 as [|wc1 wc2 wc3 Hstep _ IH]; [done|]. intros [N HN]. apply IH.
  destruct Hstep as [w w' c _ _ Hw|w w' c _ Hw|w c c' _ _]; simpl in *.
  - by eapply begin_cost.
  - destruct (work_cost _ _ _ _ Hw HN) as (N' & _ & ?). by exists N'.
  - by exists N.
Qed.

Lemma start_cost sh hs ok : ∃ N, costs (start sh hs ok).1 N.
Proof.
  eexists. exists [], ((λ _, 1) <$> hs). split_and!; [constructor| |reflexivity].
  apply Forall2_fmap, Forall_Forall2_diag, Forall_forall. done.
Qed.
End bounded.
End process.
Arguments mkWork {H L} shared requests loops.

(** ** Properties *)

(** The process is one of the systems that the theorems on running gateways are
    about: whatever its control does, the tasks that run in it, requests and ticks of
    health checks, are tasks of a pool that started empty on the same state and is now
    in the same state. *)
Lemma process_refines_pool `{WebLib, Auth.JwtLib, Profile} {L} `{!RateLimit.RateLimiter GwE L}
    gs over_limit Ans returns_ok (sh : Shared L) admin_ok w c :
  rtc (process_step gs over_limit Ans returns_ok true) (start sh (Health.checks gs) admin_ok) (w, c) →
  ∃ ps, rtc (pool_step Ans (arrives gs)) ([], sh) (ps, shared w) ∧ running w ⊆+ ps.
Proof.
  intros Hrun. apply (run_pool _ _ _ _ _ _ _ _ Hrun).
  - unfold configured; simpl. rewrite <- list_fmap_compose. by rewrite list_fmap_id.
  - unfold running; simpl. by rewrite idle_at_start.
Qed.

(** C28: the shutdown is graceful: if [main] has returned [Ok], then a signal came, no
    request was in flight any more when the proxy stopped, and none came after; both
    applications have ended and so has every loop of a health check.  If it has
    returned an error, serving the proxy has failed.  Until the signal it does not
    return [Ok]. *)
Theorem graceful_shutdown `{WebLib, Auth.JwtLib, Profile} {L} `{!RateLimit.RateLimiter GwE L}
    gs over_limit Ans returns_ok (sh : Shared L) hs admin_ok w c :
  (∀ shutdown n, returns_ok shutdown n → shutdown = true ∧ n = 0) →
  rtc (process_step gs over_limit Ans returns_ok true) (start sh hs admin_ok) (w, c) →
  match main c with
  | Exited true => token c = true ∧ waiting c = false ∧ requests w = []
      ∧ proxy c = Closed true ∧ admin c ≠ Listening ∧ run c = RunDone ∧ Forall broken (loops w)
  | Exited false => proxy c = Closed false
  | _ => True
  end.
Proof.
  intros Hgr Hrun. destruct (in_order_run _ _ _ _ Hgr _ _ _ Hrun (in_order_start sh hs admin_ok))
    as (Htok & Hproxy & Hr & Hmain). simpl in *.
  destruct (main c) as [| | |[]]; [done..| |done]. destruct Hmain as (Hp & Ha & Hd).
  destruct (Hproxy Hp) as [Ht Hreq]. rewrite Hd in Hr. destruct Hr as [_ Hall].
  split_and!; auto.
Qed.

(** C30: after the signal the process ends, from any state it can be in: there is a bound
    on the steps it still makes when no new request or tick begins, whatever the order
    of the steps and the answers, and until [main] has returned there is always a next
    step: requests in flight end, the loops of the health checks are left and joined,
    the applications close.  No wait of [main] or of [health::run] is a deadlock. *)
Theorem shutdown_completes `{WebLib, Auth.JwtLib, Profile} {L} `{!RateLimit.RateLimiter GwE L}
    `{!Ends.BoundedLimiter L} gs over_limit Ans returns_ok (sh : Shared L) hs admin_ok w c :
  (∀ X (e : GwE X), ∃ x, Ans X e x) →
  (∀ shutdown n, returns_ok shutdown n → shutdown = true ∧ n = 0) → returns_ok true 0 →
  rtc (process_step gs over_limit Ans returns_ok true) (start sh hs admin_ok) (w, c) →
  token c = true →
  ∃ N, ∀ n w' c', nsteps (process_step gs over_limit Ans returns_ok false) n (w, c) (w', c') →
    n ≤ N
    ∧ ((∃ ok, main c' = Exited ok)
       ∨ ∃ wc, process_step gs over_limit Ans returns_ok false (w', c') wc).
Proof.
  intros Hans Hgr Hdr Hrun Htok.
  pose proof (in_order_run _ _ _ _ Hgr _ _ _ Hrun (in_order_start sh hs admin_ok)) as Hin.
  destruct (run_cost _ _ _ _ _ _ _ Hrun (start_cost sh hs admin_ok)) as [N HN].
  exists (N + rank w c). intros n w' c' Hsteps. split; [by eapply closing_steps|].
  apply rtc_nsteps_2 in Hsteps. apply closing_goes_on; [done|done| |].
  - exact (in_order_run _ _ _ _ Hgr _ _ _ Hsteps Hin).
  - exact (token_stays _ _ _ _ _ _ _ Hsteps Htok).
Qed.

Import Demo.
Import (hints) Ends.

(** An application that returns as soon as it is drained. *)
Definition when_drained (shutdown : bool) (n : nat) : Prop := shutdown = true ∧ n = 0.

(** A gateway with one upstream, which is checked. *)
Definition demo_state : Shared RateLimit.InMemory.Limiter :=
  mkShared {[ "r" := (from_config Health.demo_route).2 ]} RateLimit.InMemory.new.
Definition demo_request : prog GwE (Shared RateLimit.InMemory.Limiter) unit :=
  request_task Health.demo_gateway (λ _ _, None) Cache.list_order (get_request []).
Definition demo_tick : Loop (L := RateLimit.InMemory.Limiter) := Tick (Health.task Health.demo_task 1).
Definition at_work : Control := mkControl false true Watching Listening Listening AwaitProxy.

Abbreviation demo_step := (process_step (L := RateLimit.InMemory.Limiter) Health.demo_gateway
  (λ _ _, None) (clock_in (λ _, True)) when_drained true).

(** A request has arrived and a check has started. *)
Lemma demo_steps :
  rtc demo_step (start demo_state (Health.checks Health.demo_gateway) true)
    (mkWork demo_state [demo_request] [(Health.demo_task, demo_tick)], at_work).
Proof.
  assert (Hchecks : Health.checks Health.demo_gateway = [Health.demo_task]) by by vm_compute.
  rewrite Hchecks. eapply rtc_l; [apply p_begin; [done|done|]|apply rtc_once, p_begin; [done|done|]].
  - apply w_accept with (it := Cache.list_order) (req := get_request []); [done|].
    apply Cache.list_order_ok.
  - by apply (w_tick _ _ _ 0 Health.demo_task demo_state [demo_request] [(Health.demo_task, Select)]).
Qed.

Lemma process_refines_pool_witness :
  ∃ ps, rtc (pool_step (clock_in (λ _, True)) (arrives Health.demo_gateway)) ([], demo_state) (ps, demo_state)
    ∧ 2 ≤ length ps.
Proof.
  destruct (process_refines_pool Health.demo_gateway (λ _ _, None) (clock_in (λ _, True)) when_drained
    demo_state true _ _ demo_steps) as (ps & Hps & Hsub).
  exists ps. split; [exact Hps|]. exact (submseteq_length _ _ Hsub).
Defined.

(** The signal comes in that state: the process can make a step, and only so many. *)
Lemma shutdown_completes_witness :
  let w := mkWork demo_state [demo_request] [(Health.demo_task, demo_tick)] in
  let c := mkControl true false Watching Listening Listening AwaitProxy in
  let closing := process_step (L := RateLimit.InMemory.Limiter) Health.demo_gateway
    (λ _ _, None) (clock_in (λ _, True)) when_drained false in
  (∃ N, ∀ n wc, nsteps closing n (w, c) wc → n ≤ N) ∧ ∃ wc, closing (w, c) wc.
Proof.
  intros w c closing.
  destruct (shutdown_completes Health.demo_gateway (λ _ _, None) (clock_in (λ _, True)) when_drained
    demo_state (Health.checks Health.demo_gateway) true w c) as (N & HN); [|done|done| |done|].
  - apply Ends.some_answer. by exists 0%Z.
  - etrans; [apply demo_steps|]. apply rtc_once, p_control; [done|].
    by apply c_signal with (λ _, Ok ()) Terminate.
  - split; [exists N; intros n [w' c'] Hn; by apply (HN n w' c')|].
    destruct (HN 0 w c) as [_ [[ok Hok]|Hstep]]; [constructor|discriminate Hok|exact Hstep].
Defined.

(** From the start over the signal to the end. *)
Lemma graceful_shutdown_witness :
  let w := mkWork demo_state [] [(Health.demo_task, Broken)] in
  let c := mkControl true false RunDone (Closed true) (Closed true) (Exited true) in
  rtc demo_step (start demo_state (Health.checks Health.demo_gateway) true) (w, c)
  ∧ requests w = [] ∧ Forall broken (loops w).
Proof.
  intros w c.
  assert (Hrun : rtc demo_step (start demo_state (Health.checks Health.demo_gateway) true) (w, c)).
  { assert (Hchecks : Health.checks Health.demo_gateway = [Health.demo_task]) by by vm_compute.
    rewrite Hchecks. unfold start. simpl.
    eapply rtc_l; [by apply p_control; [|by apply c_signal with (λ _, Ok ()) Interrupt]|].
    eapply rtc_l; [by apply p_work; [|by apply (w_break _ _ 0 Health.demo_task)]|].
    eapply rtc_l; [by apply p_control; [|apply c_watched]|]. simpl.
    eapply rtc_l; [by apply p_control; [|eapply (c_join _ _ _ _ 0)]|].
    eapply rtc_l; [by apply p_control; [|apply c_joined]|].
    eapply rtc_l; [by apply p_control; [|apply (c_admin _ _ _ _ _ _ _ true)]|].
    eapply rtc_l; [by apply p_control; [|apply (c_proxy _ _ _ _ _ _ _ true)]|].
    eapply rtc_l; [by apply p_control; [|apply (c_main_proxy _ _ _ _ _ _ true)]|].
    eapply rtc_l; [by apply p_control; [|apply c_main_admin]|].
    apply rtc_once. by apply p_control; [|apply c_main_health]. }
  pose proof (graceful_shutdown Health.demo_gateway (λ _ _, None) (clock_in (λ _, True)) when_drained
    demo_state (Health.checks Health.demo_gateway) true w c (λ _ _ Hd, Hd) Hrun) as Hend.
  split; [exact Hrun|]. split; apply Hend.
Defined.

End Lifecycle.
