(* ===== verification/Contents.v ===== *)
(** What the caches hold, in any interleaving of requests: only complete 200
    responses that their upstream allows to be stored, under the key of a request
    that the route matched and authorised.  The definitions are those of Cache.v,
    Proxy.v and Walk.v. *)
From S2P Require Import Prelude RustStd Prog Pool Config Router Breaker RateLimit Cache.
From S2P Require Import Http Auth Transform Balancer Telemetry Events State Health Proxy Walk Tasks.
From S2P Require Import Demo.
Import Config State Proxy Tasks.

Module Contents.

Section contents.
Context `{WebLib, Auth.JwtLib, Profile} {L : Type} `{!RateLimit.RateLimiter GwE L}.
Context (gs : GatewayState) (Ans : ∀ X, GwE X → X → Prop).

Definition sound (name : string) (c : Cache.ResponseCache) : Prop :=
  ∀ k e, Cache.stored c !! k = Some e → storable gs name k (Cache.status e) (Cache.headers e).

Definition contents_ok (sh : Shared L) : Prop :=
  ∀ name c, get_cache name sh = Some c → sound name c.

(** A step that keeps the contents in order. *)
Definition keeps_contents (sh sh' : Shared L) : Prop := contents_ok sh → contents_ok sh'.

Abbreviation ok_acts := (acts_by keeps_contents Ans).

Lemma contents_same sh sh' :
  (∀ name, get_cache name sh' = get_cache name sh) → keeps_contents sh sh'.
Proof. intros Heq Hok name c. rewrite Heq. apply Hok. Qed.

Lemma set_bal_cache n s (sh : Shared L) name : get_cache name (set_bal n s sh) = get_cache name sh.
Proof.
  unfold get_cache, set_bal, alter_route; simpl. destruct (decide (name = n)) as [->|Hn].
  - rewrite lookup_alter_eq. by destruct (sh_routes sh !! n).
  - by rewrite lookup_alter_ne.
Qed.

Lemma tidy_on_bal {A} n (p : prog GwE Balancer.BalState A) : ok_acts (on_bal n p).
Proof.
  eapply (acts_zoom (λ _ _, True)); [intros sh Hsh; exact Hsh| |apply acts_any].
  intros sh s s2 _ _. apply contents_same. intros name. apply set_bal_cache.
Qed.

Lemma tidy_on_limiter {A} (p : prog GwE L A) : ok_acts (on_limiter p).
Proof.
  eapply (acts_zoom (λ _ _, True)); [intros sh Hsh; exact Hsh| |apply acts_any].
  intros sh l l2 _ _. by apply contents_same.
Qed.

Lemma tidy_on_cache {A} n (p : prog GwE Cache.ResponseCache A) :
  acts_by (λ c c', sound n c → sound n c') Ans p → ok_acts (on_cache n p).
Proof.
  apply acts_zoom; [intros sh Hsh; exact Hsh|]. intros sh c c' Hc Hcc Hok name c2.
  unfold get_cache, set_cache, alter_route in *; simpl. destruct (decide (name = n)) as [->|Hn].
  - rewrite lookup_alter_eq. destruct (sh_routes sh !! n) as [rs|] eqn:Hrs; [|done].
    simpl. intros [= <-]. apply Hcc, Hok. unfold get_cache. by rewrite Hrs.
  - rewrite lookup_alter_ne by done. apply Hok.
Qed.

(** A section on the entries. *)
Lemma locked_sound {A} n (f : Cache.entries → Outcome A * Cache.entries) c :
  (∀ m k e, (f m).2 !! k = Some e →
     m !! k = Some e ∨ storable gs n k (Cache.status e) (Cache.headers e)) →
  sound n c → sound n (Cache.locked f c).2.
Proof.
  intros Hf Hc. unfold sound, Cache.stored, Cache.locked, with_lock in *.
  destruct (mu_poisoned (Cache.map c)); [done|]. specialize (Hf (mu_val (Cache.map c))).
  destruct (f (mu_val (Cache.map c))) as [r m]; simpl in *. intros k e Hk.
  destruct (Hf k e Hk); [by apply Hc|done].
Qed.

Lemma get_sound n k now c : sound n c → sound n (Cache.get_at k now c).2.
Proof.
  apply locked_sound. intros m k' e. left. unfold Cache.get_section in *.
  destruct (m !! k) as [e0|] eqn:Hk; [|done]. case_match; [done|].
  simpl in *. by eapply lookup_delete_Some.
Qed.

Lemma evict_subset it cap now k m k' e :
  Cache.evict it cap now k m !! k' = Some e → m !! k' = Some e.
Proof.
  unfold Cache.evict. case_match; [|done]. case_match; [|done].
  by intros [_ ?]%lookup_delete_Some.
Qed.

Lemma put_sound n it now now' k st hs b c :
  storable gs n k st hs → sound n c → sound n (Cache.put_at it now now' k st hs b c).2.
Proof.
  intros Hst. apply locked_sound. intros m k' e. unfold Cache.put_section.
  destruct (instant_add now' (Cache.ttl c)) as [exp|msg|]; simpl.
  - rewrite lookup_insert_Some. intros [[<- <-]|[_ He]]; [by right|].
    left. by eapply evict_subset.
  - intros He. left. by eapply evict_subset.
  - intros He. left. by eapply evict_subset.
Qed.

#[local] Instance contents_walk it :
  Walk gs it (λ A (p : prog GwE (Shared L) A), ok_acts p) (λ A p, ok_acts p).
Proof.
  split; try done; try (intros; apply tidy_on_bal).
  - intros A B p k. apply acts_bind.
  - intros d ls op _ _. unfold metric. by case_match.
  - intros name k _. apply tidy_on_cache. intros now _. split; [|done]. intros c. apply get_sound.
  - intros name k st hs b _ Hst. apply tidy_on_cache. intros now _ now' _. split; [|done].
    intros c. by apply put_sound.
  - intros A B p k. apply acts_bind.
  - intros A name rt ex none body Hrt Hnone Hbody. eapply acts_bind_yields.
    + apply tidy_on_bal.
    + apply yields_zoom, (Balancer.yields_pick (rt_balancer rt) ex).
    + intros [[i up]|] Hi; [|exact Hnone]. apply acts_finally.
      * apply Hbody. exists rt. split; [done|]. by eapply Hi.
      * intros sh. apply contents_same. intros name'. unfold get_cache, drop_guard, alter_route.
        simpl. destruct (decide (name' = name)) as [->|Hn].
        -- rewrite lookup_alter_eq. by destruct (sh_routes sh !! name).
        -- by rewrite lookup_alter_ne.
Qed.

Lemma arrival_contents p : arrives gs p → ok_acts p.
Proof.
  intros [it req _|c ticks Hc].
  - apply acts_bind; [|done]. apply (walk_handle (HW := contents_walk it)); [by intros op|].
    intros key lim w _. apply tidy_on_limiter.
  - exact (walk_task (HW := contents_walk Cache.list_order) c ticks Hc).
Qed.
End contents.

(** ** Properties *)

(** C24: a cache holds only what it may: in every state that any interleaving of
    requests and health checks reaches from empty caches, an entry of a route's
    cache has status 200 and the (transformed) headers of an upstream response that
    did not forbid storing (no-store, private or no-cache), and its key is that of a
    GET request without a no-cache directive which that route matched and
    authorised. *)
Theorem cache_contents_storable `{WebLib, Auth.JwtLib, Profile} {L}
    `{!RateLimit.RateLimiter GwE L} Ans gs (sh : Shared L) ps sh' name c k e :
  (∀ name c, get_cache name sh = Some c → Cache.stored c = ∅) →
  rtc (pool_step Ans (arrives gs)) ([], sh) (ps, sh') →
  get_cache name sh' = Some c → Cache.stored c !! k = Some e →
  Cache.status e = 200%Z
  ∧ (∃ req r rt, k = Cache.key (method req) (host_of (headers req))
                       (default "/" (uri_path_and_query (uri req)))
       ∧ Router.match_route (gs_config gs) (Some (host_of (headers req))) (uri_path (uri req)) = Some r
       ∧ rc_name r = name ∧ route gs name = Some rt
       ∧ Auth.authorize (rc_auth (rt_config rt)) (headers req) = Ok ()
       ∧ method req = "GET" ∧ cache_bypass (headers req) = false)
  ∧ ∃ rt resp id, route gs name = Some rt ∧ response_cacheable resp = true
      ∧ Cache.headers e = stored_headers rt resp id.
Proof.
  intros Hempty Hrun Hc He.
  assert (contents_ok gs sh') as Hok.
  { assert (contents_ok gs sh) as Hok.
    { intros n c0 Hc0 k0 e0. by rewrite (Hempty n c0 Hc0). }
    assert (rtc (keeps_contents gs) sh sh') as Hsteps.
    { eapply pool_acts; [apply arrival_contents|exact Hrun|by constructor]. }
    clear -Hok Hsteps. induction Hsteps as [|sh1 sh2 sh3 Hstep _ IH]; [done|]. by apply IH, Hstep. }
  destruct (Hok name c Hc k e He) as (Hst & (req & (r & rt & Hreq) & Hk) & Hhs).
  split_and!; [done| |done]. exists req, r, rt. split; [done|]. by destruct_and! Hreq.
Qed.

Import Demo.

Definition caching_route : RouteConfig :=
  demo_route 0 (Some {| cc_ttl_secs := 30; cc_max_entries := 10 |}) None.

(** Every upstream answers 200. *)
Definition caching_run : Run GwE (Shared RateLimit.InMemory.Limiter) unit :=
  exec (alone_in (still (world (λ _, answers 200)))) (demo_task (gateway caching_route)) 0
    (shared caching_route).

(** After a GET the cache holds its response. *)
Lemma cache_contents_storable_witness :
  ∃ c e, get_cache "r" (r_state caching_run) = Some c
    ∧ Cache.stored c !! Cache.key "GET" "" "/x" = Some e ∧ Cache.status e = 200%Z.
Proof.
  assert (Hc : is_some (c ← get_cache "r" (r_state caching_run);
                        Cache.stored c !! Cache.key "GET" "" "/x") = true) by by vm_compute.
  destruct (get_cache "r" (r_state caching_run)) as [c|] eqn:Hget; [|done]. simpl in Hc.
  destruct (Cache.stored c !! Cache.key "GET" "" "/x") as [e|] eqn:He; [|done].
  destruct (cache_contents_storable (clock_in (λ _, True)) (gateway caching_route)
    (shared caching_route) [Done (r_out caching_run)] (r_state caching_run) "r" c
    (Cache.key "GET" "" "/x") e) as (Hst & _).
  - intros name c0 Hc0. unfold get_cache, shared in Hc0; simpl in Hc0.
    destruct (decide (name = "r")) as [->|Hn].
    + rewrite lookup_singleton_eq in Hc0. by injection Hc0 as <-.
    + by rewrite lookup_singleton_ne in Hc0.
  - exact (demo_task_steps (λ _, True) _ _ _ I).
  - exact Hget.
  - exact He.
  - exists c, e. exact (conj eq_refl (conj He Hst)).
Defined.

End Contents.
