(* ===== verification/Path.v ===== *)
(** The way of a request to its attempts, for the properties stated by [tells]
    (Writes.v): when everything on that way is silent, a request does what its
    attempts do.  The definitions are those of Proxy.v and Walk.v; Stored.v and
    Protocol.v are its clients. *)
From S2P Require Import Prelude RustStd Prog Pool Writes Config Router Breaker RateLimit Cache.
From S2P Require Import Http Auth Transform Balancer Telemetry Events State Proxy Walk.
Import Config State Proxy.

(** The parts before and after the attempts. *)
Class SilentWay `{WebLib, Profile} {L C} `{!RateLimit.RateLimiter GwE L}
    (quiet : Shared L → Shared L → Prop) (view : Obs GwE → option C) := {
  sw_metric d ls op x : view (Called (EMetric d ls op) x) = None;
  sw_now : silent quiet view Instant_now;
  sw_uuid : silent quiet view (ext EUuid);
  sw_read_body n : silent quiet view (await (EReadBody n));
  sw_get name k : silent quiet view (on_cache name (Cache.get k));
  sw_check key lim w : silent quiet view (on_limiter (RateLimit.check key lim w));
}.

Section path.
Context `{WebLib, Auth.JwtLib, Profile} {L C : Type} `{!RateLimit.RateLimiter GwE L}.
Context (it : Cache.hash_order) (gs : GatewayState).
Context (quiet : Shared L → Shared L → Prop) (W : C → Shared L → Shared L → Prop).
Context (view : Obs GwE → option C) `{!SilentWay quiet view}.

Abbreviation Gw := (prog GwE (Shared L)).
Abbreviation tells_of := (tells quiet W view False).

Lemma silent_ret {A} (a : A) : silent quiet view (mret a : Gw A).
Proof. done. Qed.

Lemma silent_metric d ls op : silent quiet view (metric d ls op : Gw unit).
Proof.
  unfold metric. case_match; [|done]. split; [done|]. intros x _. simpl. unfold seen.
  by rewrite sw_metric.
Qed.

Lemma silent_record name meth st started : silent quiet view (record name meth st started : Gw unit).
Proof.
  apply silent_bind; [apply silent_metric|intros _]. apply silent_bind; [apply sw_now|intros t].
  apply silent_metric.
Qed.

Context (req : Request) (Q : Outcome Response → list C → Prop) (HQ : ∀ o, Q o []).

(** The attempts of this request, on the route it was admitted to. *)
Definition tries (a : Attempts) : Prop :=
  admitted (gs := gs) (at_route a) (at_runtime a) req
  ∧ at_path_and_query a = path_and_query req (at_runtime a)
  ∧ (at_cache_enabled a = true →
       cacheable_request gs (at_route a) req ∧ at_cache_key a = cache_key_of req).

Context (Hattempts : ∀ a k, tries a → tells_of (attempts it a k [] : Gw Response) Q).

Lemma told_after {A} (p : Gw A) (k : A → Gw Response) :
  silent quiet view p → (∀ a, tells_of (k a) Q) → tells_of (p ≫= k) Q.
Proof. intros Hp Hk. by apply tells_after. Qed.

Lemma told_forward rt name corr started ce ck :
  admitted (gs := gs) name rt req →
  (ce = true → cacheable_request gs name req ∧ ck = cache_key_of req) →
  tells_of (forward it gs req rt name corr started ce ck) Q.
Proof.
  intros Hadm Hkey. unfold forward. cbv zeta. apply told_after; [apply sw_read_body|].
  intros [body|e]; [by apply Hattempts|]. apply told_after; [apply silent_record|intros _]. apply HQ.
Qed.

Lemma told_lookup rt name corr started :
  admitted (gs := gs) name rt req →
  tells_of (lookup_and_forward it gs req rt name corr started) Q.
Proof.
  intros Hadm. unfold lookup_and_forward. cbv zeta.
  destruct (rt_cached rt && _ && _) eqn:Hce; [|by apply told_forward].
  apply told_after; [apply sw_get|].
  intros [hit|]; (apply told_after; [apply silent_metric|intros _]).
  - apply told_after; [apply silent_record|intros _]. apply HQ.
  - apply told_forward; [done|]. intros _. split; [|done].
    rewrite !andb_true_iff, String.eqb_eq, negb_true_iff in Hce. destruct Hce as [[Hc Hget] Hby].
    destruct Hadm as (Hrt & (r & Hm & Hn) & Hauth). by exists r, rt.
Qed.

Lemma told_limit rt name corr started :
  admitted (gs := gs) name rt req →
  tells_of (limit_and_forward it gs req rt name corr started) Q.
Proof.
  intros Hadm. unfold limit_and_forward. cbv zeta. case_match; [|by apply told_lookup].
  apply told_after; [apply sw_check|intros d]. case_match; [|by apply told_lookup].
  apply told_after; [apply silent_metric|intros _].
  apply told_after; [apply silent_record|intros _]. apply HQ.
Qed.

Lemma told_route_and_proxy : tells_of (route_and_proxy it gs req) Q.
Proof.
  unfold route_and_proxy. cbv zeta. apply told_after; [apply sw_now|intros started].
  apply told_after; [case_match; [apply silent_ret|apply sw_uuid]|intros corr].
  destruct (Router.match_route _ _ _) as [r|] eqn:Hm.
  2: { apply told_after; [apply silent_metric|intros _]. apply HQ. }
  destruct (route gs _) as [rt|] eqn:Hrt; [|apply HQ].
  destruct (Auth.authorize _ _) as [[]|reason] eqn:Hauth.
  { apply told_limit. split_and!; [done|by exists r|done]. }
  apply told_after; [apply silent_metric|intros _].
  apply told_after; [apply silent_record|intros _]. apply HQ.
Qed.

Lemma told_handle : tells_of (handle it gs req) Q.
Proof.
  unfold handle. apply told_after; [apply silent_metric|intros _].
  apply told_after; [apply sw_now|intros _].
  apply tells_bind. eapply tells_mono; [|apply told_route_and_proxy].
  intros [r|m|] cs Hcs; cbn [on_ret]; [|simpl; by rewrite app_nil_r..].
  intros x. simpl. unfold seen. rewrite sw_metric. simpl. by rewrite app_nil_r.
Qed.
End path.
