(* ===== verification/Stored.v ===== *)
(** What a request stores is what it answers: of all its actions on the shared state
    at most one adds to a cache, and then the request goes on to send the response
    it stored.  The definitions are those of Cache.v, Proxy.v and Walk.v. *)
From S2P Require Import Prelude RustStd Prog Pool Writes Config Router Breaker RateLimit Cache.
From S2P Require Import Http Auth Transform Balancer Telemetry Events State Proxy Walk Path Demo.
Import Config State Proxy.

Module Stored.

Section stored.
Context `{WebLib, Auth.JwtLib, Profile} {L : Type} `{!RateLimit.RateLimiter GwE L}.
Context (it : Cache.hash_order) (gs : GatewayState).

(** Nothing is added to a cache; entries may be removed. *)
Definition adds_nothing (sh sh' : Shared L) : Prop :=
  ∀ name c', get_cache name sh' = Some c' →
    ∃ c, get_cache name sh = Some c ∧ Cache.stored c' ⊆ Cache.stored c.

(** The entry [e] is stored under [k] in the cache of route [name], and nothing else
    is added. *)
Inductive Entry : Type := mkEntry (name k : string) (e : Cache.CachedResponse).

Definition stores (x : Entry) (sh sh' : Shared L) : Prop :=
  let '(mkEntry name k e) := x in
  ∃ c c', get_cache name sh = Some c ∧ get_cache name sh' = Some c'
    ∧ Cache.stored c' !! k = Some e ∧ delete k (Cache.stored c') ⊆ Cache.stored c
    ∧ ∀ name', name' ≠ name → get_cache name' sh' = get_cache name' sh.

Abbreviation Gw := (prog GwE (Shared L)).
Abbreviation still_acts := (acts_by adds_nothing (λ _ _ _, True)).
Definition no_label (ob : Obs GwE) : option Entry := None.
Abbreviation tells_of := (tells adds_nothing stores no_label False).
Abbreviation still := (silent adds_nothing no_label).

(** ** Parts that add nothing *)

Lemma adds_same sh sh' :
  (∀ name, get_cache name sh' = get_cache name sh) → adds_nothing sh sh'.
Proof. intros Heq name c. rewrite Heq. eauto. Qed.

Lemma alter_route_cache n f (sh : Shared L) name :
  (∀ rs, rs_cache (f rs) = rs_cache rs) →
  get_cache name (alter_route n f sh) = get_cache name sh.
Proof.
  intros Hf. unfold get_cache, alter_route; simpl. destruct (decide (name = n)) as [->|Hn].
  - rewrite lookup_alter_eq. destruct (sh_routes sh !! n); simpl; auto.
  - by rewrite lookup_alter_ne.
Qed.

Lemma still_only {A} (p : Gw A) : still_acts p → still p.
Proof. split; [done|apply emits_unseen]. Qed.

Lemma still_bal {A} n (p : prog GwE Balancer.BalState A) : still (on_bal n p).
Proof.
  apply still_only. eapply (acts_zoom (λ _ _, True)); [by intros sh; apply adds_same| |apply acts_any].
  intros sh s s2 _ _. apply adds_same. intros name. by apply alter_route_cache.
Qed.

Lemma still_limiter {A} (p : prog GwE L A) : still (on_limiter p).
Proof.
  apply still_only. eapply (acts_zoom (λ _ _, True)); [by intros sh; apply adds_same| |apply acts_any].
  intros sh l l2 _ _. by apply adds_same.
Qed.

Lemma get_set_cache n c (sh : Shared L) name :
  is_Some (get_cache n sh) →
  get_cache name (set_cache n c sh) = if decide (name = n) then Some c else get_cache name sh.
Proof.
  unfold get_cache, set_cache, alter_route; simpl. intros [c0 Hc0].
  case_decide as Hn; [subst|by rewrite lookup_alter_ne].
  rewrite lookup_alter_eq. by destruct (sh_routes sh !! n).
Qed.

Lemma shrinks n (sh : Shared L) c c' :
  get_cache n sh = Some c → Cache.stored c' ⊆ Cache.stored c → adds_nothing sh (set_cache n c' sh).
Proof.
  intros Hc Hsub name c2. rewrite get_set_cache by eauto. case_decide; [subst|eauto].
  intros [= <-]. eauto.
Qed.

(** A section that only removes entries. *)
Lemma locked_sub {A} (f : Cache.entries → Outcome A * Cache.entries) c :
  (∀ m, (f m).2 ⊆ m) → Cache.stored (Cache.locked f c).2 ⊆ Cache.stored c.
Proof.
  intros Hf. unfold Cache.stored, Cache.locked, with_lock.
  destruct (mu_poisoned (Cache.map c)); [done|]. specialize (Hf (mu_val (Cache.map c))).
  by destruct (f (mu_val (Cache.map c))).
Qed.

Lemma evict_sub cap now k m : Cache.evict it cap now k m ⊆ m.
Proof. unfold Cache.evict. repeat case_match; try done. apply delete_subseteq. Qed.

Lemma still_get n k : still (on_cache n (Cache.get k)).
Proof.
  apply still_only. eapply (acts_zoom (λ c c', Cache.stored c' ⊆ Cache.stored c)).
  - by intros sh; apply adds_same.
  - intros sh c c'. apply shrinks.
  - intros now _. split; [|done]. intros c. apply locked_sub. intros m. unfold Cache.get_section.
    repeat case_match; simpl; try done. apply delete_subseteq.
Qed.

#[local] Instance still_way : SilentWay adds_nothing no_label.
Proof. split; try done; intros; [apply still_get|apply still_limiter]. Qed.

(** ** The store *)

Lemma put_stores name k st hs b now now' (sh : Shared L) c :
  get_cache name sh = Some c →
  let '(r, c') := Cache.put_at it now now' k st hs b c in
  ((∃ m, r = Panic m) ∧ adds_nothing sh (set_cache name c' sh))
  ∨ ∃ exp, r = Ret ()
      ∧ stores (mkEntry name k (Cache.mkCached st hs b exp)) sh (set_cache name c' sh).
Proof.
  intros Hc. unfold Cache.put_at, Cache.locked, with_lock.
  destruct (mu_poisoned (Cache.map c)) eqn:Hp.
  { left. split; [eauto|]. eapply shrinks; [done|]. done. }
  pose proof (evict_sub (Cache.capacity c) now k (mu_val (Cache.map c))) as Hev.
  unfold Cache.put_section. destruct (instant_add now' (Cache.ttl c)) as [exp|m|] eqn:Ea.
  - right. exists exp. split; [done|]. eexists c, _. split; [done|].
    rewrite get_set_cache, decide_True by eauto. split; [done|]. unfold Cache.stored; simpl.
    split_and!.
    + by rewrite lookup_insert_eq.
    + rewrite delete_insert_eq. etrans; [apply delete_subseteq|done].
    + intros name' Hn. rewrite get_set_cache, decide_False by eauto. done.
  - left. split; [eauto|]. by eapply shrinks.
  - unfold instant_add in Ea. by case_match.
Qed.

Lemma tells_put name k st hs b :
  tells_of (on_cache name (Cache.put it k st hs b) : Gw unit)
    (λ o cs, ((∃ m, o = Panic m) ∧ cs = [])
             ∨ ∃ exp, o = Ret () ∧ cs = [mkEntry name k (Cache.mkCached st hs b exp)]).
Proof.
  intros now now'. split; [|intros m; left; eauto]. intros sh.
  destruct (get_cache name sh) as [c|] eqn:Hc; simpl.
  2: { left. split; [by apply adds_same|]. left. eauto. }
  pose proof (put_stores name k st hs b now now' sh c Hc) as Hput.
  destruct (Cache.put_at _ _ _ _ _ _ _ _) as [r c']. simpl.
  destruct Hput as [[[m ->] Hs]|(exp & -> & Hs)].
  - left. split; [done|]. left. eauto.
  - right. eexists. split; [exact Hs|]. right. eauto.
Qed.

(** ** The walk: the request has written nothing, or it answers what it wrote. *)
Section walk.
Context (req : Request).

Definition served {A} (inj : Response → A) (o : Outcome A) (cs : list Entry) : Prop :=
  cs = [] ∨ ∃ name out e, cs = [mkEntry name (cache_key_of req) e]
    ∧ cacheable_request gs name req ∧ Cache.status e = 200%Z
    ∧ Cache.headers e = header_pairs out
    ∧ o = Ret (inj (mkResponse 200 (set_header out "x-cache" "MISS") (Bytes (Cache.body e)))).

Lemma tells_still {A} inj (p : Gw A) : still p → tells_of p (served inj).
Proof. intros Hp. eapply tells_mono; [|by apply tells_silent]. intros o cs ->. by left. Qed.

Lemma after_still {A B} inj (p : Gw A) (k : A → Gw B) :
  still p → (∀ a, tells_of (k a) (served inj)) → tells_of (p ≫= k) (served inj).
Proof. intros Hp Hk. apply tells_after; [done|done| |]; by left. Qed.

(** After a part that may have stored, what is left sends its answer. *)
Lemma answering {A B} inj inj' (p : Gw A) (k : A → Gw B) :
  tells_of p (served inj) →
  (∀ a, tells_of (k a) (served inj')) →
  (∀ r, tells_of (k (inj r)) (λ o cs, cs = [] ∧ o = Ret (inj' r)) ) →
  tells_of (p ≫= k) (served inj').
Proof.
  intros Hp Hk Hr. apply tells_bind. eapply tells_mono; [|exact Hp].
  intros o cs [->|(name & out & e & -> & Hreq & Hst & Hhs & ->)].
  - destruct o as [a|m|]; simpl; [apply Hk|by left..].
  - simpl. eapply tells_mono; [|apply Hr]. intros o cs [-> ->]. right. by exists name, out, e.
Qed.

Definition keyed (name : string) (ce : bool) (ck : string) : Prop :=
  ce = true → cacheable_request gs name req ∧ ck = cache_key_of req.

Lemma tells_finish rt name meth st hs ce ck corr started :
  keyed name ce ck →
  tells_of (finish_response it rt name meth st hs ce ck corr started : Gw Response) (served id).
Proof.
  intros Hkey. unfold finish_response. cbv zeta. apply after_still; [apply silent_record; exact _|intros _].
  destruct (ce && _ && _ && _) eqn:Hstore; [|by apply tells_still].
  rewrite !andb_true_iff, Z.eqb_eq in Hstore. destruct Hstore as [[[Hce ->] Hrt] _].
  destruct (Hkey Hce) as [Hreq ->]. apply after_still; [done|]. intros [bytes|e]; [|by apply tells_still].
  rewrite Hrt. apply tells_bind. eapply tells_mono; [|apply tells_put].
  intros o cs [[[m ->] ->]|(exp & -> & ->)]; [by left|]. right. by eexists _, _, _.
Qed.

Lemma tells_try a more i up :
  keyed (at_route a) (at_cache_enabled a) (at_cache_key a) →
  tells_of (try_upstream it a more i up : Gw Flow) (served Return).
Proof.
  intros Hkey.
  assert (Hfin : ∀ st hs, tells_of
    (r ← finish_response it (at_runtime a) (at_route a) (at_method a) st hs
           (at_cache_enabled a) (at_cache_key a) (at_correlation a) (at_started a);
     mret (Return r) : Gw Flow) (served Return)).
  { intros st hs. eapply answering; [by apply tells_finish| |done]. intros r. by left. }
  unfold try_upstream. cbv zeta.
  apply after_still; [done|intros start]. apply after_still; [done|intros result].
  apply after_still; [done|intros now]. apply after_still; [apply silent_metric; exact _|intros _].
  apply after_still; [apply still_bal|intros st]. apply after_still; [apply silent_metric; exact _|intros _].
  destruct result as [resp|e]; [case_match|].
  - apply after_still; [apply still_bal|intros _]. apply after_still; [apply silent_metric; exact _|intros _].
    case_match; [by left|apply Hfin].
  - apply after_still; [apply still_bal|intros _]. apply Hfin.
  - apply after_still; [apply still_bal|intros _]. apply after_still; [apply silent_metric; exact _|intros _].
    case_match; [by left|]. apply after_still; [apply silent_record; exact _|intros _]. by left.
Qed.

Lemma tells_attempts a k ex :
  keyed (at_route a) (at_cache_enabled a) (at_cache_key a) →
  tells_of (attempts it a k ex : Gw Response) (served id).
Proof.
  intros Hkey. revert ex. induction k as [|k IH]; intros ex; cbn [attempts].
  { apply after_still; [apply silent_record; exact _|intros _]. by left. }
  eapply answering with (inj := Return); [|intros [i|r]; [apply IH|by left]|done].
  unfold attempt. apply after_still; [apply still_bal|]. intros [[i up]|].
  - apply tells_finally; [|by apply tells_try]. intros sh. apply adds_same. intros name.
    by apply alter_route_cache.
  - apply after_still; [apply silent_record; exact _|intros _]. by left.
Qed.

Lemma tells_handle : tells_of (handle it gs req : Gw Response) (served id).
Proof. apply told_handle; [apply still_way|by left|]. intros a k (_ & _ & Hkey). by apply tells_attempts. Qed.
End walk.
End stored.

(** ** Properties *)

(** C31: a request stores only what it answers: whatever the other tasks do between
    its steps, either no step of its own adds an entry to a cache, or exactly one
    does, in the cache of the route that matched and authorised it, under its own
    key, and then the request ends with the response it stored: status 200, the
    stored body, and the stored headers marked as a miss. *)
Theorem stored_is_served `{WebLib, Auth.JwtLib, Profile} {L} `{!RateLimit.RateLimiter GwE L}
    it gs o n (sh : Shared L) req :
  let run := exec o (handle it gs req) n sh in
  let steps := own_steps o (handle it gs req) n sh in
  let adds_none := Forall (λ ss, adds_nothing ss.1 ss.2) in
  adds_none steps
  ∨ ∃ pre sh1 sh2 post name e out,
      steps = pre ++ (sh1, sh2) :: post ∧ adds_none pre ∧ adds_none post
      ∧ stores (mkEntry name (cache_key_of req) e) sh1 sh2
      ∧ cacheable_request gs name req
      ∧ Cache.status e = 200%Z ∧ Cache.headers e = header_pairs out
      ∧ r_out run = Ret (mkResponse 200 (set_header out "x-cache" "MISS") (Bytes (Cache.body e))).
Proof.
  intros run steps adds_none.
  destruct (tells_exec _ _ _ _ o _ _ n sh (tells_handle it gs req)) as (cs & Hcs & Hserved).
  destruct Hserved as [->|(name & out & e & -> & Hreq & Hst & Hhs & Hout)].
  - left. by apply explained_none in Hcs.
  - right. apply explained_one in Hcs; [|done]. destruct Hcs as (pre & s & s' & post & Hsteps & Hw & Hpre & Hpost).
    by exists pre, s, s', post, name, e, out.
Qed.

Import Demo.

Definition caching_route : RouteConfig :=
  demo_route 0 (Some {| cc_ttl_secs := 30; cc_max_entries := 10 |}) None.

(** Whether a step fills the empty cache of the route. *)
Definition fills {L} (ss : Shared L * Shared L) : bool :=
  let entries sh := match get_cache "r" sh with Some c => size (Cache.stored c) | None => 0 end in
  Nat.eqb (entries ss.1) 0 && Nat.eqb (entries ss.2) 1.

Lemma adds_nothing_fills {L} (ss : Shared L * Shared L) : adds_nothing ss.1 ss.2 → fills ss = false.
Proof.
  unfold fills. intros Hadd. destruct (get_cache "r" ss.2) as [c'|] eqn:Hc'.
  2: { by rewrite andb_false_r. }
  destruct (Hadd "r" c' Hc') as (c & -> & Hsub%map_subseteq_size).
  destruct (size (Cache.stored c)); [|done]. by destruct (size (Cache.stored c')); [|lia].
Qed.

(** A GET that is answered by 200, alone: it stores the answer it sends. *)
Lemma stored_is_served_witness :
  let o := alone_in (world (λ _, answers 200)) in
  let p := handle Cache.list_order (gateway caching_route) (get_request []) in
  ∃ name e out, Cache.status e = 200%Z ∧ Cache.headers e = header_pairs out
    ∧ cacheable_request (gateway caching_route) name (get_request [])
    ∧ r_out (exec o p 0 (shared caching_route))
      = Ret (mkResponse 200 (set_header out "x-cache" "MISS") (Bytes (Cache.body e))).
Proof.
  intros o p.
  destruct (stored_is_served Cache.list_order (gateway caching_route) o 0 (shared caching_route)
    (get_request [])) as [Hnone|(_ & _ & _ & _ & name & e & out & _ & _ & _ & _ & Hreq & Hst & Hhs & Hout)].
  - exfalso. assert (Hsome : existsb fills (own_steps o p 0 (shared caching_route)) = true)
      by by vm_compute.
    apply existsb_elem_of in Hsome as (ss & Hss & Hfills).
    rewrite (adds_nothing_fills ss) in Hfills; [done|].
    exact (proj1 (Forall_forall _ _) Hnone ss Hss).
  - exists name, e, out. exact (conj Hst (conj Hhs (conj Hreq Hout))).
Defined.

End Stored.
