(* ===== verification/Quota.v ===== *)
(** The rate limit over a running gateway: however many requests of a key arrive,
    and however they interleave, few of them get as far as an upstream.  The limiter
    is the in-memory one, behind the [dyn] of State.v; the logic is that of Traced.v.
    The definitions are those of RateLimit.v, Proxy.v and Walk.v. *)
From S2P Require Import Prelude RustStd Prog Pool Traced Config Router Breaker RateLimit Cache.
From S2P Require Import Http Auth Transform Balancer Telemetry Events State Health Proxy Walk Demo.
Import Config State Proxy.

Module Quota.

(** A request of the key is [Waiting] until its check, which lets it [Through] or
    not ([Spent]); the [Other] tasks are not counted. *)
Inductive phase : Type := Waiting | Spent | Through | Other.
#[export] Instance phase_eq_dec : EqDecision phase.
Proof. solve_decision. Defined.

Definition grows (h h' : phase) : Prop := h' = h ∨ (h = Waiting ∧ h' ≠ Other).
#[export] Instance grows_preorder : PreOrder grows.
Proof.
  split; [by left|]. intros h1 h2 h3 [->|[-> H2]] [->|[-> H3]]; unfold grows; auto.
Qed.

Definition is_send `{Http} (ob : Obs GwE) : bool := is_some (send_of ob).

Definition may `{Http} (h : phase) (ob : Obs GwE) : Prop :=
  is_send ob = true → h = Through ∨ h = Other.

(** Whether a check's decision lets the request through. *)
Definition lets_through (r : Outcome RateLimit.RateDecision) : bool :=
  match r with Ret d => RateLimit.allowed d | _ => false end.

Section quota.
Context `{WebLib, Auth.JwtLib, Profile}.
Context (it : Cache.hash_order) (gs : GatewayState).
(** The key, its limit and its window; the clock stays within [t0, t0 + D].  [e0] is the
    key's entry at the start, [n] the number of its requests. *)
Context (K : string) (lim : Z) (W : Duration) (t0 : Instant) (D : Duration).
Context (e0 : option (Instant * Z)) (n : nat).

Definition in_period (now : Instant) : Prop := (t0 ≤ now ≤ t0 + D)%Z.

Abbreviation Gw := (prog GwE (Shared AnyLimiter)).
Abbreviation Ans := (clock_in in_period).

Definition memory (sh : Shared AnyLimiter) : option RateLimit.InMemory.Limiter :=
  get_memory (sh_limiter sh).
Definition entry_in (a : AnyLimiter) : option (option (Instant * Z)) :=
  l ← get_memory a; Some (RateLimit.entry_of l K).
Definition entry (sh : Shared AnyLimiter) : option (option (Instant * Z)) := entry_in (sh_limiter sh).

Definition uses_memory (sh : Shared AnyLimiter) : Prop := is_Some (memory sh).
Definition quiet (sh sh' : Shared AnyLimiter) : Prop := entry sh' = entry sh.

Definition moves (h : phase) (sh : Shared AnyLimiter) (h' : phase) (sh' : Shared AnyLimiter) : Prop :=
  h' = h ∧ quiet sh sh'
  ∨ h = Waiting ∧ ∃ now l, in_period now ∧ memory sh = Some l
      ∧ let '(r, l') := RateLimit.InMemory.check_at K lim W now l in
        memory sh' = Some l' ∧ h' = if lets_through r then Through else Spent.

Abbreviation gates_of := (gates Ans uses_memory moves may).
Abbreviation quiet_acts := (acts_by quiet (λ _ _ _, True)).

(** ** The parts that leave the key alone *)

Lemma quiet_same sh sh' : sh_limiter sh' = sh_limiter sh → quiet sh sh'.
Proof. unfold quiet, entry. by intros ->. Qed.

#[local] Instance quota_walk :
  Walk gs it (λ A (p : Gw A), quiet_acts p) (λ A (p : Gw A), quiet_acts p).
Proof. apply acts_walk, quiet_same. Qed.

(** A check of another key, on either limiter. *)
Lemma quiet_check key lim' W' : key ≠ K → quiet_acts (on_limiter (RateLimit.check key lim' W') : Gw _).
Proof.
  intros Hkey. eapply (acts_zoom (λ a a', entry_in a' = entry_in a)).
  - by intros sh; apply quiet_same.
  - by intros sh a a2 [= <-] Ha.
  - apply acts_bind; [by split|]. intros redis. destruct redis.
    + eapply (acts_zoom (λ _ _, True)); [done| |apply acts_any]. by intros [l|l] l1 l2.
    + eapply (acts_zoom (λ l l', RateLimit.entry_of l' K = RateLimit.entry_of l K)); [done| |].
      * intros [l|l] l1 l2; [done|]. intros [= <-] Hl. unfold entry_in; simpl. by rewrite Hl.
      * intros now _. split; [|done]. intros l. by apply RateLimit.check_at_other.
Qed.

(** ** The requests *)

Definition request_task (req : Request) : Gw unit := _ ← handle it gs req; mret ().

(** A request that is not checked under the key. *)
Lemma other_phased req :
  (∀ l w, limit_of gs req ≠ Some (K, l, w)) → phased Ans uses_memory moves may (request_task req) Other.
Proof.
  intros Hreq. apply gates_bind. eapply gates_mono, (gates_open _ _ _ _ quiet).
  - by intros [a|m|] h' ->.
  - intros sh sh' Hq. by left.
  - intros ob _. by right.
  - apply (walk_handle (HW := quota_walk)); [by intros op|]. intros key l w Hlim. apply quiet_check.
    intros ->. by eapply Hreq.
Qed.

(** Parts that make no upstream call and leave the phase. *)
Definition plain {A} (p : Gw A) : Prop := ∀ h, gates_of p h (λ _ h', h' = h).

Lemma plain_ret {A} (a : A) : plain (mret a).
Proof. done. Qed.
Lemma plain_now : plain Instant_now.
Proof. by intros h x _. Qed.
Lemma plain_uuid : plain (ext EUuid).
Proof. by intros h x _. Qed.
Lemma plain_metric d ls op : plain (metric d ls op).
Proof. unfold metric. case_match; by intros h. Qed.

Lemma plain_then {A B} (p : Gw A) (k : A → Gw B) h Q :
  plain p → (∀ a, gates_of (k a) h Q) → (∀ m, Q (Panic m) h) → Q Cancelled h → gates_of (p ≫= k) h Q.
Proof.
  intros Hp Hk Hpanic Hdrop. apply gates_bind. eapply gates_mono; [|apply Hp].
  intros [a|m|] h' ->; simpl; auto.
Qed.

Lemma plain_bind {A B} (p : Gw A) (k : A → Gw B) : plain p → (∀ a, plain (k a)) → plain (p ≫= k).
Proof. intros Hp Hk h. apply plain_then; [done|intros a; apply Hk|done|done]. Qed.

Lemma plain_record name meth st started : plain (record name meth st started).
Proof.
  apply plain_bind; [apply plain_metric|intros _]. apply plain_bind; [apply plain_now|].
  intros now. apply plain_metric.
Qed.

(** The check decides. *)
Lemma check_decides :
  gates_of (on_limiter (RateLimit.check K lim W)) Waiting
    (λ o h, h = if lets_through o then Through else Spent).
Proof.
  intros sh [l Hl]. exists Waiting. unfold memory in Hl.
  destruct sh as [rs [l0|l0]]; [done|]. injection Hl as ->. split; [by left; split; [|apply quiet_same]|].
  simpl. intros now Hnow. split; [done|]. intros sh [l' Hl'].
  destruct sh as [rs' [l1|l1]]; [done|]. injection Hl' as ->. simpl.
  destruct (RateLimit.InMemory.check_at K lim W now l') as [r l2] eqn:Er. simpl.
  exists (if lets_through r then Through else Spent). split; [|done].
  right. split; [done|]. exists now, l'. split_and!; [done|done|]. by rewrite Er.
Qed.

Lemma limited_phased req rt name id started rl :
  admitted (gs := gs) name rt req → rc_rate_limit (rt_config rt) = Some rl →
  limit_of gs req = Some (K, lim, W) →
  gates_of (limit_and_forward it gs req rt name id started) Waiting (λ _ _, True).
Proof.
  intros Hadm Hrl Hlim. rewrite (admitted_limit name rt req rl Hadm Hrl) in Hlim.
  injection Hlim as Hkey Hl Hw. unfold limit_and_forward. cbv zeta. rewrite Hrl, Hkey, Hl, Hw.
  apply gates_bind. eapply gates_mono; [|apply check_decides].
  intros [d|m|] h ->; [|done..]. cbn [on_ret lets_through].
  destruct (RateLimit.allowed d); cbn [negb].
  - eapply gates_mono, (gates_open _ _ _ _ quiet); [done|by left|by left|].
    by apply (walk_lookup (HW := quota_walk)).
  - apply plain_then; [apply plain_metric|intros _|done..].
    apply plain_then; [apply plain_record|intros _|done..]. done.
Qed.

Lemma waiting_phased req :
  limit_of gs req = Some (K, lim, W) → phased Ans uses_memory moves may (request_task req) Waiting.
Proof.
  intros Hreq. apply gates_bind. eapply gates_mono with (Q := λ _ _, True); [by intros [a|m|] h|].
  unfold handle. apply plain_then; [apply plain_metric|intros _|done..].
  apply plain_then; [apply plain_now|intros _|done..].
  apply gates_bind. eapply gates_mono with (Q := λ _ _, True).
  { intros [a|m|] h _; [|done..]. apply plain_then; [apply plain_metric|done..]. }
  unfold route_and_proxy. cbv zeta. apply plain_then; [apply plain_now|intros started|done..].
  apply plain_then; [case_match; [apply plain_ret|apply plain_uuid]|intros id|done..].
  pose proof Hreq as Hlim. unfold limit_of in Hlim.
  destruct (Router.match_route _ _ _) as [r|] eqn:Hm; [|done]. simpl in Hlim.
  destruct (route gs (rc_name r)) as [rt|] eqn:Hrt; [|done]. simpl in Hlim.
  destruct (Auth.authorize _ _) as [[]|e] eqn:Hauth; [|done]. simpl in Hlim.
  destruct (rc_rate_limit (rt_config rt)) as [rl|] eqn:Hrl; [|done].
  eapply limited_phased; [|done|done]. split_and!; [done|by exists r|done].
Qed.

(** ** The count of the requests let through *)

Definition through (hs : list phase) : Z := Z.of_nat (length (filter (λ h, h = Through) hs)).
Definition spent (hs : list phase) : Z := Z.of_nat (length (filter (λ h, h = Through ∨ h = Spent) hs)).

(** The windows of the key that can have started up to a time, times their limit. *)
Definition room (now : Instant) : Z := (lim * ((now - t0) / W))%Z.

(** What is left of the window that was open at the start. *)
Definition old_count : Z := match e0 with Some (_, c) => c | None => 0 end.
Definition credit : Z := match e0 with Some (_, c) => Z.max 0 (lim - c) | None => 0 end.

(** The entry is the one from the start, counted on, or that of a window that started
    since. *)
Definition in_old (hs : list phase) (e : Instant * Z) : Prop :=
  is_Some e0 ∧ (old_count ≤ e.2 ≤ old_count + spent hs)%Z
  ∧ (through hs ≤ Z.max 0 (Z.min e.2 lim - old_count))%Z.
Definition in_new (hs : list phase) (e : Instant * Z) : Prop :=
  in_period e.1 ∧ (0 ≤ e.2 ≤ spent hs)%Z ∧ (through hs ≤ credit + room e.1 + Z.min e.2 lim)%Z.

Definition accounts (hs : list phase) (l : RateLimit.InMemory.Limiter) : Prop :=
  match RateLimit.entry_of l K with
  | None => e0 = None ∧ through hs = 0%Z
  | Some e => in_old hs e ∨ in_new hs e
  end.

(** Every request of the key is in one of its phases. *)
Definition mine (hs : list phase) : nat := length (filter (λ h, h ≠ Other) hs).

Definition in_account (hs : list phase) (sh : Shared AnyLimiter) : Prop :=
  mine hs = n ∧ ∃ l, memory sh = Some l ∧ accounts hs l.

(** A check moves one request out of [Waiting]. *)
Lemma check_move hs i (b : bool) :
  hs !! i = Some Waiting →
  let hs' := <[i := if b then Through else Spent]> hs in
  through hs' = (through hs + if b then 1 else 0)%Z ∧ spent hs' = (spent hs + 1)%Z
  ∧ mine hs' = mine hs ∧ (spent hs' ≤ Z.of_nat (mine hs))%Z.
Proof.
  intros Hi hs'. unfold through, spent, mine.
  pose proof (filter_insert_length (λ h, h = Through) hs i _ (if b then Through else Spent) Hi).
  pose proof (filter_insert_length (λ h, h = Through ∨ h = Spent) hs i _
                (if b then Through else Spent) Hi).
  pose proof (filter_insert_length (λ h, h ≠ Other) hs i _ (if b then Through else Spent) Hi).
  assert (Hle : length (filter (λ h, h = Through ∨ h = Spent) hs') ≤ length (filter (λ h, h ≠ Other) hs')).
  { generalize hs'. intros l. induction l as [|h l IH]; [done|]. rewrite !filter_cons.
    destruct h; repeat case_decide; simpl; try lia; naive_solver. }
  unfold hs' in *. destruct b; simpl in *; lia.
Qed.

Context (HW : (0 < W)%Z) (Hlim : (0 ≤ lim)%Z) (Hold : (0 ≤ old_count)%Z).
Context (Hcount : (old_count + Z.of_nat n ≤ u32_max)%Z).

(** A window later there is room for one more window. *)
Lemma room_later s now : (s + W ≤ now)%Z → (room s + lim ≤ room now)%Z.
Proof.
  intros Hs. unfold room.
  assert ((s - t0) / W + 1 ≤ (now - t0) / W)%Z; [|nia].
  rewrite <- Z.div_add by lia. apply Z.div_le_mono; lia.
Qed.

Lemma room_pos now : (t0 ≤ now)%Z → (0 ≤ room now)%Z.
Proof. intros Hnow. unfold room. assert (0 ≤ (now - t0) / W)%Z by (apply Z.div_pos; lia). nia. Qed.

(** The entry after a check, whether or not the clock was read before the window
    started. *)
Lemma window_cases now e :
  match e with
  | None => RateLimit.window_step W now e = (now, 1%Z)
  | Some (s, c) =>
      (now < s + W)%Z ∧ RateLimit.window_step W now e = (s, c + 1)%Z
      ∨ (s + W ≤ now)%Z ∧ RateLimit.window_step W now e = (now, 1%Z)
  end.
Proof.
  destruct e as [[s c]|]; [|apply RateLimit.window_step_None].
  unfold RateLimit.window_step, duration_since; simpl.
  destruct (Z.leb_spec W (Z.max (now - s) 0)); [right|left]; (split; [lia|done]).
Qed.

Lemma credit_pos : (0 ≤ credit)%Z.
Proof. unfold credit. destruct e0 as [[s c]|]; [apply Z.le_max_l|done]. Qed.

Lemma old_credit : is_Some e0 → credit = Z.max 0 (lim - old_count).
Proof. unfold credit, old_count. destruct e0 as [[s c]|]; [done|by intros []]. Qed.

(** The entry's count, before and after a check, is one that [u32] can hold. *)
Lemma accounts_count hs l e :
  accounts hs l → RateLimit.entry_of l K = Some e → (0 ≤ e.2 ≤ old_count + spent hs)%Z.
Proof. unfold accounts. intros Hacc He. rewrite He in Hacc. destruct Hacc as [(_ & ? & _)|(_ & ? & _)]; lia. Qed.

(** A window that starts now. *)
Lemma opens_new hs hs' now t :
  (t0 ≤ now)%Z → in_period now → (0 ≤ spent hs)%Z → spent hs' = (spent hs + 1)%Z →
  through hs' = (t + if (1 <=? lim)%Z then 1 else 0)%Z → (t ≤ credit + room now)%Z →
  in_new hs' (now, 1%Z).
Proof.
  intros Hnow Hper Hs Hs' Ht Hroom. unfold in_new; cbn [fst snd]. split_and!; [done|lia|lia|].
  destruct (Z.leb_spec 1 lim); lia.
Qed.

Lemma accounts_after hs i l now :
  hs !! i = Some Waiting → in_period now → accounts hs l →
  let e := RateLimit.window_step W now (RateLimit.entry_of l K) in
  let hs' := <[i := if (e.2 <=? lim)%Z then Through else Spent]> hs in
  in_old hs' e ∨ in_new hs' e.
Proof.
  intros Hi Hnow Hacc e hs'.
  destruct (check_move hs i (e.2 <=? lim)%Z Hi) as (Ht & Hsp & _). fold hs' in Ht, Hsp.
  pose proof (window_cases now (RateLimit.entry_of l K)) as Hw. fold e in Hw.
  assert (Hs : (0 ≤ spent hs)%Z) by (unfold spent; lia).
  pose proof (room_pos now (proj1 Hnow)) as Hr0. pose proof credit_pos as Hcr.
  unfold accounts in Hacc. destruct (RateLimit.entry_of l K) as [[s c]|].
  - destruct Hw as [[Hlt He]|[Hge He]]; rewrite He in *; cbn [fst snd] in *.
    + destruct Hacc as [(Hopen & Hc & Hth)|(Hper & Hc & Hth)]; [left|right]; unfold in_old, in_new;
        cbn [fst snd] in *; (split_and!; [done|lia|lia|]); destruct (Z.leb_spec (c + 1) lim); lia.
    + right. apply (opens_new hs hs' now (through hs)); [apply Hnow|done..|].
      destruct Hacc as [(Hopen & Hc & Hth)|(Hper & Hc & Hth)]; cbn [fst snd] in *.
      * rewrite (old_credit Hopen). lia.
      * pose proof (room_later s now Hge). lia.
  - destruct Hacc as [_ Hopen]. rewrite Hw in *; cbn [fst snd] in *. right.
    apply (opens_new hs hs' now (through hs)); [apply Hnow|done..|]. lia.
Qed.

Lemma accounts_check hs i l now :
  hs !! i = Some Waiting → mine hs = n → in_period now → accounts hs l →
  let '(r, l') := RateLimit.InMemory.check_at K lim W now l in
  accounts (<[i := if lets_through r then Through else Spent]> hs) l'.
Proof.
  intros Hi Hn Hnow Hacc.
  pose proof (RateLimit.check_at_key K lim W now l) as Hlive.
  pose proof (RateLimit.check_at_poisoned K lim W now l) as Hdead.
  destruct (RateLimit.InMemory.check_at K lim W now l) as [r l'].
  destruct (decide (RateLimit.lim_live l)) as [Hl|Hl].
  - destruct Hlive as (-> & _ & Hw); [done| |].
    { destruct (check_move hs i true Hi) as (_ & Hs & _ & Hle).
      assert (Hsp : (0 ≤ spent hs)%Z) by (unfold spent; lia).
      pose proof (RateLimit.window_step_count W now (RateLimit.entry_of l K) (old_count + spent hs)%Z
        (λ e, accounts_count hs l e Hacc) ltac:(lia)). cbv zeta. lia. }
    pose proof (accounts_after hs i l now Hi Hnow Hacc) as Hafter. cbv zeta in Hafter.
    unfold accounts, RateLimit.entry_of at 1. by rewrite Hw, lookup_insert_eq.
  - destruct Hdead as [[m Hm] He]; [done|]. simpl in Hm, He. subst r l'. simpl.
    destruct (check_move hs i false Hi) as (Ht & Hs & _). unfold accounts in *.
    destruct (RateLimit.entry_of l K) as [e|]; [|by rewrite Ht, Z.add_0_r].
    unfold in_old, in_new in *. rewrite Ht, Hs, Z.add_0_r.
    destruct Hacc as [(? & ? & ?)|(? & ? & ?)]; [left|right]; (split_and!; [done|lia|lia|lia]).
Qed.

(** The accounts of all tasks, after a step of one. *)
Lemma account_moves hs i h h' sh sh' :
  hs !! i = Some h → moves h sh h' sh' → in_account hs sh → in_account (<[i := h']> hs) sh'.
Proof.
  intros Hi [[-> Hq]|[-> (now & l & Hnow & Hl & Hcheck)]] (Hn & l0 & Hl0 & Hacc).
  - rewrite list_insert_id by done. split; [done|]. unfold quiet, entry, entry_in, memory in *.
    rewrite Hl0 in Hq. destruct (get_memory (sh_limiter sh')) as [l'|] eqn:Hl'; [|done].
    exists l'. split; [done|]. injection Hq as Hq. unfold accounts. by rewrite Hq.
  - simplify_eq. pose proof (accounts_check hs i l now Hi Hn Hnow Hacc) as Hstep.
    destruct (RateLimit.InMemory.check_at K lim W now l) as [r l'].
    destruct Hcheck as [Hl' ->]. split; [|by exists l'].
    by destruct (check_move hs i (lets_through r) Hi) as (_ & _ & -> & _).
Qed.

Lemma account_new hs sh : in_account hs sh → in_account (hs ++ [Other]) sh.
Proof.
  intros (Hn & l & Hl & Hacc). unfold in_account, accounts, in_old, in_new, mine, through, spent in *.
  rewrite !filter_app, !length_app. simpl. rewrite !Nat.add_0_r. split; [done|]. by exists l.
Qed.
End quota.

(** What may happen beside the requests: requests that are not checked under the
    key, and health checks. *)
Inductive beside `{WebLib, Auth.JwtLib, Profile} (gs : GatewayState) (K : string)
    : prog GwE (Shared AnyLimiter) unit → Prop :=
| beside_request it req :
    (∀ l w, limit_of gs req ≠ Some (K, l, w)) → beside gs K (request_task it gs req)
| beside_check c n : c ∈ Health.checks gs → beside gs K (Health.task c n).

Definition keyed `{WebLib, Auth.JwtLib} (gs : GatewayState) (K : string) (req : Request) : bool :=
  match limit_of gs req with Some (k, _, _) => String.eqb k K | None => false end.

(** The requests of the key that called an upstream. *)
Definition called `{Http} (t : list (nat * Obs GwE)) (i : nat) : bool :=
  existsb (λ io, Nat.eqb io.1 i && is_send io.2) t.
Definition callers `{WebLib, Auth.JwtLib} (gs : GatewayState) (K : string) (reqs : list Request)
    (t : list (nat * Obs GwE)) : list nat :=
  filter (λ i, match reqs !! i with Some req => keyed gs K req | None => false end && called t i = true)
    (seq 0 (length reqs)).

Section run.
Context `{WebLib, Auth.JwtLib, Profile} (it : Cache.hash_order) (gs : GatewayState).
Context (K : string) (lim : Z) (W : Duration) (t0 : Instant) (D : Duration).

Lemma moves_grow h sh h' sh' : moves K lim W t0 D h sh h' sh' → grows h h'.
Proof.
  intros [[-> _]|[-> (now & l & _ & _ & Hcheck)]]; [by left|right; split; [done|]].
  destruct (RateLimit.InMemory.check_at K lim W now l) as [r l']. destruct Hcheck as [_ ->].
  by destruct (lets_through r).
Qed.

Lemma may_grow h h' (ob : Obs GwE) : grows h h' → may h ob → may h' ob.
Proof. intros [->|[-> _]] Hmay; [done|]. intros Hsend. by destruct (Hmay Hsend). Qed.

Abbreviation phased_as := (phased (clock_in (in_period t0 D)) uses_memory (moves K lim W t0 D) may).

Lemma beside_phased p : beside gs K p → phased_as p Other.
Proof.
  intros [it' req Hreq|c n Hc]; [by apply other_phased|].
  eapply gates_mono, (gates_open _ _ _ _ (quiet K)); [done| |by right|].
  - intros sh sh' Hq. by left.
  - by apply (walk_task (HW := quota_walk Cache.list_order gs K)).
Qed.

Definition starts (req : Request) : phase := if keyed gs K req then Waiting else Other.

Lemma request_phased req :
  (∀ l w, limit_of gs req = Some (K, l, w) → l = lim ∧ w = W) →
  phased_as (request_task it gs req) (starts req).
Proof.
  unfold starts, keyed. intros Hreq. destruct (limit_of gs req) as [[[k l] w]|] eqn:Hlim.
  - destruct (String.eqb_spec k K) as [->|Hk].
    + destruct (Hreq l w eq_refl) as [-> ->]. by apply waiting_phased.
    + apply other_phased. congruence.
  - apply other_phased. congruence.
Qed.

(** All requests of the key that called an upstream went through. *)
Lemma callers_through reqs t hs :
  (∀ i h, (starts <$> reqs) !! i = Some h → ∃ h', hs !! i = Some h' ∧ grows h h') →
  Forall (λ io, ∃ h, hs !! io.1 = Some h ∧ may h io.2) t →
  (Z.of_nat (length (callers gs K reqs t)) ≤ through hs)%Z.
Proof.
  intros Hlater Hcalls. unfold through. rewrite <- positions_length.
  apply inj_le, submseteq_length, NoDup_submseteq; [apply NoDup_filter, NoDup_seq|].
  intros i [Hi Hseq]%list_elem_of_filter. destruct (reqs !! i) as [req|] eqn:Hreq; [|done].
  apply andb_true_iff in Hi as [Hkey (io & Hio & Hsend)%existsb_elem_of].
  apply andb_true_iff in Hsend as [<-%Nat.eqb_eq Hsend].
  rewrite Forall_forall in Hcalls. destruct (Hcalls io Hio) as (h & Hh & Hmay).
  destruct (Hlater io.1 Waiting) as (h' & Hh' & Hg).
  { rewrite list_lookup_fmap, Hreq. unfold starts; simpl. by rewrite Hkey. }
  simplify_eq. apply list_elem_of_filter. split.
  - destruct (Hmay Hsend) as [->| ->]; [done|]. by destruct Hg as [?|[_ ?]].
  - apply elem_of_seq. apply lookup_lt_Some in Hh. lia.
Qed.

Lemma none_through reqs : through (starts <$> reqs) = 0%Z.
Proof.
  unfold through. rewrite filter_none; [done|]. apply Forall_fmap, Forall_true. intros req.
  unfold starts; simpl. by case_match.
Qed.

Lemma mine_starts reqs : mine (starts <$> reqs) = length (filter (λ req, keyed gs K req = true) reqs).
Proof.
  unfold mine. induction reqs as [|req reqs IH]; [done|]. rewrite fmap_cons, !filter_cons.
  case_decide as Hs; case_decide as Hk; simpl; rewrite ?IH; [done| | |done];
    unfold starts in Hs; destruct (keyed gs K req); naive_solver.
Qed.
End run.

(** ** Properties *)

(** C6: the rate limit holds for the gateway as a whole. In a run whose clock stays within
    a period of any length, of all the requests of a key that arrive in it, interleaved in
    any way with each other, with other requests and with health checks, at most
    [limit * (period / window + 1)] make any upstream call: [limit] per window that can
    start in the period. If a window of the key was open at the start, what was left of
    its limit comes on top. The key has one limit and one window, the limiter is the
    in-memory one, and the requests of the key are at most so many that its [u32] counter
    cannot wrap. Retries of a request that was let through are not checked again. *)
Theorem rate_limit_bounds_calls `{WebLib, Auth.JwtLib, Profile} it gs K lim W t0 D
    reqs (sh : Shared AnyLimiter) l t ps' sh' :
  (0 < W)%Z → (0 ≤ lim)%Z → (0 ≤ D)%Z →
  Forall (λ req, ∀ l w, limit_of gs req = Some (K, l, w) → l = lim ∧ w = W) reqs →
  get_memory (sh_limiter sh) = Some l → (0 ≤ old_count (RateLimit.entry_of l K))%Z →
  (old_count (RateLimit.entry_of l K) + Z.of_nat (length (filter (λ req, keyed gs K req = true) reqs))
    ≤ u32_max)%Z →
  pool_trace (clock_in (in_period t0 D)) (beside gs K) (request_task it gs <$> reqs, sh) t (ps', sh') →
  (Z.of_nat (length (callers gs K reqs t)) ≤ lim * (D / W + 1) + credit lim (RateLimit.entry_of l K))%Z.
Proof.
  intros HW Hlim HD Hreqs Hmem Hold Hcount Htr.
  set (e0 := RateLimit.entry_of l K) in *. set (n := length _) in Hcount.
  assert (Hstart : in_account K lim W t0 D e0 n (starts gs K <$> reqs) sh).
  { split; [apply mine_starts|]. exists l. split; [done|]. unfold accounts. fold e0.
    pose proof (none_through gs K reqs) as Hnone. destruct e0 as [[s c]|] eqn:He0; [left|done].
    unfold in_old, spent, old_count in *. rewrite Hnone. split_and!; [done|simpl; lia..]. }
  destruct (pool_gates (clock_in (in_period t0 D)) (beside gs K) uses_memory (moves K lim W t0 D) may grows
    (moves_grow K lim W t0 D) may_grow (in_account K lim W t0 D e0 n) Other (starts gs K <$> reqs)
    (request_task it gs <$> reqs) sh t ps' sh') as (hs' & (_ & l' & _ & Hacc) & _ & Hlater & Hcalls);
    [|by apply account_moves|by apply account_new|by apply beside_phased|done|done| |].
  - intros hs sh1 (_ & l1 & Hl1 & _). by exists l1.
  - apply Forall2_fmap, Forall_Forall2_diag. eapply Forall_impl; [exact Hreqs|].
    intros req. apply request_phased.
  - pose proof (callers_through gs K reqs t hs' Hlater Hcalls) as Hle. etrans; [exact Hle|].
    assert (HD0 : (0 ≤ D / W)%Z) by (apply Z.div_pos; lia).
    pose proof (credit_pos lim e0) as Hcr.
    unfold accounts in Hacc. destruct (RateLimit.entry_of l' K) as [[s c]|]; [|nia].
    destruct Hacc as [(Hopen & _ & Hthr)|(Hs & _ & Hthr)]; cbn [fst snd] in *.
    + rewrite (old_credit lim e0 Hopen). assert (0 ≤ lim * (D / W + 1))%Z by nia. lia.
    + unfold room, in_period in *.
      assert (((s - t0) / W ≤ D / W)%Z) by (apply Z.div_le_mono; lia). nia.
Qed.

Import Demo.

(** One request per minute and client. *)
Definition quota_route : RouteConfig :=
  demo_route 0 None (Some {| rl_scope := ScopeIp; rl_limit := 1; rl_window_secs := 60 |}).

(** Two requests of one client, one after the other within a moment: one of them
    calls the upstream. *)
Lemma rate_limit_bounds_calls_witness :
  let gs := gateway quota_route in
  let sh := mkShared (sh_routes (shared quota_route)) (UseMemory RateLimit.InMemory.new) in
  let K := "r:ip:10.0.0.1"%string in
  let reqs := [get_request []; get_request []] in
  ∃ t ps' sh',
    pool_trace (clock_in (in_period 0 0)) (beside gs K) (request_task Cache.list_order gs <$> reqs, sh)
      t (ps', sh')
    ∧ called t 0 = true
    ∧ (Z.of_nat (length (callers gs K reqs t)) ≤ 1)%Z.
Proof.
  intros gs sh K reqs.
  set (o := alone_in (S := Shared AnyLimiter) (still (world first_fails))).
  set (p := request_task Cache.list_order gs (get_request [])).
  set (run1 := exec o p 0 sh). set (run2 := exec o p 0 (r_state run1)).
  assert (Ho : lawful eq (clock_in (in_period 0 0)) o) by (by apply still_lawful).
  assert (Htr : pool_trace (clock_in (in_period 0 0)) (beside gs K) ([p; p], sh)
    ((pair 0 <$> r_obs run1) ++ (pair 1 <$> r_obs run2))
    ([Done (r_out run1); Done (r_out run2)], r_state run2)).
  { eapply pool_trace_app.
    - by apply (exec_trace _ _ o 0 p [p; p] 0 sh Ho).
    - by apply (exec_trace _ _ o 1 p [Done (r_out run1); p] 0 (r_state run1) Ho). }
  eexists _, _, _. split_and!; [exact Htr|by vm_compute|].
  refine (rate_limit_bounds_calls Cache.list_order gs K 1 60000000000 0 0 reqs sh
    RateLimit.InMemory.new _ _ _ _ _ _ _ _ _ _ Htr); try done.
  assert (Hl : limit_of gs (get_request []) = Some (K, 1%Z, 60000000000%Z)) by by vm_compute.
  do 2 (apply Forall_cons; split; [intros l w; rewrite Hl; by intros [= <- <-]|]). by apply Forall_nil.
Defined.

End Quota.
