(* ===== verification/ProxyCalls.v ===== *)
(** What a request makes the gateway do, whatever the other tasks and the
    upstreams do: which upstream calls it makes, and what its response carries.
    The definitions are those of Proxy.v. *)
From S2P Require Import Prelude RustStd Prog Config Router Breaker RateLimit Cache.
From S2P Require Import Http Auth Transform Balancer Telemetry Events State Proxy Demo.
Import Config State Proxy.

Module ProxyCalls.

(** ** Balancer picks, from any state *)
Section picks.
Context {E : Type → Type} `{Clock E} {C : Type}.
Context (Ans : ∀ X, E X → X → Prop) (view : Obs E → option C).
Context (view_now : ∀ t, view (Called ev_now t) = None).

Lemma emits_now {S} Q :
  (∀ t, Q (Ret t) []) → emits Ans view (Instant_now : prog E S Instant) Q.
Proof. intros HQ t _. simpl. unfold seen. by rewrite view_now. Qed.

Lemma emits_eligible i : emits Ans view (Balancer.eligible i) (λ _ cs, cs = []).
Proof.
  intros [[]|m|]; simpl; [|done..]. intros now _ x. simpl. unfold seen. rewrite view_now.
  by destruct x.
Qed.

Lemma emits_admits ex i :
  emits Ans view (Balancer.admits ex i) (λ o cs, cs = [] ∧ (o = Ret true → i ∉ ex)).
Proof.
  unfold Balancer.admits. case_bool_decide; [done|].
  eapply emits_mono; [|apply emits_eligible]. by intros o cs ->.
Qed.

(** An index found is one of those looked at, and not an excluded one. *)
Definition found (ex : list nat) (o : Outcome (option nat)) (cs : list C) : Prop :=
  cs = [] ∧ ∀ i, o = Ret (Some i) → i ∉ ex.

Lemma emits_find ex idxs : emits Ans view (Balancer.find_eligible ex idxs) (found ex).
Proof.
  induction idxs as [|i idxs IH]; [done|].
  eapply emits_quiet_bind; [apply emits_admits| |done|done].
  intros [] Hi; [|exact IH]. split; [done|]. intros j [= <-]. auto.
Qed.

Lemma emits_rr b ex k : emits Ans view (Balancer.rr_loop b ex k) (found ex).
Proof.
  induction k as [|k IH]; [apply emits_find|].
  intros [c|m|]; simpl; [|done..]. case_match; [|done].
  eapply emits_quiet_bind; [apply emits_admits| |done|done].
  intros [] Hi; [|exact IH]. split; [done|]. intros j [= <-]. auto.
Qed.

Lemma emits_least ex idxs best :
  (∀ j a, best = Some (j, a) → j ∉ ex) →
  emits Ans view (Balancer.least_loop ex idxs best) (found ex).
Proof.
  revert best. induction idxs as [|i idxs IH]; intros best Hb.
  { split; [done|]. intros j [= Hj]. destruct best as [[j' a]|]; [|done].
    injection Hj as <-. eauto. }
  eapply emits_quiet_bind; [apply emits_admits| |done|done].
  intros [] Hi; [|by apply IH]. intros [a|m|]; simpl; [|done..].
  apply IH. intros j a' Hj. destruct best as [[j' aj]|]; [case_match|]; simplify_eq; eauto.
Qed.

Lemma emits_pick b ex :
  emits Ans view (Balancer.pick b ex)
    (λ o cs, cs = [] ∧ ∀ i up, o = Ret (Some (i, up)) →
       Balancer.upstreams b !! i = Some up ∧ i ∉ ex).
Proof.
  eapply (emits_quiet_bind _ _ _ _ (λ o, found ex o [])).
  - destruct (Balancer.strategy b).
    + eapply emits_mono; [|apply emits_rr]. intros o cs [-> Hf]. by split_and!.
    + eapply emits_mono; [|apply emits_least; done]. intros o cs [-> Hf]. by split_and!.
  - intros [i|] [_ Hf]; [|done]. destruct (Balancer.upstreams b !! i) as [up|] eqn:Hup; [|done].
    intros [[]|m|]; simpl; [|done..]. split; [done|]. intros i' up' [= <- <-]. auto.
  - done.
  - done.
Qed.
End picks.

(** ** The calls of a request *)
Section calls.
Context `{WebLib, Auth.JwtLib, Profile}.
Context {L : Type} `{RateLimit.RateLimiter GwE L}.
Context (it : Cache.hash_order) (gs : GatewayState).

Abbreviation Call := (SendRequest * option (Result SendError UpstreamResponse))%type.
Abbreviation Gw := (prog GwE (Shared L)).

Definition any_answer : ∀ X, GwE X → X → Prop := λ _ _ _, True.

Abbreviation does := (emits any_answer call_of).

Definition quiet {A} (p : Gw A) : Prop := does p (λ _ cs, cs = []).

(** After a part that makes no call. *)
Lemma does_quiet {A B} (p : Gw A) (k : A → Gw B) Q :
  quiet p → (∀ a, does (k a) Q) → (∀ m, Q (Panic m) []) → Q Cancelled [] →
  does (p ≫= k) Q.
Proof.
  intros Hp Hk. apply emits_quiet_bind with (O := λ _, True); [|auto].
  eapply emits_mono; [|exact Hp]. by intros o cs ->.
Qed.

Lemma quiet_bind {A B} (p : Gw A) (k : A → Gw B) :
  quiet p → (∀ a, quiet (k a)) → quiet (p ≫= k).
Proof. intros Hp Hk. by apply does_quiet. Qed.

Lemma quiet_ret {A} (a : A) : quiet (mret a).
Proof. done. Qed.

Lemma quiet_metric d ls op : quiet (metric d ls op).
Proof. unfold quiet, metric. by case_match. Qed.

Lemma quiet_now : quiet Instant_now.
Proof. done. Qed.

Lemma quiet_uuid : quiet (ext EUuid).
Proof. done. Qed.

Lemma quiet_read_body n : quiet (await (EReadBody n)).
Proof. done. Qed.

Lemma quiet_read_response : quiet (await EReadResponse).
Proof. done. Qed.

Lemma quiet_act_on_breaker {A} name i (f : Breaker.CircuitBreaker → Outcome A * Breaker.CircuitBreaker) :
  quiet (on_breaker name i (act f)).
Proof. done. Qed.

Lemma quiet_record_failure name i : quiet (on_breaker name i Breaker.record_failure).
Proof. done. Qed.

Lemma quiet_cache_get name k : quiet (on_cache name (Cache.get k)).
Proof. done. Qed.

Lemma quiet_cache_put name k st hs b : quiet (on_cache name (Cache.put it k st hs b)).
Proof. done. Qed.

Lemma quiet_record route m st started : quiet (record route m st started).
Proof.
  apply quiet_bind; [apply quiet_metric|intros _].
  apply quiet_bind; [apply quiet_now|intros now]. apply quiet_metric.
Qed.
End calls.
#[export] Hint Resolve quiet_ret quiet_metric quiet_now quiet_uuid quiet_read_body
  quiet_read_response quiet_act_on_breaker quiet_record_failure quiet_cache_get
  quiet_cache_put quiet_record : gw.

(** The events of a limiter: the clock and Redis. *)
Definition limiter_event `{Http} {X} (e : GwE X) : bool :=
  match e with
  | ENowG | ERedisIncr _ | ERedisExpire _ _ | ERedisTtl _ => true
  | _ => false
  end.

(** A limiter that does nothing else. *)
Class QuietLimiter `{Http} L `{RateLimit.RateLimiter GwE L} : Prop :=
  check_quiet : ∀ C (view : Obs GwE → option C) Ans key lim window,
    (∀ X (e : GwE X) a, limiter_event e = true → view (Called e a) = None) →
    emits Ans view (RateLimit.check key lim window : prog GwE L _) (λ _ cs, cs = []).

#[export] Instance quiet_in_memory `{Http, Profile} : QuietLimiter RateLimit.InMemory.Limiter.
Proof.
  intros C view Ans key lim window Hv now _. simpl. intros [d|m|]; simpl;
    unfold seen; by rewrite Hv.
Qed.

#[export] Instance quiet_redis `{Http} : QuietLimiter RateLimit.Redis.Limiter.
Proof.
  intros C view Ans key lim window Hv.
  assert (Hs : ∀ X (e : GwE X) a, limiter_event e = true → seen view (Called e a) = []).
  { intros X e a He. unfold seen. by rewrite Hv. }
  split; [|simpl; by rewrite Hs]. intros [count|e] _; simpl; [|by rewrite Hs].
  destruct (count =? 1)%Z; repeat split; try (by intros; simpl; rewrite !Hs);
    simpl; by rewrite !Hs.
Qed.

#[export] Instance quiet_any `{Http, Profile} : QuietLimiter AnyLimiter.
Proof.
  intros C view Ans key lim window Hv.
  apply emits_quiet_bind with (O := λ _, True); [done| |done..].
  intros [] _; apply emits_zoom; [by apply quiet_redis|by apply quiet_in_memory].
Qed.

Section discipline.
Context `{WebLib, Auth.JwtLib, Profile}.
Context {L : Type} `{!RateLimit.RateLimiter GwE L, !QuietLimiter L}.
Context (it : Cache.hash_order) (gs : GatewayState).

Abbreviation Call := (SendRequest * option (Result SendError UpstreamResponse))%type.
Abbreviation does := (emits any_answer call_of).

(** The answers after which the code tries another upstream: a server error for
    a method that may be repeated, a failed connection for any method. *)
Definition retriable (method : string) (answer : option (Result SendError UpstreamResponse))
    : bool :=
  match answer with
  | Some (Ok resp) => is_idempotent method && StatusCode_is_server_error (ur_status resp)
  | Some (Err e) => is_idempotent method || is_connect e
  | None => false
  end.

(** The call goes to upstream [idx] of the route and carries the request. *)
Definition targets (a : Attempts) (idx : nat) (c : Call) : Prop :=
  ∃ up, Balancer.upstreams (rt_balancer (at_runtime a)) !! idx = Some up
        ∧ c.1 = upstream_request a up.

(** At most [k] calls, to distinct upstreams outside [ex], each but the last
    with an answer that may be retried. *)
Definition disciplined (a : Attempts) (k : nat) (ex : list nat) (cs : list Call) : Prop :=
  length cs ≤ k ∧
  (∃ idxs, NoDup idxs ∧ Forall (λ i, i ∉ ex) idxs ∧ Forall2 (targets a) idxs cs) ∧
  ∀ j c, S j < length cs → cs !! j = Some c → retriable (at_method a) c.2 = true.

Lemma disciplined_nil a k ex : disciplined a k ex [].
Proof.
  split_and!; [simpl; lia| |done]. exists []. split_and!; constructor.
Qed.

Lemma disciplined_one a k ex idx up ans :
  Balancer.upstreams (rt_balancer (at_runtime a)) !! idx = Some up → idx ∉ ex →
  disciplined a (S k) ex [(upstream_request a up, ans)].
Proof.
  intros Hup Hex. split_and!; [simpl; lia| |].
  - exists [idx]. split_and!; [apply NoDup_singleton|by apply Forall_singleton|].
    apply Forall2_cons. split; [by exists up|constructor].
  - intros j c Hj. simpl in Hj. lia.
Qed.

Lemma disciplined_cons a k ex idx up ans cs :
  Balancer.upstreams (rt_balancer (at_runtime a)) !! idx = Some up → idx ∉ ex →
  retriable (at_method a) ans = true →
  disciplined a k (ex ++ [idx]) cs →
  disciplined a (S k) ex ((upstream_request a up, ans) :: cs).
Proof.
  intros Hup Hex Hans (Hlen & (idxs & Hnd & Hout & Htg) & Hretry). split_and!.
  - simpl. lia.
  - exists (idx :: idxs). rewrite Forall_forall in Hout. split_and!.
    + apply NoDup_cons. split; [|done]. intros Hin. apply (Hout _ Hin). set_solver.
    + apply Forall_cons. split; [done|]. apply Forall_forall. intros i Hi.
      specialize (Hout _ Hi). set_solver.
    + apply Forall2_cons. split; [by exists up|done].
  - intros [|j] c Hj Hc; simpl in *; [by injection Hc as <-|].
    apply (Hretry j); [lia|done].
Qed.

(** One attempt on a picked upstream makes one call (none, when it fails before)
    and asks for another attempt only after an answer that may be retried. *)
Definition tried (a : Attempts) (more : bool) (idx : nat) (up : Balancer.Upstream)
    (o : Outcome Flow) (cs : list Call) : Prop :=
  (cs = [] ∨ ∃ ans, cs = [(upstream_request a up, ans)])
  ∧ ∀ j, o = Ret (Continue j) → j = idx ∧ more = true
      ∧ ∃ ans, cs = [(upstream_request a up, ans)] ∧ retriable (at_method a) ans = true.

Lemma quiet_finish rt name m st hs ce ck corr started :
  quiet (finish_response (L := L) it rt name m st hs ce ck corr started).
Proof.
  apply quiet_bind; [auto with gw|intros _]. case_match; [|apply quiet_ret].
  apply quiet_bind; [auto with gw|]. intros [bytes|e]; [|apply quiet_ret].
  apply quiet_bind; [case_match; auto with gw|]. intros _. apply quiet_ret.
Qed.

Lemma does_try a more idx up :
  does (try_upstream (L := L) it a more idx up) (tried a more idx up).
Proof.
  apply does_quiet; [auto with gw| |by split; [left|]..]. intros start.
  eapply emits_bind with (P := λ o cs, ∃ ans, cs = [(upstream_request a up, ans)]
    ∧ o = match ans with Some r => Ret r | None => Cancelled end).
  - split; simpl; eauto.
  - intros result cs (ans & -> & Ho). destruct ans as [r|]; [injection Ho as <-|done].
    assert (Hret : ∀ resp, tried a more idx up (Ret (Return resp))
              ([(upstream_request a up, Some result)] ++ [])) by (split; [right; eauto|done]).
    assert (Hm : ∀ m, tried a more idx up (Panic m)
              ([(upstream_request a up, Some result)] ++ [])) by (split; [right; eauto|done]).
    assert (Hc : tried a more idx up Cancelled
              ([(upstream_request a up, Some result)] ++ [])) by (split; [right; eauto|done]).
    do 4 (apply does_quiet; [auto with gw|intros ?|auto..]).
    assert (Hfin : ∀ resp, does
      (r ← finish_response (L := L) it (at_runtime a) (at_route a) (at_method a) (ur_status resp)
             (ur_headers resp) (at_cache_enabled a) (at_cache_key a) (at_correlation a)
             (at_started a); mret (Return r))
      (λ o cs, tried a more idx up o ([(upstream_request a up, Some result)] ++ cs))).
    { intros resp. apply does_quiet; [apply quiet_finish| |auto..].
      intros r. apply Hret. }
    destruct result as [resp|e].
    + cbv zeta. destruct (StatusCode_is_server_error (ur_status resp)) eqn:Es.
      * do 2 (apply does_quiet; [auto with gw|intros ?|auto..]).
        destruct (is_idempotent (at_method a) && more) eqn:Er; [|apply Hfin].
        apply andb_true_iff in Er as [Hid Hmore]. split; [right; eauto|].
        intros j [= <-]. split_and!; [done..|]. eexists. split; [reflexivity|].
        simpl. by rewrite Hid, Es.
      * apply does_quiet; [auto with gw|intros _; apply Hfin|auto..].
    + do 2 (apply does_quiet; [auto with gw|intros ?|auto..]).
      destruct ((is_idempotent (at_method a) || is_connect e) && more) eqn:Er.
      * apply andb_true_iff in Er as [Hid Hmore]. split; [right; eauto|].
        intros j [= <-]. split_and!; [done..|]. eexists. split; [reflexivity|]. done.
      * apply does_quiet; [auto with gw|intros _; apply Hret|auto..].
  - intros m cs (ans & -> & Ho). by destruct ans.
  - intros cs (ans & -> & _). split; [right; eauto|done].
Qed.

Lemma does_attempts a k ex :
  does (attempts (L := L) it a k ex) (λ _ cs, disciplined a k ex cs).
Proof.
  revert ex. induction k as [|k IH]; intros ex.
  { apply does_quiet; [auto with gw|intros _; apply disciplined_nil|
      intros ?; apply disciplined_nil|apply disciplined_nil]. }
  eapply emits_bind with (P := λ o cs, disciplined a (S k) ex cs ∧
    ∀ j, o = Ret (Continue j) → ∃ up ans, (j ∉ ex)
      ∧ Balancer.upstreams (rt_balancer (at_runtime a)) !! j = Some up
      ∧ cs = [(upstream_request a up, ans)] ∧ retriable (at_method a) ans = true).
  - eapply emits_quiet_bind; [apply emits_zoom, emits_pick; done| | |].
    + intros [[idx up]|] Hpick.
      * destruct (Hpick _ _ eq_refl) as [Hup Hex].
        apply emits_finally. eapply emits_mono; [|apply does_try].
        intros o cs [Hcs Hcont]. split.
        -- destruct Hcs as [->|[ans ->]]; [apply disciplined_nil|by eapply disciplined_one].
        -- intros j Hj. destruct (Hcont j Hj) as (-> & _ & ans & -> & Hr). by exists up, ans.
      * apply does_quiet; [auto with gw| | |]; split; try done; apply disciplined_nil.
    + split; [apply disciplined_nil|done].
    + split; [apply disciplined_nil|done].
  - intros [j|r] cs [Hcs Hcont].
    + destruct (Hcont j eq_refl) as (up & ans & Hex & Hup & -> & Hr).
      eapply emits_mono; [|apply IH]. intros o cs' Hd. by eapply disciplined_cons.
    + simpl. by rewrite app_nil_r.
  - by intros m cs [Hcs _].
  - by intros cs [Hcs _].
Qed.

(** What a request may do: nothing, or disciplined calls once it is matched and
    authorised. *)
Definition calls_of (req : Request) (cs : list Call) : Prop :=
  cs = [] ∨ ∃ r rt a,
    Router.match_route (gs_config gs) (Some (host_of (headers req))) (uri_path (uri req)) = Some r
    ∧ route gs (rc_name r) = Some rt
    ∧ Auth.authorize (rc_auth (rt_config rt)) (headers req) = Ok ()
    ∧ at_runtime a = rt ∧ at_method a = method req
    ∧ at_path_and_query a = path_and_query req rt
    ∧ at_headers a = forwarded_headers req rt (at_correlation a)
    ∧ at_timeout a = request_timeout gs rt
    ∧ (∀ c, get_str (headers req) CORRELATION_HEADER = Some c → at_correlation a = c)
    ∧ disciplined a (Z.to_nat (max_attempts (rt_config rt))) [] cs.

Lemma does_forward req r rt corr started ce ck :
  Router.match_route (gs_config gs) (Some (host_of (headers req))) (uri_path (uri req)) = Some r →
  route gs (rc_name r) = Some rt →
  Auth.authorize (rc_auth (rt_config rt)) (headers req) = Ok () →
  (∀ c, get_str (headers req) CORRELATION_HEADER = Some c → corr = c) →
  does (forward (L := L) it gs req rt (rc_name r) corr started ce ck)
    (λ _ cs, calls_of req cs).
Proof.
  intros Hm Hrt Hauth Hc. apply does_quiet; [auto with gw| |by left..].
  intros [body|e].
  - eapply emits_mono; [|apply does_attempts]. intros o cs Hd. right.
    eexists r, rt, _. split_and!; [..|exact Hd]; done.
  - apply does_quiet; [auto with gw|intros _; by left|by left..].
Qed.

Lemma does_handle req :
  does (handle (L := L) it gs req) (λ _ cs, calls_of req cs).
Proof.
  assert (Hn : calls_of req []) by by left.
  apply does_quiet; [auto with gw|intros _|done..].
  apply does_quiet; [auto with gw|intros _|done..].
  eapply emits_bind with (P := λ _ cs, calls_of req cs); [| |done..].
  2: { intros resp cs Hcs. rewrite <- (app_nil_r cs) in Hcs.
       apply does_quiet; [auto with gw|intros _|..]; done. }
  apply does_quiet; [auto with gw|intros started|done..].
  eapply emits_quiet_bind with (O := λ o, ∀ corr, o = Ret corr → ∀ c,
    get_str (headers req) CORRELATION_HEADER = Some c → corr = c); [| |done..].
  { destruct (get_str (headers req) CORRELATION_HEADER) as [c|]; [|done].
    split; [done|]. by intros corr [= <-] c' [= <-]. }
  intros corr Hcorr. specialize (Hcorr corr eq_refl).
  destruct (Router.match_route _ _ _) as [r|] eqn:Hm.
  2: { apply does_quiet; [auto with gw|intros _|..]; done. }
  cbv zeta. destruct (route gs (rc_name r)) as [rt|] eqn:Hrt; [|exact Hn].
  destruct (Auth.authorize _ _) as [[]|reason] eqn:Hauth.
  2: { do 2 (apply does_quiet; [auto with gw|intros _|done..]). done. }
  assert (Hlook : does (lookup_and_forward (L := L) it gs req rt (rc_name r) corr started)
            (λ _ cs, calls_of req cs)).
  { unfold lookup_and_forward. case_match; [|by apply does_forward].
    apply does_quiet; [auto with gw| |done..]. intros [hit|].
    - do 2 (apply does_quiet; [auto with gw|intros _|done..]). done.
    - apply does_quiet; [auto with gw|intros _; by apply does_forward|done..]. }
  unfold limit_and_forward. destruct (rc_rate_limit (rt_config rt)) as [rl|]; [|done].
  apply does_quiet; [apply emits_zoom, check_quiet; by intros X []| |done..]. intros d.
  case_match; [|done]. do 2 (apply does_quiet; [auto with gw|intros _|done..]). done.
Qed.

Lemma handle_calls o n sh req :
  calls_of req (calls (r_obs (exec o (handle (L := L) it gs req) n sh))).
Proof.
  apply (emits_exec any_answer call_of (λ _ _, True) (handle it gs req) (λ _ cs, calls_of req cs)
           o n sh); [done|apply does_handle].
Qed.
End discipline.

(** ** Properties *)

(** C2: an upstream is called only for a request that a route matches and whose
    credentials that route accepts; every call carries the request's method, its
    path (without the prefix, when the route strips it) and query, the forwarded
    headers with the request id, one and the same body, and the route's timeout.
    This holds whatever the other requests, the upstreams and Redis do. *)
Theorem calls_are_authorised `{WebLib, Auth.JwtLib, Profile} {L}
    `{!RateLimit.RateLimiter GwE L, !QuietLimiter L} it gs o n (sh : Shared L) req :
  let cs := calls (r_obs (exec o (handle it gs req) n sh)) in
  cs ≠ [] →
  ∃ r rt id body,
    Router.match_route (gs_config gs) (Some (host_of (headers req))) (uri_path (uri req)) = Some r
    ∧ route gs (rc_name r) = Some rt
    ∧ Auth.authorize (rc_auth (rt_config rt)) (headers req) = Ok ()
    ∧ (∀ c, get_str (headers req) CORRELATION_HEADER = Some c → id = c)
    ∧ Forall (λ c, ∃ up, up ∈ Balancer.upstreams (rt_balancer rt) ∧
          c.1 = mkSend (method req) (Balancer.url up +:+ path_and_query req rt)
                  (forwarded_headers req rt id) body (request_timeout gs rt)) cs.
Proof.
  intros cs Hne. destruct (handle_calls it gs o n sh req)
    as [?|(r & rt & a & Hm & Hrt & Hauth & Hart & Hmeth & Hpq & Hhs & Hto & Hid & _ & Htg & _)];
    [done|].
  exists r, rt, (at_correlation a), (at_body a). split_and!; [done..|].
  destruct Htg as (idxs & _ & _ & Htg). fold cs in Htg.
  clear Hne. induction Htg as [|idx c idxs cs' (up & Hup & Hc) _ IH]; constructor; [|done].
  exists up. rewrite Hart in Hup. split; [by eapply list_elem_of_lookup_2|].
  rewrite Hc. unfold upstream_request. by rewrite Hmeth, Hpq, Hhs, Hto.
Qed.

(** C1: a request is tried at most [retries + 1] times, on pairwise different
    upstreams of its route; each call but the last was answered by a server error
    (and the method may be repeated) or failed (and the method may be repeated, or
    the connection was never made). *)
Theorem retry_discipline `{WebLib, Auth.JwtLib, Profile} {L}
    `{!RateLimit.RateLimiter GwE L, !QuietLimiter L} it gs o n (sh : Shared L) req r rt :
  Router.match_route (gs_config gs) (Some (host_of (headers req))) (uri_path (uri req)) = Some r →
  route gs (rc_name r) = Some rt →
  let cs := calls (r_obs (exec o (handle it gs req) n sh)) in
  (Z.of_nat (length cs) ≤ max_attempts (rt_config rt))%Z
  ∧ (∃ idxs, NoDup idxs ∧ Forall2 (λ idx c, ∃ up,
       Balancer.upstreams (rt_balancer rt) !! idx = Some up
       ∧ sr_url c.1 = (Balancer.url up +:+ path_and_query req rt)%string) idxs cs)
  ∧ ∀ j c, S j < length cs → cs !! j = Some c →
      match c.2 with
      | Some (Ok resp) =>
          is_idempotent (method req) = true ∧ StatusCode_is_server_error (ur_status resp) = true
      | Some (Err e) => is_idempotent (method req) = true ∨ is_connect e = true
      | None => False
      end.
Proof.
  intros Hm Hrt cs. destruct (handle_calls it gs o n sh req)
    as [Hnil|(r' & rt' & a & Hm' & Hrt' & _ & Hart & Hmeth & Hpq & _ & _ & _ & Hlen & Htg & Hre)].
  - fold cs in Hnil. rewrite Hnil. unfold max_attempts. split_and!; [simpl; lia| |done].
    exists []. split; constructor.
  - fold cs in Hlen, Htg, Hre.
    assert (r' = r) as -> by congruence. assert (rt' = rt) as -> by congruence.
    unfold max_attempts in *. split_and!; [lia| |].
    + destruct Htg as (idxs & Hnd & _ & Htg). exists idxs. split; [done|].
      eapply Forall2_impl; [exact Htg|]. intros idx c (up & Hup & Hc).
      exists up. rewrite Hart in Hup. split; [done|]. rewrite Hc. simpl. by rewrite Hpq.
    + intros j c Hj Hc. specialize (Hre j c Hj Hc). rewrite Hmeth in Hre.
      unfold retriable in Hre. destruct c.2 as [[resp|e]|]; [|by apply orb_true_iff|done].
      by apply andb_true_iff.
Qed.

Import Demo.

(** One route, two upstreams, one retry: the first answer is a server error. *)
Definition demo_run : Run GwE (Shared RateLimit.InMemory.Limiter) Response :=
  run_in (world first_fails) (demo_route 1 None None) (get_request []).

Lemma calls_are_authorised_witness :
  ∃ rt id body,
    route (gateway (demo_route 1 None None)) "r" = Some rt
    ∧ Auth.authorize (rc_auth (rt_config rt)) (headers (get_request [])) = Ok ()
    ∧ Forall (λ c, ∃ up, up ∈ Balancer.upstreams (rt_balancer rt) ∧
          c.1 = mkSend "GET" (Balancer.url up +:+ path_and_query (get_request []) rt)
                  (forwarded_headers (get_request []) rt id) body
                  (request_timeout (gateway (demo_route 1 None None)) rt))
        (calls (r_obs demo_run)).
Proof.
  destruct (calls_are_authorised Cache.list_order (gateway (demo_route 1 None None))
    (alone_in (world first_fails)) 0 (shared (demo_route 1 None None)) (get_request []))
    as (r & rt & id & body & Hm & Hrt & Hauth & _ & Hall).
  - intros Hnil%(f_equal length). vm_compute in Hnil. discriminate.
  - exists rt, id, body. vm_compute in Hm. injection Hm as <-.
    split_and!; [exact Hrt|exact Hauth|exact Hall].
Defined.

Lemma retry_discipline_witness :
  length (calls (r_obs demo_run)) = 2 ∧ (Z.of_nat (length (calls (r_obs demo_run))) ≤ 2)%Z.
Proof.
  split; [by vm_compute|].
  destruct (retry_discipline Cache.list_order (gateway (demo_route 1 None None))
    (alone_in (world first_fails)) 0 (shared (demo_route 1 None None)) (get_request [])
    (demo_route 1 None None) (from_config (demo_route 1 None None)).1) as (Hlen & _ & _).
  - by vm_compute.
  - by vm_compute.
  - exact Hlen.
Defined.

End ProxyCalls.
