(* ===== verification/Protocol.v ===== *)
(** How a request deals with the upstreams it tries: it calls one only after seeing
    it healthy and being let through by its breaker, holds a guard while it does, and
    reports the answer to that breaker before it goes on.  The logic is that of
    Writes.v; the definitions are those of Balancer.v, Breaker.v and Proxy.v. *)
From S2P Require Import Prelude RustStd Prog Pool Writes Config Router Breaker RateLimit Cache.
From S2P Require Import Http Auth Transform Balancer Telemetry Events State Proxy Walk Path ProxyCalls Demo.
Import Config State Proxy.

Module Protocol.

Section deeds.
Context `{Http}.

Abbreviation Answer := (Result SendError UpstreamResponse).

(** What a request does with upstream [i] of its route. *)
Inductive Deed : Type :=
| Healthy (i : nat)                           (* saw its health flag up *)
| Allowed (i : nat)                          (* its breaker allowed a call *)
| Taken (i : nat)                             (* took its guard *)
| Sent (r : SendRequest) (a : option Answer)  (* made a call; [None]: dropped *)
| Reported (i : nat) (ok : bool)              (* recorded a success or a failure *)
| Released (i : nat).                         (* dropped its guard *)

Definition deed_of (ob : Obs GwE) : option Deed := (λ '(r, a), Sent r a) <$> call_of ob.

(** What the code takes for a success: any answer but a server error. *)
Definition succeeded (a : Answer) : bool :=
  match a with Ok resp => negb (StatusCode_is_server_error (ur_status resp)) | Err _ => false end.

(** ** The deeds on one balancer *)
Section bal.
Context `{Profile}.
Implicit Types s : Balancer.BalState.

Definition reports (ok : bool) (cb cb' : Breaker.CircuitBreaker) : Prop :=
  if ok then cb' = (Breaker.record_success cb).2
  else ∃ now, cb' = (Breaker.record_failure_at now cb).2.

Definition bal_deed (d : Deed) s s' : Prop :=
  match d with
  | Healthy i => s' = s ∧ ∃ u, Balancer.ups s !! i = Some u ∧ Balancer.healthy u = true
  | Allowed i => ∃ cb now cb', Balancer.get_breaker i s = Some cb
      ∧ Breaker.allow_at now cb = (Ret true, cb') ∧ s' = Balancer.set_breaker i cb' s
  | Taken i => s' = (Balancer.guard_new i s).2
  | Reported i ok => ∃ cb cb', Balancer.get_breaker i s = Some cb ∧ reports ok cb cb'
      ∧ s' = Balancer.set_breaker i cb' s
  | Sent _ _ | Released _ => False
  end.

(** The other actions: they change no count, and a breaker only as a call of
    [allow_at] does. *)
Definition probes (u u' : Balancer.UpstreamState) : Prop :=
  Balancer.active u' = Balancer.active u
  ∧ (Balancer.breaker u' = Balancer.breaker u
     ∨ ∃ now, Balancer.breaker u' = (Breaker.allow_at now (Balancer.breaker u)).2).

Definition bal_quiet s s' : Prop :=
  ∀ i u', Balancer.ups s' !! i = Some u' → ∃ u, Balancer.ups s !! i = Some u ∧ probes u u'.

Abbreviation tells_bal := (tells bal_quiet bal_deed deed_of True).

Lemma bal_same s s' : Balancer.ups s' = Balancer.ups s → bal_quiet s s'.
Proof. intros Heq i u. rewrite Heq. exists u. split; [done|]. split; [done|by left]. Qed.

Lemma bal_probed i cb cb' s :
  Balancer.get_breaker i s = Some cb → cb' = cb ∨ (∃ now, cb' = (Breaker.allow_at now cb).2) →
  bal_quiet s (Balancer.set_breaker i cb' s).
Proof.
  unfold Balancer.get_breaker. intros Hcb Hcb' j u'. simpl. destruct (decide (j = i)) as [->|Hj].
  - rewrite list_lookup_alter_eq. intros (u & Hu & ->)%fmap_Some. exists u. split; [done|].
    rewrite Hu in Hcb. injection Hcb as <-. by split.
  - rewrite list_lookup_alter_ne by done. intros Hu'. exists u'. split; [done|]. split; [done|by left].
Qed.
(** Looking for an upstream: flags seen and calls allowed, until one is chosen whose
    flag was up right before its breaker let it through. *)
Definition is_look (d : Deed) : bool :=
  match d with Healthy _ | Allowed _ => true | _ => false end.
Abbreviation looks := (Forall (λ d, is_look d = true)).
#[local] Hint Resolve List.Forall_nil List.Forall_cons : core.
Definition looked (i : nat) (ds : list Deed) : Prop :=
  ∃ pre post, ds = pre ++ [Healthy i; Allowed i] ++ post.

Lemma looked_app i ds ds' : looked i ds ∨ looked i ds' → looked i (ds ++ ds').
Proof.
  intros [(pre & post & ->)|(pre & post & ->)].
  - exists pre, (post ++ ds'). by rewrite <- !app_assoc.
  - exists (ds ++ pre), post. by rewrite <- !app_assoc.
Qed.

Lemma tells_eligible i :
  tells_bal (Balancer.eligible i) (λ o ds, looks ds ∧ (o = Ret true → looked i ds)).
Proof.
  split; [|by split; [constructor|]]. intros s. destruct (Balancer.ups s !! i) as [u|] eqn:Hu; simpl.
  2: { left. by split; [apply bal_same|]. }
  destruct (Balancer.healthy u) eqn:Hh; [|left; by split; [apply bal_same|]].
  right. exists (Healthy i). split; [split; [done|by exists u]|]. intros now.
  split; [|intros m; split; [by repeat constructor|done]]. intros s2.
  destruct (Balancer.get_breaker i s2) as [cb|] eqn:Hcb; simpl.
  2: { left. split; [by apply bal_same|]. by split; [repeat constructor|]. }
  destruct (Breaker.allow_at now cb) as [r cb'] eqn:Ha; simpl.
  assert (Hq : bal_quiet s2 (Balancer.set_breaker i cb' s2)).
  { eapply bal_probed; [done|]. right. exists now. by rewrite Ha. }
  destruct r as [[]|m|]; [right|left; (split; [done|]); by split; [repeat constructor|]..].
  exists (Allowed i). split; [by exists cb, now, cb'|].
  split; [by repeat constructor|]. intros _. by exists [], [].
Qed.

Lemma tells_admits ex i :
  tells_bal (Balancer.admits ex i) (λ o ds, looks ds ∧ (o = Ret true → looked i ds)).
Proof. unfold Balancer.admits. case_bool_decide; [done|]. apply tells_eligible. Qed.

(** The index found is one that was looked at, or the best so far. *)
Definition found (best : option nat) (o : Outcome (option nat)) (ds : list Deed) : Prop :=
  looks ds ∧ ∀ i, o = Ret (Some i) → looked i ds ∨ best = Some i.

(** Look at upstream [i], then go on. *)
Lemma found_after ex i (k : bool → prog GwE Balancer.BalState (option nat)) best :
  (∀ ds, looks ds → looked i ds → tells_bal (k true) (λ o ds', found best o (ds ++ ds'))) →
  tells_bal (k false) (found best) →
  tells_bal (Balancer.admits ex i ≫= k) (found best).
Proof.
  intros Htrue Hfalse. apply tells_bind. eapply tells_mono; [|apply tells_admits].
  intros [[]|m|] ds [Hds Hi]; cbn [on_ret].
  - auto.
  - eapply tells_mono; [|exact Hfalse]. intros o ds' [Hds' Ho]. split; [by apply Forall_app|].
    intros j Hj. destruct (Ho j Hj); [left; apply looked_app; by right|by right].
  - split; [by rewrite app_nil_r|done].
  - split; [by rewrite app_nil_r|done].
Qed.

Lemma found_chosen i ds : looks ds → looked i ds → found None (Ret (Some i)) (ds ++ []).
Proof. intros Hds Hi. rewrite app_nil_r. split; [done|]. intros j [= <-]. by left. Qed.

Lemma tells_find ex idxs : tells_bal (Balancer.find_eligible ex idxs) (found None).
Proof.
  induction idxs as [|i idxs IH]; [done|]. apply found_after; [|exact IH].
  intros ds. apply found_chosen.
Qed.

Lemma tells_rr b ex k : tells_bal (Balancer.rr_loop b ex k) (found None).
Proof.
  induction k as [|k IH]; [apply tells_find|]. split; [|done]. intros s. left.
  split; [by apply bal_same|]. simpl. destruct (Balancer.rr_order b !! _) as [i|]; [|done].
  apply found_after; [|exact IH]. intros ds. apply found_chosen.
Qed.

Lemma tells_least ex idxs best :
  tells_bal (Balancer.least_loop ex idxs best) (found (fst <$> best)).
Proof.
  revert best. induction idxs as [|i idxs IH]; intros best; cbn [Balancer.least_loop].
  { split; [done|]. intros i [= Hi]. by right. }
  apply found_after; [|apply IH]. intros ds Hds Hi. apply tells_bind.
  eapply tells_mono with (Q := λ _ ds', ds' = []).
  - intros [a|m|] ds' ->; cbn [on_ret].
    2-3: split; [by rewrite app_nil_r|done].
    eapply tells_mono; [|apply IH]. intros o ds' [Hds' Ho]. split; [by apply Forall_app|].
    intros j Hj. destruct (Ho j Hj) as [|Hb]; [left; apply looked_app; by right|].
    destruct best as [[j' aj]|]; [case_match|]; simplify_eq/=; auto using looked_app.
  - split; [|done]. intros s. left. split; [|by case_match]. apply bal_same. by case_match.
Qed.

(** A pick that returned an upstream, and one that did not. *)
Definition picked (b : Balancer.Balancer) (o : Outcome (option (nat * Balancer.Upstream)))
    (ds : list Deed) : Prop :=
  (∃ i up l, o = Ret (Some (i, up)) ∧ Balancer.upstreams b !! i = Some up
     ∧ ds = l ++ [Taken i] ∧ looks l ∧ looked i l)
  ∨ looks ds ∧ ∀ x, o ≠ Ret (Some x).

Lemma tells_pick b ex : tells_bal (Balancer.pick b ex) (picked b).
Proof.
  apply tells_bind. eapply tells_mono with (Q := found None).
  2: { destruct (Balancer.strategy b); [apply tells_rr|apply (tells_least _ _ None)]. }
  intros [[i|]|m|] ds [Hds Hi]; cbn [on_ret].
  2-4: right; by rewrite app_nil_r.
  destruct (Balancer.upstreams b !! i) as [up|] eqn:Hup; [|right; by rewrite app_nil_r].
  assert (Hno : ∀ m, picked b (Panic m) (ds ++ [])) by (right; by rewrite app_nil_r).
  split; [|intros _; exact Hno]. intros s. right. exists (Taken i). split; [done|].
  left. exists i, up, ds. split_and!; [done..|]. by destruct (Hi i eq_refl).
Qed.
End bal.
End deeds.

(** The deeds of a request, as attempts: each looks, takes a guard, calls, reports what
    came back and drops the guard.  A request that panics or is dropped may end without
    the report, and one that finds no upstream ends after looking. *)
Inductive protocol `{Http} (b : Balancer.Balancer) (send : Balancer.Upstream → SendRequest)
    (ret : bool) : list Deed → Prop :=
| proto_none l : Forall (λ d, is_look d = true) l → protocol b send ret l
| proto_cut l i up a :
    ret = false → Forall (λ d, is_look d = true) l → looked i l →
    Balancer.upstreams b !! i = Some up →
    protocol b send ret (l ++ [Taken i; Sent (send up) a; Released i])
| proto_made l i up a ds :
    Forall (λ d, is_look d = true) l → looked i l → Balancer.upstreams b !! i = Some up →
    protocol b send ret ds →
    protocol b send ret
      (l ++ [Taken i; Sent (send up) (Some a); Reported i (succeeded a); Released i] ++ ds).

(** ** The deeds of a request *)
Section gateway.
Context `{WebLib, Auth.JwtLib, Profile} {L : Type} `{!RateLimit.RateLimiter GwE L, !ProxyCalls.QuietLimiter L}.
Context (it : Cache.hash_order) (gs : GatewayState) (name : string).

Definition quiet (sh sh' : Shared L) : Prop :=
  ∀ n s', get_bal n sh' = Some s' → ∃ s, get_bal n sh = Some s ∧ bal_quiet s s'.

(** A deed on the upstreams of the route. *)
Definition deed (d : Deed) (sh sh' : Shared L) : Prop :=
  match d with
  | Released i => sh' = drop_guard name i sh
  | _ => ∃ s s', get_bal name sh = Some s ∧ bal_deed d s s' ∧ sh' = set_bal name s' sh
  end.

Abbreviation Gw := (prog GwE (Shared L)).
Abbreviation tells_of := (tells quiet deed deed_of False).
Abbreviation still := (silent quiet deed_of).

Lemma quiet_bals sh sh' : (∀ n, get_bal n sh' = get_bal n sh) → quiet sh sh'.
Proof. intros Heq n s. rewrite Heq. exists s. split; [done|]. by apply bal_same. Qed.

Lemma quiet_set_bal n sh s s' : get_bal n sh = Some s → bal_quiet s s' → quiet sh (set_bal n s' sh).
Proof.
  intros Hs Hq n' s2. unfold get_bal, set_bal, alter_route in *. simpl. destruct (decide (n' = n)) as [->|Hn].
  - rewrite lookup_alter_eq. destruct (sh_routes sh !! n); [|done]. intros [= <-]. eauto.
  - rewrite lookup_alter_ne by done. intros Hs2. exists s2. split; [done|]. by apply bal_same.
Qed.

Lemma tells_on_bal {A} (p : prog GwE Balancer.BalState A) Q :
  tells bal_quiet bal_deed deed_of True p Q → tells_of (on_bal name p) Q.
Proof.
  apply tells_zoom.
  - intros sh. by apply quiet_bals.
  - intros sh s s'. apply quiet_set_bal.
  - intros d sh s s' Hs Hd. destruct d; [..|done]; by exists s, s'.
Qed.

(** ** Parts that do nothing to an upstream *)

Lemma still_zoom {S A} (get : Shared L → option S) set (p : prog GwE S A) :
  (∀ s sh n, get_bal n (set s sh) = get_bal n sh) →
  emits (λ _ _ _, True) deed_of p (λ _ ds, ds = []) → still (zoom get set p).
Proof.
  intros Hset Hp. split; [|by apply emits_zoom].
  eapply (acts_zoom (λ _ _, True)); [by intros sh; apply quiet_bals| |apply acts_any].
  intros sh s s2 _ _. by apply quiet_bals.
Qed.

Lemma bal_set_cache n c (sh : Shared L) n' : get_bal n' (set_cache n c sh) = get_bal n' sh.
Proof.
  unfold get_bal, set_cache, alter_route; simpl. destruct (decide (n' = n)) as [->|Hn].
  - rewrite lookup_alter_eq. by destruct (sh_routes sh !! n).
  - by rewrite lookup_alter_ne.
Qed.

Lemma still_put n k st hs b : still (on_cache n (Cache.put it k st hs b) : Gw unit).
Proof. apply still_zoom; [intros; apply bal_set_cache|done]. Qed.

#[local] Instance still_way : SilentWay quiet deed_of.
Proof.
  split; try done; intros.
  - apply still_zoom; [intros; apply bal_set_cache|done].
  - apply still_zoom; [done|]. apply ProxyCalls.check_quiet. by intros X [].
Qed.
#[local] Create HintDb still.
#[local] Hint Resolve silent_ret still_put : still.
#[local] Hint Extern 1 (silent _ _ (metric _ _ _)) => apply silent_metric; exact _ : still.
#[local] Hint Extern 1 (silent _ _ (record _ _ _ _)) => apply silent_record; exact _ : still.
#[local] Hint Extern 1 (silent _ _ Instant_now) => apply sw_now : still.

Lemma still_finish rt n meth st hs ce ck corr started :
  still (finish_response it rt n meth st hs ce ck corr started : Gw Response).
Proof.
  apply silent_bind; [auto with still|intros _]. case_match; [|auto with still].
  apply silent_bind; [done|]. intros [bytes|e]; [|auto with still].
  apply silent_bind; [case_match; auto with still|]. intros _. auto with still.
Qed.

Lemma still_state i : still (on_breaker name i (act Breaker.state_of) : Gw _).
Proof.
  split; [|done]. eapply acts_zoom; [by intros sh; apply quiet_bals| |].
  - intros sh s s'. apply quiet_set_bal.
  - eapply (acts_zoom (λ cb cb', cb' = cb)); [by intros s; apply bal_same| |].
    + intros s cb cb' Hcb ->. eapply bal_probed; [done|by left].
    + split; [|done]. intros [thr d [v p]]. unfold Breaker.state_of, Breaker.locked, with_lock; simpl.
      by destruct p.
Qed.

(** ** The report of an answer *)

Definition reported {A} (i : nat) (ok : bool) (o : Outcome A) (ds : list Deed) : Prop :=
  ds = [Reported i ok] ∨ ds = [] ∧ returns o = false.

Lemma tells_record i ok f :
  (∀ cb, reports ok cb (f cb).2) →
  tells_of (on_breaker name i (act f) : Gw unit) (reported i ok).
Proof.
  intros Hf. apply tells_on_bal. split; [|intros _ m; by right]. intros s.
  destruct (Balancer.get_breaker i s) as [cb|] eqn:Hcb; simpl.
  2: { left. split; [by apply bal_same|by right]. }
  specialize (Hf cb). destruct (f cb) as [r cb'] eqn:Ef; simpl in *. right.
  exists (Reported i ok). split; [by exists cb, cb'|by left].
Qed.

Lemma tells_success i : tells_of (on_breaker name i (act Breaker.record_success)) (reported i true).
Proof. by apply tells_record. Qed.

Lemma tells_failure i : tells_of (on_breaker name i Breaker.record_failure) (reported i false).
Proof. intros now. apply (tells_record i false). intros cb. by exists now. Qed.

Lemma reported_then {A B} i ok (p : Gw A) (k : A → Gw B) :
  tells_of p (reported i ok) → (∀ a, still (k a)) → tells_of (p ≫= k) (reported i ok).
Proof.
  intros Hp Hk. apply tells_bind. eapply tells_mono; [|exact Hp].
  intros [a|m|] ds [->|[-> Ho]]; cbn [on_ret]; [|done|by left|by right|by left|by right].
  eapply tells_mono; [|apply tells_silent, Hk]. intros o ds ->. by left.
Qed.

Lemma then_reported {A B} i ok (p : Gw A) (k : A → Gw B) :
  still p → (∀ a, tells_of (k a) (reported i ok)) → tells_of (p ≫= k) (reported i ok).
Proof. intros Hp Hk. apply tells_after; [done|done|by right..]. Qed.

(** A call, and the report of its answer unless the request ends before. *)
Definition called (a : Attempts) (i : nat) (up : Balancer.Upstream) (o : Outcome Flow)
    (ds : list Deed) : Prop :=
  ∃ ans rest, ds = Sent (upstream_request a up) ans :: rest ∧
    match ans with
    | Some ans => reported i (succeeded ans) o rest
    | None => rest = [] ∧ returns o = false
    end.

Lemma deeds_try a more i up :
  at_route a = name → tells_of (try_upstream it a more i up : Gw Flow) (called a i up).
Proof.
  intros Hname. unfold try_upstream. cbv zeta. apply tells_bind. intros start.
  cbn [tells on_ret]. apply tells_bind.
  intros [result|]; [cbn [tells on_ret]|by eexists None, []].
  eapply tells_mono with (Q := reported i (succeeded result)).
  { intros o ds Hds. by eexists (Some result), ds. }
  rewrite Hname. apply then_reported; [auto with still|intros now].
  apply then_reported; [auto with still|intros _]. apply then_reported; [apply still_state|intros st].
  apply then_reported; [auto with still|intros _].
  assert (Hfin : ∀ st hs, still (r ← finish_response it (at_runtime a) name (at_method a) st hs
      (at_cache_enabled a) (at_cache_key a) (at_correlation a) (at_started a); mret (Return r) : Gw Flow)).
  { intros st' hs. apply silent_bind; [apply still_finish|]. auto with still. }
  destruct result as [resp|e]; cbn [succeeded].
  - destruct (StatusCode_is_server_error _); cbn [negb].
    + apply reported_then; [apply tells_failure|intros _].
      apply silent_bind; [auto with still|intros _]. case_match; auto with still.
    + apply reported_then; [apply tells_success|auto].
  - apply reported_then; [apply tells_failure|intros _].
    apply silent_bind; [auto with still|intros _]. case_match; [auto with still|].
    apply silent_bind; auto with still.
Qed.

(** ** The attempts *)

(** Deeds after which any attempts may follow. *)
Definition completes (a : Attempts) (ds : list Deed) : Prop :=
  ∀ ret ds', protocol (rt_balancer (at_runtime a)) (upstream_request a) ret ds' →
    protocol (rt_balancer (at_runtime a)) (upstream_request a) ret (ds ++ ds').

Lemma deeds_attempt a more ex :
  at_route a = name →
  tells_of (attempt it a more ex : Gw Flow) (λ o ds,
    protocol (rt_balancer (at_runtime a)) (upstream_request a) (returns o) ds
    ∧ ∀ j, o = Ret (Continue j) → completes a ds).
Proof.
  intros Hname. unfold attempt. rewrite Hname. apply tells_bind.
  eapply tells_mono; [|apply tells_on_bal, tells_pick].
  intros o ds [(i & up & l & -> & Hup & -> & Hl & Hi)|[Hl Ho]].
  - apply tells_bind_outcome. eapply tells_mono; [|by apply deeds_try].
    intros o ds (ans & rest & -> & Hrest). split; [|done]. intros sh. right.
    exists (Released i). split; [done|]. simpl. rewrite <- !app_assoc. simpl.
    assert (Hmade : ∀ ret ds' ans, protocol (rt_balancer (at_runtime a)) (upstream_request a) ret ds' →
      protocol (rt_balancer (at_runtime a)) (upstream_request a) ret
        ((l ++ [Taken i; Sent (upstream_request a up) (Some ans); Reported i (succeeded ans);
                Released i]) ++ ds')).
    { intros ret ds' ans' Hds'. rewrite <- app_assoc. by eapply proto_made. }
    assert (Hcut : returns o = false → rest = [] →
      protocol (rt_balancer (at_runtime a)) (upstream_request a) (returns o)
        (l ++ Taken i :: Sent (upstream_request a up) ans :: rest ++ [Released i])
      ∧ ∀ j, o = Ret (Continue j) →
          completes a (l ++ Taken i :: Sent (upstream_request a up) ans :: rest ++ [Released i])).
    { intros Ho ->. split; [by apply proto_cut|]. by intros j ->. }
    destruct ans as [ans|]; [|destruct Hrest; by apply Hcut].
    destruct Hrest as [->|[-> Ho]]; [|by apply Hcut]. split.
    + rewrite <- (app_nil_r (l ++ _)). apply Hmade. by apply proto_none.
    + intros j _ ret ds'. apply Hmade.
  - assert (Hend : ∀ ret, protocol (rt_balancer (at_runtime a)) (upstream_request a) ret (ds ++ [])).
    { intros ret. rewrite app_nil_r. by apply proto_none. }
    destruct o as [[x|]|m|]; [by destruct (Ho x)| |done..]. cbn [on_ret].
    apply tells_after; [auto with still|by intros _|done|done].
Qed.

Lemma deeds_attempts a k ex :
  at_route a = name →
  tells_of (attempts it a k ex : Gw Response) (λ o ds,
    protocol (rt_balancer (at_runtime a)) (upstream_request a) (returns o) ds).
Proof.
  intros Hname. revert ex. induction k as [|k IH]; intros ex; cbn [attempts].
  { apply tells_after; [auto with still|..]; intros; by apply proto_none. }
  apply tells_bind. eapply tells_mono; [|by apply deeds_attempt].
  intros [[j|r]|m|] ds [Hds Hj]; cbn [on_ret]; [|simpl; by rewrite app_nil_r..].
  eapply tells_mono; [|apply IH]. intros o ds' Hds'. by apply (Hj j).
Qed.
End gateway.

(** ** Properties *)

(** C3: every call to an upstream is guarded, before and after.  In any run of a
    request, whatever the other tasks do between its steps, its deeds on the upstreams
    of its route are attempts one after the other: it sees the health flag of an
    upstream up and right then its breaker allows a call, it takes the upstream's guard,
    makes exactly one call to it, records the answer on the same breaker (a success
    unless it is a server error or no answer), and drops the guard.  Only a request
    that panics or is dropped may leave out the report, and then it makes no further
    call.  All its other actions leave the active counts alone, and the breakers too
    but for further calls of [allow_at]. *)
Theorem upstream_protocol `{WebLib, Auth.JwtLib, Profile} {L}
    `{!RateLimit.RateLimiter GwE L, !ProxyCalls.QuietLimiter L} it gs o n (sh : Shared L) req r rt :
  Router.match_route (gs_config gs) (Some (host_of (headers req))) (uri_path (uri req)) = Some r →
  route gs (rc_name r) = Some rt →
  ∃ send ds,
    (∀ up, sr_url (send up) = (Balancer.url up +:+ path_and_query req rt)%string)
    ∧ explained quiet (deed (rc_name r)) deed_of (own_events o (handle it gs req) n sh) ds
    ∧ protocol (rt_balancer rt) send (returns (r_out (exec o (handle it gs req) n sh))) ds.
Proof.
  intros Hm Hrt. set (Q := λ (out : Outcome Response) ds, ∃ send,
    (∀ up, sr_url (send up) = (Balancer.url up +:+ path_and_query req rt)%string)
    ∧ protocol (rt_balancer rt) send (returns out) ds).
  assert (Htells : tells quiet (deed (rc_name r)) deed_of False (handle it gs req : prog GwE (Shared L) _) Q).
  { apply told_handle; [apply still_way| |].
    - intros out. exists (λ up, mkSend "" (Balancer.url up +:+ path_and_query req rt) HeaderMap_new "" 0%Z).
      split; [done|by apply proto_none].
    - intros a k ((Hrta & (r' & Hm' & Hname) & _) & Hpath & _).
      assert (r' = r) as -> by congruence. assert (at_runtime a = rt) as <- by congruence.
      eapply tells_mono; [|by apply deeds_attempts]. intros out ds Hds.
      exists (upstream_request a). split; [|done]. intros up. simpl. by rewrite Hpath. }
  destruct (tells_exec _ _ _ _ o _ _ n sh Htells) as (ds & Hds & send & Hsend & Hproto).
  by exists send, ds.
Qed.

Import Demo.
Import (hints) ProxyCalls.

(** One route, two upstreams, one retry: the first answer is a server error. *)
Lemma upstream_protocol_witness :
  let p := handle Cache.list_order (gateway (demo_route 1 None None)) (get_request []) in
  let o := alone_in (world first_fails) in
  let sh := shared (demo_route 1 None None) in
  length (calls (r_obs (exec o p 0 sh))) = 2
  ∧ ∃ send ds, explained quiet (deed "r") deed_of (own_events o p 0 sh) ds
      ∧ protocol (from_config (demo_route 1 None None)).1.(rt_balancer) send true ds.
Proof.
  intros p o sh. split; [by vm_compute|].
  destruct (upstream_protocol Cache.list_order (gateway (demo_route 1 None None)) o 0 sh
    (get_request []) (demo_route 1 None None) (from_config (demo_route 1 None None)).1)
    as (send & ds & _ & Hds & Hproto); [by vm_compute|by vm_compute|].
  exists send, ds. split; [exact Hds|].
  replace true with (returns (r_out (exec o p 0 sh))) by by vm_compute. exact Hproto.
Defined.

End Protocol.
