(* ===== verification/ProxyResponse.v ===== *)
(** What the response of a request carries and how it is accounted, whatever the
    other tasks and the upstreams do.  The definitions are those of Proxy.v. *)
From S2P Require Import Prelude RustStd Prog Config Router Breaker RateLimit Cache.
From S2P Require Import Http Auth Transform Balancer Telemetry Events State Proxy ProxyCalls Demo.
Import Config State Proxy ProxyCalls.

Module ProxyResponse.

(** ** Marks: the request ids made and the request metrics *)

Inductive Mark : Type :=
| MId (id : string)
| MRequest (labels : list string)
| MActive (op : MetricOp).

(** Ids are visible text (a uuid is hexadecimal digits and dashes). *)
Definition visible_ids `{Http} : ∀ X, GwE X → X → Prop := λ X e,
  match e with EUuid => λ id, visible id = true | _ => λ _, True end.

Definition mark_of `{Http} (ob : Obs GwE) : option Mark :=
  match ob with
  | @Called _ X e answer =>
      match e in GwE X return option X → option Mark with
      | EUuid => λ answer, MId <$> answer
      | EMetric d ls op => λ _,
          if decide (Telemetry.d_name d = "gw_requests_total") then Some (MRequest ls)
          else if decide (Telemetry.d_name d = "gw_active_connections") then Some (MActive op)
          else None
      | _ => λ _, None
      end answer
  end.

Abbreviation marks t := (omap mark_of t).

Section response.
Context `{HttpLaws} `{!WebLib, Auth.JwtLib, Profile}.
Context {L : Type} `{!RateLimit.RateLimiter GwE L, !QuietLimiter L}.
Context (it : Cache.hash_order) (gs : GatewayState).

Abbreviation Gw := (prog GwE (Shared L)).
Abbreviation marks_of := (emits visible_ids mark_of).

Definition unmarked {A} (p : Gw A) : Prop := marks_of p (λ _ cs, cs = []).

Lemma after_unmarked {A B} (p : Gw A) (k : A → Gw B) Q :
  unmarked p → (∀ a, marks_of (k a) Q) → (∀ m, Q (Panic m) []) → Q Cancelled [] →
  marks_of (p ≫= k) Q.
Proof.
  intros Hp Hk. apply emits_quiet_bind with (O := λ _, True); [|auto].
  eapply emits_mono; [|exact Hp]. by intros o cs ->.
Qed.

(** The posts below: what holds of the runs that return, and how many requests any run,
    returning or not, can have counted. *)
Definition request_mark (m : Mark) : option (list string) :=
  match m with MRequest ls => Some ls | _ => None end.

Definition on_return (n : nat) {A} (P : A → list Mark → Prop) (o : Outcome A) (cs : list Mark) : Prop :=
  (∀ a, o = Ret a → P a cs) ∧ length (omap request_mark cs) ≤ n.

Lemma stopped n {A} (P : A → list Mark → Prop) o : returns o = false → on_return n P o [].
Proof. intros Ho. split; [by intros a ->|simpl; lia]. Qed.

(** What a part that did not return leaves. *)
Lemma stop_panic n {A B} (P : A → list Mark → Prop) (P' : B → list Mark → Prop) m cs :
  on_return n P (Panic m) cs → on_return n P' (Panic m) cs.
Proof. by intros [_ Hn]. Qed.
Lemma stop_cancelled n {A B} (P : A → list Mark → Prop) (P' : B → list Mark → Prop) cs :
  on_return n P Cancelled cs → on_return n P' Cancelled cs.
Proof. by intros [_ Hn]. Qed.

Lemma after n {A B} (p : Gw A) (k : A → Gw B) P :
  unmarked p → (∀ a, marks_of (k a) (on_return n P)) → marks_of (p ≫= k) (on_return n P).
Proof. intros Hp Hk. apply after_unmarked; [done|done|intros m|]; by apply stopped. Qed.

Lemma returned n {A} (a : A) (P : A → list Mark → Prop) :
  P a [] → marks_of (mret a : Gw A) (on_return n P).
Proof. intros HP. split; [by intros ? [= <-]|simpl; lia]. Qed.

(** Parts in sequence, the first of which counts nothing when it returns. *)
Lemma then_part {A B} (p : Gw A) (k : A → Gw B) n P P' :
  marks_of p (on_return n P) →
  (∀ a cs, P a cs → marks_of (k a) (λ o cs', on_return n P' o (cs ++ cs'))) →
  marks_of (p ≫= k) (on_return n P').
Proof.
  intros Hp Hk. eapply emits_bind; [exact Hp| |intros m cs; apply stop_panic|intros cs; apply stop_cancelled].
  intros a cs [Hcs _]. by apply Hk, Hcs.
Qed.

(** *** Parts without marks *)

Lemma unmarked_bind {A B} (p : Gw A) (k : A → Gw B) :
  unmarked p → (∀ a, unmarked (k a)) → unmarked (p ≫= k).
Proof. intros Hp Hk. by apply after_unmarked. Qed.

Lemma unmarked_ret {A} (a : A) : unmarked (mret a).
Proof. done. Qed.
Lemma unmarked_now : unmarked Instant_now.
Proof. done. Qed.
Lemma unmarked_await_body n : unmarked (await (EReadBody n)).
Proof. done. Qed.
Lemma unmarked_await_response : unmarked (await EReadResponse).
Proof. done. Qed.
Lemma unmarked_send r : unmarked (await (ESend r)).
Proof. done. Qed.
Lemma unmarked_state name i : unmarked (on_breaker name i (act Breaker.state_of)).
Proof. done. Qed.
Lemma unmarked_success name i : unmarked (on_breaker name i (act Breaker.record_success)).
Proof. done. Qed.
Lemma unmarked_failure name i : unmarked (on_breaker name i Breaker.record_failure).
Proof. done. Qed.
Lemma unmarked_get name k : unmarked (on_cache name (Cache.get k)).
Proof. done. Qed.
Lemma unmarked_put name k st hs b : unmarked (on_cache name (Cache.put it k st hs b)).
Proof. done. Qed.
Lemma unmarked_check key lim w : unmarked (on_limiter (RateLimit.check key lim w)).
Proof. apply emits_zoom, check_quiet. by intros X []. Qed.

(** The other metrics of the code. *)
Lemma unmarked_metric d ls op :
  bool_decide (Telemetry.d_name d ∈ ["gw_requests_total"; "gw_active_connections"]) = false →
  unmarked (metric d ls op).
Proof.
  intros Hd%bool_decide_eq_false. rewrite !not_elem_of_cons in Hd.
  destruct Hd as (? & ? & _). unfold unmarked, metric.
  case_match; [|done]. intros x _. simpl. unfold seen; simpl.
  by rewrite !decide_False by done.
Qed.

(** [record] leaves one mark. *)
Lemma marks_record name m st started P :
  P () [MRequest [name; m; StatusCode_as_str st]] →
  marks_of (record name m st started : Gw unit) (on_return 1 P).
Proof.
  intros HP. eapply emits_bind with
    (P := λ _ cs, cs = [MRequest [name; m; StatusCode_as_str st]]);
    [| |by intros msg cs ->; split|by intros cs ->; split].
  { intros x _. done. }
  intros [] cs ->. apply emits_mono with (Q := λ _ cs, cs = []).
  { intros o cs ->. split; [|simpl; lia]. intros a Ha. by destruct a. }
  apply unmarked_bind; [done|intros now]. by apply unmarked_metric.
Qed.

Lemma then_record {B} name m st started (k : () → Gw B) (P : B → list Mark → Prop) :
  marks_of (k ()) (on_return 0 (λ b cs, P b (MRequest [name; m; StatusCode_as_str st] :: cs))) →
  marks_of (record name m st started ≫= k) (on_return 1 P).
Proof.
  intros Hk. eapply then_part; [apply (marks_record name m st started
    (λ _ cs, cs = [MRequest [name; m; StatusCode_as_str st]])); done|].
  intros [] cs ->. eapply emits_mono; [|exact Hk]. intros o cs' [HP Hn]. split; [done|]. csimpl. lia.
Qed.
End response.
#[export] Hint Resolve unmarked_ret unmarked_now unmarked_await_body unmarked_await_response
  unmarked_send unmarked_state unmarked_success unmarked_failure unmarked_get unmarked_put
  unmarked_check : gw.
#[export] Hint Extern 1 (unmarked (metric _ _ _)) =>
  apply unmarked_metric; reflexivity : gw.

(** ** The request id in the headers *)
Section tagged.
Context `{HttpLaws} `{!WebLib}.

Lemma set_header_plain h name value :
  plain_name name = true → set_header h name value = Transform.set h name value.
Proof. intros Hp. unfold set_header, Transform.set. by rewrite name_plain. Qed.

Lemma get_set_header_eq h name value :
  plain_name name = true → visible value = true →
  get_str (set_header h name value) name = Some value.
Proof. intros Hp Hv. rewrite set_header_plain by done. by apply Transform.get_str_set_eq. Qed.

Lemma get_set_header_ne h name value name' :
  plain_name name = true → plain_name name' = true →
  to_ascii_lowercase name ≠ to_ascii_lowercase name' →
  get_str (set_header h name value) name' = get_str h name'.
Proof. intros Hp Hp' Hne. rewrite set_header_plain by done. by apply Transform.get_str_set_ne. Qed.

Definition tagged (id : string) (resp : Response) : Prop :=
  get_str (rsp_headers resp) CORRELATION_HEADER = Some id.

Lemma error_tagged id st msg : visible id = true → tagged id (error st msg id).
Proof. intros Hid. by apply get_set_header_eq. Qed.

Lemma cached_tagged id hit rt : visible id = true → tagged id (cached_response hit rt id).
Proof. intros Hid. by apply get_set_header_eq. Qed.

Lemma ratelimit_headers_get h lim rem reset :
  get_str (add_ratelimit_headers h lim rem reset) CORRELATION_HEADER =
  get_str h CORRELATION_HEADER.
Proof. unfold add_ratelimit_headers. by rewrite !get_set_header_ne. Qed.
End tagged.
#[export] Hint Resolve error_tagged cached_tagged : gw.

Section answers.
Context `{HttpLaws} `{!WebLib, Auth.JwtLib, Profile}.
Context {L : Type} `{!RateLimit.RateLimiter GwE L, !QuietLimiter L}.
Context (it : Cache.hash_order) (gs : GatewayState).
Context (id : string) (Hid : visible id = true).

Abbreviation Gw := (prog GwE (Shared L)).
Abbreviation marks_of := (emits visible_ids mark_of).

(** The response has the id, and was counted once: with its status, or as a 200
    before the upstream's body failed to be read. *)
Definition answered (name m : string) (resp : Response) (cs : list Mark) : Prop :=
  tagged id resp ∧
  ∃ st, cs = [MRequest [name; m; StatusCode_as_str st]]
        ∧ (st = rsp_status resp ∨ st = 200%Z ∧ rsp_status resp = 502%Z).

Lemma answered_error name m st msg :
  answered name m (error st msg id) [MRequest [name; m; StatusCode_as_str st]].
Proof. split; [by apply error_tagged|]. exists st. auto. Qed.

Lemma marks_error name m st msg started :
  marks_of (_ ← record name m st started; mret (error st msg id) : Gw Response)
    (on_return 1 (answered name m)).
Proof. apply then_record, returned, answered_error. Qed.

Lemma marks_finish rt name m st hs ce ck started :
  marks_of (finish_response (L := L) it rt name m st hs ce ck id started)
    (on_return 1 (answered name m)).
Proof.
  unfold finish_response. cbv zeta. apply then_record.
  assert (Htag : ∀ h, get_str (set_header (set_header h CORRELATION_HEADER id) "x-cache" "MISS")
            CORRELATION_HEADER = Some id).
  { intros h. rewrite get_set_header_ne by done. by apply get_set_header_eq. }
  destruct (ce && (st =? 200)%Z && rt_cached rt && response_cacheable hs) eqn:Es.
  - apply andb_true_iff in Es as [[[_ ->%Z.eqb_eq]%andb_true_iff _]%andb_true_iff _].
    apply after; [auto with gw|]. intros [bytes|e].
    + apply after; [case_match; auto with gw|intros _]. apply returned.
      split; [apply Htag|]. exists 200%Z. auto.
    + apply returned. split; [by apply error_tagged|]. exists 200%Z. auto.
  - apply returned. split; [|exists st; auto].
    unfold tagged; simpl. case_match; [apply Htag|by apply get_set_header_eq].
Qed.

Definition flow_answered (name m : string) (f : Flow) (cs : list Mark) : Prop :=
  match f with Continue _ => cs = [] | Return r => answered name m r cs end.

Lemma marks_try a more idx up :
  at_correlation a = id →
  marks_of (try_upstream (L := L) it a more idx up)
    (on_return 1 (flow_answered (at_route a) (at_method a))).
Proof.
  intros Hc. unfold try_upstream. cbv zeta. rewrite Hc.
  assert (Hfin : ∀ resp, marks_of
    (r ← finish_response (L := L) it (at_runtime a) (at_route a) (at_method a) (ur_status resp)
           (ur_headers resp) (at_cache_enabled a) (at_cache_key a) id (at_started a);
     mret (Return r)) (on_return 1 (flow_answered (at_route a) (at_method a)))).
  { intros resp. eapply emits_bind; [apply marks_finish| |intros m cs; apply stop_panic|].
    2: { intros cs. apply stop_cancelled. }
    intros r cs [Hr Hn]. simpl. rewrite app_nil_r. split; [|done]. intros f [= <-]. by apply Hr. }
  do 6 (apply after; [auto with gw|intros ?]).
  destruct a1 as [resp|e].
  - case_match.
    + do 2 (apply after; [auto with gw|intros ?]). case_match; [by apply returned|apply Hfin].
    + apply after; [auto with gw|intros ?]. apply Hfin.
  - do 2 (apply after; [auto with gw|intros ?]). case_match; [by apply returned|].
    apply then_record, returned, answered_error.
Qed.

Lemma marks_attempts a k ex :
  at_correlation a = id →
  marks_of (attempts (L := L) it a k ex) (on_return 1 (answered (at_route a) (at_method a))).
Proof.
  intros Hc. revert ex. induction k as [|k IH]; intros ex; cbn [attempts].
  { rewrite Hc. apply marks_error. }
  eapply emits_bind with (P := on_return 1 (flow_answered (at_route a) (at_method a)));
    [| |intros m cs; apply stop_panic|intros cs; apply stop_cancelled].
  - apply after.
    { eapply emits_mono; [|by apply emits_zoom, emits_pick]. by intros o cs [-> _]. }
    intros [[idx up]|]; [by apply emits_finally, marks_try|].
    rewrite Hc. apply then_record, returned, answered_error.
  - intros [idx|r] cs [Hcs Hn]; specialize (Hcs _ eq_refl); simpl in Hcs.
    + by rewrite Hcs.
    + simpl. rewrite app_nil_r. split; [|done]. by intros r' [= <-].
Qed.

Lemma marks_limit req rt name started :
  marks_of (limit_and_forward (L := L) it gs req rt name id started)
    (on_return 1 (answered name (method req))).
Proof.
  assert (Hfwd : ∀ ce ck, marks_of (forward (L := L) it gs req rt name id started ce ck)
            (on_return 1 (answered name (method req)))).
  { intros ce ck. apply after; [auto with gw|]. intros [body|e]; [|apply marks_error].
    by apply marks_attempts. }
  assert (Hlook : marks_of (lookup_and_forward (L := L) it gs req rt name id started)
            (on_return 1 (answered name (method req)))).
  { unfold lookup_and_forward. cbv zeta. case_match; [|apply Hfwd].
    apply after; [auto with gw|]. intros [hit|].
    - apply after; [auto with gw|intros _]. apply then_record, returned.
      split; [by apply cached_tagged|]. eexists. split; [reflexivity|]. by left.
    - apply after; [auto with gw|intros _]. apply Hfwd. }
  unfold limit_and_forward. cbv zeta. destruct (rc_rate_limit (rt_config rt)) as [rl|]; [|done].
  apply after; [auto with gw|]. intros d. case_match; [|done].
  apply after; [auto with gw|intros _]. apply then_record, returned. split.
  - unfold tagged; simpl. rewrite ratelimit_headers_get. exact (error_tagged id 429 "rate limit exceeded" Hid).
  - exists 429%Z. auto.
Qed.
End answers.

(** The request metrics of a response: one increment with its route, method and
    status, except that an unknown route is counted as "none", that a body that
    cannot be read was counted as a 200, and that a missing runtime is not counted. *)
Definition counted `{Http} (gs : GatewayState) (req : Request) (resp : Response)
    (cs : list Mark) : Prop :=
  match Router.match_route (gs_config gs) (Some (host_of (headers req))) (uri_path (uri req)) with
  | None => rsp_status resp = 404%Z ∧ cs = [MRequest ["none"; method req; "404"]]
  | Some r =>
      match route gs (rc_name r) with
      | None => rsp_status resp = 500%Z ∧ cs = []
      | Some _ =>
          ∃ st, cs = [MRequest [rc_name r; method req; StatusCode_as_str st]]
                ∧ (st = rsp_status resp ∨ st = 200%Z ∧ rsp_status resp = 502%Z)
      end
  end.

Section handle.
Context `{HttpLaws} `{!WebLib, Auth.JwtLib, Profile}.
Context {L : Type} `{!RateLimit.RateLimiter GwE L, !QuietLimiter L}.
Context (it : Cache.hash_order) (gs : GatewayState).

Abbreviation Gw := (prog GwE (Shared L)).
Abbreviation marks_of := (emits visible_ids mark_of).

(** The id of a response: the request's own, or a fresh one. *)
Definition identified (req : Request) (resp : Response) (cs : list Mark) : Prop :=
  match get_str (headers req) CORRELATION_HEADER with
  | Some c => tagged c resp ∧ counted gs req resp cs
  | None => ∃ c cs', cs = MId c :: cs' ∧ tagged c resp ∧ counted gs req resp cs'
  end.

Lemma marks_routed req id started :
  visible id = true →
  marks_of
    (match Router.match_route (gs_config gs) (Some (host_of (headers req))) (uri_path (uri req)) with
     | None =>
         _ ← metric Telemetry.requests ["none"; method req; "404"] Inc;
         mret (error 404 "no matching route" id)
     | Some route_cfg =>
         match route gs (rc_name route_cfg) with
         | None => mret (error 500 "route runtime missing" id)
         | Some runtime =>
             match Auth.authorize (rc_auth (rt_config runtime)) (headers req) with
             | Err reason =>
                 _ ← metric Telemetry.auth_rejections [rc_name route_cfg] Inc;
                 _ ← record (rc_name route_cfg) (method req) 401 started;
                 mret (error 401 reason id)
             | Ok _ => limit_and_forward it gs req runtime (rc_name route_cfg) id started
             end
         end
     end : Gw Response)
    (on_return 1 (λ resp cs, tagged id resp ∧ counted gs req resp cs)).
Proof.
  intros Hid. unfold counted. destruct (Router.match_route _ _ _) as [r|].
  2: { intros x _. split; [|simpl; lia]. intros r [= <-]. split; [by apply error_tagged|done]. }
  destruct (route gs (rc_name r)) as [rt|].
  2: { apply returned. split; [by apply error_tagged|done]. }
  assert (Hmono : ∀ p : Gw Response,
    marks_of p (on_return 1 (answered id (rc_name r) (method req))) →
    marks_of p (on_return 1 (λ resp cs, tagged id resp ∧
      ∃ st, cs = [MRequest [rc_name r; method req; StatusCode_as_str st]]
            ∧ (st = rsp_status resp ∨ st = 200%Z ∧ rsp_status resp = 502%Z)))).
  { intros p. apply emits_mono. intros o cs [HQ Hn]. split; [|done]. intros resp Hr. by apply HQ. }
  apply Hmono. destruct (Auth.authorize _ _); [by apply marks_limit|].
  apply after; [auto with gw|intros _]. by apply marks_error.
Qed.

Lemma marks_route_and_proxy req :
  marks_of (route_and_proxy (L := L) it gs req) (on_return 1 (identified req)).
Proof.
  apply after; [auto with gw|intros started]. cbv zeta. unfold identified.
  destruct (get_str (headers req) CORRELATION_HEADER) as [c|] eqn:Hc.
  - apply marks_routed. by eapply get_str_visible.
  - eapply emits_bind with (P := λ o cs, ∃ c, visible c = true ∧ o = Ret c ∧ cs = [MId c]).
    + intros c Hv. simpl. eauto.
    + intros c cs (c' & Hv & [= <-] & ->). eapply emits_mono; [|by apply marks_routed].
      intros o cs [HQ Hone]. split; [|done]. intros resp Hr. destruct (HQ resp Hr) as [Ht Hn]. by exists c, cs.
    + by intros m cs (c & _ & ? & _).
    + by intros cs (c & _ & ? & _).
Qed.

Lemma marks_handle req :
  marks_of (handle (L := L) it gs req)
    (on_return 1 (λ resp cs, ∃ cs', cs = MActive Inc :: cs' ++ [MActive Dec]
                                  ∧ identified req resp cs')).
Proof.
  intros x _. apply after_unmarked; [auto with gw|intros _|by split; [|simpl; lia]|by split; [|simpl; lia]].
  eapply emits_bind; [apply marks_route_and_proxy| |intros m cs [_ Hn]|intros cs [_ Hn]]; [|by split..].
  intros resp cs [Hcs Hn] x' _. split; [|csimpl; by rewrite omap_app, app_nil_r].
  intros resp' [= <-]. exists cs. split; [done|by apply Hcs].
Qed.
End handle.

(** ** Properties *)

(** C11: every response carries the request's id (its own X-Request-Id, or a
    fresh one that was made for it) and is counted exactly once, under its route,
    method and status: except for a body the gateway failed to read, which it
    answers with 502 and had counted as 200; and the gauge of active connections
    goes up once and down once.  This holds whatever the other requests and the
    upstreams do, for every run that answers. *)
Theorem response_identified_and_counted `{HttpLaws} `{!WebLib, Auth.JwtLib, Profile} {L}
    `{!RateLimit.RateLimiter GwE L, !QuietLimiter L} it gs o n (sh : Shared L) req resp :
  lawful (λ _ _, True) visible_ids o →
  let run := exec o (handle it gs req) n sh in
  r_out run = Ret resp →
  ∃ id ids reqs,
    get_str (rsp_headers resp) CORRELATION_HEADER = Some id
    ∧ marks (r_obs run) = [MActive Inc] ++ ids ++ reqs ++ [MActive Dec]
    ∧ counted gs req resp reqs
    ∧ match get_str (headers req) CORRELATION_HEADER with
      | Some c => id = c ∧ ids = []
      | None => ids = [MId id]
      end.
Proof.
  intros Hlaw run Hout.
  destruct (emits_exec visible_ids mark_of _ _ _ o n sh Hlaw (marks_handle it gs req)) as [Hret _].
  destruct (Hret resp Hout) as (cs & Hcs & Hident).
  fold run in Hcs. unfold identified in Hident.
  destruct (get_str (headers req) CORRELATION_HEADER) as [c|].
  - destruct Hident as [Ht Hn]. by exists c, [], cs.
  - destruct Hident as (c & cs' & -> & Ht & Hn). by exists c, [MId c], cs'.
Qed.

Import Demo.

Definition demo_run : Run GwE (Shared RateLimit.InMemory.Limiter) Response :=
  run_in (world first_fails) (demo_route 1 None None) (get_request []).

Lemma demo_world_lawful {S} up : lawful (λ _ _, True) visible_ids (alone_in (S := S) (world up)).
Proof. split; [done| |]; intros k X e; destruct e; intros; simplify_eq/=; done. Qed.

(** After a retry: one request counted as 200, with the fresh id. *)
Lemma response_identified_and_counted_witness :
  ∃ resp id ids reqs, r_out demo_run = Ret resp
    ∧ get_str (rsp_headers resp) CORRELATION_HEADER = Some id
    ∧ marks (r_obs demo_run) = [MActive Inc] ++ ids ++ reqs ++ [MActive Dec]
    ∧ ids = [MId id].
Proof.
  destruct (r_out demo_run) as [resp| |] eqn:Hout.
  - destruct (response_identified_and_counted Cache.list_order (gateway (demo_route 1 None None))
      (alone_in (world first_fails)) 0 (shared (demo_route 1 None None)) (get_request []) resp
      (demo_world_lawful _) Hout) as (id & ids & reqs & Hid & Hm & _ & Hids).
    exists resp, id, ids, reqs. split_and!; [done|exact Hid|exact Hm|].
    assert (get_str (headers (get_request [])) CORRELATION_HEADER = None) as Hnone by by vm_compute.
    by rewrite Hnone in Hids.
  - apply (f_equal returns) in Hout. by vm_compute in Hout.
  - apply (f_equal returns) in Hout. by vm_compute in Hout.
Defined.

End ProxyResponse.
