(* ===== verification/Metering.v ===== *)
(** What the metrics show of a running gateway.

    [Meter] is the part of prometheus by which a registry is updated and read; the
    updates that a run makes are in its trace ([metrics], Events.v).  By the books of
    the pool (Ledger.v), a series has the sum of what the tasks have told it: the gauge
    of active connections counts the requests that were begun and not answered, and
    the request counters count those that were answered. *)
From S2P Require Import Prelude RustStd Prog Pool Traced Ledger Config Router RateLimit Cache.
From S2P Require Import Http Auth Telemetry Events State Health Proxy Walk Tasks.
From S2P Require Import ProxyCalls ProxyResponse Demo.
Import Config State Proxy Tasks ProxyCalls ProxyResponse.

Module Metering.

Abbreviation Update := (Telemetry.Desc * list string * MetricOp)%type.

(** ** The interface: a series is known by the name of its metric and its labels *)
Class Meter `{Telemetry.Prometheus} := {
  update : Telemetry.Registry → Update → Telemetry.Registry;
  sample : Telemetry.Registry → string → list string → Z;
}.

Definition key (m : Update) : string * list string := (Telemetry.d_name m.1.1, m.1.2).

(** [inc] and [dec] add and subtract one, on a series of their own. *)
Class MeterLaws `{Telemetry.PrometheusLaws, !Meter} := {
  sample_new n ls : sample Telemetry.Registry_new n ls = 0%Z;
  sample_register r c r' n ls : Telemetry.register r c = Ok r' → sample r' n ls = sample r n ls;
  sample_other r m n ls : key m ≠ (n, ls) → sample (update r m) n ls = sample r n ls;
  sample_inc r d ls : (sample r (Telemetry.d_name d) ls + 1 < 2 ^ 63)%Z →
    sample (update r (d, ls, Inc)) (Telemetry.d_name d) ls = (sample r (Telemetry.d_name d) ls + 1)%Z;
  sample_dec r d ls : (- 2 ^ 63 ≤ sample r (Telemetry.d_name d) ls - 1)%Z →
    sample (update r (d, ls, Dec)) (Telemetry.d_name d) ls = (sample r (Telemetry.d_name d) ls - 1)%Z;
}.

(** The registry after these updates. *)
Definition after `{Meter} (r : Telemetry.Registry) (ms : list Update) : Telemetry.Registry :=
  foldl update r ms.

(** ** What a series is told *)

Definition delta (n : string) (ls : list string) (m : Update) : Z :=
  if decide (key m = (n, ls)) then match m.2 with Inc => 1 | Dec => -1 | _ => 0 end else 0.
Definition net (n : string) (ls : list string) (ms : list Update) : Z :=
  foldr (λ m z, delta n ls m + z)%Z 0%Z ms.

Lemma net_app n ls ms ms' : net n ls (ms ++ ms') = (net n ls ms + net n ls ms')%Z.
Proof. induction ms as [|m ms IH]; simpl; [done|]. rewrite IH. lia. Qed.

#[global] Instance net_perm n ls : Proper (Permutation ==> eq) (net n ls).
Proof. induction 1; simpl; lia. Qed.

Lemma net_none n ls ms : Forall (λ m, key m ≠ (n, ls)) ms → net n ls ms = 0%Z.
Proof.
  induction 1 as [|m ms Hm _ IH]; simpl; [done|]. rewrite IH. unfold delta. by rewrite decide_False.
Qed.

(** A series that is only incremented and decremented. *)
Definition counts_at (n : string) (ls : list string) (m : Update) : Prop :=
  key m = (n, ls) → m.2 = Inc ∨ m.2 = Dec.

Lemma sample_after `{MeterLaws} n ls ms r :
  Forall (counts_at n ls) ms → (Z.abs (sample r n ls) + Z.of_nat (length ms) < 2 ^ 63)%Z →
  sample (after r ms) n ls = (sample r n ls + net n ls ms)%Z.
Proof.
  intros Hms. revert r. induction Hms as [|[[d ls'] op] ms Hm _ IH]; intros r Hr; simpl in *; [lia|].
  unfold delta. case_decide as Hkey.
  - unfold key in Hkey; simpl in Hm, Hkey. injection Hkey as <- <-.
    destruct (Hm eq_refl) as [Hop|Hop]; simpl in Hop; subst op; rewrite IH;
      rewrite ?sample_inc, ?sample_dec; cbn [snd]; lia.
  - rewrite IH; rewrite sample_other by done; lia.
Qed.

(** The registry of [Metrics_new] starts from zero. *)
Lemma register_all_sample `{MeterLaws} cs ds r r' n ls :
  Telemetry.register_all cs ds r = Ret r' → sample r' n ls = sample r n ls.
Proof.
  revert r. induction ds as [|d ds IH]; intros r; simpl; [by intros [= ->]|].
  destruct (Telemetry.find_collector cs d) as [c|]; [|done].
  destruct (Telemetry.register r c) as [r1|] eqn:Hr; [|done]. simpl. intros Hall.
  rewrite (IH _ Hall). by eapply sample_register.
Qed.

Lemma sample_metrics_new `{MeterLaws} r cs n ls :
  Telemetry.Metrics_new = Ret (r, cs) → sample r n ls = 0%Z.
Proof.
  unfold Telemetry.Metrics_new, mbind, Outcome_bind.
  destruct (Telemetry.make_all _) as [cs'| |]; [|done..].
  destruct (Telemetry.register_all _ _ _) as [r'| |] eqn:Hr; [|done..]. intros [= <- <-].
  rewrite (register_all_sample _ _ _ _ _ _ Hr). apply sample_new.
Qed.

(** ** The updates of a request *)

(** Something is known of every answer of [visible_ids]. *)
Lemma visible_ids_answer `{Http} X (e : GwE X) : ∃ x, visible_ids X e x.
Proof. destruct e; first
  [by exists "" | by exists () | by exists 0%Z | by exists (Err "") | by exists (Err (mkSendError false))]. Qed.

(** An update that a part of the handler makes: not of the gauge. *)
Definition part_update (m : Update) : Prop := metric_ok m = true ∧ is_gauge m.1.1 = false.

Definition raised : Update := (Telemetry.active_connections, [], Inc).
Definition lowered : Update := (Telemetry.active_connections, [], Dec).

Section handler.
Context `{HttpLaws} `{!WebLib, Auth.JwtLib, Profile}.
Context {L : Type} `{!RateLimit.RateLimiter GwE L, !QuietLimiter L}.
Context (it : Cache.hash_order) (gs : GatewayState).

Abbreviation Gw := (prog GwE (Shared L)).

Definition updates_by {A} (p : Gw A) : Prop :=
  emits visible_ids metric_of p (λ _ ms, Forall part_update ms).

Lemma updates_none {A} (p : Gw A) : emits visible_ids metric_of p (λ _ ms, ms = []) → updates_by p.
Proof. apply emits_mono. intros o ms ->. constructor. Qed.

Lemma updates_bind {A B} (p : Gw A) (k : A → Gw B) :
  updates_by p → (∀ a, updates_by (k a)) → updates_by (p ≫= k).
Proof.
  intros Hp Hk. eapply emits_bind; [exact Hp| |done|done].
  intros a ms Hms. eapply emits_mono; [|apply Hk]. intros o ms' Hms'. by apply Forall_app.
Qed.

Lemma updates_metric d ls op :
  metric_ok (d, ls, op) = true → is_gauge d = false → updates_by (metric d ls op).
Proof.
  intros Hok Hg. unfold updates_by, metric. case_match; [|constructor].
  intros x _. repeat constructor; done.
Qed.

#[local] Instance updates_walk : Walk gs it (@updates_by) (@updates_by).
Proof.
  split; try (intros; constructor); try (intros; by apply updates_none).
  - intros A B p k. apply updates_bind.
  - apply updates_metric.
  - done.
  - intros A B p k. apply updates_bind.
  - intros A name rt ex none body Hrt Hnone Hbody.
    eapply emits_bind; [apply emits_zoom, emits_pick; done| | |].
    + intros [[i up]|] ms [-> Hpick]; [|done]. destruct (Hpick _ _ eq_refl) as [Hup _].
      apply emits_finally, Hbody. exists rt. split; [done|]. by eapply lookup_lt_Some.
    + by intros m ms [-> _].
    + by intros ms [-> _].
Qed.

Lemma updates_route_and_proxy req : updates_by (route_and_proxy it gs req).
Proof.
  apply (walk_route_and_proxy (HW := updates_walk)). intros key lim w _.
  apply updates_none, emits_zoom, check_quiet. by intros X [].
Qed.
End handler.

Lemma nothing_in {A} (l : list A) : Forall (λ _, False) l → l = [].
Proof. by destruct 1. Qed.

Lemma emits_task `{Http} {L} c n :
  emits visible_ids metric_of (Health.task c n : prog GwE (Shared L) ()) (λ _ ms, ms = []).
Proof.
  induction n as [|n IH]; [done|].
  assert (Htick : emits visible_ids metric_of (Health.tick c : prog GwE (Shared L) ()) (λ _ ms, ms = [])).
  { split; [|done]. intros r _ [b|m|]; [by intros [[]|m|]|done..]. }
  eapply (emits_quiet_bind _ _ _ _ (λ _, True)); [|by intros [] _|done|done].
  eapply emits_mono; [|exact Htick]. by intros o ms ->.
Qed.

(** The label values of the requests counted. *)
Definition counted_labels (ms : list Update) : list (list string) :=
  omap (λ m, if String.eqb (Telemetry.d_name m.1.1) "gw_requests_total" then Some m.1.2 else None) ms.

Lemma counted_labels_app ms ms' : counted_labels (ms ++ ms') = counted_labels ms ++ counted_labels ms'.
Proof. apply omap_app. Qed.

Lemma counted_labels_marks `{Http} (t : list (Obs GwE)) :
  counted_labels (metrics t) = omap request_mark (marks t).
Proof.
  unfold counted_labels. induction t as [|[X e a] t IH]; [done|].
  destruct e; csimpl; try exact IH; [by destruct a; csimpl|].
  destruct (String.eqb_spec (Telemetry.d_name d) "gw_requests_total") as [Hd|Hd].
  - rewrite decide_True by done. csimpl. by rewrite IH.
  - rewrite decide_False by done. case_decide; csimpl; exact IH.
Qed.

(** A request's updates: the gauge goes up, and down when the request is answered;
    one request is counted then, and never two. *)
Definition shaped (answered : bool) (ms : list Update) : Prop :=
  ms = [] ∨ ∃ new, Forall part_update new ∧ ms = raised :: new ++ (if answered then [lowered] else []).

Definition accounted (answered : bool) (ms : list Update) : Prop :=
  shaped answered ms ∧ length (counted_labels ms) ≤ 1
  ∧ (answered = true → ms ≠ [] → length (counted_labels ms) = 1).

Section requests.
Context `{HttpLaws} `{!WebLib, Auth.JwtLib, Profile}.
Context {L : Type} `{!RateLimit.RateLimiter GwE L, !QuietLimiter L}.
Context (gs : GatewayState).
Context (Hrouted : ∀ host path r,
  Router.match_route (gs_config gs) host path = Some r → is_Some (route gs (rc_name r))).

Abbreviation Gw := (prog GwE (Shared L)).
Abbreviation up := (λ t, shaped false (metrics t)).
Abbreviation one_at_most := (λ ms : list Mark, length (omap request_mark ms) ≤ 1).
Abbreviation live := (λ t, up t ∧ one_at_most (marks t)).
Abbreviation kept := (tracks (λ _, True) visible_ids up).

Lemma tracks_updates {A} (p : Gw A) t :
  metrics t = [raised] → updates_by p →
  kept p t (since t (λ _ new, Forall part_update (metrics new))).
Proof.
  intros Ht Hp. apply (tracks_only (λ _, True) visible_ids up visible_ids_answer metric_of); [|exact Hp].
  intros new Hnew. right. exists (metrics new). rewrite app_nil_r. split; [done|].
  by rewrite metrics_app, Ht.
Qed.

(** One request is counted for a request that is answered. *)
Lemma identified_counts req resp cs :
  identified gs req resp cs → length (omap request_mark cs) = 1.
Proof.
  assert (Hc : ∀ cs, counted gs req resp cs → length (omap request_mark cs) = 1).
  { unfold counted. intros cs'. destruct (Router.match_route _ _ _) as [r|] eqn:Hm; [|by intros [_ ->]].
    destruct (Hrouted _ _ _ Hm) as [rt ->]. by intros (st & -> & _). }
  unfold identified. destruct (get_str _ _) as [c|]; [intros [_ Hcs]; by apply Hc|].
  intros (c & cs' & -> & _ & Hcs). csimpl. by apply Hc.
Qed.

Lemma emits_handle_counts it req :
  emits visible_ids mark_of (_ ← handle it gs req; mret () : Gw ())
    (λ o cs, one_at_most cs ∧ (o = Ret () → length (omap request_mark cs) = 1)).
Proof.
  eapply emits_bind; [apply marks_handle| |by intros m cs [_ Hn]|by intros cs [_ Hn]].
  intros resp cs [Hcs Hn]. simpl. rewrite app_nil_r. split; [done|]. intros _.
  destruct (Hcs _ eq_refl) as (cs' & -> & Hid). csimpl.
  rewrite omap_app, length_app, (identified_counts _ _ _ Hid). done.
Qed.

Lemma kept_handle it req :
  kept (handle it gs req) []
    (λ o t, ∃ new, Forall part_update new
      ∧ metrics t = raised :: new ++ (if returns o then [lowered] else [])).
Proof.
  assert (Hraise : up ([] : list (Obs GwE))) by by left.
  assert (Hraised : ∀ t, metrics t = [raised] → up t).
  { intros t Ht. right. by exists []. }
  apply tracks_bind. split; [done|]. intros x _. cbn [on_ret].
  apply tracks_bind. split; [by apply Hraised|]. intros now _. cbn [on_ret].
  apply tracks_bind. eapply tracks_mono; [|by apply tracks_updates, updates_route_and_proxy].
  intros o t (new & -> & Hnew). set (t0 := _ ++ new).
  assert (Ht : metrics t0 = raised :: metrics new) by by unfold t0; rewrite metrics_app.
  destruct o as [resp|m|]; cbn [on_ret].
  - split; [right; exists (metrics new); by rewrite app_nil_r|].
    intros [] _. exists (metrics new). split; [done|]. by rewrite metrics_app, Ht.
  - exists (metrics new). by rewrite app_nil_r.
  - exists (metrics new). by rewrite app_nil_r.
Qed.

Lemma prefix_counts (l l' : list Mark) : one_at_most (l ++ l') → one_at_most l.
Proof. cbv beta. rewrite omap_app, length_app. lia. Qed.

Lemma tracks_arrival p :
  arrives gs p → tracks (λ _, True) visible_ids live p [] (λ o t, accounted (returns o) (metrics t)).
Proof.
  intros [it req _|c ticks Hc].
  - apply (tracks_prefix (λ _, True) visible_ids mark_of up one_at_most);
      [apply visible_ids_answer|apply prefix_counts| |].
    + eapply tracks_mono;
        [|apply (tracks_emits (λ _, True) visible_ids up mark_of); [|apply (emits_handle_counts it)]].
      2: { apply tracks_bind. eapply tracks_mono; [|apply kept_handle].
           intros o t Ho. instantiate (1 := λ o t, ∃ new, Forall part_update new
             ∧ metrics t = raised :: new ++ (if returns o then [lowered] else [])).
           by destruct o. }
      intros o t [(new & Hnew & Ht) (t' & -> & Hle & Hone)]. split_and!; [right; by exists new| |];
        rewrite counted_labels_marks; [done|]. destruct o as [[]|m|]; [|done..]. intros _ _. by apply Hone.
    + eapply emits_mono; [|apply (emits_handle_counts it)]. by intros o cs [Hle _].
  - assert (Hnone : ∀ new, Forall (λ _, False) (omap metric_of new) → metrics new = []).
    { intros new. exact (nothing_in (metrics new)). }
    eapply tracks_mono;
      [|apply (tracks_only (λ _, True) visible_ids live visible_ids_answer metric_of (λ _, False))].
    + intros o t (new & -> & Hnew%Hnone). unfold accounted, shaped. simpl. rewrite Hnew.
      split_and!; [by left|simpl; lia|done].
    + intros new Hnew%Hnone. unfold shaped. simpl. rewrite <- counted_labels_marks, Hnew.
      split; [by left|simpl; lia].
    + eapply emits_mono; [|apply emits_task]. by intros o ms ->.
Qed.

(** ** The books *)

Definition begun (cs : list (Obs GwE)) : bool := negb (is_nil (metrics cs)).
Definition answered (p : Gw ()) : bool := match p with Done o => returns o | _ => false end.

(** How many tasks of the pool satisfy [f], which sees a task's own calls. *)
Definition number (f : list (Obs GwE) → Gw () → bool) (t : list (nat * Obs GwE)) (ps : list (Gw ()))
    : nat := length (filter (λ b, b = true) (imap (λ i p, f (by_task i t) p) ps)).

Definition unanswered := number (λ cs p, begun cs && negb (answered p)).
Definition responses := number (λ cs p, begun cs && answered p).

(** What the pool's books say, task by task. *)
Definition in_books (ps : list (Gw ())) (t : list (nat * Obs GwE)) (css : list (list (Obs GwE)))
    : Prop :=
  Forall2 (λ p cs, accounted (answered p) (metrics cs)) ps css
  ∧ metrics t.*2 ≡ₚ concat (metrics <$> css)
  ∧ ∀ f, number f t ps = length (filter (λ b, b = true) (zip_with f css ps)).

Lemma run_books sh t ps sh' :
  pool_trace visible_ids (arrives gs) ([], sh) t (ps, sh') → ∃ css, in_books ps t css.
Proof.
  intros Htr. destruct (pool_tracks visible_ids live (arrives gs) _ _ _ _ _ tracks_arrival Htr)
    as (css & Hks & Hown & Hall & _). exists css. split_and!.
  - eapply Forall2_impl; [exact Hks|]. intros p cs Hp.
    assert (Hlive : live cs → answered p = false → accounted (answered p) (metrics cs)).
    { intros [Hup Hle] ->. split_and!; [done|by rewrite counted_labels_marks|done]. }
    destruct p; [done|by apply Hlive; [apply Hp|]..].
  - unfold metrics. rewrite Hall. clear. induction css as [|cs css IH]; [done|].
    simpl. by rewrite omap_app, IH.
  - intros f. unfold number. do 2 f_equal. apply list_eq. intros i.
    rewrite list_lookup_imap, lookup_zip_with. destruct (ps !! i) as [p|] eqn:Hp; simpl.
    + destruct (Forall2_lookup_l _ _ _ _ _ Hks Hp) as (cs & Hcs & _). rewrite Hcs. simpl.
      by rewrite <- (Hown i cs Hcs).
    + by destruct (css !! i).
Qed.
End requests.

Lemma build_routed {Client Conn} (open : string → Result string Client)
    (connection_manager : Client → Result string Conn) config gs sh :
  config_ok config → build (Ok ()) open connection_manager config = Ok (gs, sh) →
  ∀ host path r, Router.match_route (gs_config gs) host path = Some r → is_Some (route gs (rc_name r)).
Proof.
  intros (_ & Hnd & _) Hb host path r. injection Hb as <- <-. intros [Hr _]%Router.match_route_candidate.
  unfold route; simpl. by rewrite lookup_fmap, (build_routes_spec _ _ Hnd Hr).
Qed.

Lemma metrics_length `{Http} (t : list (nat * Obs GwE)) : length (metrics t.*2) ≤ length t.
Proof.
  unfold metrics. induction t as [|[i ob] t IH]; [done|]. csimpl. destruct (metric_of ob); simpl; lia.
Qed.

(** ** Sums *)

Lemma part_not_gauge m : part_update m → key m ≠ ("gw_active_connections", []).
Proof.
  unfold part_update, is_gauge, key. intros [_ Hg%String.eqb_neq] Hk. by injection Hk as Hn _.
Qed.

Lemma requests_inc m : metric_ok m = true → Telemetry.d_name m.1.1 = "gw_requests_total" → m.2 = Inc.
Proof.
  unfold metric_ok. intros [[Hin%bool_decide_eq_true _]%andb_true_iff Hop]%andb_true_iff Hn.
  destruct m as [[d ls] op]; simpl in *.
  assert (d = Telemetry.requests) as ->; [|by destruct op].
  unfold Telemetry.made in Hin. rewrite !elem_of_cons, elem_of_nil in Hin.
  repeat (destruct Hin as [->|Hin]; [try done|]). done.
Qed.

Lemma accounted_ok a ms : accounted a ms → Forall (λ m, metric_ok m = true) ms.
Proof.
  intros [[->|(new & Hnew & ->)] _]; [constructor|]. constructor; [by vm_compute|].
  apply Forall_app. split; [eapply Forall_impl; [exact Hnew|by intros m []]|].
  destruct a; repeat constructor.
Qed.

Lemma accounted_gauge a ms :
  accounted a ms → Forall (counts_at "gw_active_connections" []) ms
    ∧ net "gw_active_connections" [] ms = Z.b2z (negb (is_nil ms) && negb a).
Proof.
  intros [[->|(new & Hnew & ->)] _]; [by split|]. simpl. split.
  - constructor; [intros _; by left|]. apply Forall_app. split.
    + eapply Forall_impl; [exact Hnew|]. intros m Hm Hk. by destruct (part_not_gauge m Hm).
    + destruct a; [|constructor]. constructor; [intros _; by right|constructor].
  - rewrite net_app, (net_none _ _ new); [by destruct a|].
    eapply Forall_impl; [exact Hnew|]. apply part_not_gauge.
Qed.

(** The counter of requests has, for each label values, the requests with these. *)
Lemma net_requests ls ms :
  Forall (λ m, metric_ok m = true) ms →
  net "gw_requests_total" ls ms = Z.of_nat (length (filter (λ l, l = ls) (counted_labels ms))).
Proof.
  induction 1 as [|m ms Hm _ IH]; [done|]. unfold counted_labels in *. csimpl.
  rewrite IH. unfold delta, key.
  destruct (String.eqb_spec (Telemetry.d_name m.1.1) "gw_requests_total") as [Hn|Hn].
  - rewrite filter_cons, (requests_inc m Hm Hn). case_decide as Hk; case_decide as Hl; simpl; try lia.
    + destruct Hl. by injection Hk.
    + destruct Hk. by rewrite Hn, Hl.
  - rewrite decide_False by (intros Hk; by injection Hk). lia.
Qed.

Lemma requests_counts ls ms :
  Forall (λ m, metric_ok m = true) ms → Forall (counts_at "gw_requests_total" ls) ms.
Proof.
  intros Hms. eapply Forall_impl; [exact Hms|]. intros m Hm Hk. left.
  apply requests_inc; [done|]. by injection Hk.
Qed.

Section sums.
Context `{Http} {L : Type}.
Abbreviation Gw := (prog GwE (Shared L)).

Abbreviation trues bs := (length (filter (λ b, b = true) bs)).

Lemma net_books n ls (f : list (Obs GwE) → Gw () → bool) ps css :
  Forall2 (λ p cs, net n ls (metrics cs) = Z.b2z (f cs p)) ps css →
  net n ls (concat (metrics <$> css)) = Z.of_nat (trues (zip_with f css ps)).
Proof.
  induction 1 as [|p cs ps css Hp _ IH]; [done|]. csimpl. rewrite net_app, IH, Hp, filter_cons.
  destruct (f cs p); simpl; lia.
Qed.

Lemma all_books (P : Update → Prop) (ps : list (Gw ())) css :
  (∀ a ms, accounted a ms → Forall P ms) →
  Forall2 (λ p cs, accounted (answered p) (metrics cs)) ps css →
  Forall P (concat (metrics <$> css)).
Proof.
  intros HP. induction 1 as [|p cs ps css Hp _ IH]; simpl; [constructor|].
  apply Forall_app. split; [by eapply HP|done].
Qed.

(** Each answered request is counted once, and no request twice. *)
Lemma count_books (ps : list (Gw ())) css :
  Forall2 (λ p cs, accounted (answered p) (metrics cs)) ps css →
  let total := length (counted_labels (concat (metrics <$> css))) in
  let ended := trues (zip_with (λ cs p, begun cs && answered p) css ps) in
  let others := trues (zip_with (λ cs p, begun cs && negb (answered p)) css ps) in
  ended ≤ total ≤ ended + others.
Proof.
  induction 1 as [|p cs ps css Hp _ IH]; cbv zeta in *; [simpl; lia|].
  csimpl. rewrite counted_labels_app, length_app, !filter_cons.
  destruct Hp as ([Hms|(new & _ & Hms)] & Hle & Hone).
  - assert (begun cs = false) as -> by by unfold begun; rewrite Hms. by rewrite Hms.
  - assert (begun cs = true) as -> by by unfold begun; rewrite Hms.
    destruct (answered p); simpl; [rewrite Hone by (done || by rewrite Hms)|]; lia.
Qed.
End sums.

(** ** A meter: the descriptors of a registry, with the samples of their series *)
Module Sampled.

Abbreviation samples := (gmap (string * list string) Z).

#[global] Instance prometheus : Telemetry.Prometheus := {|
  Telemetry.Registry := @Telemetry.Registry Telemetry.Listed.prometheus * samples;
  Telemetry.Registry_new := (@Telemetry.Registry_new Telemetry.Listed.prometheus, ∅);
  Telemetry.Collector := @Telemetry.Collector Telemetry.Listed.prometheus;
  Telemetry.collector_new := @Telemetry.collector_new Telemetry.Listed.prometheus;
  Telemetry.register := λ r c,
    match @Telemetry.register Telemetry.Listed.prometheus r.1 c with
    | Ok r' => Ok (r', r.2)
    | Err e => Err e
    end;
|}.

Definition step (z : Z) (op : MetricOp) : Z :=
  match op with Inc => z + 1 | Dec => z - 1 | SetTo v => v | Observe _ => z end.

#[global] Instance meter : @Meter prometheus := {|
  update := λ r m, (r.1, <[key m := step (default 0%Z (r.2 !! key m)) m.2]> r.2);
  sample := λ r n ls, default 0%Z (r.2 !! (n, ls));
|}.

#[global] Instance prometheus_laws : @Telemetry.PrometheusLaws prometheus.
Proof.
  refine {| Telemetry.collector_desc := @Telemetry.collector_desc _ Telemetry.Listed.prometheus_laws
              : @Telemetry.Collector prometheus → _;
            Telemetry.registered := λ r : @Telemetry.Registry prometheus,
              @Telemetry.registered _ Telemetry.Listed.prometheus_laws r.1 |}.
  - apply (@Telemetry.collector_new_ok _ Telemetry.Listed.prometheus_laws).
  - done.
  - intros [r ss] c Hc. simpl in *. rewrite decide_False by done. by eexists.
Defined.

#[global] Instance meter_laws : MeterLaws.
Proof.
  split.
  - done.
  - intros [r ss] c r' n ls. simpl. by case_decide; intros [= <-].
  - intros [r ss] m n ls Hne. unfold sample, update; cbn [meter fst snd]. by rewrite lookup_insert_ne.
  - intros [r ss] d ls _. unfold sample, update; cbn [meter fst snd]. by rewrite lookup_insert_eq.
  - intros [r ss] d ls _. unfold sample, update; cbn [meter fst snd]. by rewrite lookup_insert_eq.
Qed.
End Sampled.

(** ** Properties *)

(** C12: at any moment of a running gateway, however its requests and health checks are
    interleaved, the gauge of active connections shows the number of requests that
    were begun and have not been answered: those in flight, and those that ended
    without an answer (dropped, or panicked), which it shows for ever. *)
Theorem active_connections_unanswered `{HttpLaws} `{!WebLib, Auth.JwtLib, Profile}
    `{MeterLaws} {Client Conn} (open : string → Result string Client)
    (connection_manager : Client → Result string Conn) config gs (sh : Shared AnyLimiter) r cs t ps sh' :
  config_ok config → build (Ok ()) open connection_manager config = Ok (gs, sh) →
  Telemetry.Metrics_new = Ret (r, cs) →
  pool_trace visible_ids (arrives gs) ([], sh) t (ps, sh') →
  (Z.of_nat (length t) < 2 ^ 63)%Z →
  sample (after r (metrics t.*2)) "gw_active_connections" [] = Z.of_nat (unanswered t ps).
Proof.
  intros Hc Hb Hr Htr Hlen.
  destruct (run_books gs (build_routed open connection_manager config gs sh Hc Hb) _ _ _ _ Htr)
    as (css & Hbooks & Hall & Hnum).
  rewrite sample_after.
  - rewrite (sample_metrics_new r cs) by done. rewrite Hall. unfold unanswered. rewrite Hnum, Z.add_0_l.
    apply net_books. eapply Forall2_impl; [exact Hbooks|]. intros p c Hp.
    by apply accounted_gauge in Hp as [_ ->].
  - rewrite Hall. eapply all_books; [|exact Hbooks]. intros a ms Ha. by apply accounted_gauge in Ha as [? _].
  - rewrite (sample_metrics_new r cs) by done. pose proof (metrics_length t). lia.
Qed.

Import Demo.

(** A world that drops what it is asked to wait for. *)
Definition dropping {S} (w : World) : Oracle GwE S := {|
  o_rely := λ _ s, s;
  o_ext := λ n X e, world_answer w n e;
  o_await := λ _ _ _, None;
|}.

Lemma dropping_lawful {S} up : lawful (S := S) eq visible_ids (dropping (world up)).
Proof. split; [done| |done]. intros n X e. by destruct e. Qed.

Lemma answering_lawful {S} up : lawful (S := S) eq visible_ids (alone_in (world up)).
Proof. split; [done| |]; intros n X e; destruct e; intros; simplify_eq/=; done. Qed.

Definition demo : GatewayConfig := demo_config (demo_route 1 None None).

Lemma demo_ok : config_ok demo.
Proof. by apply validate_ok_iff; vm_compute. Qed.

(** A request that is answered, and one whose client goes away while it is waiting. *)
Lemma demo_run gs (sh : Shared AnyLimiter) :
  let p := demo_task gs in
  let run1 := exec (alone_in (world first_fails)) p 0 sh in
  let run2 := exec (dropping (world first_fails)) p 0 (r_state run1) in
  pool_trace visible_ids (arrives gs) ([], sh) ((pair 0 <$> r_obs run1) ++ (pair 1 <$> r_obs run2))
    ([Done (r_out run1); Done (r_out run2)], r_state run2).
Proof.
  intros p run1 run2. assert (Hp : arrives gs p) by apply a_request, Cache.list_order_ok.
  eapply trace_arrival; [exact Hp|]. eapply trace_arrival; [exact Hp|]. eapply pool_trace_app.
  - apply (exec_trace _ _ _ 0 p [p; p] 0 sh (answering_lawful _)). done.
  - by apply (exec_trace _ _ _ 1 p [Done (r_out run1); p] 0 (r_state run1) (dropping_lawful _)).
Qed.

Definition demo_gateway : GatewayState * Shared AnyLimiter :=
  match build (Ok ()) (λ url, Ok url) (λ c : string, Ok c) demo with
  | Ok g => g
  | Err _ => (gateway (demo_route 1 None None), mkShared ∅ (UseMemory RateLimit.InMemory.new))
  end.

(** One of the two is counted for ever. *)
Lemma active_connections_unanswered_witness :
  let gs := demo_gateway.1 in
  ∃ r t ps sh', pool_trace visible_ids (arrives gs) ([], demo_gateway.2) t (ps, sh')
    ∧ sample (Meter := Sampled.meter) (after r (metrics t.*2)) "gw_active_connections" [] = 1%Z
    ∧ answered <$> ps = [true; false].
Proof.
  destruct (Telemetry.metrics_new_total (H0 := Sampled.prometheus_laws)) as (r & cs & Hr & _).
  exists r. eexists _, _, _. split; [apply demo_run|]. split.
  - erewrite (active_connections_unanswered (λ url, Ok url) (λ c : string, Ok c) demo
      demo_gateway.1 demo_gateway.2 r cs _ _ _ demo_ok); [|done|exact Hr|apply demo_run|by vm_compute].
    by vm_compute.
  - by vm_compute.
Defined.

(** C13: at any moment of a running gateway, each request that was answered has been counted
    once, and each one that was begun and not answered at most once: so the total of
    [gw_requests_total] is between the number of answers and the number of requests, and
    it is exactly the number of answers when no request is unanswered.  The sample of a
    series is the number of the counted requests with its labels. *)
Theorem requests_total_counts_answers `{HttpLaws} `{!WebLib, Auth.JwtLib, Profile}
    `{MeterLaws} {Client Conn} (open : string → Result string Client)
    (connection_manager : Client → Result string Conn) config gs (sh : Shared AnyLimiter) r cs t ps sh' :
  config_ok config → build (Ok ()) open connection_manager config = Ok (gs, sh) →
  Telemetry.Metrics_new = Ret (r, cs) →
  pool_trace visible_ids (arrives gs) ([], sh) t (ps, sh') →
  (Z.of_nat (length t) < 2 ^ 63)%Z →
  let counted := counted_labels (metrics t.*2) in
  (∀ ls, sample (after r (metrics t.*2)) "gw_requests_total" ls =
         Z.of_nat (length (filter (λ l, l = ls) counted)))
  ∧ responses t ps ≤ length counted ≤ responses t ps + unanswered t ps.
Proof.
  intros Hc Hb Hr Htr Hlen counted.
  destruct (run_books gs (build_routed open connection_manager config gs sh Hc Hb) _ _ _ _ Htr)
    as (css & Hbooks & Hall & Hnum).
  assert (Hok : Forall (λ m, metric_ok m = true) (metrics t.*2)).
  { rewrite Hall. eapply all_books; [|exact Hbooks]. apply accounted_ok. }
  split.
  - intros ls. rewrite sample_after; [|by apply requests_counts|].
    + rewrite (sample_metrics_new r cs), Z.add_0_l by done. by apply net_requests.
    + rewrite (sample_metrics_new r cs) by done. pose proof (metrics_length t). lia.
  - assert (length counted = length (counted_labels (concat (metrics <$> css)))) as ->.
    { subst counted. unfold counted_labels. by rewrite Hall. }
    unfold responses, unanswered. rewrite !Hnum. by apply count_books.
Qed.

Lemma requests_total_counts_answers_witness :
  let gs := demo_gateway.1 in
  ∃ r t ps sh', pool_trace visible_ids (arrives gs) ([], demo_gateway.2) t (ps, sh')
    ∧ sample (Meter := Sampled.meter) (after r (metrics t.*2)) "gw_requests_total" ["r"; "GET"; "200"] = 1%Z
    ∧ responses t ps = 1.
Proof.
  destruct (Telemetry.metrics_new_total (H0 := Sampled.prometheus_laws)) as (r & cs & Hr & _).
  exists r. eexists _, _, _. split; [apply demo_run|].
  edestruct (requests_total_counts_answers (λ url, Ok url) (λ c : string, Ok c) demo
    demo_gateway.1 demo_gateway.2 r cs) as [Hs _]; [exact demo_ok|done|exact Hr|apply demo_run|by vm_compute|].
  split; [rewrite Hs|]; by vm_compute.
Defined.

End Metering.
