(* ===== verification/RedisWindow.v ===== *)
(** The Redis limiter's windows, on a server that any number of checks share.

    The checks are those of src/crates/gateway/src/ratelimit.rs ([RateLimit.Redis]), of all
    the gateways that use the server, interleaved as in Pool.v; each tells what it
    decided ([Decide]).  [RedisServer] is the server: what a command does, and how a key
    expires.  Its laws are the documented ones: INCR counts by one and keeps the expiry,
    EXPIRE sets it, a key without an expiry stays.  [serves] runs the server along a
    trace: a command may be refused or its caller dropped, before or after the server
    has executed it. *)
From S2P Require Import Prelude RustStd Prog Pool Traced Ledger RateLimit.
Import RateLimit.

Module RedisWindow.

(** ** The calls of a check *)

Inductive Cmd : Type → Type :=
| CIncr (k : string) : Cmd (Result string Z)
| CExpire (k : string) (secs : Z) : Cmd (Result string unit)
| CTtl (k : string) : Cmd (Result string Z).

Inductive Ev : Type → Type :=
| Ask {X} (c : Cmd X) : Ev X
| Decide (key : string) (d : RateDecision) : Ev unit.

#[export] Instance conn : Redis.RedisConn Ev := {|
  Redis.ev_incr := λ k, Ask (CIncr k);
  Redis.ev_expire := λ k secs, Ask (CExpire k secs);
  Redis.ev_ttl := λ k, Ask (CTtl k);
|}.

Definition task (key : string) (lim : Z) (window : Duration) : prog Ev Redis.Limiter unit :=
  d ← check key lim window; ext (Decide key d).

(** Any answers: what the server says is up to [serves]. *)
Definition anything : ∀ X, Ev X → X → Prop := λ _ _ _, True.

(** All the calls of one check, from the answers it gets ([None]: dropped). *)
Definition calls_of (key : string) (lim : Z) (window : Duration) (a : option (Result string Z))
    (x : option (Result string unit)) (b : option (Result string Z)) : list (Obs Ev) :=
  let k := Redis.redis_key key in
  let secs := Redis.window_secs window in
  let decide d := [Called (Decide key d) (Some ())] in
  Called (Ask (CIncr k)) a ::
  match a with
  | None => []
  | Some (Err _) => decide (mkDecision true lim lim (as_u64 secs))
  | Some (Ok n) =>
      let last :=
        Called (Ask (CTtl k)) b ::
        match b with
        | None => []
        | Some r =>
            let ttl := match r with Ok ttl => ttl | Err _ => secs end in
            decide (decide_used lim (as_u32 (Z.max n 0)) (as_u64 (Z.max ttl 0)))
        end in
      if (n =? 1)%Z
      then Called (Ask (CExpire k secs)) x :: match x with None => [] | Some _ => last end
      else last
  end.

Section checks.
(** The checks that come up: what is known of their key, limit and window. *)
Context (known : string → Z → Duration → Prop).

Inductive checks : prog Ev Redis.Limiter unit → Prop :=
| a_check key lim window : known key lim window → checks (task key lim window).

Definition on_the_way (cs : list (Obs Ev)) : Prop :=
  cs = [] ∨ ∃ key lim window a x b, known key lim window ∧ cs `prefix_of` calls_of key lim window a x b.
Definition complete (cs : list (Obs Ev)) : Prop :=
  ∃ key lim window a x b, known key lim window ∧ cs = calls_of key lim window a x b.

Lemma complete_on_the_way cs : complete cs → on_the_way cs.
Proof. intros (key & lim & window & a & x & b & Hk & ->). right. by exists key, lim, window, a, x, b. Qed.

Lemma tracks_check p : checks p → tracks (λ _, True) anything on_the_way p [] (λ _ cs, complete cs).
Proof.
  intros [key lim window Hk].
  assert (Hway : ∀ a x b n, on_the_way (take n (calls_of key lim window a x b))).
  { intros a x b n. right. exists key, lim, window, a, x, b. split; [done|]. apply prefix_take. }
  assert (Hall : ∀ a x b, complete (calls_of key lim window a x b)).
  { intros a x b. by exists key, lim, window, a, x, b. }
  unfold task, check, Redis.limiter. split; [by left|]. split; [|exact (Hall None None None)].
  intros [n|e] _.
  2: { split; [exact (Hway (Some (Err e)) None None 1)|]. intros [] _. exact (Hall (Some (Err e)) None None). }
  specialize (Hway (Some (Ok n))). specialize (Hall (Some (Ok n))).
  unfold calls_of in Hway, Hall. cbv zeta in Hway, Hall. cbn. destruct (n =? 1)%Z.
  - split; [exact (Hway None None 1)|]. split; [|exact (Hall None None)]. intros x _.
    split; [exact (Hway (Some x) None 2)|]. split; [|exact (Hall (Some x) None)]. intros r _.
    split; [exact (Hway (Some x) (Some r) 3)|]. intros [] _. exact (Hall (Some x) (Some r)).
  - split; [exact (Hway None None 1)|]. split; [|exact (Hall None None)]. intros r _.
    split; [exact (Hway None (Some r) 2)|]. intros [] _. exact (Hall None (Some r)).
Qed.
End checks.

(** ** The server *)

Definition key_of {X} (c : Cmd X) : string :=
  match c with CIncr k | CExpire k _ | CTtl k => k end.

(** A command that fails. *)
Definition refused {X} (c : Cmd X) (e : string) : X :=
  match c with CIncr _ => Err e | CExpire _ _ => Err e | CTtl _ => Err e end.

Class RedisServer := {
  DB : Type;
  execute : ∀ {X}, Cmd X → DB → X * DB;
  lapse : string → DB → DB → Prop;
}.

(** The expiries that EXPIRE takes: the server keeps the time of expiry in
    milliseconds, in 64 bits. *)
Definition expiry_ok (secs : Z) : Prop := (0 < secs < 2 ^ 53)%Z.

(** The counter of a key (0 when there is none), and whether it has an expiry. *)
Class RedisLaws `{RedisServer} := {
  count : DB → string → Z;
  armed : DB → string → Prop;
  count_nonneg db k : (0 ≤ count db k)%Z;
  incr_reply db k : (count db k + 1 < 2 ^ 63)%Z → (execute (CIncr k) db).1 = Ok (count db k + 1)%Z;
  incr_count db k : (count db k + 1 < 2 ^ 63)%Z → count (execute (CIncr k) db).2 k = (count db k + 1)%Z;
  incr_armed db k : armed (execute (CIncr k) db).2 k ↔ armed db k;
  expire_count db k secs : expiry_ok secs → count (execute (CExpire k secs) db).2 k = count db k;
  expire_armed db k secs : expiry_ok secs → (0 < count db k)%Z → armed (execute (CExpire k secs) db).2 k;
  ttl_count db k : count (execute (CTtl k) db).2 k = count db k;
  ttl_armed db k : armed (execute (CTtl k) db).2 k ↔ armed db k;
  other_count {X} (c : Cmd X) db k : key_of c ≠ k → count (execute c db).2 k = count db k;
  other_armed {X} (c : Cmd X) db k : key_of c ≠ k → armed (execute c db).2 k ↔ armed db k;
  lapse_armed k db db' : lapse k db db' → armed db k;
  lapse_count k db db' : lapse k db db' → count db' k = 0%Z;
  lapse_other_count k k' db db' : lapse k db db' → k ≠ k' → count db' k' = count db k';
  lapse_other_armed k k' db db' : lapse k db db' → k ≠ k' → armed db' k' ↔ armed db k';
}.

Section serves.
Context `{RedisServer} (may : string → Prop).

Definition executed {X} (c : Cmd X) (db db' : DB) : Prop := db' = db ∨ db' = (execute c db).2.

(** [may] are the keys that expire. *)
Inductive serves : DB → list (nat * Obs Ev) → DB → Prop :=
| sv_nil db : serves db [] db
| sv_reply i X (c : Cmd X) db t db' :
    serves (execute c db).2 t db' →
    serves db ((i, Called (Ask c) (Some (execute c db).1)) :: t) db'
| sv_error i X (c : Cmd X) e db db1 t db' :
    executed c db db1 → serves db1 t db' →
    serves db ((i, Called (Ask c) (Some (refused c e))) :: t) db'
| sv_drop i X (c : Cmd X) db db1 t db' :
    executed c db db1 → serves db1 t db' → serves db ((i, Called (Ask c) None) :: t) db'
| sv_decide i key d a db t db' :
    serves db t db' → serves db ((i, Called (Decide key d) a) :: t) db'
| sv_lapse k db db1 t db' : may k → lapse k db db1 → serves db1 t db' → serves db t db'.

End serves.

(** ** What a trace shows of a key *)

Definition incr_of (k : string) (ob : Obs Ev) : option (option (Result string Z)) :=
  match ob with
  | @Called _ X e answer =>
      match e in Ev X return option X → option (option (Result string Z)) with
      | @Ask X c =>
          match c in Cmd X return option X → option (option (Result string Z)) with
          | CIncr k' => λ answer, if decide (k' = k) then Some answer else None
          | _ => λ _, None
          end
      | _ => λ _, None
      end answer
  end.

Definition reply_of (k : string) (ob : Obs Ev) : option Z :=
  match incr_of k ob with Some (Some (Ok n)) => Some n | _ => None end.
Definition error_of (k : string) (ob : Obs Ev) : option unit :=
  match incr_of k ob with Some (Some (Err _)) => Some () | _ => None end.
Definition decision_of (key : string) (ob : Obs Ev) : option RateDecision :=
  match ob with
  | Called (Decide key' d) _ => if decide (key' = key) then Some d else None
  | _ => None
  end.
Definition expires (k : string) (ob : Obs Ev) : bool :=
  match ob with
  | Called (Ask (CExpire k' _)) _ => bool_decide (k' = k)
  | _ => false
  end.

(** The counts that INCR gave, the failures of INCR, the decisions that allow. *)
Definition replies (k : string) (t : list (Obs Ev)) : list Z := omap (reply_of k) t.
Definition failures (k : string) (t : list (Obs Ev)) : nat := length (omap (error_of k) t).
Definition admitted (key : string) (t : list (Obs Ev)) : nat :=
  length (filter (λ d, allowed d = true) (omap (decision_of key) t)).
Definition within (lim : Z) (ns : list Z) : nat := length (filter (λ n, n ≤ lim)%Z ns).

Lemma replies_app k t t' : replies k (t ++ t') = replies k t ++ replies k t'.
Proof. apply omap_app. Qed.
Lemma failures_app k t t' : failures k (t ++ t') = failures k t + failures k t'.
Proof. unfold failures. by rewrite omap_app, length_app. Qed.
Lemma admitted_app key t t' : admitted key (t ++ t') = admitted key t + admitted key t'.
Proof. unfold admitted. by rewrite omap_app, filter_app, length_app. Qed.
Lemma within_app lim ns ns' : within lim (ns ++ ns') = within lim ns + within lim ns'.
Proof. unfold within. by rewrite filter_app, length_app. Qed.

(** The windows of the checks are expiries that the server takes. *)
Definition sane_cmd {X} (c : Cmd X) : Prop :=
  match c with CExpire _ secs => expiry_ok secs | _ => True end.
Definition sane (ob : Obs Ev) : Prop :=
  match ob with Called (Ask c) _ => sane_cmd c | _ => True end.

Definition bump {X} (k : string) (c : Cmd X) : Z :=
  match c with CIncr k' => if decide (k' = k) then 1 else 0 | _ => 0 end.

(** How often INCR was sent for a key. *)
Definition incrs (k : string) (t : list (Obs Ev)) : nat := length (omap (incr_of k) t).

Lemma bump_01 {X} k (c : Cmd X) : (0 ≤ bump k c ≤ 1)%Z.
Proof. destruct c; simpl; [case_decide|..]; lia. Qed.

Lemma incrs_ask {X} k (c : Cmd X) a t :
  Z.of_nat (incrs k (Called (Ask c) a :: t)) = (bump k c + Z.of_nat (incrs k t))%Z.
Proof. unfold incrs. csimpl. destruct c; simpl; [case_decide; simpl|..]; lia. Qed.


Section server.
Context `{RedisLaws} (k : string).

Lemma execute_count {X} (c : Cmd X) db :
  sane_cmd c → (count db k + bump k c < 2 ^ 63)%Z →
  count (execute c db).2 k = (count db k + bump k c)%Z.
Proof.
  intros Hs Hb. destruct (decide (key_of c = k)) as [Hk|Hk].
  - destruct c; simpl in *; subst; [rewrite decide_True in * by done; by apply incr_count| |];
      rewrite Z.add_0_r; [by apply expire_count|apply ttl_count].
  - rewrite other_count by done. destruct c; simpl in *; [rewrite decide_False by done|..]; lia.
Qed.

Lemma executed_count {X} (c : Cmd X) db db1 :
  executed c db db1 → sane_cmd c → (count db k + bump k c < 2 ^ 63)%Z →
  (count db k ≤ count db1 k ≤ count db k + bump k c)%Z.
Proof.
  intros He Hs Hb. pose proof (bump_01 k c). destruct He as [->| ->]; [lia|].
  rewrite execute_count by done. lia.
Qed.

(** A command that is not EXPIRE of the key leaves the key's expiry as it is. *)
Lemma execute_armed {X} (c : Cmd X) db a :
  expires k (Called (Ask c) a) = false → armed (execute c db).2 k ↔ armed db k.
Proof.
  intros He. destruct (decide (key_of c = k)) as [Hk|Hk]; [|by apply other_armed].
  destruct c; simpl in *; subst; [apply incr_armed| |apply ttl_armed].
  by apply bool_decide_eq_false in He.
Qed.

Lemma reply_count {X} (c : Cmd X) db n :
  (count db k + bump k c < 2 ^ 63)%Z →
  reply_of k (Called (Ask c) (Some (execute c db).1)) = Some n → n = (count db k + 1)%Z ∧ bump k c = 1%Z.
Proof.
  destruct c as [k'| |]; simpl; [|done..]. unfold reply_of; simpl.
  case_decide as Hk; [subst k'|done]. intros Hb. rewrite incr_reply by done. by intros [= <-].
Qed.

Lemma reply_refused {X} (c : Cmd X) e : reply_of k (Called (Ask c) (Some (refused c e))) = None.
Proof. destruct c; simpl; [|done..]. unfold reply_of; simpl. by case_decide. Qed.
Lemma reply_dropped {X} (c : Cmd X) : reply_of k (Called (Ask c) None) = None.
Proof. destruct c; simpl; [|done..]. unfold reply_of; simpl. by case_decide. Qed.

(** The numbers that INCR gives along a trace, from one state to another. *)
Definition numbered (lim : Z) (db : DB) (t : list (Obs Ev)) (db' : DB) : Prop :=
  within lim (replies k t) ≤ Z.to_nat (lim - count db k)
  ∧ Forall (λ n, count db k < n ≤ count db k + Z.of_nat (incrs k t))%Z (replies k t)
  ∧ (count db k ≤ count db' k)%Z.

Lemma numbered_other {X} lim db db1 (c : Cmd X) a t db' :
  (count db k ≤ count db1 k ≤ count db k + bump k c)%Z → reply_of k (Called (Ask c) a) = None →
  numbered lim db1 t db' → numbered lim db (Called (Ask c) a :: t) db'.
Proof.
  unfold numbered. intros Hc Hob (Hw & Hn & Hle). rewrite incrs_ask. unfold replies in *. csimpl.
  rewrite Hob. split_and!; [lia| |lia]. eapply Forall_impl; [exact Hn|]. cbv beta. lia.
Qed.

Lemma numbered_reply {X} lim db db1 (c : Cmd X) a t db' :
  count db1 k = (count db k + 1)%Z → bump k c = 1%Z →
  reply_of k (Called (Ask c) a) = Some (count db k + 1)%Z →
  numbered lim db1 t db' → numbered lim db (Called (Ask c) a :: t) db'.
Proof.
  unfold numbered. intros Hc Hone Hob (Hw & Hn & Hle). rewrite incrs_ask. unfold replies in *. csimpl.
  rewrite Hob. split_and!; [| |lia].
  - unfold within in *. rewrite filter_cons. case_decide; simpl; lia.
  - constructor; [lia|]. eapply Forall_impl; [exact Hn|]. cbv beta. lia.
Qed.

(** While the key does not expire, INCR gives it numbers above its count, each once. *)
Lemma serves_numbered may db t db' lim :
  serves may db t db' → ¬ may k → Forall sane t.*2 →
  (count db k + Z.of_nat (incrs k t.*2) < 2 ^ 63)%Z → numbered lim db t.*2 db'.
Proof.
  intros Hs Hk. induction Hs as [db|i X c db t db' Hs IH|i X c e db db1 t db' He Hs IH
    |i X c db db1 t db' He Hs IH|i key d a db t db' Hs IH|key db db1 t db' Hkey Hl Hs IH].
  - intros _ _. unfold numbered, within; simpl. split_and!; [lia|constructor|lia].
  - rewrite fmap_cons. intros [Hc Hsane]%Forall_cons Hb; cbn [snd] in *. rewrite incrs_ask in Hb.
    pose proof (execute_count c db Hc ltac:(lia)) as Hcount. pose proof (bump_01 k c).
    assert (numbered lim (execute c db).2 t.*2 db') by (apply IH; [done|lia]).
    destruct (reply_of k (Called (Ask c) (Some (execute c db).1))) as [n|] eqn:Hr.
    + destruct (reply_count c db n ltac:(lia) Hr) as [-> Hone].
      apply (numbered_reply lim db (execute c db).2); [lia|done..].
    + apply (numbered_other lim db (execute c db).2); [lia|done|done].
  - rewrite fmap_cons. intros [Hc Hsane]%Forall_cons Hb; cbn [snd] in *. rewrite incrs_ask in Hb.
    pose proof (executed_count c db db1 He Hc ltac:(lia)) as Hcount.
    eapply numbered_other; [exact Hcount|apply reply_refused|]. apply IH; [done|lia].
  - rewrite fmap_cons. intros [Hc Hsane]%Forall_cons Hb; cbn [snd] in *. rewrite incrs_ask in Hb.
    pose proof (executed_count c db db1 He Hc ltac:(lia)) as Hcount.
    eapply numbered_other; [exact Hcount|apply reply_dropped|]. apply IH; [done|lia].
  - rewrite fmap_cons. intros [_ Hsane]%Forall_cons Hb. exact (IH Hsane Hb).
  - intros Hsane Hb. assert (Hne : key ≠ k) by (by intros ->).
    pose proof (lapse_other_count key k db db1 Hl Hne) as Hc.
    destruct IH as (Hw & Hn & Hle); [done|lia|]. unfold numbered. rewrite <- Hc. by split_and!.
Qed.
End server.

(** ** What the calls of a check are like *)

#[export] Instance redis_key_inj : Inj (=) (=) Redis.redis_key.
Proof. by intros key key' [= ?]. Qed.

Section shapes.
Context (known : string → Z → Duration → Prop).
Context (Hwindow : ∀ key lim window, known key lim window → expiry_ok (Redis.window_secs window)).

Abbreviation on_the_way := (on_the_way known).

Lemma calls_sane key lim window a x b : known key lim window → Forall sane (calls_of key lim window a x b).
Proof.
  intros Hk%Hwindow. unfold calls_of; cbv zeta.
  repeat match goal with |- Forall _ _ => case_match || constructor end; done.
Qed.

Lemma way_sane cs : on_the_way cs → Forall sane cs.
Proof.
  intros [->|(key & lim & window & a & x & b & Hk & [l Hl])]; [constructor|].
  pose proof (calls_sane key lim window a x b Hk) as Hs. rewrite Hl in Hs. by apply Forall_app in Hs as [Hcs _].
Qed.

(** INCR comes first, and EXPIRE second, after INCR gave 1. *)
Lemma calls_incr key lim window a x b j ob k :
  calls_of key lim window a x b !! j = Some ob → is_some (incr_of k ob) = true → j = 0.
Proof.
  unfold calls_of; cbv zeta. destruct j as [|j]; [done|]. simpl.
  destruct a as [[n|e]|]; [destruct (n =? 1)%Z; [destruct x|]; destruct b|..];
    destruct j as [|[|[|j]]]; simpl; by intros [= <-].
Qed.


(** A call of a task, with those before it. *)
Lemma way_split l1 ob l2 :
  on_the_way (l1 ++ ob :: l2) →
  ∃ key lim window a x b, calls_of key lim window a x b !! length l1 = Some ob
    ∧ l1 = take (length l1) (calls_of key lim window a x b).
Proof.
  intros [Hnil|(key & lim & window & a & x & b & _ & [l Hl])]; [by destruct l1|].
  exists key, lim, window, a, x, b. rewrite Hl, <- app_assoc. simpl. split.
  - by rewrite list_lookup_middle.
  - by rewrite take_app_length.
Qed.

Lemma way_incr k l1 ob l2 : on_the_way (l1 ++ ob :: l2) → is_some (incr_of k ob) = true → l1 = [].
Proof.
  intros (key & lim & window & a & x & b & Hob & _)%way_split Hi.
  by apply nil_length_inv, (calls_incr _ _ _ _ _ _ _ _ _ Hob Hi).
Qed.


(** A check that has ended, and was the first of its window, has sent EXPIRE. *)
Lemma complete_expires k cs :
  complete known cs → 1%Z ∈ replies k cs → Exists (λ ob, expires k ob = true) cs.
Proof.
  intros (key & lim & window & a & x & b & _ & ->) Hin. unfold replies in Hin.
  apply list_elem_of_omap in Hin as (ob & Hob & Hr).
  apply list_elem_of_lookup in Hob as [j Hob].
  assert (j = 0) as ->.
  { eapply (calls_incr _ _ _ _ _ _ _ _ k); [exact Hob|]. unfold reply_of in Hr. by destruct (incr_of k ob). }
  injection Hob as <-. unfold reply_of in Hr; simpl in Hr. case_decide as Hk; [|done].
  destruct a as [[n|e]|]; [|done..]. injection Hr as ->.
  unfold calls_of; cbv zeta; simpl. right. left. by apply bool_decide_eq_true.
Qed.

Lemma count_u32 n : (0 < n < 2 ^ 32)%Z → as_u32 (Z.max n 0) = n.
Proof. intros Hn. unfold as_u32. rewrite Z.max_l by lia. apply Z.mod_small. lia. Qed.

(** Each check that is let through has a number within the limit, or INCR failed. *)
Lemma way_admitted K lim cs :
  (∀ lim' window, known K lim' window → lim' = lim) →
  on_the_way cs → Forall (λ n, 0 < n < 2 ^ 32)%Z (replies (Redis.redis_key K) cs) →
  admitted K cs ≤ failures (Redis.redis_key K) cs + within lim (replies (Redis.redis_key K) cs).
Proof.
  intros Hlim [->|(key & lim' & window & a & x & b & Hk & [l Hl])] Hn; [unfold admitted; simpl; lia|].
  destruct cs as [|ob cs]; [unfold admitted; simpl; lia|].
  assert (Hle : admitted K (ob :: cs) ≤ admitted K (calls_of key lim' window a x b)).
  { rewrite Hl, admitted_app. lia. }
  etrans; [exact Hle|]. change (ob :: cs) with ([ob] ++ cs) in *.
  rewrite failures_app, replies_app, within_app. rewrite replies_app in Hn.
  apply Forall_app in Hn as [Hn _].
  enough (admitted K (calls_of key lim' window a x b)
          ≤ failures (Redis.redis_key K) [ob] + within lim (replies (Redis.redis_key K) [ob])) by lia.
  assert (ob = Called (Ask (CIncr (Redis.redis_key key))) a) as -> by by injection Hl as <-.
  clear Hl Hle. destruct (decide (key = K)) as [->|Hne].
  - rewrite (Hlim _ _ Hk) in *. unfold replies, reply_of, failures, error_of, admitted, within in *.
    csimpl in *. simpl in *. rewrite decide_True in * by done.
    destruct a as [[n|e]|]; csimpl; [|rewrite decide_True by done; simpl; lia|lia].
    rewrite Forall_singleton in Hn.
    rewrite (count_u32 n Hn) in *.
    assert (Hone : ∀ t, length (filter (λ d, allowed d = true) [decide_used lim n t])
                        ≤ length (filter (λ n, n ≤ lim)%Z [n])).
    { intros t. rewrite !filter_cons, !filter_nil. simpl.
      destruct (decide ((n <=? lim)%Z = true)) as [Hle%Z.leb_le|]; [by rewrite decide_True|]. simpl. lia. }
    destruct (n =? 1)%Z; [destruct x as [x|]|]; (destruct b as [r|]); csimpl;
      rewrite ?decide_True by done; first [apply Hone|simpl; lia].
  - enough (admitted K (calls_of key lim' window a x b) = 0) as -> by lia.
    unfold admitted, calls_of; cbv zeta. csimpl.
    destruct a as [[n|e]|]; [destruct (n =? 1)%Z; [destruct x as [x|]|]; (destruct b as [r|])|..];
      csimpl; by rewrite ?decide_False by done.
Qed.
End shapes.

(** ** The pool of checks *)
Section pool.
Context (known : string → Z → Duration → Prop).

Abbreviation run t ps s := (pool_trace anything (checks known) ([], Redis.Connected) t (ps, s)).

Lemma run_checks t ps s :
  run t ps s →
  (∃ css, Forall (on_the_way known) css ∧ t.*2 ≡ₚ concat css)
  ∧ (∀ i, on_the_way known (by_task i t))
  ∧ (Forall ended ps → ∀ i, by_task i t = [] ∨ complete known (by_task i t)).
Proof.
  intros Htr.
  destruct (pool_tracks _ _ _ _ _ _ _ _ (tracks_check known) Htr) as (css & Hks & Hown & Hall & Hlen).
  assert (Hway : ∀ (p : prog Ev Redis.Limiter ()) cs,
    tracks (λ _, True) anything (on_the_way known) p cs (λ _ cs, complete known cs) → on_the_way known cs).
  { intros p cs Hp. destruct p; simpl in Hp; [by apply complete_on_the_way|by destruct Hp..]. }
  assert (Hcss : Forall (on_the_way known) css).
  { apply Forall_lookup. intros i cs Hcs.
    destruct (Forall2_lookup_r _ _ _ _ _ Hks Hcs) as (p & _ & Hp). by eapply Hway. }
  assert (Hnone : ∀ i, css !! i = None → by_task i t = []).
  { intros i Hi%lookup_ge_None. apply by_task_fresh. eapply Forall_impl; [exact Hlen|]. simpl. lia. }
  split_and!; [by exists css| |].
  - intros i. destruct (css !! i) as [cs|] eqn:Hi; [|left; by apply Hnone].
    rewrite <- (Hown i cs Hi). by apply (Forall_lookup_1 _ _ _ _ Hcss Hi).
  - intros Hended i. destruct (css !! i) as [cs|] eqn:Hi; [right|left; by apply Hnone].
    rewrite <- (Hown i cs Hi). destruct (Forall2_lookup_r _ _ _ _ _ Hks Hi) as (p & Hp & Hpt).
    pose proof (Forall_lookup_1 _ _ _ _ Hended Hp) as [o ->]. exact Hpt.
Qed.

Context `{RedisLaws}.
Context (Hwindow : ∀ key lim window, known key lim window → expiry_ok (Redis.window_secs window)).

Lemma run_sane t ps s : run t ps s → Forall sane t.*2.
Proof.
  intros ((css & Hcss & ->) & _)%run_checks. induction Hcss as [|cs css Hcs _ IH]; [constructor|].
  simpl. apply Forall_app. split; [by eapply way_sane|done].
Qed.

Lemma run_admitted K lim t ps s :
  (∀ lim' window, known K lim' window → lim' = lim) → run t ps s →
  Forall (λ n, 0 < n < 2 ^ 32)%Z (replies (Redis.redis_key K) t.*2) →
  admitted K t.*2 ≤ failures (Redis.redis_key K) t.*2 + within lim (replies (Redis.redis_key K) t.*2).
Proof.
  intros Hlim ((css & Hcss & Hall) & _)%run_checks.
  assert (Hperm : ∀ t', t.*2 ≡ₚ t' →
    replies (Redis.redis_key K) t.*2 ≡ₚ replies (Redis.redis_key K) t'
    ∧ failures (Redis.redis_key K) t.*2 = failures (Redis.redis_key K) t'
    ∧ admitted K t.*2 = admitted K t').
  { intros t' Hp. unfold replies, failures, admitted. by split_and!; rewrite Hp. }
  destruct (Hperm _ Hall) as (Hr & -> & ->). unfold within. rewrite Hr. clear Hperm Hr Hall.
  induction Hcss as [|cs css Hcs _ IH]; [unfold admitted; simpl; lia|]. simpl.
  rewrite replies_app, failures_app, admitted_app, filter_app, length_app.
  intros [Hn Hns]%Forall_app. specialize (IH Hns).
  pose proof (way_admitted known K lim cs Hlim Hcs Hn) as Hone. unfold within in Hone. lia.
Qed.



End pool.

(** Every command was answered, and not with an error. *)
Definition well_answered (ob : Obs Ev) : Prop :=
  match ob with
  | @Called _ X e answer =>
      match e in Ev X return option X → Prop with
      | @Ask X c =>
          match c in Cmd X return option X → Prop with
          | CIncr _ | CExpire _ _ | CTtl _ => λ answer, ∃ a, answer = Some (Ok a)
          end
      | _ => λ _, True
      end answer
  end.

(** ** Windows that end *)
Section ends.
Context `{RedisLaws} (known : string → Z → Duration → Prop) (k : string).

(** A key that counts has its expiry, or the check that began its window has not sent
    EXPIRE yet. *)
Definition arming (t : list (nat * Obs Ev)) (db : DB) : Prop :=
  armed db k
  ∨ ∃ i, 1%Z ∈ replies k (by_task i t) ∧ Forall (λ ob, expires k ob = false) (by_task i t).
Definition window_ends (t : list (nat * Obs Ev)) (db : DB) : Prop := (0 < count db k)%Z → arming t db.

Lemma arming_snoc t i ob db db1 :
  expires k ob = false → (armed db k → armed db1 k) → arming t db → arming (t ++ [(i, ob)]) db1.
Proof.
  intros He Ha [Harm|(j & Hin & Hno)]; [left; auto|right]. exists j.
  rewrite by_task_app. destruct (decide (i = j)) as [<-|Hne].
  - rewrite by_task_cons, replies_app. split; [set_solver|]. apply Forall_app. by repeat constructor.
  - by rewrite by_task_other, app_nil_r.
Qed.

(** The check that begins a window. *)
Lemma arming_first t i a t2 db :
  on_the_way known (by_task i (t ++ (i, a) :: t2)) → is_some (incr_of k a) = true →
  expires k a = false → reply_of k a = Some 1%Z → arming (t ++ [(i, a)]) db.
Proof.
  rewrite by_task_app, by_task_cons. intros Hway Hi He Hr. right. exists i.
  rewrite by_task_app, by_task_cons, (way_incr known k _ _ _ Hway Hi). unfold replies; csimpl.
  rewrite Hr. split; [left|]. by repeat constructor.
Qed.

Lemma window_ends_reply {X} (c : Cmd X) t i t2 db :
  let ob := Called (Ask c) (Some (execute c db).1) in
  sane_cmd c → (count db k + 1 < 2 ^ 63)%Z → on_the_way known (by_task i (t ++ (i, ob) :: t2)) →
  window_ends t db → window_ends (t ++ [(i, ob)]) (execute c db).2.
Proof.
  intros ob Hc Hb Hway Hends Hpos. pose proof (bump_01 k c).
  assert (Hcount : count (execute c db).2 k = (count db k + bump k c)%Z)
    by (apply execute_count; [done|lia]).
  pose proof (count_nonneg db k) as Hnn.
  destruct (expires k ob) eqn:He.
  { left. destruct c as [| k' secs|]; [done| |done]. simpl in He. apply bool_decide_eq_true in He as ->.
    apply expire_armed; [done|]. simpl in Hcount. lia. }
  destruct (decide (0 < count db k)%Z) as [Hold|Hzero].
  { apply (arming_snoc t i ob db); [done| |by apply Hends]. by rewrite (execute_armed k c db _ He). }
  assert (Hc0 : count db k = 0%Z) by lia.
  assert (Hbump : bump k c = 1%Z) by (destruct c; simpl in *; [case_decide|..]; lia).
  apply arming_first with t2; [done| |done|].
  - destruct c; simpl in Hbump; [|done..]. simpl. by case_decide.
  - destruct c as [k'| |]; simpl in Hbump; [|done..]. case_decide as Hk; [subst k'|done].
    subst ob. unfold reply_of; simpl. rewrite decide_True by done. by rewrite incr_reply, Hc0 by lia.
Qed.

Lemma serves_window_ends may db t db' t0 :
  serves may db t db' → (∀ i, on_the_way known (by_task i (t0 ++ t))) → Forall sane t.*2 →
  Forall well_answered t.*2 → (count db k + Z.of_nat (length t) < 2 ^ 63)%Z →
  window_ends t0 db → window_ends (t0 ++ t) db'.
Proof.
  intros Hs. revert t0. induction Hs as [db|i X c db t db' Hs IH|i X c e db db1 t db' He Hs IH
    |i X c db db1 t db' He Hs IH|i key d a db t db' Hs IH|key db db1 t db' _ Hl Hs IH];
    intros t0 Hway Hsane Hok Hb Hends.
  - by rewrite app_nil_r.
  - rewrite fmap_cons in Hsane, Hok. apply Forall_cons in Hsane as [Hc Hsane].
    apply Forall_cons in Hok as [_ Hok].
    cbn [snd length] in *. change (sane_cmd c) in Hc.
    assert (Hb1 : (count db k + 1 < 2 ^ 63)%Z) by lia. pose proof (bump_01 k c).
    assert (Hcount : count (execute c db).2 k = (count db k + bump k c)%Z)
      by (apply execute_count; [done|lia]).
    rewrite cons_middle, app_assoc. apply IH; [|done|done|lia|].
    + intros j. rewrite <- app_assoc. apply Hway.
    + apply (window_ends_reply c t0 i t db); [done|lia|apply Hway|done].
  - rewrite fmap_cons in Hok. apply Forall_cons in Hok as [Hwrong _].
    destruct c; by destruct Hwrong as [? [=]].
  - rewrite fmap_cons in Hok. apply Forall_cons in Hok as [Hwrong _].
    destruct c; by destruct Hwrong as [? [=]].
  - rewrite fmap_cons in Hsane, Hok. apply Forall_cons in Hsane as [_ Hsane].
    apply Forall_cons in Hok as [_ Hok].
    cbn [snd length] in *. rewrite cons_middle, app_assoc. apply IH; [|done|done|lia|].
    + intros j. rewrite <- app_assoc. apply Hway.
    + intros Hpos. by apply (arming_snoc t0 i _ db); [| |apply Hends].
  - destruct (decide (key = k)) as [->|Hne].
    + apply IH; [done|done|done| |].
      * rewrite (lapse_count k db db1 Hl). pose proof (count_nonneg db k). lia.
      * intros Hpos. rewrite (lapse_count k db db1 Hl) in Hpos. lia.
    + pose proof (lapse_other_count key k db db1 Hl Hne) as Hc. apply IH; [done|done|done|lia|].
      intros Hpos. rewrite Hc in Hpos. destruct (Hends Hpos) as [Ha|Hr]; [left|by right].
      by apply (lapse_other_armed key k db db1).
Qed.
End ends.

(** ** A server: each key with its counter and whether it expires (in a second) *)
Module Keyed.

Abbreviation keys := (gmap string (N * bool)).

Definition exec_cmd {X} (c : Cmd X) (db : keys) : X * keys :=
  match c in Cmd X return X * keys with
  | CIncr k =>
      let e := default (0%N, false) (db !! k) in
      if (Z.of_N e.1 + 1 <? 2 ^ 63)%Z then (Ok (Z.of_N e.1 + 1)%Z, <[k := (N.succ e.1, e.2)]> db)
      else (Err "increment would overflow", db)
  | CExpire k secs =>
      (Ok (), if (0 <? secs)%Z then alter (λ e, (e.1, true)) k db else delete k db)
  | CTtl k => (Ok (if (default (0%N, false) (db !! k)).2 then 1 else -1)%Z, db)
  end.

Definition counter (db : keys) (k : string) : Z := Z.of_N (default (0%N, false) (db !! k)).1.
Definition expiring (db : keys) (k : string) : Prop := (default (0%N, false) (db !! k)).2 = true.

Lemma exec_other {X} (c : Cmd X) (db : keys) k : key_of c ≠ k → (exec_cmd c db).2 !! k = db !! k.
Proof.
  destruct c as [k'|k' secs|k']; simpl; intros Hne; [| |done].
  - case_match; simpl; [by rewrite lookup_insert_ne|done].
  - case_match; [by rewrite lookup_alter_ne|by rewrite lookup_delete_ne].
Qed.

Lemma exec_incr (db : keys) k :
  (counter db k + 1 < 2 ^ 63)%Z →
  (exec_cmd (CIncr k) db).1 = Ok (counter db k + 1)%Z
  ∧ (exec_cmd (CIncr k) db).2 !! k
    = Some (N.succ (default (0%N, false) (db !! k)).1, (default (0%N, false) (db !! k)).2).
Proof.
  unfold counter. intros Hb%Z.ltb_lt. cbn [exec_cmd]. cbv zeta. rewrite Hb. cbn [fst snd].
  by rewrite lookup_insert_eq.
Qed.

Lemma counter_incr (db : keys) k :
  (counter db k + 1 < 2 ^ 63)%Z → counter (exec_cmd (CIncr k) db).2 k = (counter db k + 1)%Z.
Proof. intros Hb. unfold counter. rewrite (proj2 (exec_incr db k Hb)). simpl. lia. Qed.

Lemma expiring_incr (db : keys) k : expiring (exec_cmd (CIncr k) db).2 k ↔ expiring db k.
Proof.
  unfold expiring. cbn [exec_cmd]. cbv zeta. case_match; cbn [snd]; [by rewrite lookup_insert_eq|done].
Qed.

Lemma exec_expire (db : keys) k secs :
  expiry_ok secs → (exec_cmd (CExpire k secs) db).2 !! k = (λ e, (e.1, true)) <$> db !! k.
Proof. intros [Hs%Z.ltb_lt _]. cbn [exec_cmd]. rewrite Hs. cbn [snd]. by rewrite lookup_alter_eq. Qed.

Lemma counter_expire (db : keys) k secs :
  expiry_ok secs → counter (exec_cmd (CExpire k secs) db).2 k = counter db k.
Proof. intros Hs. unfold counter. rewrite exec_expire by done. by destruct (db !! k). Qed.

Lemma expiring_expire (db : keys) k secs :
  expiry_ok secs → (0 < counter db k)%Z → expiring (exec_cmd (CExpire k secs) db).2 k.
Proof.
  intros Hs. unfold counter, expiring. rewrite exec_expire by done. by destruct (db !! k).
Qed.

Lemma counter_nonneg (db : keys) k : (0 ≤ counter db k)%Z.
Proof. unfold counter. lia. Qed.

Lemma counter_other {X} (c : Cmd X) (db : keys) k :
  key_of c ≠ k → counter (exec_cmd c db).2 k = counter db k.
Proof. intros Hne. unfold counter. by rewrite exec_other. Qed.

Lemma expiring_other {X} (c : Cmd X) (db : keys) k :
  key_of c ≠ k → expiring (exec_cmd c db).2 k ↔ expiring db k.
Proof. intros Hne. unfold expiring. by rewrite exec_other. Qed.

Definition key_lapse (k : string) (db db' : keys) : Prop := expiring db k ∧ db' = delete k db.

Lemma lapse_counter k (db db' : keys) : key_lapse k db db' → counter db' k = 0%Z.
Proof. intros [_ ->]. unfold counter. by rewrite lookup_delete_eq. Qed.

Lemma lapse_counter_other k k' (db db' : keys) :
  key_lapse k db db' → k ≠ k' → counter db' k' = counter db k'.
Proof. intros [_ ->] Hne. unfold counter. by rewrite lookup_delete_ne. Qed.

Lemma lapse_expiring_other k k' (db db' : keys) :
  key_lapse k db db' → k ≠ k' → expiring db' k' ↔ expiring db k'.
Proof. intros [_ ->] Hne. unfold expiring. by rewrite lookup_delete_ne. Qed.

#[global] Instance server : RedisServer := {|
  DB := keys;
  execute := @exec_cmd;
  lapse := key_lapse;
|}.

#[global] Instance laws : RedisLaws := {|
  count := counter : @DB server → _;
  armed := expiring : @DB server → _;
  count_nonneg := counter_nonneg;
  incr_reply db k Hb := proj1 (exec_incr db k Hb);
  incr_count := counter_incr;
  incr_armed := expiring_incr;
  expire_count := counter_expire;
  expire_armed := expiring_expire;
  ttl_count db k := eq_refl;
  ttl_armed db k := reflexivity _;
  other_count := @counter_other;
  other_armed := @expiring_other;
  lapse_armed k db db' Hl := proj1 Hl;
  lapse_count := lapse_counter;
  lapse_other_count := lapse_counter_other;
  lapse_other_armed := lapse_expiring_other;
|}.
End Keyed.

(** ** Properties *)

(** What is known of the checks: their windows are expiries that the server takes, and a
    key has one limit. *)
Definition limits (known : string → Z → Duration → Prop) (K : string) (lim : Z) : Prop :=
  ∀ key lim' window, known key lim' window →
    expiry_ok (Redis.window_secs window) ∧ (key = K → lim' = lim).

(** ** Two checks of one key, one after the other, on a new server *)

(** The answers of INCR and of TTL; [drops]: the caller is dropped when it sends EXPIRE. *)
Definition demo_reply (c left : Z) {X} (e : Ev X) : X :=
  match e in Ev X return X with
  | Ask c' => match c' in Cmd X return X with CIncr _ => Ok c | CExpire _ _ => Ok () | CTtl _ => Ok left end
  | Decide _ _ => ()
  end.
Definition demo_oracle (drops : bool) (c left : Z) : Oracle Ev Redis.Limiter := {|
  o_rely := λ _ s, s;
  o_ext := λ _ X e, demo_reply c left e;
  o_await := λ _ X e,
    if match e with Ask (CExpire _ _) => drops | _ => false end then None else Some (demo_reply c left e);
|}.

Definition demo_known (key : string) (lim : Z) (window : Duration) : Prop :=
  key = "k" ∧ lim = 1%Z ∧ window = 60000000000%Z.
Definition demo_task : prog Ev Redis.Limiter unit := task "k" 1 60000000000.
Definition demo_check (drops : bool) (c left : Z) : list (Obs Ev) :=
  r_obs (exec (demo_oracle drops c left) demo_task 0 Redis.Connected).
Definition demo_end (drops : bool) (c left : Z) : prog Ev Redis.Limiter unit :=
  Done (r_out (exec (demo_oracle drops c left) demo_task 0 Redis.Connected)).
Definition demo_checks : list (nat * Obs Ev) :=
  (pair 0 <$> demo_check false 1 1) ++ (pair 1 <$> demo_check false 2 1).

Lemma demo_limits : limits demo_known "k" 1.
Proof. by intros key lim window (-> & -> & ->). Qed.

Lemma demo_checking drops c left i ps :
  ps !! i = Some demo_task →
  pool_trace anything (checks demo_known) (ps, Redis.Connected) (pair i <$> demo_check drops c left)
    (<[i := demo_end drops c left]> ps, Redis.Connected).
Proof.
  intros Hi. assert (Hl : lawful eq anything (demo_oracle drops c left)) by by split.
  pose proof (exec_trace anything (checks demo_known) _ i demo_task ps 0 Redis.Connected Hl Hi) as Ht.
  by destruct (r_state (exec (demo_oracle drops c left) demo_task 0 Redis.Connected)).
Qed.


Lemma demo_two :
  pool_trace anything (checks demo_known) ([], Redis.Connected) demo_checks
    ([demo_end false 1 1; demo_end false 2 1], Redis.Connected).
Proof.
  eapply trace_arrival; [by apply a_check|]. eapply trace_arrival; [by apply a_check|].
  eapply pool_trace_app; [exact (demo_checking false 1 1 0 [demo_task; demo_task] eq_refl)|].
  exact (demo_checking false 2 1 1 [demo_end false 1 1; demo_task] eq_refl).
Qed.

(** The states of the server. *)
Definition demo_keys (n : N) (expiry : bool) : DB := {["gw:rl:k" := (n, expiry)]}.

Abbreviation incr := (CIncr "gw:rl:k").
Abbreviation expire := (CExpire "gw:rl:k" 60).
Abbreviation ttl := (CTtl "gw:rl:k").

Lemma demo_served : serves (λ _, False) (∅ : DB) demo_checks (demo_keys 2 true).
Proof.
  refine (sv_reply _ 0 _ incr _ _ _ _). refine (sv_reply _ 0 _ expire _ _ _ _).
  refine (sv_reply _ 0 _ ttl _ _ _ _). refine (sv_decide _ 0 _ _ _ _ _ _ _).
  refine (sv_reply _ 1 _ incr _ _ _ _). refine (sv_reply _ 1 _ ttl _ _ _ _).
  refine (sv_decide _ 1 _ _ _ _ _ _ _). exact (sv_nil _ _).
Qed.



(** C8: of all the checks of a key, by any number of requests and of gateways that share
    the server, interleaved in any way, at most the limit are let through in a window
    (while the key does not expire), beside those whose INCR failed, which all are.  The
    key has one limit, the windows are ones that EXPIRE takes, and the key's counter
    stays below 2^32, where the cast to [u32] wraps. *)
Theorem window_admits_limit `{RedisLaws} known may K lim db t ps s db' :
  limits known K lim →
  pool_trace anything (checks known) ([], Redis.Connected) t (ps, s) →
  serves may db t db' → ¬ may (Redis.redis_key K) →
  (count db (Redis.redis_key K) + Z.of_nat (incrs (Redis.redis_key K) t.*2) < 2 ^ 32)%Z →
  admitted K t.*2
    ≤ Z.to_nat (lim - count db (Redis.redis_key K)) + failures (Redis.redis_key K) t.*2.
Proof.
  intros Hlim Hrun Hs Hmay Hb. set (k := Redis.redis_key K) in *.
  pose proof (run_sane known (λ key l w Hk, proj1 (Hlim key l w Hk)) _ _ _ Hrun) as Hsane.
  destruct (serves_numbered k may db t db' lim Hs Hmay Hsane) as (Hw & Hn & _); [lia|].
  enough (admitted K t.*2 ≤ failures k t.*2 + within lim (replies k t.*2)) by lia.
  eapply run_admitted; [|exact Hrun|].
  - intros lim' window Hk. by apply (proj2 (Hlim K lim' window Hk)).
  - eapply Forall_impl; [exact Hn|]. pose proof (count_nonneg db k). cbv beta. lia.
Qed.

Lemma window_admits_limit_witness :
  admitted "k" demo_checks.*2 ≤ 1 ∧ admitted "k" demo_checks.*2 = 1.
Proof.
  split; [|by vm_compute].
  change 1 with (Z.to_nat (1 - count (∅ : DB) (Redis.redis_key "k")) + failures "gw:rl:k" demo_checks.*2).
  eapply (window_admits_limit demo_known _ "k" 1 ∅); [exact demo_limits|exact demo_two|exact demo_served| |].
  - by intros ?.
  - by vm_compute.
Defined.



(** C10: when no command fails and no check is dropped, every window ends: once the checks
    have ended, a key that counts has an expiry. *)
Theorem windows_end `{RedisLaws} known may K lim db t ps s db' :
  limits known K lim →
  pool_trace anything (checks known) ([], Redis.Connected) t (ps, s) → Forall ended ps →
  serves may db t db' → Forall well_answered t.*2 →
  (count db (Redis.redis_key K) + Z.of_nat (length t) < 2 ^ 63)%Z →
  ((0 < count db (Redis.redis_key K))%Z → armed db (Redis.redis_key K)) →
  (0 < count db' (Redis.redis_key K))%Z → armed db' (Redis.redis_key K).
Proof.
  intros Hlim Hrun Hended Hs Hok Hb Ha. set (k := Redis.redis_key K) in *.
  pose proof (run_sane known (λ key l w Hk, proj1 (Hlim key l w Hk)) _ _ _ Hrun) as Hsane.
  destruct (run_checks known _ _ _ Hrun) as (_ & Hway & Hdone). specialize (Hdone Hended).
  intros Hpos. destruct (serves_window_ends known k may db t db' [] Hs Hway Hsane Hok Hb) as [|(i & Hin & Hno)];
    [intros ?; left; auto|done|done|].
  simpl in Hin, Hno. destruct (Hdone i) as [Hnil|Hc]; [by rewrite Hnil in Hin; apply not_elem_of_nil in Hin|].
  pose proof (complete_expires known k _ Hc Hin) as Hex.
  apply Exists_exists in Hex as (ob & Hob & Hexp).
  by rewrite (proj1 (Forall_forall _ _) Hno ob Hob) in Hexp.
Qed.

Lemma windows_end_witness :
  count (demo_keys 2 true) "gw:rl:k" = 2%Z ∧ armed (demo_keys 2 true) "gw:rl:k".
Proof.
  split; [by vm_compute|].
  eapply (windows_end demo_known _ "k" 1 ∅);
    [exact demo_limits|exact demo_two| |exact demo_served| | | |].
  - repeat constructor; by eexists.
  - repeat constructor; by eexists.
  - by vm_compute.
  - by vm_compute.
  - by vm_compute.
Defined.

End RedisWindow.
