(* ===== verification/RedisQuota.v ===== *)
(** The rate limit over a running gateway whose limiter is Redis: how many requests of a
    key get to an upstream, on a server as in RedisWindow.v.

    A task's own calls (Ledger.v) show the number that INCR gave its check; a request
    that has called an upstream has a number within the limit, or its INCR failed.  The
    gateway's definitions are those of Proxy.v and State.v; [keyed], [callers] and
    [beside] are those of Quota.v. *)
From S2P Require Import Prelude RustStd Prog Pool Traced Ledger Config Router RateLimit Cache.
From S2P Require Import Http Auth Telemetry Events State Health Proxy Walk ProxyCalls.
From S2P Require Import Quota RedisWindow Demo.
Import Config State Proxy ProxyCalls Quota RedisWindow.

Module RedisQuota.

(** ** The Redis commands of the gateway's calls *)

Definition cmd_of `{Http} (ob : Obs GwE) : option (Obs Ev) :=
  match ob with
  | @Called _ X e answer =>
      match e in GwE X return option X → option (Obs Ev) with
      | ERedisIncr k => λ answer, Some (Called (Ask (CIncr k)) answer)
      | ERedisExpire k secs => λ answer, Some (Called (Ask (CExpire k secs)) answer)
      | ERedisTtl k => λ answer, Some (Called (Ask (CTtl k)) answer)
      | _ => λ _, None
      end answer
  end.
Definition commands `{Http} (t : list (Obs GwE)) : list (Obs Ev) := omap cmd_of t.
Definition commands_at `{Http} (t : list (nat * Obs GwE)) : list (nat * Obs Ev) :=
  omap (λ io, pair io.1 <$> cmd_of io.2) t.

Definition sent `{Http} (t : list (Obs GwE)) : bool := existsb is_send t.

(** Neither a command nor an upstream call. *)
Definition touch_of `{Http} (ob : Obs GwE) : option () :=
  if is_some (cmd_of ob) || is_send ob then Some () else None.

Section calls.
Context `{Http}.

Lemma commands_app t t' : commands (t ++ t') = commands t ++ commands t'.
Proof. apply omap_app. Qed.

Lemma commands_at_snd t : (commands_at t).*2 = commands t.*2.
Proof.
  unfold commands_at, commands. induction t as [|[i ob] t IH]; [done|]. csimpl.
  destruct (cmd_of ob); csimpl; by rewrite IH.
Qed.

Lemma sent_app t t' : sent (t ++ t') = sent t || sent t'.
Proof. apply existsb_app. Qed.

Lemma untouched t : omap touch_of t = [] → commands t = [] ∧ sent t = false.
Proof.
  unfold commands, sent. induction t as [|ob t IH]; [done|]. csimpl. unfold touch_of.
  by destruct (cmd_of ob), (is_send ob).
Qed.
End calls.

(** ** A request's calls *)

(** A number within the limit, or a failure. *)
Definition passed `{Http} (K : string) (lim : Z) (cs : list (Obs GwE)) : Prop :=
  let k := RateLimit.Redis.redis_key K in
  Forall (λ n, 0 < n < 2 ^ 32)%Z (replies k (commands cs)) →
  1 ≤ failures k (commands cs) + within lim (replies k (commands cs)).

Definition orderly `{Http} (K : string) (lim : Z) (keyed : bool) (cs : list (Obs GwE)) : Prop :=
  Forall sane (commands cs) ∧ (keyed = true → sent cs = true → passed K lim cs).

Lemma passed_app `{Http} K lim cs new : passed K lim cs → passed K lim (cs ++ new).
Proof.
  unfold passed. rewrite commands_app, failures_app, replies_app, within_app.
  intros Hp [Hn _]%Forall_app. specialize (Hp Hn). lia.
Qed.

Definition any_call `{Http} : ∀ X, GwE X → X → Prop := λ _ _ _, True.

Lemma any_call_answer `{Http} X (e : GwE X) : ∃ x, any_call X e x.
Proof. destruct e; first
  [by exists "" | by exists () | by exists 0%Z | by exists (Err "") | by exists (Err (mkSendError false))]. Qed.

(** The configured windows are expiries that a server takes. *)
Definition windows_fit (gs : GatewayState) : Prop :=
  ∀ name rt rl, route gs name = Some rt → rc_rate_limit (rt_config rt) = Some rl →
  (rl_window_secs rl < 2 ^ 53)%Z.

Lemma windows_expire `{WebLib, Auth.JwtLib} gs req key l w :
  windows_fit gs → limit_of gs req = Some (key, l, w) → expiry_ok (RateLimit.Redis.window_secs w).
Proof.
  unfold limit_of. intros Hfit. destruct (Router.match_route _ _ _) as [r|]; [|done]. simpl.
  destruct (route gs (rc_name r)) as [rt|] eqn:Hrt; [|done]. simpl.
  destruct (is_ok _); [|done]. simpl. destruct (rc_rate_limit _) as [rl|] eqn:Hrl; [|done].
  intros [= _ _ <-]. specialize (Hfit _ _ _ Hrt Hrl).
  unfold expiry_ok, RateLimit.Redis.window_secs, Duration_as_secs, Duration_from_secs.
  rewrite Z.div_mul by done. unfold as_i64. rewrite i64_wrap_id by (unfold i64_ok; lia). lia.
Qed.

Section quota.
Context `{WebLib, Auth.JwtLib, Profile}.
Context (it : Cache.hash_order) (gs : GatewayState) (K : string) (lim : Z).
Context (Hwindows : windows_fit gs).

Abbreviation Gw := (prog GwE (Shared AnyLimiter)).

Definition uses_redis (sh : Shared AnyLimiter) : Prop := is_redis (sh_limiter sh) = true.
Definition keeps_redis (sh sh' : Shared AnyLimiter) : Prop := uses_redis sh → uses_redis sh'.

Abbreviation keeping := (acts_by keeps_redis any_call).
Abbreviation ways h := (tracks uses_redis any_call (orderly K lim h)).

(** ** The limiter stays what it is *)

Lemma keeps_same sh sh' : sh_limiter sh' = sh_limiter sh → keeps_redis sh sh'.
Proof. unfold keeps_redis, uses_redis. by intros ->. Qed.

#[local] Instance keeping_walk : Walk gs it (λ A (p : Gw A), keeping p) (λ A (p : Gw A), keeping p).
Proof. apply acts_walk, keeps_same. Qed.

Lemma keeping_check key l w : keeping (on_limiter (RateLimit.check key l w) : Gw _).
Proof.
  eapply (acts_zoom (λ a a', is_redis a = true → is_redis a' = true)).
  - by intros sh; apply keeps_same.
  - by intros sh a a2 [= <-] Ha.
  - apply acts_bind; [by split|]. intros []; (eapply (acts_zoom (λ _ _, True)); [done| |apply acts_any]).
    + by intros [l0|l0] l1 l2.
    + by intros [l0|l0] l1 l2.
Qed.

(** ** The commands of the parts *)

Definition commands_by {A} (p : Gw A) : Prop := emits any_call cmd_of p (λ _ cs, Forall sane cs).

Lemma commands_none {A} (p : Gw A) : emits any_call cmd_of p (λ _ cs, cs = []) → commands_by p.
Proof. apply emits_mono. intros o cs ->. constructor. Qed.

Lemma commands_bind {A B} (p : Gw A) (k : A → Gw B) :
  commands_by p → (∀ a, commands_by (k a)) → commands_by (p ≫= k).
Proof.
  intros Hp Hk. eapply emits_bind; [exact Hp| |done|done].
  intros a cs Hcs. eapply emits_mono; [|apply Hk]. intros o cs' Hcs'. by apply Forall_app.
Qed.

#[local] Instance commands_walk : Walk gs it (@commands_by) (@commands_by).
Proof.
  split; try (intros; constructor); try (intros; by apply commands_none).
  - intros A B p k. apply commands_bind.
  - intros d ls op _ _. unfold metric. case_match; [|constructor]. apply commands_none. done.
  - done.
  - intros A B p k. apply commands_bind.
  - intros A name rt ex none body Hrt Hnone Hbody.
    eapply emits_bind; [apply emits_zoom, emits_pick; done| | |].
    + intros [[i up]|] cs [-> Hpick]; [|done]. destruct (Hpick _ _ eq_refl) as [Hup _].
      apply emits_finally, Hbody. exists rt. split; [done|]. by eapply lookup_lt_Some.
    + by intros m cs [-> _].
    + by intros cs [-> _].
Qed.

#[local] Ltac all_sane :=
  cbn; repeat first [apply Forall_nil_2 | apply Forall_cons; split]; done.

(** The check's own commands. *)
Lemma commands_check key l w :
  expiry_ok (RateLimit.Redis.window_secs w) → commands_by (on_limiter (RateLimit.check key l w)).
Proof.
  intros Hw. apply emits_zoom. intros [redis|m|]; [|constructor..].
  destruct redis; apply emits_zoom.
  - split; [|all_sane]. intros [n|e] _; [|all_sane]. cbn.
    destruct (n =? 1)%Z; [split; [|all_sane]; intros x _|]; (split; [intros r _|]); all_sane.
  - intros now _ x. cbn. by destruct x.
Qed.

(** ** The way of a request *)

(** After the check, or when the key is another one. *)
Lemma ways_only h {A} (p : Gw A) cs :
  Forall sane (commands cs) → (h = true → passed K lim cs) → commands_by p →
  ways h p cs (λ _ cs', orderly K lim h cs').
Proof.
  intros Hcs Hh Hp.
  assert (Hlive : ∀ new, Forall sane (commands new) → orderly K lim h (cs ++ new)).
  { intros new Hnew. split; [rewrite commands_app; by apply Forall_app|].
    intros Ht _. by apply passed_app, Hh. }
  eapply tracks_mono; [|by apply (tracks_only _ _ _ any_call_answer cmd_of sane); [apply Hlive|]].
  intros o cs' (new & -> & Hnew). by apply Hlive.
Qed.

(** Before the check. *)
Definition fresh (cs : list (Obs GwE)) : Prop := commands cs = [] ∧ sent cs = false.

Lemma fresh_orderly cs : fresh cs → orderly K lim true cs.
Proof. intros [Hc Hs]. split; [rewrite Hc; constructor|]. by rewrite Hs. Qed.

Definition mute {A} (p : Gw A) : Prop := emits any_call touch_of p (λ _ cs, Forall (λ _, False) cs).

Lemma mute_ways {A} (p : Gw A) cs (P : list (Obs GwE) → Prop) :
  (∀ new, commands new = [] → sent new = false → P (cs ++ new)) →
  (∀ cs', P cs' → orderly K lim true cs') → mute p → ways true p cs (λ _ cs', P cs').
Proof.
  intros HP Hord Hp.
  assert (Hnew : ∀ new, Forall (λ _, False) (omap touch_of new) → P (cs ++ new)).
  { intros new Hnew. assert (omap touch_of new = []) as [??]%untouched by by destruct Hnew. auto. }
  eapply tracks_mono; [|by apply (tracks_only _ _ _ any_call_answer touch_of (λ _, False)); [auto|]].
  intros o cs' (new & -> & Hno). by apply Hnew.
Qed.

Lemma fresh_then {A B} (p : Gw A) (k : A → Gw B) cs (Q : Outcome B → list (Obs GwE) → Prop) :
  mute p → fresh cs → (∀ o cs', fresh cs' → match o with Ret _ => True | _ => Q o cs' end) →
  (∀ a cs', fresh cs' → ways true (k a) cs' Q) → ways true (p ≫= k) cs Q.
Proof.
  intros Hp [Hc Hs] HQ Hk. apply tracks_bind. eapply tracks_mono; [|eapply (mute_ways p cs fresh)].
  - intros [a|m|] cs' Hf; [by apply Hk|exact (HQ (Panic m) cs' Hf)|exact (HQ Cancelled cs' Hf)].
  - intros new Hnc Hns. split; [by rewrite commands_app, Hc|by rewrite sent_app, Hs].
  - apply fresh_orderly.
  - done.
Qed.

Lemma mute_bind {A B} (p : Gw A) (k : A → Gw B) : mute p → (∀ a, mute (k a)) → mute (p ≫= k).
Proof.
  intros Hp Hk. eapply emits_bind; [exact Hp| |done|done].
  intros a cs Hcs. eapply emits_mono; [|apply Hk]. intros o cs' Hcs'. by apply Forall_app.
Qed.

Lemma mute_metric d ls op : mute (metric d ls op).
Proof. unfold metric. case_match; [intros x _|]; constructor. Qed.
Lemma mute_now : mute Instant_now.
Proof. intros x _. constructor. Qed.
Lemma mute_record name meth st started : mute (record name meth st started).
Proof.
  apply mute_bind; [apply mute_metric|intros _]. apply mute_bind; [apply mute_now|].
  intros now. apply mute_metric.
Qed.

(** ** The check *)

Lemma passed_reply cs n rest :
  fresh cs → (as_u32 (Z.max n 0) <=? lim)%Z = true →
  passed K lim (cs ++ Called (ERedisIncr (RateLimit.Redis.redis_key K)) (Some (Ok n)) :: rest).
Proof.
  intros [Hc _] Hle Hn. rewrite commands_app, Hc in *. unfold commands in *; csimpl in *.
  unfold replies, within in *; csimpl in *. unfold reply_of in *; simpl in *.
  rewrite decide_True in * by done. apply Forall_cons in Hn as [Hn _].
  rewrite count_u32 in Hle by done. rewrite filter_cons, decide_True by by apply Z.leb_le. simpl. lia.
Qed.

Lemma passed_failure cs e rest :
  fresh cs → passed K lim (cs ++ Called (ERedisIncr (RateLimit.Redis.redis_key K)) (Some (Err e)) :: rest).
Proof.
  intros [Hc _] _. rewrite commands_app, Hc. unfold commands; csimpl.
  unfold failures; csimpl. unfold error_of; simpl. rewrite decide_True by done. simpl. lia.
Qed.

Lemma checking cs new :
  fresh cs → Forall sane (commands new) → sent new = false → orderly K lim true (cs ++ new).
Proof.
  intros [Hc Hs] Hnew Hno. split; [by rewrite commands_app, Hc|]. by rewrite sent_app, Hs, Hno.
Qed.

(** What a check leaves. *)
Definition decided (o : Outcome RateLimit.RateDecision) (cs : list (Obs GwE)) : Prop :=
  orderly K lim true cs ∧ sent cs = false
  ∧ match o with Ret d => RateLimit.allowed d = true → passed K lim cs | _ => True end.

Lemma decides o cs new :
  fresh cs → Forall sane (commands new) → sent new = false →
  match o with Ret d => RateLimit.allowed d = true → passed K lim (cs ++ new) | _ => True end →
  decided o (cs ++ new).
Proof.
  intros Hf Hnew Hno Ho. split_and!; [by apply checking| |done].
  destruct Hf as [_ Hs]. by rewrite sent_app, Hs.
Qed.

#[local] Ltac way := rewrite <- ?app_assoc; first [apply checking | apply decides]; try all_sane.

Lemma check_ways W cs :
  fresh cs → expiry_ok (RateLimit.Redis.window_secs W) →
  ways true (on_limiter (RateLimit.check K lim W)) cs decided.
Proof.
  intros Hf HW. split; [by apply fresh_orderly|]. intros [rs [l|l]] Hr; [|done]. cbn.
  split; [by apply fresh_orderly|]. split; [|way].
  intros [n|e] _; [|way; intros _; by apply passed_failure]. cbn.
  assert (Hlast : ∀ new ttl d, new = Called (ERedisIncr (RateLimit.Redis.redis_key K)) (Some (Ok n)) :: ttl →
    Forall sane (commands new) → sent new = false →
    d = RateLimit.decide_used lim (as_u32 (Z.max n 0)) (RateLimit.reset_secs d) →
    decided (Ret d) (cs ++ new)).
  { intros new ttl d -> Hs Hno ->. apply decides; [done..|]. by apply passed_reply. }
  destruct (n =? 1)%Z.
  - split; [way|]. split; [|way]. intros x _. split; [way|]. split; [|way]. intros r _.
    rewrite <- !app_assoc. eapply Hlast; [reflexivity| | |]; all_sane.
  - split; [way|]. split; [|way]. intros r _.
    rewrite <- !app_assoc. eapply Hlast; [reflexivity| | |]; all_sane.
Qed.

(** ** The request *)

(** What is refused after the check calls no upstream. *)
Lemma refused_ways {A} (p : Gw A) cs :
  orderly K lim true cs → sent cs = false → mute p → ways true p cs (λ _ cs', orderly K lim true cs').
Proof.
  intros [Hs _] Hno Hp.
  eapply tracks_mono;
    [|apply (mute_ways p cs (λ cs', Forall sane (commands cs') ∧ sent cs' = false)); [| |done]].
  - intros o cs' [Hs' Hno']. split; [done|]. by rewrite Hno'.
  - intros new Hc Hn. by rewrite commands_app, sent_app, Hc, app_nil_r, Hno, Hn.
  - intros cs' [Hs' Hno']. split; [done|]. by rewrite Hno'.
Qed.

Lemma limited_ways req rt name id started rl W cs :
  Walk.admitted (gs := gs) name rt req → rc_rate_limit (rt_config rt) = Some rl →
  limit_of gs req = Some (K, lim, W) → fresh cs →
  ways true (limit_and_forward it gs req rt name id started) cs (λ _ cs', orderly K lim true cs').
Proof.
  intros Hadm Hrl Hlim Hf. pose proof (windows_expire _ _ _ _ _ Hwindows Hlim) as HW.
  rewrite (admitted_limit name rt req rl Hadm Hrl) in Hlim.
  injection Hlim as Hkey Hl Hw. unfold limit_and_forward. cbv zeta. rewrite Hrl, Hkey, Hl, Hw.
  apply tracks_bind. eapply tracks_mono; [|by apply check_ways].
  intros [d|m|] cs' (Hord & Hno & Hd); [|done..]. cbn [on_ret].
  destruct (RateLimit.allowed d); cbn [negb].
  - apply ways_only; [by destruct Hord|by intros _; apply Hd|]. by apply (walk_lookup (HW := commands_walk)).
  - apply refused_ways; [done..|]. apply mute_bind; [apply mute_metric|intros _].
    apply mute_bind; [apply mute_record|intros _]. constructor.
Qed.

(** The gauge is lowered whatever the answer. *)
Lemma lowering_ways {A} (p : Gw A) cs :
  orderly K lim true cs → mute p → ways true p cs (λ _ cs', orderly K lim true cs').
Proof.
  intros [Hs Hp] Hmute.
  eapply (mute_ways p cs (orderly K lim true)); [|done|done]. intros new Hc Hn.
  split; [by rewrite commands_app, Hc, app_nil_r|]. rewrite sent_app, Hn, orb_false_r.
  intros _ Hsent. by apply passed_app, Hp.
Qed.

Lemma keyed_ways req W :
  limit_of gs req = Some (K, lim, W) →
  ways true (request_task it gs req) [] (λ _ cs, orderly K lim true cs).
Proof.
  intros Hreq. apply tracks_bind.
  apply tracks_mono with (Q := λ _ cs, orderly K lim true cs); [by intros [a|m|] cs|].
  assert (Hend : ∀ A (o : Outcome A) cs,
    fresh cs → match o with Ret _ => True | _ => orderly K lim true cs end).
  { intros A o cs Hf. destruct o; [done|by apply fresh_orderly..]. }
  unfold handle. apply fresh_then; [apply mute_metric|done|apply Hend|intros _ cs1 Hf1].
  apply fresh_then; [apply mute_now|done|apply Hend|intros _ cs2 Hf2].
  apply tracks_bind. apply tracks_mono with (Q := λ _ cs, orderly K lim true cs).
  { intros [a|m|] cs Hord; [|done..]. apply lowering_ways; [done|].
    apply mute_bind; [apply mute_metric|intros _; constructor]. }
  unfold route_and_proxy. cbv zeta. apply fresh_then; [apply mute_now|done|apply Hend|intros started cs3 Hf3].
  apply fresh_then; [case_match; [constructor|intros x _; constructor]|done|apply Hend|intros id cs4 Hf4].
  pose proof Hreq as Hlim. unfold limit_of in Hlim.
  destruct (Router.match_route _ _ _) as [r|] eqn:Hm; [|done]. simpl in Hlim.
  destruct (route gs (rc_name r)) as [rt|] eqn:Hrt; [|done]. simpl in Hlim.
  destruct (Auth.authorize _ _) as [[]|e] eqn:Hauth; [|done]. simpl in Hlim.
  destruct (rc_rate_limit (rt_config rt)) as [rl|] eqn:Hrl; [|done].
  eapply limited_ways; [|done|done|done]. split_and!; [done|by exists r|done].
Qed.

(** Any other task. *)
Lemma other_ways {A} (p : Gw A) : commands_by p → ways false p [] (λ _ cs, orderly K lim false cs).
Proof. by apply ways_only. Qed.

Definition labels (req : Request) : bool := keyed gs K req.

Lemma request_labelled req :
  (∀ l w, limit_of gs req = Some (K, l, w) → l = lim) →
  labelled uses_redis any_call (orderly K lim) (λ h _ cs, orderly K lim h cs)
    (labels req) (request_task it gs req).
Proof.
  intros Hreq. split.
  - unfold labels. destruct (keyed gs K req) eqn:Hkeyed.
    + unfold keyed in Hkeyed. destruct (limit_of gs req) as [[[k l] w]|] eqn:Hlim; [|done].
      apply String.eqb_eq in Hkeyed as ->. apply (keyed_ways req w). by rewrite Hlim, (Hreq l w).
    + apply other_ways, commands_bind; [|intros _; constructor]. apply (walk_handle (HW := commands_walk)).
      * intros op. unfold metric. case_match; [|constructor]. by apply commands_none.
      * intros key l w Hlim. by eapply commands_check, windows_expire.
  - apply acts_bind; [|by intros _]. apply (walk_handle (HW := keeping_walk)).
    + intros op. unfold metric. by case_match.
    + intros key l w _. apply keeping_check.
Qed.
End quota.

Section run.
Context `{WebLib, Auth.JwtLib, Profile}.
Context (it : Cache.hash_order) (gs : GatewayState) (K : string) (lim : Z).
Context (Hwindows : windows_fit gs).

Abbreviation k := (RateLimit.Redis.redis_key K).
Abbreviation labelled_as := (labelled uses_redis any_call (orderly K lim) (λ h _ cs, orderly K lim h cs)).
Abbreviation books_of := (books uses_redis any_call (orderly K lim) (λ h _ cs, orderly K lim h cs)).

Lemma beside_labelled p : beside gs K p → ∃ h, labelled_as h p.
Proof.
  intros [it' req Hreq|c n Hc].
  - exists (labels gs K req). apply request_labelled; [done|]. intros l w Hl. by destruct (Hreq l w).
  - exists false. split.
    + apply other_ways. by apply (walk_task (HW := commands_walk Cache.list_order gs)).
    + by apply (walk_task (HW := keeping_walk Cache.list_order gs)).
Qed.

(** The numbers within the limit, and the failures, that a task's calls show. *)
Definition score (cs : list (Obs Ev)) : nat := failures k cs + within lim (replies k cs).

#[local] Instance score_perm : Proper (Permutation ==> eq) score.
Proof. intros cs cs' Hp. unfold score, failures, within, replies. by rewrite Hp. Qed.

Lemma books_orderly ps hcs t :
  books_of ps hcs t → Forall (λ hc, orderly K lim hc.1 hc.2) hcs.
Proof.
  intros [Hks _ _ _ _]. apply Forall_lookup. intros i hc Hi.
  destruct (Forall2_lookup_r _ _ _ _ _ Hks Hi) as (p & _ & Hp).
  destruct p; simpl in Hp; [done|by destruct Hp..].
Qed.

Lemma scores (hcs : list (bool * list (Obs GwE))) :
  length (filter (λ b, b = true) ((λ hc, (1 <=? score (commands hc.2))%nat) <$> hcs))
  ≤ score (concat (commands <$> hcs.*2)).
Proof.
  induction hcs as [|hc hcs IH]; [done|]. rewrite !fmap_cons, filter_cons. cbn [concat].
  unfold score in *. rewrite failures_app, replies_app, within_app.
  case_decide as Hd; [apply Nat.leb_le in Hd|]; cbn [length]; lia.
Qed.

Lemma books_commands ps hcs t : books_of ps hcs t → commands t.*2 ≡ₚ concat (commands <$> hcs.*2).
Proof.
  intros [_ _ _ Hall _]. unfold commands. rewrite Hall. clear. induction hcs as [|hc hcs IH]; [done|].
  simpl. by rewrite omap_app, IH.
Qed.

Lemma books_sane ps hcs t : books_of ps hcs t → Forall sane (commands t.*2).
Proof.
  intros Hb. rewrite (books_commands _ _ _ Hb). apply books_orderly in Hb.
  induction Hb as [|hc hcs [Hs _] _ IH]; simpl; [constructor|]. by apply Forall_app.
Qed.

(** The requests of the key that called an upstream have a number or a failure each. *)
Lemma callers_score reqs ps hcs t :
  books_of ps hcs t → labels gs K <$> reqs `prefix_of` hcs.*1 →
  Forall (λ n, 0 < n < 2 ^ 32)%Z (replies k (commands t.*2)) →
  length (callers gs K reqs t) ≤ score (commands t.*2).
Proof.
  intros Hb [hs' Hpre] Hn. pose proof (books_commands _ _ _ Hb) as Hc.
  pose proof (books_orderly _ _ _ Hb) as Hord. destruct Hb as [_ _ Hown _ _].
  rewrite Hc. etrans; [|apply scores]. rewrite <- positions_length.
  apply submseteq_length, NoDup_submseteq; [apply NoDup_filter, NoDup_seq|].
  intros i [Hi _]%list_elem_of_filter. destruct (reqs !! i) as [req|] eqn:Hreq; [|done].
  apply andb_true_iff in Hi as [Hkey (io & Hio & Hsend)%existsb_elem_of].
  apply andb_true_iff in Hsend as [<-%Nat.eqb_eq Hsend].
  assert (Hlab : hcs.*1 !! io.1 = Some true).
  { rewrite Hpre. apply lookup_app_l_Some. rewrite list_lookup_fmap, Hreq. simpl. unfold labels.
    by rewrite Hkey. }
  rewrite list_lookup_fmap in Hlab. destruct (hcs !! io.1) as [[h cs]|] eqn:Hcs; [|done].
  injection Hlab as ->. pose proof (Hown _ _ Hcs) as Heq. simpl in Heq. subst cs.
  destruct (Forall_lookup_1 _ _ _ _ Hord Hcs) as [_ Hpass].
  assert (Hin : io.2 ∈ by_task io.1 t).
  { unfold by_task. apply list_elem_of_omap. exists io. by rewrite decide_True. }
  apply list_elem_of_filter. split.
  - rewrite list_lookup_fmap, Hcs. refine (f_equal Some _). apply (proj2 (Nat.leb_le 1 _)), Hpass; [done| |].
    + apply existsb_elem_of. by exists io.2.
    + apply Forall_forall. intros n Hin'. apply (proj1 (Forall_forall _ _) Hn).
      unfold replies, commands in *.
      apply list_elem_of_omap in Hin' as (ob & (o & Ho & Hoc)%list_elem_of_omap & Hr).
      apply list_elem_of_omap. exists ob. split; [|done]. apply list_elem_of_omap. exists o.
      split; [by eapply by_task_elem|done].
  - apply elem_of_seq. rewrite length_fmap. apply lookup_lt_Some in Hcs. lia.
Qed.
End run.

(** ** Properties *)

(** C7: in a gateway that limits through Redis, of all the requests of a key, interleaved
    in any way with each other, with other requests and with health checks, at most the
    limit call an upstream in a window (while the key does not expire), beside those whose
    INCR failed, which the gateway lets through. The key has one limit, and this holds as
    long as its counter stays below 2^32, where the cast to [u32] wraps, and when the
    configured windows are shorter than 2^53 seconds, so that EXPIRE takes them. *)
Theorem redis_limit_bounds_calls `{WebLib, Auth.JwtLib, Profile} `{RedisLaws}
    it gs K lim (keys : string → Prop) db db' reqs (sh : Shared AnyLimiter) t ps' sh' :
  windows_fit gs →
  Forall (λ req, ∀ l w, limit_of gs req = Some (K, l, w) → l = lim) reqs →
  is_redis (sh_limiter sh) = true →
  pool_trace any_call (beside gs K) (request_task it gs <$> reqs, sh) t (ps', sh') →
  serves keys db (commands_at t) db' → ¬ keys (RateLimit.Redis.redis_key K) →
  (count db (RateLimit.Redis.redis_key K)
    + Z.of_nat (incrs (RateLimit.Redis.redis_key K) (commands t.*2)) < 2 ^ 32)%Z →
  length (callers gs K reqs t)
    ≤ Z.to_nat (lim - count db (RateLimit.Redis.redis_key K))
      + failures (RateLimit.Redis.redis_key K) (commands t.*2).
Proof.
  intros Hwin Hreqs Hredis Htr Hs Hkeys Hb. set (k := RateLimit.Redis.redis_key K) in *.
  assert (Hstart : Forall2 (labelled uses_redis any_call (orderly K lim) (λ h _ cs, orderly K lim h cs))
    (labels gs K <$> reqs) (request_task it gs <$> reqs)).
  { apply Forall2_fmap, Forall_Forall2_diag. eapply Forall_impl; [exact Hreqs|].
    intros req. by apply request_labelled. }
  destruct (pool_books _ _ _ _ _ (beside_labelled gs K lim Hwin) _ _ _ _ _ Htr Hredis
    (books_nil _ _ _ _ _ _ Hstart)) as (_ & hcs & Hpre & Hbooks).
  rewrite <- list_fmap_compose in Hpre. simpl in Hpre, Hbooks. rewrite list_fmap_id in Hpre.
  pose proof (books_sane _ _ _ _ _ Hbooks) as Hsane. rewrite <- commands_at_snd in Hsane.
  rewrite <- commands_at_snd in Hb.
  destruct (serves_numbered k keys db (commands_at t) db' lim Hs Hkeys Hsane) as (Hw & Hn & _); [lia|].
  rewrite commands_at_snd in Hw, Hn.
  etrans; [eapply (callers_score gs K lim reqs); [exact Hbooks|exact Hpre|]|unfold score; fold k; lia].
  fold k. eapply Forall_impl; [exact Hn|].
  pose proof (count_nonneg db k). rewrite commands_at_snd in Hb. cbv beta. lia.
Qed.

Import Demo.

(** A quiet world whose INCR gives [n]. *)
Definition counting (n : Z) : World :=
  let w := world first_fails in {|
  w_now := w_now w; w_uuid := w_uuid w; w_body := w_body w; w_up := w_up w;
  w_read := w_read w; w_redis := n; w_probe := w_probe w |}.

Lemma counting_lawful {S} n : lawful (S := S) eq any_call (alone_in (counting n)).
Proof. by split. Qed.

Definition demo_gs : GatewayState := gateway quota_route.
Definition demo_sh : Shared AnyLimiter :=
  mkShared (sh_routes (shared quota_route)) (UseRedis RateLimit.Redis.Connected).
Definition demo_request : prog GwE (Shared AnyLimiter) unit :=
  request_task Cache.list_order demo_gs (get_request []).
Definition demo_run1 := exec (alone_in (counting 1)) demo_request 0 demo_sh.
Definition demo_run2 := exec (alone_in (counting 2)) demo_request 0 (r_state demo_run1).
Definition demo_trace : list (nat * Obs GwE) := (pair 0 <$> r_obs demo_run1) ++ (pair 1 <$> r_obs demo_run2).

Lemma demo_pool :
  pool_trace any_call (beside demo_gs "r:ip:10.0.0.1") ([demo_request; demo_request], demo_sh)
    demo_trace ([Done (r_out demo_run1); Done (r_out demo_run2)], r_state demo_run2).
Proof.
  eapply pool_trace_app.
  - by apply (exec_trace _ _ _ 0 demo_request [demo_request; demo_request] 0 demo_sh (counting_lawful 1)).
  - by apply (exec_trace _ _ _ 1 demo_request [Done (r_out demo_run1); demo_request] 0 _ (counting_lawful 2)).
Qed.

Lemma demo_fits : windows_fit demo_gs.
Proof.
  intros name rt rl Hrt Hrl. unfold route in Hrt; simpl in Hrt.
  apply lookup_singleton_Some in Hrt as [_ <-].
  by injection Hrl as <-.
Qed.

Abbreviation demo_key := "gw:rl:r:ip:10.0.0.1".

Lemma demo_server :
  serves (λ _, False) (∅ : DB) (commands_at demo_trace) {[demo_key := (2%N, true)]}.
Proof.
  refine (sv_reply _ 0 _ (CIncr demo_key) _ _ _ _). refine (sv_reply _ 0 _ (CExpire demo_key 60) _ _ _ _).
  refine (sv_reply _ 0 _ (CTtl demo_key) _ _ _ _). refine (sv_reply _ 1 _ (CIncr demo_key) _ _ _ _).
  refine (sv_reply _ 1 _ (CTtl demo_key) _ _ _ _). exact (sv_nil _ _).
Qed.

(** Two requests of one client, one after the other: one of them calls the upstream. *)
Lemma redis_limit_bounds_calls_witness :
  let K := "r:ip:10.0.0.1"%string in
  let reqs := [get_request []; get_request []] in
  called demo_trace 0 = true ∧ length (callers demo_gs K reqs demo_trace) ≤ 1.
Proof.
  intros K reqs. split; [by vm_compute|].
  assert (Hl : limit_of demo_gs (get_request []) = Some (K, 1%Z, 60000000000%Z)) by by vm_compute.
  assert (Hnone : failures demo_key (commands demo_trace.*2) = 0) by by vm_compute.
  rewrite <- (Nat.add_0_r 1), <- Hnone.
  refine (redis_limit_bounds_calls Cache.list_order demo_gs K 1 (λ _, False) (∅ : DB) _ reqs demo_sh
    demo_trace _ _ demo_fits _ eq_refl demo_pool demo_server _ _).
  - do 2 (apply Forall_cons; split; [intros l w; rewrite Hl; by intros [= <- <-]|]). by apply Forall_nil.
  - by intros [].
  - by vm_compute.
Defined.

End RedisQuota.
