(* ===== verification/ProxyGuard.v ===== *)
(** The active-request counts: a request adds one to the upstream it is sent to
    and takes it away again, however it ends.  The definitions are those of
    Balancer.v and Proxy.v. *)
From S2P Require Import Prelude RustStd Prog Config Router Breaker RateLimit Cache.
From S2P Require Import Http Auth Transform Balancer Telemetry Events State Health Proxy Walk Demo.
Import Config State Proxy.

Module ProxyGuard.

(** ** The balancer *)

Definition counts (s : Balancer.BalState) : list Z := Balancer.active <$> Balancer.ups s.

Definition bump (n : Z) : Z := i64_wrap (n + 1).
Definition unbump (n : Z) : Z := i64_wrap (n - 1).

Lemma unbump_bump n : i64_ok n → unbump (bump n) = n.
Proof.
  unfold i64_ok, unbump, bump, i64_wrap. intros Hn.
  replace ((n + 1 + 2 ^ 63) mod 2 ^ 64 - 2 ^ 63 - 1 + 2 ^ 63)%Z
    with ((n + 1 + 2 ^ 63) mod 2 ^ 64 - 1)%Z by lia.
  rewrite Zminus_mod_idemp_l. rewrite Z.mod_small; lia.
Qed.

Lemma alter_unbump_bump i l : Forall i64_ok l → alter unbump i (alter bump i l) = l.
Proof.
  intros Hl. apply list_eq. intros j. destruct (decide (j = i)) as [->|Hj].
  - rewrite !list_lookup_alter_eq. destruct (l !! i) as [n|] eqn:Hn; [|done]. simpl.
    f_equal. apply unbump_bump. by eapply (Forall_lookup_1 _ _ _ _ Hl).
  - by rewrite !list_lookup_alter_ne.
Qed.

Lemma counts_alter i f g s :
  (∀ u, Balancer.active (f u) = g (Balancer.active u)) →
  counts (Balancer.alter_up i f s) = alter g i (counts s).
Proof.
  intros Hfg. unfold counts, Balancer.alter_up; simpl. apply list_eq. intros j.
  rewrite list_lookup_fmap. destruct (decide (j = i)) as [->|Hj].
  - rewrite !list_lookup_alter_eq, list_lookup_fmap.
    destruct (Balancer.ups s !! i); simpl; [by rewrite Hfg|done].
  - rewrite !list_lookup_alter_ne by done. by rewrite list_lookup_fmap.
Qed.

Lemma counts_guard_new i s : counts (Balancer.guard_new i s).2 = alter bump i (counts s).
Proof. by apply counts_alter. Qed.

Lemma counts_guard_drop i s : counts (Balancer.guard_drop i s) = alter unbump i (counts s).
Proof. by apply counts_alter. Qed.

Lemma counts_set_breaker i cb s : counts (Balancer.set_breaker i cb s) = counts s.
Proof.
  unfold Balancer.set_breaker. rewrite (counts_alter i _ (λ n, n)) by done.
  apply list_alter_id. done.
Qed.

(** The other tasks may do anything but change the counts. *)
Definition same_counts (s s' : Balancer.BalState) : Prop := counts s' = counts s.

Section picks.
Context {E : Type → Type} `{Clock E} (Ans : ∀ X, E X → X → Prop).

Definition still {A} (l : list Z) (p : prog E Balancer.BalState A) : Prop :=
  ∀ s t, counts s = l → wp same_counts Ans p (λ _ s' _, counts s' = l) s t.

Lemma still_bind {A B} l (p : prog E Balancer.BalState A) (k : A → prog E Balancer.BalState B) :
  still l p → (∀ a, still l (k a)) → still l (p ≫= k).
Proof.
  intros Hp Hk s t Hs. apply wp_bind. eapply wp_mono; [|by apply Hp].
  intros [a|m|] s' t' Hs'; simpl; [by apply Hk|done..].
Qed.

Lemma still_act {A} l (f : Balancer.BalState → Outcome A * Balancer.BalState) :
  (∀ s, counts (f s).2 = counts s) → still l (act f).
Proof.
  intros Hf s t Hs s' Hs'. unfold same_counts in Hs'.
  change (counts (f s').2 = l). by rewrite Hf, Hs'.
Qed.

Lemma still_ret {A} l (a : A) : still l (mret a).
Proof. by intros s t Hs. Qed.

Lemma still_breaker {A} l i (p : prog E Breaker.CircuitBreaker A) :
  still l (zoom (Balancer.get_breaker i) (Balancer.set_breaker i) p).
Proof.
  intros s t Hs. apply (wp_zoom_keep _ _ same_counts (λ s, counts s = l)); [| |done].
  - intros cb s' Hs'. by rewrite counts_set_breaker.
  - unfold same_counts. congruence.
Qed.

Lemma still_with_up {A} l i (f : Balancer.UpstreamState → A) : still l (Balancer.with_up i f).
Proof. apply still_act. intros s. by case_match. Qed.

Lemma still_set_healthy l i v : still l (Balancer.set_healthy i v).
Proof.
  apply still_act. intros s. simpl. rewrite (counts_alter i _ (λ n, n)) by done.
  by apply list_alter_id.
Qed.

Lemma still_admits l ex i : still l (Balancer.admits ex i).
Proof.
  unfold Balancer.admits. case_match; [apply still_ret|].
  apply still_bind; [apply still_with_up|]. intros []; [apply still_breaker|apply still_ret].
Qed.

Lemma still_find l ex idxs : still l (Balancer.find_eligible ex idxs).
Proof.
  induction idxs as [|i idxs IH]; [apply still_ret|].
  apply still_bind; [apply still_admits|]. intros []; [apply still_ret|apply IH].
Qed.

Lemma still_rr l b ex k : still l (Balancer.rr_loop b ex k).
Proof.
  induction k as [|k IH]; [apply still_find|].
  apply still_bind; [by apply still_act|]. intros c. case_match; [|by intros s t Hs].
  apply still_bind; [apply still_admits|]. intros []; [apply still_ret|apply IH].
Qed.

Lemma still_least l ex idxs best : still l (Balancer.least_loop ex idxs best).
Proof.
  revert best. induction idxs as [|i idxs IH]; intros best; [apply still_ret|].
  apply still_bind; [apply still_admits|]. intros []; [|apply IH].
  apply still_bind; [apply still_with_up|]. intros a. apply IH.
Qed.

(** A pick adds one on the upstream it returns, and nothing otherwise. *)
Definition after_pick (l : list Z) (o : Outcome (option (nat * Balancer.Upstream))) : list Z :=
  match o with
  | Ret (Some (i, _)) => alter bump i l
  | _ => l
  end.

Definition in_bounds (b : Balancer.Balancer) (o : Outcome (option (nat * Balancer.Upstream)))
    : Prop :=
  match o with Ret (Some (i, _)) => i < length (Balancer.upstreams b) | _ => True end.

Lemma wp_pick_counts l b ex s t :
  counts s = l →
  wp same_counts Ans (Balancer.pick b ex)
    (λ o s' _, counts s' = after_pick l o ∧ in_bounds b o) s t.
Proof.
  intros Hs. apply wp_bind. apply wp_mono with (Q := λ _ s' _, counts s' = l).
  - intros [[i|]|m|] s1 t1 Hs1; simpl; [|done..].
    destruct (Balancer.upstreams b !! i) eqn:Hi; [|done]. intros s2 Hs2. simpl.
    unfold same_counts in Hs2. rewrite <- Hs1, <- Hs2.
    split; [apply counts_guard_new|by eapply lookup_lt_Some].
  - destruct (Balancer.strategy b); [by apply still_rr|by apply still_least].
Qed.
End picks.

(** ** The whole state *)

(** The active counts of every route. *)
Definition held {L} (sh : Shared L) : gmap string (list Z) :=
  (λ rs, counts (rs_bal rs)) <$> sh_routes sh.

Definition same_held {L} (sh sh' : Shared L) : Prop := held sh' = held sh.

Section held.
Context {L : Type}.
Implicit Types sh : Shared L.

Lemma held_lookup sh n : held sh !! n = counts <$> get_bal n sh.
Proof. unfold held, get_bal. rewrite lookup_fmap. by destruct (sh_routes sh !! n). Qed.

Lemma held_alter name f g sh :
  (∀ rs, counts (rs_bal (f rs)) = g (counts (rs_bal rs))) →
  held (alter_route name f sh) = alter g name (held sh).
Proof.
  intros Hfg. unfold held, alter_route; simpl. apply map_eq. intros n.
  rewrite lookup_fmap. destruct (decide (n = name)) as [->|Hn].
  - rewrite !lookup_alter_eq, lookup_fmap.
    destruct (sh_routes sh !! name); simpl; [by rewrite Hfg|done].
  - rewrite !lookup_alter_ne by done. by rewrite lookup_fmap.
Qed.

Lemma held_set_cache name c sh : held (set_cache name c sh) = held sh.
Proof.
  unfold set_cache. rewrite (held_alter name _ (λ l, l)) by done.
  apply map_eq. intros n. destruct (decide (n = name)) as [->|Hn].
  - rewrite lookup_alter_eq. by destruct (held sh !! name).
  - by rewrite lookup_alter_ne.
Qed.

Lemma held_drop_guard name i sh :
  held (drop_guard name i sh) = alter (alter unbump i) name (held sh).
Proof. apply held_alter. intros rs. apply counts_guard_drop. Qed.
End held.

Section guard.
Context `{WebLib, Auth.JwtLib, Profile}.
Context {L : Type} `{!RateLimit.RateLimiter GwE L}.
Context (it : Cache.hash_order) (gs : GatewayState).
Context (Ans : ∀ X, GwE X → X → Prop).

Abbreviation Gw := (prog GwE (Shared L)).

(** [p] leaves the counts as they are, however it ends. *)
Definition keeps {A} (m : gmap string (list Z)) (p : Gw A) : Prop :=
  ∀ sh t, held sh = m → wp same_held Ans p (λ _ sh' _, held sh' = m) sh t.

Lemma keeps_bind {A B} m (p : Gw A) (k : A → Gw B) :
  keeps m p → (∀ a, keeps m (k a)) → keeps m (p ≫= k).
Proof.
  intros Hp Hk sh t Hsh. apply wp_bind. eapply wp_mono; [|by apply Hp].
  intros [a|msg|] sh' t' Hsh'; simpl; [by apply Hk|done..].
Qed.

Lemma keeps_ret {A} m (a : A) : keeps m (mret a).
Proof. by intros sh t Hsh. Qed.
Lemma keeps_ext {X} m (e : GwE X) : keeps m (ext e).
Proof. by intros sh t Hsh x _. Qed.
Lemma keeps_now m : keeps m Instant_now.
Proof. apply keeps_ext. Qed.
Lemma keeps_await {X} m (e : GwE X) : keeps m (await e).
Proof. intros sh t Hsh. by split; [intros x _|]. Qed.
Lemma keeps_metric m d ls op : keeps m (metric d ls op).
Proof. unfold metric. case_match; [apply keeps_ext|by intros sh t Hsh]. Qed.

Lemma keeps_cache {A} m name (p : prog GwE Cache.ResponseCache A) : keeps m (on_cache name p).
Proof.
  intros sh t Hsh. apply (wp_zoom_keep _ _ same_held (λ sh, held sh = m)); [| |done].
  - intros c sh' Hsh'. by rewrite held_set_cache.
  - unfold same_held. congruence.
Qed.

Lemma keeps_limiter {A} m (p : prog GwE L A) : keeps m (on_limiter p).
Proof.
  intros sh t Hsh. apply (wp_zoom_keep _ _ same_held (λ sh, held sh = m)); [done| |done].
  unfold same_held. congruence.
Qed.

(** A part of the balancer. *)
Lemma wp_on_bal {A} m name l (p : prog GwE Balancer.BalState A) (F : Outcome A → list Z)
    (B : Outcome A → Prop) sh t :
  m !! name = Some l → held sh = m →
  (∀ s, counts s = l → wp same_counts Ans p (λ o s' _, counts s' = F o ∧ B o) s t) →
  wp same_held Ans (on_bal name p : Gw A)
    (λ o sh' _, held sh' = <[name := F o]> m ∧ B o) sh t.
Proof.
  intros Hl Hsh Hp. pose proof Hl as Hs. rewrite <- Hsh, held_lookup in Hs.
  apply fmap_Some in Hs as (s & Hs & ->).
  eapply wp_mono; [|apply (wp_zoom _ _ same_counts same_held
    (λ sh : Shared L, ∀ n, n ≠ name → held sh !! n = m !! n) Ans p
    (λ o s _, counts s = F o ∧ B o) s)].
  - intros o sh' t' (Hoth & s' & Hs' & HF & HB). split; [|done]. apply map_eq. intros n.
    destruct (decide (n = name)) as [->|Hn].
    + by rewrite lookup_insert_eq, held_lookup, Hs', <- HF.
    + rewrite lookup_insert_ne by done. by apply Hoth.
  - intros s1 sh1 Hsome. unfold get_bal, set_bal, alter_route in *; simpl.
    rewrite lookup_alter_eq. destruct (sh_routes sh1 !! name); [done|]. by destruct Hsome.
  - intros s1 sh1 Hoth n Hn. unfold set_bal. rewrite (held_alter name _ (λ _, counts s1)) by done.
    rewrite lookup_alter_ne by done. by apply Hoth.
  - unfold same_held, same_counts. intros sh1 sh2 s1 Heq Hoth Hs1. rewrite Heq. split; [done|].
    assert (held sh2 !! name = held sh1 !! name) as Hname by by rewrite Heq.
    rewrite !held_lookup, Hs1 in Hname. simpl in Hname.
    apply fmap_Some in Hname as (s2 & -> & Hc). by exists s2.
  - done.
  - intros n Hn. by rewrite Hsh.
  - by apply Hp.
Qed.

Lemma keeps_on_bal {A} m name (p : prog GwE Balancer.BalState A) :
  is_Some (m !! name) → (∀ l, still Ans l p) → keeps m (on_bal name p).
Proof.
  intros [l Hl] Hp sh t Hsh. eapply wp_mono; [|apply (wp_on_bal m name l p (λ _, l) (λ _, True))]; try done.
  - intros o sh' t' [-> _]. by apply insert_id.
  - intros s Hs. eapply wp_mono; [|by apply Hp]. by intros o s' t'.
Qed.

Lemma keeps_on_breaker {A} m name i (p : prog GwE Breaker.CircuitBreaker A) :
  is_Some (m !! name) → keeps m (on_breaker name i p).
Proof. intros Hm. apply keeps_on_bal; [done|]. intros l. apply still_breaker. Qed.

Lemma keeps_record m name meth st started : keeps m (record name meth st started : Gw unit).
Proof.
  apply keeps_bind; [apply keeps_metric|intros _].
  apply keeps_bind; [apply keeps_now|intros now]. apply keeps_metric.
Qed.

(** After the guard is dropped the counts are those before the pick. *)
Definition in_range (m : gmap string (list Z)) : Prop := map_Forall (λ _ l, Forall i64_ok l) m.

Definition covers (m : gmap string (list Z)) : Prop :=
  ∀ n, is_Some (route gs n) → is_Some (m !! n).

(** The parts without a guard leave the counts as they are, whatever they are. *)
Definition keeps_all {A} (p : Gw A) : Prop := ∀ m, covers m → keeps m p.

Lemma keeps_guarded {A} m name rt ex (none : Gw A) body :
  in_range m → covers m → route gs name = Some rt → keeps_all none →
  (∀ i up, routed_at gs name i → keeps_all (body i up)) →
  keeps m (guarded name (rt_balancer rt) ex none body).
Proof.
  intros Hm Hcov Hrt Hnone Hbody sh t Hsh. destruct (Hcov name) as [l Hl]; [by exists rt|].
  apply wp_bind. eapply wp_mono;
    [|apply (wp_on_bal m name l _ (after_pick l) (in_bounds (rt_balancer rt)) sh t Hl Hsh)].
  2: { intros s Hs. by apply wp_pick_counts. }
  assert (Hid : <[name := l]> m = m) by by apply insert_id.
  intros [[[i up]|]|msg|] sh1 t1 [Hsh1 Hi]; simpl in *; rewrite ?Hid in Hsh1;
    [|by apply Hnone|done..].
  apply wp_finally. eapply wp_mono; [|apply Hbody; [by exists rt| |exact Hsh1]].
  - intros o sh2 t2 Hsh2 sh3 Hsh3. unfold same_held in Hsh3.
    rewrite held_drop_guard, Hsh3, Hsh2. apply map_eq. intros n.
    destruct (decide (n = name)) as [->|Hn].
    + rewrite lookup_alter_eq, lookup_insert_eq. simpl. rewrite alter_unbump_bump; [done|].
      by eapply Hm.
    + by rewrite lookup_alter_ne, lookup_insert_ne.
  - intros n Hn. destruct (decide (n = name)) as [->|Hne]; [rewrite lookup_insert_eq; eauto|].
    rewrite lookup_insert_ne by done. by apply Hcov.
Qed.

#[local] Instance guard_walk m :
  in_range m → covers m → Walk gs it (@keeps_all) (λ A p, keeps m p).
Proof.
  intros Hr Hm.
  assert (Hroute : ∀ m name i, covers m → routed_at gs name i → is_Some (m !! name)).
  { intros m' name i Hm' (rt & Hrt & _). apply Hm'. by exists rt. }
  split.
  - intros A a m' _. apply keeps_ret.
  - intros A B p k Hp Hk m' Hm'. apply keeps_bind; [by apply Hp|]. intros a. by apply Hk.
  - intros d ls op _ _ m' _. apply keeps_metric.
  - intros m' _. apply keeps_now.
  - intros m' _. apply keeps_ext.
  - intros n m' _. apply keeps_await.
  - intros r m' _. apply keeps_await.
  - intros m' _. apply keeps_await.
  - intros url t m' _. apply keeps_await.
  - intros name i Hi m' Hm'. apply keeps_on_breaker. by eapply Hroute.
  - intros name i Hi m' Hm'. apply keeps_on_breaker. by eapply Hroute.
  - intros name i Hi m' Hm'. apply keeps_on_breaker. by eapply Hroute.
  - intros name i Hi m' Hm'. apply keeps_on_bal; [by eapply Hroute|]. intros l. apply still_with_up.
  - intros name i v Hi m' Hm'. apply keeps_on_bal; [by eapply Hroute|]. intros l.
    apply still_set_healthy.
  - intros name k _ m' _. apply keeps_cache.
  - intros name k st hs b _ _ m' _. apply keeps_cache.
  - intros A p Hp. by apply Hp.
  - intros A B p k. apply keeps_bind.
  - intros A name rt ex none body. by apply keeps_guarded.
Qed.

Lemma keeps_handle m req : in_range m → covers m → keeps m (handle (L := L) it gs req).
Proof.
  intros Hr Hm. apply (walk_handle (HW := guard_walk m Hr Hm)).
  { intros op m' _. apply keeps_metric. }
  intros key lim w _ m' _. apply keeps_limiter.
Qed.
End guard.
(** ** Properties *)

(** A request gives back every guard it takes: when it ends, by a response, a
    panic or because its client went away, after any number of attempts, the
    active-request counts are what they were, whatever their values were, when
    nothing else changes them meanwhile (the pool of Flight.v is the general case). *)
Theorem active_counts_restored `{WebLib, Auth.JwtLib, Profile} {L}
    `{!RateLimit.RateLimiter GwE L} it gs o n (sh : Shared L) req :
  (∀ k sh, held (o_rely o k sh) = held sh) →
  (∀ name, is_Some (route gs name) → is_Some (sh_routes sh !! name)) →
  map_Forall (λ _ l, Forall i64_ok l) (held sh) →
  held (r_state (exec o (handle it gs req) n sh)) = held sh.
Proof.
  intros Hrely Hwf Hrange.
  assert (Hlaw : lawful same_held (λ _ _ _, True) o) by (split; [intros k s; apply Hrely|done|done]).
  refine (wp_sound _ _ _ _ o n sh [] Hlaw
    (keeps_handle it gs (λ _ _ _, True) (held sh) req Hrange _ sh [] eq_refl)).
  intros name Hname. unfold held. rewrite lookup_fmap. by apply fmap_is_Some, Hwf.
Qed.

Import Demo.

(** Two attempts; the second upstream had two requests in flight. *)
Definition demo_shared : Shared RateLimit.InMemory.Limiter :=
  alter_route "r" (λ rs, mkRouteState
      (Balancer.alter_up 1 (Balancer.set_active 2) (rs_bal rs)) (rs_cache rs))
    (shared (demo_route 1 None None)).

Lemma active_counts_restored_witness :
  let run := exec (alone_in (world first_fails))
    (handle Cache.list_order (gateway (demo_route 1 None None)) (get_request [])) 0 demo_shared in
  held (r_state run) = held demo_shared ∧ held demo_shared !! "r" = Some [0; 2]%Z
  ∧ length (calls (r_obs run)) = 2.
Proof.
  intros run. split_and!; [|by vm_compute|by vm_compute].
  apply active_counts_restored; [done| |].
  - intros name [rt Hrt]. unfold route, gateway in Hrt; simpl in Hrt.
    apply lookup_singleton_Some in Hrt as [<- _]. vm_compute. eauto.
  - assert (held demo_shared = {[ "r" := [0; 2]%Z ]}) as -> by by vm_compute.
    apply map_Forall_singleton. by repeat constructor.
Defined.

End ProxyGuard.
