(* ===== verification/ProxyGates.v ===== *)
(** The gates before the upstream call: the answers the gateway gives by itself
    when the rate limit is reached or the cache has the response, and what of a
    response the cache keeps.  The definitions are those of Proxy.v. *)
From S2P Require Import Prelude RustStd Prog Config Router Breaker RateLimit Cache.
From S2P Require Import Http Auth Transform Balancer Telemetry Events State Proxy.
From S2P Require Import ProxyCalls ProxyResponse Demo.
Import Config State Proxy ProxyCalls ProxyResponse.

Module ProxyGates.

(** ** Runs up to their events *)
Section runs.
Context `{Http} {S : Type}.

(** Two runs end alike and make the same upstream calls. *)
Definition same_run {A} (r r' : Run GwE S A) : Prop :=
  r_out r = r_out r' ∧ r_state r = r_state r' ∧ calls (r_obs r) = calls (r_obs r').

#[global] Instance same_run_equivalence {A} : Equivalence (@same_run A).
Proof.
  split.
  - by intros r.
  - by intros r r' (? & ? & ?).
  - intros r1 r2 r3 (? & ? & ?) (? & ? & ?). split_and!; congruence.
Qed.

(** [p] returns [a] in [k] steps, without touching the state or an upstream. *)
Definition passes {A} (o : Oracle GwE S) (p : prog GwE S A) (n : nat) (s : S) (a : A)
    (k : nat) : Prop :=
  ∃ obs, exec o p n s = mkRun (Ret a) s (n + k) obs ∧ calls obs = [].

Lemma passes_bind {A B} o (p : prog GwE S A) (f : A → prog GwE S B) n s a k :
  passes o p n s a k → same_run (exec o (p ≫= f) n s) (exec o (f a) (n + k) s).
Proof.
  intros (obs & Hp & Hobs). rewrite (exec_bind_ret o p f n s a) by by rewrite Hp.
  rewrite Hp. unfold same_run; simpl. split_and!; [done..|].
  by rewrite calls_app, Hobs.
Qed.

Lemma passes_bind2 {A B C} o (p : prog GwE S A) (f : A → prog GwE S B) (g : B → prog GwE S C)
    n s a k :
  passes o p n s a k → same_run (exec o ((p ≫= f) ≫= g) n s) (exec o (f a ≫= g) (n + k) s).
Proof.
  intros (obs & Hp & Hobs).
  assert (Hq : exec o (p ≫= f) n s = see obs (exec o (f a) (n + k) s)).
  { rewrite (exec_bind_ret o p f n s a) by by rewrite Hp. by rewrite Hp. }
  change (exec o ((p ≫= f) ≫= g) n s) with (exec o (bind_outcome (p ≫= f) (on_ret g)) n s).
  change (exec o (f a ≫= g) (n + k) s) with (exec o (bind_outcome (f a) (on_ret g)) (n + k) s).
  rewrite !exec_bind_outcome. cbv zeta. rewrite Hq. unfold same_run; simpl.
  split_and!; [done..|]. by rewrite !calls_app, Hobs.
Qed.

Lemma passes_now o n s : passes o Instant_now n s (o_ext o n _ ENowG) 1.
Proof. eexists. split; [simpl; by rewrite Nat.add_1_r|done]. Qed.

Lemma passes_uuid o n s : passes o (ext EUuid) n s (o_ext o n _ EUuid) 1.
Proof. eexists. split; [simpl; by rewrite Nat.add_1_r|done]. Qed.

Lemma passes_ret {A} o n s (a : A) : passes o (mret a) n s a 0.
Proof. eexists. split; [simpl; by rewrite Nat.add_0_r|done]. Qed.

Lemma passes_metric o n s d ls op :
  Telemetry.labels_fit d ls = true → passes o (metric d ls op) n s () 1.
Proof.
  intros Hd. unfold passes, metric. rewrite Hd. eexists. simpl.
  destruct (o_ext o n () _). rewrite Nat.add_1_r. split; done.
Qed.

Lemma passes_seq {A B} o (p : prog GwE S A) (f : A → prog GwE S B) n s a b k k' :
  passes o p n s a k → passes o (f a) (n + k) s b k' → passes o (p ≫= f) n s b (k + k').
Proof.
  intros (obs & Hp & Hobs) (obs' & Hf & Hobs').
  exists (obs ++ obs'). rewrite (exec_bind_ret o p f n s a) by by rewrite Hp.
  rewrite Hp. simpl. rewrite Hf. unfold see; simpl. rewrite Nat.add_assoc. split; [done|].
  by rewrite calls_app, Hobs, Hobs'.
Qed.

Lemma passes_run {A} o (p : prog GwE S A) n s a k :
  passes o p n s a k →
  r_out (exec o p n s) = Ret a ∧ r_state (exec o p n s) = s ∧ calls (r_obs (exec o p n s)) = [].
Proof. intros (obs & -> & Hobs). done. Qed.
End runs.

Section gates.
Context `{WebLib, Auth.JwtLib, Profile}.
Context {L : Type} `{!RateLimit.RateLimiter GwE L}.
Context (it : Cache.hash_order) (gs : GatewayState).

Lemma passes_record o n (sh : Shared L) name m st started :
  passes o (record name m st started) n sh () 3.
Proof.
  apply (passes_seq o _ _ n sh () () 1 2); [by apply passes_metric|].
  apply (passes_seq o _ _ _ sh (o_ext o (n + 1) _ ENowG) () 1 1); [apply passes_now|].
  by apply passes_metric.
Qed.

(** The request id a run at step [n] gives. *)
Definition id_at (o : Oracle GwE (Shared L)) (n : nat) (req : Request) : string :=
  default (o_ext o (n + 3) _ EUuid) (get_str (headers req) CORRELATION_HEADER).

(** The steps before the rate limit. *)
Definition prologue (req : Request) : nat :=
  3 + match get_str (headers req) CORRELATION_HEADER with Some _ => 0 | None => 1 end.

(** An authorised request runs like [limit_and_forward] between the two updates
    of the gauge. *)
Lemma handle_run o n sh req r rt :
  Router.match_route (gs_config gs) (Some (host_of (headers req))) (uri_path (uri req)) = Some r →
  route gs (rc_name r) = Some rt →
  Auth.authorize (rc_auth (rt_config rt)) (headers req) = Ok () →
  same_run (exec o (handle (L := L) it gs req) n sh)
    (exec o (resp ← limit_and_forward it gs req rt (rc_name r) (id_at o n req)
                      (o_ext o (n + 2) _ ENowG);
             _ ← metric Telemetry.active_connections [] Dec; mret resp)
          (n + prologue req) sh).
Proof.
  intros Hm Hrt Hauth. unfold handle.
  etrans; [by apply passes_bind, passes_metric|].
  etrans; [apply passes_bind, passes_now|].
  unfold route_and_proxy. cbv zeta.
  etrans; [apply passes_bind2, passes_now|].
  replace (n + 1 + 1 + 1) with (n + 3) by lia. replace (n + 1 + 1) with (n + 2) by lia.
  unfold id_at, prologue. destruct (get_str (headers req) CORRELATION_HEADER) as [c|].
  - etrans; [apply passes_bind2, passes_ret|]. rewrite Hm, Hrt, Hauth.
    by rewrite <- Nat.add_assoc.
  - etrans; [apply passes_bind2, passes_uuid|]. rewrite Hm, Hrt, Hauth.
    by rewrite <- Nat.add_assoc.
Qed.

(** The gauge changes nothing else. *)
Lemma gauge_run (o : Oracle GwE (Shared L)) n sh (body : prog GwE (Shared L) Response) :
  same_run
    (exec o (resp ← body; _ ← metric Telemetry.active_connections [] Dec; mret resp) n sh)
    (exec o body n sh).
Proof.
  set (k := λ resp : Response, (_ ← metric Telemetry.active_connections [] Dec; mret resp)
              : prog GwE (Shared L) Response).
  change (same_run (exec o (bind_outcome body (on_ret k)) n sh) (exec o body n sh)).
  rewrite exec_bind_outcome. cbv zeta. unfold same_run, see; simpl.
  rewrite calls_app. destruct (r_out (exec o body n sh)) as [resp|m|]; simpl.
  - split_and!; [done..|]. by rewrite app_nil_r.
  - split_and!; [done..|]. by rewrite app_nil_r.
  - split_and!; [done..|]. by rewrite app_nil_r.
Qed.

Lemma limited_run o n sh req r rt :
  Router.match_route (gs_config gs) (Some (host_of (headers req))) (uri_path (uri req)) = Some r →
  route gs (rc_name r) = Some rt →
  Auth.authorize (rc_auth (rt_config rt)) (headers req) = Ok () →
  same_run (exec o (handle (L := L) it gs req) n sh)
    (exec o (limit_and_forward it gs req rt (rc_name r) (id_at o n req)
               (o_ext o (n + 2) _ ENowG)) (n + prologue req) sh).
Proof. intros Hm Hrt Hauth. etrans; [by apply handle_run|apply gauge_run]. Qed.

(** The response to a request over the limit. *)
Definition limited_response (id : string) (d : RateLimit.RateDecision) : Response :=
  mkResponse 429
    (add_ratelimit_headers (rsp_headers (error 429 "rate limit exceeded" id))
       (RateLimit.limit d) 0 (RateLimit.reset_secs d))
    (Bytes (json_error "rate limit exceeded")).

Lemma set_cache_id name c (sh : Shared L) : get_cache name sh = Some c → set_cache name c sh = sh.
Proof.
  unfold get_cache, set_cache, alter_route. intros (rs & Hrs & Hc)%bind_Some.
  destruct sh as [m l]; simpl in *. f_equal. apply map_eq. intros k.
  destruct (decide (k = name)) as [->|Hk]; [|by rewrite lookup_alter_ne].
  rewrite lookup_alter_eq, Hrs. simpl. rewrite <- Hc. by destruct rs.
Qed.

Lemma get_at_hit k now c e :
  Cache.live c → Cache.stored c !! k = Some e → (now < Cache.expires_at e)%Z →
  Cache.get_at k now c = (Ret (Some e), c).
Proof.
  unfold Cache.live, Cache.stored. intros Hl He Hnow.
  unfold Cache.get_at, Cache.locked, with_lock. rewrite Hl. unfold Cache.get_section.
  rewrite He, (proj2 (Z.ltb_lt _ _) Hnow). simpl.
  destruct c as [tt cap [m p]]; simpl in *. by rewrite Hl.
Qed.

Lemma hit_run (o : Oracle GwE (Shared L)) n sh name key c e :
  let now := o_ext o n _ ENowG in
  let sh' := o_rely o (n + 1) sh in
  get_cache name sh' = Some c → Cache.live c → Cache.stored c !! key = Some e →
  (now < Cache.expires_at e)%Z →
  exec o (on_cache name (Cache.get key)) n sh =
    mkRun (Ret (Some e)) sh' (n + 2) [Called ENowG (Some now)].
Proof.
  intros now sh' Hc Hl He Hnow.
  transitivity (see [Called ENowG (Some now)]
    (exec o (on_cache name (act (Cache.get_at key now))) (S n) sh)); [done|].
  unfold on_cache, act. cbn [zoom exec].
  replace (S n) with (n + 1) by lia. fold sh'. rewrite Hc, (get_at_hit key now c e Hl He Hnow).
  rewrite set_cache_id by done. unfold see; simpl. f_equal. lia.
Qed.
End gates.

(** ** What the cache keeps of a response *)
Section stored.
Context `{HttpLaws} `{!WebLib}.

(** The headers rebuilt from what is stored of [h]. *)
Definition restored (h : HeaderMap) : HeaderMap :=
  foldl insert_stored HeaderMap_new (header_pairs h).

Lemma restored_snoc l h nv :
  foldl insert_stored h (l ++ [nv]) = insert_stored (foldl insert_stored h l) nv.
Proof. by rewrite foldl_app. Qed.

(** The texts of the values of one name. *)
Definition texts (h : HeaderMap) (n : HeaderName) : list string :=
  omap HeaderValue_to_str (HeaderMap_get_all h n).

Lemma pairs_texts h n :
  (filter (λ kv, kv.1 = HeaderName_as_str n) (header_pairs h)).*2 = texts h n.
Proof.
  unfold texts, header_pairs. rewrite <- iter_get_all.
  induction (HeaderMap_iter h) as [|[m v] l IH]; [done|].
  rewrite omap_cons_app, filter_app, fmap_app, IH, filter_cons. simpl fst.
  destruct (decide (m = n)) as [->|Hne].
  - rewrite fmap_cons, omap_cons_app. f_equal. cbn [snd].
    destruct (HeaderValue_to_str v); [|done]. simpl. by rewrite filter_cons, decide_True.
  - destruct (HeaderValue_to_str v); [|done]. simpl.
    rewrite filter_cons, decide_False; [done|]. by intros ?%as_str_inj.
Qed.

Lemma pairs_good h : Forall (λ kv, ∃ n, kv.1 = HeaderName_as_str n ∧ visible kv.2 = true)
                       (header_pairs h).
Proof.
  unfold header_pairs. induction (HeaderMap_iter h) as [|[m v] l IH]; [constructor|].
  rewrite omap_cons_app. apply Forall_app. split; [|done].
  destruct (HeaderValue_to_str v) as [t|] eqn:Ht; [|constructor].
  apply Forall_singleton. exists m. split; [done|]. by eapply to_str_visible.
Qed.

(** Inserting a list of stored pairs leaves the last text of each name. *)
Lemma insert_all l n :
  Forall (λ kv, ∃ n, kv.1 = HeaderName_as_str n ∧ visible kv.2 = true) l →
  HeaderValue_to_str <$> HeaderMap_get_all (foldl insert_stored HeaderMap_new l) n =
  Some <$> option_list (last (filter (λ kv, kv.1 = HeaderName_as_str n) l).*2).
Proof.
  induction l as [|[k t] l IH] using rev_ind; intros Hl.
  { cbn [foldl]. by rewrite get_all_new. }
  apply Forall_app in Hl as [Hl Hkt]. apply Forall_singleton in Hkt as (m & Hk & Ht).
  simpl in Hk, Ht. subst k. rewrite restored_snoc, filter_app, fmap_app.
  destruct (value_of_visible t Ht) as (v & Hfrom & Hto).
  unfold insert_stored at 1; simpl. rewrite name_again, Hfrom, get_all_insert.
  rewrite filter_cons, filter_nil. simpl. destruct (decide (m = n)) as [->|Hne].
  - rewrite decide_True by done. simpl. rewrite last_snoc. simpl. by rewrite Hto.
  - rewrite decide_False by (by intros ?%as_str_inj). simpl. rewrite app_nil_r. by apply IH.
Qed.

Lemma restored_texts h n :
  HeaderValue_to_str <$> HeaderMap_get_all (restored h) n = Some <$> option_list (last (texts h n)).
Proof. unfold restored. rewrite insert_all by apply pairs_good. by rewrite pairs_texts. Qed.
End stored.

(** The headers [finish_response] sends, and stores, for an upstream's answer. *)
Definition sent_headers `{WebLib} (hs : HeaderMap) (t : HeaderTransforms) (id : string) : HeaderMap :=
  set_header (Transform.apply_transforms (Transform.filtered_response_headers hs) t)
    CORRELATION_HEADER id.

Section restored_all.
Context `{HttpLaws} `{!WebLib}.

Lemma get_all_set_header_ne h name value n :
  plain_name name = true → n ≠ HeaderName_from_static name →
  HeaderMap_get_all (set_header h name value) n = HeaderMap_get_all h n.
Proof.
  intros Hp Hn. rewrite set_header_plain, Transform.get_all_set by done.
  case_match; [|done]. by rewrite decide_False.
Qed.

Lemma texts_all h n :
  (∀ v, v ∈ HeaderMap_get_all h n → is_Some (HeaderValue_to_str v)) →
  HeaderValue_to_str <$> HeaderMap_get_all h n = Some <$> texts h n.
Proof.
  unfold texts. induction (HeaderMap_get_all h n) as [|v l IH]; intros Hall; [done|].
  rewrite omap_cons_app, fmap_app, fmap_cons.
  destruct (Hall v) as [t Ht]; [set_solver|]. rewrite Ht. simpl. f_equal.
  apply IH. set_solver.
Qed.

Lemma last_option_list {A} (l : list A) :
  option_list (last (Some <$> l)) = Some <$> option_list (last l).
Proof. rewrite fmap_last. by destruct (last l). Qed.
End restored_all.

(** ** Properties *)

(** C18: when the limiter refuses, keyed by the scope of the route, the answer is
    429 with the limit, zero remaining and the reset time in its headers; no
    upstream is called and nothing is changed but by the limiter. *)
Theorem rate_limit_gate `{HttpLaws} `{!WebLib, Auth.JwtLib, Profile} {L}
    `{!RateLimit.RateLimiter GwE L, !QuietLimiter L} it gs o n (sh : Shared L) req r rt rl d :
  Router.match_route (gs_config gs) (Some (host_of (headers req))) (uri_path (uri req)) = Some r →
  route gs (rc_name r) = Some rt →
  Auth.authorize (rc_auth (rt_config rt)) (headers req) = Ok () →
  rc_rate_limit (rt_config rt) = Some rl →
  let key := rate_key (rl_scope rl) (rc_name r) (client_ip (headers req) (peer_ip req))
               (headers req) in
  let chk := exec o (on_limiter (RateLimit.check key (rl_limit rl)
               (Duration_from_secs (rl_window_secs rl)))) (n + prologue req) sh in
  r_out chk = Ret d → RateLimit.allowed d = false →
  let run := exec o (handle it gs req) n sh in
  ∃ resp, r_out run = Ret resp
    ∧ rsp_status resp = 429%Z
    ∧ get_str (rsp_headers resp) "x-ratelimit-limit" = Some (u_to_string (RateLimit.limit d))
    ∧ get_str (rsp_headers resp) "x-ratelimit-remaining" = Some "0"
    ∧ get_str (rsp_headers resp) "x-ratelimit-reset" = Some (u_to_string (RateLimit.reset_secs d))
    ∧ get_str (rsp_headers resp) "retry-after" = Some (u_to_string (RateLimit.reset_secs d))
    ∧ calls (r_obs run) = []
    ∧ r_state run = r_state chk.
Proof.
  intros Hm Hrt Hauth Hrl key chk Hd Hden run.
  destruct (limited_run it gs o n sh req r rt Hm Hrt Hauth) as (Hout & Hst & Hcs).
  fold run in Hout, Hst, Hcs. unfold limit_and_forward in Hout, Hst, Hcs.
  cbv zeta in Hout, Hst, Hcs. rewrite Hrl in Hout, Hst, Hcs. fold key in Hout, Hst, Hcs.
  rewrite (exec_bind_ret o _ _ (n + prologue req) sh d Hd) in Hout, Hst, Hcs.
  fold chk in Hout, Hst, Hcs. rewrite Hden in Hout, Hst, Hcs. cbn [negb] in Hout, Hst, Hcs.
  set (id := id_at o n req) in *. set (started := o_ext o (n + 2) _ ENowG) in *.
  assert (Hp : passes o
    (_ ← metric Telemetry.rate_limit_rejections [rc_name r] Inc;
     _ ← record (rc_name r) (method req) 429 started;
     mret (limited_response id d)) (r_step chk) (r_state chk) (limited_response id d) (1 + (3 + 0))).
  { apply (passes_seq _ _ _ _ _ ()); [by apply passes_metric|].
    apply (passes_seq _ _ _ _ _ ()); [apply passes_record|apply passes_ret]. }
  apply passes_run in Hp as (Ho & Hs & Hc).
  exists (limited_response id d). split; [rewrite Hout; exact Ho|].
  assert (Hchk : calls (r_obs chk) = []).
  { apply (emits_exec any_answer call_of (λ _ _, True) _ (λ _ cs, cs = []) o); [done|].
    apply emits_zoom, check_quiet. by intros X []. }
  unfold limited_response, add_ratelimit_headers. cbn [rsp_headers rsp_status]. split_and!.
  - done.
  - rewrite !get_set_header_ne by done. apply get_set_header_eq; [done|apply u_to_string_visible].
  - rewrite !get_set_header_ne by done. by apply get_set_header_eq.
  - rewrite get_set_header_ne by done. apply get_set_header_eq; [done|apply u_to_string_visible].
  - apply get_set_header_eq; [done|apply u_to_string_visible].
  - rewrite Hcs. unfold see; cbn [r_obs]. rewrite calls_app, Hchk. exact Hc.
  - rewrite Hst. exact Hs.
Qed.

(** C19: a GET on a route with a cache and no limit, whose response is cached and
    still fresh when the lookup happens, is answered from the cache: with the
    stored status and body, marked as a hit, without an upstream call and without
    changing anything. *)
Theorem cache_hit_gate `{HttpLaws} `{!WebLib, Auth.JwtLib, Profile} {L}
    `{!RateLimit.RateLimiter GwE L} it gs o n (sh : Shared L) req r rt c e :
  Router.match_route (gs_config gs) (Some (host_of (headers req))) (uri_path (uri req)) = Some r →
  route gs (rc_name r) = Some rt →
  Auth.authorize (rc_auth (rt_config rt)) (headers req) = Ok () →
  rc_rate_limit (rt_config rt) = None →
  rt_cached rt = true → method req = "GET" → cache_bypass (headers req) = false →
  let now := o_ext o (n + prologue req) _ ENowG in
  let sh' := o_rely o (n + prologue req + 1) sh in
  get_cache (rc_name r) sh' = Some c → Cache.live c →
  Cache.stored c !! Cache.key "GET" (host_of (headers req))
                     (default "/" (uri_path_and_query (uri req))) = Some e →
  (now < Cache.expires_at e)%Z →
  let run := exec o (handle it gs req) n sh in
  ∃ resp, r_out run = Ret resp
    ∧ rsp_status resp = default 200%Z (StatusCode_from_u16 (Cache.status e))
    ∧ rsp_body resp = Bytes (Cache.body e)
    ∧ get_str (rsp_headers resp) "x-cache" = Some "HIT"
    ∧ calls (r_obs run) = []
    ∧ r_state run = sh'.
Proof.
  intros Hm Hrt Hauth Hrl Hcached Hget Hbyp now sh' Hc Hl He Hnow run.
  destruct (limited_run it gs o n sh req r rt Hm Hrt Hauth) as (Hout & Hst & Hcs).
  fold run in Hout, Hst, Hcs. unfold limit_and_forward in Hout, Hst, Hcs.
  rewrite Hrl in Hout, Hst, Hcs. unfold lookup_and_forward in Hout, Hst, Hcs.
  cbv zeta in Hout, Hst, Hcs. rewrite Hcached, Hget, Hbyp, String.eqb_refl in Hout, Hst, Hcs.
  cbn [andb negb] in Hout, Hst, Hcs.
  set (id := id_at o n req) in *. set (started := o_ext o (n + 2) _ ENowG) in *.
  set (key := Cache.key "GET" _ _) in *.
  pose proof (hit_run o (n + prologue req) sh (rc_name r) key c e Hc Hl He Hnow) as Hhit.
  rewrite (exec_bind_ret o _ _ (n + prologue req) sh (Some e)) in Hout, Hst, Hcs
    by by rewrite Hhit.
  rewrite Hhit in Hout, Hst, Hcs. cbn [r_obs r_step r_state] in Hout, Hst, Hcs.
  assert (Hp : passes o
    (_ ← metric Telemetry.cache_hits [rc_name r] Inc;
     _ ← record (rc_name r) "GET" (default 200%Z (StatusCode_from_u16 (Cache.status e))) started;
     mret (cached_response e rt id)) (n + prologue req + 2) sh' (cached_response e rt id) (1 + (3 + 0))).
  { apply (passes_seq _ _ _ _ _ ()); [by apply passes_metric|].
    apply (passes_seq _ _ _ _ _ ()); [apply passes_record|apply passes_ret]. }
  apply passes_run in Hp as (Ho & Hs & Hcalls).
  exists (cached_response e rt id). split_and!; [rewrite Hout; exact Ho|done|done| | |].
  - unfold cached_response, build_response. cbv zeta. cbn [rsp_headers].
    rewrite get_set_header_ne by done. by apply get_set_header_eq.
  - rewrite Hcs. exact Hcalls.
  - rewrite Hst. exact Hs.
Qed.

(** C35: a response served from the cache has the status and body of the response
    that was stored, the id of the request it answers, and, of every header whose
    values were text, the last value: a header with one value comes back as it
    was sent, whatever the route's transforms. *)
Theorem cached_response_roundtrip `{HttpLaws} `{!WebLib} hs rt id0 id st body exp :
  (100 ≤ st ≤ 999)%Z → visible id = true →
  let out := sent_headers hs (rc_response_headers (rt_config rt)) id0 in
  let resp := cached_response (Cache.mkCached st (header_pairs out) body exp) rt id in
  rsp_status resp = st ∧ rsp_body resp = Bytes body
  ∧ get_str (rsp_headers resp) CORRELATION_HEADER = Some id
  ∧ ∀ name, name ≠ HeaderName_from_static "x-cache" →
      name ≠ HeaderName_from_static CORRELATION_HEADER →
      (∀ v, v ∈ HeaderMap_get_all out name → is_Some (HeaderValue_to_str v)) →
      HeaderValue_to_str <$> HeaderMap_get_all (rsp_headers resp) name =
      option_list (last (HeaderValue_to_str <$> HeaderMap_get_all out name)).
Proof.
  intros Hst Hid out resp. split_and!.
  - simpl. rewrite from_u16_spec, (proj2 (Z.leb_le _ _)), (proj2 (Z.leb_le _ _)) by lia. done.
  - done.
  - by apply get_set_header_eq.
  - intros name Hx Hcorr Htext. unfold resp, cached_response, build_response. cbv zeta.
    cbn [rsp_headers Cache.headers]. fold (restored out).
    rewrite !get_all_set_header_ne by done. rewrite Transform.get_all_transforms.
    pose proof (restored_texts out name) as Hr. pose proof (texts_all out name Htext) as Ht.
    unfold out, sent_headers in *. rewrite get_all_set_header_ne in * by done.
    rewrite Transform.get_all_transforms in *.
    destruct (Transform.last_added name _) as [v|]; [done|].
    case_decide; [done|]. by rewrite Ht, last_option_list.
Qed.

(** What reaches an upstream: no hop-by-hop header of the client (unless the
    route's transforms add one), the request id, and every end-to-end header the
    route does not rewrite, with all its values. *)
Theorem upstream_headers_spec `{HttpLaws} `{!WebLib} req rt id :
  visible id = true →
  let t := rc_request_headers (rt_config rt) in
  let out := forwarded_headers req rt id in
  get_str out CORRELATION_HEADER = Some id
  ∧ ∀ n, n ≠ HeaderName_from_static CORRELATION_HEADER →
      (∀ v, ¬ Transform.adds t n v) →
      (Transform.is_hop_by_hop (HeaderName_as_str n) = true → HeaderMap_get_all out n = [])
      ∧ (Transform.is_hop_by_hop (HeaderName_as_str n) = false → ¬ Transform.removes t n →
         n ∉ HeaderName_from_static <$> Transform.forwarding_names →
         HeaderMap_get_all out n = HeaderMap_get_all (headers req) n).
Proof.
  intros Hid t out. split; [by apply get_set_header_eq|]. intros n Hn Hadd.
  unfold out, forwarded_headers. cbv zeta. fold t.
  rewrite get_all_set_header_ne, Transform.get_all_transforms by done.
  pose proof (Transform.last_added_spec n (ht_add t)) as Hl.
  destruct (Transform.last_added n (ht_add t)) as [v|].
  { destruct Hl as (nv & ? & ? & ?). exfalso. apply (Hadd v). by exists nv. }
  split.
  - intros Hhop. case_decide; [done|]. rewrite Transform.forwarded_other, Hhop; [done|].
    intros Hin%Transform.forwarding_end_to_end. congruence.
  - intros Hhop Hrem Hnot. rewrite decide_False by done. by rewrite Transform.forwarded_other, Hhop.
Qed.

Import Demo.

Lemma upstream_headers_spec_witness :
  let req := get_request [header "connection" "close"; header "accept" "text/html"] in
  let out := forwarded_headers req (from_config (demo_route 0 None None)).1 "id" in
  get_str out CORRELATION_HEADER = Some "id"
  ∧ HeaderMap_get_all out (HeaderName_from_static "connection") = []
  ∧ HeaderMap_get_all out (HeaderName_from_static "accept") = ["text/html"].
Proof.
  intros req out.
  destruct (upstream_headers_spec req (from_config (demo_route 0 None None)).1 "id" eq_refl)
    as [Hid Hall].
  assert (Hno : ∀ n v, ¬ Transform.adds HeaderTransforms_default n v).
  { intros n v (nv & Hin & _). by apply not_elem_of_nil in Hin. }
  split_and!; [exact Hid| |].
  - apply Hall; [apply (bool_decide_eq_true _); by vm_compute|apply Hno|by vm_compute].
  - refine (eq_trans (proj2 (Hall (HeaderName_from_static "accept") _ _) _ _ _) _).
    + apply (bool_decide_eq_true _); by vm_compute.
    + apply Hno.
    + by vm_compute.
    + unfold Transform.removes. apply not_elem_of_nil.
    + apply (bool_decide_eq_true _); by vm_compute.
    + by vm_compute.
Defined.

(** One request per minute and client: the second one is refused. *)
Definition limited_route : RouteConfig :=
  demo_route 0 None (Some {| rl_scope := ScopeIp; rl_limit := 1; rl_window_secs := 60 |}).

Definition after_one : Shared RateLimit.InMemory.Limiter :=
  r_state (run_in (world first_fails) limited_route (get_request [])).

Definition status_of (o : Outcome Response) : Z :=
  match o with Ret r => rsp_status r | _ => 0%Z end.

Lemma rate_limit_gate_witness :
  ∃ resp, r_out (exec (alone_in (world first_fails))
                   (handle Cache.list_order (gateway limited_route) (get_request [])) 0 after_one)
      = Ret resp
    ∧ rsp_status resp = 429%Z
    ∧ get_str (rsp_headers resp) "x-ratelimit-limit" = Some "1"
    ∧ get_str (rsp_headers resp) "retry-after" = Some "60".
Proof.
  destruct (rate_limit_gate Cache.list_order (gateway limited_route)
    (alone_in (world first_fails)) 0 after_one (get_request []) limited_route
    (from_config limited_route).1
    {| rl_scope := ScopeIp; rl_limit := 1; rl_window_secs := 60 |}
    (RateLimit.mkDecision false 1 0 60)) as (resp & Hout & Hst & Hlim & _ & _ & Hretry & _).
  - by vm_compute.
  - by vm_compute.
  - by vm_compute.
  - done.
  - by vm_compute.
  - done.
  - exists resp. split_and!; [exact Hout|exact Hst|exact Hlim|exact Hretry].
Defined.

(** A response with two cookies is cached by the first request. *)
Definition cached_route : RouteConfig :=
  demo_route 0 (Some {| cc_ttl_secs := 60; cc_max_entries := 10 |}) None.

Definition cookie_headers : list (Assoc.name * string) :=
  [header "set-cookie" "a=1"; header "set-cookie" "b=2"; header "etag" "v1"].

Definition all_ok (url : string) : Result SendError UpstreamResponse :=
  Ok (mkUpResp 200 cookie_headers).

Definition after_miss : Shared RateLimit.InMemory.Limiter :=
  r_state (run_in (world all_ok) cached_route (get_request [])).

Definition hit_entry : Cache.CachedResponse :=
  Cache.mkCached 200 [("set-cookie", "a=1"); ("set-cookie", "b=2"); ("etag", "v1");
                      ("x-request-id", "uuid")] "answer" 60000000025.

Lemma cache_hit_gate_witness :
  ∃ resp, r_out (exec (alone_in (world all_ok))
                   (handle Cache.list_order (gateway cached_route) (get_request [])) 0 after_miss)
      = Ret resp
    ∧ rsp_body resp = Bytes "answer" ∧ get_str (rsp_headers resp) "x-cache" = Some "HIT".
Proof.
  destruct (get_cache "r" after_miss) as [c|] eqn:Hc; [|by vm_compute in Hc].
  destruct (cache_hit_gate Cache.list_order (gateway cached_route)
    (alone_in (world all_ok)) 0 after_miss (get_request []) cached_route
    (from_config cached_route).1 c hit_entry) as (resp & Hout & _ & Hbody & Hx & _).
  - by vm_compute.
  - by vm_compute.
  - by vm_compute.
  - done.
  - done.
  - done.
  - by vm_compute.
  - exact Hc.
  - vm_compute in Hc. by injection Hc as <-.
  - vm_compute in Hc. by injection Hc as <-.
  - done.
  - exists resp. split_and!; [exact Hout|exact Hbody|exact Hx].
Defined.

(** The etag survives the cache, and of the two cookies only the last. *)
Lemma cached_response_roundtrip_witness :
  let rt := (from_config cached_route).1 in
  let out := sent_headers cookie_headers (rc_response_headers (rt_config rt)) "uuid" in
  let resp := cached_response (Cache.mkCached 200 (header_pairs out) "answer" 9) rt "other" in
  HeaderValue_to_str <$> HeaderMap_get_all (rsp_headers resp) (HeaderName_from_static "etag")
    = [Some "v1"]
  ∧ HeaderValue_to_str <$> HeaderMap_get_all (rsp_headers resp) (HeaderName_from_static "set-cookie")
    = [Some "b=2"]
  ∧ length (HeaderMap_get_all out (HeaderName_from_static "set-cookie")) = 2.
Proof.
  intros rt out resp.
  destruct (cached_response_roundtrip (H := Assoc.http) cookie_headers rt "uuid" "other" 200 "answer" 9)
    as (_ & _ & _ & Hall); [lia|done|].
  assert (Hne : ∀ s t, plain_name s = true → plain_name t = true →
            to_ascii_lowercase s ≠ to_ascii_lowercase t →
            HeaderName_from_static s ≠ HeaderName_from_static t).
  { intros s t Hs Ht Hst Heq. by apply Hst, static_eq. }
  split_and!; [| |by vm_compute].
  - refine (eq_trans (Hall (HeaderName_from_static "etag") _ _ _) _); [by apply Hne..| |done].
    apply (proj1 (Forall_forall _ _)). vm_compute. repeat constructor; eauto.
  - refine (eq_trans (Hall (HeaderName_from_static "set-cookie") _ _ _) _); [by apply Hne..| |done].
    apply (proj1 (Forall_forall _ _)). vm_compute. repeat constructor; eauto.
Defined.

End ProxyGates.
