(* ===== verification/Flight.v ===== *)
(** The active-request counts in a pool of tasks: at every moment, the count of an
    upstream is the number of requests that hold a guard on it.  A task owns at
    most one guard (the logic is that of Pool.v).  The definitions are those of
    Balancer.v, Health.v and Proxy.v. *)
From S2P Require Import Prelude RustStd Prog Pool Config Router Breaker RateLimit Cache.
From S2P Require Import Http Auth Transform Balancer Telemetry Events State Health Proxy Walk Tasks.
From S2P Require Import Demo ProxyGuard.
Import Config State Proxy Tasks ProxyGuard.

Module Flight.

(** ** Counting guards *)

(** Whether the guard [h] is one on [k]. *)
Definition ind `{EqDecision K} (k : K) (h : option K) : Z := if decide (h = Some k) then 1 else 0.

(** A count that changes by [d]. *)
Definition shift (d z : Z) : Z := if decide (d = 0%Z) then z else i64_wrap (z + d).

Lemma shift_same `{EqDecision K} (k : K) h z : shift (ind k h - ind k h) z = z.
Proof. unfold shift. by rewrite Z.sub_diag. Qed.

(** How many of the guards are on [k]. *)
Definition on `{EqDecision K} (k : K) (hs : list (option K)) : nat :=
  length (filter (λ h, h = Some k) hs).

Lemma on_app `{EqDecision K} (k : K) hs hs' : on k (hs ++ hs') = on k hs + on k hs'.
Proof. unfold on. by rewrite filter_app, length_app. Qed.

Lemma on_cons `{EqDecision K} (k : K) h hs :
  Z.of_nat (on k (h :: hs)) = (ind k h + Z.of_nat (on k hs))%Z.
Proof. unfold on, ind. rewrite filter_cons. case_decide; simpl; lia. Qed.

Lemma on_insert `{EqDecision K} (k : K) hs i h h' :
  hs !! i = Some h →
  Z.of_nat (on k (<[i := h']> hs)) = (Z.of_nat (on k hs) + (ind k h' - ind k h))%Z.
Proof.
  intros Hi. rewrite insert_take_drop by (by eapply lookup_lt_Some).
  rewrite <- (take_drop_middle hs i h Hi) at 3.
  rewrite !on_app, !Nat2Z.inj_add, !on_cons. lia.
Qed.

Lemma on_le `{EqDecision K} (k : K) hs : on k hs ≤ length hs.
Proof. apply length_filter. Qed.

Lemma on_none `{EqDecision K} (k : K) hs : Forall (λ h, h = None) hs → on k hs = 0.
Proof.
  unfold on. induction 1 as [|h hs -> _ IH]; [done|]. rewrite filter_cons.
  by rewrite decide_False.
Qed.

Lemma i64_wrap_small n : (- 2 ^ 63 ≤ n < 2 ^ 63)%Z → i64_wrap n = n.
Proof. intros Hn. unfold i64_wrap. rewrite Z.mod_small; lia. Qed.

Lemma shift_wrap d n : shift d (i64_wrap n) = i64_wrap (n + d).
Proof.
  unfold shift. case_decide as Hd; [by rewrite Hd, Z.add_0_r|]. unfold i64_wrap.
  replace ((n + 2 ^ 63) mod 2 ^ 64 - 2 ^ 63 + d + 2 ^ 63)%Z
    with ((n + 2 ^ 63) mod 2 ^ 64 + d)%Z by lia.
  rewrite Zplus_mod_idemp_l. f_equal. f_equal. lia.
Qed.

(** ** A balancer *)
Section balancer.
Context {E : Type → Type} `{Clock E} (Ans : ∀ X, E X → X → Prop).

Section steady.
Context {H1 : Type} (moves : H1 → Balancer.BalState → H1 → Balancer.BalState → Prop).
Context (Hsame : ∀ h s s', counts s' = counts s → moves h s h s').

Abbreviation steady := (neutral (λ _, True) Ans moves).

Lemma steady_act {X} (f : Balancer.BalState → Outcome X * Balancer.BalState) :
  (∀ s, counts (f s).2 = counts s) → steady (act f).
Proof. intros Hf. apply neutral_act. intros h s _. split; [done|]. apply Hsame, Hf. Qed.

Lemma steady_breaker {A} i (p : prog E Breaker.CircuitBreaker A) :
  steady (zoom (Balancer.get_breaker i) (Balancer.set_breaker i) p).
Proof.
  apply neutral_zoom; [by intros h s; apply Hsame|]. intros h s cb _. split; [done|].
  apply Hsame, counts_set_breaker.
Qed.

Lemma steady_with_up {A} i (f : Balancer.UpstreamState → A) : steady (Balancer.with_up i f).
Proof. apply steady_act. intros s. by case_match. Qed.

Lemma steady_set_healthy i v : steady (Balancer.set_healthy i v).
Proof.
  apply steady_act. intros s. simpl. rewrite (counts_alter i _ (λ n, n)) by done.
  by apply list_alter_id.
Qed.

Lemma steady_admits ex i : steady (Balancer.admits ex i).
Proof.
  unfold Balancer.admits. case_match; [apply neutral_ret|].
  apply neutral_bind; [apply steady_with_up|]. intros []; [apply steady_breaker|apply neutral_ret].
Qed.

Lemma steady_find ex idxs : steady (Balancer.find_eligible ex idxs).
Proof.
  induction idxs as [|i idxs IH]; [apply neutral_ret|].
  apply neutral_bind; [apply steady_admits|]. intros []; [apply neutral_ret|apply IH].
Qed.

Lemma steady_rr b ex k : steady (Balancer.rr_loop b ex k).
Proof.
  induction k as [|k IH]; [apply steady_find|].
  apply neutral_bind; [by apply steady_act|]. intros c. case_match; [|done].
  apply neutral_bind; [apply steady_admits|]. intros []; [apply neutral_ret|apply IH].
Qed.

Lemma steady_least ex idxs best : steady (Balancer.least_loop ex idxs best).
Proof.
  revert best. induction idxs as [|i idxs IH]; intros best; [apply neutral_ret|].
  apply neutral_bind; [apply steady_admits|]. intros []; [|apply IH].
  apply neutral_bind; [apply steady_with_up|]. intros a. apply IH.
Qed.
End steady.

(** One guard at most, on an upstream of this balancer. *)
Definition moves_bal (h : option nat) (s : Balancer.BalState) (h' : option nat)
    (s' : Balancer.BalState) : Prop :=
  ∀ j, counts s' !! j = shift (ind j h' - ind j h) <$> counts s !! j.

Lemma moves_bal_same h s s' : counts s' = counts s → moves_bal h s h s'.
Proof.
  intros Hc j. rewrite Hc. destruct (counts s !! j); simpl; [|done]. by rewrite shift_same.
Qed.

Lemma moves_bal_new i s : moves_bal None s (Some i) (Balancer.guard_new i s).2.
Proof.
  intros j. rewrite counts_guard_new. unfold ind. destruct (decide (j = i)) as [->|Hj].
  - by rewrite list_lookup_alter_eq, decide_True, decide_False.
  - rewrite list_lookup_alter_ne by done. rewrite !decide_False by congruence.
    by destruct (counts s !! j).
Qed.

(** What a pick owns when it has ended. *)
Definition picked_guard (b : Balancer.Balancer) {K} (key : nat → K)
    (o : Outcome (option (nat * Balancer.Upstream))) (h : option K) : Prop :=
  match o with
  | Ret (Some (i, _)) => h = Some (key i) ∧ i < length (Balancer.upstreams b)
  | _ => h = None
  end.

(** A pick takes a guard on the upstream it returns, and none otherwise. *)
Lemma owns_pick b ex :
  owns (λ _, True) Ans moves_bal (Balancer.pick b ex) None (picked_guard b (λ i, i)).
Proof.
  apply owns_bind_outcome. eapply owns_mono.
  2: { destruct (Balancer.strategy b); [apply steady_rr|apply steady_least]; apply moves_bal_same. }
  intros [[i|]|m|] h ->; [|done..]. simpl. destruct (Balancer.upstreams b !! i) eqn:Hi; [|done].
  intros s _. split; [done|]. exists (Some i). split; [apply moves_bal_new|].
  split; [done|]. by eapply lookup_lt_Some.
Qed.
End balancer.

(** ** The whole state *)
Section flight.
Context `{WebLib, Auth.JwtLib, Profile}.
Context {L : Type} `{!RateLimit.RateLimiter GwE L}.
Context (it : Cache.hash_order) (gs : GatewayState) (Ans : ∀ X, GwE X → X → Prop).

Abbreviation Gw := (prog GwE (Shared L)).
Abbreviation guard := (option (string * nat)).

(** The active count of an upstream. *)
Definition tally (κ : string * nat) (sh : Shared L) : option Z :=
  l ← held sh !! κ.1; l !! κ.2.

Definition moves (h : guard) (sh : Shared L) (h' : guard) (sh' : Shared L) : Prop :=
  ∀ κ, tally κ sh' = shift (ind κ h' - ind κ h) <$> tally κ sh.

(** Every route of the gateway has its state. *)
Definition present (sh : Shared L) : Prop :=
  ∀ name, is_Some (route gs name) → is_Some (sh_routes sh !! name).

Definition flat {A} (p : Gw A) : Prop := neutral present Ans moves p.

Lemma moves_same h sh sh' : held sh' = held sh → moves h sh h sh'.
Proof.
  intros Heq κ. unfold tally. rewrite Heq.
  destruct (held sh !! κ.1 ≫= _) as [z|]; simpl; [|done]. by rewrite shift_same.
Qed.

Lemma present_alter name f sh : present sh → present (alter_route name f sh).
Proof.
  intros Hp n Hn. simpl. destruct (decide (n = name)) as [->|Hne].
  - rewrite lookup_alter_eq. by apply fmap_is_Some, Hp.
  - rewrite lookup_alter_ne by done. by apply Hp.
Qed.

Lemma flat_metric d ls op : flat (metric d ls op).
Proof. unfold metric. case_match; [apply neutral_ext|done]. Qed.

Lemma flat_now : flat Instant_now.
Proof. apply neutral_ext. Qed.

Lemma flat_cache {A} name (p : prog GwE Cache.ResponseCache A) : flat (on_cache name p).
Proof.
  apply neutral_zoom; [by intros h s; apply moves_same|]. intros h sh c Hsh.
  split; [by apply present_alter|]. apply moves_same, held_set_cache.
Qed.

Lemma flat_limiter {A} (p : prog GwE L A) : flat (on_limiter p).
Proof.
  apply neutral_zoom; [by intros h s; apply moves_same|]. intros h sh l Hsh.
  split; [exact Hsh|]. by apply moves_same.
Qed.

Lemma held_set_bal name s (sh : Shared L) : held (set_bal name s sh) = alter (λ _, counts s) name (held sh).
Proof. by apply held_alter. Qed.

Lemma present_bal name (sh : Shared L) : is_Some (route gs name) → present sh → is_Some (get_bal name sh).
Proof. intros Hn Hp. unfold get_bal. by apply fmap_is_Some, Hp. Qed.

(** What leaves the counts of a balancer as they are. *)
Lemma flat_on_bal {A} name (p : prog GwE Balancer.BalState A) :
  is_Some (route gs name) →
  (∀ (mv : guard → Balancer.BalState → guard → Balancer.BalState → Prop),
     (∀ h s s', counts s' = counts s → mv h s h s') → neutral (λ _, True) Ans mv p) →
  flat (on_bal name p).
Proof.
  intros Hn Hp h.
  pose (mv := λ (h : guard) s (h' : guard) s', h' = h ∧ counts s' = counts s).
  eapply owns_mono; [|eapply (owns_zoom (λ _, True) present Ans mv moves (λ h, h)); [|apply (Hp mv)]].
  - by intros o h' (h1 & -> & ->).
  - intros sh Hsh. destruct (present_bal name sh Hn Hsh) as [s Hs]. exists s.
    split_and!; [done|done| |]; [intros s2 _; by apply present_alter|].
    intros h1 h2 s2 [-> Hc]. apply moves_same. rewrite held_set_bal. apply map_eq. intros n.
    destruct (decide (n = name)) as [->|Hne]; [|by rewrite lookup_alter_ne].
    by rewrite lookup_alter_eq, held_lookup, Hs, Hc.
  - by intros h1 s s' Hc.
Qed.

Lemma flat_on_breaker {A} name i (p : prog GwE Breaker.CircuitBreaker A) :
  is_Some (route gs name) → flat (on_breaker name i p).
Proof. intros Hn. apply flat_on_bal; [done|]. intros mv Hmv. by apply steady_breaker. Qed.

Lemma flat_record name meth st started : flat (record name meth st started : Gw unit).
Proof.
  apply neutral_bind; [apply flat_metric|intros _].
  apply neutral_bind; [apply flat_now|intros now]. apply flat_metric.
Qed.

(** A guard on an upstream of this route. *)
Lemma tally_set_bal name s s2 sh h h2 :
  get_bal name sh = Some s → moves_bal h s h2 s2 →
  moves (pair name <$> h) sh (pair name <$> h2) (set_bal name s2 sh).
Proof.
  intros Hs Hm [n j]. unfold tally; simpl. rewrite held_set_bal.
  destruct (decide (n = name)) as [->|Hne].
  - rewrite lookup_alter_eq, held_lookup, Hs. simpl. rewrite Hm.
    assert (Hind : ∀ x : option nat, ind (name, j) (pair name <$> x) = ind j x).
    { intros [x|]; unfold ind; simpl; [|done].
      destruct (decide (x = j)) as [->|Hx]; [by rewrite !decide_True|].
      by rewrite !decide_False by congruence. }
    by rewrite !Hind.
  - rewrite lookup_alter_ne by done.
    assert (Hind : ∀ x : option nat, ind (n, j) (pair name <$> x) = 0%Z).
    { intros [x|]; unfold ind; simpl; [|done]. by rewrite decide_False by congruence. }
    rewrite !Hind. by destruct (held sh !! n ≫= _).
Qed.

Lemma owns_on_bal_pick name b ex :
  is_Some (route gs name) →
  owns present Ans moves (on_bal name (Balancer.pick b ex)) None
    (picked_guard b (pair name)).
Proof.
  intros Hn. change (@None (string * nat)) with (pair name <$> @None nat) at 1.
  eapply owns_mono;
    [|apply (owns_zoom (λ _, True) present Ans moves_bal moves (fmap (pair name)));
      [|apply owns_pick]].
  - intros o h' (h & -> & Hh). destruct o as [[[i up]|]|m|]; simpl in *; [|by subst h..].
    by destruct Hh as [-> Hi].
  - intros sh Hsh. destruct (present_bal name sh Hn Hsh) as [s Hs]. exists s.
    split_and!; [done|done| |]; [intros s2 _; by apply present_alter|].
    intros h h2 s2. by apply tally_set_bal.
Qed.

Lemma moves_drop name i sh : moves (Some (name, i)) sh None (drop_guard name i sh).
Proof.
  intros [n j]. unfold tally; simpl. rewrite held_drop_guard.
  destruct (decide (n = name)) as [->|Hne].
  - rewrite lookup_alter_eq. destruct (held sh !! name) as [l|]; simpl; [|done].
    unfold ind. destruct (decide (j = i)) as [->|Hj].
    + by rewrite list_lookup_alter_eq, decide_False, decide_True.
    + rewrite list_lookup_alter_ne by done. rewrite !decide_False by congruence.
      by destruct (l !! j).
  - rewrite lookup_alter_ne by done. unfold ind. rewrite !decide_False by congruence.
    by destruct (held sh !! n ≫= _).
Qed.

(** A part that starts and ends without a guard. *)
Definition settled {A} (p : Gw A) : Prop := owns present Ans moves p None (λ _ h', h' = None).

Lemma settled_flat {A} (p : Gw A) : flat p → settled p.
Proof. intros Hp. apply Hp. Qed.

Lemma settled_bind {A B} (p : Gw A) (k : A → Gw B) :
  settled p → (∀ a, settled (k a)) → settled (p ≫= k).
Proof.
  intros Hp Hk. apply owns_bind_outcome. eapply owns_mono; [|exact Hp].
  intros [a|m|] h' ->; [apply Hk|done..].
Qed.

Lemma settled_guarded {A} name rt ex (none : Gw A) body :
  route gs name = Some rt → flat none → (∀ i up, routed_at gs name i → flat (body i up)) →
  settled (guarded name (rt_balancer rt) ex none body).
Proof.
  intros Hrt Hnone Hbody. apply owns_bind_outcome.
  eapply owns_mono; [|apply owns_on_bal_pick; by exists rt].
  intros [[[i up]|]|m|] h Hh; [|rewrite Hh; apply Hnone|by rewrite Hh..]. destruct Hh as [-> Hi].
  apply owns_bind_outcome. eapply owns_mono; [|apply Hbody; by exists rt].
  intros o h -> sh Hsh. split; [by apply present_alter|]. exists None. split; [apply moves_drop|done].
Qed.

#[local] Instance flight_walk : Walk gs it (@flat) (@settled).
Proof.
  assert (Hroute : ∀ name i, routed_at gs name i → is_Some (route gs name)).
  { intros name i (rt & Hrt & _). eauto. }
  split.
  - intros A a. apply neutral_ret.
  - intros A B p k. apply neutral_bind.
  - intros d ls op _ _. apply flat_metric.
  - apply flat_now.
  - apply neutral_ext.
  - intros n. apply neutral_await.
  - intros r. apply neutral_await.
  - apply neutral_await.
  - intros url t. apply neutral_await.
  - intros name i Hi. apply flat_on_breaker. eauto.
  - intros name i Hi. apply flat_on_breaker. eauto.
  - intros name i Hi. apply flat_on_breaker. eauto.
  - intros name i Hi. apply flat_on_bal; [eauto|]. intros mv Hmv. by apply steady_with_up.
  - intros name i v Hi. apply flat_on_bal; [eauto|]. intros mv Hmv. by apply steady_set_healthy.
  - intros name k _. apply flat_cache.
  - intros name k st hs b _ _. apply flat_cache.
  - intros A p. apply settled_flat.
  - intros A B p k. apply settled_bind.
  - intros A name rt ex none body. apply settled_guarded.
Qed.
End flight.

(** ** The pool *)
Section counting.
Context `{WebLib, Auth.JwtLib, Profile}.
Context {L : Type} `{!RateLimit.RateLimiter GwE L}.
Context (gs : GatewayState) (Ans : ∀ X, GwE X → X → Prop).
Abbreviation guard := (option (string * nat)).

Lemma settled_arrival (p : prog GwE (Shared L) unit) : arrives gs p → settled gs Ans p.
Proof.
  intros [it req _|c ticks Hin]; [|by apply (walk_task (HW := flight_walk Cache.list_order gs Ans))].
  apply (settled_bind gs Ans (handle it gs req) (λ _, mret ())); [|by intros a].
  apply (walk_handle (HW := flight_walk it gs Ans)); [intros op; apply flat_metric|].
  intros key lim w _. apply flat_limiter.
Qed.

(** The counts are those of the guards [hs]. *)
Definition counted (hs : list guard) (sh : Shared L) : Prop :=
  ∀ κ z, tally κ sh = Some z → z = i64_wrap (Z.of_nat (on κ hs)).

Lemma counted_move hs i h h' (sh sh' : Shared L) :
  hs !! i = Some h → moves h sh h' sh' → counted hs sh → counted (<[i := h']> hs) sh'.
Proof.
  intros Hi Hm Hc κ z'. rewrite Hm. intros (z & Hz & ->)%fmap_Some.
  by rewrite (Hc κ z Hz), shift_wrap, <- (on_insert κ hs i h h' Hi).
Qed.

Lemma counted_new hs sh : counted hs sh → counted (hs ++ [None]) sh.
Proof. intros Hc κ z Hz. rewrite on_app, Nat.add_0_r. by apply Hc. Qed.

Lemma flight_counted ps sh sh' :
  present gs sh → counted [] sh → rtc (pool_step Ans (arrives gs)) ([], sh) (ps, sh') →
  ∃ hs, counted hs sh' ∧ Forall2 (λ p h, ended p → h = None) ps hs.
Proof.
  intros Hp Hc Hsteps.
  destruct (pool_owns Ans (arrives gs) (present gs) moves counted None [] [] sh ps sh'
    counted_move counted_new settled_arrival Hsteps Hp Hc) as (hs & Hj & Hhs); [done|].
  exists hs. split; [exact Hj|]. eapply Forall2_impl; [exact Hhs|]. by intros p h Ho [o ->].
Qed.
End counting.

Lemma tally_lookup {L} name i (sh : Shared L) rs u :
  sh_routes sh !! name = Some rs → Balancer.ups (rs_bal rs) !! i = Some u →
  tally (name, i) sh = Some (Balancer.active u).
Proof.
  intros Hrs Hu. unfold tally, held; simpl. rewrite lookup_fmap, Hrs. simpl.
  unfold counts. by rewrite list_lookup_fmap, Hu.
Qed.

Lemma tally_inv {L} κ (sh : Shared L) z :
  tally κ sh = Some z → ∃ rs u, sh_routes sh !! κ.1 = Some rs
    ∧ Balancer.ups (rs_bal rs) !! κ.2 = Some u ∧ Balancer.active u = z.
Proof.
  unfold tally, held. rewrite lookup_fmap. destruct (sh_routes sh !! κ.1) as [rs|]; [|done].
  simpl. unfold counts. rewrite list_lookup_fmap. intros (u & Hu & ->)%fmap_Some. by exists rs, u.
Qed.

(** ** Properties *)

(** C4: the active-request counts are exact at every moment: however requests
    and health checks interleave, and however requests end (by a response, a panic,
    or because the client went away), the count of an upstream is the number of
    the requests that hold a guard on it.  A request holds at most one guard, and
    none when it has ended: so once all requests have ended, all counts are zero. *)
Theorem active_counts_in_flight `{WebLib, Auth.JwtLib, Profile} {L}
    `{!RateLimit.RateLimiter GwE L} Ans gs (sh : Shared L) ps sh' :
  (∀ name, is_Some (route gs name) → is_Some (sh_routes sh !! name)) →
  (∀ name rs, sh_routes sh !! name = Some rs →
     Forall (λ u, Balancer.active u = 0%Z) (Balancer.ups (rs_bal rs))) →
  rtc (pool_step Ans (arrives gs)) ([], sh) (ps, sh') →
  (Z.of_nat (length ps) < 2 ^ 63)%Z →
  ∃ hs : list (option (string * nat)),
    Forall2 (λ p h, ended p → h = None) ps hs
    ∧ ∀ name rs i u, sh_routes sh' !! name = Some rs →
        Balancer.ups (rs_bal rs) !! i = Some u →
        Balancer.active u = Z.of_nat (length (filter (λ h, h = Some (name, i)) hs))
        ∧ (Forall ended ps → Balancer.active u = 0%Z).
Proof.
  intros Hp Hzero Hsteps Hlen. destruct (flight_counted gs Ans ps sh sh') as (hs & Hc & Hhs);
    [exact Hp| |exact Hsteps|].
  { intros κ z (rs & u & Hrs & Hu & <-)%tally_inv.
    by rewrite (Forall_lookup_1 _ _ _ _ (Hzero _ _ Hrs) Hu). }
  exists hs. split; [done|]. intros name rs i u Hrs Hu.
  assert (Ha : Balancer.active u = Z.of_nat (on (name, i) hs)).
  { rewrite (Hc (name, i) _ (tally_lookup _ _ _ _ _ Hrs Hu)). apply i64_wrap_small.
    pose proof (on_le (name, i) hs). pose proof (Forall2_length _ _ _ Hhs). lia. }
  split; [exact Ha|]. intros Hend. rewrite Ha, on_none; [done|].
  clear -Hhs Hend. induction Hhs as [|p h ps hs Hph _ IH]; [done|].
  apply Forall_cons in Hend as [He Hend]. constructor; auto.
Qed.

Import Demo.

Definition demo_request : prog GwE (Shared RateLimit.InMemory.Limiter) unit :=
  _ ← handle Cache.list_order (gateway (demo_route 1 None None)) (get_request []); mret ().

(** The first steps of a request whose first call fails. *)
Definition demo_steps (k : nat) :=
  advance (alone_in (world first_fails)) k demo_request 0 (shared (demo_route 1 None None)).

(** While the first call is made, the request holds a guard on the first upstream. *)
Lemma active_counts_in_flight_witness :
  ∃ hs : list (option (string * nat)),
    Forall2 (λ p h, ended p → h = None) [(demo_steps 15).1] hs
    ∧ length (filter (λ h, h = Some ("r", 0)) hs) = 1.
Proof.
  destruct (active_counts_in_flight (λ _ _ _, True) (gateway (demo_route 1 None None))
    (shared (demo_route 1 None None)) [(demo_steps 15).1] (demo_steps 15).2) as (hs & Hhs & Hc).
  - intros name [rt Hrt]. unfold route, gateway in Hrt; simpl in Hrt.
    apply lookup_singleton_Some in Hrt as [<- _]. vm_compute. eauto.
  - intros name rs Hrs. unfold shared in Hrs; simpl in Hrs.
    apply lookup_singleton_Some in Hrs as [_ <-]. by repeat constructor.
  - eapply rtc_l; [by apply (pool_arrival _ _ demo_request), a_request, Cache.list_order_ok|].
    apply advance_steps. by split.
  - done.
  - exists hs. split; [exact Hhs|].
    assert (Hs : ∃ rs u, sh_routes (demo_steps 15).2 !! "r" = Some rs
              ∧ Balancer.ups (rs_bal rs) !! 0 = Some u ∧ Balancer.active u = 1%Z).
    { apply (tally_inv ("r", 0)). by vm_compute. }
    destruct Hs as (rs & u & Hrs & Hu & Ha). destruct (Hc "r" rs 0 u Hrs Hu) as [Hn _]. lia.
Defined.

End Flight.
