(* ===== verification/NoPanic.v ===== *)
(** The gateway does not panic: the invariant of its shared state, and that every
    handler and every health check keeps it at each of its steps.  The build
    profile is [release] (additions wrap); the times the clock gives leave room for
    the configured durations.  The logic is that of Pool.v. *)
From S2P Require Import Prelude RustStd Prog Pool Config Router Breaker RateLimit Cache.
From S2P Require Import Http Auth Transform Balancer Telemetry Events State Health Proxy Walk Tasks Demo.
Import Config State Proxy Tasks.

Module NoPanic.

(** Unlike in the debug profile, additions do not panic. *)
Class Wrapping `{Profile} : Prop := wraps : overflow_checks = false.

(** The clock leaves room for durations up to [D]. *)
Definition clock_room `{Http} (D : Duration) : ∀ X, GwE X → X → Prop :=
  clock_in (λ now, now + D < instant_limit)%Z.

Section parts.
Context `{Http, Profile, !Wrapping} (D : Duration).

Abbreviation Ans := (clock_room D).
Abbreviation returns_in I := (λ p P, safe I Ans p (fine P)).

(** ** The breaker *)

Definition breaker_inv (cb : Breaker.CircuitBreaker) : Prop :=
  Breaker.live cb ∧ (Breaker.open_for cb ≤ D)%Z.

Lemma u32_add_wraps a b : ∃ n, u32_add a b = Ret n.
Proof. unfold u32_add. rewrite wraps. case_match; eauto. Qed.

(** A section that returns keeps the mutex live. *)
Lemma locked_safe {A} (f : Breaker.Inner → Outcome A * Breaker.Inner) cb :
  (∀ i, ∃ a, (f i).1 = Ret a) → breaker_inv cb →
  breaker_inv (Breaker.locked f cb).2 ∧ ∃ a, (Breaker.locked f cb).1 = Ret a.
Proof.
  intros Hf [Hl Hd]. unfold Breaker.live in Hl.
  destruct (Breaker.locked_static f cb) as [_ Ho]. unfold breaker_inv. rewrite Ho.
  unfold Breaker.live, Breaker.locked, with_lock. rewrite Hl.
  destruct (Hf (mu_val (Breaker.inner cb))) as [a Ha].
  destruct (f (mu_val (Breaker.inner cb))) as [r i]; simpl in *. subst r. eauto.
Qed.

Lemma safe_allow : returns_in breaker_inv Breaker.allow (λ _, True).
Proof.
  intros now _ cb Hcb. destruct (locked_safe (Breaker.allow_section now) cb) as [Hi [a Ha]].
  - intros i. unfold Breaker.allow_section. repeat case_match; eauto.
  - done.
  - split; [done|]. unfold Breaker.allow_at. by rewrite Ha.
Qed.

Lemma safe_success : returns_in breaker_inv (act Breaker.record_success) (λ _, True).
Proof.
  intros cb Hcb. destruct (locked_safe Breaker.success_section cb) as [Hi [a Ha]].
  - intros i. by eexists.
  - done.
  - split; [done|]. unfold Breaker.record_success. by rewrite Ha.
Qed.

Lemma safe_state : returns_in breaker_inv (act Breaker.state_of) (λ _, True).
Proof.
  intros cb Hcb.
  destruct (locked_safe (λ i, (Ret (Breaker.state i), i)) cb) as [Hi [a Ha]].
  - intros i. by eexists.
  - done.
  - split; [done|]. unfold Breaker.state_of. by rewrite Ha.
Qed.

Lemma safe_failure : returns_in breaker_inv Breaker.record_failure (λ _, True).
Proof.
  intros now Hnow cb Hcb. simpl in Hnow.
  destruct (locked_safe
    (Breaker.failure_section (Breaker.threshold cb) (Breaker.open_for cb) now) cb) as [Hi [a Ha]].
  - intros i. unfold Breaker.failure_section.
    destruct (u32_add_wraps (Breaker.consecutive_failures i) 1) as [n ->].
    case_match; [|by eexists]. destruct Hcb as [_ Hd].
    rewrite instant_add_exact by lia. by eexists.
  - done.
  - split; [done|]. unfold Breaker.record_failure_at. by rewrite Ha.
Qed.

(** ** The balancer *)

Definition bal_inv (b : Balancer.Balancer) (s : Balancer.BalState) : Prop :=
  length (Balancer.ups s) = length (Balancer.upstreams b)
  ∧ Forall (λ u, breaker_inv (Balancer.breaker u)) (Balancer.ups s).

Section balancer.
Context (b : Balancer.Balancer) (Hord : Balancer.order_ok b).

Abbreviation in_bounds := (λ i, i < length (Balancer.upstreams b)).

Lemma alter_inv i f s :
  (∀ u, breaker_inv (Balancer.breaker u) → breaker_inv (Balancer.breaker (f u))) →
  bal_inv b s → bal_inv b (Balancer.alter_up i f s).
Proof.
  intros Hf [Hlen Hall]. split; simpl; [by rewrite length_alter|].
  apply Forall_alter; [done|]. auto.
Qed.

Lemma inv_lookup i s :
  in_bounds i → bal_inv b s →
  ∃ u, Balancer.ups s !! i = Some u ∧ breaker_inv (Balancer.breaker u).
Proof.
  intros Hi [Hlen Hall]. simpl in Hi.
  destruct (lookup_lt_is_Some_2 (Balancer.ups s) i) as [u Hu]; [lia|].
  exists u. split; [done|]. by eapply (Forall_lookup_1 _ _ _ _ Hall).
Qed.

(** The breaker of an upstream that exists. *)
Lemma safe_breaker {A} i (p : prog GwE Breaker.CircuitBreaker A) (P : A → Prop) :
  in_bounds i → returns_in breaker_inv p P →
  returns_in (bal_inv b) (zoom (Balancer.get_breaker i) (Balancer.set_breaker i) p) P.
Proof.
  intros Hi. apply safe_zoom. intros s Hs. destruct (inv_lookup i s Hi Hs) as (u & Hu & Hcb).
  exists (Balancer.breaker u). unfold Balancer.get_breaker. rewrite Hu. split_and!; [done|done|].
  intros cb Hcb'. by apply alter_inv.
Qed.

Lemma safe_with_up {A} i (f : Balancer.UpstreamState → A) :
  in_bounds i → returns_in (bal_inv b) (Balancer.with_up i f) (λ _, True).
Proof.
  intros Hi s Hs. destruct (inv_lookup i s Hi Hs) as (u & -> & _). done.
Qed.

Lemma safe_admits ex i : in_bounds i → returns_in (bal_inv b) (Balancer.admits ex i) (λ _, True).
Proof.
  intros Hi. unfold Balancer.admits. case_match; [done|].
  eapply safe_bind; [by apply safe_with_up|]. intros [] _; [|done].
  apply safe_breaker; [done|apply safe_allow].
Qed.

(** The index found is one of the upstreams. *)
Definition index_ok (r : option nat) : Prop := ∀ i, r = Some i → in_bounds i.

Lemma safe_find ex idxs :
  Forall in_bounds idxs → returns_in (bal_inv b) (Balancer.find_eligible ex idxs) index_ok.
Proof.
  induction 1 as [|i idxs Hi _ IH]; [done|].
  eapply safe_bind; [by apply safe_admits|]. intros [] _; [|exact IH]. by intros j [= <-].
Qed.

Lemma safe_rr ex k : returns_in (bal_inv b) (Balancer.rr_loop b ex k) index_ok.
Proof.
  destruct Hord as [Hne Hall]. induction k as [|k IH].
  { apply safe_find, Balancer.seq_bound. }
  eapply safe_bind with (P := λ _, True); [by intros s [Hlen Hs]|]. intros c _.
  destruct (Balancer.rr_order b !! _) as [i|] eqn:Ei.
  - pose proof (Forall_lookup_1 _ _ _ _ Hall Ei) as Hi.
    eapply safe_bind; [by apply safe_admits|]. intros [] _; [|exact IH]. by intros j [= <-].
  - exfalso. apply lookup_ge_None in Ei.
    assert (length (Balancer.rr_order b) ≠ 0) by (by destruct (Balancer.rr_order b)).
    pose proof (Z.mod_pos_bound c (Z.of_nat (length (Balancer.rr_order b)))). lia.
Qed.

Lemma safe_least ex idxs best :
  Forall in_bounds idxs → index_ok (fst <$> best) →
  returns_in (bal_inv b) (Balancer.least_loop ex idxs best) index_ok.
Proof.
  intros Hidxs. revert best. induction Hidxs as [|i idxs Hi _ IH]; intros best Hbest; [done|].
  eapply safe_bind; [by apply safe_admits|]. intros [] _; [|by apply IH].
  eapply safe_bind; [by apply safe_with_up|]. intros a _. apply IH. intros j Hj.
  destruct best as [[j' aj]|]; [case_match|]; simplify_eq/=; eauto.
Qed.

Lemma safe_pick ex :
  returns_in (bal_inv b) (Balancer.pick b ex)
    (λ r, ∀ i up, r = Some (i, up) → in_bounds i).
Proof.
  eapply safe_bind with (P := index_ok).
  - destruct (Balancer.strategy b); [apply safe_rr|].
    apply safe_least; [apply Balancer.seq_bound|done].
  - intros [i|] Hi; [|done]. specialize (Hi i eq_refl).
    destruct (lookup_lt_is_Some_2 (Balancer.upstreams b) i Hi) as [up ->].
    eapply safe_bind with (P := λ _, True).
    + intros s Hs. split; [by apply alter_inv|done].
    + intros _ _ i' up' [= <- <-]. exact Hi.
Qed.
End balancer.

(** ** The cache *)

Definition cache_inv (c : Cache.ResponseCache) : Prop := Cache.live c ∧ (Cache.ttl c ≤ D)%Z.

Lemma cache_locked_safe {A} (f : Cache.entries → Outcome A * Cache.entries) c :
  (∀ m, ∃ a, (f m).1 = Ret a) → cache_inv c →
  cache_inv (Cache.locked f c).2 ∧ ∃ a, (Cache.locked f c).1 = Ret a.
Proof.
  intros Hf [Hl Hd]. unfold Cache.live in Hl. unfold cache_inv, Cache.live, Cache.locked, with_lock.
  rewrite Hl. destruct (Hf (mu_val (Cache.map c))) as [a Ha].
  destruct (f (mu_val (Cache.map c))) as [r m]; simpl in *. subst r. eauto.
Qed.

Lemma safe_get k : returns_in cache_inv (Cache.get k) (λ _, True).
Proof.
  intros now _ c Hc. destruct (cache_locked_safe (Cache.get_section k now) c) as [Hi [a Ha]].
  - intros m. unfold Cache.get_section. repeat case_match; eauto.
  - done.
  - split; [done|]. unfold Cache.get_at. by rewrite Ha.
Qed.

Lemma safe_put it k st hs body : returns_in cache_inv (Cache.put it k st hs body) (λ _, True).
Proof.
  intros now _ now' Hnow' c Hc. simpl in Hnow'.
  destruct (cache_locked_safe (Cache.put_section it (Cache.ttl c) (Cache.capacity c) now now'
    k st hs body) c) as [Hi [a Ha]].
  - intros m. unfold Cache.put_section. destruct Hc as [_ Hd].
    rewrite instant_add_exact by lia. by eexists.
  - done.
  - split; [done|]. unfold Cache.put_at. by rewrite Ha.
Qed.
End parts.

(** ** The limiter *)

(** A limiter that keeps an invariant and does not panic. *)
Class SafeLimiter `{Http} L `{RateLimit.RateLimiter GwE L} := {
  lim_inv : L → Prop;
  check_safe : ∀ D key lim window,
    safe lim_inv (clock_room D) (RateLimit.check key lim window : prog GwE L _) (fine (λ _, True));
}.

#[export] Instance safe_in_memory `{Http, Profile, !Wrapping} :
  SafeLimiter RateLimit.InMemory.Limiter.
Proof.
  refine {| lim_inv := RateLimit.lim_live |}.
  intros D key lim window now _ l Hl. unfold RateLimit.lim_live in *.
  unfold RateLimit.InMemory.check_at, with_lock. rewrite Hl.
  assert (Hret : ∀ ws, ∃ d, (RateLimit.InMemory.check_section key lim window now ws).1 = Ret d).
  { intros ws. unfold RateLimit.InMemory.check_section. cbv zeta.
    match goal with |- context [u32_add ?a 1] => destruct (u32_add_wraps a 1) as [n ->] end.
    by eexists. }
  destruct (Hret (mu_val (RateLimit.InMemory.lim_windows l))) as [d Hd].
  destruct (RateLimit.InMemory.check_section _ _ _ _ _) as [r ws]; simpl in *. by subst r.
Defined.

#[export] Instance safe_redis `{Http} : SafeLimiter RateLimit.Redis.Limiter.
Proof.
  refine {| lim_inv := λ _, True |}.
  intros D key lim window. split; [|done]. intros [count|e] _; simpl; [|done].
  by destruct (count =? 1)%Z.
Defined.

(** The limiter chosen when the state is built: its kind never changes. *)
Definition safe_any `{Http, Profile, !Wrapping} (redis : bool) : SafeLimiter AnyLimiter.
Proof.
  refine {| lim_inv := λ a, is_redis a = redis ∧
    match a with UseMemory l => RateLimit.lim_live l | UseRedis _ => True end |}.
  intros D key lim window. eapply safe_bind with (P := λ k, k = redis).
  - intros a [Hk Ha]. done.
  - intros k ->. destruct redis.
    + eapply safe_zoom; [|apply check_safe]. intros [l|l] [Hk Ha]; [|done].
      exists l. split_and!; [done|exact I|done].
    + eapply safe_zoom; [|apply check_safe]. intros [l|l] [Hk Ha]; [done|].
      exists l. split_and!; [done|exact Ha|]. intros l2 Hl2. done.
Defined.

(** ** The whole state and the handler *)
Section handler.
Context `{WebLib, Auth.JwtLib, Profile, !Wrapping}.
Context {L : Type} `{!RateLimit.RateLimiter GwE L, !SafeLimiter L}.
Context (it : Cache.hash_order) (gs : GatewayState) (D : Duration).
Context (Hords : ∀ name rt, route gs name = Some rt → Balancer.order_ok (rt_balancer rt)).

Definition route_inv (rt : RouteRuntime) (rs : RouteState) : Prop :=
  bal_inv D (rt_balancer rt) (rs_bal rs)
  ∧ (rt_cached rt = true → ∃ c, rs_cache rs = Some c ∧ cache_inv D c).

(** No mutex is poisoned, every route of the gateway has its state, and the
    durations are within [D]. *)
Definition gw_inv (sh : Shared L) : Prop :=
  lim_inv (sh_limiter sh)
  ∧ ∀ name rt, route gs name = Some rt →
      ∃ rs, sh_routes sh !! name = Some rs ∧ route_inv rt rs.

Abbreviation Gw := (prog GwE (Shared L)).
Definition calm {A} (p : Gw A) (P : A → Prop) : Prop := safe gw_inv (clock_room D) p (fine P).

Lemma gw_inv_alter name f sh rt :
  route gs name = Some rt → (∀ rs, route_inv rt rs → route_inv rt (f rs)) →
  gw_inv sh → gw_inv (alter_route name f sh).
Proof.
  intros Hrt Hf [Hl Hr]. split; [done|]. intros n rt' Hrt'.
  destruct (Hr n rt' Hrt') as (rs & Hrs & Hinv). simpl.
  destruct (decide (n = name)) as [->|Hn].
  - rewrite lookup_alter_eq, Hrs. simpl. eexists. split; [done|].
    assert (rt' = rt) as -> by congruence. by apply Hf.
  - rewrite lookup_alter_ne by done. by exists rs.
Qed.

Lemma calm_on_bal {A} name rt (p : prog GwE Balancer.BalState A) (P : A → Prop) :
  route gs name = Some rt →
  safe (bal_inv D (rt_balancer rt)) (clock_room D) p (fine P) → calm (on_bal name p) P.
Proof.
  intros Hrt. apply safe_zoom. intros sh Hsh. destruct Hsh as [Hl Hr].
  destruct (Hr name rt Hrt) as (rs & Hrs & Hb & Hc). exists (rs_bal rs).
  unfold get_bal. rewrite Hrs. split_and!; [done|done|]. intros s2 Hs2.
  apply (gw_inv_alter name _ sh rt Hrt); [|by split]. intros rs' [_ Hc']. by split.
Qed.

Lemma calm_on_breaker {A} name rt i (p : prog GwE Breaker.CircuitBreaker A) (P : A → Prop) :
  route gs name = Some rt → i < length (Balancer.upstreams (rt_balancer rt)) →
  safe (breaker_inv D) (clock_room D) p (fine P) → calm (on_breaker name i p) P.
Proof. intros Hrt Hi Hp. eapply calm_on_bal; [done|]. by apply safe_breaker. Qed.

Lemma calm_on_cache {A} name rt (p : prog GwE Cache.ResponseCache A) (P : A → Prop) :
  route gs name = Some rt → rt_cached rt = true →
  safe (cache_inv D) (clock_room D) p (fine P) → calm (on_cache name p) P.
Proof.
  intros Hrt Hcached. apply safe_zoom. intros sh Hsh. destruct Hsh as [Hl Hr].
  destruct (Hr name rt Hrt) as (rs & Hrs & Hb & Hc).
  destruct (Hc Hcached) as (c & Hrc & Hci). exists c. unfold get_cache. rewrite Hrs.
  split_and!; [done|done|]. intros c2 Hc2.
  apply (gw_inv_alter name _ sh rt Hrt); [|by split]. intros rs' [Hb' _].
  split; [done|]. intros _. by exists c2.
Qed.

Lemma calm_check key lim w : calm (on_limiter (RateLimit.check key lim w)) (λ _, True).
Proof.
  eapply safe_zoom; [|apply check_safe]. intros sh [Hl Hr].
  exists (sh_limiter sh). split_and!; [done|done|]. intros l2 Hl2. by split.
Qed.

Lemma calm_bind {A B} (p : Gw A) (k : A → Gw B) (P : A → Prop) (P' : B → Prop) :
  calm p P → (∀ a, P a → calm (k a) P') → calm (p ≫= k) P'.
Proof. apply safe_bind. Qed.

(** After a part of which only the absence of panics matters. *)
Lemma calm_then {A B} (p : Gw A) (k : A → Gw B) (P' : B → Prop) :
  calm p (λ _, True) → (∀ a, calm (k a) P') → calm (p ≫= k) P'.
Proof. intros Hp Hk. eapply calm_bind; [exact Hp|]. intros a _. apply Hk. Qed.

Lemma calm_metric d ls op : Telemetry.labels_fit d ls = true → calm (metric d ls op) (λ _, True).
Proof. intros Hd. unfold metric. rewrite Hd. by intros x _. Qed.

Lemma drop_guard_inv name rt i sh :
  route gs name = Some rt → gw_inv sh → gw_inv (drop_guard name i sh).
Proof.
  intros Hrt. apply (gw_inv_alter name _ sh rt Hrt). intros rs [Hb Hc].
  split; [|done]. by apply alter_inv.
Qed.

Lemma calm_guarded {A} name rt ex (none : Gw A) body :
  route gs name = Some rt → calm none (λ _, True) →
  (∀ i up, routed_at gs name i → calm (body i up) (λ _, True)) →
  calm (guarded name (rt_balancer rt) ex none body) (λ _, True).
Proof.
  intros Hrt Hnone Hbody. eapply calm_bind.
  - eapply calm_on_bal; [done|]. apply safe_pick. by eapply Hords.
  - intros [[i up]|] Hi; [|done]. apply safe_finally; [intros sh; by eapply drop_guard_inv|].
    apply Hbody. exists rt. split; [done|]. by eapply Hi.
Qed.

Lemma calm_up {A} name i (p : prog GwE Balancer.BalState A) :
  routed_at gs name i →
  (∀ b, i < length (Balancer.upstreams b) →
     safe (bal_inv D b) (clock_room D) p (fine (λ _, True))) →
  calm (on_bal name p) (λ _, True).
Proof. intros (rt & Hrt & Hi) Hp. eapply calm_on_bal; [exact Hrt|]. by apply Hp. Qed.

Lemma calm_call {A} name i (p : prog GwE Breaker.CircuitBreaker A) :
  routed_at gs name i → safe (breaker_inv D) (clock_room D) p (fine (λ _, True)) →
  calm (on_breaker name i p) (λ _, True).
Proof. intros Hi Hp. apply (calm_up name i _ Hi). intros b Hb. by apply safe_breaker. Qed.

#[local] Instance calm_walk : Walk gs it (λ A p, calm p (λ _, True)) (λ A p, calm p (λ _, True)).
Proof.
  split; try done.
  - intros A B p k. apply calm_then.
  - intros d ls op [[_ Hfit]%andb_true_iff _]%andb_true_iff _. by apply calm_metric.
  - intros name i Hi. apply (calm_call name i _ Hi), safe_state.
  - intros name i Hi. apply (calm_call name i _ Hi), safe_success.
  - intros name i Hi. apply (calm_call name i _ Hi), safe_failure.
  - intros name i Hi. apply (calm_up name i _ Hi). intros b Hb. by apply safe_with_up.
  - intros name i v Hi. apply (calm_up name i _ Hi). intros b Hb s Hs.
    split; [by apply alter_inv|done].
  - intros name k (rt & Hrt & Hc). eapply calm_on_cache; [done|done|apply safe_get].
  - intros name k st hs b (rt & Hrt & Hc) _. eapply calm_on_cache; [done|done|apply safe_put].
  - intros A B p k. apply calm_then.
  - intros A name rt ex none body. apply calm_guarded.
Qed.

Lemma calm_handle req : calm (handle it gs req) (λ _, True).
Proof.
  apply (walk_handle (HW := calm_walk)); [intros op; by apply calm_metric|].
  intros key lim w _. apply calm_check.
Qed.

Lemma calm_task c n : c ∈ Health.checks gs → calm (Health.task c n) (λ _, True).
Proof. exact (walk_task (HW := calm_walk) c n). Qed.
End handler.

(** ** What the gateway starts from *)

Definition durations_within (D : Duration) (r : RouteConfig) : Prop :=
  (Duration_from_secs (Z.max (cb_open_secs (rc_circuit_breaker r)) 1) ≤ D)%Z
  ∧ ∀ c, rc_cache r = Some c → (Duration_from_secs (cc_ttl_secs c) ≤ D)%Z.

Lemma from_config_inv D r :
  durations_within D r → route_inv D (from_config r).1 (from_config r).2.
Proof.
  intros [Hb Hc]. split; simpl.
  - split; simpl; [by rewrite !length_fmap|]. apply Forall_fmap, Forall_true.
    intros u. split; [done|exact Hb].
  - unfold new_cache. destruct (rc_cache r) as [c|] eqn:Er; [|done]. simpl. intros _.
    eexists. split; [done|]. split; [done|]. simpl. by apply Hc.
Qed.

Section start.
Context `{Http, Profile, !Wrapping} {Client Conn : Type}
  (open : string → Result string Client) (connection_manager : Client → Result string Conn).

Lemma build_sound config gs sh D :
  config_ok config → Forall (durations_within D) (gc_routes config) →
  build (Ok ()) open connection_manager config = Ok (gs, sh) →
  (∀ name rt, route gs name = Some rt → Balancer.order_ok (rt_balancer rt))
  ∧ gw_inv (L := AnyLimiter) (SafeLimiter0 := safe_any (is_redis (sh_limiter sh))) gs D sh.
Proof.
  intros (_ & _ & Hok) HD Hb.
  destruct (build_lookup open connection_manager config gs sh Hb) as (_ & Hlim & Hlook).
  rewrite Forall_forall in Hok, HD. split.
  - intros name rt Hrt. destruct (Hlook name) as [[? _]|(r & Hr & _ & Hrt' & _)]; [congruence|].
    destruct (Hok r Hr) as [Hne _]. assert (rt = (from_config r).1) as -> by congruence.
    by apply Balancer.from_route_order.
  - split.
    + split; [done|]. rewrite Hlim. unfold choose_limiter.
      destruct (sc_redis_url _); [destruct (RateLimit.Redis.connect _ _ _)|]; done.
    + intros name rt Hrt. destruct (Hlook name) as [[? _]|(r & Hr & _ & Hrt' & Hs)]; [congruence|].
      exists (from_config r).2. split; [done|].
      assert (rt = (from_config r).1) as -> by congruence. by apply from_config_inv, HD.
Qed.
End start.

(** C5: started from a validated configuration, the gateway serves without a
    panic (release profile): whatever requests arrive, however they, their calls
    and the health checks interleave or are dropped, and whatever upstreams, Redis
    and clients do, no task panics and no lock that a request takes is poisoned,
    as long as the clock leaves room for the configured cool-downs and lifetimes. *)
Theorem gateway_never_panics `{WebLib, Auth.JwtLib, Profile, !Wrapping} {Client Conn}
    (open : string → Result string Client) (connection_manager : Client → Result string Conn)
    config gs sh D ps sh' :
  config_ok config → Forall (durations_within D) (gc_routes config) →
  build (Ok ()) open connection_manager config = Ok (gs, sh) →
  rtc (pool_step (clock_room D) (arrives gs)) ([], sh) (ps, sh') →
  Forall (λ p, ¬ panicked p) ps
  ∧ ∀ name rt, route gs name = Some rt →
      ∃ rs, sh_routes sh' !! name = Some rs ∧ Balancer.bal_live (rt_balancer rt) (rs_bal rs)
        ∧ (rt_cached rt = true → ∃ c, rs_cache rs = Some c ∧ Cache.live c).
Proof.
  intros Hcfg HD Hb Hsteps.
  destruct (build_sound open connection_manager config gs sh D Hcfg HD Hb) as [Hord Hinv].
  pose (lim := safe_any (is_redis (sh_limiter sh))).
  assert (Harr : ∀ p, arrives gs p →
    safe (gw_inv (SafeLimiter0 := lim) gs D) (clock_room D) p (fine (λ _, True))).
  { intros p [it req _|c ticks Hc]; [|by apply (calm_task Cache.list_order)].
    eapply safe_bind; [by apply calm_handle|]. by intros a _. }
  destruct (pool_safe _ _ _ _ _ _ _ Harr Hsteps Hinv) as [[_ Hr] Hps]; [by constructor|].
  split; [done|]. intros name rt Hrt. destruct (Hr name rt Hrt) as (rs & Hrs & [Hlen Hall] & Hc).
  exists rs. split_and!; [done| |].
  - split; [done|]. eapply Forall_impl; [exact Hall|]. by intros u [Hl _].
  - intros Hcached. destruct (Hc Hcached) as (c & Hrc & Hl & _). eauto.
Qed.

Import Demo.

#[local] Instance release_wraps : Wrapping := eq_refl.

(** A request whose first call fails, from its arrival to its answer. *)
Lemma gateway_never_panics_witness :
  ∃ gs sh, build (Ok ()) (λ url, Ok url) (λ c : string, Ok c)
             (demo_config (demo_route 1 None None)) = Ok (gs, sh)
    ∧ (let run := exec (alone_in (still (world first_fails))) (demo_task gs) 0 sh in
       length (calls (r_obs run)) = 2
       ∧ ¬ panicked (Done (E := GwE) (S := Shared AnyLimiter) (r_out run))
       ∧ ∃ rs, sh_routes (r_state run) !! "r" = Some rs).
Proof.
  destruct (build (Ok ()) (λ url, Ok url) (λ c : string, Ok c) _) as [[gs sh]|e] eqn:Eb;
    [|by vm_compute in Eb].
  pose proof Eb as Eb'. injection Eb' as Hgs Hsh. exists gs, sh. split; [done|].
  set (run := exec _ (demo_task gs) 0 sh). cbv zeta.
  destruct (gateway_never_panics (λ url, Ok url) (λ c : string, Ok c)
    (demo_config (demo_route 1 None None)) gs sh
    (Duration_from_secs 1000) [Done (r_out run)] (r_state run)) as [Hps Hr].
  - unfold config_ok, route_ok, upstream_ok. split_and!; [done| |].
    + apply NoDup_singleton.
    + apply Forall_singleton. split_and!; [done| | |done].
      * apply Forall_cons. split; [split; [by exists "a"; left|done]|].
        apply Forall_singleton. split; [by exists "b"; left|done].
      * by exists EmptyString.
  - apply Forall_singleton. split; [by vm_compute|done].
  - done.
  - apply demo_task_steps. by vm_compute.
  - split_and!.
    + subst run. rewrite <- Hgs, <- Hsh. by vm_compute.
    + exact (proj1 (Forall_singleton _ _) Hps).
    + destruct (Hr "r" (from_config (demo_route 1 None None)).1) as (rs & Hrs & _); [by subst gs|].
      by exists rs.
Defined.

End NoPanic.
