(* ===== verification/UnitTests.v ===== *)
(** The repository's unit tests, on the definitions of this development.

    Each definition is one test function of the crates, step by step; a test is
    [true] when none of its assertions fails.  They are evaluated, on the
    association-list headers of Http.v and on tokens that carry their secret. *)
From S2P Require Import Prelude RustStd Prog Config Router Breaker RateLimit Cache.
From S2P Require Import Http Auth Transform Balancer Telemetry Events Metering.
Import Config.
#[local] Existing Instance Breaker.BreakerState_eq_dec.

Module UnitTests.

#[local] Existing Instance Assoc.http.
(** [cargo test]: overflow is checked. *)
#[local] Instance test_profile : Profile := true.

Definition returned {A} (o : Outcome A) (P : A → bool) : bool :=
  match o with Ret a => P a | _ => false end.

(** ** router.rs *)

Definition route_of (name : string) (host : option string) (prefix : string)
    (ups : list UpstreamConfig) : RouteConfig :=
  Build_RouteConfig name (Build_MatchConfig host prefix) ups RoundRobin false None 0 AuthNone None
    None CircuitBreakerConfig_default None HeaderTransforms_default HeaderTransforms_default.

Definition up (url : string) (weight : Z) : UpstreamConfig := Build_UpstreamConfig url weight.

Definition YAML : GatewayConfig := Build_GatewayConfig ServerConfig_default
  [route_of "root" None "/" [up "http://a" default_weight];
   route_of "api" None "/api" [up "http://b" default_weight];
   route_of "users" None "/api/users" [up "http://c" default_weight];
   route_of "hosted" (Some "admin.example.com") "/" [up "http://d" default_weight]].

Definition matches (host : option string) (path name : string) : bool :=
  match Router.match_route YAML host path with
  | Some r => String.eqb (rc_name r) name
  | None => false
  end.

Definition longest_prefix_wins : bool :=
  matches None "/api/users/42" "users" && matches None "/api/orders" "api"
  && matches None "/other" "root".

Definition segment_boundary_required : bool := matches None "/apixyz" "root".

Definition host_routing : bool :=
  matches (Some "admin.example.com") "/anything" "hosted"
  && matches (Some "admin.example.com:8080") "/x" "hosted".

Definition strip_prefix_rewrites_path : bool :=
  let r := Build_RouteConfig "api" (Build_MatchConfig None "/api") [up "http://b" default_weight]
             RoundRobin true None 0 AuthNone None None CircuitBreakerConfig_default None
             HeaderTransforms_default HeaderTransforms_default in
  String.eqb (Router.forward_path "/api/orders" r) "/orders"
  && String.eqb (Router.forward_path "/api" r) "/".

(** ** auth.rs *)

(** A token is its secret and its claims. *)
Definition claims : Type := gmap string (Auth.Value Z).

#[local] Instance test_jwt : Auth.JwtLib := {|
  Auth.Number := Z;
  Auth.Number_to_string := u_to_string;
  Auth.decode := λ token secret v,
    if String.eqb token (secret +:+ ".user") then
      Some {[ "exp" := Auth.VNumber 9999999999%Z; "role" := Auth.VString "user" ]}
    else if String.eqb token (secret +:+ ".admin") then
      Some {[ "exp" := Auth.VNumber 9999999999%Z; "role" := Auth.VString "admin";
              "sub" := Auth.VString "user-1" ]}
    else None;
|}.

Definition headers_with (name value : string) : HeaderMap :=
  match HeaderName_from_bytes name, HeaderValue_from_str value with
  | Some n, Some v => HeaderMap_insert HeaderMap_new n v
  | _, _ => HeaderMap_new
  end.

Definition api_key_accepts_and_rejects : bool :=
  let policy := ApiKey ["good"] in
  is_ok (Auth.authorize policy (headers_with "x-api-key" "good"))
  && negb (is_ok (Auth.authorize policy (headers_with "x-api-key" "bad")))
  && negb (is_ok (Auth.authorize policy HeaderMap_new)).

Definition none_policy_allows_all : bool := is_ok (Auth.authorize AuthNone HeaderMap_new).

Definition jwt_valid_token_is_accepted : bool :=
  is_ok (Auth.authorize (Jwt "topsecret" [("role", "admin")])
           (headers_with "authorization" "Bearer topsecret.admin")).

Definition jwt_wrong_secret_is_rejected : bool :=
  negb (is_ok (Auth.authorize (Jwt "topsecret" [])
                 (headers_with "authorization" "Bearer other.user"))).

Definition jwt_missing_required_claim_is_rejected : bool :=
  negb (is_ok (Auth.authorize (Jwt "s" [("role", "admin")])
                 (headers_with "authorization" "Bearer s.user"))).

(** ** balancer.rs *)

Definition RR : RouteConfig := route_of "r" None "/" [up "http://a" 1; up "http://b" 1].

(** [b.pick(&[]).unwrap()], on the state that holds the guards taken so far. *)
Definition pick (route : RouteConfig) (s : Balancer.BalState) : Outcome nat * Balancer.BalState :=
  let run := exec (alone_at 0) (Balancer.pick (Balancer.from_route route).1 []) 0 s in
  (match r_out run with
   | Ret (Some (i, _)) => Ret i
   | Ret None => Panic "called `Option::unwrap()` on a `None` value"
   | Panic m => Panic m
   | Cancelled => Cancelled
   end, r_state run).

(** The indices of [n] picks; the guards are kept, or dropped after each pick. *)
Fixpoint picked (route : RouteConfig) (keep : bool) (n : nat) (s : Balancer.BalState)
    : Outcome (list nat) :=
  match n with
  | 0 => Ret []
  | S n =>
      match pick route s with
      | (Ret i, s) =>
          match picked route keep n (if keep then s else Balancer.guard_drop i s) with
          | Ret l => Ret (i :: l)
          | o => o
          end
      | (Panic m, _) => Panic m
      | (Cancelled, _) => Cancelled
      end
  end.

Definition round_robin_alternates : bool :=
  returned (picked RR true 2 (Balancer.from_route RR).2)
    (λ l, match l with [i0; i1] => negb (Nat.eqb i0 i1) | _ => false end).

Definition weighted_round_robin_respects_weight : bool :=
  let route := route_of "r" None "/" [up "http://a" 3; up "http://b" 1] in
  returned (picked route true 8 (Balancer.from_route route).2)
    (λ l, Nat.eqb (Balancer.count 0 l) 6 && Nat.eqb (Balancer.count 1 l) 2).

Definition least_connections_prefers_idle : bool :=
  let route := Build_RouteConfig "r" MatchConfig_default
    [up "http://a" default_weight; up "http://b" default_weight] LeastConnections false None 0
    AuthNone None None CircuitBreakerConfig_default None HeaderTransforms_default
    HeaderTransforms_default in
  returned (picked route true 2 (Balancer.from_route route).2)
    (λ l, match l with [i0; i1] => negb (Nat.eqb i0 i1) | _ => false end).

Definition unhealthy_upstreams_are_skipped : bool :=
  let s := r_state (exec (alone_at 0) (Balancer.set_healthy 0 false) 0 (Balancer.from_route RR).2) in
  returned (picked RR false 5 s) (forallb (Nat.eqb 1)).

(** ** breaker.rs *)

(** The state a test ends in, its assertions and'ed on the way. *)
Definition then_ {A} (r : Outcome A * Breaker.CircuitBreaker) (P : A → bool)
    (k : Breaker.CircuitBreaker → bool) : bool := returned r.1 P && k r.2.

Definition is_state (st : Breaker.BreakerState) (cb : Breaker.CircuitBreaker) : bool :=
  returned (Breaker.state_of cb).1 (λ s, bool_decide (s = st)).

Definition any {A} (_ : A) : bool := true.

Definition opens_after_threshold : bool :=
  then_ (Breaker.allow_at 0 (Breaker.new 3 10)) id (λ cb,
  then_ (Breaker.record_failure_at 0 cb) any (λ cb,
  then_ (Breaker.record_failure_at 0 cb) any (λ cb,
  is_state Breaker.Closed cb &&
  then_ (Breaker.record_failure_at 0 cb) any (λ cb,
  is_state Breaker.Open cb &&
  then_ (Breaker.allow_at 0 cb) negb any)))).

Definition half_open_after_cooldown_then_closes_on_success : bool :=
  then_ (Breaker.record_failure_at 0 (Breaker.new 1 10)) any (λ cb,
  is_state Breaker.Open cb &&
  then_ (Breaker.allow_at 0 cb) negb (λ cb,
  then_ (Breaker.allow_at (Duration_from_secs 11) cb) id (λ cb,
  is_state Breaker.HalfOpen cb &&
  then_ (Breaker.record_success cb) any (is_state Breaker.Closed)))).

Definition half_open_failure_reopens : bool :=
  let later := Duration_from_secs 11 in
  then_ (Breaker.record_failure_at 0 (Breaker.new 1 10)) any (λ cb,
  then_ (Breaker.allow_at later cb) id (λ cb,
  then_ (Breaker.record_failure_at later cb) any (is_state Breaker.Open))).

(** ** cache.rs *)

Definition put (now : Instant) (k body : string) (c : Cache.ResponseCache) : Cache.ResponseCache :=
  (Cache.put_at Cache.list_order now now k 200 [] body c).2.

Definition stores_and_returns_within_ttl : bool :=
  let c := put 0 "k" "hi" (Cache.new (Duration_from_secs 60) 10) in
  returned (Cache.get_at "k" 0 c).1 (λ got,
    match got with
    | Some e => (Cache.status e =? 200)%Z && String.eqb (Cache.body e) "hi"
    | None => false
    end).

Definition expired_entries_are_dropped : bool :=
  let c := put 0 "k" "hi" (Cache.new (Duration_from_millis 0) 10) in
  returned (Cache.get_at "k" (Duration_from_millis 5) c).1 (λ got, negb (is_some got)).

Definition capacity_is_bounded : bool :=
  let c := put 0 "c" "" (put 0 "b" "" (put 0 "a" "" (Cache.new (Duration_from_secs 60) 2))) in
  let present := filter (λ k, returned (Cache.get_at k 0 c).1 is_some = true) ["a"; "b"; "c"] in
  Nat.leb (length present) 2.

(** ** ratelimit.rs *)

Definition check (key : string) (limit : Z) (now : Instant) (l : RateLimit.InMemory.Limiter)
    : Outcome RateLimit.RateDecision * RateLimit.InMemory.Limiter :=
  RateLimit.InMemory.check_at key limit (Duration_from_secs 60) now l.

(** The decisions of checks in a row. *)
Fixpoint checks (l : list (string * Z)) (rl : RateLimit.InMemory.Limiter)
    : list (Outcome RateLimit.RateDecision) :=
  match l with
  | [] => []
  | (key, limit) :: l => let '(d, rl) := check key limit 0 rl in d :: checks l rl
  end.

Definition is_allowed (o : Outcome RateLimit.RateDecision) : bool := returned o RateLimit.allowed.
Definition is_blocked (o : Outcome RateLimit.RateDecision) : bool :=
  returned o (λ d, negb (RateLimit.allowed d)).

Definition in_memory_blocks_over_limit : bool :=
  match checks [("k", 3%Z); ("k", 3%Z); ("k", 3%Z); ("k", 3%Z)] RateLimit.InMemory.new with
  | [d1; d2; d3; d4] =>
      forallb is_allowed [d1; d2; d3] && is_blocked d4
      && returned d4 (λ d, (RateLimit.remaining d =? 0)%Z)
  | _ => false
  end.

Definition in_memory_separates_keys : bool :=
  match checks [("a", 1%Z); ("a", 1%Z); ("b", 1%Z)] RateLimit.InMemory.new with
  | [d1; d2; d3] => is_allowed d1 && is_blocked d2 && is_allowed d3
  | _ => false
  end.

(** ** transform.rs *)

Definition insert (h : HeaderMap) (name value : string) : HeaderMap :=
  match HeaderValue_from_str value with
  | Some v => HeaderMap_insert h (HeaderName_from_static name) v
  | None => h
  end.

Definition has (h : HeaderMap) (name value : string) : bool :=
  match get_str h name with Some v => String.eqb v value | None => false end.
Definition lacks (h : HeaderMap) (name : string) : bool := negb (is_some (HeaderMap_get h name)).

Definition strips_hop_by_hop_and_adds_forwarding : bool :=
  let incoming := insert (insert HeaderMap_new "connection" "keep-alive") "x-custom" "v" in
  let out := Transform.forwarded_request_headers incoming "1.2.3.4" "example.com" "http" in
  lacks out "connection" && has out "x-custom" "v" && has out "x-forwarded-for" "1.2.3.4"
  && has out "x-real-ip" "1.2.3.4".

Definition appends_to_existing_forwarded_for : bool :=
  let incoming := insert HeaderMap_new "x-forwarded-for" "10.0.0.1" in
  let out := Transform.forwarded_request_headers incoming "1.2.3.4" "h" "http" in
  has out "x-forwarded-for" "10.0.0.1, 1.2.3.4".

Definition add_and_remove_transforms : bool :=
  let headers := insert HeaderMap_new "x-drop" "1" in
  let t := Build_HeaderTransforms [("x-add", "yes")] ["x-drop"] in
  let headers := Transform.apply_transforms headers t in
  lacks headers "x-drop" && has headers "x-add" "yes".

(** ** lib.rs of telemetry, with a meter that prints the names of its series *)

Definition encode (r : @Telemetry.Registry Metering.Sampled.prometheus) : Result string string :=
  Ok (String.concat " " ((λ s, s.1.1) <$> map_to_list r.2)).

Definition renders : bool :=
  match Telemetry.Metrics_new (H := Metering.Sampled.prometheus) with
  | Ret (m, _) =>
      contains "gw_requests_total"
        (Telemetry.render encode Some (Metering.update m (Telemetry.requests, ["r"; "GET"; "200"], Inc)))
  | _ => false
  end.

(** ** All of them *)

Definition unit_tests : list bool :=
  [longest_prefix_wins; segment_boundary_required; host_routing; strip_prefix_rewrites_path;
   api_key_accepts_and_rejects; none_policy_allows_all; jwt_valid_token_is_accepted;
   jwt_wrong_secret_is_rejected; jwt_missing_required_claim_is_rejected;
   round_robin_alternates; weighted_round_robin_respects_weight; least_connections_prefers_idle;
   unhealthy_upstreams_are_skipped; opens_after_threshold;
   half_open_after_cooldown_then_closes_on_success; half_open_failure_reopens;
   stores_and_returns_within_ttl; expired_entries_are_dropped; capacity_is_bounded;
   in_memory_blocks_over_limit; in_memory_separates_keys;
   strips_hop_by_hop_and_adds_forwarding; appends_to_existing_forwarded_for;
   add_and_remove_transforms; renders].

Lemma unit_tests_pass : Forall (λ b, b = true) unit_tests.
Proof. repeat constructor; vm_compute; reflexivity. Qed.

End UnitTests.
