(* ===== verification/EndToEnd.v ===== *)
(** The repository's end-to-end tests, on the whole model.

    The first part is the harness of src/crates/integration-tests/src/lib.rs: a mock
    upstream that echoes (its JSON bodies are [bodies], read off the calls it answered),
    sleeps or answers a given status, and a gateway started from a configuration.  The
    second part is the tests of tests/proxy.rs; the requests of a test run one after
    the other, within a moment of the clock. *)
From S2P Require Import Prelude RustStd Prog Config Router Breaker RateLimit Cache.
From S2P Require Import Http Auth Transform Balancer Telemetry Events State Proxy Demo.
Import Config State Proxy.

Module EndToEnd.

Import Demo.

(** ** The harness *)

Record Upstream := { id : string; addr : string }.

Definition url (u : Upstream) : string := "http://" +:+ addr u.

Definition start_upstream (id : string) : Upstream := {| id := id; addr := id |}.

(** A decimal number. *)
Fixpoint parse_digits (s : string) (acc : Z) : option Z :=
  match s with
  | EmptyString => Some acc
  | String a s =>
      let d := (Z.of_nat (Ascii.nat_of_ascii a) - 48)%Z in
      if (0 <=? d)%Z && (d <=? 9)%Z then parse_digits s (acc * 10 + d)%Z else None
  end.
Definition parse_number (s : string) : option Z :=
  if is_empty s then None else parse_digits s 0.

(** The path and the query of a target. *)
Fixpoint split_query (s : string) : string * option string :=
  match s with
  | EmptyString => (EmptyString, None)
  | String a s =>
      if Ascii.eqb a "?"%char then (EmptyString, Some s)
      else let '(p, q) := split_query s in (String a p, q)
  end.

(** ** JSON values, as far as the tests use them: an object has its keys once *)
#[warnings="-register-all"]
Inductive Value : Type :=
| Null
| Text (s : string)
| Object (fields : list (string * Value)).

Fixpoint Map_insert (k : string) (v : Value) (m : list (string * Value)) : list (string * Value) :=
  match m with
  | [] => [(k, v)]
  | (k', v') :: m => if String.eqb k' k then (k, v) :: m else (k', v') :: Map_insert k v m
  end.
Definition Map_collect (kvs : list (string * Value)) : list (string * Value) :=
  foldl (λ m kv, Map_insert kv.1 kv.2 m) [] kvs.

(** [value["key"]] *)
Definition index (v : Value) (k : string) : Value :=
  match v with
  | Object m => match List.find (λ kv, String.eqb kv.1 k) m with Some kv => kv.2 | None => Null end
  | _ => Null
  end.
Definition is_text (v : Value) (s : string) : bool :=
  match v with Text s' => String.eqb s' s | _ => false end.
Definition is_null (v : Value) : bool := match v with Null => true | _ => false end.

(** ** The handlers, with the body of the answer where it is not fixed *)

Definition echo (u : Upstream) (method path : string) (query : option string) (headers : HeaderMap)
    : UpstreamResponse * Value :=
  let header_map := Map_collect ((λ nv, (nv.1, Text nv.2)) <$> header_pairs headers) in
  (mkUpResp 200 [header "cache-control" "max-age=60"; header "content-type" "application/json"],
   Object [("id", Text (id u)); ("method", Text method); ("path", Text path);
           ("query", match query with Some q => Text q | None => Null end);
           ("headers", Object header_map)]).

Definition status_code (code : Z) : UpstreamResponse :=
  mkUpResp (default 500%Z (StatusCode_from_u16 code)) [].

Definition slow_ms (query : option string) : Z :=
  default 1000%Z (q ← query; ms ← strip_prefix "ms=" q; parse_number ms).

(** The answer comes after the sleep, unless the caller's timeout fires first. *)
Definition slow (query : option string) (timeout : Duration) : Result SendError UpstreamResponse :=
  if (Duration_from_millis (slow_ms query) <? timeout)%Z then Ok (mkUpResp 200 [])
  else Err (mkSendError false).

(** The routes of a mock upstream, as the tests call them (all with GET): [None] is
    the fallback, [echo].  axum answers 400 to a code that is not a [u16]. *)
Definition served (path : string) (query : option string) (timeout : Duration)
    : option (Result SendError UpstreamResponse) :=
  if String.eqb path "/slow" then Some (slow query timeout)
  else
    code ← strip_prefix "/status/" path;
    if is_empty code || contains "/" code then None
    else Some (Ok (match parse_number code with
                   | Some n => if (n <? 65536)%Z then status_code n else mkUpResp 400 []
                   | None => mkUpResp 400 []
                   end)).

(** The target of a call to [u]. *)
Definition target (u : Upstream) (r : SendRequest) : option string :=
  strip_prefix (url u) (sr_url r).

Definition fallback (u : Upstream) (r : SendRequest) (target : string) : UpstreamResponse * Value :=
  let '(path, query) := split_query target in echo u (sr_method r) path query (sr_headers r).

Definition app (u : Upstream) (r : SendRequest) : option (Result SendError UpstreamResponse) :=
  t ← target u r;
  let '(path, query) := split_query t in
  Some (default (Ok (fallback u r t).1) (served path query (sr_timeout r))).

(** Nothing listens elsewhere. *)
Definition network (us : list Upstream) (r : SendRequest) : Result SendError UpstreamResponse :=
  default (Err (mkSendError true)) (head (omap (λ u, app u r) us)).

(** The calls the fallback has counted. *)
Definition echoed (u : Upstream) (r : SendRequest) : bool :=
  match target u r with
  | Some t => let '(path, query) := split_query t in negb (is_some (served path query (sr_timeout r)))
  | None => false
  end.

Definition hits (u : Upstream) (t : list (Obs GwE)) : nat :=
  length (filter (λ r, echoed u r = true) (sends t)).

(** The bodies that the fallback sent. *)
Definition bodies (us : list Upstream) (t : list (Obs GwE)) : list Value :=
  omap (λ c, match c.2 with
             | Some (Ok _) =>
                 head (omap (λ u, if echoed u c.1
                                  then t ← target u c.1; Some (fallback u c.1 t).2 else None) us)
             | _ => None
             end) (calls t).

Record Gateway := { gw_addr : string; state : GatewayState; shared : Shared AnyLimiter }.

Definition gateway_url (gw : Gateway) (path : string) : string := "http://" +:+ gw_addr gw +:+ path.

(** A port that the system chose. *)
Definition start_gateway (config : GatewayConfig) : Outcome Gateway :=
  _ ← Telemetry.Metrics_new (H := Telemetry.Listed.prometheus);
  match build (Ok ()) (λ url, Ok url) (λ c : string, Ok c) config with
  | Ok (gs, sh) => Ret {| gw_addr := "127.0.0.1:8080"; state := gs; shared := sh |}
  | Err e => Panic e
  end.

(** [parsed] is what serde_yaml makes of the text. *)
Definition cfg (parsed : Result string GatewayConfig) : Outcome GatewayConfig :=
  match from_yaml (λ _, parsed) EmptyString with
  | Ok config => Ret config
  | Err _ => Panic "valid config"
  end.

(** A client's request, and the body it sends. *)
Record ClientRequest := { cr_request : Request; cr_body : string }.

(** [axum::body::to_bytes] with its limit. *)
Definition read_body (max : Z) (body : string) : Result string string :=
  if (max <? Z.of_nat (String.length body))%Z then Err "length limit exceeded" else Ok body.

Definition moment (us : list Upstream) (gw : Gateway) (body : string) : World := {|
  w_now := λ _, 0%Z;
  w_uuid := "uuid";
  w_body := read_body (sc_max_body_bytes (gc_server (gs_config (state gw)))) body;
  w_up := network us;
  w_read := Ok "{}";
  w_redis := 1;
  w_probe := Ok 200%Z;
|}.

(** Requests one after the other: the answers, and the calls of all of them. *)
Fixpoint send_all (us : list Upstream) (gw : Gateway) (reqs : list ClientRequest)
    : list (Outcome Response) * list (Obs GwE) :=
  match reqs with
  | [] => ([], [])
  | req :: reqs =>
      let run := exec (alone_in (moment us gw (cr_body req)))
                   (handle Cache.list_order (state gw) (cr_request req)) 0 (shared gw) in
      let '(rs, t) := send_all us {| gw_addr := gw_addr gw; state := state gw; shared := r_state run |} reqs in
      (r_out run :: rs, r_obs run ++ t)
  end.

(** A request to a URL: the client sends the authority as the host, unless it was given. *)
Fixpoint split_slash (s : string) : string * string :=
  match s with
  | EmptyString => (EmptyString, "/"%string)
  | String a s' =>
      if Ascii.eqb a "/"%char then (EmptyString, s)
      else let '(h, p) := split_slash s' in (String a h, p)
  end.

Definition request (method url : string) (hs : list (Assoc.name * string)) (body : string)
    : ClientRequest :=
  let '(authority, path) := split_slash (default EmptyString (strip_prefix "http://" url)) in
  let '(p, q) := split_query path in
  {| cr_request := mkRequest method (mkUri p q (Some path))
       (hs ++ [header "host" authority]) "127.0.0.1";
     cr_body := body |}.
Definition get (url : string) (hs : list (Assoc.name * string)) : ClientRequest :=
  request "GET" url hs "".

(** A test: the configuration, the requests by the gateway's URLs, and what it asserts. *)
Definition with_gateway (us : list Upstream) (config : GatewayConfig)
    (reqs : (string → string) → list ClientRequest)
    (P : list (Outcome Response) → list (Obs GwE) → bool) : bool :=
  match (config ← cfg (Ok config); start_gateway config) with
  | Ret gw => let '(rs, t) := send_all us gw (reqs (gateway_url gw)) in P rs t
  | _ => false
  end.

Definition status (o : Outcome Response) : Z := match o with Ret r => rsp_status r | _ => 0%Z end.
Definition statuses (rs : list (Outcome Response)) : list Z := status <$> rs.
Definition header_of (o : Outcome Response) (name : string) : option string :=
  match o with Ret r => get_str (rsp_headers r) name | _ => None end.
Definition ids (us : list Upstream) (t : list (Obs GwE)) (ss : list string) : bool :=
  bool_decide ((λ body, match index body "id" with Text s => s | _ => EmptyString end) <$> bodies us t = ss).

(** ** The tests *)

Definition config (server : ServerConfig) (routes : list RouteConfig) : GatewayConfig :=
  Build_GatewayConfig server routes.

(** A route of the tests: serde's defaults for what is not given. *)
Definition route (name : string) (host : option string) (prefix : string) (strip : bool)
    (timeout : option Z) (retries : Z) (auth : AuthPolicy) (rl : option RateLimitConfig)
    (cache : option CacheConfig) (cb : CircuitBreakerConfig) (req_headers : HeaderTransforms)
    (ups : list string) : RouteConfig :=
  Build_RouteConfig name (Build_MatchConfig host prefix)
    ((λ u, Build_UpstreamConfig u default_weight) <$> ups) RoundRobin strip timeout retries auth rl
    cache cb None req_headers HeaderTransforms_default.

Definition one (r : RouteConfig) : GatewayConfig := config ServerConfig_default [r].

Abbreviation plain name host prefix ups :=
  (route name host prefix false None 0 AuthNone None None CircuitBreakerConfig_default
     HeaderTransforms_default ups) (only parsing).

Definition path_routing_strips_prefix : bool :=
  let up := start_upstream "u1" in
  with_gateway [up]
    (one (route "api" None "/api" true None 0 AuthNone None None CircuitBreakerConfig_default
            HeaderTransforms_default [url up]))
    (λ gw, [get (gw "/api/widgets/7") []])
    (λ rs t, bool_decide (statuses rs = [200%Z])
             && match bodies [up] t with
                | [body] => is_text (index body "id") "u1" && is_text (index body "path") "/widgets/7"
                | _ => false
                end).

Definition host_routing_selects_upstream : bool :=
  let a := start_upstream "hostA" in
  let b := start_upstream "hostB" in
  with_gateway [a; b]
    (config ServerConfig_default
       [plain "a" (Some "a.example.com") "/" [url a]; plain "b" (Some "b.example.com") "/" [url b]])
    (λ gw, [get (gw "/anything") [header "host" "b.example.com"]])
    (λ rs t, ids [a; b] t ["hostB"]).

Definition forwards_headers_and_adds_x_forwarded_for : bool :=
  let up := start_upstream "u1" in
  with_gateway [up]
    (one (route "r" None "/" false None 0 AuthNone None None CircuitBreakerConfig_default
            (Build_HeaderTransforms [("x-gateway", "rust-gw")] []) [url up]))
    (λ gw, [get (gw "/x") [header "x-test" "hello"]])
    (λ rs t, match bodies [up] t with
             | [body] =>
                 let headers := index body "headers" in
                 is_text (index headers "x-test") "hello"
                 && is_text (index headers "x-gateway") "rust-gw"
                 && negb (is_null (index headers "x-forwarded-for"))
             | _ => false
             end).

Definition round_robin_distributes_across_upstreams : bool :=
  let a := start_upstream "A" in
  let b := start_upstream "B" in
  with_gateway [a; b] (one (plain "r" None "/" [url a; url b]))
    (λ gw, [get (gw "/p") []; get (gw "/p") []; get (gw "/p") []; get (gw "/p") []])
    (λ rs t, Nat.eqb (length (bodies [a] t)) 2 && Nat.eqb (length (bodies [b] t)) 2
             && Nat.eqb (length (bodies [a; b] t)) 4).

Definition retries_past_a_dead_upstream : bool :=
  let good := start_upstream "good" in
  with_gateway [good]
    (one (route "r" None "/" false None 2 AuthNone None None CircuitBreakerConfig_default
            HeaderTransforms_default ["http://127.0.0.1:1"; url good]))
    (λ gw, [get (gw "/p") []; get (gw "/p") []; get (gw "/p") []])
    (λ rs t, bool_decide (statuses rs = [200; 200; 200]%Z)
             && ids [good] t ["good"; "good"; "good"]).

Definition circuit_breaker_opens_after_failures : bool :=
  let up := start_upstream "u" in
  with_gateway [up]
    (one (route "r" None "/" false None 0 AuthNone None None
            (Build_CircuitBreakerConfig 3 10) HeaderTransforms_default [url up]))
    (λ gw, replicate 5 (get (gw "/status/500") []))
    (λ rs t, bool_decide (take 3 (statuses rs) = [500; 500; 500]%Z)
             && bool_decide (statuses rs !! 4 = Some 503%Z)).

Definition rate_limit_blocks_excess : bool :=
  let up := start_upstream "u" in
  with_gateway [up]
    (one (route "r" None "/" false None 0 AuthNone (Some (Build_RateLimitConfig ScopeIp 2 60)) None
            CircuitBreakerConfig_default HeaderTransforms_default [url up]))
    (λ gw, [get (gw "/a") []; get (gw "/a") []; get (gw "/a") []])
    (λ rs t, bool_decide (statuses rs = [200; 200; 429]%Z)
             && match rs with
                | [_; _; third] => is_some (header_of third "x-ratelimit-limit")
                | _ => false
                end).

Definition api_key_auth_is_enforced : bool :=
  let up := start_upstream "u" in
  with_gateway [up]
    (one (route "r" None "/" false None 0 (ApiKey ["secret"]) None None
            CircuitBreakerConfig_default HeaderTransforms_default [url up]))
    (λ gw, [get (gw "/x") []; get (gw "/x") [header "x-api-key" "secret"]])
    (λ rs t, bool_decide (statuses rs = [401; 200]%Z)).

Definition upstream_timeout_returns_502 : bool :=
  let up := start_upstream "u" in
  with_gateway [up]
    (one (route "r" None "/" false (Some 200%Z) 0 AuthNone None None CircuitBreakerConfig_default
            HeaderTransforms_default [url up]))
    (λ gw, [get (gw "/slow?ms=1500") []])
    (λ rs t, bool_decide (statuses rs = [502%Z])).

Definition oversized_body_is_rejected : bool :=
  let up := start_upstream "u" in
  with_gateway [up]
    (config (Build_ServerConfig default_bind default_admin_bind 100 default_timeout_ms None)
       [plain "r" None "/" [url up]])
    (λ gw, [request "POST" (gw "/x") [] (String.concat "" (replicate 1000 "x"))])
    (λ rs t, bool_decide (statuses rs = [413%Z])).

Definition get_responses_are_cached : bool :=
  let up := start_upstream "u" in
  with_gateway [up]
    (one (route "r" None "/" false None 0 AuthNone None
            (Some (Build_CacheConfig 30 default_cache_cap)) CircuitBreakerConfig_default
            HeaderTransforms_default [url up]))
    (λ gw, [get (gw "/cacheable") []; get (gw "/cacheable") []])
    (λ rs t, match rs with
             | [first; second] =>
                 bool_decide (header_of first "x-cache" = Some "MISS")
                 && bool_decide (header_of second "x-cache" = Some "HIT")
             | _ => false
             end && Nat.eqb (hits up t) 1).

Definition metrics_are_recorded : bool :=
  let up := start_upstream "u" in
  let recorded name t := existsb (λ m, String.eqb (Telemetry.d_name m.1.1) name) (metrics t) in
  with_gateway [up] (one (plain "r" None "/" [url up])) (λ gw, [get (gw "/x") []])
    (λ rs t, recorded "gw_requests_total" t && recorded "gw_gateway_latency_seconds" t).

Definition end_to_end_tests : list bool :=
  [path_routing_strips_prefix; host_routing_selects_upstream;
   forwards_headers_and_adds_x_forwarded_for; round_robin_distributes_across_upstreams;
   retries_past_a_dead_upstream; circuit_breaker_opens_after_failures; rate_limit_blocks_excess;
   api_key_auth_is_enforced; upstream_timeout_returns_502; oversized_body_is_rejected;
   get_responses_are_cached; metrics_are_recorded].

Lemma end_to_end_tests_pass : Forall (λ b, b = true) end_to_end_tests.
Proof. repeat constructor; vm_compute; reflexivity. Qed.

End EndToEnd.
