(* ===== verification/Findings.v ===== *)
(** Where the code and its documentation part: runs of the gateway of Demo.v, and
    two facts about the keys of the rate limiter.  Each example is evaluated. *)
From S2P Require Import Prelude RustStd Prog Config Breaker RateLimit Cache.
From S2P Require Import Http Auth Balancer Telemetry Events State Proxy Demo.
Import Config State Proxy Demo.

Module Findings.

Definition status_of (o : Outcome Response) : Z :=
  match o with Ret r => rsp_status r | _ => 0%Z end.

Definition always (r : Result SendError UpstreamResponse) (url : string)
    : Result SendError UpstreamResponse := r.

(** With as many retries as upstreams, an upstream failure is not reported: after
    every upstream was tried the next pick finds none, and the answer is 503 "no
    healthy upstream" instead of the upstream's status, or of 502. *)
Lemma retries_hide_the_failure :
  let run up (retries : Z) := run_in (world (always up)) (demo_route retries None None) (get_request []) in
  status_of (r_out (run (answers 500) 1%Z)) = 500%Z
  ∧ status_of (r_out (run (answers 500) 2%Z)) = 503%Z
  ∧ status_of (r_out (run (Err (mkSendError true)) 1%Z)) = 502%Z
  ∧ status_of (r_out (run (Err (mkSendError true)) 2%Z)) = 503%Z.
Proof. by vm_compute. Qed.

(** The value the breaker gauge was last set to. *)
Definition gauge (t : list (Obs GwE)) : option MetricOp :=
  last (omap (λ m, if String.eqb (Telemetry.d_name m.1.1) "gw_circuit_breaker_state"
                   then Some m.2 else None) (metrics t)).

Definition touchy_route : RouteConfig := {|
  rc_name := "r";
  rc_matches := MatchConfig_default;
  rc_upstreams := [up_a];
  rc_strategy := RoundRobin;
  rc_strip_path_prefix := false;
  rc_timeout_ms := None;
  rc_retries := 0;
  rc_auth := AuthNone;
  rc_rate_limit := None;
  rc_cache := None;
  rc_circuit_breaker := {| cb_failure_threshold := 1; cb_open_secs := 10 |};
  rc_health_check := None;
  rc_request_headers := HeaderTransforms_default;
  rc_response_headers := HeaderTransforms_default;
|}.

Definition breaker_of (sh : Shared RateLimit.InMemory.Limiter) : option Breaker.BreakerState :=
  s ← get_bal "r" sh;
  u ← Balancer.ups s !! 0;
  Some (Breaker.cb_state (Balancer.breaker u)).

(** The gauge is set before the result is recorded: the call that opens the
    breaker leaves the gauge at "closed". *)
Lemma gauge_lags_behind_breaker :
  let run := run_in (world (always (answers 500))) touchy_route (get_request []) in
  breaker_of (r_state run) = Some Breaker.Open ∧ gauge (r_obs run) = Some (SetTo 0).
Proof. by vm_compute. Qed.

(** A world whose upstream bodies cannot be read. *)
Definition broken_read : World := {|
  w_now := Z.of_nat;
  w_uuid := "uuid";
  w_body := Ok EmptyString;
  w_up := λ _, answers 200;
  w_read := Err "connection reset";
  w_redis := 1;
  w_probe := Ok 200%Z;
|}.

(** The labels of the request counter. *)
Definition requests_counted (t : list (Obs GwE)) : list (list string) :=
  omap (λ m, if String.eqb (Telemetry.d_name m.1.1) "gw_requests_total"
             then Some m.1.2 else None) (metrics t).

(** A body that cannot be read for the cache gives a 502 that was counted as 200. *)
Lemma failed_read_counted_as_ok :
  let run := run_in broken_read
    (demo_route 0 (Some {| cc_ttl_secs := 60; cc_max_entries := 10 |}) None) (get_request []) in
  status_of (r_out run) = 502%Z ∧ requests_counted (r_obs run) = [["r"; "GET"; "200"]].
Proof. by vm_compute. Qed.

Definition cancelled {A} (o : Outcome A) : bool :=
  match o with Cancelled => true | _ => false end.

(** A client that goes away during the upstream call. *)
Definition impatient : Oracle GwE (Shared RateLimit.InMemory.Limiter) := {|
  o_rely := λ _ s, s;
  o_ext := λ n X e, world_answer (world first_fails) n e;
  o_await := λ n X e,
    match e in GwE X return option X with
    | EReadBody _ => Some (Ok EmptyString)
    | _ => None
    end;
|}.

Definition active_updates (t : list (Obs GwE)) : list MetricOp :=
  omap (λ m, if String.eqb (Telemetry.d_name m.1.1) "gw_active_connections"
             then Some m.2 else None) (metrics t).

(** The gauge of in-flight requests is not taken down again (the active count of
    the upstream is: its guard has a [Drop]). *)
Lemma gauge_leaks_on_disconnect :
  let run := exec impatient (handle Cache.list_order (gateway (demo_route 0 None None))
               (get_request [])) 0 (shared (demo_route 0 None None)) in
  cancelled (r_out run) = true ∧ active_updates (r_obs run) = [Inc].
Proof. by vm_compute. Qed.

(** The client chooses the address it is limited by. *)
Lemma rate_key_is_forgeable name addr peer :
  visible addr = true → split_next ","%char addr = addr → trim addr = addr → addr ≠ EmptyString →
  let hs := [header "x-forwarded-for" addr] in
  rate_key ScopeIp name (client_ip hs peer) hs = (name +:+ ":ip:" +:+ addr)%string.
Proof.
  intros Hv Hs Ht Hne hs. unfold rate_key. do 2 f_equal.
  assert (Hget : get_str hs "x-forwarded-for" = Some addr).
  { unfold get_str, HeaderMap_get, get_all_str, hs, header.
    rewrite (name_plain "x-forwarded-for") by done. simpl.
    unfold Assoc.value_to_str. by rewrite Hv. }
  unfold client_ip. rewrite Hget, Hs, Ht. by rewrite (proj2 (is_empty_false addr) Hne).
Qed.

(** An empty X-API-Key is authenticated by the Authorization header, but limited
    under the empty key: all such clients share one window. *)
Lemma empty_api_key_shares_a_window :
  let hs k := [header "x-api-key" EmptyString; header "authorization" k] in
  Auth.authorize (ApiKey ["k1"; "k2"]) (hs "Bearer k1") = Ok ()
  ∧ Auth.authorize (ApiKey ["k1"; "k2"]) (hs "Bearer k2") = Ok ()
  ∧ rate_key ScopeApiKey "r" "ip" (hs "Bearer k1") = "r:key:"
  ∧ rate_key ScopeApiKey "r" "ip" (hs "Bearer k2") = "r:key:".
Proof. by vm_compute. Qed.

End Findings.
